(* ===== verification/_CoqProject ===== *)
-Q . S2P
Prelude.v
GoStrings.v
GoReplace.v
GoCodec.v
GoTime.v
Steps.v
Caveat.v
Sha256.v
Macaroon.v
Identifier.v
Http.v
Header.v
Token.v
Challenge.v
ClientInterceptor.v
Spending.v
Database.v
Migrations.v
Secrets.v
Mint.v
GoNet.v
Freebie.v
Service.v
Limiter.v
Auth.v
Proxy.v
Challenger.v
Restrictions.v
Relay.v
Circuits.v
Onion.v
Contents.v
ContentCli.v
Lnc.v
HashMail.v
Transport.v
System.v
Aperture.v
Programs.v
Purchase.v
Fleet.v
Waiting.v
Daemon.v
