(* ===== verification/Prelude.v ===== *)
(** * Aperture with lnproxy: a verification development

    Aperture is a reverse proxy that sells access to HTTP and gRPC backends.  A
    request without a valid L402 (a macaroon and the preimage of a Lightning
    payment) is answered with a challenge: a fresh macaroon and an invoice.  In
    this repository the invoice is made by the creator of the content (through an
    LNURL) and wrapped by an lnproxy relay, so that the payment goes to the
    creator without trusting the proxy.  The repository has the proxy
    ([aperture/]), the relay ([lnproxy/]) and a server of contents that is sold
    this way ([contents/]).

    ** The parts and the files that model them

    The Go standard library, as far as the program uses it:
    - [Prelude]: errors and outcomes of Go functions (value, error or panic),
      machine integers as [Z] with their wrap-around, bytes, arrays, tactics;
    - [GoStrings], [GoCodec], [GoTime], [GoNet], [Http], [Sha256]: [strings] and
      [strconv], hex, base64 and big-endian codecs and readers, [time] with its
      saturation, [net] addresses, header maps, and SHA-256 as a function;
    - [GoReplace]: [strings.ReplaceAll], and when replacements commute;
    - [Steps]: programs that start and stop things, with a trace; and step functions
      with an action for each thing that can happen next, for goroutines.

    L402 ([aperture/lsat/]):
    - [Caveat] ([caveat.go], [service.go], [satisfier.go]): Modules [Caveat],
      [LsatService], [Satisfiers]; [VerifyCaveats] iterates over a Go map, whose
      order is a parameter;
    - [Macaroon]: the interface of the macaroon and hash libraries, a class of
      operations and a class of laws, with a concrete instance;
    - [Identifier] ([identifier.go]), [Header] ([header.go], [credential.go],
      [context.go], [server_interceptor.go]), [Token] ([token.go] and the file
      store of [store.go]), [Challenge] (the text of the challenge and the
      regular expression that reads it);
    - [ClientInterceptor] ([client_interceptor.go]): the paying client, as a
      state monad with errors over a [TokenStore] and a trace of its effects;
      [Spending]: all the calls of one interceptor, in the order of its lock.

    The server ([aperture/]):
    - [Database] ([aperturedb/interface.go], [sqlerrors.go]): [ExecTx], and in Module
      [Executor] the same loop with its options and its waits; Module [Running] is
      a table with what its next calls will meet;
    - [Migrations] ([aperturedb/postgres.go], [migrations.go]): the connection
      string, the opening of the database and the file system of its schemas;
    - [Secrets] (the [SecretStore] interface of the mint, [aperturedb/secrets.go]
      and its table; the class also says what the store holds, because a read of it may
      fail), [Onion] (lnd's [tor.OnionStore], [aperturedb/onion.go] and
      [onion_store.go]), [Lnc] (the [Store] interface of [lnc], its database
      store, and [lnc/lnc.go]): each an interface as a class with laws, a table
      with its constraints, its queries, and the store that implements the
      interface through [ExecTx];
    - [Mint] ([mint/mint.go]): [MintL402] and [VerifyL402] against the classes
      [SecretStore], [Challenger] and [ServiceLimiter];
    - [Restrictions]: the mint with the limiter and the challenger below, and what is
      left of the configured limits of a service;
    - [Freebie] ([freebie/], [auth/config.go]), [Service] ([proxy/service.go],
      [pricer/]), [Limiter] ([services.go]), [Auth] ([auth/]: the class
      [Authenticator] and its two implementations), [Proxy] ([proxy/proxy.go]);
    - [Challenger] ([challenger/lnproxy.go], [lnurl/]): the cache of invoice
      states, the two checks on it, and a new challenge; [Waiting]: the goroutines
      of a status check, step by step;
    - [HashMail] ([hashmail_server.go]): the mailbox server as a transition
      system whose steps are the calls, the timers and the transport of bytes;
      [Transport]: the two goroutines and the pipes that carry the bytes of one
      stream, with its tear-down;
    - [Aperture] ([config.go], [aperture.go]): configuration, certificate, local
      services, start and stop; [Programs]: [run] and [Main], the log file, the
      exporter, the CORS handler, and the [main] of the content server and of the
      relay; [Daemon]: the main goroutine of [run] beside those of the servers, of
      the invoice stream and of the status checks that requests wait for.

    [Relay] ([lnproxy/relay.go], [cmd/http-relay/main.go]) is the relay, with its
    unsigned 64-bit arithmetic, and [Circuits] its process: the circuits as
    goroutines that wait for the node, the handlers, the interrupt and [main]; [Contents] ([contents/]) the content server and
    [ContentCli] ([contents/cmd/appcli]) its control program, written against an
    interface the server satisfies.  [System] puts proxy, authenticator, mint,
    challenger and relay together as [aperture.go] does, and [Purchase] lets the
    client of [ClientInterceptor] call that system: the invoker of the client is the
    handler of the proxy, with whatever happens to the system in between.  [Fleet] is
    several such systems over one store of secrets, each with its own cache, which a
    restart fills again from the list of lnd.

    A definition has the name of the Go function or type it models, a record the
    name [t] in a Module of the type's name where Rocq needs one, and the state a
    method changes is passed in and returned.  What the code calls outside the
    repository is a field of a class (with its documented laws in a second class)
    or of a record [env] of answers; every theorem that depends on such laws is
    applied in its [_witness] to a concrete instance.

    ** What the theorems show

    - Money and access, end to end: [System.served_requests_are_paid] (a backend
      behind a service with authentication is reached only with a token of this
      mint whose invoice the node reported as settled), [Purchase.client_buys_access]
      (the interceptor of the client, called against the proxy, pays the challenge it
      gets and is let in by its second attempt, whatever other clients do meanwhile;
      gRPC is taken at its protocol for answers without a message),
      [Proxy.backend_reached_only_when_admitted], [unpaid_request_is_challenged],
      [free_rides_are_bounded] for requests one after the other, and
      [Freebie.free_rides_under_concurrency] for requests in flight together (with [n]
      freebies and [c] requests at a time [(n + c)! / (n! c!) - 1] rides, and no more);
      [Fleet.fleet_serves_only_paid] and
      [paid_token_works_everywhere] (the same two promises for several instances and
      across restarts).
    - The relay: [Relay.circuit_never_loses] and [circuit_order] for one circuit;
      [Circuits.circuits_are_honest] (at any moment of a running relay a circuit has
      paid at most once, within its budget, and settles only with the preimage it
      has paid for), [interrupted_relay_owes_nothing] (after an interrupt every
      circuit is over and none has lost money), [circuits_refine_switch], and
      [unknown_payment_strands_others] (one panic abandons the other circuits).
    - Goroutines: [Daemon.shutdown_completes], [Circuits.relay_shutdown_completes],
      [Waiting.status_check_returns] and [Transport.tear_down_returns] (no schedule
      keeps a shutdown, a status check or a tear-down from its end); [Waiting.concurrent_check_refines] and
      [Transport.goroutines_refine_queue] (what the sequential models of [Challenger]
      and [HashMail] say is what the goroutines do);
      [Daemon.early_stream_error_is_lost].
    - Tokens: [Mint.minted_token_verifies], [minted_token_is_confined],
      [failed_mint_leaves_no_secret]; [Caveat.verification_is_monotone];
      [Restrictions.configured_limits_are_never_sold]; the round trips of caveats,
      identifiers, tokens, headers and challenges.
    - The client: [Spending.client_spends_once] (over all its calls at most one
      payment settles, and its token is kept), [at_most_one_payment], [interrupted_payment_resumes],
      [paid_token_never_pays]; the file store refines a store of one token and
      never drops a paid one.
    - Stores: [transaction_all_or_nothing], [serialization_failures_are_retried],
      [retries_are_bounded]; [schema_is_order_independent] and
      [schema_file_is_read_whole] for the schemas;
      the database stores implement their interfaces ([_implements_SecretStore],
      where a settlement comes back shifted by the time zone of the server, and
      [_implements_SessionStore]); the key of the Tor
      service is stable; a session of LNC can be resumed after a restart.
    - The mailbox server: at most one reader and one writer hold a stream, and
      messages arrive whole and in order as long as no frame is a multiple of the
      buffer and the stream is not torn down; the exceptions are theorems too
      ([torn_down_stream_skips]).
    - Configuration and start: services are prepared, caveats follow the
      configuration, headers are forwarded, the certificate is fresh, every
      request has a handler, pre-flight requests are answered, and a run stops what
      it has started but for two servers; the pricer quotes the content that the route
      serves, and the control program changes what it is told to.

    ** Bounds and fuel

    Only functions that the code itself bounds, or that consume their input,
    take a number: [ExecTx] makes [DefaultNumTxRetries] (10) attempts; a schema file
    is read with one more read than it has bytes; the parser
    of an IPv6 address has at most eight groups; [Frames.pieces] cuts a byte
    list with its length as fuel ([pieces_go_fuel] shows that any larger number
    gives the same); [authRegex_find] tries each position of the field.  The
    environment loops (invoice updates, payment updates, requests) are functions
    or relations on the finite sequence of what has happened so far.  Every
    function is total: a failure is a value of [outcome].

    ** What is not modelled

    - Concurrency below the level of locks and channels.  The parts that lock a
      mutex for a whole call are sequential programs, and a step of [Waiting],
      [Daemon], [Transport] or [Circuits] is what a goroutine does while it holds a lock or
      between two uses of a channel.  The map of the freebie counter has no lock in
      the code; [Freebie.Concurrent] gives each access its own moment, and what a data
      race on the map does to a Go program is outside.  [Proxy] and [System] serve one
      request after the other.
    - A database: a commit that reports an error is taken as not applied, as
      [database/sql] documents it, so that a lost acknowledgement of an applied commit is
      outside.  Which of several rows comes first, and whether a read is answered, is
      up to the database; [System] lets this change at any time.
    - Processes that die in the middle of a call: [Fleet] restarts an instance between
      two requests, and [Spending] ends each call of the client; a relay that was
      ended ([Circuits], [Dead]) does not take up its circuits again.
    - Time in the mailbox server is the freedom of an armed timer to fire; its
      rate limiter is an outcome.
    - Third-party code: macaroons, lnd, btcec, the mailbox connection of LNC, gRPC
      and HTTP transports, [httputil.ReverseProxy], regular expressions of the
      configuration ([regexp.Compile] is a parameter; the two fixed expressions of
      L402 are matchers), Postgres beyond the queries used, bun, flags, YAML, Tor.
    - Glue: loggers, metrics, listeners, test fixtures, generated code; and what has
      no behaviour of its own: imports, declarations of interfaces whose
      implementation is modelled, constructors that only fill in fields. *)
From Stdlib Require Export ZArith Lia.
From Stdlib Require Export Strings.Byte Strings.Ascii.
From stdpp Require Export base gmap strings list fin_maps.

(** ** Scopes, hint databases *)

Declare Scope go_scope.
Delimit Scope go_scope with go.
#[global] Open Scope Z_scope.
#[global] Open Scope go_scope.

(** stdpp blocks the reduction of [+:+]; the models compute with it. *)
#[global] Arguments String.append !_ _ : simpl nomatch.

Create HintDb go discriminated.
#[export] Hint Constants Opaque : go.
#[export] Hint Variables Opaque : go.

(** [lia] after spelling out quotients and remainders. *)
Ltac zlia := Z.div_mod_to_equations; lia.

(** ** Errors and outcomes

    A Go error value.  [Sentinel] is a package-level [errors.New] variable,
    compared by identity (its text names it); [Errorf] is an error built on the
    spot with [errors.New] or with [fmt.Errorf] without [%w], of which only the
    constant text of the format is kept; [Wrapf] is [fmt.Errorf] with [%w].
    [PgError] is the error type of the Postgres driver with its SQLSTATE code,
    and the last two are the error types of [aperturedb/sqlerrors.go], of which
    only [ErrSerializationError] can be unwrapped. *)
Inductive error :=
  | Sentinel (name : string)
  | Errorf (msg : string)
  | Wrapf (msg : string) (e : error)
  | PgError (code : string)
  | ErrSerializationError (e : error)
  | ErrSQLUniqueConstraintViolation (e : error).

#[export] Instance error_eq_dec : EqDecision error.
Proof. solve_decision. Defined.

(** [errors.Is]. *)
Fixpoint errors_is (e target : error) : bool :=
  bool_decide (e = target) ||
  match e with
  | Wrapf _ e' | ErrSerializationError e' => errors_is e' target
  | _ => false
  end.

(** What a Go function that returns [(A, error)] does: it returns a value, it
    returns an error, or it panics. *)
Inductive outcome (A : Type) :=
  | Ok (a : A)
  | Err (e : error)
  | Panic (msg : string).
Arguments Ok {A} a.
Arguments Err {A} e.
Arguments Panic {A} msg.

#[export] Instance outcome_eq_dec {A} `{EqDecision A} : EqDecision (outcome A).
Proof. solve_decision. Defined.

#[export] Instance outcome_ret : MRet outcome := fun A => Ok.
#[export] Instance outcome_bind : MBind outcome := fun A B f o =>
  match o with
  | Ok a => f a
  | Err e => Err e
  | Panic m => Panic m
  end.
#[export] Instance outcome_fmap : FMap outcome := fun A B f o =>
  match o with
  | Ok a => Ok (f a)
  | Err e => Err e
  | Panic m => Panic m
  end.

Definition is_ok {A} (o : outcome A) : bool :=
  match o with Ok _ => true | _ => false end.
Definition is_err {A} (o : outcome A) : bool :=
  match o with Err _ => true | _ => false end.

(** The value of an outcome, for concrete runs. *)
Definition ok_or {A} (d : A) (o : outcome A) : A := match o with Ok a => a | _ => d end.

(** [if err != nil { return ..., fmt.Errorf("msg: %v", err) }] *)
Definition errorf {A} (msg : string) (o : outcome A) : outcome A :=
  match o with
  | Err _ => Err (Errorf msg)
  | _ => o
  end.

(** [if err != nil { return ..., fmt.Errorf("msg: %w", err) }] *)
Definition wrapf {A} (msg : string) (o : outcome A) : outcome A :=
  match o with
  | Err e => Err (Wrapf msg e)
  | _ => o
  end.

Definition of_option {A} (e : error) (o : option A) : outcome A :=
  match o with Some a => Ok a | None => Err e end.

#[export] Instance Ok_inj {A} : Inj (=) (=) (@Ok A).
Proof. by intros a b [= ->]. Qed.

Lemma bind_Ok_inv {A B} (o : outcome A) (f : A -> outcome B) b :
  (o ≫= f) = Ok b -> exists a, o = Ok a /\ f a = Ok b.
Proof. destruct o; cbn; naive_solver. Qed.

Lemma errorf_Ok_inv {A} m (o : outcome A) a : errorf m o = Ok a -> o = Ok a.
Proof. destruct o; cbn; congruence. Qed.

Lemma wrapf_Ok_inv {A} m (o : outcome A) a : wrapf m o = Ok a -> o = Ok a.
Proof. destruct o; cbn; congruence. Qed.

Lemma of_option_Ok_inv {A} e (o : option A) a : of_option e o = Ok a -> o = Some a.
Proof. destruct o; cbn; congruence. Qed.

Lemma errors_is_refl e : errors_is e e = true.
Proof. destruct e; cbn; rewrite bool_decide_eq_true_2; done. Qed.

Lemma errors_is_wrap m e t : errors_is e t = true -> errors_is (Wrapf m e) t = true.
Proof. intros H. cbn. rewrite H. apply orb_true_r. Qed.
#[export] Hint Resolve errors_is_refl errors_is_wrap : go.

(** Invert a hypothesis [o = Ok _] through binds, wrappers and options. *)
Ltac inv_ok :=
  repeat match goal with
  | H : (_ ≫= _) = Ok _ |- _ =>
      apply bind_Ok_inv in H; destruct H as (? & ? & H); cbn beta in H
  | H : errorf _ _ = Ok _ |- _ => apply errorf_Ok_inv in H
  | H : wrapf _ _ = Ok _ |- _ => apply wrapf_Ok_inv in H
  | H : of_option _ _ = Ok _ |- _ => apply of_option_Ok_inv in H
  | H : Ok _ = Ok _ |- _ => injection H as H; subst
  | H : Err _ = Ok _ |- _ => discriminate H
  | H : Panic _ = Ok _ |- _ => discriminate H
  end.

(** ** Machine integers

    A [w]-bit Go integer is a [Z] in its range; the operations that can leave
    the range are followed by the wrap of their type. *)
Definition u8 (z : Z) : Z := z mod 2 ^ 8.
Definition u16 (z : Z) : Z := z mod 2 ^ 16.
Definition u32 (z : Z) : Z := z mod 2 ^ 32.
Definition u64 (z : Z) : Z := z mod 2 ^ 64.
Definition i64 (z : Z) : Z := (z + 2 ^ 63) mod 2 ^ 64 - 2 ^ 63.

Definition maxInt64 : Z := 2 ^ 63 - 1.
Definition minInt64 : Z := - 2 ^ 63.

Definition is_u16 (z : Z) : Prop := 0 <= z < 2 ^ 16.
Definition is_u32 (z : Z) : Prop := 0 <= z < 2 ^ 32.
Definition is_u64 (z : Z) : Prop := 0 <= z < 2 ^ 64.
Definition is_i64 (z : Z) : Prop := minInt64 <= z <= maxInt64.

Lemma u64_small z : 0 <= z < 2 ^ 64 -> u64 z = z.
Proof. apply Z.mod_small. Qed.
Lemma u64_range z : 0 <= u64 z < 2 ^ 64.
Proof. apply Z.mod_pos_bound. lia. Qed.
Lemma u16_small z : 0 <= z < 2 ^ 16 -> u16 z = z.
Proof. apply Z.mod_small. Qed.
Lemma u32_small z : 0 <= z < 2 ^ 32 -> u32 z = z.
Proof. apply Z.mod_small. Qed.
Lemma u8_small z : 0 <= z < 2 ^ 8 -> u8 z = z.
Proof. apply Z.mod_small. Qed.
Lemma i64_small z : is_i64 z -> i64 z = z.
Proof.
  unfold is_i64, minInt64, maxInt64, i64. intros H.
  rewrite Z.mod_small; lia.
Qed.
Lemma i64_range z : is_i64 (i64 z).
Proof.
  unfold is_i64, minInt64, maxInt64, i64.
  pose proof (Z.mod_pos_bound (z + 2 ^ 63) (2 ^ 64) ltac:(lia)). lia.
Qed.
Lemma u64_i64 z : u64 (i64 z) = u64 z.
Proof.
  unfold u64, i64. rewrite <- (Zminus_mod_idemp_l ((z + 2 ^ 63) mod 2 ^ 64)).
  rewrite Zmod_mod, Zminus_mod_idemp_l. f_equal. lia.
Qed.
Lemma i64_add_l a b : i64 (i64 a + b) = i64 (a + b).
Proof.
  unfold i64. f_equal.
  replace ((a + 2 ^ 63) mod 2 ^ 64 - 2 ^ 63 + b + 2 ^ 63)
    with ((a + 2 ^ 63) mod 2 ^ 64 + b) by lia.
  rewrite Zplus_mod_idemp_l. f_equal. lia.
Qed.
#[export] Hint Resolve u64_range i64_range : go.

(** ** Bytes *)

#[export] Instance byte_eq_dec : EqDecision byte := Byte.byte_eq_dec.
#[export] Program Instance byte_countable : Countable byte :=
  inj_countable Byte.to_N Byte.of_N _.
Next Obligation. intros b. apply Byte.of_to_N. Qed.

Definition byte_val (b : byte) : Z := Z.of_N (Byte.to_N b).
Definition byte_of (z : Z) : byte :=
  default Byte.x00 (Byte.of_N (Z.to_N (u8 z))).

Lemma byte_val_range b : 0 <= byte_val b < 256.
Proof. unfold byte_val. pose proof (Byte.to_N_bounded b). lia. Qed.

Lemma byte_val_of z : byte_val (byte_of z) = u8 z.
Proof.
  unfold byte_val, byte_of, u8.
  pose proof (Z.mod_pos_bound z (2 ^ 8) ltac:(lia)) as Hb.
  destruct (Byte.of_N _) eqn:E; cbn.
  - apply Byte.to_of_N in E. rewrite E. apply Z2N.id. lia.
  - apply Byte.of_N_None_iff in E. lia.
Qed.

Lemma byte_of_val b : byte_of (byte_val b) = b.
Proof.
  unfold byte_of, byte_val. rewrite u8_small.
  - rewrite N2Z.id, Byte.of_to_N. done.
  - pose proof (Byte.to_N_bounded b). lia.
Qed.

#[export] Instance byte_val_inj : Inj (=) (=) byte_val.
Proof. intros a b H. rewrite <- (byte_of_val a), <- (byte_of_val b). by f_equal. Qed.

Lemma byte_of_eq z b : u8 z = byte_val b -> byte_of z = b.
Proof. intros H. apply byte_val_inj. by rewrite byte_val_of. Qed.

Lemma byte_of_wrap z : byte_of (z mod 256) = byte_of z.
Proof. unfold byte_of, u8. change (2 ^ 8) with 256. by rewrite Zmod_mod. Qed.

(** An array [[n]byte] is a list of that length. *)
Definition is_array (n : nat) (l : list byte) : Prop := length l = n.
#[export] Instance is_array_dec n l : Decision (is_array n l).
Proof. unfold is_array. apply _. Defined.

(** [copy(dst[:], src)] into a fresh [[n]byte]: the rest stays zero. *)
Definition copy_array (n : nat) (src : list byte) : list byte :=
  take n src ++ replicate (n - length src) Byte.x00.

Lemma copy_array_length n src : is_array n (copy_array n src).
Proof.
  unfold is_array, copy_array. rewrite length_app, length_take, length_replicate. lia.
Qed.
Lemma copy_array_id n src : is_array n src -> copy_array n src = src.
Proof.
  unfold is_array, copy_array. intros <-.
  rewrite take_ge, Nat.sub_diag by lia. apply app_nil_r.
Qed.
#[export] Hint Resolve copy_array_length : go.
#[export] Hint Rewrite byte_val_of byte_of_val : go.
