(* ===== verification/GoStrings.v ===== *)
(** * The parts of Go's [strings] and [strconv] packages the program uses

    A Go string is a byte sequence, here Stdlib's [string].  Case mapping is
    modelled on ASCII, which is what the configuration values, header names and
    error texts it is applied to consist of. *)
From Stdlib Require Import DecimalString DecimalZ DecimalN.
From S2P Require Import Prelude.

(** ** Generic facts on [string] *)

Lemma string_app_assoc (a b c : string) : (a +:+ b) +:+ c = a +:+ (b +:+ c).
Proof. induction a; cbn; [done | by f_equal]. Qed.
Lemma string_app_nil_r (a : string) : a +:+ "" = a.
Proof. induction a; cbn; [done | by f_equal]. Qed.
Lemma string_app_cons a (b c : string) : String a b +:+ c = String a (b +:+ c).
Proof. done. Qed.
Lemma append_inj_l (a b c : string) : a +:+ b = a +:+ c -> b = c.
Proof. induction a as [|x a IH]; [done|]. cbn. intros [= H]. auto. Qed.
#[export] Hint Rewrite string_app_assoc string_app_nil_r : go.

(** The bytes of a string. *)
Definition bytes_of (s : string) : list byte := String.list_byte_of_string s.
Definition string_of (l : list byte) : string := String.string_of_list_byte l.

Lemma string_of_bytes_of s : string_of (bytes_of s) = s.
Proof. apply String.string_of_list_byte_of_string. Qed.
Lemma bytes_of_string_of l : bytes_of (string_of l) = l.
Proof. apply String.list_byte_of_string_of_list_byte. Qed.
#[export] Hint Rewrite string_of_bytes_of bytes_of_string_of : go.

Fixpoint forallb_string (p : ascii -> bool) (s : string) : bool :=
  match s with
  | "" => true
  | String a s' => p a && forallb_string p s'
  end.

Lemma forallb_string_app p a b :
  forallb_string p (a +:+ b) = forallb_string p a && forallb_string p b.
Proof. induction a as [|c a IH]; cbn; [done|]. by rewrite IH, andb_assoc. Qed.

Lemma forallb_string_impl (p q : ascii -> bool) s :
  (forall c, p c = true -> q c = true) ->
  forallb_string p s = true -> forallb_string q s = true.
Proof.
  intros Hpq. induction s as [|c s IH]; cbn; [done|].
  rewrite !andb_true_iff. intros [? ?]. auto.
Qed.

(** [s] does not contain the character [c]. *)
Definition lacks (c : ascii) (s : string) : bool :=
  forallb_string (fun a => negb (bool_decide (a = c))) s.

Lemma lacks_cons c a s : lacks c (String a s) = true <-> a ≠ c /\ lacks c s = true.
Proof.
  unfold lacks; cbn. rewrite andb_true_iff, negb_true_iff, bool_decide_eq_false. done.
Qed.
Lemma lacks_app c a b : lacks c (a +:+ b) = lacks c a && lacks c b.
Proof. apply forallb_string_app. Qed.
Lemma lacks_if (p : ascii -> bool) c s :
  p c = false -> forallb_string p s = true -> lacks c s = true.
Proof.
  intros Hc. apply forallb_string_impl. intros a Ha.
  apply negb_true_iff, bool_decide_eq_false. intros ->. congruence.
Qed.

(** ** [strings.HasPrefix], [strings.Contains] *)
Fixpoint HasPrefix (s prefix : string) : bool :=
  match prefix, s with
  | "", _ => true
  | String p prefix', String a s' => bool_decide (a = p) && HasPrefix s' prefix'
  | String _ _, "" => false
  end.

Fixpoint Contains (s substr : string) : bool :=
  HasPrefix s substr ||
  match s with
  | "" => false
  | String _ s' => Contains s' substr
  end.

Lemma HasPrefix_app p s : HasPrefix (p +:+ s) p = true.
Proof.
  induction p as [|a p IH]; [by destruct s|].
  cbn. by rewrite bool_decide_eq_true_2, IH.
Qed.

Lemma HasPrefix_inv s p : HasPrefix s p = true -> exists r, s = p +:+ r.
Proof.
  revert s; induction p as [|a p IH]; intros s H; [by exists s|].
  destruct s as [|b s]; cbn in H; [done|].
  apply andb_true_iff in H as [->%bool_decide_eq_true H].
  destruct (IH _ H) as [r ->]. by exists r.
Qed.

(** ** [strings.Split] with a one-character separator *)
Fixpoint Split (s : string) (sep : ascii) : list string :=
  match s with
  | "" => [""]
  | String a s' =>
      if decide (a = sep) then "" :: Split s' sep
      else match Split s' sep with
           | w :: ws => String a w :: ws
           | [] => [String a ""]
           end
  end.

(** [strings.SplitN(s, sep, 2)]: [None] when [sep] does not occur. *)
Fixpoint Cut (s : string) (sep : ascii) : option (string * string) :=
  match s with
  | "" => None
  | String a s' =>
      if decide (a = sep) then Some ("", s')
      else match Cut s' sep with
           | Some (w, r) => Some (String a w, r)
           | None => None
           end
  end.

Definition SplitN2 (s : string) (sep : ascii) : list string :=
  match Cut s sep with
  | Some (a, b) => [a; b]
  | None => [s]
  end.

Lemma Split_nonempty s c : Split s c ≠ [].
Proof. destruct s; cbn; [done|]. repeat case_match; done. Qed.

Lemma Split_lacks s c : lacks c s = true -> Split s c = [s].
Proof.
  induction s as [|a s IH]; [done|]. rewrite lacks_cons. intros [Hne Hs].
  cbn. rewrite decide_False by done. by rewrite IH.
Qed.

Lemma Split_app a b c :
  lacks c a = true -> Split (a +:+ String c b) c = a :: Split b c.
Proof.
  induction a as [|x a IH].
  - intros _. cbn. by rewrite decide_True.
  - rewrite lacks_cons. intros [Hne Ha]. cbn. rewrite decide_False by done. by rewrite IH.
Qed.

Lemma Cut_app a b c :
  lacks c a = true -> Cut (a +:+ String c b) c = Some (a, b).
Proof.
  induction a as [|x a IH].
  - intros _. cbn. by rewrite decide_True.
  - rewrite lacks_cons. intros [Hne Ha]. cbn. rewrite decide_False by done. by rewrite IH.
Qed.

Lemma Cut_inv s c a b :
  Cut s c = Some (a, b) -> s = a +:+ String c b /\ lacks c a = true.
Proof.
  revert a b; induction s as [|x s IH]; intros a b; cbn; [done|].
  case_decide; [naive_solver|].
  destruct (Cut s c) as [[w r]|] eqn:E; [|done]. intros [= <- <-].
  destruct (IH _ _ eq_refl) as [-> Hl]. split; [done|]. by apply lacks_cons.
Qed.

Lemma Cut_None s c : Cut s c = None <-> lacks c s = true.
Proof.
  induction s as [|x s IH]; [done|]. rewrite lacks_cons. cbn.
  case_decide; [naive_solver|].
  destruct (Cut s c) as [[w r]|] eqn:E; naive_solver.
Qed.

(** [strings.Join] for one-character separators. *)
Fixpoint Join (l : list string) (sep : ascii) : string :=
  match l with
  | [] => ""
  | [s] => s
  | s :: l' => s +:+ String sep (Join l' sep)
  end.

Lemma Split_Join l c :
  l ≠ [] -> Forall (fun s => lacks c s = true) l -> Split (Join l c) c = l.
Proof.
  intros Hne Hl. induction Hl as [|s l Hs Hl IH]; [done|].
  destruct l as [|s' l].
  - by apply Split_lacks.
  - change (Join (s :: s' :: l) c) with (s +:+ String c (Join (s' :: l) c)).
    rewrite Split_app by done. by rewrite IH.
Qed.

Lemma lacks_Join c sep l :
  c ≠ sep -> Forall (fun s => lacks c s = true) l -> lacks c (Join l sep) = true.
Proof.
  intros Hne Hl. induction Hl as [|s l Hs Hl IH]; [done|]. destruct l as [|s' l]; [done|].
  change (Join (s :: s' :: l) sep) with (s +:+ String sep (Join (s' :: l) sep)).
  rewrite lacks_app, Hs. apply lacks_cons. auto.
Qed.

Lemma Join_Split s c : Join (Split s c) c = s.
Proof.
  induction s as [|a s IH]; [done|]. cbn. case_decide as Hd.
  - subst. pose proof (Split_nonempty s c). destruct (Split s c); [done|].
    cbn. by f_equal.
  - destruct (Split s c) as [|w ws] eqn:E; [by apply Split_nonempty in E|].
    rewrite <- IH. destruct ws; done.
Qed.

(** ** [strings.TrimLeft] *)
Fixpoint TrimLeft (s cutset : string) : string :=
  match s with
  | "" => ""
  | String a s' => if lacks a cutset then s else TrimLeft s' cutset
  end.

(** ** [strings.ToLower] *)
Definition lower_char (a : ascii) : ascii :=
  let n := nat_of_ascii a in
  if (65 <=? n)%nat && (n <=? 90)%nat then ascii_of_nat (n + 32) else a.

Fixpoint ToLower (s : string) : string :=
  match s with
  | "" => ""
  | String a s' => String (lower_char a) (ToLower s')
  end.

Lemma ToLower_app a b : ToLower (a +:+ b) = ToLower a +:+ ToLower b.
Proof. induction a; cbn; [done | by f_equal]. Qed.

(** ** [strconv] *)
Definition is_digit (a : ascii) : bool :=
  let n := nat_of_ascii a in (48 <=? n)%nat && (n <=? 57)%nat.

(** [strconv.FormatUint(n, 10)], and [%v] of an unsigned integer. *)
Definition FormatUint (n : Z) : string :=
  NilZero.string_of_uint (N.to_uint (Z.to_N n)).

(** [strconv.FormatInt(z, 10)], and [%d] of an integer. *)
Definition FormatInt (z : Z) : string :=
  if decide (z < 0) then String "-" (FormatUint (- z)) else FormatUint z.

(** A non-empty sequence of decimal digits. *)
Definition parse_digits (s : string) : option Z :=
  match s with
  | "" => None
  | _ => Z.of_uint <$> NilEmpty.uint_of_string s
  end.

Definition errParseInt : error := Errorf "strconv.ParseInt".

(** [strconv.ParseInt(s, 10, 64)] and, on a 64-bit platform, [strconv.Atoi]. *)
Definition signed_digits (s : string) : option Z :=
  match s with
  | String "-" r => Z.opp <$> parse_digits r
  | String "+" r => parse_digits r
  | _ => parse_digits s
  end.

Definition ParseInt (s : string) : outcome Z :=
  match signed_digits s with
  | Some z => if decide (minInt64 <= z <= maxInt64) then Ok z else Err errParseInt
  | None => Err errParseInt
  end.

Definition Atoi : string -> outcome Z := ParseInt.

Lemma string_of_uint_digits d :
  forallb_string is_digit (NilEmpty.string_of_uint d) = true.
Proof. induction d; cbn; done. Qed.

Lemma FormatUint_digits n : forallb_string is_digit (FormatUint n) = true.
Proof.
  unfold FormatUint, NilZero.string_of_uint.
  destruct (N.to_uint _) eqn:E; [done|..]; apply string_of_uint_digits.
Qed.

Lemma to_uint_nonnil n : N.to_uint n ≠ Decimal.Nil.
Proof. destruct n; [done|]. apply DecimalPos.Unsigned.to_uint_nonnil. Qed.

Lemma parse_digits_FormatUint n : 0 <= n -> parse_digits (FormatUint n) = Some n.
Proof.
  intros Hn. unfold FormatUint.
  pose proof (to_uint_nonnil (Z.to_N n)) as Hnn.
  assert (E : NilZero.string_of_uint (N.to_uint (Z.to_N n))
              = NilEmpty.string_of_uint (N.to_uint (Z.to_N n))).
  { destruct (N.to_uint _); done. }
  rewrite E. unfold parse_digits.
  destruct (NilEmpty.string_of_uint _) eqn:Es.
  { destruct (N.to_uint _); done. }
  rewrite <- Es, NilEmpty.usu. cbn. f_equal. unfold Z.of_uint.
  change (Pos.of_uint ?d) with (N.of_uint d).
  rewrite DecimalN.Unsigned.of_to. lia.
Qed.

Lemma digit_head_not_sign s :
  forallb_string is_digit s = true ->
  signed_digits s = parse_digits s.
Proof.
  destruct s as [|a s]; [done|]. cbn. intros [Ha _]%andb_true_iff.
  destruct a as [[] [] [] [] [] [] [] []]; done.
Qed.

(** Printing and parsing a machine integer is the identity. *)
Lemma ParseInt_FormatInt z : is_i64 z -> ParseInt (FormatInt z) = Ok z.
Proof.
  unfold is_i64, FormatInt. intros Hz. case_decide as Hneg.
  - unfold ParseInt, signed_digits. rewrite parse_digits_FormatUint by lia.
    cbn [fmap option_fmap option_map]. rewrite decide_True by lia. f_equal. lia.
  - unfold ParseInt. rewrite digit_head_not_sign by apply FormatUint_digits.
    rewrite parse_digits_FormatUint by lia. by rewrite decide_True.
Qed.

Lemma ParseInt_range s z : ParseInt s = Ok z -> is_i64 z.
Proof.
  unfold ParseInt. destruct (signed_digits s); [|done]. case_decide; [|done].
  by intros [= <-].
Qed.

Lemma FormatInt_lacks c z :
  is_digit c = false -> c ≠ "-"%char -> lacks c (FormatInt z) = true.
Proof.
  intros Hd Hm. unfold FormatInt. case_decide.
  - apply lacks_cons. split; [done|]. eapply lacks_if; [done|]. apply FormatUint_digits.
  - eapply lacks_if; [done|]. apply FormatUint_digits.
Qed.

Lemma FormatUint_lacks c n : is_digit c = false -> lacks c (FormatUint n) = true.
Proof. intros Hd. eapply lacks_if; [done|]. apply FormatUint_digits. Qed.

Lemma Atoi_FormatUint n : 0 <= n <= maxInt64 -> Atoi (FormatUint n) = Ok n.
Proof.
  intros Hn. unfold Atoi, ParseInt. rewrite digit_head_not_sign by apply FormatUint_digits.
  rewrite parse_digits_FormatUint by lia. rewrite decide_True; [done|].
  unfold minInt64, maxInt64 in *. lia.
Qed.
