(* ===== verification/GoReplace.v ===== *)
(** * Go's [strings.ReplaceAll]

    The function, and when the order of several replacements does not matter:
    no old or new text overlaps another old text. *)
From S2P Require Import Prelude.
From S2P Require Import GoStrings.

(** Scanning from the left, without overlaps; [skip] characters of a match are
    still to be passed over. *)
Fixpoint replace_go (old new : string) (skip : nat) (s : string) : string :=
  match s with
  | "" => ""
  | String c s' =>
      match skip with
      | S k => replace_go old new k s'
      | O =>
          if HasPrefix s old then new +:+ replace_go old new (String.length old - 1) s'
          else String c (replace_go old new 0 s')
      end
  end.

(** Around every character, when there is nothing to look for. *)
Fixpoint insert_all (new s : string) : string :=
  match s with
  | "" => new
  | String c s' => new +:+ String c (insert_all new s')
  end.

Definition ReplaceAll (s old new : string) : string :=
  match old with
  | "" => insert_all new s
  | _ => replace_go old new 0 s
  end.

Lemma replace_go_skip old new u t :
  replace_go old new (String.length u) (u +:+ t) = replace_go old new 0 t.
Proof. by induction u. Qed.

Lemma ReplaceAll_nil old new : old ≠ "" -> ReplaceAll "" old new = "".
Proof. by destruct old. Qed.

Lemma ReplaceAll_match old new t :
  old ≠ "" -> ReplaceAll (old +:+ t) old new = new +:+ ReplaceAll t old new.
Proof.
  destruct old as [|a old]; [done|]. intros _. cbn -[HasPrefix].
  assert (HasPrefix (String a (old +:+ t)) (String a old) = true) as ->
    by exact (HasPrefix_app (String a old) t).
  by rewrite Nat.sub_0_r, replace_go_skip.
Qed.

Lemma ReplaceAll_skip old new c t :
  old ≠ "" -> HasPrefix (String c t) old = false ->
  ReplaceAll (String c t) old new = String c (ReplaceAll t old new).
Proof. destruct old as [|a old]; [done|]. intros _ H. cbn -[HasPrefix]. by rewrite H. Qed.

Lemma length_app_lt (u t : string) :
  u ≠ "" -> (String.length t < String.length (u +:+ t))%nat.
Proof.
  destruct u as [|x u]; [done|]. intros _. induction u as [|y u IH]; cbn in *; lia.
Qed.

(** Induction along the scan for one text. *)
Lemma scan_ind (old : string) (P : string -> Prop) :
  old ≠ "" -> P "" ->
  (forall t, P t -> P (old +:+ t)) ->
  (forall c t, HasPrefix (String c t) old = false -> P t -> P (String c t)) ->
  forall s, P s.
Proof.
  intros Ho H0 Hm Hs s. remember (String.length s) as n eqn:E. revert s E.
  induction (lt_wf n) as [n _ IH]. intros s ->. destruct s as [|c t]; [done|].
  destruct (HasPrefix (String c t) old) eqn:Hp.
  - apply HasPrefix_inv in Hp as [r Hr]. rewrite Hr. apply Hm. eapply IH; [|done].
    rewrite Hr. by apply length_app_lt.
  - apply Hs; [done|]. eapply IH; [|done]. cbn. lia.
Qed.

(** ** Texts that do not overlap *)

Definition comparable (a b : string) : bool := HasPrefix a b || HasPrefix b a.

(** No nonempty suffix of [w] is comparable with [b]: an occurrence of [b] cannot
    begin inside [w], whatever follows. *)
Fixpoint clear (w b : string) : bool :=
  match w with
  | "" => true
  | String _ w' => negb (comparable w b) && clear w' b
  end.

Definition tail (s : string) : string := match s with "" => "" | String _ s' => s' end.

Lemma HasPrefix_comparable a b t : HasPrefix (a +:+ t) b = true -> comparable a b = true.
Proof.
  unfold comparable. revert b. induction a as [|x a IH]; intros b H.
  - by destruct b.
  - destruct b as [|y b]; [done|]. cbn in *. apply andb_true_iff in H as [->%bool_decide_eq_true H].
    rewrite bool_decide_eq_true_2 by done. cbn. by apply IH.
Qed.

Lemma HasPrefix_trans a b t : HasPrefix t a = true -> HasPrefix t b = true -> comparable a b = true.
Proof. intros [r ->]%HasPrefix_inv. apply HasPrefix_comparable. Qed.

Lemma comparable_comm a b : comparable a b = comparable b a.
Proof. apply orb_comm. Qed.

(** A clear text is passed over. *)
Lemma ReplaceAll_clear w old new t :
  old ≠ "" -> clear w old = true ->
  ReplaceAll (w +:+ t) old new = w +:+ ReplaceAll t old new.
Proof.
  intros Ho. induction w as [|c w IH]; [done|]. cbn [clear]. intros [Hc Hw]%andb_true_iff.
  cbn [String.append]. rewrite ReplaceAll_skip; [by rewrite IH|done|].
  apply not_true_iff_false. intros H. apply (HasPrefix_comparable (String c w)) in H.
  rewrite H in Hc. done.
Qed.

(** A suffix of [w] that the new text could complete begins the old one too. *)
Fixpoint stable (w old new : string) : bool :=
  match w with
  | "" => true
  | String _ w' => (negb (comparable w new) || HasPrefix old w) && stable w' old new
  end.

Lemma HasPrefix_app_l a b w : HasPrefix a w = true -> HasPrefix (a +:+ b) w = true.
Proof. intros [r ->]%HasPrefix_inv. rewrite string_app_assoc. apply HasPrefix_app. Qed.

(** Such a text occurs after the replacement only where it has occurred before. *)
Lemma HasPrefix_stable w old new t :
  old ≠ "" -> stable w old new = true ->
  HasPrefix (ReplaceAll t old new) w = true -> HasPrefix t w = true.
Proof.
  intros Ho. revert t. induction w as [|d w IH]; intros t Hw H; [by destruct t|].
  cbn [stable] in Hw. apply andb_true_iff in Hw as [Hc Hw].
  destruct t as [|c t]; [by rewrite ReplaceAll_nil in H|].
  destruct (HasPrefix (String c t) old) eqn:Hp.
  - apply HasPrefix_inv in Hp as [r Hr]. rewrite Hr, ReplaceAll_match in H by done.
    apply HasPrefix_comparable in H. rewrite comparable_comm in H. rewrite H in Hc.
    rewrite Hr. by apply HasPrefix_app_l.
  - rewrite ReplaceAll_skip in H by done. cbn in *.
    apply andb_true_iff in H as [-> H]. by apply IH.
Qed.

(** Replacing [old] by [new] does not interfere with looking for [b]. *)
Definition harmless (old new b : string) : bool :=
  clear new b && clear b old && stable (tail b) old new.

Lemma harmless_scan old new b c t :
  old ≠ "" -> harmless old new b = true -> b ≠ "" ->
  HasPrefix (String c t) b = false ->
  HasPrefix (String c (ReplaceAll t old new)) b = false.
Proof.
  intros Ho [[_ _]%andb_true_iff Ht]%andb_true_iff Hb H. apply not_true_iff_false. intros Hp.
  destruct b as [|d b]; [done|]. cbn in Hp, H, Ht. apply andb_true_iff in Hp as [Hd Hp].
  apply HasPrefix_stable in Hp; [|done|done]. by rewrite Hd, Hp in H.
Qed.

(** Two replacements that do not interfere can be made in either order. *)
Lemma ReplaceAll_comm a a' b b' s :
  a ≠ "" -> b ≠ "" -> harmless a a' b = true -> harmless b b' a = true ->
  ReplaceAll (ReplaceAll s a a') b b' = ReplaceAll (ReplaceAll s b b') a a'.
Proof.
  intros Ha Hb Hab Hba.
  assert (H1 := Hab). apply andb_true_iff in H1 as [[H1 H2]%andb_true_iff _].
  assert (H3 := Hba). apply andb_true_iff in H3 as [[H3 H4]%andb_true_iff _].
  remember (String.length s) as n eqn:E. revert s E. induction (lt_wf n) as [n _ IH]. intros s ->.
  destruct s as [|c t]; [by rewrite !ReplaceAll_nil|].
  destruct (HasPrefix (String c t) a) eqn:Pa; [|destruct (HasPrefix (String c t) b) eqn:Pb].
  - apply HasPrefix_inv in Pa as [r Hr]. rewrite Hr.
    rewrite (ReplaceAll_match a), (ReplaceAll_clear a'), (ReplaceAll_clear a b), (ReplaceAll_match a)
      by done.
    f_equal. eapply IH; [|done]. rewrite Hr. by apply length_app_lt.
  - apply HasPrefix_inv in Pb as [r Hr]. rewrite Hr.
    rewrite (ReplaceAll_match b), (ReplaceAll_clear b'), (ReplaceAll_clear b a), (ReplaceAll_match b)
      by done.
    f_equal. eapply IH; [|done]. rewrite Hr. by apply length_app_lt.
  - rewrite !ReplaceAll_skip; [|by (done || apply harmless_scan)..].
    f_equal. eapply IH; [|done]. cbn. lia.
Qed.

(** ** Occurrences *)

Lemma Contains_cons c t b :
  Contains (String c t) b = HasPrefix (String c t) b || Contains t b.
Proof. done. Qed.

(** No occurrence inside a clear text. *)
Lemma Contains_clear w b t : clear w b = true -> Contains (w +:+ t) b = Contains t b.
Proof.
  induction w as [|c w IH]; [done|]. cbn [clear]. intros [Hc Hw]%andb_true_iff.
  cbn [String.append]. rewrite Contains_cons, IH by done.
  destruct (HasPrefix (String c (w +:+ t)) b) eqn:E; [|done].
  apply (HasPrefix_comparable (String c w)) in E. by rewrite E in Hc.
Qed.

(** What is replaced is gone, when the new text cannot bring it back. *)
Lemma ReplaceAll_gone old new s :
  old ≠ "" -> clear new old = true -> stable (tail old) old new = true ->
  Contains (ReplaceAll s old new) old = false.
Proof.
  intros Ho H1 H2. revert s.
  apply (scan_ind old); [done| |intros t IH|intros c t Hp IH].
  - rewrite ReplaceAll_nil by done. by destruct old.
  - by rewrite ReplaceAll_match, Contains_clear.
  - rewrite ReplaceAll_skip by done. rewrite Contains_cons, IH, orb_false_r.
    apply not_true_iff_false. intros H. destruct old as [|d old]; [done|].
    cbn [HasPrefix tail] in *.
    apply andb_true_iff in H as [Hd H]. apply (HasPrefix_stable old) in H; [|done|done].
    by rewrite Hd, H in Hp.
Qed.

(** What does not occur is not brought in by a harmless replacement. *)
Lemma ReplaceAll_absent old new b s :
  old ≠ "" -> b ≠ "" -> harmless old new b = true ->
  Contains s b = false -> Contains (ReplaceAll s old new) b = false.
Proof.
  intros Ho Hb Hh. assert (H1 := Hh). apply andb_true_iff in H1 as [[H1 _]%andb_true_iff _].
  revert s.
  refine (scan_ind old (fun s => Contains s b = false -> Contains (ReplaceAll s old new) b = false)
            Ho _ _ _); [|intros t IH|intros c t Hp IH].
  - by rewrite ReplaceAll_nil.
  - intros Hc. rewrite ReplaceAll_match, Contains_clear by done. apply IH.
    clear -Hc. induction old as [|d old IHo]; [done|]. cbn [String.append] in Hc.
    rewrite Contains_cons in Hc. apply orb_false_iff in Hc as [_ Hc]. by apply IHo.
  - rewrite Contains_cons. intros [Hb' Hc]%orb_false_iff. rewrite ReplaceAll_skip by done.
    rewrite Contains_cons, IH, orb_false_r by done. by apply harmless_scan.
Qed.
