(* ===== verification/GoCodec.v ===== *)
(** * Go's [encoding/hex], [encoding/base64] (StdEncoding), [encoding/binary]
    (big endian) and the readers the program decodes from *)
From S2P Require Import Prelude.
From S2P Require Import GoStrings.

(** ** Finite checks over a bounded range *)
Definition range_check (n : nat) (p : Z -> bool) : bool :=
  forallb (fun i => p (Z.of_nat i)) (seq 0 n).

Lemma range_check_spec n p z :
  range_check n p = true -> 0 <= z < Z.of_nat n -> p z = true.
Proof.
  unfold range_check. rewrite forallb_forall. intros H Hz.
  rewrite <- (Z2Nat.id z) by lia. apply H. apply in_seq. lia.
Qed.

Fixpoint index_of (c : ascii) (s : string) : option Z :=
  match s with
  | "" => None
  | String a s' => if decide (a = c) then Some 0 else Z.succ <$> index_of c s'
  end.

Definition char_at (s : string) (i : Z) : ascii :=
  default "000"%char (String.get (Z.to_nat i) s).

(** ** [encoding/hex] *)
Definition hexLower : string := "0123456789abcdef".
Definition hexUpper : string := "0123456789ABCDEF".

Definition hex_char (z : Z) : ascii := char_at hexLower z.
Definition hex_val (c : ascii) : option Z :=
  match index_of c hexLower with
  | Some v => Some v
  | None => index_of c hexUpper
  end.

#[global] Arguments hex_char : simpl never.
#[global] Arguments hex_val : simpl never.

Fixpoint hex_EncodeToString (l : list byte) : string :=
  match l with
  | [] => ""
  | b :: l' =>
      String (hex_char (byte_val b / 16))
        (String (hex_char (byte_val b mod 16)) (hex_EncodeToString l'))
  end.

Definition errHex : error := Errorf "encoding/hex".

Fixpoint hex_DecodeString (s : string) : outcome (list byte) :=
  match s with
  | "" => Ok []
  | String a (String b s') =>
      match hex_val a, hex_val b with
      | Some x, Some y => rest ← hex_DecodeString s'; Ok (byte_of (16 * x + y) :: rest)
      | _, _ => Err errHex
      end
  | _ => Err errHex
  end.

(** A lower-case hexadecimal digit, [[a-f0-9]] in a regular expression. *)
Definition is_hex (c : ascii) : bool :=
  match index_of c hexLower with Some _ => true | None => false end.

#[global] Arguments is_hex : simpl never.

Lemma hex_val_char z : 0 <= z < 16 -> hex_val (hex_char z) = Some z.
Proof.
  intros Hz.
  pose proof (range_check_spec 16 (fun z => bool_decide (hex_val (hex_char z) = Some z))
    z eq_refl Hz) as H.
  by apply bool_decide_eq_true in H.
Qed.

Lemma is_hex_char z : 0 <= z < 16 -> is_hex (hex_char z) = true.
Proof. by apply (range_check_spec 16 (fun z => is_hex (hex_char z))). Qed.

Lemma hex_nibbles b :
  0 <= byte_val b / 16 < 16 /\ 0 <= byte_val b mod 16 < 16.
Proof. pose proof (byte_val_range b). zlia. Qed.

Lemma hex_roundtrip l : hex_DecodeString (hex_EncodeToString l) = Ok l.
Proof.
  induction l as [|b l IH]; [done|]. cbn.
  pose proof (hex_nibbles b) as [Hq Hr].
  rewrite !hex_val_char, IH by done. cbn. do 2 f_equal.
  apply byte_of_eq. unfold u8. pose proof (byte_val_range b). zlia.
Qed.

Lemma hex_encode_chars l : forallb_string is_hex (hex_EncodeToString l) = true.
Proof.
  induction l as [|b l IH]; [done|]. cbn.
  pose proof (hex_nibbles b) as [Hq Hr]. by rewrite !is_hex_char, IH by done.
Qed.

Lemma hex_encode_length l :
  String.length (hex_EncodeToString l) = (2 * length l)%nat.
Proof. induction l as [|b l IH]; cbn in *; [done|]. rewrite IH. lia. Qed.

Lemma hex_decode_length s l :
  hex_DecodeString s = Ok l -> String.length s = (2 * length l)%nat.
Proof.
  remember (String.length s) as n eqn:Hn. revert s l Hn.
  induction (lt_wf n) as [n _ IH]. intros s l -> H.
  destruct s as [|a [|b s]]; cbn in H; [by inv_ok | done |].
  do 2 (case_match; [|done]). inv_ok. cbn.
  rewrite (IH (String.length s)) with (s := s) (l := x) by (cbn; first [lia | done]).
  lia.
Qed.
#[export] Hint Rewrite hex_roundtrip : go.

(** ** [encoding/base64], the standard alphabet with padding *)
Definition b64_alphabet : string :=
  "ABCDEFGHIJKLMNOPQRSTUVWXYZabcdefghijklmnopqrstuvwxyz0123456789+/".

Definition b64_char (z : Z) : ascii := char_at b64_alphabet z.
Definition b64_val (c : ascii) : option Z := index_of c b64_alphabet.

#[global] Arguments b64_char : simpl never.
#[global] Arguments b64_val : simpl never.

Fixpoint b64_EncodeToString (l : list byte) : string :=
  match l with
  | [] => ""
  | [a] =>
      let n := byte_val a * 65536 in
      String (b64_char (n / 2 ^ 18)) (String (b64_char (n / 2 ^ 12 mod 64))
        (String "=" (String "=" "")))
  | [a; b] =>
      let n := byte_val a * 65536 + byte_val b * 256 in
      String (b64_char (n / 2 ^ 18)) (String (b64_char (n / 2 ^ 12 mod 64))
        (String (b64_char (n / 2 ^ 6 mod 64)) (String "=" "")))
  | a :: b :: c :: l' =>
      let n := byte_val a * 65536 + byte_val b * 256 + byte_val c in
      String (b64_char (n / 2 ^ 18)) (String (b64_char (n / 2 ^ 12 mod 64))
        (String (b64_char (n / 2 ^ 6 mod 64)) (String (b64_char (n mod 64))
          (b64_EncodeToString l'))))
  end.

Definition errBase64 : error := Errorf "illegal base64 data".

(** Decoding skips carriage returns and newlines. *)
Fixpoint strip_newlines (s : string) : string :=
  match s with
  | "" => ""
  | String a s' =>
      if decide (a = "010"%char \/ a = "013"%char) then strip_newlines s'
      else String a (strip_newlines s')
  end.

Fixpoint b64_quads (s : string) : outcome (list byte) :=
  match s with
  | "" => Ok []
  | String a (String b (String c (String d s'))) =>
      match b64_val a, b64_val b with
      | Some x, Some y =>
          match b64_val c, b64_val d with
          | Some z, Some w =>
              let n := x * 2 ^ 18 + y * 2 ^ 12 + z * 2 ^ 6 + w in
              rest ← b64_quads s';
              Ok (byte_of (n / 65536) :: byte_of (n / 256) :: byte_of n :: rest)
          | Some z, None =>
              let n := x * 2 ^ 18 + y * 2 ^ 12 + z * 2 ^ 6 in
              if decide (d = "="%char /\ s' = "")
              then Ok [byte_of (n / 65536); byte_of (n / 256)]
              else Err errBase64
          | None, _ =>
              let n := x * 2 ^ 18 + y * 2 ^ 12 in
              if decide (c = "="%char /\ d = "="%char /\ s' = "")
              then Ok [byte_of (n / 65536)]
              else Err errBase64
          end
      | _, _ => Err errBase64
      end
  | _ => Err errBase64
  end.

Definition b64_DecodeString (s : string) : outcome (list byte) :=
  b64_quads (strip_newlines s).

(** The characters an encoding consists of. *)
Definition is_b64 (c : ascii) : bool :=
  bool_decide (c = "="%char) ||
  match b64_val c with Some _ => true | None => false end.

Lemma b64_val_char z : 0 <= z < 64 -> b64_val (b64_char z) = Some z.
Proof.
  intros Hz.
  pose proof (range_check_spec 64 (fun z => bool_decide (b64_val (b64_char z) = Some z))
    z eq_refl Hz) as H.
  by apply bool_decide_eq_true in H.
Qed.

Lemma is_b64_char z : 0 <= z < 64 -> is_b64 (b64_char z) = true.
Proof. intros Hz. unfold is_b64. by rewrite b64_val_char, orb_true_r. Qed.

(** Induction on a list three elements at a time. *)
Lemma list_ind3 {A} (P : list A -> Prop) :
  P [] -> (forall a, P [a]) -> (forall a b, P [a; b]) ->
  (forall a b c l, P l -> P (a :: b :: c :: l)) -> forall l, P l.
Proof.
  intros H0 H1 H2 H3.
  assert (Hs : forall l, P l /\ (forall a, P (a :: l)) /\ (forall a b, P (a :: b :: l))).
  { induction l as [|x l (IH0 & IH1 & IH2)]; [auto|]. repeat split; auto. }
  intros l. apply (Hs l).
Qed.

Ltac byte_ranges :=
  repeat match goal with
  | b : byte |- _ =>
      lazymatch goal with
      | _ : 0 <= byte_val b < 256 |- _ => fail
      | _ => pose proof (byte_val_range b)
      end
  end.

Lemma b64_quads_roundtrip l : b64_quads (b64_EncodeToString l) = Ok l.
Proof.
  induction l as [|a|a b|a b c l IH] using list_ind3; [done|..];
    byte_ranges; cbn [b64_EncodeToString b64_quads]; rewrite !b64_val_char by zlia.
  - change (b64_val "=") with (@None Z). cbv beta iota zeta.
    rewrite decide_True by done. repeat f_equal.
    all: apply byte_of_eq; unfold u8; zlia.
  - change (b64_val "=") with (@None Z). cbv beta iota zeta.
    rewrite decide_True by done. repeat f_equal.
    all: apply byte_of_eq; unfold u8; zlia.
  - rewrite IH. cbn [mbind outcome_bind]. repeat f_equal.
    all: apply byte_of_eq; unfold u8; zlia.
Qed.

Lemma b64_encode_chars l : forallb_string is_b64 (b64_EncodeToString l) = true.
Proof.
  induction l as [|a|a b|a b c l IH] using list_ind3; [done|..];
    byte_ranges; cbn [b64_EncodeToString forallb_string];
    rewrite !is_b64_char by zlia; done.
Qed.

Lemma strip_newlines_id s :
  lacks "010" s = true -> lacks "013" s = true -> strip_newlines s = s.
Proof.
  induction s as [|a s IH]; [done|]. rewrite !lacks_cons. intros [? ?] [? ?].
  cbn. rewrite decide_False by naive_solver. f_equal; auto.
Qed.

Lemma b64_encode_lacks c l :
  is_b64 c = false -> lacks c (b64_EncodeToString l) = true.
Proof. intros H. eapply lacks_if; [exact H|]. apply b64_encode_chars. Qed.

Lemma b64_roundtrip l : b64_DecodeString (b64_EncodeToString l) = Ok l.
Proof.
  unfold b64_DecodeString.
  rewrite strip_newlines_id by (apply b64_encode_lacks; done).
  apply b64_quads_roundtrip.
Qed.
#[export] Hint Rewrite b64_roundtrip : go.

(** ** [encoding/binary], big endian *)
Fixpoint be_bytes (n : nat) (z : Z) : list byte :=
  match n with
  | O => []
  | S n' => byte_of (z / 256 ^ Z.of_nat n') :: be_bytes n' z
  end.

Fixpoint be_val (l : list byte) : Z :=
  match l with
  | [] => 0
  | b :: l' => byte_val b * 256 ^ Z.of_nat (length l') + be_val l'
  end.

Lemma be_bytes_length n z : length (be_bytes n z) = n.
Proof. induction n; cbn [be_bytes length]; [done | by f_equal]. Qed.

Lemma be_val_bytes n z : be_val (be_bytes n z) = z mod 256 ^ Z.of_nat n.
Proof.
  induction n as [|n IH]; cbn [be_bytes be_val]; [by rewrite Z.mod_1_r|].
  rewrite IH, byte_val_of, be_bytes_length, Nat2Z.inj_succ, Z.pow_succ_r by lia.
  unfold u8. change (2 ^ 8) with 256.
  assert (0 < 256 ^ Z.of_nat n) by (apply Z.pow_pos_nonneg; lia).
  rewrite (Z.mul_comm 256), Z.rem_mul_r by lia. lia.
Qed.

Lemma be_val_range l : 0 <= be_val l < 256 ^ Z.of_nat (length l).
Proof.
  induction l as [|b l IH]; cbn [be_val length]; [lia|].
  rewrite Nat2Z.inj_succ, Z.pow_succ_r by lia. pose proof (byte_val_range b). nia.
Qed.

Lemma be_roundtrip n z :
  0 <= z < 256 ^ Z.of_nat n -> be_val (be_bytes n z) = z.
Proof. intros H. rewrite be_val_bytes. by apply Z.mod_small. Qed.

Lemma be_bytes_val l : be_bytes (length l) (be_val l) = l.
Proof.
  assert (G : forall l k, 0 <= k ->
    be_bytes (length l) (k * 256 ^ Z.of_nat (length l) + be_val l) = l).
  { clear l. induction l as [|b l IH]; intros k Hk; [done|].
    cbn [length be_bytes be_val].
    pose proof (be_val_range l) as Hr. pose proof (byte_val_range b) as Hb.
    assert (Hp : 0 < 256 ^ Z.of_nat (length l)) by (apply Z.pow_pos_nonneg; lia).
    rewrite Nat2Z.inj_succ, Z.pow_succ_r by lia.
    replace (k * (256 * 256 ^ Z.of_nat (length l))
             + (byte_val b * 256 ^ Z.of_nat (length l) + be_val l))
      with ((k * 256 + byte_val b) * 256 ^ Z.of_nat (length l) + be_val l) by lia.
    f_equal; [|apply IH; lia].
    rewrite Z.div_add_l, (Z.div_small (be_val l)), Z.add_0_r by lia.
    apply byte_of_eq. unfold u8. change (2 ^ 8) with 256.
    rewrite Z.add_comm, Z.mod_add by lia. by apply Z.mod_small. }
  apply (G l 0). lia.
Qed.
#[export] Hint Rewrite be_bytes_length : go.

(** A signed 64-bit value is written as its two's complement. *)
Definition be_int64 (z : Z) : list byte := be_bytes 8 (u64 z).
Definition int64_of_be (l : list byte) : Z := i64 (be_val l).

Lemma be_int64_roundtrip z : is_i64 z -> int64_of_be (be_int64 z) = z.
Proof.
  intros Hz. unfold int64_of_be, be_int64. rewrite be_val_bytes.
  change (256 ^ Z.of_nat 8) with (2 ^ 64). unfold u64. rewrite Zmod_mod.
  transitivity (i64 z); [|by apply i64_small].
  unfold i64. by rewrite Zplus_mod_idemp_l.
Qed.

(** ** Readers

    A reader over a byte slice is the bytes still to be read. *)
Definition EOF : error := Sentinel "EOF".
Definition ErrUnexpectedEOF : error := Sentinel "unexpected EOF".

(** [io.ReadFull] into a buffer of [n] bytes, as [binary.Read] does. *)
Definition ReadFull (n : nat) (r : list byte) : outcome (list byte * list byte) :=
  if decide (n <= length r)%nat then Ok (take n r, drop n r)
  else if decide (r = []) then Err EOF else Err ErrUnexpectedEOF.

(** [r.Read(buf[:])] of a [bytes.Reader] or a [bytes.Buffer] into a zeroed
    array of [n] bytes: a short read is not an error, an empty reader is. *)
Definition Read (n : nat) (r : list byte) : outcome (list byte * list byte) :=
  if decide (r = []) then Err EOF else Ok (copy_array n r, drop n r).

Lemma ReadFull_app n a b : length a = n -> ReadFull n (a ++ b) = Ok (a, b).
Proof.
  intros <-. unfold ReadFull. rewrite decide_True by (rewrite length_app; lia).
  by rewrite take_app_length, drop_app_length.
Qed.

Lemma ReadFull_inv n r x : ReadFull n r = Ok x -> r = x.1 ++ x.2 /\ length x.1 = n.
Proof.
  unfold ReadFull. repeat case_decide; try done. intros [= <-]. cbn.
  rewrite take_drop, length_take. split; [done | lia].
Qed.

Lemma ReadFull_short n r : (length r < n)%nat -> is_err (ReadFull n r) = true.
Proof. intros H. unfold ReadFull. rewrite decide_False by lia. by case_decide. Qed.

Lemma Read_app n a b :
  length a = n -> (0 < n)%nat -> Read n (a ++ b) = Ok (a, b).
Proof.
  intros <- Hn. unfold Read. rewrite decide_False by (destruct a; cbn in *; [lia|done]).
  unfold copy_array. rewrite take_app_length, drop_app_length, length_app.
  replace (length a - (length a + length b))%nat with 0%nat by lia.
  cbn. by rewrite app_nil_r.
Qed.
