(* ===== verification/GoTime.v ===== *)
(** * Go's [time] package

    An instant without a monotonic reading is the seconds since year 1 in an
    [int64] and the nanoseconds within the second; [time.Unix] adds a constant
    to the Unix seconds with wrap-around, [Add] saturates the seconds, and a
    [Duration] is an [int64] number of nanoseconds. *)
From S2P Require Import Prelude.

Record time := Time { t_sec : Z; t_nsec : Z }.

#[export] Instance time_eq_dec : EqDecision time.
Proof. solve_decision. Defined.

Definition unixToInternal : Z := 62135596800.
Definition Second : Z := 1000000000.

(** [time.Unix(sec, 0)] *)
Definition Unix (sec : Z) : time :=
  {| t_sec := i64 (sec + unixToInternal); t_nsec := 0 |}.

(** [t.Unix()] *)
Definition unixSec (t : time) : Z := i64 (t_sec t - unixToInternal).

(** [time.Unix(0, nsec)] and [t.UnixNano()] *)
Definition UnixFromNano (nsec : Z) : time :=
  let n := Z.quot nsec Second in
  let r := Z.rem nsec Second in
  if decide (r < 0)
  then {| t_sec := i64 (n - 1 + unixToInternal); t_nsec := r + Second |}
  else {| t_sec := i64 (n + unixToInternal); t_nsec := r |}.
Definition UnixNano (t : time) : Z :=
  i64 (i64 (unixSec t * Second) + t_nsec t).

Definition Before (t u : time) : bool :=
  bool_decide (t_sec t < t_sec u \/ (t_sec t = t_sec u /\ t_nsec t < t_nsec u)).
Definition After (t u : time) : bool := Before u t.

(** [t.addSec(d)]: the seconds saturate. *)
Definition addSec (s d : Z) : Z :=
  let sum := i64 (s + d) in
  if Bool.eqb (bool_decide (s < sum)) (bool_decide (0 < d)) then sum
  else if decide (0 < d) then maxInt64 else - maxInt64.

(** [t.Add(d)] *)
Definition Add (t : time) (d : Z) : time :=
  let dsec := Z.quot d Second in
  let nsec := t_nsec t + Z.rem d Second in
  if decide (Second <= nsec)
  then {| t_sec := addSec (t_sec t) (dsec + 1); t_nsec := nsec - Second |}
  else if decide (nsec < 0)
  then {| t_sec := addSec (t_sec t) (dsec - 1); t_nsec := nsec + Second |}
  else {| t_sec := addSec (t_sec t) dsec; t_nsec := nsec |}.

(** [time.Duration(n) * time.Second] *)
Definition Seconds (n : Z) : Z := i64 (n * Second).

(** An instant a clock can show: well inside the range of the type. *)
Definition sane (t : time) : Prop :=
  - 2 ^ 61 <= t_sec t <= 2 ^ 61 /\ 0 <= t_nsec t < Second.
#[export] Instance sane_dec t : Decision (sane t).
Proof. unfold sane. apply _. Defined.

(** The instant as a number of nanoseconds. *)
Definition nanos (t : time) : Z := t_sec t * Second + t_nsec t.

Lemma Before_nanos t u :
  0 <= t_nsec t < Second -> 0 <= t_nsec u < Second ->
  Before t u = true <-> nanos t < nanos u.
Proof.
  unfold Before, nanos, Second. rewrite bool_decide_eq_true. lia.
Qed.

Lemma addSec_exact s d :
  is_i64 s -> is_i64 d -> is_i64 (s + d) -> addSec s d = s + d.
Proof.
  intros Hs Hd Hsd. unfold addSec. rewrite i64_small by done.
  destruct (decide (0 < d)); [rewrite !bool_decide_eq_true_2 by lia; done|].
  rewrite !bool_decide_eq_false_2 by lia. done.
Qed.

Lemma Unix_exact sec :
  - 2 ^ 62 <= sec <= 2 ^ 62 -> t_sec (Unix sec) = sec + unixToInternal.
Proof.
  intros H. unfold Unix. cbn. apply i64_small.
  unfold is_i64, minInt64, maxInt64, unixToInternal. lia.
Qed.

(** [Add] is exact on a sane instant and any duration. *)
Lemma Add_nanos t d :
  sane t -> is_i64 d -> nanos (Add t d) = nanos t + d /\ 0 <= t_nsec (Add t d) < Second.
Proof.
  unfold sane, is_i64, minInt64, maxInt64. intros [Hs Hn] Hd.
  pose proof (Z.quot_rem' d Second) as Hqr.
  pose proof (Z.rem_bound_abs d Second ltac:(unfold Second; lia)) as Hr.
  unfold Add, nanos, Second in *.
  repeat case_decide; cbn [t_sec t_nsec];
    rewrite addSec_exact by (unfold is_i64, minInt64, maxInt64; lia); lia.
Qed.

(** A nanosecond count read back from a nanosecond count. *)
Lemma UnixNano_FromNano n : is_i64 n -> UnixNano (UnixFromNano n) = n.
Proof.
  unfold is_i64, minInt64, maxInt64. intros Hn.
  pose proof (Z.quot_rem' n Second) as Hqr.
  pose proof (Z.rem_bound_abs n Second ltac:(unfold Second; lia)) as Hr.
  unfold UnixNano, UnixFromNano, unixSec, unixToInternal, Second in *.
  assert (E : forall a, is_i64 a -> i64 a = a) by apply i64_small.
  unfold is_i64, minInt64, maxInt64 in E.
  case_decide; cbn [t_sec t_nsec]; rewrite i64_add_l.
  - rewrite (E (_ - 1 + _)), (E (_ - 62135596800)) by lia. rewrite E; lia.
  - rewrite (E (_ + 62135596800)), (E (_ - 62135596800)) by lia. rewrite E; lia.
Qed.
