(* ===== verification/Steps.v ===== *)
(** * Programs that start and stop things

    A run does some things in order and ends with a value, an error or a panic;
    what it did before a failure stays done.

    Goroutines that run beside each other are a step function with an action for
    each thing that can happen next; [exec] is one interleaving of them. *)
From stdpp Require Import relations.
From S2P Require Import Prelude.

Definition M (E A : Type) : Type := list E * outcome A.
#[export] Instance M_ret E : MRet (M E) := fun A a => ([], Ok a).
#[export] Instance M_bind E : MBind (M E) := fun A B f m =>
  match m with
  | (l, Ok a) => (l ++ (f a).1, (f a).2)
  | (l, Err e) => (l, Err e)
  | (l, Panic p) => (l, Panic p)
  end.

Section Steps.
Context {E : Type}.

(** A step that happens when it succeeds; a computation without a step; a
    failure; and [defer]: the steps happen when the rest is over, however it
    ends. *)
Definition doing {A} (ev : E) (o : outcome A) : M E A :=
  match o with Ok _ => ([ev], o) | _ => ([], o) end.
Definition lift {A} (o : outcome A) : M E A := ([], o).
Definition refuse {A} (e : error) : M E A := ([], Err e).
Definition deferred {A} (ev : list E) (m : M E A) : M E A := (m.1 ++ ev, m.2).

Lemma M_bind_Ok {A B} (m : M E A) (f : A -> M E B) l b :
  (m ≫= f) = (l, Ok b) ->
  exists l1 a l2, m = (l1, Ok a) /\ f a = (l2, Ok b) /\ l = l1 ++ l2.
Proof.
  destruct m as [l1 [a| |]]; cbn; [|done..]. destruct (f a) as [l2 o] eqn:Ef. cbn.
  intros [= <- ->]. eauto 6.
Qed.

Lemma doing_Ok {A} ev (o : outcome A) l a : doing ev o = (l, Ok a) -> l = [ev] /\ o = Ok a.
Proof. destruct o as [x| |]; cbn; [|done..]. by intros [= <- ->]. Qed.

Lemma lift_Ok {A} (o : outcome A) l a : lift o = (l, Ok a) -> l = [] /\ o = Ok a.
Proof. by intros [= <- ->]. Qed.

End Steps.

(** ** Interleavings *)

Section Machine.
Context {Act St : Type} (step : Act -> St -> option St).

Fixpoint exec (l : list Act) (s : St) : option St :=
  match l with
  | [] => Some s
  | a :: l => s' ← step a s; exec l s'
  end.

Definition any (s s' : St) : Prop := exists a, step a s = Some s'.

Lemma exec_any l s s' : exec l s = Some s' -> rtc any s s'.
Proof.
  revert s. induction l as [|a l IH]; intros s; cbn [exec]; [by intros [= <-]|].
  destruct (step a s) as [s1|] eqn:E; [|done]. intros Hl. eapply rtc_l; [by exists a|by apply IH].
Qed.

(** What every step keeps. *)
Lemma any_inv (P : St -> Prop) s s' :
  (forall a s s', P s -> step a s = Some s' -> P s') -> P s -> rtc any s s' -> P s'.
Proof. intros HP Hs Hr. induction Hr as [|s s1 s' [a Ha] _ IH]; eauto. Qed.

Lemma exec_inv (P : St -> Prop) l s s' :
  (forall a s s', P s -> step a s = Some s' -> P s') -> P s -> exec l s = Some s' -> P s'.
Proof. intros HP Hs ?%exec_any. by eapply any_inv. Qed.

(** The same, for actions of a kind. *)
Lemma exec_inv_on (Q : Act -> Prop) (P : St -> Prop) l s s' :
  (forall a s s', Q a -> P s -> step a s = Some s' -> P s') ->
  Forall Q l -> P s -> exec l s = Some s' -> P s'.
Proof.
  intros HP Hl. revert s. induction Hl as [|a l Ha _ IH]; intros s Hs; cbn [exec]; [by intros [= <-]|].
  destruct (step a s) as [s1|] eqn:E; [|done]. apply IH. by eapply HP.
Qed.

(** Steps that make a measure smaller come to an end. *)
Lemma measure_sn (R : relation St) (f : St -> nat) s :
  (forall s s', R s s' -> (f s' < f s)%nat) -> sn R s.
Proof. intros Hf. apply (wf_projected lt f); [by intros x y ?%Hf|apply lt_wf]. Qed.

Lemma measure_sn_on (P : St -> Prop) (R : relation St) (f : St -> nat) s :
  (forall s s', P s -> R s s' -> P s' /\ (f s' < f s)%nat) -> P s -> sn R s.
Proof.
  intros Hf. remember (f s) as n eqn:En. revert s En.
  induction (lt_wf n) as [n _ IH]. intros s -> Hs. constructor. intros s' Hr.
  destruct (Hf s s' Hs Hr) as [Hs' Hl]. by eapply IH.
Qed.

(** Sums over a list in which one element changes. *)
Lemma sum_insert {A} (f : A -> nat) l i x y :
  l !! i = Some x ->
  (sum_list_with f (<[i := y]> l) + f x = sum_list_with f l + f y)%nat.
Proof.
  intros (l1 & l2 & -> & ->)%list_elem_of_split_length.
  rewrite insert_app_r_alt, Nat.sub_diag by lia. cbn [insert list_insert].
  rewrite !sum_list_with_app. cbn. lia.
Qed.

Lemma sum_delete {A} (f : A -> nat) l i x :
  l !! i = Some x -> (sum_list_with f (delete i l) + f x = sum_list_with f l)%nat.
Proof.
  intros (l1 & l2 & -> & ->)%list_elem_of_split_length.
  rewrite delete_middle, !sum_list_with_app. cbn. lia.
Qed.

Lemma sum_zero {A} (f : A -> nat) l : sum_list_with f l = 0%nat -> Forall (fun x => f x = 0%nat) l.
Proof. induction l as [|x l IH]; cbn; [done|]. intros E. constructor; [|apply IH]; lia. Qed.

End Machine.
