(* ===== verification/Caveat.v ===== *)
(** * L402 caveats, the services they name, and the satisfiers that verify them

    [lsat/caveat.go], [lsat/service.go] and [lsat/satisfier.go]. *)
From S2P Require Import Prelude.
From S2P Require Import GoStrings.
From S2P Require Import GoTime.

(** ** [lsat/caveat.go] *)
Module Caveat.

Definition PreimageKey : string := "preimage".
Definition ErrInvalidCaveat : error := Sentinel "ErrInvalidCaveat".

Record t := { Condition : string; Value : string }.

#[global] Instance eq_dec : EqDecision t.
Proof. solve_decision. Defined.

Definition NewCaveat (condition value : string) : t :=
  {| Condition := condition; Value := value |}.

Definition EncodeCaveat (c : t) : string := Condition c +:+ String "=" (Value c).

Definition DecodeCaveat (s : string) : outcome t :=
  match SplitN2 s "=" with
  | [a; b] => Ok {| Condition := a; Value := b |}
  | _ => Err ErrInvalidCaveat
  end.

(** Decoding is total on what contains [=], and inverts encoding exactly when
    the condition has no [=] of its own. *)
Lemma DecodeCaveat_EncodeCaveat c :
  lacks "=" (Condition c) = true -> DecodeCaveat (EncodeCaveat c) = Ok c.
Proof.
  intros H. unfold DecodeCaveat, EncodeCaveat, SplitN2. rewrite Cut_app by done.
  by destruct c.
Qed.

Lemma EncodeCaveat_DecodeCaveat s c : DecodeCaveat s = Ok c -> EncodeCaveat c = s.
Proof.
  unfold DecodeCaveat, SplitN2.
  destruct (Cut s "=") as [[a b]|] eqn:E; [|done]. intros [= <-].
  apply Cut_inv in E as [-> _]. done.
Qed.

Lemma DecodeCaveat_condition s c :
  DecodeCaveat s = Ok c -> lacks "=" (Condition c) = true.
Proof.
  unfold DecodeCaveat, SplitN2.
  destruct (Cut s "=") as [[a b]|] eqn:E; [|done]. intros [= <-].
  by apply Cut_inv in E as [_ ?].
Qed.

Lemma DecodeCaveat_err s : DecodeCaveat s = Err ErrInvalidCaveat <-> lacks "=" s = true.
Proof.
  rewrite <- Cut_None. unfold DecodeCaveat, SplitN2.
  destruct (Cut s "=") as [[a b]|]; split; done.
Qed.

(** ** Satisfiers: the type of [lsat/satisfier.go] *)
Record Satisfier := {
  sCondition : string;
  SatisfyPrevious : t -> t -> outcome unit;
  SatisfyFinal : t -> outcome unit
}.

(** ** [VerifyCaveats] *)

(** The set of satisfiers: a later one replaces an earlier one of the same
    condition. *)
Definition caveatSatisfiers (satisfiers : list Satisfier) : gmap string Satisfier :=
  foldl (fun m s => <[sCondition s := s]> m) ∅ satisfiers.

Definition relevantCaveats (sats : gmap string Satisfier) (caveats : list t) :
    gmap string (list t) :=
  foldl (fun m c =>
    match sats !! Condition c with
    | None => m
    | Some _ => <[Condition c := default [] (m !! Condition c) ++ [c]]> m
    end) ∅ caveats.

(** The loop over adjacent caveats of one condition. *)
Fixpoint verifyPrevious (s : Satisfier) (caveats : list t) : outcome unit :=
  match caveats with
  | prev :: ((cur :: _) as rest) => _ ← SatisfyPrevious s prev cur; verifyPrevious s rest
  | _ => Ok tt
  end.

Definition verifyCondition (s : Satisfier) (caveats : list t) : outcome unit :=
  _ ← verifyPrevious s caveats;
  match last caveats with
  | Some c => SatisfyFinal s c
  | None => Panic "index out of range"
  end.

(** The loop over the map of relevant caveats, which Go runs in an unspecified
    order: [keys] lists the conditions in that order. *)
Fixpoint verifyAll (sats : gmap string Satisfier) (rel : gmap string (list t))
    (keys : list string) : outcome unit :=
  match keys with
  | [] => Ok tt
  | k :: keys' =>
      _ ← match sats !! k, rel !! k with
          | Some s, Some cs => verifyCondition s cs
          | _, _ => Panic "unreachable"
          end;
      verifyAll sats rel keys'
  end.

Definition VerifyCaveatsIn (keys : list string) (caveats : list t)
    (satisfiers : list Satisfier) : outcome unit :=
  let sats := caveatSatisfiers satisfiers in
  verifyAll sats (relevantCaveats sats caveats) keys.

(** An iteration order Go may choose. *)
Definition iteration_order (caveats : list t) (satisfiers : list Satisfier)
    (keys : list string) : Prop :=
  keys ≡ₚ (map_to_list (relevantCaveats (caveatSatisfiers satisfiers) caveats)).*1.

(** The run with one particular order. *)
Definition VerifyCaveats (caveats : list t) (satisfiers : list Satisfier) : outcome unit :=
  VerifyCaveatsIn
    (map_to_list (relevantCaveats (caveatSatisfiers satisfiers) caveats)).*1
    caveats satisfiers.

(** The caveats of one condition, in their order. *)
Definition select (cond : string) (caveats : list t) : list t :=
  filter (fun c => Condition c = cond) caveats.

Lemma relevantCaveats_lookup sats caveats k :
  relevantCaveats sats caveats !! k =
    match sats !! k, select k caveats with
    | Some _, (_ :: _) as cs => Some cs
    | _, _ => None
    end.
Proof.
  unfold relevantCaveats, select.
  induction caveats as [|c cs IH] using rev_ind; cbn.
  { rewrite lookup_empty. by destruct (sats !! k). }
  rewrite foldl_snoc, filter_app.
  set (m := foldl _ _ _) in *.
  destruct (decide (Condition c = k)) as [<-|Hne].
  - rewrite filter_cons_True, filter_nil by done.
    destruct (sats !! Condition c) as [s|] eqn:Es.
    + rewrite lookup_insert_eq, IH.
      destruct (filter _ cs); done.
    + rewrite IH. done.
  - rewrite filter_cons_False, filter_nil, app_nil_r by done.
    destruct (sats !! Condition c); [rewrite lookup_insert_ne by done|]; done.
Qed.

(** What a verification accepts: every satisfier finds a restricting chain that
    ends in a caveat it accepts, or no caveat of its condition at all. *)
Definition condition_ok (s : Satisfier) (cs : list t) : Prop :=
  cs = [] \/ verifyCondition s cs = Ok tt.

Lemma verifyAll_Ok sats rel keys :
  verifyAll sats rel keys = Ok tt <->
  Forall (fun k => exists s cs, sats !! k = Some s /\ rel !! k = Some cs /\
                                verifyCondition s cs = Ok tt) keys.
Proof.
  induction keys as [|k keys IH]; cbn; [done|].
  rewrite Forall_cons, <- IH.
  destruct (sats !! k) as [s|], (rel !! k) as [cs|]; cbn; [|naive_solver..].
  split.
  - destruct (verifyCondition s cs) as [[]|e|m] eqn:E; cbn; [|done..].
    intros H. split; [by exists s, cs | done].
  - intros [(s0 & cs0 & Es & Ec & Ev) Hk]. simplify_eq. by rewrite Ev.
Qed.

Lemma VerifyCaveatsIn_Ok keys caveats satisfiers :
  iteration_order caveats satisfiers keys ->
  VerifyCaveatsIn keys caveats satisfiers = Ok tt <->
  (forall k s, caveatSatisfiers satisfiers !! k = Some s ->
               condition_ok s (select k caveats)).
Proof.
  intros Hord. unfold VerifyCaveatsIn. rewrite verifyAll_Ok.
  set (sats := caveatSatisfiers satisfiers) in *.
  assert (Hin : forall k, k ∈ keys <-> is_Some (relevantCaveats sats caveats !! k)).
  { intros k. unfold iteration_order in Hord. fold sats in Hord. rewrite Hord.
    rewrite list_elem_of_fmap. split.
    - intros ([k' cs] & -> & H%elem_of_map_to_list). cbn. by exists cs.
    - intros [cs H]. exists (k, cs). split; [done|]. by apply elem_of_map_to_list. }
  rewrite Forall_forall. split.
  - intros H k s Hs. unfold condition_ok.
    destruct (select k caveats) as [|c cs] eqn:Ec; [by left|right].
    assert (Hrel : relevantCaveats sats caveats !! k = Some (c :: cs)).
    { by rewrite relevantCaveats_lookup, Hs, Ec. }
    destruct (H k) as (s' & cs' & Hs' & Hcs' & Hok); [apply Hin; eauto|]. congruence.
  - intros H k [cs Hcs]%Hin. pose proof Hcs as Hcs'.
    rewrite relevantCaveats_lookup in Hcs.
    destruct (sats !! k) as [s|] eqn:Hs; [|done].
    destruct (H k s Hs) as [Hnil|Hok].
    { by rewrite Hnil in Hcs. }
    exists s, cs. destruct (select k caveats); [done|]. naive_solver.
Qed.

End Caveat.

(** ** [lsat/service.go] *)
Module LsatService.

Definition CondServices : string := "services".
Definition CondCapabilitiesSuffix : string := "_capabilities".
Definition CondTimeoutSuffix : string := "_valid_until".
Definition ErrNoServices : error := Sentinel "ErrNoServices".
Definition ErrInvalidService : error := Sentinel "ErrInvalidService".

(** [ServiceTier] is a [uint8]. *)
Definition BaseTier : Z := 0.

Record t := { Name : string; Tier : Z; RecipientLud16 : string; Price : Z }.

#[global] Instance eq_dec : EqDecision t.
Proof. solve_decision. Defined.
#[global] Instance countable : Countable t.
Proof.
  refine (inj_countable' (fun s => (Name s, Tier s, RecipientLud16 s, Price s))
            (fun '(n, ti, r, p) => {| Name := n; Tier := ti; RecipientLud16 := r; Price := p |}) _).
  by intros [].
Defined.

(** The text of one service. *)
Definition encodeService (s : t) : string := Name s +:+ String ":" (FormatUint (u8 (Tier s))).

(** The loop over the services: every name must be non-empty, and every text but
    the last is followed by a comma. *)
Fixpoint encodeServices (services : list t) : outcome string :=
  match services with
  | [] => Ok ""
  | s :: rest =>
      if decide (Name s = "") then Err (Errorf "missing service name")
      else match rest with
           | [] => Ok (encodeService s)
           | _ => tail ← encodeServices rest; Ok (encodeService s +:+ String "," tail)
           end
  end.

Definition encodeServicesCaveatValue (services : list t) : outcome string :=
  match services with
  | [] => Err ErrNoServices
  | _ => encodeServices services
  end.

Definition NewServicesCaveat (services : list t) : outcome Caveat.t :=
  value ← encodeServicesCaveatValue services;
  Ok {| Caveat.Condition := CondServices; Caveat.Value := value |}.

Definition decodeService (rawService : string) : outcome t :=
  match Split rawService ":" with
  | [name; tierStr] =>
      if decide (name = "") then Err (Wrapf "empty name" ErrInvalidService)
      else match Atoi tierStr with
           | Ok tier => Ok {| Name := name; Tier := u8 tier; RecipientLud16 := ""; Price := 0 |}
           | Err _ => Err (Wrapf "tier" ErrInvalidService)
           | Panic m => Panic m
           end
  | _ => Err ErrInvalidService
  end.

Fixpoint decodeServices (raw : list string) : outcome (list t) :=
  match raw with
  | [] => Ok []
  | r :: raw' => s ← decodeService r; rest ← decodeServices raw'; Ok (s :: rest)
  end.

Definition decodeServicesCaveatValue (s : string) : outcome (list t) :=
  if decide (s = "") then Err ErrNoServices
  else decodeServices (Split s ",").

Definition NewCapabilitiesCaveat (serviceName capabilities : string) : Caveat.t :=
  {| Caveat.Condition := serviceName +:+ CondCapabilitiesSuffix;
     Caveat.Value := capabilities |}.

(** [now] is the instant the clock function returns. *)
Definition NewTimeoutCaveat (serviceName : string) (numSeconds : Z) (now : time) : Caveat.t :=
  let macaroonTimeout := Seconds numSeconds in
  let requestTimeout := Add now macaroonTimeout in
  {| Caveat.Condition := serviceName +:+ CondTimeoutSuffix;
     Caveat.Value := FormatInt (unixSec requestTimeout) |}.

(** A service a caveat can carry: the separators do not occur in its name. *)
Definition plain (s : t) : Prop :=
  Name s ≠ "" /\ lacks ":" (Name s) = true /\ lacks "," (Name s) = true.
#[global] Instance plain_dec s : Decision (plain s).
Proof. unfold plain. apply _. Defined.

(** What survives the round trip: the name and the tier. *)
Definition forget (s : t) : t :=
  {| Name := Name s; Tier := u8 (Tier s); RecipientLud16 := ""; Price := 0 |}.

Lemma encodeServices_Join services :
  Forall (fun s => Name s ≠ "") services ->
  encodeServices services = Ok (Join (encodeService <$> services) ",").
Proof.
  induction 1 as [|s rest Hs Hrest IH]; [done|]. cbn [encodeServices].
  rewrite decide_False by done.
  destruct rest as [|s' rest]; [done|]. rewrite IH. done.
Qed.

Lemma encodeServices_empty_name services :
  ~ Forall (fun s => Name s ≠ "") services ->
  encodeServices services = Err (Errorf "missing service name").
Proof.
  induction services as [|s rest IH]; intros H; [by destruct H|].
  cbn [encodeServices]. case_decide as Hs; [done|].
  rewrite Forall_cons in H. destruct rest as [|s' rest]; [naive_solver|].
  rewrite IH by naive_solver. done.
Qed.

Lemma encodeService_lacks s : lacks "," (Name s) = true -> lacks "," (encodeService s) = true.
Proof.
  intros H. unfold encodeService. rewrite lacks_app, H. cbn [andb].
  apply lacks_cons. split; [done|]. by apply FormatUint_lacks.
Qed.

Lemma encodeService_nonempty s : encodeService s ≠ "".
Proof. unfold encodeService. by destruct (Name s). Qed.

Lemma decodeService_encodeService s :
  plain s -> decodeService (encodeService s) = Ok (forget s).
Proof.
  intros (Hne & Hc & _). unfold decodeService, encodeService.
  rewrite Split_app by done. rewrite Split_lacks by (by apply FormatUint_lacks).
  rewrite decide_False by done.
  rewrite Atoi_FormatUint; [|unfold u8, maxInt64; pose proof (Z.mod_pos_bound (Tier s) (2 ^ 8)); lia].
  unfold forget, u8. by rewrite Zmod_mod.
Qed.

Lemma decodeServices_encode services :
  Forall plain services ->
  decodeServices (encodeService <$> services) = Ok (forget <$> services).
Proof.
  induction 1 as [|s rest Hs Hrest IH]; [done|]. cbn.
  by rewrite decodeService_encodeService, IH.
Qed.

Lemma Join_encode_nonempty services :
  services ≠ [] -> Join (encodeService <$> services) "," ≠ "".
Proof.
  destruct services as [|s [|s' rest]]; [done|..]; intros _;
    cbn; [apply encodeService_nonempty|].
  pose proof (encodeService_nonempty s). by destruct (encodeService s).
Qed.

Lemma services_roundtrip services v :
  Forall plain services ->
  encodeServicesCaveatValue services = Ok v ->
  decodeServicesCaveatValue v = Ok (forget <$> services).
Proof.
  intros Hp Henc. destruct services as [|s0 rest] eqn:Es; [done|].
  rewrite <- Es in *. unfold encodeServicesCaveatValue in Henc.
  rewrite Es in Henc at 1. rewrite encodeServices_Join in Henc.
  2: { eapply Forall_impl; [exact Hp|]. by intros s (? & _). }
  injection Henc as <-. unfold decodeServicesCaveatValue.
  rewrite decide_False by (apply Join_encode_nonempty; by rewrite Es).
  rewrite Split_Join.
  - by apply decodeServices_encode.
  - by rewrite Es.
  - apply Forall_fmap. eapply Forall_impl; [exact Hp|].
    intros s (_ & _ & ?). by apply encodeService_lacks.
Qed.

End LsatService.

(** ** [lsat/satisfier.go] *)
Module Satisfiers.
Import Caveat LsatService.

Definition names_of (services : list LsatService.t) : list string := Name <$> services.

Definition NewServicesSatisfier (targetService : string) : Satisfier :=
  {| sCondition := CondServices;
     SatisfyPrevious := fun prev cur =>
       prevServices ← decodeServicesCaveatValue (Value prev);
       let prevAllowed : gset string := list_to_set (names_of prevServices) in
       currentServices ← decodeServicesCaveatValue (Value cur);
       if decide (Forall (fun s => Name s ∈ prevAllowed) currentServices) then Ok tt
       else Err (Errorf "service not previously allowed");
     SatisfyFinal := fun c =>
       services ← decodeServicesCaveatValue (Value c);
       if decide (targetService ∈ names_of services) then Ok tt
       else Err (Errorf "target service not authorized") |}.

Definition NewCapabilitiesSatisfier (service targetCapability : string) : Satisfier :=
  {| sCondition := service +:+ CondCapabilitiesSuffix;
     SatisfyPrevious := fun prev cur =>
       let allowed : gset string := list_to_set (Split (Value prev) ",") in
       if decide (Forall (fun c => c ∈ allowed) (Split (Value cur) ",")) then Ok tt
       else Err (Errorf "capability not previously allowed");
     SatisfyFinal := fun c =>
       if decide (targetCapability ∈ Split (Value c) ",") then Ok tt
       else Err (Errorf "target capability not authorized") |}.

Definition NewTimeoutSatisfier (service : string) (now : time) : Satisfier :=
  {| sCondition := service +:+ CondTimeoutSuffix;
     SatisfyPrevious := fun prev cur =>
       prevValue ← wrapf "error parsing previous caveat value" (ParseInt (Value prev));
       currValue ← wrapf "error parsing caveat value" (ParseInt (Value cur));
       if Before (Unix prevValue) (Unix currValue)
       then Err (Errorf "caveat violates increasing restrictiveness")
       else Ok tt;
     SatisfyFinal := fun c =>
       expirationTimestamp ← errorf "caveat value not a valid integer" (ParseInt (Value c));
       if Before now (Unix expirationTimestamp) then Ok tt
       else Err (Errorf "not authorized to access service. L402 has expired") |}.

(** *** Attenuation

    A satisfier attenuates when a caveat it accepts as final was also
    acceptable before it was restricted: appending caveats never gains rights. *)
Definition attenuating (s : Satisfier) : Prop :=
  forall prev cur,
    SatisfyPrevious s prev cur = Ok tt -> SatisfyFinal s cur = Ok tt ->
    SatisfyFinal s prev = Ok tt.

Lemma services_attenuating target : attenuating (NewServicesSatisfier target).
Proof.
  intros prev cur. cbn.
  destruct (decodeServicesCaveatValue (Value prev)) as [ps|e|m]; cbn; [|done..].
  destruct (decodeServicesCaveatValue (Value cur)) as [cs|e|m]; cbn; [|done..].
  case_decide as Hall; [|done]. intros _. case_decide as Hin; [|done]. intros _.
  apply list_elem_of_fmap in Hin as (s & -> & Hs).
  rewrite Forall_forall in Hall. specialize (Hall s Hs).
  rewrite elem_of_list_to_set in Hall. by rewrite decide_True.
Qed.

Lemma capabilities_attenuating service cap :
  attenuating (NewCapabilitiesSatisfier service cap).
Proof.
  intros prev cur. cbn. case_decide as Hall; [|done]. intros _.
  case_decide as Hin; [|done]. intros _.
  rewrite Forall_forall in Hall. specialize (Hall _ Hin).
  rewrite elem_of_list_to_set in Hall. by rewrite decide_True.
Qed.

Lemma Before_Before_trans t u v :
  Before t u = true -> Before v u = false -> Before t v = true.
Proof. unfold Before. rewrite !bool_decide_eq_true, bool_decide_eq_false. lia. Qed.

Lemma timeout_attenuating service now : attenuating (NewTimeoutSatisfier service now).
Proof.
  intros prev cur. cbn.
  destruct (ParseInt (Value prev)) as [p|e|m]; cbn; [|done..].
  destruct (ParseInt (Value cur)) as [c|e|m]; cbn; [|done..].
  destruct (Before (Unix p) (Unix c)) eqn:E; [done|]. intros _.
  destruct (Before now (Unix c)) eqn:E'; [|done]. intros _.
  by rewrite (Before_Before_trans _ _ _ E' E).
Qed.

(** The satisfiers of the repository, as they are built at an instant. *)
Inductive built (now : time) : Satisfier -> Prop :=
  | built_services target : built now (NewServicesSatisfier target)
  | built_capabilities service cap : built now (NewCapabilitiesSatisfier service cap)
  | built_timeout service : built now (NewTimeoutSatisfier service now).

Lemma built_attenuating now s : built now s -> attenuating s.
Proof.
  intros []; [apply services_attenuating|apply capabilities_attenuating|apply timeout_attenuating].
Qed.

(** A chain that ends in an accepted caveat is accepted at every prefix. *)
Lemma verifyCondition_snoc s cs c c' :
  verifyCondition s (cs ++ [c; c']) =
  (_ ← verifyPrevious s (cs ++ [c]);
   _ ← SatisfyPrevious s c c';
   SatisfyFinal s c').
Proof.
  unfold verifyCondition. rewrite last_app. cbn [last].
  induction cs as [|x cs IH]; cbn.
  - destruct (SatisfyPrevious s c c') as [[]|e|m]; done.
  - destruct cs as [|y cs]; cbn in *.
    + destruct (SatisfyPrevious s x c) as [[]|e|m]; cbn; [|done..].
      destruct (SatisfyPrevious s c c') as [[]|e|m]; done.
    + destruct (SatisfyPrevious s x y) as [[]|e|m]; cbn; done.
Qed.

Lemma condition_ok_snoc s cs c :
  attenuating s -> condition_ok s (cs ++ [c]) -> condition_ok s cs.
Proof.
  intros Hatt. destruct cs as [|x cs] using rev_ind; [by left|]. clear IHcs.
  intros [H|H]; [by destruct (cs ++ [x])|right].
  rewrite <- app_assoc in H. cbn in H. rewrite verifyCondition_snoc in H.
  apply bind_Ok_inv in H as ([] & Hprev & H).
  apply bind_Ok_inv in H as ([] & Hpc & Hfin).
  unfold verifyCondition. rewrite Hprev, last_snoc. cbn. by eapply Hatt.
Qed.

Lemma condition_ok_prefix s cs extra :
  attenuating s -> condition_ok s (cs ++ extra) -> condition_ok s cs.
Proof.
  intros Hatt. induction extra as [|c extra IH] using rev_ind.
  - by rewrite app_nil_r.
  - rewrite app_assoc. intros H. apply IH. by eapply condition_ok_snoc.
Qed.

Lemma caveatSatisfiers_in sats k s :
  caveatSatisfiers sats !! k = Some s -> s ∈ sats.
Proof.
  unfold caveatSatisfiers. induction sats as [|x sats IH] using rev_ind; cbn.
  - by rewrite lookup_empty.
  - rewrite foldl_snoc, lookup_insert. case_decide.
    + intros [= <-]. set_solver.
    + intros Hin%IH. set_solver.
Qed.

Lemma select_app k a b : select k (a ++ b) = select k a ++ select k b.
Proof. apply filter_app. Qed.

(** Appending caveats to a verified list never turns a rejection into an
    acceptance. *)
Lemma verify_prefix sats cs extra keys keys' :
  Forall attenuating sats ->
  iteration_order (cs ++ extra) sats keys ->
  iteration_order cs sats keys' ->
  VerifyCaveatsIn keys (cs ++ extra) sats = Ok tt ->
  VerifyCaveatsIn keys' cs sats = Ok tt.
Proof.
  intros Hatt Hk Hk'. rewrite !VerifyCaveatsIn_Ok by done. intros H k s Hs.
  specialize (H k s Hs). rewrite select_app in H.
  eapply condition_ok_prefix; [|exact H].
  rewrite Forall_forall in Hatt. apply Hatt. by eapply caveatSatisfiers_in.
Qed.

(** The verdict does not depend on the order in which Go walks the map. *)
Lemma verify_order_irrelevant cs sats keys keys' :
  iteration_order cs sats keys -> iteration_order cs sats keys' ->
  VerifyCaveatsIn keys cs sats = Ok tt -> VerifyCaveatsIn keys' cs sats = Ok tt.
Proof. intros Hk Hk'. by rewrite !VerifyCaveatsIn_Ok. Qed.

End Satisfiers.

(** ** Properties *)
Module CaveatProperties.
Import Caveat.

(** A caveat survives encoding and decoding exactly when its condition has no
    [=], and every text that decodes is the encoding of what it decodes to. *)
Theorem caveat_roundtrip s c :
  (DecodeCaveat (EncodeCaveat c) = Ok c <-> lacks "=" (Condition c) = true) /\
  (DecodeCaveat s = Ok c -> EncodeCaveat c = s).
Proof.
  split; [split|].
  - intros E. by eapply DecodeCaveat_condition.
  - by apply DecodeCaveat_EncodeCaveat.
  - by apply EncodeCaveat_DecodeCaveat.
Qed.

Lemma caveat_roundtrip_witness :
  EncodeCaveat {| Condition := "services"; Value := "a:0=b" |} = "services=a:0=b".
Proof.
  apply (proj2 (caveat_roundtrip "services=a:0=b" {| Condition := "services"; Value := "a:0=b" |})).
  vm_compute. reflexivity.
Defined.

(** A list of services whose names are not empty and contain neither [:] nor
    [,] is read back from its caveat in order, with the names and the tiers. *)
Theorem services_caveat_roundtrip services c :
  Forall LsatService.plain services ->
  LsatService.NewServicesCaveat services = Ok c ->
  Condition c = LsatService.CondServices /\
  LsatService.decodeServicesCaveatValue (Value c) = Ok (LsatService.forget <$> services).
Proof.
  intros Hp E. unfold LsatService.NewServicesCaveat in E.
  apply bind_Ok_inv in E as (v & Ev & E). apply (inj Ok) in E as <-.
  split; [done|]. by apply LsatService.services_roundtrip.
Qed.

Definition two_services : list LsatService.t :=
  [{| LsatService.Name := "loop"; LsatService.Tier := 0; LsatService.RecipientLud16 := "a@b";
      LsatService.Price := 7 |};
   {| LsatService.Name := "pool"; LsatService.Tier := 3; LsatService.RecipientLud16 := "";
      LsatService.Price := 9 |}].

Lemma services_caveat_roundtrip_witness :
  LsatService.decodeServicesCaveatValue "loop:0,pool:3" = Ok (LsatService.forget <$> two_services).
Proof.
  apply (services_caveat_roundtrip two_services {| Condition := "services"; Value := "loop:0,pool:3" |}).
  - repeat constructor; try (vm_compute; reflexivity); discriminate.
  - vm_compute. reflexivity.
Defined.

(** C27: whatever set of the repository's satisfiers (for a service, for a capability of
    a service, for its timeout) checks them: the order in which Go walks the map of
    relevant caveats does not change the verdict, and a list of caveats that verifies
    still verifies when caveats are cut off its end: who appends caveats to a token,
    of these conditions or of others, only restricts it. *)
Theorem verification_is_monotone now sats cs extra keys keys' :
  Forall (Satisfiers.built now) sats ->
  iteration_order (cs ++ extra) sats keys -> iteration_order cs sats keys' ->
  VerifyCaveatsIn keys (cs ++ extra) sats = Ok tt ->
  VerifyCaveatsIn keys' cs sats = Ok tt.
Proof.
  intros Hb. apply Satisfiers.verify_prefix. eapply Forall_impl; [exact Hb|].
  apply Satisfiers.built_attenuating.
Qed.

(** Two restrictions of the services and one of the time. *)
Definition restricted : list Caveat.t :=
  [{| Condition := "services"; Value := "loop:0" |};
   {| Condition := "loop_valid_until"; Value := "1200" |}].
Lemma verification_is_monotone_witness :
  VerifyCaveatsIn ["services"; "loop_valid_until"]
    [{| Condition := "services"; Value := "loop:0,pool:0" |};
     {| Condition := "loop_valid_until"; Value := "1300" |}]
    [Satisfiers.NewServicesSatisfier "loop"; Satisfiers.NewTimeoutSatisfier "loop" (Unix 1100);
     Satisfiers.NewCapabilitiesSatisfier "loop" "open"] = Ok tt.
Proof.
  apply (verification_is_monotone (Unix 1100) _ _ restricted
           ["services"; "loop_valid_until"] ["services"; "loop_valid_until"]).
  - repeat constructor.
  - vm_compute. reflexivity.
  - vm_compute. reflexivity.
  - vm_compute. reflexivity.
Defined.
End CaveatProperties.
