(* ===== verification/Sha256.v ===== *)
(** * Go's [crypto/sha256]: [Sum256]

    FIPS 180-4 on 32-bit words held in [Z]. *)
From S2P Require Import Prelude.
From S2P Require Import GoStrings.
From S2P Require Import GoCodec.

Definition rotr (n x : Z) : Z := Z.lor (Z.shiftr x n) (u32 (Z.shiftl x (32 - n))).
Definition Ch (x y z : Z) : Z := Z.lxor (Z.land x y) (Z.land (Z.lxor x (2 ^ 32 - 1)) z).
Definition Maj (x y z : Z) : Z :=
  Z.lxor (Z.lxor (Z.land x y) (Z.land x z)) (Z.land y z).
Definition bigSigma0 (x : Z) : Z := Z.lxor (Z.lxor (rotr 2 x) (rotr 13 x)) (rotr 22 x).
Definition bigSigma1 (x : Z) : Z := Z.lxor (Z.lxor (rotr 6 x) (rotr 11 x)) (rotr 25 x).
Definition smallSigma0 (x : Z) : Z :=
  Z.lxor (Z.lxor (rotr 7 x) (rotr 18 x)) (Z.shiftr x 3).
Definition smallSigma1 (x : Z) : Z :=
  Z.lxor (Z.lxor (rotr 17 x) (rotr 19 x)) (Z.shiftr x 10).

(** The constants of the standard: the first 32 fractional bits of the cube roots
    of the first 64 primes, and of the square roots of the first eight. *)
Definition is_prime (n : Z) : bool :=
  forallb (fun d => negb (n mod (Z.of_nat d + 2) =? 0)) (seq 0 (Z.to_nat (Z.sqrt n) - 1)).

Definition primes (n : nat) : list Z :=
  take n (List.filter is_prime (Z.of_nat <$> seq 2 400)).

(** The largest [r] with [r ^ 3 <= x], bit by bit from [2 ^ n] down. *)
Fixpoint cube_root (n : nat) (r x : Z) : Z :=
  let r' := if (r + 2 ^ Z.of_nat n) ^ 3 <=? x then r + 2 ^ Z.of_nat n else r in
  match n with O => r' | S n' => cube_root n' r' x end.

Definition K256 : list Z :=
  Eval vm_compute in (fun p => u32 (cube_root 35 0 (p * 2 ^ 96))) <$> primes 64.

Definition H256 : list Z :=
  Eval vm_compute in (fun p => u32 (Z.sqrt (p * 2 ^ 64))) <$> primes 8.

(** The message schedule, newest word first. *)
Fixpoint extend (n : nat) (w : list Z) : list Z :=
  match n with
  | O => w
  | S n' =>
      let t := u32 (smallSigma1 (nth 1 w 0) + nth 6 w 0 + smallSigma0 (nth 14 w 0) + nth 15 w 0) in
      extend n' (t :: w)
  end.

Definition compress_round (s : list Z) (kw : Z * Z) : list Z :=
  match s with
  | [a; b; c; d; e; f; g; h] =>
      let t1 := h + bigSigma1 e + Ch e f g + kw.1 + kw.2 in
      let t2 := bigSigma0 a + Maj a b c in
      [u32 (t1 + t2); a; b; c; u32 (d + t1); e; f; g]
  | _ => s
  end.

Fixpoint words (l : list byte) : list Z :=
  match l with
  | a :: b :: c :: d :: l' => be_val [a; b; c; d] :: words l'
  | _ => []
  end.

Definition compress (h : list Z) (block : list byte) : list Z :=
  let w := rev (extend 48 (rev (words block))) in
  zip_with (fun x y => u32 (x + y)) h (foldl compress_round h (zip K256 w)).

Definition pad (m : list byte) : list byte :=
  let len := Z.of_nat (length m) in
  let zeros := Z.to_nat ((55 - len) mod 64) in
  m ++ [Byte.x80] ++ replicate zeros Byte.x00 ++ be_bytes 8 (8 * len).

Fixpoint blocks (fuel : nat) (l : list byte) : list (list byte) :=
  match fuel with
  | O => []
  | S f => match l with
           | [] => []
           | _ => take 64 l :: blocks f (drop 64 l)
           end
  end.

(** Every block takes at least one byte, so the length of the message is fuel
    enough. *)
Definition Sum256 (m : list byte) : list byte :=
  let p := pad m in
  let h := foldl compress H256 (blocks (length p) p) in
  concat (be_bytes 4 <$> h).

Lemma compress_round_length s kw : length (compress_round s kw) = length s.
Proof. unfold compress_round. repeat case_match; done. Qed.

Lemma compress_length h block : length h = 8%nat -> length (compress h block) = 8%nat.
Proof.
  intros Hh. unfold compress. rewrite length_zip_with.
  assert (G : forall l s, length (foldl compress_round s l) = length s).
  { induction l as [|x l IH]; intros s; [done|]. cbn. by rewrite IH, compress_round_length. }
  rewrite G. lia.
Qed.

Lemma Sum256_length m : is_array 32 (Sum256 m).
Proof.
  unfold is_array, Sum256.
  assert (Hh : length (foldl compress H256 (blocks (length (pad m)) (pad m))) = 8%nat).
  { generalize (blocks (length (pad m)) (pad m)); intros bs.
    assert (H0 : length H256 = 8%nat) by done. revert H0. generalize H256 as h.
    induction bs as [|b bs IH]; intros h H0; [done|]. cbn. apply IH. by apply compress_length. }
  destruct (foldl compress _ _) as [|a [|b [|c [|d [|e [|f [|g [|h [|]]]]]]]]]; done.
Qed.
#[export] Hint Resolve Sum256_length : go.

(** The digest of "abc" of the standard. *)
Example Sum256_abc :
  hex_EncodeToString (Sum256 (bytes_of "abc"))
  = "ba7816bf8f01cfea414140de5dae2223b00361a396177a9cb410ff61f20015ad".
Proof. vm_compute. reflexivity. Qed.

(** A two-block message. *)
Example Sum256_two_blocks :
  hex_EncodeToString (Sum256 (bytes_of "abcdbcdecdefdefgefghfghighijhijkijkljklmklmnlmnomnopnopq"))
  = "248d6a61d20638b8e5c026930c3e6039a33ce45964ff2167f6ecedd419db06c1".
Proof. vm_compute. reflexivity. Qed.
