(* ===== verification/Macaroon.v ===== *)
(** * The interfaces of the libraries the L402 packages are built on

    [gopkg.in/macaroon.v2] and lnd's [lntypes] are not part of the repository:
    their operations are the fields of a class and their documented behaviour
    the fields of a second one.  [ToyLib] is a concrete instance of both, so that
    a statement about every library that behaves as documented can be applied. *)
From S2P Require Import Prelude.
From S2P Require Import GoStrings.
From S2P Require Import GoCodec.
From S2P Require Import Sha256.

Class L402Lib := {
  macaroon : Type;
  mac_Id : macaroon -> list byte;
  mac_Caveats : macaroon -> list (list byte);    (* the ids of the caveats *)
  mac_New : list byte -> list byte -> string -> outcome macaroon;
  mac_AddFirstPartyCaveat : macaroon -> list byte -> outcome macaroon;
  mac_MarshalBinary : macaroon -> outcome (list byte);
  mac_UnmarshalBinary : list byte -> outcome macaroon;
  mac_VerifySignature : macaroon -> list byte -> outcome (list string);
  Preimage_Hash : list byte -> list byte;
  Preimage_String : list byte -> string;
  MakePreimageFromStr : string -> outcome (list byte);
  MakeHash : list byte -> outcome (list byte)
}.

(** What the documentation of the two packages promises. *)
Class L402Laws `{L402Lib} : Prop := {
  New_Id key id loc m : mac_New key id loc = Ok m -> mac_Id m = id;
  New_Caveats key id loc m : mac_New key id loc = Ok m -> mac_Caveats m = [];
  Add_Id m c m' : mac_AddFirstPartyCaveat m c = Ok m' -> mac_Id m' = mac_Id m;
  Add_Caveats m c m' :
    mac_AddFirstPartyCaveat m c = Ok m' -> mac_Caveats m' = mac_Caveats m ++ [c];
  Marshal_nonempty m b : mac_MarshalBinary m = Ok b -> b ≠ [];
  Unmarshal_Marshal m b : mac_MarshalBinary m = Ok b -> mac_UnmarshalBinary b = Ok m;
  (* the signature of a fresh macaroon verifies under its root key ... *)
  Verify_New key id loc m : mac_New key id loc = Ok m -> mac_VerifySignature m key = Ok [];
  (* ... and adding a first-party caveat keeps it valid and reports the caveat *)
  Verify_Add m c m' key cs :
    mac_VerifySignature m key = Ok cs -> mac_AddFirstPartyCaveat m c = Ok m' ->
    mac_VerifySignature m' key = Ok (cs ++ [string_of c]);
  Hash_length p : is_array 32 (Preimage_Hash p);
  Preimage_hex p : Preimage_String p = hex_EncodeToString p;
  MakePreimage_String p : is_array 32 p -> MakePreimageFromStr (Preimage_String p) = Ok p;
  MakePreimage_length s p : MakePreimageFromStr s = Ok p -> is_array 32 p;
  MakeHash_spec b : is_array 32 b -> MakeHash b = Ok b
}.

(** ** A concrete instance *)
Module ToyLib.

Record mac := { tId : list byte; tSig : list byte; tCavs : list (list byte) }.

(** A field is written as its bytes, each behind a 1, and a final 0. *)
Definition put_field (f : list byte) : list byte :=
  concat ((fun b => [Byte.x01; b]) <$> f) ++ [Byte.x00].

Fixpoint get_fields (cur : list byte) (l : list byte) : option (list (list byte)) :=
  match l with
  | [] => if decide (cur = []) then Some [] else None
  | b :: l' =>
      if decide (b = Byte.x00) then cons (rev cur) <$> get_fields [] l'
      else match l' with
           | c :: l'' => if decide (b = Byte.x01) then get_fields (c :: cur) l'' else None
           | [] => None
           end
  end.

Lemma get_fields_put f cur rest :
  get_fields cur (put_field f ++ rest) = cons (rev cur ++ f) <$> get_fields [] rest.
Proof.
  unfold put_field. revert cur. induction f as [|b f IH]; intros cur; cbn.
  - rewrite decide_True by done. by rewrite app_nil_r.
  - rewrite decide_False, decide_True by done. rewrite IH. cbn. by rewrite <- app_assoc.
Qed.

Lemma get_fields_all fs : get_fields [] (concat (put_field <$> fs)) = Some fs.
Proof.
  induction fs as [|f fs IH]; [done|]. cbn. rewrite get_fields_put, IH. done.
Qed.

Definition marshal (m : mac) : list byte :=
  concat (put_field <$> (tId m :: tSig m :: tCavs m)).
Definition unmarshal (b : list byte) : outcome mac :=
  match get_fields [] b with
  | Some (i :: s :: cs) => Ok {| tId := i; tSig := s; tCavs := cs |}
  | _ => Err (Errorf "macaroon: cannot unmarshal")
  end.

(** The "signature" of the instance lists what was signed. *)
Definition sign (key id : list byte) (cs : list (list byte)) : list byte :=
  foldl (fun s c => s ++ put_field c) (put_field key ++ put_field id) cs.

#[export] Instance lib : L402Lib := {|
  macaroon := mac;
  mac_Id := tId;
  mac_Caveats := tCavs;
  mac_New := fun key id _ => Ok {| tId := id; tSig := sign key id []; tCavs := [] |};
  mac_AddFirstPartyCaveat := fun m c =>
    Ok {| tId := tId m; tSig := tSig m ++ put_field c; tCavs := tCavs m ++ [c] |};
  mac_MarshalBinary := fun m => Ok (marshal m);
  mac_UnmarshalBinary := unmarshal;
  mac_VerifySignature := fun m key =>
    if decide (tSig m = sign key (tId m) (tCavs m)) then Ok (string_of <$> tCavs m)
    else Err (Errorf "verification failed: signature mismatch after caveat verification");
  Preimage_Hash := Sum256;
  Preimage_String := hex_EncodeToString;
  MakePreimageFromStr := fun s =>
    match hex_DecodeString s with
    | Ok b => if decide (is_array 32 b) then Ok b else Err (Errorf "invalid preimage length")
    | Err e => Err e
    | Panic m => Panic m
    end;
  MakeHash := fun b => if decide (is_array 32 b) then Ok b else Err (Errorf "invalid hash length")
|}.

#[export] Instance laws : L402Laws.
Proof.
  split; cbn -[marshal unmarshal]; try naive_solver.
  - intros m b [= <-]. unfold marshal. cbn. unfold put_field. by destruct (concat _).
  - intros m b [= <-]. unfold marshal, unmarshal. rewrite get_fields_all. by destruct m.
  - intros key id _ m [= <-]. cbn. by rewrite decide_True.
  - intros m c m' key cs. case_decide as Hs; [|done]. intros [= <-] [= <-]. cbn.
    rewrite decide_True.
    + by rewrite fmap_app.
    + rewrite Hs. unfold sign. by rewrite foldl_snoc.
  - apply Sum256_length.
  - intros p Hp. rewrite hex_roundtrip. by rewrite decide_True.
  - intros s p. destruct (hex_DecodeString s); [|done..]. by case_decide; intros [= <-].
  - intros b Hb. by rewrite decide_True.
Qed.

End ToyLib.
