(* ===== verification/Identifier.v ===== *)
(** * L402 identifiers: [lsat/identifier.go] *)
From S2P Require Import Prelude.
From S2P Require Import GoStrings.
From S2P Require Import GoCodec.

Module Identifier.

Definition LatestVersion : Z := 0.
Definition SecretSize : nat := 32.
Definition TokenIDSize : nat := 32.
Definition ErrUnknownVersion : error := Sentinel "ErrUnknownVersion".

Record t := { Version : Z; PaymentHash : list byte; TokenID : list byte }.

#[global] Instance eq_dec : EqDecision t.
Proof. solve_decision. Defined.

(** The type of the Go struct: a [uint16] and two arrays. *)
Definition wf (id : t) : Prop :=
  is_u16 (Version id) /\ is_array 32 (PaymentHash id) /\ is_array TokenIDSize (TokenID id).
#[global] Instance wf_dec id : Decision (wf id).
Proof. unfold wf, is_u16. apply _. Defined.

(** [TokenID.String] and [MakeIDFromString]. *)
Definition TokenID_String (tid : list byte) : string := hex_EncodeToString tid.

Definition MakeIDFromString (newID : string) : outcome (list byte) :=
  if decide (String.length newID = 2 * TokenIDSize)%nat
  then idBytes ← hex_DecodeString newID; Ok (copy_array TokenIDSize idBytes)
  else Err (Errorf "invalid id string length").

(** The bytes written to the buffer are returned with the verdict: an unknown
    version is reported after the version has been written. *)
Definition EncodeIdentifier (id : t) : list byte * outcome unit :=
  let w := be_bytes 2 (Version id) in
  if decide (Version id = 0)
  then (w ++ PaymentHash id ++ TokenID id, Ok tt)
  else (w, Err (Wrapf "version" ErrUnknownVersion)).

Definition DecodeIdentifier (r : list byte) : outcome t :=
  '(v, r) ← ReadFull 2 r;
  let version := be_val v in
  if decide (version = 0) then
    '(paymentHash, r) ← Read 32 r;
    '(tokenID, _) ← Read TokenIDSize r;
    Ok {| Version := version; PaymentHash := paymentHash; TokenID := tokenID |}
  else Err (Wrapf "version" ErrUnknownVersion).

Lemma MakeIDFromString_String tid :
  is_array TokenIDSize tid -> MakeIDFromString (TokenID_String tid) = Ok tid.
Proof.
  intros H. unfold MakeIDFromString, TokenID_String.
  rewrite decide_True by (rewrite hex_encode_length; unfold is_array in H; lia).
  rewrite hex_roundtrip. cbn [mbind outcome_bind]. by rewrite copy_array_id.
Qed.

Lemma decode_encode id :
  wf id -> Version id = 0 ->
  DecodeIdentifier (EncodeIdentifier id).1 = Ok id.
Proof.
  intros (_ & Hp & Ht) Hv. unfold EncodeIdentifier, DecodeIdentifier.
  rewrite decide_True by done. cbn [fst].
  rewrite ReadFull_app by apply be_bytes_length. cbn [mbind outcome_bind].
  rewrite be_roundtrip by (rewrite Hv; done). rewrite decide_True by done.
  rewrite Read_app by (done || lia). cbn [mbind outcome_bind].
  rewrite <- (app_nil_r (TokenID id)) at 1.
  rewrite Read_app by (done || unfold TokenIDSize; lia). by destruct id.
Qed.

(** Whatever is decoded has the shape of the struct, with version 0. *)
Lemma decode_wf r id : DecodeIdentifier r = Ok id -> wf id /\ Version id = 0.
Proof.
  unfold DecodeIdentifier. intros H.
  apply bind_Ok_inv in H as ([v r1] & Hv & H). case_decide as H0; [|done].
  apply bind_Ok_inv in H as ([ph r2] & Hp & H).
  apply bind_Ok_inv in H as ([tid r3] & Ht & H). injection H as <-.
  unfold Read in Hp, Ht. repeat case_decide; try done.
  injection Hp as <- <-. injection Ht as <- <-.
  unfold wf. cbn. rewrite H0. split; [|done].
  split; [done|]. split; apply copy_array_length.
Qed.

(** How many bytes decoding asks for: the version in full, the payment hash in
    full and at least one byte of the token id, because [Read] accepts a short
    count. *)
Lemma decode_ok_iff r :
  is_ok (DecodeIdentifier r) = true <->
  (35 <= length r)%nat /\ take 2 r = [Byte.x00; Byte.x00].
Proof.
  unfold DecodeIdentifier, ReadFull. destruct (decide (2 <= length r)%nat) as [Hl|Hl].
  2: { case_decide; cbn; split; (done || lia). }
  destruct r as [|a [|b r]]; cbn in Hl; [lia|lia|].
  cbn [take drop mbind outcome_bind length].
  change (skipn 0 r) with r. change (firstn 0 r) with (@nil byte).
  pose proof (byte_val_range a) as Ha. pose proof (byte_val_range b) as Hb.
  assert (Hz : be_val [a; b] = 0 <-> [a; b] = [Byte.x00; Byte.x00]).
  { change (be_val [a; b]) with (byte_val a * 256 + (byte_val b * 1 + 0)). split.
    - intros E. assert (byte_val a = 0) by lia. assert (byte_val b = 0) by lia.
      f_equal; [|f_equal]; apply byte_val_inj; done.
    - by intros [= -> ->]. }
  case_decide as E; [|cbn; naive_solver].
  unfold Read. case_decide as E1.
  { subst. cbn. split; [done | lia]. }
  cbn [mbind outcome_bind]. case_decide as E2; cbn.
  - split; [done|]. intros [Hlen _].
    apply (f_equal length) in E2. rewrite length_drop in E2. cbn in E2. lia.
  - split; [|done]. intros _. split; [|tauto].
    destruct (decide (length r <= 32)%nat) as [Hle|Hgt]; [|lia].
    by rewrite drop_ge in E2 by lia.
Qed.

(** ** Properties *)

(** an identifier of the struct's shape and of version 0 is read back from
    its bytes. *)
Theorem identifier_roundtrip id :
  wf id -> Version id = 0 ->
  exists b, EncodeIdentifier id = (b, Ok tt) /\ DecodeIdentifier b = Ok id.
Proof.
  intros Hw Hv. destruct (EncodeIdentifier id) as [b r] eqn:E. exists b. split.
  - unfold EncodeIdentifier in E. rewrite decide_True in E by done. by injection E as <- <-.
  - rewrite <- (decode_encode id Hw Hv). by rewrite E.
Qed.

Definition some_id : t :=
  {| Version := 0; PaymentHash := replicate 32 Byte.x0a; TokenID := replicate 32 Byte.x0b |}.

Lemma identifier_roundtrip_witness :
  exists b, EncodeIdentifier some_id = (b, Ok tt) /\ DecodeIdentifier b = Ok some_id.
Proof.
  apply (identifier_roundtrip some_id).
  - unfold wf, is_u16, is_array. vm_compute. repeat split; discriminate.
  - reflexivity.
Defined.

(** Decoding accepts every text of at least 35 bytes that starts with version
    0: the token id may be cut short, because a short [Read] is not an error. *)
Theorem truncated_identifier_accepted r :
  is_ok (DecodeIdentifier r) = true <->
  (35 <= length r)%nat /\ take 2 r = [Byte.x00; Byte.x00].
Proof. apply decode_ok_iff. Qed.

End Identifier.
