(* ===== verification/Http.v ===== *)
(** * Go's [net/http]: header maps, requests and responses *)
From S2P Require Import Prelude.
From S2P Require Import GoStrings.

(** A header maps canonical field names to their values.  A literal map can hold
    a name in another spelling; [Get], [Set] and [Add] use the canonical one. *)
Abbreviation header := (gmap string (list string)).

(** [textproto.CanonicalMIMEHeaderKey] *)
Definition is_token_char (c : ascii) : bool :=
  let n := nat_of_ascii c in
  ((48 <=? n) && (n <=? 57) || (65 <=? n) && (n <=? 90) || (97 <=? n) && (n <=? 122))%nat ||
  negb (lacks c "!#$%&'*+-.^_`|~").

Definition upper_char (a : ascii) : ascii :=
  let n := nat_of_ascii a in
  if (97 <=? n)%nat && (n <=? 122)%nat then ascii_of_nat (n - 32) else a.

Fixpoint canonical_go (upper : bool) (s : string) : string :=
  match s with
  | "" => ""
  | String a s' =>
      String (if upper then upper_char a else lower_char a)
        (canonical_go (bool_decide (a = "-"%char)) s')
  end.

Definition CanonicalHeaderKey (k : string) : string :=
  if forallb_string is_token_char k then canonical_go true k else k.

Definition Values (h : header) (k : string) : list string :=
  default [] (h !! CanonicalHeaderKey k).
Definition Get (h : header) (k : string) : string :=
  match Values h k with v :: _ => v | [] => "" end.
Definition Set_ (h : header) (k v : string) : header :=
  <[CanonicalHeaderKey k := [v]]> h.
Definition Add_ (h : header) (k v : string) : header :=
  <[CanonicalHeaderKey k := Values h k ++ [v]]> h.

Lemma Get_Set_eq h k v : Get (Set_ h k v) k = v.
Proof. unfold Get, Values, Set_. by rewrite lookup_insert_eq. Qed.

Lemma Get_Set_ne h k k' v :
  CanonicalHeaderKey k ≠ CanonicalHeaderKey k' -> Get (Set_ h k v) k' = Get h k'.
Proof. intros H. unfold Get, Values, Set_. by rewrite lookup_insert_ne. Qed.

Lemma Get_Add_ne h k k' v :
  CanonicalHeaderKey k ≠ CanonicalHeaderKey k' -> Get (Add_ h k v) k' = Get h k'.
Proof. intros H. unfold Get, Values, Add_. by rewrite lookup_insert_ne. Qed.

Lemma Get_Add_keeps h k k' v : Get h k' ≠ "" -> Get (Add_ h k v) k' = Get h k'.
Proof.
  unfold Get, Values, Add_. intros H.
  destruct (decide (CanonicalHeaderKey k = CanonicalHeaderKey k')) as [E|E].
  - rewrite E in *. rewrite lookup_insert_eq. cbn.
    unfold Values. rewrite E. destruct (h !! CanonicalHeaderKey k') as [[|x l]|]; done.
  - by rewrite lookup_insert_ne.
Qed.
#[export] Hint Rewrite Get_Set_eq : go.

(** A request, as far as the program looks at it. *)
Record request := {
  rMethod : string;
  rHost : string;
  rPath : string;          (* r.URL.Path *)
  rURLHost : string;       (* r.URL.Host *)
  rScheme : string;        (* r.URL.Scheme *)
  rRemoteAddr : string;
  rHeader : header;
  rBody : string           (* what is left to read of the body *)
}.

Definition with_header (r : request) (h : header) : request :=
  {| rMethod := rMethod r; rHost := rHost r; rPath := rPath r; rURLHost := rURLHost r;
     rScheme := rScheme r; rRemoteAddr := rRemoteAddr r; rHeader := h; rBody := rBody r |}.
Definition with_body (r : request) (b : string) : request :=
  {| rMethod := rMethod r; rHost := rHost r; rPath := rPath r; rURLHost := rURLHost r;
     rScheme := rScheme r; rRemoteAddr := rRemoteAddr r; rHeader := rHeader r; rBody := b |}.

(** A response under construction: the header map of the writer, and the status
    and body once they are written. *)
Record response := {
  wHeader : header;
  wStatus : Z;
  wBody : string
}.

Definition StatusOK : Z := 200.
Definition StatusPaymentRequired : Z := 402.
Definition StatusInternalServerError : Z := 500.

(** [http.Error] *)
Definition http_Error (w : header) (msg : string) (code : Z) : response :=
  let h := Set_ w "Content-Type" "text/plain; charset=utf-8" in
  let h := Set_ h "X-Content-Type-Options" "nosniff" in
  {| wHeader := h; wStatus := code; wBody := msg +:+ String "010" "" |}.
