(* ===== verification/Header.v ===== *)
(** * Where an L402 travels: caveats of a macaroon, HTTP header fields, gRPC
    credentials

    [AddFirstPartyCaveats] and [HasCaveat] of [lsat/caveat.go], and
    [lsat/header.go], [lsat/credential.go], [lsat/context.go],
    [lsat/server_interceptor.go]. *)
From S2P Require Import Prelude.
From S2P Require Import GoStrings.
From S2P Require Import GoCodec.
From S2P Require Import Http.
From S2P Require Import Caveat.
From S2P Require Import Macaroon.
From S2P Require Import Identifier.

(** ** The two regular expressions on challenge and token texts

    [.] matches any character but a newline; a lazy group takes the shortest
    text for which the rest matches; of all matches the leftmost is taken. *)

(** The first 64 characters, when they are all in [[a-f0-9]]. *)
Fixpoint take_hex (n : nat) (s : string) : option string :=
  match n, s with
  | O, _ => Some ""
  | S n', String c s' => if is_hex c then String c <$> take_hex n' s' else None
  | S _, "" => None
  end.

(** [(.*?):([a-f0-9]{64})] at the start of the text. *)
Fixpoint lazy_pair (s : string) : option (string * string) :=
  let here :=
    match s with
    | String c s' => if decide (c = ":"%char) then take_hex 64 s' else None
    | "" => None
    end in
  match here with
  | Some p => Some ("", p)
  | None =>
      match s with
      | "" => None
      | String c s' =>
          if decide (c = "010"%char) then None
          else match lazy_pair s' with
               | Some (m, p) => Some (String c m, p)
               | None => None
               end
      end
  end.

Definition strip_prefix (prefix s : string) : option string :=
  if HasPrefix s prefix then Some (String.substring (String.length prefix) (String.length s) s)
  else None.

(** [fmt.Sprintf(authFormat, mac, preimage)] *)
Definition authFormat (macBase64 preimageHex : string) : string :=
  "L402 " +:+ macBase64 +:+ String ":" preimageHex.

(** [authRegex.FindStringSubmatch], without the whole match. *)
Fixpoint authRegex_find (s : string) : option (string * string) :=
  let here := strip_prefix "L402 " s ≫= lazy_pair in
  match here, s with
  | Some r, _ => Some r
  | None, String _ s' => authRegex_find s'
  | None, "" => None
  end.

Lemma authRegex_find_unfold s :
  authRegex_find s =
  match strip_prefix "L402 " s ≫= lazy_pair, s with
  | Some r, _ => Some r
  | None, String _ s' => authRegex_find s'
  | None, "" => None
  end.
Proof. by destruct s. Qed.

Lemma substring_all s : String.substring 0 (String.length s) s = s.
Proof. induction s as [|a s IH]; cbn; [done | by f_equal]. Qed.

Lemma substring_drop p s n :
  String.substring (String.length p) n (p +:+ s) = String.substring 0 n s.
Proof. induction p as [|a p IH]; cbn; [done | exact IH]. Qed.

Lemma substring_long s n : (String.length s <= n)%nat -> String.substring 0 n s = s.
Proof.
  revert n; induction s as [|a s IH]; intros [|n] H; cbn in *; try done; try lia.
  f_equal. apply IH. lia.
Qed.

Lemma string_length_app a b : String.length (a +:+ b) = (String.length a + String.length b)%nat.
Proof. induction a as [|c a IH]; cbn; [done | by rewrite IH]. Qed.

Lemma strip_prefix_app p s : strip_prefix p (p +:+ s) = Some s.
Proof.
  unfold strip_prefix. rewrite HasPrefix_app, substring_drop, substring_long; [done|].
  rewrite string_length_app. lia.
Qed.

Lemma take_hex_exact s :
  forallb_string is_hex s = true -> take_hex (String.length s) s = Some s.
Proof.
  induction s as [|c s IH]; [done|]. cbn. intros [-> H]%andb_true_iff. by rewrite IH.
Qed.

Lemma lazy_pair_app m p :
  lacks ":" m = true -> lacks "010" m = true ->
  String.length p = 64%nat -> forallb_string is_hex p = true ->
  lazy_pair (m +:+ String ":" p) = Some (m, p).
Proof.
  intros Hc Hn Hl Hp. induction m as [|c m IH].
  - cbn [String.append lazy_pair]. rewrite decide_True by done.
    rewrite <- Hl, take_hex_exact by done. done.
  - apply lacks_cons in Hc as [? ?]. apply lacks_cons in Hn as [? ?].
    cbn [String.append lazy_pair]. rewrite !decide_False by done. by rewrite IH.
Qed.

(** The request context: the value stored under each key. *)
Abbreviation context := (gmap string (list byte)).

(** ** [AddFirstPartyCaveats], [HasCaveat] *)
Section L402.
Context `{L402Lib}.

Fixpoint AddFirstPartyCaveats (m : macaroon) (caveats : list Caveat.t) : outcome macaroon :=
  match caveats with
  | [] => Ok m
  | c :: rest =>
      m' ← mac_AddFirstPartyCaveat m (bytes_of (Caveat.EncodeCaveat c));
      AddFirstPartyCaveats m' rest
  end.

(** The value of the last caveat with the condition. *)
Definition HasCaveat (m : macaroon) (cond : string) : option string :=
  foldl (fun value rawCaveat =>
    match Caveat.DecodeCaveat (string_of rawCaveat) with
    | Ok caveat =>
        if decide (Caveat.Condition caveat = cond) then Some (Caveat.Value caveat) else value
    | _ => value
    end) None (mac_Caveats m).

(** ** [lsat/header.go] *)
Definition HeaderAuthorization : string := "Authorization".
Definition HeaderMacaroonMD : string := "Grpc-Metadata-Macaroon".
Definition HeaderMacaroon : string := "Macaroon".

(** Header field 1: macaroon and preimage separated by a colon. *)
Definition fromAuthorization (authHeader : string) : outcome (macaroon * list byte) :=
  match authRegex_find authHeader with
  | None => Err (Errorf "invalid auth header format")
  | Some (macBase64, preimageHex) =>
      macBytes ← errorf "base64 decode of macaroon failed" (b64_DecodeString macBase64);
      mac ← errorf "unable to unmarshal macaroon" (mac_UnmarshalBinary macBytes);
      preimage ← errorf "hex decode of preimage failed" (MakePreimageFromStr preimageHex);
      Ok (mac, preimage)
  end.

(** Header fields 2 and 3: only the macaroon, which carries the preimage. *)
Definition fromMacaroonHex (authHeader : string) : outcome (macaroon * list byte) :=
  macBytes ← errorf "hex decode of macaroon failed" (hex_DecodeString authHeader);
  mac ← errorf "unable to unmarshal macaroon" (mac_UnmarshalBinary macBytes);
  preimageHex ← of_option (Errorf "preimage caveat not found")
                  (HasCaveat mac Caveat.PreimageKey);
  preimage ← errorf "hex decode of preimage failed" (MakePreimageFromStr preimageHex);
  Ok (mac, preimage).

Definition FromHeader (h : header) : outcome (macaroon * list byte) :=
  if decide (Get h HeaderAuthorization ≠ "") then fromAuthorization (Get h HeaderAuthorization)
  else if decide (Get h HeaderMacaroonMD ≠ "") then fromMacaroonHex (Get h HeaderMacaroonMD)
  else if decide (Get h HeaderMacaroon ≠ "") then fromMacaroonHex (Get h HeaderMacaroon)
  else Err (Errorf "no auth header provided").

Definition SetHeader (h : header) (mac : macaroon) (preimage : list byte) : outcome header :=
  macBytes ← mac_MarshalBinary mac;
  let value := authFormat (b64_EncodeToString macBytes) (Preimage_String preimage) in
  Ok (Set_ h HeaderAuthorization value).

(** ** [lsat/credential.go] *)
Record MacaroonCredential := { mcMacaroon : macaroon; AllowInsecure : bool }.

Definition NewMacaroonCredential (m : macaroon) (allowInsecure : bool) : MacaroonCredential :=
  {| mcMacaroon := m; AllowInsecure := allowInsecure |}.

Definition RequireTransportSecurity (m : MacaroonCredential) : bool := negb (AllowInsecure m).

Definition GetRequestMetadata (m : MacaroonCredential) : outcome (gmap string string) :=
  macBytes ← mac_MarshalBinary (mcMacaroon m);
  Ok {["macaroon" := hex_EncodeToString macBytes]}.

(** ** [lsat/server_interceptor.go] and [lsat/context.go]

    [md] is the incoming metadata of the call, absent when the context has none;
    the result is the context value the handler runs with: the token id under
    [KeyTokenID] when one was extracted. *)
Definition tokenFromContext (md : option header) : outcome (list byte) :=
  match md with
  | None => Err (Errorf "context contains no metadata")
  | Some md =>
      let h := {[HeaderAuthorization := default [] (md !! ToLower HeaderAuthorization)]} in
      '(mac, _) ← errorf "auth header extraction failed" (FromHeader h);
      identifier ← errorf "token ID decoding failed" (Identifier.DecodeIdentifier (mac_Id mac));
      Ok (copy_array Identifier.TokenIDSize (Identifier.TokenID identifier))
  end.

Definition KeyTokenID : string := "tokenid".
Definition AddToContext (ctx : context) (key : string) (v : list byte) : context :=
  <[key := v]> ctx.
Definition FromContext (ctx : context) (key : string) : option (list byte) := ctx !! key.

Definition UnaryServerInterceptor {R} (md : option header) (ctx : context)
    (handler : context -> R) : R :=
  match tokenFromContext md with
  | Ok token => handler (AddToContext ctx KeyTokenID token)
  | _ => handler ctx
  end.

Definition StreamServerInterceptor {R} (md : option header) (ctx : context)
    (handler : context -> R) : R :=
  match tokenFromContext md with
  | Ok token => handler (AddToContext ctx KeyTokenID token)
  | _ => handler ctx
  end.

(** ** Facts *)
Context `{!L402Laws}.

Lemma AddFirstPartyCaveats_spec m cs m' :
  AddFirstPartyCaveats m cs = Ok m' ->
  mac_Id m' = mac_Id m /\
  mac_Caveats m' = mac_Caveats m ++ ((fun c => bytes_of (Caveat.EncodeCaveat c)) <$> cs).
Proof.
  revert m; induction cs as [|c cs IH]; intros m E; cbn in E.
  - injection E as <-. by rewrite app_nil_r.
  - apply bind_Ok_inv in E as (m1 & E1 & E). apply IH in E as [Hid Hcs].
    rewrite Hid, Hcs, (Add_Id _ _ _ E1), (Add_Caveats _ _ _ E1). cbn.
    by rewrite <- app_assoc.
Qed.

Lemma AddFirstPartyCaveats_verify m cs m' key raw :
  AddFirstPartyCaveats m cs = Ok m' -> mac_VerifySignature m key = Ok raw ->
  mac_VerifySignature m' key = Ok (raw ++ (Caveat.EncodeCaveat <$> cs)).
Proof.
  revert m raw; induction cs as [|c cs IH]; intros m raw E V; cbn in E.
  - injection E as <-. by rewrite app_nil_r.
  - apply bind_Ok_inv in E as (m1 & E1 & E).
    pose proof (Verify_Add _ _ _ _ _ V E1) as V1. rewrite string_of_bytes_of in V1.
    rewrite (IH _ _ E V1). cbn. by rewrite <- app_assoc.
Qed.

(** The last caveat of a condition decides. *)
Lemma HasCaveat_snoc m c :
  lacks "=" (Caveat.Condition c) = true ->
  forall cavs, mac_Caveats m = cavs ++ [bytes_of (Caveat.EncodeCaveat c)] ->
  HasCaveat m (Caveat.Condition c) = Some (Caveat.Value c).
Proof.
  intros Hl cavs Hm. unfold HasCaveat. rewrite Hm, foldl_snoc.
  rewrite string_of_bytes_of, Caveat.DecodeCaveat_EncodeCaveat by done.
  by rewrite decide_True.
Qed.

Lemma authRegex_set macB64 p :
  forallb_string is_b64 macB64 = true -> is_array 32 p ->
  authRegex_find (authFormat macB64 (Preimage_String p))
  = Some (macB64, Preimage_String p).
Proof.
  intros Hb Hp.
  assert (E : strip_prefix "L402 " (authFormat macB64 (Preimage_String p))
              ≫= lazy_pair = Some (macB64, Preimage_String p)).
  { unfold authFormat. rewrite strip_prefix_app. cbn [mbind option_bind]. rewrite Preimage_hex.
    apply lazy_pair_app.
    - by eapply (lacks_if is_b64).
    - by eapply (lacks_if is_b64).
    - rewrite hex_encode_length. unfold is_array in Hp. lia.
    - apply hex_encode_chars. }
  by rewrite authRegex_find_unfold, E.
Qed.

(** What [SetHeader] writes, [FromHeader] reads back. *)
Lemma FromHeader_SetHeader h mac preimage h' :
  is_array 32 preimage -> SetHeader h mac preimage = Ok h' ->
  FromHeader h' = Ok (mac, preimage).
Proof.
  intros Hp E. unfold SetHeader in E. apply bind_Ok_inv in E as (b & Eb & E).
  injection E as <-. unfold FromHeader. rewrite Get_Set_eq.
  rewrite decide_True by done. unfold fromAuthorization.
  rewrite authRegex_set by (done || apply b64_encode_chars).
  rewrite b64_roundtrip. cbn [errorf mbind outcome_bind].
  rewrite (Unmarshal_Marshal _ _ Eb). cbn [errorf mbind outcome_bind].
  by rewrite MakePreimage_String.
Qed.

(** A header whose only L402 field is the macaroon of a paid token. *)
Lemma FromHeader_credential m c md h :
  GetRequestMetadata c = Ok md -> mcMacaroon c = m ->
  h = {[HeaderMacaroon := [default "" (md !! "macaroon")]]} ->
  FromHeader h =
    (preimageHex ← of_option (Errorf "preimage caveat not found") (HasCaveat m Caveat.PreimageKey);
     preimage ← errorf "hex decode of preimage failed" (MakePreimageFromStr preimageHex);
     Ok (m, preimage)) \/ FromHeader h = Err (Errorf "no auth header provided").
Proof.
  intros E <- ->. unfold GetRequestMetadata in E. apply bind_Ok_inv in E as (b & Eb & E).
  injection E as <-. rewrite lookup_singleton_eq. cbn [from_option id].
  unfold FromHeader.
  assert (G1 : Get {[HeaderMacaroon := [hex_EncodeToString b]]} HeaderAuthorization = "") by done.
  assert (G2 : Get {[HeaderMacaroon := [hex_EncodeToString b]]} HeaderMacaroonMD = "") by done.
  assert (G3 : Get {[HeaderMacaroon := [hex_EncodeToString b]]} HeaderMacaroon
               = hex_EncodeToString b) by done.
  rewrite G1, G2, G3.
  destruct (decide (hex_EncodeToString b = "")) as [Hb|Hb].
  - right. by rewrite Hb.
  - left. rewrite (decide_False (P := "" ≠ "")) by naive_solver.
    rewrite (decide_False (P := "" ≠ "")) by naive_solver.
    rewrite decide_True by done. unfold fromMacaroonHex.
    rewrite hex_roundtrip. cbn [errorf mbind outcome_bind].
    by rewrite (Unmarshal_Marshal _ _ Eb).
Qed.

End L402.

(** ** Properties *)
Module HeaderProperties.

(** C37: the header [SetHeader] writes is read back by [FromHeader]: the macaroon
    and the preimage survive the marshalling, base64, hex and the regular
    expression. *)
Theorem header_roundtrip `{L402Lib} `{!L402Laws} h mac preimage h' :
  is_array 32 preimage -> SetHeader h mac preimage = Ok h' ->
  FromHeader h' = Ok (mac, preimage).
Proof. apply FromHeader_SetHeader. Qed.

Definition toy_mac : @macaroon ToyLib.lib :=
  {| ToyLib.tId := [Byte.x01; Byte.xfe]; ToyLib.tSig := [Byte.x33];
     ToyLib.tCavs := [bytes_of "services=a:0"] |}.

Lemma header_roundtrip_witness :
  exists h', @SetHeader ToyLib.lib ∅ toy_mac (replicate 32 Byte.x07) = Ok h' /\
             @FromHeader ToyLib.lib h' = Ok (toy_mac, replicate 32 Byte.x07).
Proof.
  eexists. split; [vm_compute; reflexivity|].
  apply (@header_roundtrip ToyLib.lib ToyLib.laws ∅ toy_mac (replicate 32 Byte.x07)).
  - reflexivity.
  - vm_compute. reflexivity.
Defined.
End HeaderProperties.
