(* ===== verification/Token.v ===== *)
(** * Client tokens: [lsat/token.go] and the file store of [lsat/store.go] *)
From S2P Require Import Prelude.
From S2P Require Import GoStrings.
From S2P Require Import GoCodec.
From S2P Require Import GoTime.
From S2P Require Import Caveat.
From S2P Require Import Macaroon.
From S2P Require Import Header.

Module Token.
Section Token.
Context `{L402Lib}.

Definition zeroPreimage : list byte := replicate 32 Byte.x00.

Record t := {
  PaymentHash : list byte;
  Preimage : list byte;
  AmountPaid : Z;
  RoutingFeePaid : Z;
  TimeCreated : time;
  baseMac : macaroon
}.

(** [now] is the instant [time.Now()] returns. *)
Definition tokenFromChallenge (now : time) (baseMac : list byte) (paymentHash : list byte) :
    outcome t :=
  mac ← errorf "unable to unmarshal macaroon" (mac_UnmarshalBinary baseMac);
  hash ← MakeHash paymentHash;
  Ok {| PaymentHash := hash; Preimage := zeroPreimage; AmountPaid := 0;
        RoutingFeePaid := 0; TimeCreated := now; baseMac := mac |}.

(** The macaroon is cloned, so that adding a caveat leaves the token alone. *)
Definition BaseMacaroon (tok : t) : macaroon := baseMac tok.

Definition PaidMacaroon (tok : t) : outcome macaroon :=
  AddFirstPartyCaveats (BaseMacaroon tok)
    [Caveat.NewCaveat Caveat.PreimageKey (Preimage_String (Preimage tok))].

Definition IsValid (tok : t) : bool := true.

Definition isPending (tok : t) : bool := bool_decide (Preimage tok = zeroPreimage).

Definition serializeToken (tok : t) : outcome (list byte) :=
  baseMacBytes ← mac_MarshalBinary (baseMac tok);
  let macLen := u32 (Z.of_nat (length baseMacBytes)) in
  Ok (be_bytes 4 macLen ++ baseMacBytes ++ PaymentHash tok ++ Preimage tok ++
      be_bytes 8 (AmountPaid tok) ++ be_bytes 8 (RoutingFeePaid tok) ++
      be_int64 (UnixNano (TimeCreated tok))).

Definition deserializeToken (now : time) (value : list byte) : outcome t :=
  '(lenB, r) ← ReadFull 4 value;
  '(macBytes, r) ← ReadFull (Z.to_nat (be_val lenB)) r;
  '(paymentHash, r) ← ReadFull 32 r;
  token ← tokenFromChallenge now macBytes paymentHash;
  '(preimage, r) ← ReadFull 32 r;
  '(amount, r) ← ReadFull 8 r;
  '(fee, r) ← ReadFull 8 r;
  '(unixNano, _) ← ReadFull 8 r;
  Ok {| PaymentHash := PaymentHash token; Preimage := preimage;
        AmountPaid := be_val amount; RoutingFeePaid := be_val fee;
        TimeCreated := UnixFromNano (int64_of_be unixNano);
        baseMac := baseMac token |}.

(** A value of the Go type that fits the file format: the lengths and widths of
    the fields, a macaroon that marshals to less than 4 GiB, and a creation time
    an [int64] of nanoseconds can express. *)
Definition storable (tok : t) : Prop :=
  is_array 32 (PaymentHash tok) /\ is_array 32 (Preimage tok) /\
  is_u64 (AmountPaid tok) /\ is_u64 (RoutingFeePaid tok) /\
  (exists n, is_i64 n /\ TimeCreated tok = UnixFromNano n) /\
  (exists b, mac_MarshalBinary (baseMac tok) = Ok b /\ is_u32 (Z.of_nat (length b))).

Context `{!L402Laws}.

Lemma serialize_Ok tok : storable tok -> exists b, serializeToken tok = Ok b.
Proof.
  intros (_ & _ & _ & _ & _ & b & Hb & _). unfold serializeToken. rewrite Hb. by eexists.
Qed.

Lemma deserialize_serialize now tok b :
  storable tok -> serializeToken tok = Ok b -> deserializeToken now b = Ok tok.
Proof.
  intros (Hh & Hp & Ha & Hf & (n & Hn & Ht) & (mb & Hmb & Hlen)) E.
  unfold serializeToken in E. rewrite Hmb in E. cbn [mbind outcome_bind] in E.
  apply (inj Ok) in E as <-. unfold deserializeToken, is_array, is_u64, is_u32 in *.
  rewrite u32_small by done.
  rewrite ReadFull_app by apply be_bytes_length. cbn [mbind outcome_bind].
  rewrite be_roundtrip by done. rewrite Nat2Z.id.
  rewrite ReadFull_app by done. cbn [mbind outcome_bind].
  rewrite ReadFull_app by done. cbn [mbind outcome_bind].
  unfold tokenFromChallenge. rewrite (Unmarshal_Marshal _ _ Hmb).
  cbn [errorf mbind outcome_bind]. rewrite MakeHash_spec by done. cbn [mbind outcome_bind].
  rewrite ReadFull_app by done. cbn [mbind outcome_bind].
  rewrite ReadFull_app by apply be_bytes_length. cbn [mbind outcome_bind].
  rewrite ReadFull_app by apply be_bytes_length. cbn [mbind outcome_bind].
  rewrite <- (app_nil_r (be_int64 _)).
  rewrite ReadFull_app by apply be_bytes_length. cbn [mbind outcome_bind].
  rewrite !be_roundtrip by done. cbn [PaymentHash baseMac].
  rewrite Ht, UnixNano_FromNano, be_int64_roundtrip by done.
  rewrite <- Ht. by destruct tok.
Qed.

(** The macaroon of a paid token carries its preimage. *)
Lemma PaidMacaroon_preimage tok m :
  PaidMacaroon tok = Ok m ->
  HasCaveat m Caveat.PreimageKey = Some (Preimage_String (Preimage tok)).
Proof.
  intros E. apply AddFirstPartyCaveats_spec in E as [_ Hcs]. cbn in Hcs.
  by eapply (HasCaveat_snoc m (Caveat.NewCaveat Caveat.PreimageKey _)).
Qed.

End Token.
Arguments t {_}.
#[global] Arguments PaidMacaroon : simpl never.
#[global] Arguments tokenFromChallenge : simpl never.
End Token.

(** ** [lsat/store.go]

    The directory of the store maps file names to contents.  [env] says which
    system calls fail; a call that fails leaves the directory as it was. *)
Module FileStore.
Abbreviation dir := (gmap string (list byte)).
Section FileStore.
Context `{L402Lib}.

Definition ErrNoToken : error := Sentinel "ErrNoToken".
Definition errNoReplace : error := Sentinel "errNoReplace".
Definition storeFileName : string := "lsat.token".
Definition storeFileNamePending : string := "lsat.token.pending".

Record env := {
  readFails : string -> bool;
  writeFails : string -> bool;
  removeFails : string -> bool;
  now : time
}.

Definition fileExists (d : dir) (path : string) : bool := bool_decide (is_Some (d !! path)).

(** The directory is made when it is not there; [mkdirAll] is what that answers. *)
Definition NewFileStore (mkdirAll : outcome unit) (storeDir : option dir) : outcome dir :=
  match storeDir with
  | Some d => Ok d
  | None => _ ← mkdirAll; Ok ∅
  end.

Definition ReadFile (e : env) (d : dir) (path : string) : outcome (list byte) :=
  if readFails e path then Err (Errorf "read") else of_option (Errorf "no such file") (d !! path).
Definition WriteFile (e : env) (d : dir) (path : string) (b : list byte) : dir * outcome unit :=
  if writeFails e path then (d, Err (Errorf "write")) else (<[path := b]> d, Ok tt).
Definition Remove (e : env) (d : dir) (path : string) : dir * outcome unit :=
  if removeFails e path then (d, Err (Errorf "remove"))
  else match d !! path with
       | Some _ => (delete path d, Ok tt)
       | None => (d, Err (Errorf "no such file"))
       end.

Definition readTokenFile (e : env) (d : dir) (tokenFile : string) : outcome Token.t :=
  bytes ← ReadFile e d tokenFile; Token.deserializeToken (now e) bytes.

Definition currentToken (e : env) (d : dir) : outcome Token.t :=
  if fileExists d storeFileName then readTokenFile e d storeFileName
  else if fileExists d storeFileNamePending then readTokenFile e d storeFileNamePending
  else Err ErrNoToken.

Definition CurrentToken := currentToken.

(** The tokens of the files named in [names], the order of [os.ReadDir]. *)
Fixpoint readTokens (e : env) (d : dir) (names : list string) :
    outcome (gmap string Token.t) :=
  match names with
  | [] => Ok ∅
  | name :: names' =>
      if HasPrefix name storeFileName then
        token ← readTokenFile e d name;
        tokens ← readTokens e d names';
        Ok (<[name := token]> tokens)
      else readTokens e d names'
  end.

Definition AllTokens (e : env) (d : dir) (names : list string) :
    outcome (gmap string Token.t) := readTokens e d names.

Definition StoreToken (e : env) (d : dir) (newToken : Token.t) : dir * outcome unit :=
  match Token.serializeToken newToken with
  | Err er => (d, Err er)
  | Panic m => (d, Panic m)
  | Ok bytes =>
      match currentToken e d with
      | Err er =>
          if decide (er = ErrNoToken) then
            let newFileName :=
              if Token.isPending newToken then storeFileNamePending else storeFileName in
            WriteFile e d newFileName bytes
          else (d, Err er)
      | Panic m => (d, Panic m)
      | Ok current =>
          if Token.isPending current && negb (Token.isPending newToken) then
            if decide (Token.PaymentHash current = Token.PaymentHash newToken) then
              let '(d1, r) := WriteFile e d storeFileName bytes in
              match r with
              | Ok _ => ((Remove e d1 storeFileNamePending).1, Ok tt)
              | _ => (d1, r)
              end
            else (d, Err (Errorf "new paid token doesn't match existing pending token"))
          else (d, Err errNoReplace)
      end
  end.

Definition RemovePendingToken (e : env) (d : dir) : dir * outcome unit :=
  if fileExists d storeFileNamePending then Remove e d storeFileNamePending
  else (d, Err ErrNoToken).

(** *** The abstract store

    One current token, in transit or paid. *)
Inductive astore :=
  | Empty
  | InTransit (tok : Token.t)
  | Paid (tok : Token.t).

Definition abs_store (s : astore) (tok : Token.t) : astore * outcome unit :=
  match s with
  | Empty => (if Token.isPending tok then InTransit tok else Paid tok, Ok tt)
  | InTransit p =>
      if Token.isPending tok then (s, Err errNoReplace)
      else if decide (Token.PaymentHash p = Token.PaymentHash tok) then (Paid tok, Ok tt)
      else (s, Err (Errorf "new paid token doesn't match existing pending token"))
  | Paid _ => (s, Err errNoReplace)
  end.

Definition abs_current (s : astore) : outcome Token.t :=
  match s with
  | Empty => Err ErrNoToken
  | InTransit tok | Paid tok => Ok tok
  end.

(** How a directory represents an abstract store. *)
Inductive repr : dir -> astore -> Prop :=
  | repr_empty d :
      d !! storeFileName = None -> d !! storeFileNamePending = None -> repr d Empty
  | repr_pending d tok b :
      d !! storeFileName = None -> d !! storeFileNamePending = Some b ->
      Token.storable tok -> Token.serializeToken tok = Ok b ->
      Token.isPending tok = true -> repr d (InTransit tok)
  | repr_paid d tok b :
      d !! storeFileName = Some b ->
      Token.storable tok -> Token.serializeToken tok = Ok b ->
      Token.isPending tok = false -> repr d (Paid tok).

(** A store in a directory that was just made is empty. *)
Lemma NewFileStore_empty mkdirAll d : NewFileStore mkdirAll None = Ok d -> repr d Empty.
Proof. intros (u & _ & [= <-])%bind_Ok_inv. by apply repr_empty. Qed.

(** An environment in which no system call fails. *)
Definition reliable (e : env) : Prop :=
  (forall p, readFails e p = false) /\ (forall p, writeFails e p = false) /\
  (forall p, removeFails e p = false).

Context `{!L402Laws}.

Lemma fileExists_Some d p b : d !! p = Some b -> fileExists d p = true.
Proof. intros E. unfold fileExists. rewrite E. by apply bool_decide_eq_true_2. Qed.
Lemma fileExists_None d p : d !! p = None -> fileExists d p = false.
Proof. intros E. unfold fileExists. rewrite E. by apply bool_decide_eq_false_2, is_Some_None. Qed.

Lemma readTokenFile_Ok e d p tok b :
  readFails e p = false -> d !! p = Some b -> Token.storable tok ->
  Token.serializeToken tok = Ok b -> readTokenFile e d p = Ok tok.
Proof.
  intros Hr Hd Hs Hb. unfold readTokenFile, ReadFile. rewrite Hr, Hd. cbn.
  by apply Token.deserialize_serialize.
Qed.

Lemma current_refines e d s :
  (forall p, readFails e p = false) -> repr d s -> currentToken e d = abs_current s.
Proof.
  intros Hr Hrep. destruct Hrep as [d H1 H2|d tok b H1 H2 Hs Hb Hp|d tok b H1 Hs Hb Hp];
    unfold currentToken.
  - by rewrite !fileExists_None.
  - rewrite (fileExists_None _ _ H1), (fileExists_Some _ _ _ H2). by eapply readTokenFile_Ok.
  - rewrite (fileExists_Some _ _ _ H1). by eapply readTokenFile_Ok.
Qed.

(** [StoreToken] implements the abstract operation, whether or not removing the
    old pending file succeeds. *)
Lemma store_refines e d s tok :
  (forall p, readFails e p = false) -> (forall p, writeFails e p = false) ->
  repr d s -> Token.storable tok ->
  (StoreToken e d tok).2 = (abs_store s tok).2 /\
  repr (StoreToken e d tok).1 (abs_store s tok).1.
Proof.
  intros Hr Hw Hrep Hs. destruct (Token.serialize_Ok tok Hs) as [b Hb].
  unfold StoreToken. rewrite Hb, (current_refines e d s Hr Hrep).
  destruct Hrep as [d H1 H2|d p pb H1 H2 Hps Hpb Hp|d p pb H1 Hps Hpb Hp]; cbn.
  - rewrite decide_True by done. unfold WriteFile. rewrite Hw. split; [done|].
    destruct (Token.isPending tok) eqn:Et; cbn.
    + apply (repr_pending _ tok b); [|by rewrite lookup_insert_eq|done..].
      by rewrite lookup_insert_ne.
    + apply (repr_paid _ tok b); [|done..]. by rewrite lookup_insert_eq.
  - rewrite Hp. destruct (Token.isPending tok) eqn:Et; cbn.
    + split; [done|]. by eapply repr_pending.
    + case_decide; cbn; [|split; [done|by eapply repr_pending]].
      unfold WriteFile. rewrite Hw. cbn. split; [done|].
      apply (repr_paid _ tok b); [|done..]. unfold Remove.
      repeat case_match; cbn; rewrite ?lookup_delete_ne by done; by rewrite lookup_insert_eq.
  - rewrite Hp. cbn. split; [done|]. by eapply repr_paid.
Qed.

(** Operations a client can run on the store. *)
Inductive op := OStore (tok : Token.t) | ORemovePending.

Definition run_op (e : env) (d : dir) (o : op) : dir :=
  match o with
  | OStore tok => (StoreToken e d tok).1
  | ORemovePending => (RemovePendingToken e d).1
  end.

(** A file holding a paid token is not touched, whatever fails. *)
Lemma run_op_keeps_paid e d o tok :
  repr d (Paid tok) -> repr (run_op e d o) (Paid tok).
Proof.
  intros Hrep. inversion Hrep as [| |d' tok' b H1 Hs Hb Hp]; subst.
  assert (Hk : run_op e d o !! storeFileName = Some b); [|by eapply repr_paid].
  destruct o as [new|]; cbn.
  - unfold StoreToken. destruct (Token.serializeToken new) as [nb|er|m]; [|done..].
    unfold currentToken. rewrite (fileExists_Some _ _ _ H1).
    unfold readTokenFile, ReadFile. destruct (readFails e storeFileName); cbn.
    + done.
    + rewrite H1. cbn. rewrite (Token.deserialize_serialize _ _ _ Hs Hb), Hp. done.
  - unfold RemovePendingToken, Remove.
    repeat case_match; cbn; rewrite ?lookup_delete_ne by done; done.
Qed.

Lemma run_ops_keep_paid ops d tok :
  repr d (Paid tok) ->
  repr (foldl (fun d '(e, o) => run_op e d o) d ops) (Paid tok).
Proof.
  revert d; induction ops as [|[e o] ops IH]; intros d Hrep; [done|].
  cbn. apply IH. by apply run_op_keeps_paid.
Qed.

End FileStore.
End FileStore.

(** ** A token of the toy library, pending and paid *)
Module ToyToken.
Section Toy.
#[local] Existing Instance ToyLib.lib.

Definition mac : macaroon :=
  {| ToyLib.tId := [Byte.x01]; ToyLib.tSig := [Byte.x02]; ToyLib.tCavs := [] |}.
Definition pending : Token.t := {|
  Token.PaymentHash := replicate 32 Byte.x05;
  Token.Preimage := Token.zeroPreimage;
  Token.AmountPaid := 0;
  Token.RoutingFeePaid := 0;
  Token.TimeCreated := UnixFromNano 1700000000000000001;
  Token.baseMac := mac
|}.
Definition paid : Token.t := {|
  Token.PaymentHash := replicate 32 Byte.x05;
  Token.Preimage := replicate 32 Byte.x09;
  Token.AmountPaid := 21000;
  Token.RoutingFeePaid := 10;
  Token.TimeCreated := UnixFromNano 1700000000000000001;
  Token.baseMac := mac
|}.

Lemma storable_with p a f :
  is_array 32 p -> is_u64 a -> is_u64 f ->
  Token.storable {| Token.PaymentHash := replicate 32 Byte.x05; Token.Preimage := p;
    Token.AmountPaid := a; Token.RoutingFeePaid := f;
    Token.TimeCreated := UnixFromNano 1700000000000000001; Token.baseMac := mac |}.
Proof.
  intros Hp Ha Hf. unfold Token.storable.
  cbn [Token.PaymentHash Token.Preimage Token.AmountPaid Token.RoutingFeePaid Token.TimeCreated
       Token.baseMac].
  split; [done|]. split; [done|]. split; [done|]. split; [done|]. split.
  - exists 1700000000000000001. by unfold is_i64, minInt64, maxInt64.
  - exists (ToyLib.marshal mac). by unfold is_u32.
Qed.
Lemma pending_storable : Token.storable pending.
Proof. by apply storable_with. Qed.
Lemma paid_storable : Token.storable paid.
Proof. by apply storable_with. Qed.

(** The directory that holds one of them. *)
Definition bytes_of_token (tok : Token.t) : list byte :=
  match Token.serializeToken tok with Ok b => b | _ => [] end.
Definition pending_dir : FileStore.dir :=
  {[FileStore.storeFileNamePending := bytes_of_token pending]}.
Definition paid_dir : FileStore.dir := {[FileStore.storeFileName := bytes_of_token paid]}.
Definition calm_env : FileStore.env := {|
  FileStore.readFails _ := false; FileStore.writeFails _ := false;
  FileStore.removeFails _ := false; FileStore.now := Unix 0 |}.

Lemma pending_repr : FileStore.repr pending_dir (FileStore.InTransit pending).
Proof. eapply FileStore.repr_pending; [done|done|apply pending_storable|done|done]. Qed.
Lemma paid_repr : FileStore.repr paid_dir (FileStore.Paid paid).
Proof. eapply FileStore.repr_paid; [done|apply paid_storable|done|done]. Qed.
End Toy.
End ToyToken.

(** ** Properties *)
Module TokenProperties.

(** C38: every token that fits the file format is read back from its bytes field
    for field, whatever the clock shows when it is read. *)
Theorem token_roundtrip `{L402Lib} `{!L402Laws} now tok :
  Token.storable tok ->
  exists b, Token.serializeToken tok = Ok b /\ Token.deserializeToken now b = Ok tok.
Proof.
  intros Hs. destruct (Token.serialize_Ok tok Hs) as [b Hb]. exists b. split; [done|].
  by apply Token.deserialize_serialize.
Qed.

Lemma token_roundtrip_witness :
  exists b, @Token.serializeToken ToyLib.lib ToyToken.paid = Ok b /\
            Token.deserializeToken (Unix 0) b = Ok ToyToken.paid.
Proof. apply (@token_roundtrip ToyLib.lib ToyLib.laws (Unix 0)). apply ToyToken.paid_storable. Defined.

(** C28: while reads and writes succeed, the file store behaves as the abstract
    store of one token that is absent, in transit or paid: the same token is
    current, storing has the same verdict, and the directory represents the new
    abstract state, whether or not the pending file can be removed. *)
Theorem file_store_refines `{L402Lib} `{!L402Laws} (e : FileStore.env) d s tok :
  (forall p, FileStore.readFails e p = false) -> (forall p, FileStore.writeFails e p = false) ->
  FileStore.repr d s -> Token.storable tok ->
  FileStore.CurrentToken e d = FileStore.abs_current s /\
  (FileStore.StoreToken e d tok).2 = (FileStore.abs_store s tok).2 /\
  FileStore.repr (FileStore.StoreToken e d tok).1 (FileStore.abs_store s tok).1.
Proof.
  intros Hr Hw Hrep Hs. split; [by apply FileStore.current_refines|].
  by apply FileStore.store_refines.
Qed.

Lemma file_store_refines_witness :
  FileStore.repr (FileStore.StoreToken ToyToken.calm_env ToyToken.pending_dir ToyToken.paid).1
    (FileStore.Paid ToyToken.paid).
Proof.
  apply (@file_store_refines ToyLib.lib ToyLib.laws ToyToken.calm_env ToyToken.pending_dir
           (FileStore.InTransit ToyToken.pending) ToyToken.paid).
  - reflexivity.
  - reflexivity.
  - apply ToyToken.pending_repr.
  - apply ToyToken.paid_storable.
Defined.

(** C29: a paid token in the directory survives every sequence of store and
    remove operations, whichever of their system calls fail. *)
Theorem paid_token_is_kept `{L402Lib} `{!L402Laws} ops d tok :
  FileStore.repr d (FileStore.Paid tok) ->
  FileStore.repr (foldl (fun d '(e, o) => FileStore.run_op e d o) d ops) (FileStore.Paid tok).
Proof. apply FileStore.run_ops_keep_paid. Qed.

Lemma paid_token_is_kept_witness :
  FileStore.repr
    (foldl (fun d '(e, o) => FileStore.run_op e d o) ToyToken.paid_dir
       [(ToyToken.calm_env, FileStore.OStore ToyToken.pending);
        (ToyToken.calm_env, FileStore.ORemovePending)])
    (FileStore.Paid ToyToken.paid).
Proof. apply (@paid_token_is_kept ToyLib.lib ToyLib.laws). apply ToyToken.paid_repr. Defined.
End TokenProperties.
