(* ===== verification/Challenge.v ===== *)
(** * The payment challenge of the WWW-Authenticate field

    The text [FreshChallengeHeader] of [auth/authenticator.go] builds, and the
    regular expression [authHeaderRegex] with which [lsat/client_interceptor.go]
    takes it apart. *)
From S2P Require Import Prelude.
From S2P Require Import GoStrings.
From S2P Require Import GoCodec.
From S2P Require Import Header.

(** The double quote. *)
Definition dq : ascii := "034"%char.

(** [", invoice="] with the quotes around it. *)
Definition invoiceSep : string := String dq (", invoice=" +:+ String dq "").
Definition macaroonPrefix : string := "L402 macaroon=" +:+ String dq "".

(** [fmt.Sprintf] of the challenge *)
Definition challengeText (macBase64 invoice : string) : string :=
  macaroonPrefix +:+ macBase64 +:+ invoiceSep +:+ invoice +:+ String dq "".

(** The second group: the shortest text up to a quote, on one line. *)
Fixpoint until_quote (s : string) : option string :=
  match s with
  | "" => None
  | String c s' =>
      if decide (c = dq) then Some ""
      else if decide (c = "010"%char) then None
      else String c <$> until_quote s'
  end.

(** Both groups: the shortest first group after which the rest matches. *)
Fixpoint challenge_groups (s : string) : option (string * string) :=
  match strip_prefix invoiceSep s ≫= until_quote with
  | Some inv => Some ("", inv)
  | None =>
      match s with
      | "" => None
      | String c s' =>
          if decide (c = "010"%char) then None
          else match challenge_groups s' with
               | Some (m, inv) => Some (String c m, inv)
               | None => None
               end
      end
  end.

(** [authHeaderRegex.FindStringSubmatch], without the whole match. *)
Fixpoint authHeaderRegex_find (s : string) : option (string * string) :=
  match strip_prefix macaroonPrefix s ≫= challenge_groups, s with
  | Some r, _ => Some r
  | None, String _ s' => authHeaderRegex_find s'
  | None, "" => None
  end.

Lemma authHeaderRegex_find_unfold s :
  authHeaderRegex_find s =
  match strip_prefix macaroonPrefix s ≫= challenge_groups, s with
  | Some r, _ => Some r
  | None, String _ s' => authHeaderRegex_find s'
  | None, "" => None
  end.
Proof. by destruct s. Qed.

Lemma challenge_groups_unfold s :
  challenge_groups s =
  match strip_prefix invoiceSep s ≫= until_quote with
  | Some inv => Some ("", inv)
  | None =>
      match s with
      | "" => None
      | String c s' =>
          if decide (c = "010"%char) then None
          else match challenge_groups s' with
               | Some (m, inv) => Some (String c m, inv)
               | None => None
               end
      end
  end.
Proof. by destruct s. Qed.

Lemma until_quote_app inv rest :
  lacks dq inv = true -> lacks "010" inv = true ->
  until_quote (inv +:+ String dq rest) = Some inv.
Proof.
  intros Hq Hn. induction inv as [|c inv IH].
  - cbn. by rewrite decide_True.
  - apply lacks_cons in Hq as [? ?]. apply lacks_cons in Hn as [? ?].
    cbn. rewrite !decide_False by done. by rewrite IH.
Qed.

Lemma strip_invoiceSep_ne c s : c ≠ dq -> strip_prefix invoiceSep (String c s) = None.
Proof.
  intros Hc. unfold strip_prefix, invoiceSep. cbn.
  by rewrite bool_decide_eq_false_2.
Qed.

Lemma challenge_groups_app m inv :
  lacks dq m = true -> lacks "010" m = true ->
  lacks dq inv = true -> lacks "010" inv = true ->
  challenge_groups (m +:+ invoiceSep +:+ inv +:+ String dq "") = Some (m, inv).
Proof.
  intros Hmq Hmn Hiq Hin. induction m as [|c m IH].
  - cbn [String.append]. rewrite challenge_groups_unfold, strip_prefix_app.
    cbn [mbind option_bind]. by rewrite until_quote_app.
  - apply lacks_cons in Hmq as [? ?]. apply lacks_cons in Hmn as [? ?].
    rewrite string_app_cons, challenge_groups_unfold, strip_invoiceSep_ne by done.
    cbn [mbind option_bind]. rewrite decide_False by done. by rewrite IH.
Qed.

(** The client reads back the macaroon and the invoice the server sent. *)
Lemma challenge_parse macBytes inv :
  lacks dq inv = true -> lacks "010" inv = true ->
  authHeaderRegex_find (challengeText (b64_EncodeToString macBytes) inv)
  = Some (b64_EncodeToString macBytes, inv).
Proof.
  intros Hq Hn. rewrite authHeaderRegex_find_unfold. unfold challengeText.
  rewrite strip_prefix_app. cbn [mbind option_bind].
  by rewrite challenge_groups_app by (done || apply b64_encode_lacks; done).
Qed.

(** ** Properties *)

(** C40: The client's regular expression finds in the challenge text the macaroon
    and the invoice the server put there, for every macaroon and every invoice
    without quotes and line breaks. *)
Theorem challenge_roundtrip macBytes inv :
  lacks dq inv = true -> lacks "010" inv = true ->
  exists macBase64,
    authHeaderRegex_find (challengeText (b64_EncodeToString macBytes) inv) = Some (macBase64, inv) /\
    b64_DecodeString macBase64 = Ok macBytes.
Proof.
  intros Hq Hn. exists (b64_EncodeToString macBytes). split.
  - by apply challenge_parse.
  - apply b64_roundtrip.
Qed.

Lemma challenge_roundtrip_witness :
  exists macBase64,
    authHeaderRegex_find (challengeText (b64_EncodeToString [Byte.x01; Byte.xff]) "lnbc1") =
      Some (macBase64, "lnbc1") /\
    b64_DecodeString macBase64 = Ok [Byte.x01; Byte.xff].
Proof. apply challenge_roundtrip; vm_compute; reflexivity. Defined.
