(* ===== verification/ClientInterceptor.v ===== *)
(** * The paying client: [lsat/client_interceptor.go]

    One call of an interceptor runs under the lock of the interceptor, so it is
    a sequential program over the token store.  Its calls to the outside (the
    RPC, lnd) are answered by the fields of [env]; every call that changes
    something outside is also recorded in a trace, in order. *)
From S2P Require Import Prelude.
From S2P Require Import GoStrings.
From S2P Require Import GoCodec.
From S2P Require Import GoTime.
From S2P Require Import Http.
From S2P Require Import Caveat.
From S2P Require Import Macaroon.
From S2P Require Import Header.
From S2P Require Import Token.
From S2P Require Import Challenge.

(** ** The [Store] interface of [lsat/store.go] *)
Class TokenStore `{L402Lib} (S : Type) := {
  CurrentToken : S -> outcome Token.t;
  StoreToken : S -> Token.t -> S * outcome unit;
  RemovePendingToken : S -> S * outcome unit
}.

(** What the client relies on: the operations are those of the abstract store. *)
Class TokenStoreLaws `{L402Lib} (S : Type) `{!TokenStore S} := {
  repr : S -> FileStore.astore -> Prop;
  current_ok s a : repr s a -> CurrentToken s = FileStore.abs_current a;
  store_ok s a tok :
    repr s a -> Token.storable tok ->
    (StoreToken s tok).2 = (FileStore.abs_store a tok).2 /\
    repr (StoreToken s tok).1 (FileStore.abs_store a tok).1;
  remove_ok s tok :
    repr s (FileStore.InTransit tok) ->
    (RemovePendingToken s).2 = Ok tt /\ repr (RemovePendingToken s).1 FileStore.Empty;
  paid_ok s tok : repr s (FileStore.Paid tok) -> Token.isPending tok = false;
  transit_ok s tok :
    repr s (FileStore.InTransit tok) -> Token.isPending tok = true /\ Token.storable tok
}.

(** The file store discharges the interface when system calls succeed. *)
Definition file_token_store `{L402Lib} (e : FileStore.env) : TokenStore FileStore.dir := {|
  CurrentToken := FileStore.CurrentToken e;
  StoreToken := FileStore.StoreToken e;
  RemovePendingToken := FileStore.RemovePendingToken e
|}.

Lemma file_token_store_laws `{L402Lib} `{!L402Laws} (e : FileStore.env) :
  FileStore.reliable e -> @TokenStoreLaws _ FileStore.dir (file_token_store e).
Proof.
  intros (Hr & Hw & Hrm).
  refine (@Build_TokenStoreLaws _ _ (file_token_store e) FileStore.repr _ _ _ _ _).
  - intros s a Hrep. by apply FileStore.current_refines.
  - intros s a tok Hrep Hs. by apply FileStore.store_refines.
  - intros s tok Hrep. inversion Hrep as [|d tok' b H1 H2 Hs Hb Hp|]; subst. cbn.
    unfold FileStore.RemovePendingToken. rewrite (FileStore.fileExists_Some _ _ _ H2).
    unfold FileStore.Remove. rewrite Hrm, H2. cbn. split; [done|].
    apply FileStore.repr_empty; [by rewrite lookup_delete_ne|by rewrite lookup_delete_eq].
  - intros s tok Hrep. by inversion Hrep.
  - intros s tok Hrep. by inversion Hrep.
Defined.

Module Client.
Section Client.
Context `{L402Lib}.

(** ** What lnd and the gRPC library provide *)
Record invoice := { MilliSat : option Z; iPaymentHash : list byte }.

(** The result of the RPC: success, a gRPC status with its trailer, or an error
    that carries no status. *)
Inductive rpcResult :=
  | RpcOk
  | RpcStatus (code : Z) (msg : string) (trailer : header)
  | RpcOther.

Inductive payResult :=
  | Settled (preimage : list byte) (paidAmt paidFee : Z)
  | PayFailed
  | PayTimedOut
  | ParentCanceled.

Inductive paymentState := SUCCEEDED | IN_FLIGHT | FAILED | UNKNOWN.

Inductive trackEvent :=
  | Status (st : paymentState) (preimage : list byte) (value fee : Z)
  | TrackErr.

Record env := {
  invoker : nat -> list MacaroonCredential -> rpcResult;   (* the n-th attempt *)
  zpay32_Decode : string -> outcome invoice;
  NewMSatFromSatoshis : Z -> Z;
  PayInvoice : string -> Z -> payResult;
  (* the updates that arrive before the tracking times out *)
  TrackPayment : list byte -> outcome (list trackEvent);
  now : time
}.

(** ** The interceptor *)
Record interceptor := { maxCost : Z; maxFee : Z; allowInsecure : bool }.

Inductive event :=
  | EInvoke (attempt : nat) (creds : list MacaroonCredential)
  | EStore (tok : Token.t)
  | ERemove
  | EPay (invoiceStr : string)
  | ETrack (hash : list byte).

Context {S : Type} `{!TokenStore S}.

(** The state a call works on. *)
Record world := { store : S; trace : list event }.

Definition M (A : Type) := world -> world * outcome A.
#[local] Instance M_ret : MRet M := fun A a w => (w, Ok a).
#[local] Instance M_bind : MBind M := fun A B f m w =>
  match m w with
  | (w', Ok a) => f a w'
  | (w', Err e) => (w', Err e)
  | (w', Panic p) => (w', Panic p)
  end.
Definition lift {A} (o : outcome A) : M A := fun w => (w, o).
Definition fail {A} (e : error) : M A := fun w => (w, Err e).
Definition log_event (ev : event) : M unit := fun w =>
  ({| store := store w; trace := trace w ++ [ev] |}, Ok tt).
Definition store_token (tok : Token.t) : M unit := fun w =>
  let '(s', r) := StoreToken (store w) tok in
  ({| store := s'; trace := trace w ++ [EStore tok] |}, r).
Definition remove_pending : M unit := fun w =>
  let '(s', r) := RemovePendingToken (store w) in
  ({| store := s'; trace := trace w ++ [ERemove] |}, r).

Definition GRPCErrCode : Z := 13.     (* codes.Internal *)
Definition GRPCErrCodeNew : Z := 2.   (* codes.Unknown *)
Definition GRPCErrMessage : string := "payment required".
Definition AuthHeader : string := "WWW-Authenticate".
Definition errPaymentFailedTerminally : error := Sentinel "errPaymentFailedTerminally".

Definition IsPaymentRequired (r : rpcResult) : bool :=
  match r with
  | RpcStatus code msg _ =>
      Contains (ToLower msg) GRPCErrMessage &&
      (bool_decide (code = GRPCErrCode) || bool_decide (code = GRPCErrCodeNew))
  | _ => false
  end.

#[local] Arguments IsPaymentRequired : simpl never.

(** The error a call returns for a result of the RPC. *)
Definition rpcOutcome (r : rpcResult) : outcome unit :=
  match r with
  | RpcOk => Ok tt
  | RpcStatus _ msg _ => Err (Errorf msg)
  | RpcOther => Err (Errorf "rpc")
  end.

Definition trailerOf (r : rpcResult) : header :=
  match r with RpcStatus _ _ t => t | _ => ∅ end.

(** [interceptContext]: the call options are the credentials added so far. *)
Record interceptContext := {
  opts : list MacaroonCredential;
  metadata : header;
  token : option Token.t
}.

Variables (i : interceptor) (e : env).

Definition addLsatCredentials (c : interceptContext) : outcome interceptContext :=
  match token c with
  | None => Err (Errorf "cannot add nil token to context")
  | Some tok =>
      mac ← Token.PaidMacaroon tok;
      Ok {| opts := opts c ++ [NewMacaroonCredential mac (allowInsecure i)];
            metadata := metadata c; token := token c |}
  end.

Definition newInterceptContext : M interceptContext := fun w =>
  match CurrentToken (store w) with
  | Err er =>
      if decide (er = FileStore.ErrNoToken)
      then (w, Ok {| opts := []; metadata := ∅; token := None |})
      else (w, Err (Errorf "getting token from store failed"))
  | Panic p => (w, Panic p)
  | Ok tok =>
      let c := {| opts := []; metadata := ∅; token := Some tok |} in
      if Token.isPending tok then (w, Ok c)
      else (w, errorf "adding macaroon failed" (addLsatCredentials c))
  end.

Definition payLsatToken (md : header) : M Token.t :=
  match default [] (md !! ToLower AuthHeader) with
  | [] => fail (Errorf "auth header not found in response")
  | authHeader :: _ =>
      match authHeaderRegex_find authHeader with
      | None => fail (Errorf "invalid auth header format")
      | Some (macBase64, invoiceStr) =>
          macBytes ← lift (errorf "base64 decode of macaroon failed" (b64_DecodeString macBase64));
          inv ← lift (errorf "unable to decode invoice" (zpay32_Decode e invoiceStr));
          let maxCostMsat := NewMSatFromSatoshis e (maxCost i) in
          if match MilliSat inv with
             | Some amt => bool_decide (maxCostMsat < amt)
             | None => false
             end
          then fail (Errorf "cannot pay for L402 automatically, cost exceeds configured max cost")
          else
            token ← lift (errorf "unable to create token"
                            (Token.tokenFromChallenge (now e) macBytes (iPaymentHash inv)));
            _ ← (fun w => let '(w', r) := store_token token w in
                          (w', errorf "unable to store pending token" r));
            _ ← log_event (EPay invoiceStr);
            match PayInvoice e invoiceStr (maxFee i) with
            | Settled preimage paidAmt paidFee =>
                let token := {|
                  Token.PaymentHash := Token.PaymentHash token;
                  Token.Preimage := preimage;
                  Token.AmountPaid := NewMSatFromSatoshis e paidAmt;
                  Token.RoutingFeePaid := NewMSatFromSatoshis e paidFee;
                  Token.TimeCreated := Token.TimeCreated token;
                  Token.baseMac := Token.baseMac token |} in
                _ ← store_token token; mret token
            | PayFailed => fail (Errorf "payment failed")
            | PayTimedOut => fail (Errorf "payment timed out. try again to track payment")
            | ParentCanceled => fail (Errorf "parent context canceled. try again to track payment")
            end
      end
  end.

Definition extractPaymentDetails (tok : Token.t) (preimage : list byte) (value fee : Z) : Token.t :=
  {| Token.PaymentHash := Token.PaymentHash tok; Token.Preimage := preimage;
     Token.AmountPaid := value; Token.RoutingFeePaid := fee;
     Token.TimeCreated := Token.TimeCreated tok; Token.baseMac := Token.baseMac tok |}.

(** The loop over the updates; when they run out the timeout has been reached. *)
Fixpoint trackLoop (tok : Token.t) (updates : list trackEvent) : M Token.t :=
  match updates with
  | [] => fail (Errorf "payment tracking timed out")
  | TrackErr :: _ => fail (Errorf "payment tracking failed")
  | Status SUCCEEDED preimage value fee :: _ =>
      let tok := extractPaymentDetails tok preimage value fee in
      _ ← store_token tok; mret tok
  | Status IN_FLIGHT _ _ _ :: rest => trackLoop tok rest
  | Status FAILED _ _ _ :: _ => fail errPaymentFailedTerminally
  | Status UNKNOWN _ _ _ :: _ => fail (Errorf "payment tracking failed with state")
  end.

Definition trackPayment (tok : Token.t) : M Token.t :=
  _ ← log_event (ETrack (Token.PaymentHash tok));
  updates ← lift (errorf "track payment call to lnd failed"
                    (TrackPayment e (Token.PaymentHash tok)));
  trackLoop tok updates.

Definition withToken (c : interceptContext) (tok : Token.t) : interceptContext :=
  {| opts := opts c; metadata := metadata c; token := Some tok |}.

Definition handlePayment (c : interceptContext) : M interceptContext :=
  c' ← match token c with
       | Some tok =>
           if Token.isPending tok then
             fun w =>
               match trackPayment tok w with
               | (w', Ok tok') => (w', Ok (withToken c tok'))
               | (w', Err er) =>
                   if decide (er = errPaymentFailedTerminally) then
                     (_ ← (fun w => let '(w', r) := remove_pending w in
                            (w', errorf "error removing pending token, cannot retry payment" r));
                      tok' ← payLsatToken (metadata c);
                      mret (withToken c tok')) w'
                   else (w', Err er)
               | (w', Panic p) => (w', Panic p)
               end
           else mret c
       | None => tok' ← payLsatToken (metadata c); mret (withToken c tok')
       end;
  lift (errorf "adding macaroon failed" (addLsatCredentials c')).

Definition invoke (n : nat) (creds : list MacaroonCredential) : M rpcResult :=
  _ ← log_event (EInvoke n creds); mret (invoker e n creds).

Definition UnaryInterceptor : M unit :=
  iCtx ← newInterceptContext;
  r ← invoke 1 (opts iCtx);
  if IsPaymentRequired r then
    iCtx ← handlePayment {| opts := opts iCtx; metadata := trailerOf r; token := token iCtx |};
    r2 ← invoke 2 (opts iCtx);
    lift (rpcOutcome r2)
  else lift (rpcOutcome r).

(** The streaming variant differs in what the RPC returns: the established
    stream, of type [A], or an error. *)
Definition StreamInterceptor {A} (stream : nat -> A) : M A :=
  iCtx ← newInterceptContext;
  r ← invoke 1 (opts iCtx);
  if IsPaymentRequired r then
    iCtx ← handlePayment {| opts := opts iCtx; metadata := trailerOf r; token := token iCtx |};
    r2 ← invoke 2 (opts iCtx);
    lift (_ ← rpcOutcome r2; Ok (stream 2%nat))
  else lift (_ ← rpcOutcome r; Ok (stream 1%nat)).

(** ** What a run does to the outside *)

Definition payments (tr : list event) : list string :=
  omap (fun ev => match ev with EPay inv => Some inv | _ => None end) tr.

(** The invoice does not cost more than the configured maximum. *)
Definition within_budget (inv : invoice) : Prop :=
  match MilliSat inv with
  | Some amt => amt <= NewMSatFromSatoshis e (maxCost i)
  | None => True
  end.

(** Every payment is for an invoice within the budget and directly follows the
    write of a pending token for that invoice. *)
Definition safe_payments (tr : list event) : Prop :=
  forall a inv b, tr = a ++ EPay inv :: b ->
    exists a' tok d mb,
      a = a' ++ [EStore tok] /\ zpay32_Decode e inv = Ok d /\ within_budget d /\
      Token.tokenFromChallenge (now e) mb (iPaymentHash d) = Ok tok.

Lemma payments_app a b : payments (a ++ b) = payments a ++ payments b.
Proof. apply omap_app. Qed.

Lemma safe_no_payment tr : payments tr = [] -> safe_payments tr.
Proof.
  intros Hp a inv b ->. rewrite payments_app in Hp. cbn in Hp. by destruct (payments a).
Qed.

Lemma safe_app a b : safe_payments a -> safe_payments b -> safe_payments (a ++ b).
Proof.
  intros Ha Hb x inv y E.
  apply app_eq_app in E as [l [[-> E]|[-> E]]].
  - destruct l as [|ev l]; cbn in E.
    + exfalso. destruct (Hb [] inv y (eq_sym E)) as (a' & tok & d & mb & Hn & _).
      by destruct a'.
    + injection E as <- ->. by eapply Ha.
  - destruct (Hb _ _ _ E) as (a' & tok & d & mb & -> & Hd). exists (a ++ a'), tok, d, mb.
    by rewrite app_assoc.
Qed.

(** [m] extends the trace by events that satisfy [P]. *)
Definition emits {A} (m : M A) (P : list event -> Prop) : Prop :=
  forall w, exists tr, trace (m w).1 = trace w ++ tr /\ P tr.

Definition quiet (tr : list event) : Prop := payments tr = [].
Definition one_safe (tr : list event) : Prop :=
  safe_payments tr /\ (length (payments tr) <= 1)%nat.

Lemma quiet_one_safe tr : quiet tr -> one_safe tr.
Proof. intros Hq. split; [by apply safe_no_payment | rewrite Hq; cbn; lia]. Qed.
Lemma quiet_app a b : quiet a -> quiet b -> quiet (a ++ b).
Proof. unfold quiet. rewrite payments_app. by intros -> ->. Qed.
Lemma one_safe_app_l a b : quiet a -> one_safe b -> one_safe (a ++ b).
Proof.
  intros Ha [Hs Hl]. split.
  - apply safe_app; [by apply safe_no_payment | done].
  - by rewrite payments_app, Ha.
Qed.
Lemma one_safe_app_r a b : one_safe a -> quiet b -> one_safe (a ++ b).
Proof.
  intros [Hs Hl] Hb. split.
  - apply safe_app; [done | by apply safe_no_payment].
  - by rewrite payments_app, Hb, app_nil_r.
Qed.

Lemma emits_weaken {A} (m : M A) (P Q : list event -> Prop) :
  (forall tr, P tr -> Q tr) -> emits m P -> emits m Q.
Proof. intros HPQ Hm w. destruct (Hm w) as (tr & Htr & Hp). eauto. Qed.

Lemma emits_silent {A} (m : M A) : (forall w, trace (m w).1 = trace w) -> emits m quiet.
Proof. intros Hm w. exists []. rewrite app_nil_r. by split. Qed.

Lemma emits_bind {A B} (m : M A) (f : A -> M B) (P Q R : list event -> Prop) :
  emits m P -> (forall a, emits (f a) Q) ->
  (forall tr, P tr -> R tr) -> (forall a b, P a -> Q b -> R (a ++ b)) ->
  emits (m ≫= f) R.
Proof.
  intros Hm Hf HPR Happ w. unfold mbind, M_bind.
  destruct (Hm w) as (tr & Htr & Hp). destruct (m w) as [w' [a|er|p]]; cbn in *; [|by eauto..].
  destruct (Hf a w') as (tr' & Htr' & Hq). exists (tr ++ tr').
  rewrite Htr', Htr, app_assoc. auto.
Qed.

Lemma emits_quiet_bind {A B} (m : M A) (f : A -> M B) :
  emits m quiet -> (forall a, emits (f a) quiet) -> emits (m ≫= f) quiet.
Proof. intros Hm Hf. eapply emits_bind; eauto using quiet_app. Qed.

Lemma emits_safe_bind_l {A B} (m : M A) (f : A -> M B) :
  emits m quiet -> (forall a, emits (f a) one_safe) -> emits (m ≫= f) one_safe.
Proof. intros Hm Hf. eapply emits_bind; eauto using quiet_one_safe, one_safe_app_l. Qed.

Lemma emits_safe_bind_r {A B} (m : M A) (f : A -> M B) :
  emits m one_safe -> (forall a, emits (f a) quiet) -> emits (m ≫= f) one_safe.
Proof. intros Hm Hf. eapply emits_bind; eauto using one_safe_app_r. Qed.

Lemma emits_quiet_safe {A} (m : M A) : emits m quiet -> emits m one_safe.
Proof. apply emits_weaken, quiet_one_safe. Qed.

Lemma store_token_quiet tok : emits (store_token tok) quiet.
Proof.
  intros w. exists [EStore tok]. unfold store_token.
  destruct (StoreToken (store w) tok). by split.
Qed.
Lemma remove_pending_quiet : emits remove_pending quiet.
Proof.
  intros w. exists [ERemove]. unfold remove_pending.
  destruct (RemovePendingToken (store w)). by split.
Qed.
Lemma log_quiet ev : (forall inv, ev ≠ EPay inv) -> emits (log_event ev) quiet.
Proof. intros Hev w. exists [ev]. split; [done|]. destruct ev; cbn; try done. by destruct (Hev invoiceStr). Qed.
Lemma lift_quiet {A} (o : outcome A) : emits (lift o) quiet.
Proof. by apply emits_silent. Qed.
Lemma fail_quiet {A} er : emits (fail (A := A) er) quiet.
Proof. by apply emits_silent. Qed.
Lemma ret_quiet {A} (a : A) : emits (mret a) quiet.
Proof. by apply emits_silent. Qed.

Lemma errorf_quiet {A} (m : M A) msg P :
  emits m P -> emits (fun w => let '(w', r) := m w in (w', errorf msg r)) P.
Proof. intros Hm w. destruct (Hm w) as (tr & Htr & Hp). destruct (m w). eauto. Qed.

Create HintDb client.
#[local] Hint Resolve store_token_quiet remove_pending_quiet log_quiet lift_quiet fail_quiet
  ret_quiet errorf_quiet emits_quiet_bind emits_quiet_safe : client.

Lemma trackLoop_quiet tok updates : emits (trackLoop tok updates) quiet.
Proof.
  induction updates as [|[st p v f|] rest IH]; cbn; auto with client.
  destruct st; auto with client.
Qed.

Lemma trackPayment_quiet tok : emits (trackPayment tok) quiet.
Proof.
  unfold trackPayment. apply emits_quiet_bind; [by apply log_quiet|]. intros _.
  apply emits_quiet_bind; auto with client. intros. apply trackLoop_quiet.
Qed.

Lemma newInterceptContext_quiet : emits newInterceptContext quiet.
Proof.
  apply emits_silent. intros w. unfold newInterceptContext.
  repeat case_match; done.
Qed.

Lemma invoke_quiet n creds : emits (invoke n creds) quiet.
Proof. apply emits_quiet_bind; auto with client. Qed.

Lemma emits_lift_bind {A B} (o : outcome A) (f : A -> M B) :
  (forall a, o = Ok a -> emits (f a) one_safe) -> emits (lift o ≫= f) one_safe.
Proof.
  intros Hf. destruct o as [a|er|p].
  - intros w. by apply (Hf a).
  - by apply emits_quiet_safe, emits_silent.
  - by apply emits_quiet_safe, emits_silent.
Qed.

(** Storing the pending token and paying, in this order. *)
Lemma store_pay_safe {A} tok inv d mb (k : M A) :
  zpay32_Decode e inv = Ok d -> within_budget d ->
  Token.tokenFromChallenge (now e) mb (iPaymentHash d) = Ok tok ->
  emits k quiet ->
  emits (_ ← (fun w => let '(w', r) := store_token tok w in
                       (w', errorf "unable to store pending token" r));
         _ ← log_event (EPay inv); k) one_safe.
Proof.
  intros Hd Hb Ht Hk w. unfold mbind, M_bind, store_token.
  destruct (StoreToken (store w) tok) as [s' [[]|er|p]]; cbn.
  - destruct (Hk {| store := s'; trace := (trace w ++ [EStore tok]) ++ [EPay inv] |})
      as (tr & Htr & Hq). exists ([EStore tok; EPay inv] ++ tr).
    split; [rewrite Htr; cbn; by rewrite <- !app_assoc|]. apply one_safe_app_r; [|done].
    split; [|cbn; lia]. intros a inv' b E.
    destruct a as [|x [|y a]]; [done| |].
    + injection E as <- <- <-. exists [], tok, d, mb. auto.
    + injection E as _ _ E. by destruct a.
  - exists [EStore tok]. split; [done | by apply quiet_one_safe].
  - exists [EStore tok]. split; [done | by apply quiet_one_safe].
Qed.

Lemma payLsatToken_safe md : emits (payLsatToken md) one_safe.
Proof.
  unfold payLsatToken.
  destruct (default [] _) as [|authHeader rest]; [auto with client|].
  destruct (authHeaderRegex_find authHeader) as [[macBase64 invoiceStr]|]; [|auto with client].
  apply emits_lift_bind. intros macBytes _.
  apply emits_lift_bind. intros inv Hd%errorf_Ok_inv.
  destruct (match MilliSat inv with Some _ => _ | None => _ end) eqn:Hcost; [auto with client|].
  assert (Hb : within_budget inv).
  { unfold within_budget. destruct (MilliSat inv); [|done].
    apply bool_decide_eq_false in Hcost. lia. }
  apply emits_lift_bind. intros tok Ht%errorf_Ok_inv.
  eapply store_pay_safe; [done..|].
  destruct (PayInvoice e invoiceStr (maxFee i)); auto with client.
Qed.

Lemma handlePayment_safe c : emits (handlePayment c) one_safe.
Proof.
  unfold handlePayment. apply emits_safe_bind_r; [|auto with client].
  destruct (token c) as [tok|].
  - destruct (Token.isPending tok); [|auto with client].
    intros w. destruct (trackPayment_quiet tok w) as (tr & Htr & Hq).
    destruct (trackPayment tok w) as [w' [tok'|er|p]]; cbn in *;
      [eauto using quiet_one_safe| |eauto using quiet_one_safe].
    case_decide; [|eauto using quiet_one_safe].
    assert (G : emits (_ ← (fun w => let '(w', r) := remove_pending w in
                            (w', errorf "error removing pending token, cannot retry payment" r));
                      tok' ← payLsatToken (metadata c);
                      mret (withToken c tok')) one_safe).
    { apply emits_safe_bind_l; [auto with client|]. intros _.
      apply emits_safe_bind_r; [apply payLsatToken_safe | auto with client]. }
    destruct (G w') as (tr' & Htr' & Hs). exists (tr ++ tr').
    rewrite Htr', Htr, app_assoc. split; [done|]. by apply one_safe_app_l.
  - apply emits_safe_bind_r; [apply payLsatToken_safe | auto with client].
Qed.

Lemma UnaryInterceptor_safe : emits UnaryInterceptor one_safe.
Proof.
  unfold UnaryInterceptor.
  apply emits_safe_bind_l; [apply newInterceptContext_quiet|]. intros c.
  apply emits_safe_bind_l; [apply invoke_quiet|]. intros r.
  destruct (IsPaymentRequired r); [|auto with client].
  apply emits_safe_bind_r; [apply handlePayment_safe|]. intros c'.
  apply emits_quiet_bind; [apply invoke_quiet | auto with client].
Qed.

(** ** Runs against a store that keeps its promise *)
Context `{!TokenStoreLaws S}.

(** With a paid token nothing is paid and the store is left alone, whatever the
    server answers. *)
Lemma paid_run w tok :
  repr (store w) (FileStore.Paid tok) ->
  store (UnaryInterceptor w).1 = store w /\
  payments (trace (UnaryInterceptor w).1) = payments (trace w).
Proof.
  intros Hrep. pose proof (paid_ok _ _ Hrep) as Hp.
  unfold UnaryInterceptor, newInterceptContext, invoke, log_event, mbind, M_bind.
  rewrite (current_ok _ _ Hrep). cbn. rewrite Hp.
  unfold addLsatCredentials at 1. cbn.
  destruct (Token.PaidMacaroon tok) as [mac|er|p] eqn:Em; cbn; [|done..].
  destruct (IsPaymentRequired _); cbn; [|by rewrite payments_app, app_nil_r].
  unfold handlePayment, mbind, M_bind. cbn. rewrite Hp. cbn.
  unfold addLsatCredentials. cbn. rewrite Em. cbn.
  by rewrite !payments_app, !app_nil_r.
Qed.

(** The updates of a payment that was in flight and then succeeded. *)
Definition succeeds (updates : list trackEvent) (preimage : list byte) (value fee : Z) : Prop :=
  exists flying rest,
    updates = flying ++ Status SUCCEEDED preimage value fee :: rest /\
    Forall (fun u => exists p v f, u = Status IN_FLIGHT p v f) flying.

Lemma trackLoop_succeeds tok updates preimage value fee :
  succeeds updates preimage value fee ->
  trackLoop tok updates =
    (let tok := extractPaymentDetails tok preimage value fee in
     _ ← store_token tok; mret tok).
Proof.
  intros (flying & rest & -> & Hf). induction Hf as [|u flying (p & v & f & ->) Hf IH]; done.
Qed.

(** A payment interrupted before is picked up: the tracked preimage completes
    the stored token, nothing is paid a second time and the request is repeated
    with the completed token. *)
Lemma resume_run w tok updates preimage value fee code msg trailer mac :
  let tok' := extractPaymentDetails tok preimage value fee in
  repr (store w) (FileStore.InTransit tok) ->
  invoker e 1 [] = RpcStatus code msg trailer ->
  IsPaymentRequired (RpcStatus code msg trailer) = true ->
  TrackPayment e (Token.PaymentHash tok) = Ok updates ->
  succeeds updates preimage value fee ->
  is_array 32 preimage -> preimage ≠ Token.zeroPreimage -> is_u64 value -> is_u64 fee ->
  Token.PaidMacaroon tok' = Ok mac ->
  let creds := [NewMacaroonCredential mac (allowInsecure i)] in
  repr (store (UnaryInterceptor w).1) (FileStore.Paid tok') /\
  trace (UnaryInterceptor w).1 =
    trace w ++ [EInvoke 1 []; ETrack (Token.PaymentHash tok); EStore tok'; EInvoke 2 creds] /\
  (UnaryInterceptor w).2 = rpcOutcome (invoker e 2 creds).
Proof.
  intros tok' Hrep Hinv Hreq Htrack Hsucc Ha Hz Hv Hf Hmac creds.
  destruct (transit_ok _ _ Hrep) as [Hp Hs].
  assert (Hs' : Token.storable tok').
  { destruct Hs as (? & ? & ? & ? & ? & ?). by split_and!. }
  assert (Hp' : Token.isPending tok' = false) by by apply bool_decide_eq_false_2.
  destruct (store_ok _ _ tok' Hrep Hs') as [Hr2 Hr1].
  cbn [FileStore.abs_store] in Hr1, Hr2. rewrite Hp', decide_True in Hr1, Hr2 by done.
  unfold UnaryInterceptor, newInterceptContext, invoke, log_event, mbind, M_bind.
  rewrite (current_ok _ _ Hrep). cbn. rewrite Hp.
  cbn. rewrite Hinv, Hreq.
  unfold handlePayment, trackPayment, log_event, mbind, M_bind. cbn. rewrite Hp, Htrack. cbn.
  rewrite (trackLoop_succeeds _ _ _ _ _ Hsucc). cbn. fold tok'.
  unfold store_token, mbind, M_bind. cbn.
  destruct (StoreToken (store w) tok') as [s' r]. cbn in *. subst r. cbn.
  unfold addLsatCredentials. cbn. rewrite Hmac. cbn.
  by rewrite <- !app_assoc.
Qed.

(** The token that a settled payment makes of the one the challenge started. *)
Definition paidToken (tok : Token.t) (preimage : list byte) (paidAmt paidFee : Z) : Token.t := {|
  Token.PaymentHash := Token.PaymentHash tok; Token.Preimage := preimage;
  Token.AmountPaid := NewMSatFromSatoshis e paidAmt;
  Token.RoutingFeePaid := NewMSatFromSatoshis e paidFee;
  Token.TimeCreated := Token.TimeCreated tok; Token.baseMac := Token.baseMac tok |}.

(** A challenge that is within the budget and whose payment settles. *)
Record payable (macBytes : list byte) (inv : string) (tok : Token.t) (preimage : list byte)
    (amt fee : Z) : Prop := {
  pay_quotes : lacks dq inv = true;
  pay_line : lacks "010" inv = true;
  pay_invoice : exists d, zpay32_Decode e inv = Ok d /\ within_budget d /\
    Token.tokenFromChallenge (now e) macBytes (iPaymentHash d) = Ok tok;
  pay_storable : Token.storable tok;
  pay_paid : Token.storable (paidToken tok preimage amt fee);
  pay_settled : PayInvoice e inv (maxFee i) = Settled preimage amt fee;
  pay_preimage : preimage ≠ Token.zeroPreimage
}.

Lemma payLsatToken_run md w macBytes inv rest tok preimage amt fee :
  payable macBytes inv tok preimage amt fee ->
  md !! ToLower AuthHeader = Some (challengeText (b64_EncodeToString macBytes) inv :: rest) ->
  (StoreToken (store w) tok).2 = Ok tt ->
  let tok' := paidToken tok preimage amt fee in
  (StoreToken (StoreToken (store w) tok).1 tok').2 = Ok tt ->
  payLsatToken md w =
    ({| store := (StoreToken (StoreToken (store w) tok).1 tok').1;
        trace := trace w ++ [EStore tok; EPay inv; EStore tok'] |}, Ok tok').
Proof.
  intros [Hq Hn (d & Hd & Hb & Ht) _ _ Hpay _] Htr H1 tok' H2.
  unfold payLsatToken. rewrite Htr. cbn [default from_option id].
  rewrite challenge_parse by done. unfold mbind, M_bind, lift.
  rewrite b64_roundtrip, Hd. cbn [errorf]. cbn [fst snd]. 
  assert (Hc : match MilliSat d with Some amt => bool_decide (NewMSatFromSatoshis e (maxCost i) < amt)
                                   | None => false end = false).
  { unfold within_budget in Hb. destruct (MilliSat d); [|done]. by apply bool_decide_eq_false_2; lia. }
  cbv zeta. rewrite Hc, Ht. cbn [errorf]. unfold store_token at 1.
  destruct (StoreToken (store w) tok) as [s1 r1]. cbn [fst snd] in *. subst r1. cbn [errorf].
  unfold log_event. cbn [store trace]. rewrite Hpay.
  change {| Token.PaymentHash := _; Token.Preimage := _ |} with tok'.
  unfold store_token. cbn [store trace]. 
  destruct (StoreToken s1 tok') as [s2 r2]. cbn [fst snd] in *. subst r2.
  unfold mret, M_ret. by rewrite <- !app_assoc.
Qed.

(** A first call: the challenge is paid and the request repeated with the token. *)
Lemma fresh_run w code msg trailer macBytes inv rest tok preimage amt fee mac :
  let tok' := paidToken tok preimage amt fee in
  repr (store w) FileStore.Empty ->
  invoker e 1 [] = RpcStatus code msg trailer ->
  IsPaymentRequired (RpcStatus code msg trailer) = true ->
  trailer !! ToLower AuthHeader = Some (challengeText (b64_EncodeToString macBytes) inv :: rest) ->
  payable macBytes inv tok preimage amt fee -> Token.PaidMacaroon tok' = Ok mac ->
  let creds := [NewMacaroonCredential mac (allowInsecure i)] in
  repr (store (UnaryInterceptor w).1) (FileStore.Paid tok') /\
  trace (UnaryInterceptor w).1 =
    trace w ++ [EInvoke 1 []; EStore tok; EPay inv; EStore tok'; EInvoke 2 creds] /\
  (UnaryInterceptor w).2 = rpcOutcome (invoker e 2 creds).
Proof.
  intros tok' Hrep Hinv Hreq Htr Hpay Hmac creds. pose proof Hpay as [_ _ (d & _ & _ & Ht) Hs Hs' _ Hz].
  assert (Hp : Token.isPending tok = true).
  { unfold Token.tokenFromChallenge in Ht. apply bind_Ok_inv in Ht as (m & _ & Ht).
    apply bind_Ok_inv in Ht as (h & _ & [= <-]). by apply bool_decide_eq_true_2. }
  assert (Hp' : Token.isPending tok' = false) by by apply bool_decide_eq_false_2.
  destruct (store_ok _ _ tok Hrep Hs) as [Hr1 Hrep1].
  cbn [FileStore.abs_store fst snd] in Hr1, Hrep1. rewrite Hp in Hrep1.
  destruct (store_ok _ _ tok' Hrep1 Hs') as [Hr2 Hrep2].
  cbn [FileStore.abs_store fst snd] in Hr2, Hrep2. rewrite Hp', decide_True in Hr2, Hrep2 by done.
  unfold UnaryInterceptor, newInterceptContext, invoke, log_event, mbind, M_bind.
  rewrite (current_ok _ _ Hrep). cbn [FileStore.abs_current]. rewrite decide_True by done.
  cbn. rewrite Hinv, Hreq.
  unfold handlePayment, mbind, M_bind. cbn [trailerOf Client.token metadata].
  rewrite (payLsatToken_run trailer {| store := store w; trace := trace w ++ [EInvoke 1 []] |} _ _ _ _ _ _ _ Hpay Htr Hr1 Hr2).
  unfold lift, mret, M_ret, withToken, addLsatCredentials. cbn. fold tok'. rewrite Hmac. cbn.
  by rewrite <- !app_assoc.
Qed.

End Client.
End Client.

(** ** Properties *)
Module ClientProperties.
Import Client.

(** C24: one call of the unary interceptor pays at most one invoice, whatever the
    store, the server and lnd answer; the invoice does not exceed the configured
    maximum cost, and the payment directly follows the write of the pending
    token for it. *)
Theorem at_most_one_payment `{L402Lib} {S : Type} `{!TokenStore S} i e (w : world (S := S)) :
  exists tr, trace (UnaryInterceptor i e w).1 = trace w ++ tr /\
             (length (payments tr) <= 1)%nat /\ safe_payments i e tr.
Proof.
  destruct (UnaryInterceptor_safe i e w) as (tr & Htr & Hs & Hl). by exists tr.
Qed.

(** With a paid token in the store the interceptor pays nothing and leaves
    the store as it is, even if the server asks for a payment again. *)
Theorem paid_token_never_pays `{L402Lib} {S : Type} `{!TokenStore S} `{!TokenStoreLaws S}
    i e (w : world (S := S)) tok :
  repr (store w) (FileStore.Paid tok) ->
  store (UnaryInterceptor i e w).1 = store w /\
  payments (trace (UnaryInterceptor i e w).1) = payments (trace w).
Proof. apply paid_run. Qed.

(** The toy client: the server asks for a payment once, and lnd reports the
    payment in flight as settled. *)
Section Toy.
#[local] Existing Instance ToyLib.lib.
#[local] Existing Instance ToyLib.laws.
Definition toy_store : TokenStore FileStore.dir := file_token_store ToyToken.calm_env.
Definition toy_store_laws : @TokenStoreLaws _ FileStore.dir toy_store :=
  file_token_store_laws ToyToken.calm_env
    (conj (fun _ => eq_refl) (conj (fun _ => eq_refl) (fun _ => eq_refl))).
Definition toy_updates : list trackEvent :=
  [Status IN_FLIGHT [] 0 0; Status SUCCEEDED (replicate 32 Byte.x09) 21000 10].
Definition toy_env : env := {|
  invoker n _ := match n with 1%nat => RpcStatus 13 "payment required" ∅ | _ => RpcOk end;
  zpay32_Decode _ := Err (Errorf "none");
  NewMSatFromSatoshis z := z * 1000;
  PayInvoice _ _ := PayFailed;
  TrackPayment _ := Ok toy_updates;
  now := Unix 0
|}.
Definition toy_interceptor : interceptor :=
  {| maxCost := 1000; maxFee := 10; allowInsecure := false |}.

Lemma paid_token_never_pays_witness :
  store (@UnaryInterceptor _ _ toy_store toy_interceptor toy_env
           {| store := ToyToken.paid_dir; trace := [] |}).1 = ToyToken.paid_dir.
Proof.
  apply (@paid_token_never_pays _ _ toy_store toy_store_laws toy_interceptor toy_env
           {| store := ToyToken.paid_dir; trace := [] |} ToyToken.paid).
  apply ToyToken.paid_repr.
Defined.

End Toy.

(** C25: a payment an earlier call left in flight is taken up: the preimage lnd
    reports completes the stored token, no invoice is paid, and the request is
    repeated with the completed token. *)
Theorem interrupted_payment_resumes `{L402Lib} {S : Type} `{!TokenStore S} `{!TokenStoreLaws S}
    i e (w : world (S := S)) tok updates preimage value fee code msg trailer mac :
  let tok' := extractPaymentDetails tok preimage value fee in
  repr (store w) (FileStore.InTransit tok) ->
  invoker e 1 [] = RpcStatus code msg trailer ->
  IsPaymentRequired (RpcStatus code msg trailer) = true ->
  TrackPayment e (Token.PaymentHash tok) = Ok updates ->
  succeeds updates preimage value fee ->
  is_array 32 preimage -> preimage ≠ Token.zeroPreimage -> is_u64 value -> is_u64 fee ->
  Token.PaidMacaroon tok' = Ok mac ->
  let creds := [NewMacaroonCredential mac (allowInsecure i)] in
  repr (store (UnaryInterceptor i e w).1) (FileStore.Paid tok') /\
  trace (UnaryInterceptor i e w).1 =
    trace w ++ [EInvoke 1 []; ETrack (Token.PaymentHash tok); EStore tok'; EInvoke 2 creds] /\
  (UnaryInterceptor i e w).2 = rpcOutcome (invoker e 2 creds).
Proof. apply resume_run. Qed.

Section ToyResumes.
#[local] Existing Instance ToyLib.lib.
Lemma interrupted_payment_resumes_witness :
  exists mac,
  Token.PaidMacaroon ToyToken.paid = Ok mac /\
  trace (@UnaryInterceptor _ _ toy_store toy_interceptor toy_env
           {| store := ToyToken.pending_dir; trace := [] |}).1 =
    [EInvoke 1 []; ETrack (replicate 32 Byte.x05); EStore ToyToken.paid;
     EInvoke 2 [NewMacaroonCredential mac false]].
Proof.
  eexists. split; [vm_compute; reflexivity|].
  apply (@interrupted_payment_resumes _ _ toy_store toy_store_laws toy_interceptor toy_env
    {| store := ToyToken.pending_dir; trace := [] |} ToyToken.pending toy_updates
    (replicate 32 Byte.x09) 21000 10 13 "payment required" ∅).
  - apply ToyToken.pending_repr.
  - reflexivity.
  - vm_compute. reflexivity.
  - reflexivity.
  - exists [Status IN_FLIGHT [] 0 0], []. split; [reflexivity|].
    constructor; [|constructor]. by exists [], 0, 0.
  - reflexivity.
  - discriminate.
  - split; vm_compute; [discriminate|reflexivity].
  - split; vm_compute; [discriminate|reflexivity].
  - vm_compute. reflexivity.
Defined.
End ToyResumes.
End ClientProperties.
