(* ===== verification/Spending.v ===== *)
(** * What a client spends, over all its calls

    The calls of one interceptor ([lsat/client_interceptor.go]) run one after the
    other, since each holds the lock of the interceptor; which goroutine gets the
    lock, what the server answers and how far lnd is with a payment differ from call
    to call.  A history is the calls in the order in which they had the lock. *)
From S2P Require Import Prelude.
From S2P Require Import GoStrings.
From S2P Require Import GoCodec.
From S2P Require Import GoTime.
From S2P Require Import Http.
From S2P Require Import Macaroon.
From S2P Require Import Token.
From S2P Require Import Challenge.
From S2P Require Import ClientInterceptor.

Module Spending.
Import Client.
#[local] Existing Instance Client.M_ret.
#[local] Existing Instance Client.M_bind.

Section Spending.
Context `{L402Lib} `{!L402Laws} {S : Type} `{!TokenStore S} `{!TokenStoreLaws S}.
Variable i : interceptor.

(** ** One call *)

(** What lnd, the decoder of invoices and the macaroon library deliver: payment
    hashes of 32 bytes, preimages that are not all zeros, and for the challenge of
    the server, if it sends one, a token that can be written to a file. *)
Definition challenges (md : header) (mb : list byte) (inv : string) : Prop :=
  exists hdr rest b64, md !! ToLower AuthHeader = Some (hdr :: rest) /\
    authHeaderRegex_find hdr = Some (b64, inv) /\ b64_DecodeString b64 = Ok mb.
Definition preimaged (p : list byte) : Prop := is_array 32 p /\ p ≠ Token.zeroPreimage.
Record sound (e : env) : Prop := {
  sound_invoice inv d : zpay32_Decode e inv = Ok d -> is_array 32 (iPaymentHash d);
  sound_token creds mb inv d tok :
    challenges (trailerOf (invoker e 1 creds)) mb inv -> zpay32_Decode e inv = Ok d ->
    Token.tokenFromChallenge (now e) mb (iPaymentHash d) = Ok tok -> Token.storable tok;
  sound_paid inv p amt fee :
    PayInvoice e inv (maxFee i) = Settled p amt fee ->
    preimaged p /\ is_u64 (NewMSatFromSatoshis e amt) /\ is_u64 (NewMSatFromSatoshis e fee);
  sound_status h updates p v f :
    TrackPayment e h = Ok updates -> Status SUCCEEDED p v f ∈ updates ->
    preimaged p /\ is_u64 v /\ is_u64 f
}.

(** lnd reports the payment of a hash as failed for good. *)
Fixpoint failsFinally (updates : list trackEvent) : bool :=
  match updates with
  | Status IN_FLIGHT _ _ _ :: rest => failsFinally rest
  | Status FAILED _ _ _ :: _ => true
  | _ => false
  end.
Definition toldFailed (e : env) (h : list byte) : Prop :=
  exists updates, TrackPayment e h = Ok updates /\ failsFinally updates = true.

(** What a call may do to the store, with the invoices it pays. *)
Definition bought (e : env) (inv : string) (a' : FileStore.astore) : Prop :=
  exists d tok, zpay32_Decode e inv = Ok d /\ iPaymentHash d = Token.PaymentHash tok /\
    (a' = FileStore.InTransit tok \/
     exists tok', a' = FileStore.Paid tok' /\ Token.PaymentHash tok' = Token.PaymentHash tok).
Inductive turn (e : env) : FileStore.astore -> FileStore.astore -> list string -> Prop :=
  | turn_same a : turn e a a []
  | turn_resumed tok tok' :
      Token.PaymentHash tok' = Token.PaymentHash tok ->
      turn e (FileStore.InTransit tok) (FileStore.Paid tok') []
  | turn_dropped tok :
      toldFailed e (Token.PaymentHash tok) -> turn e (FileStore.InTransit tok) FileStore.Empty []
  | turn_bought inv a' : bought e inv a' -> turn e FileStore.Empty a' [inv]
  | turn_retried tok inv a' :
      toldFailed e (Token.PaymentHash tok) -> bought e inv a' ->
      turn e (FileStore.InTransit tok) a' [inv].

(** From a store that holds [a], the computation ends with a store, invoices paid
    and a result such that [P]. *)
Definition moves {A} (m : M A) (a : FileStore.astore)
    (P : FileStore.astore -> list string -> outcome A -> Prop) : Prop :=
  forall w, repr (store w) a -> exists tr a',
    trace (m w).1 = trace w ++ tr /\ repr (store (m w).1) a' /\ P a' (payments tr) (m w).2.

Lemma moves_weaken {A} (m : M A) a (P Q : _ -> _ -> _ -> Prop) :
  moves m a P -> (forall a' ps r, P a' ps r -> Q a' ps r) -> moves m a Q.
Proof. intros Hm HPQ w Hw. destruct (Hm w Hw) as (tr & a' & Ht & Hr & HP). eauto 6. Qed.

Lemma moves_bind {A B} (m : M A) (f : A -> M B) a P Q :
  moves m a P ->
  (forall a' ps x, P a' ps (Ok x) -> moves (f x) a' (fun a'' ps' r => Q a'' (ps ++ ps') r)) ->
  (forall a' ps er, P a' ps (Err er) -> Q a' ps (Err er)) ->
  (forall a' ps p, P a' ps (Panic p) -> Q a' ps (Panic p)) ->
  moves (m ≫= f) a Q.
Proof.
  intros Hm Hf He Hp w Hw. destruct (Hm w Hw) as (tr & a' & Ht & Hr & HP).
  unfold mbind, M_bind. destruct (m w) as [w' [x|er|p]]; cbn in *; [|eauto 6..].
  destruct (Hf _ _ _ HP w' Hr) as (tr' & a'' & Ht' & Hr' & HQ).
  exists (tr ++ tr'), a''. rewrite Ht', Ht, payments_app, app_assoc. auto.
Qed.

(** A step without an effect on the store, and without a payment. *)
Lemma moves_quiet {A} (m : M A) a (P : _ -> _ -> _ -> Prop) :
  (forall w, store (m w).1 = store w /\ exists tr, trace (m w).1 = trace w ++ tr /\ payments tr = []) ->
  (forall w, repr (store w) a -> P a [] (m w).2) -> moves m a P.
Proof.
  intros Hm HP w Hw. destruct (Hm w) as (Hs & tr & Ht & Hn). exists tr, a.
  rewrite Hs, Hn. auto.
Qed.

Lemma moves_lift {A} (o : outcome A) a (P : _ -> _ -> _ -> Prop) : P a [] o -> moves (lift o) a P.
Proof. intros HP. apply moves_quiet; [|done]. intros w. split; [done|]. exists []. by rewrite app_nil_r. Qed.

Lemma moves_log ev a (P : _ -> _ -> _ -> Prop) : P a (payments [ev]) (Ok tt) -> moves (log_event ev) a P.
Proof. intros HP w Hw. exists [ev], a. auto. Qed.

Lemma moves_store tok a (P : _ -> _ -> _ -> Prop) :
  Token.storable tok -> P (FileStore.abs_store a tok).1 [] (FileStore.abs_store a tok).2 ->
  moves (store_token tok) a P.
Proof.
  intros Hs HP w Hw. destruct (store_ok _ _ tok Hw Hs) as [Hr Hrep].
  unfold store_token. destruct (StoreToken (store w) tok) as [s' r]. cbn in *. subst r.
  exists [EStore tok]. eauto.
Qed.

Lemma moves_remove tok (P : _ -> _ -> _ -> Prop) :
  P FileStore.Empty [] (Ok tt) -> moves remove_pending (FileStore.InTransit tok) P.
Proof.
  intros HP w Hw. destruct (remove_ok _ _ Hw) as [Hr Hrep].
  unfold remove_pending. destruct (RemovePendingToken (store w)) as [s' r]. cbn in *. subst r.
  exists [ERemove]. eauto.
Qed.

Lemma moves_errorf {A} (m : M A) msg a (P : _ -> _ -> _ -> Prop) :
  moves m a (fun a' ps r => P a' ps (errorf msg r)) ->
  moves (fun w => let '(w', r) := m w in (w', errorf msg r)) a P.
Proof.
  intros Hm w Hw. destruct (Hm w Hw) as (tr & a' & Ht & Hr & HP). destruct (m w) as [w' r]. eauto 6.
Qed.

Lemma fromChallenge_hash t mb h tok :
  is_array 32 h -> Token.tokenFromChallenge t mb h = Ok tok ->
  Token.PaymentHash tok = h /\ Token.isPending tok = true.
Proof.
  intros Hh. unfold Token.tokenFromChallenge. rewrite (MakeHash_spec h Hh).
  intros (m & _ & [= <-])%bind_Ok_inv. split; [done|]. by apply bool_decide_eq_true_2.
Qed.

(** A token that was completed with a preimage. *)
Lemma completed_storable tok p amt fee :
  Token.storable tok -> preimaged p -> is_u64 amt -> is_u64 fee ->
  let tok' := extractPaymentDetails tok p amt fee in
  Token.storable tok' /\ Token.isPending tok' = false.
Proof.
  intros (? & ? & ? & ? & ? & ?) [Hp Hz] Ha Hf. split; [by split_and!|].
  by apply bool_decide_eq_false_2.
Qed.

Lemma abs_store_completed tok tok' :
  Token.isPending tok' = false -> Token.PaymentHash tok' = Token.PaymentHash tok ->
  FileStore.abs_store (FileStore.InTransit tok) tok' = (FileStore.Paid tok', Ok tt).
Proof. intros Hp Hh. cbn. by rewrite Hp, decide_True by done. Qed.

Variable e : env.
Hypothesis He : sound e.

Definition afterPaying (a a' : FileStore.astore) (ps : list string) : Prop :=
  (ps = [] /\ a' = a) \/ exists inv, ps = [inv] /\ bought e inv a'.

(** The answer of the payment, with the pending token in the store. *)
Lemma paying_moves tok inv :
  Token.storable tok ->
  moves (match PayInvoice e inv (maxFee i) with
         | Settled preimage paidAmt paidFee =>
             let tok := paidToken e tok preimage paidAmt paidFee in
             _ ← store_token tok; mret tok
         | PayFailed => fail (Errorf "payment failed")
         | PayTimedOut => fail (Errorf "payment timed out. try again to track payment")
         | ParentCanceled => fail (Errorf "parent context canceled. try again to track payment")
         end) (FileStore.InTransit tok) (fun a' ps _ => ps = [] /\
    (a' = FileStore.InTransit tok \/
     exists tok', a' = FileStore.Paid tok' /\ Token.PaymentHash tok' = Token.PaymentHash tok)).
Proof.
  intros Hst. destruct (PayInvoice e inv (maxFee i)) as [p amt fee| | |] eqn:Ep; [|by apply moves_lift; auto..].
  destruct (sound_paid _ He _ _ _ _ Ep) as (Hpre & Hamt & Hfee).
  destruct (completed_storable tok p _ _ Hst Hpre Hamt Hfee) as [Hst' Hp'].
  eapply moves_bind with (P := fun a' ps r => ps = [] /\ r = Ok tt /\
    a' = FileStore.Paid (paidToken e tok p amt fee)).
  { apply moves_store; [done|].
    by rewrite (abs_store_completed tok (paidToken e tok p amt fee) Hp' eq_refl). }
  2,3: by intros ? ? ? (_ & [=] & _).
  intros ? ? [] (-> & _ & ->). apply moves_lift. split; [done|]. right. by eexists.
Qed.

Lemma payLsatToken_moves creds md :
  md = trailerOf (invoker e 1 creds) ->
  moves (payLsatToken i e md) FileStore.Empty (fun a' ps _ => afterPaying FileStore.Empty a' ps).
Proof.
  assert (Hstay : afterPaying FileStore.Empty FileStore.Empty []) by by left.
  intros Hmd. unfold payLsatToken.
  destruct (md !! ToLower AuthHeader) as [[|authHeader rest]|] eqn:Eh; cbn [default from_option id];
    [by apply moves_lift| |by apply moves_lift].
  destruct (authHeaderRegex_find authHeader) as [[macBase64 inv]|] eqn:Er; [|by apply moves_lift].
  eapply moves_bind with (P := fun a' ps r => a' = FileStore.Empty /\ ps = [] /\
    forall mb, r = Ok mb -> b64_DecodeString macBase64 = Ok mb);
    [by apply moves_lift; split_and!; [done..|intros mb ?%errorf_Ok_inv]| |by intros ? ? ? (-> & -> & _)..].
  intros ? ? macBytes (-> & -> & Hmb). specialize (Hmb macBytes eq_refl).
  assert (Hc : challenges md macBytes inv) by (by exists authHeader, rest, macBase64). rewrite Hmd in Hc.
  eapply moves_bind with (P := fun a' ps r => a' = FileStore.Empty /\ ps = [] /\
    forall d, r = Ok d -> zpay32_Decode e inv = Ok d);
    [by apply moves_lift; split_and!; [done..|intros d ?%errorf_Ok_inv]| |by intros ? ? ? (-> & -> & _)..].
  intros ? ? d (-> & -> & Hd). specialize (Hd d eq_refl). cbv zeta.
  destruct (match MilliSat d with Some _ => _ | None => _ end); [by apply moves_lift|].
  eapply moves_bind with (P := fun a' ps r => a' = FileStore.Empty /\ ps = [] /\
    forall tok, r = Ok tok -> Token.tokenFromChallenge (now e) macBytes (iPaymentHash d) = Ok tok);
    [by apply moves_lift; split_and!; [done..|intros tok ?%errorf_Ok_inv]| |by intros ? ? ? (-> & -> & _)..].
  intros ? ? tok (-> & -> & Ht). specialize (Ht tok eq_refl).
  pose proof (sound_token _ He _ _ _ _ _ Hc Hd Ht) as Hst. clear Hc.
  destruct (fromChallenge_hash _ _ _ _ (sound_invoice _ He _ _ Hd) Ht) as [Hh Hp].
  eapply moves_bind with (P := fun a' ps r => a' = FileStore.InTransit tok /\ ps = [] /\ r = Ok tt).
  { apply moves_errorf, moves_store; [done|]. cbn. by rewrite Hp. }
  2,3: by intros ? ? ? (_ & _ & [=]).
  intros ? ? [] (-> & -> & _).
  eapply moves_bind with (P := fun a' ps r => a' = FileStore.InTransit tok /\ ps = [inv] /\ r = Ok tt);
    [by apply moves_log| |by intros ? ? ? (_ & _ & [=])..].
  intros ? ? [] (-> & -> & _).
  eapply moves_weaken; [by apply paying_moves|]. intros a' ps r [-> Ha].
  right. exists inv. split; [done|]. by exists d, tok.
Qed.

Definition afterTracking (tok : Token.t) (updates : list trackEvent) (a' : FileStore.astore)
    (ps : list string) (r : outcome Token.t) : Prop :=
  ps = [] /\
  ((exists tok', r = Ok tok' /\ a' = FileStore.Paid tok' /\ Token.PaymentHash tok' = Token.PaymentHash tok) \/
   (is_ok r = false /\ a' = FileStore.InTransit tok /\
    (r = Err errPaymentFailedTerminally -> failsFinally updates = true))).

Lemma trackLoop_moves tok all updates :
  Token.storable tok -> TrackPayment e (Token.PaymentHash tok) = Ok all ->
  (forall u, u ∈ updates -> u ∈ all) ->
  moves (trackLoop tok updates) (FileStore.InTransit tok) (afterTracking tok updates).
Proof.
  intros Hs Ha. induction updates as [|u updates IH]; intros Hin; cbn [trackLoop].
  { apply moves_lift. split; [done|]. by right. }
  assert (Hrest : forall v, v ∈ updates -> v ∈ all) by (intros v Hv; apply Hin; by right).
  destruct u as [[] p v f|]; try (apply moves_lift; split; [done|]; by right).
  - destruct (sound_status _ He _ _ p v f Ha) as (Hp & Hv & Hf); [apply Hin; by left|].
    destruct (completed_storable tok p v f Hs Hp Hv Hf) as [Hs' Hp'].
    eapply moves_bind with (P := fun a' ps r => ps = [] /\ r = Ok tt /\
      a' = FileStore.Paid (extractPaymentDetails tok p v f)).
    { apply moves_store; [done|]. by rewrite (abs_store_completed tok _ Hp' eq_refl). }
    2,3: by intros ? ? ? (_ & [=] & _).
    intros ? ? [] (-> & _ & ->). apply moves_lift. split; [done|]. left. by eexists.
  - eapply moves_weaken; [by apply IH|]. done.
Qed.

Lemma trackPayment_moves tok :
  Token.storable tok ->
  moves (trackPayment e tok) (FileStore.InTransit tok) (fun a' ps r =>
    exists updates, afterTracking tok updates a' ps r /\
      (r = Err errPaymentFailedTerminally -> toldFailed e (Token.PaymentHash tok))).
Proof.
  intros Hs. unfold trackPayment.
  eapply moves_bind with (P := fun a' ps r => a' = FileStore.InTransit tok /\ ps = [] /\ r = Ok tt);
    [by apply moves_log| |by intros ? ? ? (_ & _ & [=])..].
  intros ? ? [] (-> & -> & _).
  destruct (TrackPayment e (Token.PaymentHash tok)) as [all|er|m] eqn:Ea; cbn [errorf].
  - eapply moves_bind with (P := fun a' ps r => a' = FileStore.InTransit tok /\ ps = [] /\ r = Ok all);
      [by apply moves_lift| |by intros ? ? ? (_ & _ & [=])..].
    intros ? ? ? (-> & -> & [= ->]).
    eapply moves_weaken; [by apply (trackLoop_moves tok all)|]. intros a' ps r Hr.
    exists all. split; [done|]. destruct Hr as [_ [(t' & -> & _)|(_ & _ & Hf)]]; [done|].
    intros E. exists all. by auto.
  - intros w Hw. exists [], (FileStore.InTransit tok). rewrite app_nil_r. split; [done|]. split; [done|].
    exists []. split; [|done]. split; [done|]. by right.
  - intros w Hw. exists [], (FileStore.InTransit tok). rewrite app_nil_r. split; [done|]. split; [done|].
    exists []. split; [|done]. split; [done|]. by right.
Qed.

(** The context of a call knows the token of the store. *)
Definition knows (a : FileStore.astore) (t : option Token.t) : Prop :=
  match a, t with
  | FileStore.Empty, None => True
  | FileStore.InTransit tok, Some tok' => tok' = tok /\ Token.isPending tok = true /\ Token.storable tok
  | FileStore.Paid tok, Some tok' => tok' = tok /\ Token.isPending tok = false
  | _, _ => False
  end.

Lemma bought_turn a a' ps :
  (a = FileStore.Empty \/ exists tok, a = FileStore.InTransit tok /\ toldFailed e (Token.PaymentHash tok)) ->
  afterPaying FileStore.Empty a' ps -> turn e a a' ps.
Proof.
  intros [->|(tok & -> & Hf)] [[-> ->]|(inv & -> & Hb)].
  - apply turn_same.
  - by apply turn_bought.
  - by apply turn_dropped.
  - by eapply turn_retried.
Qed.

(** Paying, when the store is empty. *)
Lemma payThen_moves creds c md a :
  md = trailerOf (invoker e 1 creds) ->
  (a = FileStore.Empty \/ exists tok, a = FileStore.InTransit tok /\ toldFailed e (Token.PaymentHash tok)) ->
  moves (tok' ← payLsatToken i e md; mret (withToken c tok')) FileStore.Empty (fun a' ps _ => turn e a a' ps).
Proof.
  intros Hmd Ha. eapply moves_bind; [by eapply payLsatToken_moves| |..].
  - intros a' ps tok Hp. apply moves_lift. rewrite app_nil_r. by apply bought_turn.
  - intros a' ps er. by apply bought_turn.
  - intros a' ps m. by apply bought_turn.
Qed.

Lemma removeThen_moves creds c tok :
  metadata c = trailerOf (invoker e 1 creds) ->
  toldFailed e (Token.PaymentHash tok) ->
  moves (_ ← (fun w => let '(w', r) := remove_pending w in
                (w', errorf "error removing pending token, cannot retry payment" r));
         tok' ← payLsatToken i e (metadata c); mret (withToken c tok'))
    (FileStore.InTransit tok) (fun a' ps _ => turn e (FileStore.InTransit tok) a' ps).
Proof.
  intros Hmd Hf.
  eapply moves_bind with (P := fun a' ps r => a' = FileStore.Empty /\ ps = [] /\ r = Ok tt).
  { by apply moves_errorf, moves_remove. }
  2,3: by intros ? ? ? (_ & _ & [=]).
  intros ? ? [] (-> & -> & _). cbn [app]. eapply payThen_moves; eauto.
Qed.

Lemma handlePayment_moves creds c a :
  metadata c = trailerOf (invoker e 1 creds) -> knows a (token c) -> moves (handlePayment i e c) a (fun a' ps _ => turn e a a' ps).
Proof.
  intros Hmd Hk. unfold handlePayment.
  eapply moves_bind with (P := fun a' ps _ => turn e a a' ps); [|..].
  2: { intros a' ps c' Ht. apply moves_lift. by rewrite app_nil_r. }
  2,3: done.
  destruct a as [|tok|tok], (token c) as [tok'|]; try done.
  - eapply payThen_moves; [done|by left].
  - destruct Hk as (-> & Hp & Hs). rewrite Hp. intros w Hw.
    destruct (trackPayment_moves tok Hs w Hw) as (tr & a' & Ht & Hr & updates & [Hps Hcase] & Hf).
    destruct (trackPayment e tok w) as [w' [tok'|er|m]]; cbn [fst snd] in *.
    + exists tr, a'. rewrite Hps. split_and!; [done..|].
      destruct Hcase as [(t & [= <-] & -> & Hh)|(? & _)]; [by apply turn_resumed|done].
    + destruct Hcase as [(t & [=] & _)|(_ & -> & _)]. case_decide as Hd.
      * rewrite Hd in Hf. destruct (removeThen_moves creds c tok Hmd (Hf eq_refl) w' Hr) as (tr' & a'' & Ht' & Hr' & Hp').
        exists (tr ++ tr'), a''. rewrite Ht', Ht, payments_app, Hps, app_assoc. done.
      * exists tr, (FileStore.InTransit tok). rewrite Hps. split_and!; [done..|]. apply turn_same.
    + destruct Hcase as [(t & [=] & _)|(_ & -> & _)].
      exists tr, (FileStore.InTransit tok). rewrite Hps. split_and!; [done..|]. apply turn_same.
  - destruct Hk as (-> & Hp). rewrite Hp. apply moves_lift, turn_same.
Qed.

Lemma newInterceptContext_moves a :
  moves (newInterceptContext i) a (fun a' ps r => a' = a /\ ps = [] /\ forall c, r = Ok c -> knows a (token c)).
Proof.
  apply moves_quiet.
  - intros w. unfold newInterceptContext.
    split; [by repeat case_match|]. exists []. rewrite app_nil_r. by repeat case_match.
  - intros w Hw. split; [done|]. split; [done|]. intros c. unfold newInterceptContext.
    rewrite (current_ok _ _ Hw). destruct a as [|tok|tok]; cbn [FileStore.abs_current].
    + rewrite decide_True by done. by intros [= <-].
    + destruct (transit_ok _ _ Hw) as [Hp Hs]. rewrite Hp. by intros [= <-].
    + pose proof (paid_ok _ _ Hw) as Hp. rewrite Hp. cbn [snd]. intros Hc%errorf_Ok_inv.
      unfold addLsatCredentials in Hc. cbn [token] in Hc. apply bind_Ok_inv in Hc as (mac & _ & [= <-]).
      by cbn.
Qed.

Lemma invoke_moves n creds a :
  moves (invoke e n creds) a (fun a' ps r => a' = a /\ ps = [] /\ r = Ok (invoker e n creds)).
Proof.
  unfold invoke. eapply moves_bind with (P := fun a' ps r => a' = a /\ ps = [] /\ r = Ok tt);
    [by apply moves_log| |by intros ? ? ? (_ & _ & [=])..].
  intros ? ? [] (-> & -> & _). by apply moves_lift.
Qed.

(** The calls before the last one are the same for the two kinds of interceptor. *)
Lemma intercept_moves {A} (k1 k2 : rpcResult -> M A) a :
  (forall r a, moves (k1 r) a (fun a' ps _ => a' = a /\ ps = [])) ->
  (forall r a, moves (k2 r) a (fun a' ps _ => a' = a /\ ps = [])) ->
  moves (iCtx ← newInterceptContext i;
         r ← invoke e 1 (opts iCtx);
         if IsPaymentRequired r then
           iCtx ← handlePayment i e {| opts := opts iCtx; metadata := trailerOf r; token := token iCtx |};
           r2 ← invoke e 2 (opts iCtx);
           k2 r2
         else k1 r) a (fun a' ps _ => turn e a a' ps).
Proof.
  intros Hk1 Hk2. eapply moves_bind; [apply newInterceptContext_moves| |by intros ? ? ? (-> & -> & _); apply turn_same..].
  intros ? ? c (-> & -> & Hc). specialize (Hc c eq_refl).
  eapply moves_bind; [apply invoke_moves| |by intros ? ? ? (-> & -> & _); apply turn_same..].
  intros ? ? r (-> & -> & [= ->]). cbn [app]. destruct (IsPaymentRequired _).
  - eapply moves_bind; [by eapply handlePayment_moves| |done..]. intros a' ps c' Ht.
    eapply moves_bind; [apply invoke_moves| |by intros ? ? ? (-> & -> & _); rewrite app_nil_r..].
    intros ? ? r2 (-> & -> & _). eapply moves_weaken; [apply Hk2|]. intros ? ? ? [-> ->]. by rewrite app_nil_r.
  - eapply moves_weaken; [apply Hk1|]. intros ? ? ? [-> ->]. apply turn_same.
Qed.

Lemma UnaryInterceptor_moves a : moves (UnaryInterceptor i e) a (fun a' ps _ => turn e a a' ps).
Proof. by apply intercept_moves; intros r b; apply moves_lift. Qed.

Lemma StreamInterceptor_moves {A} (stream : nat -> A) a :
  moves (StreamInterceptor i e stream) a (fun a' ps _ => turn e a a' ps).
Proof.
  unfold StreamInterceptor.
  apply (intercept_moves (fun r => lift (_ ← rpcOutcome r; Ok (stream 1%nat)))
                         (fun r => lift (_ ← rpcOutcome r; Ok (stream 2%nat))));
    intros r b; by apply moves_lift.
Qed.
End Spending.

(** ** All calls *)
Section History.
Context `{L402Lib} {S : Type} `{!TokenStore S}.
Variable i : interceptor.

(** A call of one of the two interceptors, with what it meets. *)
Inductive call := Unary (e : env) | Stream (e : env).
Definition envOf (c : call) : env := match c with Unary e | Stream e => e end.
Definition intercept (c : call) (w : world (S := S)) : world (S := S) :=
  match c with
  | Unary e => (UnaryInterceptor i e w).1
  | Stream e => (StreamInterceptor i e (fun n => n) w).1
  end.

(** What a call has added to the trace. *)
Definition did (w w' : world (S := S)) : list event := drop (length (trace w)) (trace w').

(** The calls in the order of the lock, with the invoices that each of them pays. *)
Definition account (acc : list (call * list string) * world (S := S)) (c : call) :
    list (call * list string) * world (S := S) :=
  let w' := intercept c acc.2 in (acc.1 ++ [(c, payments (did acc.2 w'))], w').
Definition history (cs : list call) (w : world (S := S)) : list (call * list string) * world (S := S) :=
  foldl account ([], w) cs.

(** Whether the payment that a call has made settles, then or later. *)
Variable fate : nat -> bool.

Definition paysFor (c : call) (inv : string) (h : list byte) : Prop :=
  exists d, zpay32_Decode (envOf c) inv = Ok d /\ iPaymentHash d = h.

(** lnd reports a hash as failed only when no payment of it that was made before
    settles. *)
Definition truthful (l : list (call * list string)) : Prop :=
  forall m n c c' inv ps h,
    (m < n)%nat -> l !! m = Some (c, [inv]) -> paysFor c inv h ->
    l !! n = Some (c', ps) -> toldFailed (envOf c') h -> fate m = false.

(** The call has spent money. *)
Definition spent (l : list (call * list string)) (m : nat) : Prop :=
  fate m = true /\ exists c inv, l !! m = Some (c, [inv]).

(** What the store says of the past. *)
Definition remembers (l : list (call * list string)) (a : FileStore.astore) : Prop :=
  match a with
  | FileStore.Empty => forall m, ~ spent l m
  | FileStore.InTransit tok | FileStore.Paid tok =>
      (forall m m', spent l m -> spent l m' -> m = m') /\
      (forall m c inv, l !! m = Some (c, [inv]) -> fate m = true -> paysFor c inv (Token.PaymentHash tok))
  end.

Lemma spent_snoc l x m : spent (l ++ [x]) m ->
  spent l m \/ (m = length l /\ fate m = true /\ exists inv, x.2 = [inv]).
Proof.
  intros [Hf (c & inv & Hl)]. apply lookup_snoc_Some in Hl as [[_ Hl]|[<- ->]]; [left|right]; [|eauto].
  split; eauto.
Qed.

Lemma remembers_quiet l c a : remembers l a -> remembers (l ++ [(c, [])]) a.
Proof.
  assert (Hs : forall m, spent (l ++ [(c, [])]) m -> spent l m)
    by (intros m [?|(_ & _ & inv & [=])]%spent_snoc; done).
  unfold remembers. destruct a as [|tok|tok]; [intros Hr m Hm%Hs; by eapply Hr|..];
    (intros [H1 H2]; split; [eauto|]; intros m c' inv [[_ Hl]|[_ [=]]]%lookup_snoc_Some; eauto).
Qed.

(** A first payment, when nothing was spent before. *)
Lemma remembers_bought l c inv a' :
  (forall m, ~ spent l m) -> bought (envOf c) inv a' -> remembers (l ++ [(c, [inv])]) a'.
Proof.
  intros Hn (d & tok & Hd & Hh & Ha).
  assert (Hs : forall m, spent (l ++ [(c, [inv])]) m -> m = length l)
    by (intros m [?%Hn|(-> & _)]%spent_snoc; done).
  assert (Hp : forall m c' inv', (l ++ [(c, [inv])]) !! m = Some (c', [inv']) -> fate m = true ->
    paysFor c' inv' (Token.PaymentHash tok)).
  { intros m c' inv' [[_ Hl]|[_ [= <- <-]]]%lookup_snoc_Some Hf; [|by exists d].
    exfalso. apply (Hn m). split; eauto. }
  destruct Ha as [->|(tok' & -> & Ht)]; cbn [remembers]; rewrite ?Ht; (split; [|exact Hp]);
    by intros m m' ->%Hs ->%Hs.
Qed.

(** Money that was spent for the hash is not reported as failed. *)
Lemma failed_unspent l c ps tok :
  truthful (l ++ [(c, ps)]) -> toldFailed (envOf c) (Token.PaymentHash tok) ->
  remembers l (FileStore.InTransit tok) -> forall m, ~ spent l m.
Proof.
  intros Ht Hf [_ Hp] m [Hm (c' & inv & Hl)].
  assert (Hlt := lookup_lt_Some _ _ _ Hl).
  enough (fate m = false) by congruence.
  eapply (Ht m (length l) c' c inv ps (Token.PaymentHash tok)); [done| |by eapply Hp| |done].
  - by rewrite lookup_app_l.
  - by rewrite lookup_app_r, Nat.sub_diag.
Qed.

Lemma truthful_snoc l x : truthful (l ++ [x]) -> truthful l.
Proof.
  intros Ht m n c c' inv ps h Hlt Hm Hp Hn. eapply (Ht m n); [done| |done|].
  - by rewrite lookup_app_l by by eapply lookup_lt_Some.
  - by rewrite lookup_app_l by by eapply lookup_lt_Some.
Qed.

Lemma remembers_turn l c a a' ps :
  truthful (l ++ [(c, ps)]) -> remembers l a -> turn (envOf c) a a' ps ->
  remembers (l ++ [(c, ps)]) a'.
Proof.
  intros Ht Hr Htu. destruct Htu as [a|tok tok' Hh|tok Hf|inv a' Hb|tok inv a' Hf Hb].
  - by apply remembers_quiet.
  - apply remembers_quiet. destruct Hr as [H1 H2]. split; [done|]. by rewrite Hh.
  - apply (remembers_quiet _ _ FileStore.Empty). exact (failed_unspent _ _ _ _ Ht Hf Hr).
  - by apply remembers_bought.
  - apply remembers_bought; [|done]. exact (failed_unspent _ _ _ _ Ht Hf Hr).
Qed.

Lemma history_calls cs w : fst <$> (history cs w).1 = cs.
Proof.
  induction cs as [|c cs IH] using rev_ind; [done|]. unfold history in *. rewrite foldl_snoc.
  unfold account at 1. cbn [fst]. by rewrite fmap_app, IH.
Qed.

Context `{!L402Laws} `{!TokenStoreLaws S}.

Lemma turn_once e a a' ps : turn e a a' ps -> (length ps <= 1)%nat.
Proof. destruct 1; cbn; lia. Qed.

Lemma intercept_turn c w a :
  sound i (envOf c) -> repr (store w) a ->
  exists a', repr (store (intercept c w)) a' /\
    turn (envOf c) a a' (payments (did w (intercept c w))).
Proof.
  intros Hs Hw.
  assert (Hm : exists tr a', trace (intercept c w) = trace w ++ tr /\ repr (store (intercept c w)) a' /\
    turn (envOf c) a a' (payments tr)).
  { destruct c as [e|e]; [by apply (UnaryInterceptor_moves i e)|by apply (StreamInterceptor_moves i e)]. }
  destruct Hm as (tr & a' & Ht & Hr & Htu). exists a'. split; [done|].
  unfold did. by rewrite Ht, drop_app_length.
Qed.

Lemma history_remembers cs w :
  repr (store w) FileStore.Empty -> Forall (fun c => sound i (envOf c)) cs ->
  truthful (history cs w).1 ->
  Forall (fun x => (length x.2 <= 1)%nat) (history cs w).1 /\
  exists a, repr (store (history cs w).2) a /\ remembers (history cs w).1 a.
Proof.
  intros Hw. induction cs as [|c cs IH] using rev_ind; intros Hs Ht.
  - split; [done|]. exists FileStore.Empty. split; [done|]. intros m [_ (c & inv & Hl)]. done.
  - apply Forall_app in Hs as [Hs [Hc _]%Forall_cons]. unfold history in *. rewrite foldl_snoc in *.
    unfold account in Ht at 1. unfold account at 1 3 5. cbn [fst snd] in *.
    destruct (IH Hs (truthful_snoc _ _ Ht)) as (H1 & a & Hr & Hm).
    destruct (intercept_turn c _ a Hc Hr) as (a' & Hr' & Htu).
    split; [apply Forall_app; by apply turn_once in Htu; auto|]. exists a'. split; [done|]. by eapply remembers_turn.
Qed.
End History.
End Spending.

(** ** Properties *)
Module SpendingProperties.
Import Client Spending.

(** C5: a client buys once: over any number of calls, of either interceptor, that get
    the lock in any order and meet any answers of the server and any progress of
    lnd, among all payments the client makes at most one ever settles, and the store
    then holds the token of that payment, pending or paid; this needs only that lnd
    reports a payment as failed when it will not settle, and that the store keeps its
    promise. *)
Theorem client_spends_once `{L402Lib} `{!L402Laws} {S : Type} `{!TokenStore S} `{!TokenStoreLaws S}
    i fate cs (w : world (S := S)) :
  let l := (history i cs w).1 in
  let w' := (history i cs w).2 in
  repr (store w) FileStore.Empty -> Forall (fun c => sound i (envOf c)) cs -> truthful fate l ->
  Forall (fun x => (length x.2 <= 1)%nat) l /\
  (forall m m', spent fate l m -> spent fate l m' -> m = m') /\
  (forall m, spent fate l m -> exists tok c inv,
     (repr (store w') (FileStore.InTransit tok) \/ repr (store w') (FileStore.Paid tok)) /\
     l !! m = Some (c, [inv]) /\ paysFor c inv (Token.PaymentHash tok)).
Proof.
  intros l w' Hw Hs Ht. destruct (history_remembers i fate cs w Hw Hs Ht) as (Hl & a & Hr & Hm).
  split; [exact Hl|]. destruct a as [|tok|tok]; cbn [remembers] in Hm.
  - split; [intros m m' Hsp|intros m Hsp]; by apply Hm in Hsp.
  - destruct Hm as [H1 H2]. split; [exact H1|]. intros m [Hf (c & inv & Hc)]. exists tok, c, inv. eauto.
  - destruct Hm as [H1 H2]. split; [exact H1|]. intros m [Hf (c & inv & Hc)]. exists tok, c, inv. eauto.
Qed.

(** *** Witness: a payment that times out, is tracked by a later call, and is not
    repeated by a third *)
Section Toy.
#[local] Existing Instance ToyLib.lib.
#[local] Existing Instance ToyLib.laws.
#[local] Existing Instance ClientProperties.toy_store.
#[local] Existing Instance ClientProperties.toy_store_laws.

Definition toy_trailer : header :=
  {[ToLower AuthHeader := [challengeText (b64_EncodeToString (ToyLib.marshal ToyToken.mac)) "lnbc1"]]}.
Definition toy_lnd (updates : list trackEvent) : env := {|
  invoker _ _ := RpcStatus 13 "payment required" toy_trailer;
  zpay32_Decode _ := Ok {| MilliSat := Some 5000; iPaymentHash := replicate 32 Byte.x05 |};
  NewMSatFromSatoshis z := z * 1000;
  PayInvoice _ _ := PayTimedOut;
  TrackPayment _ := Ok updates;
  now := UnixFromNano 1700000000000000001
|}.
Definition toy_calls : list call :=
  [Unary (toy_lnd []); Stream (toy_lnd ClientProperties.toy_updates); Unary (toy_lnd [])].
Definition toy_world : world (S := FileStore.dir) := {| store := ∅; trace := [] |}.
Definition toy_fate (m : nat) : bool := bool_decide (m = 0%nat).

Lemma toy_sound updates :
  updates = [] \/ updates = ClientProperties.toy_updates ->
  sound ClientProperties.toy_interceptor (toy_lnd updates).
Proof.
  intros Hu. split.
  - by intros inv d [= <-].
  - intros creds mb inv d tok (hdr & rest & b64 & Hh & Hr & Hb) [= <-] Ht.
    assert (Hhdr : challengeText (b64_EncodeToString (ToyLib.marshal ToyToken.mac)) "lnbc1" = hdr)
      by (cbn [trailerOf invoker toy_lnd] in Hh; unfold toy_trailer in Hh;
          rewrite lookup_singleton_eq in Hh; by injection Hh).
    rewrite <- Hhdr, challenge_parse in Hr by (vm_compute; reflexivity).
    assert (b64_EncodeToString (ToyLib.marshal ToyToken.mac) = b64) as Hb64 by congruence.
    rewrite <- Hb64, b64_roundtrip in Hb. injection Hb as <-.
    unfold Token.tokenFromChallenge in Ht. rewrite (Unmarshal_Marshal ToyToken.mac _ eq_refl) in Ht.
    cbn [errorf mbind outcome_bind] in Ht. rewrite MakeHash_spec in Ht by reflexivity.
    injection Ht as <-. apply (ToyToken.storable_with Token.zeroPreimage 0 0).
    + reflexivity.
    + split; vm_compute; [discriminate|reflexivity].
    + split; vm_compute; [discriminate|reflexivity].
  - by intros inv p amt fee [=].
  - intros h us p v f [= <-] Hin. destruct Hu as [->| ->]; [by apply not_elem_of_nil in Hin|].
    apply elem_of_cons in Hin as [[=]|Hin]. apply list_elem_of_singleton in Hin.
    injection Hin as -> -> ->. split; [split; [reflexivity|discriminate]|].
    split; (split; vm_compute; [discriminate|reflexivity]).
Qed.

Lemma toy_truthful : truthful toy_fate (history ClientProperties.toy_interceptor toy_calls toy_world).1.
Proof.
  intros m n c c' inv ps h _ _ _ Hn (us & Hus & Hf). exfalso.
  apply (f_equal (fmap fst)) in Hn. rewrite <- list_lookup_fmap, history_calls in Hn. cbn in Hn.
  destruct n as [|[|[|n]]]; cbn in Hn; [| | |done]; injection Hn as <-; injection Hus as <-; done.
Qed.

Lemma spent_lookup (l : list (call * list string)) m inv :
  (snd <$> l) !! m = Some [inv] -> exists c inv, l !! m = Some (c, [inv]).
Proof. rewrite list_lookup_fmap. intros ([c ps] & Hl & Hps)%fmap_Some. cbn in Hps. subst ps. eauto. Qed.

Lemma client_spends_once_witness :
  exists tok : Token.t,
    let st := store (history ClientProperties.toy_interceptor toy_calls toy_world).2 in
    repr st (FileStore.InTransit tok) \/ repr st (FileStore.Paid tok).
Proof.
  destruct (client_spends_once (TokenStoreLaws0 := ClientProperties.toy_store_laws)
    ClientProperties.toy_interceptor toy_fate toy_calls toy_world) as (_ & _ & Hl).
  - apply FileStore.repr_empty; reflexivity.
  - unfold toy_calls. rewrite !Forall_cons. cbn [envOf].
    split_and!; [apply toy_sound; auto..|constructor].
  - apply toy_truthful.
  - destruct (Hl 0%nat) as (tok & c & inv & Hr & _); [|exists tok; exact Hr].
    split; [reflexivity|]. apply (spent_lookup _ _ "lnbc1"). vm_compute. reflexivity.
Defined.
End Toy.
End SpendingProperties.
