(* ===== verification/Database.v ===== *)
(** * The database layer: transactions, errors, queries

    [aperturedb/interface.go], [aperturedb/sqlerrors.go] and the queries of
    [aperturedb/sqlc].  The database itself is Postgres: what can go wrong with
    it in a transaction is an input of the model. *)
From S2P Require Import Prelude.
From S2P Require Import GoStrings.
From S2P Require Import GoTime.

(** ** [aperturedb/sqlerrors.go] *)
Definition ErrRetriesExceeded : error := Sentinel "ErrRetriesExceeded".
Definition ErrNoRows : error := Sentinel "sql.ErrNoRows".
Definition UniqueViolation : string := "23505".
Definition SerializationFailure : string := "40001".

(** [errors.As(err, &pqErr)] *)
Fixpoint as_PgError (e : error) : option string :=
  match e with
  | PgError code => Some code
  | Wrapf _ e' | ErrSerializationError e' => as_PgError e'
  | _ => None
  end.

Definition parsePostgresError (code : string) : error :=
  if decide (code = UniqueViolation) then ErrSQLUniqueConstraintViolation (PgError code)
  else if decide (code = SerializationFailure) then ErrSerializationError (PgError code)
  else Wrapf "unknown postgres error" (PgError code).

Definition MapSQLError (e : error) : error :=
  match as_PgError e with
  | Some code => parsePostgresError code
  | None => e
  end.

(** [errors.As(dbErr, &serializationErr)] *)
Fixpoint is_serialization (e : error) : bool :=
  match e with
  | ErrSerializationError _ => true
  | Wrapf _ e' => is_serialization e'
  | _ => false
  end.

(** ** [TransactionExecutor.ExecTx] *)

(** What the database does to one attempt: it may refuse to begin, fail a query
    of the body, or fail the commit. *)
Record attempt := {
  aBegin : option error;
  aQuery : option error;
  aCommit : option error
}.
Definition clean : attempt := {| aBegin := None; aQuery := None; aCommit := None |}.

Definition DefaultNumTxRetries : nat := 10.

Section ExecTx.
Context {DB A : Type}.

(** A body works on the transaction's view of the database; a failing query
    makes it return that error. *)
Definition body_run (a : attempt) (txBody : DB -> DB * outcome A) (db : DB) : DB * outcome A :=
  match aQuery a with
  | Some e => (db, Err e)
  | None => txBody db
  end.

(** [left] attempts remain and [i] is the number of the next one.  A [Commit] that
    returns an error has not been applied: [database/sql] says that its queries are
    then to be discarded as invalid.  (A commit that the server has applied and whose
    acknowledgement is lost is outside.) *)
Fixpoint execAttempts (left i : nat) (attempts : nat -> attempt)
    (txBody : DB -> DB * outcome A) (db : DB) : DB * outcome A :=
  match left with
  | O => (db, Err ErrRetriesExceeded)
  | S left' =>
      let a := attempts i in
      match aBegin a with
      | Some e => (db, Err e)
      | None =>
          match body_run a txBody db with
          | (_, Err e) =>
              let dbErr := MapSQLError e in
              if is_serialization dbErr then execAttempts left' (S i) attempts txBody db
              else (db, Err dbErr)
          | (_, Panic m) => (db, Panic m)
          | (db', Ok r) =>
              match aCommit a with
              | Some e => (db, Err (MapSQLError e))
              | None => (db', Ok r)
              end
          end
      end
  end.

Definition ExecTx (numRetries : nat) (attempts : nat -> attempt)
    (txBody : DB -> DB * outcome A) (db : DB) : DB * outcome A :=
  execAttempts numRetries 0 attempts txBody db.

(** Atomicity: a transaction that does not succeed leaves the database alone. *)
Lemma execAttempts_atomic left i attempts txBody db db' r :
  execAttempts left i attempts txBody db = (db', r) -> is_ok r = false -> db' = db.
Proof.
  revert i; induction left as [|left IH]; intros i; cbn; [naive_solver|].
  destruct (aBegin (attempts i)); [naive_solver|].
  destruct (body_run _ _ db) as [d [x|er|m]]; [|case_match; naive_solver|naive_solver].
  destruct (aCommit (attempts i)); naive_solver.
Qed.

(** A transaction that succeeds did what the body does, once. *)
Lemma execAttempts_Ok left i attempts txBody db db' r :
  execAttempts left i attempts txBody db = (db', Ok r) -> txBody db = (db', Ok r).
Proof.
  revert i; induction left as [|left IH]; intros i; cbn; [done|].
  destruct (aBegin (attempts i)); [done|]. unfold body_run.
  destruct (aQuery (attempts i)) as [e|].
  - case_match; [apply IH | done].
  - destruct (txBody db) as [d [x|er|m]]; [|case_match; [apply IH|done]|done].
    by destruct (aCommit (attempts i)).
Qed.

(** The attempts that end in a serialization failure are made again. *)
Definition retried (a : attempt) : Prop :=
  aBegin a = None /\ exists e, aQuery a = Some e /\ is_serialization (MapSQLError e) = true.

Lemma execAttempts_retry k left i attempts txBody db :
  (forall j, (i <= j < i + k)%nat -> retried (attempts j)) ->
  execAttempts (k + left) i attempts txBody db = execAttempts left (i + k) attempts txBody db.
Proof.
  revert i; induction k as [|k IH]; intros i Hr; cbn; [by rewrite Nat.add_0_r|].
  destruct (Hr i) as (Hb & e & Hq & Hs); [lia|].
  rewrite Hb. unfold body_run. rewrite Hq, Hs. rewrite IH.
  - f_equal. lia.
  - intros j Hj. apply Hr. lia.
Qed.

Lemma execAttempts_clean left i attempts txBody db :
  attempts i = clean ->
  (forall db' e, txBody db = (db', Err e) -> is_serialization (MapSQLError e) = false) ->
  execAttempts (S left) i attempts txBody db =
    match txBody db with
    | (db', Ok r) => (db', Ok r)
    | (_, Err e) => (db, Err (MapSQLError e))
    | (_, Panic m) => (db, Panic m)
    end.
Proof.
  intros Hc Hs. cbn. rewrite Hc. cbn. unfold body_run. cbn.
  destruct (txBody db) as [db' [r|e|m]] eqn:E; [done| |done]. by rewrite (Hs _ _ eq_refl).
Qed.

End ExecTx.

Lemma MapSQLError_serialization e :
  as_PgError e = Some SerializationFailure -> is_serialization (MapSQLError e) = true.
Proof. intros H. unfold MapSQLError. by rewrite H. Qed.

(** ** A store over a table

    A running store is its table and what its writing calls will meet, one call
    after the other. *)
Module Running.
Record running (T E : Type) := { tbl : T; world : nat -> E; calls : nat }.
Arguments Build_running {T E}.
Arguments tbl {T E}.
Arguments world {T E}.
Arguments calls {T E}.

Definition update {T E A} (s : running T E) (ta : T * A) : running T E * A :=
  ({| tbl := ta.1; world := world s; calls := S (calls s) |}, ta.2).

Lemma update_eq {T E A} (s s' : running T E) (ta : T * A) r :
  update s ta = (s', r) -> ta = (tbl s', r).
Proof. unfold update. destruct ta. by intros [= <- <-]. Qed.

(** Opens the updates of the hypotheses. *)
Ltac open_updates :=
  repeat match goal with Hu : update _ _ = (_, _) |- _ => apply update_eq in Hu end.
End Running.

(** ** The executor, its options and its waiting

    [ExecTx] above leaves out that a failed attempt is followed by a random wait.
    Here the loop is written with the waits it makes; [timedAttempts_ExecTx]
    shows that nothing else differs. *)
Module Executor.

Definition Millisecond : Z := 1000000.
Definition DefaultRetryDelay : Z := 50 * Millisecond.

Record txExecutorOptions := { numRetries : Z; retryDelay : Z }.

Definition defaultTxExecutorOptions : txExecutorOptions :=
  {| numRetries := Z.of_nat DefaultNumTxRetries; retryDelay := DefaultRetryDelay |}.

(** [prand.Int63n]: it panics unless its argument is positive; the number it is
    drawn from is an argument. *)
Definition Int63n (n draw : Z) : outcome Z :=
  if decide (n <= 0) then Panic "invalid argument to Int63n" else Ok (draw mod n).

Definition randRetryDelay (o : txExecutorOptions) (draw : Z) : outcome Z :=
  Int63n (retryDelay o) draw.

Definition WithTxRetries (n : Z) (o : txExecutorOptions) : txExecutorOptions :=
  {| numRetries := n; retryDelay := retryDelay o |}.
Definition WithTxRetryDelay (d : Z) (o : txExecutorOptions) : txExecutorOptions :=
  {| numRetries := numRetries o; retryDelay := d |}.

(** The options are applied in order. *)
Definition NewTransactionExecutor (opts : list (txExecutorOptions -> txExecutorOptions)) :
    txExecutorOptions :=
  foldl (fun o optFunc => optFunc o) defaultTxExecutorOptions opts.

(** A read transaction is read only, and every transaction is serializable. *)
Inductive isolation := LevelDefault | LevelSerializable.
Record sqlTxOptions := { txReadOnly : bool; txIsolation : isolation }.
Definition BeginTx (readOnly : bool) : sqlTxOptions :=
  {| txReadOnly := readOnly; txIsolation := LevelSerializable |}.

Section Timed.
Context {DB A : Type}.

(** The waits, and the result, of the loop. *)
Fixpoint timedAttempts (o : txExecutorOptions) (draw : nat -> Z) (left i : nat)
    (attempts : nat -> attempt) (txBody : DB -> DB * outcome A) (db : DB) :
    list Z * (DB * outcome A) :=
  match left with
  | O => ([], (db, Err ErrRetriesExceeded))
  | S left' =>
      let a := attempts i in
      match aBegin a with
      | Some e => ([], (db, Err e))
      | None =>
          match body_run a txBody db with
          | (_, Err e) =>
              let dbErr := MapSQLError e in
              if is_serialization dbErr then
                match randRetryDelay o (draw i) with
                | Ok d =>
                    let '(ds, res) := timedAttempts o draw left' (S i) attempts txBody db in
                    (d :: ds, res)
                | Err e => ([], (db, Err e))
                | Panic m => ([], (db, Panic m))
                end
              else ([], (db, Err dbErr))
          | (_, Panic m) => ([], (db, Panic m))
          | (db', Ok r) =>
              match aCommit a with
              | Some e => ([], (db, Err (MapSQLError e)))
              | None => ([], (db', Ok r))
              end
          end
      end
  end.

Definition TimedExecTx (o : txExecutorOptions) (draw : nat -> Z) (attempts : nat -> attempt)
    (txBody : DB -> DB * outcome A) (db : DB) : list Z * (DB * outcome A) :=
  timedAttempts o draw (Z.to_nat (numRetries o)) 0 attempts txBody db.

Lemma timedAttempts_ExecTx o draw left i attempts txBody db :
  0 < retryDelay o ->
  (timedAttempts o draw left i attempts txBody db).2 = execAttempts left i attempts txBody db.
Proof.
  intros Ho. revert i. induction left as [|left IH]; intros i; cbn; [done|].
  destruct (aBegin _); [done|]. destruct (body_run _ _ _) as [db' [r|e|m]]; [by case_match| |done].
  case_match; [|done]. unfold randRetryDelay, Int63n. rewrite decide_False by lia.
  rewrite <- IH. by destruct (timedAttempts _ _ _ _ _ _ _).
Qed.

Lemma timedAttempts_waits o draw left i attempts txBody db :
  let ds := (timedAttempts o draw left i attempts txBody db).1 in
  (length ds <= left)%nat /\ Forall (fun d => 0 <= d < retryDelay o) ds.
Proof.
  revert i. induction left as [|left IH]; intros i; cbn; [by split|].
  assert (Hnil : (length (@nil Z) <= S left)%nat /\ Forall (fun d => 0 <= d < retryDelay o) [])
    by (split; [cbn; lia|constructor]).
  destruct (aBegin _); [done|]. destruct (body_run _ _ _) as [db' [r|e|m]]; [by case_match| |done].
  case_match; [|done]. unfold randRetryDelay, Int63n. case_decide; [done|].
  specialize (IH (S i)). destruct (timedAttempts _ _ _ _ _ _ _) as [ds res]. cbn in *.
  destruct IH as [Hl Hd]. split; [lia|]. constructor; [|done]. apply Z.mod_pos_bound. lia.
Qed.

Lemma sum_bound (b : Z) (ds : list Z) :
  0 < b -> Forall (fun d => 0 <= d < b) ds ->
  0 <= foldr Z.add 0 ds <= Z.of_nat (length ds) * (b - 1).
Proof.
  intros Hb. induction 1 as [|d ds Hd _ IH]; cbn [foldr length]; [lia|]. nia.
Qed.

End Timed.
End Executor.

(** ** Properties *)

(** C30: a transaction takes effect as a whole or not at all: it returns a value
    exactly when the database is the one its body, run once on the original
    database, produces; in every other case the database is the original one.  (A
    commit that returns an error counts as not applied, as [database/sql] has it.) *)
Theorem transaction_all_or_nothing {DB A} n attempts (txBody : DB -> DB * outcome A) db db' r :
  ExecTx n attempts txBody db = (db', r) ->
  (exists x, r = Ok x /\ txBody db = (db', Ok x)) \/ (is_ok r = false /\ db' = db).
Proof.
  intros E. destruct (is_ok r) eqn:Hr.
  - destruct r as [x| |]; [|done..]. left. exists x. split; [done|]. by eapply execAttempts_Ok.
  - right. split; [done|]. by eapply execAttempts_atomic.
Qed.

Lemma transaction_all_or_nothing_witness :
  (exists x, Ok 7 = Ok x /\ (4 + 1, Ok 7) = (5, Ok x)) \/ (is_ok (Ok 7) = false /\ 5 = 4).
Proof.
  apply (transaction_all_or_nothing 10 (fun _ => clean) (fun db : Z => (db + 1, Ok 7)) 4 5 (Ok 7)).
  reflexivity.
Defined.

(** an attempt whose query fails to serialize is made again, at most ten times
    in all: with fewer failures the transaction ends as its body does, after ten
    it reports [ErrRetriesExceeded] and leaves the database alone. *)
Theorem serialization_failures_are_retried {DB A} k attempts (txBody : DB -> DB * outcome A) db db' r :
  (k <= DefaultNumTxRetries)%nat ->
  (forall j, (j < k)%nat -> retried (attempts j)) ->
  attempts k = clean -> txBody db = (db', Ok r) ->
  ExecTx DefaultNumTxRetries attempts txBody db =
    if decide (k = DefaultNumTxRetries) then (db, Err ErrRetriesExceeded) else (db', Ok r).
Proof.
  intros Hk Hr Hc Hb. unfold ExecTx.
  replace DefaultNumTxRetries with (k + (DefaultNumTxRetries - k))%nat at 1 by lia.
  rewrite execAttempts_retry by (intros j ?; apply Hr; lia). cbn [Nat.add].
  case_decide as Hd; [by rewrite Hd|].
  destruct (DefaultNumTxRetries - k)%nat as [|left] eqn:E; [lia|].
  rewrite execAttempts_clean; [by rewrite Hb|done|]. intros. congruence.
Qed.

Definition failing_query : attempt :=
  {| aBegin := None; aQuery := Some (PgError SerializationFailure); aCommit := None |}.

Lemma serialization_failures_are_retried_witness :
  ExecTx DefaultNumTxRetries (fun i => if decide (i < 3)%nat then failing_query else clean)
    (fun db : Z => (db + 1, Ok tt)) 4 = (5, Ok tt).
Proof.
  apply (serialization_failures_are_retried 3 (fun i => if decide (i < 3)%nat then failing_query else clean)
           (fun db : Z => (db + 1, Ok tt)) 4 5 tt).
  - vm_compute. lia.
  - intros j Hj. rewrite decide_True by exact Hj. split; [reflexivity|].
    exists (PgError SerializationFailure). split; reflexivity.
  - reflexivity.
  - reflexivity.
Defined.

(** A serialization failure that the commit reports is not retried. *)
Theorem commit_failure_is_final {DB A} left (txBody : DB -> DB * outcome A) db db' r e attempts :
  attempts 0%nat = {| aBegin := None; aQuery := None; aCommit := Some e |} ->
  txBody db = (db', Ok r) ->
  ExecTx (S left) attempts txBody db = (db, Err (MapSQLError e)).
Proof.
  intros Ha Hb. unfold ExecTx. cbn [execAttempts]. rewrite Ha. cbn [aBegin]. unfold body_run.
  cbn [aQuery aCommit]. by rewrite Hb.
Qed.

(** C31: the waiting of a transaction is bounded: with a positive delay the loop
    with its waits has the result of [ExecTx], it waits at most once per attempt
    and less than the delay each time, so that the executor with default options
    waits less than half a second in all; with a delay that is not positive, the
    first serialization failure is a panic that leaves the database alone. *)
Theorem retries_are_bounded {DB A} opts draw attempts (txBody : DB -> DB * outcome A) db :
  let o := Executor.NewTransactionExecutor opts in
  let run := Executor.TimedExecTx o draw attempts txBody db in
  (length run.1 <= Z.to_nat (Executor.numRetries o))%nat /\
  Forall (fun d => 0 <= d < Executor.retryDelay o) run.1 /\
  (0 < Executor.retryDelay o ->
     run.2 = ExecTx (Z.to_nat (Executor.numRetries o)) attempts txBody db) /\
  (opts = [] -> foldr Z.add 0 run.1 < 500 * Executor.Millisecond) /\
  (Executor.retryDelay o <= 0 -> 0 < Executor.numRetries o -> retried (attempts 0%nat) ->
     run = ([], (db, Panic "invalid argument to Int63n"))).
Proof.
  intros o run. destruct (Executor.timedAttempts_waits o draw (Z.to_nat (Executor.numRetries o)) 0
    attempts txBody db) as [Hl Hd]. change (length run.1 <= Z.to_nat (Executor.numRetries o))%nat in Hl.
  split_and!; [done|done| | |].
  - apply Executor.timedAttempts_ExecTx.
  - intros Ho. assert (Hw : Executor.retryDelay o = 50000000) by (subst o; by rewrite Ho).
    assert (Hn : (Z.to_nat (Executor.numRetries o) = 10)%nat) by (subst o; by rewrite Ho).
    rewrite Hw in Hd. rewrite Hn in Hl.
    pose proof (Executor.sum_bound 50000000 run.1 ltac:(lia) Hd).
    unfold Executor.Millisecond. lia.
  - intros Hn Hr (Hb & e & Hq & Hs). unfold run, Executor.TimedExecTx.
    destruct (Z.to_nat (Executor.numRetries o)) as [|left] eqn:E; [lia|]. cbn.
    rewrite Hb. unfold body_run. rewrite Hq, Hs. unfold Executor.randRetryDelay, Executor.Int63n.
    by rewrite decide_True.
Qed.
