(* ===== verification/Migrations.v ===== *)
(** * Opening the database: [aperturedb/postgres.go] and
    [aperturedb/migrations.go]

    The schema files are written for SQLite; the virtual file system below
    replaces the names of three types as it opens them.  It iterates over a Go
    map, so the order of the replacements is a parameter of the model.  The
    migration library, the driver and the parent file system are parameters. *)
From S2P Require Import Prelude.
From S2P Require Import GoStrings.
From S2P Require Import GoReplace.
From S2P Require Import GoCodec.
From S2P Require Import Database.

(** ** The file system of [migrations.go] *)
Module ReplacerFS.

(** A file: whether it is a directory, and what [io.ReadAll] gets from it. *)
Record file := { fIsDir : outcome bool; fReadAll : outcome string }.

Record replacerFS := { parentFS : string -> outcome file; replaces : gmap string string }.

Definition newReplacerFS (parent : string -> outcome file) (replaces : gmap string string) :
    replacerFS :=
  {| parentFS := parent; replaces := replaces |}.

Record replacerFile := { parentFile : file; buf : list byte }.

(** The entries of a map in some order. *)
Definition iterates (m : gmap string string) (order : list (string * string)) : Prop :=
  order ≡ₚ map_to_list m.

Definition replaceEach (order : list (string * string)) (contentStr : string) : string :=
  foldl (fun s '(from, to) => ReplaceAll s from to) contentStr order.

Definition newReplacerFile (parent : file) (order : list (string * string)) : outcome replacerFile :=
  content ← fReadAll parent;
  Ok {| parentFile := parent; buf := bytes_of (replaceEach order content) |}.

Inductive opened := Parent (f : file) | Replaced (f : replacerFile).

Definition Open (t : replacerFS) (order : list (string * string)) (name : string) : outcome opened :=
  f ← parentFS t name;
  isDir ← fIsDir f;
  if isDir : bool then Ok (Parent f)
  else r ← newReplacerFile f order; Ok (Replaced r).

Definition Stat (t : replacerFile) : outcome bool := fIsDir (parentFile t).

(** [bytes.Buffer.Read] into a buffer of [n] bytes. *)
Definition Read (n : nat) (t : replacerFile) : replacerFile * outcome (list byte) :=
  match buf t with
  | [] => (t, if decide (n = 0)%nat then Ok [] else Err EOF)
  | b => ({| parentFile := parentFile t; buf := drop n b |}, Ok (take n b))
  end.

Definition Close (t : replacerFile) : outcome unit := Ok tt.

(** *** Lemmas *)

(** The entries can be applied in any order. *)
Definition compatible (m : list (string * string)) : bool :=
  forallb (fun x => negb (bool_decide (x.1 = "")) &&
    forallb (fun y => bool_decide (x = y) || harmless x.1 x.2 y.1) m) m.

Lemma compatible_comm m x y s :
  compatible m = true -> x ∈ m -> y ∈ m ->
  ReplaceAll (ReplaceAll s x.1 x.2) y.1 y.2 = ReplaceAll (ReplaceAll s y.1 y.2) x.1 x.2.
Proof.
  unfold compatible. rewrite forallb_forall. intros H Hx%list_elem_of_In Hy%list_elem_of_In.
  assert (Hxy := H x Hx). assert (Hyx := H y Hy).
  apply andb_true_iff in Hxy as [Ex Hxy], Hyx as [Ey Hyx].
  rewrite forallb_forall in Hxy, Hyx. specialize (Hxy y Hy). specialize (Hyx x Hx).
  apply negb_true_iff, bool_decide_eq_false in Ex, Ey.
  destruct (decide (x = y)) as [->|Hne]; [done|].
  rewrite bool_decide_eq_false_2 in Hxy, Hyx by congruence. by apply ReplaceAll_comm.
Qed.

Lemma replaceEach_perm m l1 l2 s :
  compatible m = true -> l1 ≡ₚ l2 -> l1 ⊆ m -> replaceEach l1 s = replaceEach l2 s.
Proof.
  intros Hm Hp. revert s. induction Hp as [|[a a'] l1 l2 _ IH|[a a'] [b b'] l|l1 l2 l3 H1 IH1 H2 IH2];
    intros s Hl; cbn.
  - done.
  - apply IH. set_solver.
  - f_equal. apply (compatible_comm m (b, b') (a, a')); set_solver.
  - rewrite IH1 by done. apply IH2. by rewrite <- H1.
Qed.

(** A text that is replaced first is gone at the end. *)
Lemma replaceEach_absent b order s :
  b ≠ "" -> Forall (fun x => x.1 ≠ "" /\ harmless x.1 x.2 b = true) order ->
  Contains s b = false -> Contains (replaceEach order s) b = false.
Proof.
  intros Hb Ho. revert s. induction Ho as [|[a a'] l [Ha Hh] _ IH]; intros s Hs; [done|].
  cbn. apply IH. by apply ReplaceAll_absent.
Qed.

(** Reading until the end: the [i]-th read is into [sizes i] bytes. *)
Fixpoint readToEnd (sizes : nat -> nat) (fuel i : nat) (t : replacerFile) :
    option (list byte) :=
  match fuel with
  | O => None
  | S fuel' =>
      match Read (sizes i) t with
      | (t', Ok b) => app b <$> readToEnd sizes fuel' (S i) t'
      | _ => Some []
      end
  end.

Lemma readToEnd_all sizes fuel i t :
  (forall j, (0 < sizes j)%nat) -> (length (buf t) < fuel)%nat ->
  readToEnd sizes fuel i t = Some (buf t).
Proof.
  intros Hs. revert i t. induction fuel as [|fuel IH]; intros i [p b] Hf; cbn in *; [lia|].
  unfold Read. cbn [buf parentFile]. specialize (Hs i). destruct b as [|x b].
  - by rewrite decide_False by lia.
  - rewrite IH; [|cbn [buf]; rewrite length_drop; cbn in *; lia]. cbn [buf fmap option_fmap option_map].
    by rewrite take_drop.
Qed.

End ReplacerFS.

(** ** [postgres.go] *)
Module Postgres.
Import ReplacerFS.

Record PostgresConfig := {
  SkipMigrations : bool;
  Host : string;
  Port : Z;
  User : string;
  Password : string;
  DBName : string;
  MaxOpenConnections : Z;
  RequireSSL : bool
}.

(** [dsnTemplate] with its seven verbs filled in. *)
Definition DSN (s : PostgresConfig) (hidePassword : bool) : string :=
  let sslMode := if RequireSSL s then "require" else "disable" in
  let password := if hidePassword then "****" else Password s in
  "postgres://" +:+ User s +:+ ":" +:+ password +:+ "@" +:+ Host s +:+ ":" +:+
  FormatInt (Port s) +:+ "/" +:+ DBName s +:+ "?sslmode=" +:+ sslMode.

Definition defaultMaxConns : Z := 25.
Definition connIdleLifetime : Z := 5 * 60 * 1000000000.

(** What the SQLite schemas are turned into. *)
Definition postgresTypes : gmap string string := list_to_map [
  ("BLOB", "BYTEA");
  ("INTEGER PRIMARY KEY", "SERIAL PRIMARY KEY");
  ("TIMESTAMP", "TIMESTAMP WITHOUT TIME ZONE")
].

Definition ErrNoChange : error := Sentinel "migrate.ErrNoChange".

Section Store.
(** The driver's connection, the migration library's source, driver and
    migration. *)
Context {Conn Source Driver Migration : Type}.

Record env := {
  sqlSchemas : string -> outcome file;             (* the embedded files *)
  map_order : string -> list (string * string);    (* of the file that is opened *)
  sql_Open : string -> string -> outcome Conn;
  postgres_WithInstance : Conn -> outcome Driver;
  httpfs_New : (string -> outcome opened) -> string -> outcome Source;
  migrate_NewWithInstance : Source -> string -> Driver -> outcome Migration;
  migrate_Up : Migration -> outcome unit
}.

Definition applyMigrations (e : env) (fs : string -> outcome opened) (driver : Driver)
    (path dbName : string) : outcome unit :=
  migrateFileServer ← httpfs_New e fs path;
  sqlMigrate ← migrate_NewWithInstance e migrateFileServer dbName driver;
  match migrate_Up e sqlMigrate with
  | Err er => if decide (er = ErrNoChange) then Ok tt else Err er
  | o => o
  end.

Record PostgresStore := {
  cfg : PostgresConfig;
  DB : Conn;
  MaxOpenConns : Z;
  MaxIdleConns : Z;
  ConnMaxLifetime : Z
}.

Definition NewPostgresStore (e : env) (cfg : PostgresConfig) : outcome PostgresStore :=
  rawDB ← sql_Open e "pgx" (DSN cfg false);
  let maxConns := if decide (0 < MaxOpenConnections cfg) then MaxOpenConnections cfg
                  else defaultMaxConns in
  _ ← (if SkipMigrations cfg then Ok tt
       else
         driver ← postgres_WithInstance e rawDB;
         let postgresFS := newReplacerFS (sqlSchemas e) postgresTypes in
         applyMigrations e (fun name => Open postgresFS (map_order e name) name) driver
           "sqlc/migrations" (DBName cfg));
  Ok {| cfg := cfg; DB := rawDB; MaxOpenConns := maxConns; MaxIdleConns := maxConns;
        ConnMaxLifetime := connIdleLifetime |}.

End Store.
Arguments env : clear implicits.

(** *** Lemmas *)

Lemma postgresTypes_compatible : compatible (map_to_list postgresTypes) = true.
Proof. vm_compute. reflexivity. Qed.

Lemma replaceEach_order order order' s :
  iterates postgresTypes order -> iterates postgresTypes order' ->
  replaceEach order s = replaceEach order' s.
Proof.
  intros H H'. apply (replaceEach_perm (map_to_list postgresTypes)).
  - apply postgresTypes_compatible.
  - by rewrite H, H'.
  - by rewrite H.
Qed.

(** A type name whose replacement does not contain it is gone, whatever the
    order: the order in which it comes first shows it. *)
Lemma replaceEach_gone b b' rest s :
  map_to_list postgresTypes ≡ₚ (b, b') :: rest ->
  b ≠ "" -> clear b' b = true -> stable (tail b) b b' = true ->
  Forall (fun x => x.1 ≠ "" /\ harmless x.1 x.2 b = true) rest ->
  forall order, iterates postgresTypes order -> Contains (replaceEach order s) b = false.
Proof.
  intros Hp Hb H1 H2 Hr order Ho. rewrite (replaceEach_order order ((b, b') :: rest)); [|done|by unfold iterates; symmetry].
  cbn. apply replaceEach_absent; [done|done|]. by apply ReplaceAll_gone.
Qed.

Lemma no_BLOB order s :
  iterates postgresTypes order -> Contains (replaceEach order s) "BLOB" = false.
Proof.
  apply (replaceEach_gone "BLOB" "BYTEA"
    [("INTEGER PRIMARY KEY", "SERIAL PRIMARY KEY"); ("TIMESTAMP", "TIMESTAMP WITHOUT TIME ZONE")]);
    [|done|reflexivity|reflexivity|repeat constructor; done].
  unfold postgresTypes. apply map_to_list_to_map. repeat constructor; set_solver.
Qed.

Lemma no_INTEGER_KEY order s :
  iterates postgresTypes order -> Contains (replaceEach order s) "INTEGER PRIMARY KEY" = false.
Proof.
  apply (replaceEach_gone "INTEGER PRIMARY KEY" "SERIAL PRIMARY KEY"
    [("BLOB", "BYTEA"); ("TIMESTAMP", "TIMESTAMP WITHOUT TIME ZONE")]);
    [|done|reflexivity|reflexivity|repeat constructor; done].
  etrans; [|apply Permutation_swap].
  unfold postgresTypes. apply map_to_list_to_map. repeat constructor; set_solver.
Qed.

(** The connection string that is logged does not depend on the password. *)
Lemma DSN_hides s p :
  DSN s true = DSN {| SkipMigrations := SkipMigrations s; Host := Host s; Port := Port s;
                      User := User s; Password := p; DBName := DBName s;
                      MaxOpenConnections := MaxOpenConnections s;
                      RequireSSL := RequireSSL s |} true.
Proof. done. Qed.

End Postgres.

(** ** Properties *)
Module MigrationsProperties.
Import ReplacerFS Postgres.

(** C33: the schema that is migrated does not depend on the order in which Go
    iterates over the map of type names: every file of the virtual file system
    opens to the same result in any two orders, a directory to itself, and the
    text of a file holds no column type of SQLite, neither the blob nor the
    integer key. *)
Theorem schema_is_order_independent parent order order' name :
  iterates postgresTypes order -> iterates postgresTypes order' ->
  let fs := newReplacerFS parent postgresTypes in
  Open fs order name = Open fs order' name /\
  (forall f, Open fs order name = Ok (Parent f) -> parent name = Ok f /\ fIsDir f = Ok true) /\
  (forall r, Open fs order name = Ok (Replaced r) ->
     Contains (string_of (buf r)) "BLOB" = false /\
     Contains (string_of (buf r)) "INTEGER PRIMARY KEY" = false).
Proof.
  intros Ho Ho' fs. unfold Open, newReplacerFile. cbn [parentFS replaces newReplacerFS fs].
  destruct (parent name) as [f| |]; [|done..]. cbn [mbind outcome_bind].
  destruct (fIsDir f) as [[]| |] eqn:Ed; [|cbn [mbind outcome_bind]|done..].
  - split; [done|]. split; [by intros g [= <-]|done].
  - destruct (fReadAll f) as [content| |]; [|done..]. cbn [mbind outcome_bind].
    split; [by rewrite (replaceEach_order order order')|]. split; [done|].
    intros r [= <-]. cbn [buf]. rewrite string_of_bytes_of.
    split; [by apply no_BLOB|by apply no_INTEGER_KEY].
Qed.

(** a reader of a schema file comes to its end and has then read the whole
    replaced text, with buffers of any positive sizes; the text's length bounds
    the number of reads. *)
Theorem schema_file_is_read_whole parent order name f content r sizes :
  parent name = Ok f -> fIsDir f = Ok false -> fReadAll f = Ok content ->
  Open (newReplacerFS parent postgresTypes) order name = Ok (Replaced r) ->
  (forall j, (0 < sizes j)%nat) ->
  readToEnd sizes (S (length (bytes_of (replaceEach order content)))) 0 r =
    Some (bytes_of (replaceEach order content)).
Proof.
  intros Hp Hd Hc Ho Hs. unfold Open in Ho. cbn [parentFS newReplacerFS] in Ho.
  rewrite Hp in Ho. cbn [mbind outcome_bind] in Ho. rewrite Hd in Ho. cbn [mbind outcome_bind] in Ho.
  unfold newReplacerFile in Ho. rewrite Hc in Ho. injection Ho as <-.
  rewrite readToEnd_all; [done|done|]. cbn [buf]. lia.
Qed.

(** *** Witnesses *)
Definition toy_schema : string :=
  "CREATE TABLE t (id INTEGER PRIMARY KEY, secret BLOB, at TIMESTAMP);".
Definition toy_file : file := {| fIsDir := Ok false; fReadAll := Ok toy_schema |}.
Definition toy_parent (name : string) : outcome file :=
  if decide (name = "1.up.sql") then Ok toy_file else Err (Sentinel "fs.ErrNotExist").
Definition toy_order : list (string * string) := [
  ("TIMESTAMP", "TIMESTAMP WITHOUT TIME ZONE"); ("BLOB", "BYTEA");
  ("INTEGER PRIMARY KEY", "SERIAL PRIMARY KEY")].

Lemma toy_order_iterates : iterates postgresTypes toy_order.
Proof.
  unfold iterates. symmetry. etrans; [apply map_to_list_to_map; repeat constructor; set_solver|].
  unfold toy_order. solve_Permutation.
Qed.

Lemma schema_is_order_independent_witness :
  Open (newReplacerFS toy_parent postgresTypes) toy_order "1.up.sql" =
  Open (newReplacerFS toy_parent postgresTypes) (map_to_list postgresTypes) "1.up.sql".
Proof.
  apply (schema_is_order_independent toy_parent toy_order (map_to_list postgresTypes) "1.up.sql").
  - apply toy_order_iterates.
  - unfold iterates; reflexivity.
Defined.

Lemma schema_file_is_read_whole_witness :
  readToEnd (fun _ => 7%nat)
    (S (length (bytes_of (replaceEach toy_order toy_schema)))) 0
    {| parentFile := toy_file; buf := bytes_of (replaceEach toy_order toy_schema) |} =
  Some (bytes_of
    "CREATE TABLE t (id SERIAL PRIMARY KEY, secret BYTEA, at TIMESTAMP WITHOUT TIME ZONE);").
Proof.
  apply (schema_file_is_read_whole toy_parent toy_order "1.up.sql" toy_file toy_schema).
  - reflexivity.
  - reflexivity.
  - reflexivity.
  - reflexivity.
  - intros _. lia.
Defined.
End MigrationsProperties.
