(* ===== verification/Secrets.v ===== *)
(** * The store of L402 secrets

    The [SecretStore] interface of [mint/mint.go], and its implementation:
    [aperturedb/secrets.go] over the queries of [aperturedb/sqlc/secrets.sql.go]
    on the table of [aperturedb/sqlc/migrations]. *)
From S2P Require Import Prelude.
From S2P Require Import GoStrings.
From S2P Require Import GoTime.
From S2P Require Import Database.

Definition ErrSecretNotFound : error := Sentinel "ErrSecretNotFound".

(** ** The interface

    Besides the operations of [mint.SecretStore] it has a description of what the
    store holds, for the laws: the secret under an identifier hash, the settlement
    column of the rows of a payment hash, and the time that is read back when a time
    has been written.  A read may fail; if it answers, it answers from what the store
    holds. *)
Class SecretStore (S : Type) := {
  NewSecret : S -> list byte -> list byte -> S * outcome (list byte);
  GetSecret : S -> list byte -> outcome (list byte);
  RevokeSecret : S -> list byte -> S * outcome unit;
  SetSettledAtByPaymentHash : S -> list byte -> option time -> S * outcome unit;
  GetSettledAtByPaymentHash : S -> list byte -> outcome (option time);
  held : S -> list byte -> option (list byte);
  settlements : S -> list byte -> list (option time);
  readBack : time -> time
}.

(** The store is in a state in which it answers every read it has an answer for. *)
Definition answering {S : Type} `{!SecretStore S} (s : S) : Prop :=
  (forall i k, held s i = Some k -> GetSecret s i = Ok k) /\
  (forall p, settlements s p ≠ [] -> is_ok (GetSettledAtByPaymentHash s p) = true).

(** Two states with the same contents: how they answer a read may differ. *)
Definition same_contents {S : Type} `{!SecretStore S} (s s' : S) : Prop :=
  (forall i, held s' i = held s i) /\ (forall p, settlements s' p = settlements s p).

Class SecretStoreLaws (S : Type) `{!SecretStore S} : Prop := {
  get_held s i k : GetSecret s i = Ok k -> held s i = Some k;
  get_settled s p t : GetSettledAtByPaymentHash s p = Ok t -> t ∈ settlements s p;
  new_fresh s i p s' k : NewSecret s i p = (s', Ok k) -> held s i = None;
  new_get s i p s' k : NewSecret s i p = (s', Ok k) -> held s' i = Some k;
  new_other s i p s' k j : NewSecret s i p = (s', Ok k) -> i ≠ j -> held s' j = held s j;
  new_size s i p s' k : NewSecret s i p = (s', Ok k) -> is_array 32 k;
  new_settlement s i p s' k q :
    NewSecret s i p = (s', Ok k) ->
    settlements s' q = settlements s q ++ (if decide (p = q) then [None] else []);
  new_fails s i p s' r : NewSecret s i p = (s', r) -> is_ok r = false -> same_contents s s';
  revoke_get s i s' : RevokeSecret s i = (s', Ok tt) -> held s' i = None;
  revoke_other s i s' r j : RevokeSecret s i = (s', r) -> i ≠ j -> held s' j = held s j;
  revoke_fails s i s' r : RevokeSecret s i = (s', r) -> is_ok r = false -> same_contents s s';
  rollback_settled s i p s' k s'' q :
    NewSecret s i p = (s', Ok k) -> RevokeSecret s' i = (s'', Ok tt) ->
    settlements s'' q = settlements s q;
  settle_keeps s p t s' r i : SetSettledAtByPaymentHash s p t = (s', r) -> held s' i = held s i;
  settle_get s p t s' :
    SetSettledAtByPaymentHash s p t = (s', Ok tt) ->
    settlements s' p = (fun _ => readBack <$> t) <$> settlements s p;
  settle_other s p t s' r q :
    SetSettledAtByPaymentHash s p t = (s', r) -> p ≠ q -> settlements s' q = settlements s q;
  settle_fails s p t s' r :
    SetSettledAtByPaymentHash s p t = (s', r) -> is_ok r = false -> same_contents s s'
}.

Section InterfaceFacts.
Context {S : Type} `{!SecretStore S} `{!SecretStoreLaws S}.
Implicit Types s : S.

(** Every row of a hash holds this settlement, and there is one. *)
Definition settled_as s (p : list byte) (at_ : time) : Prop :=
  settlements s p ≠ [] /\ Forall (eq (Some at_)) (settlements s p).

Lemma settled_as_get s p at_ :
  answering s -> settled_as s p at_ -> GetSettledAtByPaymentHash s p = Ok (Some at_).
Proof.
  intros [_ Ha] [Hn Hf]. specialize (Ha p Hn).
  destruct (GetSettledAtByPaymentHash s p) as [t| |] eqn:E; [|done..].
  apply get_settled in E. rewrite Forall_forall in Hf. by rewrite <- (Hf t E).
Qed.

Lemma settle_settles s p at_ s' :
  SetSettledAtByPaymentHash s p (Some at_) = (s', Ok tt) -> settlements s p ≠ [] ->
  settled_as s' p (readBack at_).
Proof.
  intros E Hn. unfold settled_as. rewrite (settle_get _ _ _ _ E). split; [by destruct (settlements s p)|].
  apply Forall_fmap, Forall_true. done.
Qed.

Lemma settle_known s p t s' r q :
  SetSettledAtByPaymentHash s p t = (s', r) -> settlements s q ≠ [] -> settlements s' q ≠ [].
Proof.
  intros E Hq. destruct (decide (p = q)) as [<-|Hne]; [|by rewrite (settle_other _ _ _ _ _ q E Hne)].
  destruct (is_ok r) eqn:Hr.
  - destruct r as [[]| |]; [|done..]. rewrite (settle_get _ _ _ _ E). by destruct (settlements s p).
  - destruct (settle_fails _ _ _ _ _ E Hr) as [_ Hs]. by rewrite Hs.
Qed.
End InterfaceFacts.

(** ** The table and its queries *)
Module SecretsDB.

Record row := {
  rId : Z;
  MacaroonIDHash : list byte;
  PaymentHash : list byte;
  Secret : list byte;
  SettledAt : option time;
  CreatedAt : time
}.

(** What a TIMESTAMP column, without a time zone, keeps of a time: the driver ([pgx])
    writes the date and the time of day that the time shows in its own location,
    without their zone and cut to microseconds, and they are read back as UTC.  The
    only times that are written here after the insertion are those of [time.Unix],
    whose location is the time zone of the server. *)
Class Zone := utcOffset : time -> Z.   (* seconds east of UTC of [time.Local], at an instant *)

Definition timestamp `{Zone} (t : time) : time :=
  let wall := Add t (utcOffset t * Second) in
  {| t_sec := t_sec wall; t_nsec := t_nsec wall / 1000 * 1000 |}.

(** The table; Postgres checks the [UNIQUE] columns on insertion. *)
Record table := { rows : list row; nextId : Z }.

(** The table with a new row. *)
Definition added (t : table) (i p k : list byte) (c : time) : table :=
  {| rows := rows t ++ [{| rId := nextId t; MacaroonIDHash := i; PaymentHash := p; Secret := k;
                           SettledAt := None; CreatedAt := c |}];
     nextId := nextId t + 1 |}.

Definition InsertSecret (idHash paymentHash secret : list byte) (createdAt : time) (t : table) :
    table * outcome Z :=
  if decide (idHash ∈ (MacaroonIDHash <$> rows t) \/ secret ∈ (Secret <$> rows t))
  then (t, Err (PgError UniqueViolation))
  else (added t idHash paymentHash secret createdAt, Ok (nextId t)).

Definition GetSecretByIdHash (idHash : list byte) (t : table) : outcome (list byte) :=
  match filter (fun r => MacaroonIDHash r = idHash) (rows t) with
  | r :: _ => Ok (Secret r)
  | [] => Err ErrNoRows
  end.

(** The query has no ORDER BY and a payment hash may have several rows: which of
    them comes first is up to the database, here the row with the number [choice]. *)
Definition GetSettledAt (choice : nat) (paymentHash : list byte) (t : table) : outcome (option time) :=
  match filter (fun r => PaymentHash r = paymentHash) (rows t) with
  | r :: rs => Ok (SettledAt (nth (choice mod length (r :: rs)) (r :: rs) r))
  | [] => Err ErrNoRows
  end.

Definition settle (paymentHash : list byte) (at_ : option time) (r : row) : row :=
  if decide (PaymentHash r = paymentHash)
  then {| rId := rId r; MacaroonIDHash := MacaroonIDHash r; PaymentHash := PaymentHash r;
          Secret := Secret r; SettledAt := at_; CreatedAt := CreatedAt r |}
  else r.

Definition SetSettledAt `{Zone} (paymentHash : list byte) (at_ : option time) (t : table) :
    table * outcome unit :=
  ({| rows := settle paymentHash (timestamp <$> at_) <$> rows t; nextId := nextId t |}, Ok tt).

Definition DeleteSecretByIdHash (idHash : list byte) (t : table) : table * outcome Z :=
  ({| rows := filter (fun r => MacaroonIDHash r ≠ idHash) (rows t); nextId := nextId t |},
   Ok (Z.of_nat (length (filter (fun r => MacaroonIDHash r = idHash) (rows t))))).

Lemma settle_id p a r : MacaroonIDHash (settle p a r) = MacaroonIDHash r.
Proof. unfold settle. by case_decide. Qed.
Lemma settle_secret p a r : Secret (settle p a r) = Secret r.
Proof. unfold settle. by case_decide. Qed.
Lemma settle_payment p a r : PaymentHash (settle p a r) = PaymentHash r.
Proof. unfold settle. by case_decide. Qed.

Lemma filter_settle_id p a i (l : list row) :
  filter (fun r => MacaroonIDHash r = i) (settle p a <$> l)
  = settle p a <$> filter (fun r => MacaroonIDHash r = i) l.
Proof.
  induction l as [|r l IH]; [done|]. rewrite fmap_cons, !filter_cons, settle_id.
  case_decide; by rewrite IH.
Qed.

Lemma filter_settle_payment p a q (l : list row) :
  filter (fun r => PaymentHash r = q) (settle p a <$> l)
  = settle p a <$> filter (fun r => PaymentHash r = q) l.
Proof.
  induction l as [|r l IH]; [done|]. rewrite fmap_cons, !filter_cons, settle_payment.
  case_decide; by rewrite IH.
Qed.

End SecretsDB.

(** ** [aperturedb/secrets.go] *)
Module SecretsStore.
Import SecretsDB.

(** The world of a call: the random bytes it draws, its clock, what the database
    does to each attempt of its transaction, and which of several rows it returns
    first. *)
Record env := {
  rand_Read : outcome (list byte);
  clock_Now : time;
  attempts : nat -> attempt;
  first_row : nat
}.

Section Store.
Context `{Zone}.
Variable e : env.

Definition NewSecret (t : table) (idHash paymentHash : list byte) : table * outcome (list byte) :=
  match rand_Read e with
  | Ok secret =>
      let secret := copy_array 32 secret in
      let '(t', r) :=
        ExecTx DefaultNumTxRetries (attempts e)
          (fun t => let '(t', r) := InsertSecret idHash paymentHash secret (clock_Now e) t in
                    (t', (fun _ => tt) <$> r)) t in
      (t', wrapf "unable to insert new secret" (_ ← r; Ok secret))
  | Err er => (t, Err er)
  | Panic m => (t, Panic m)
  end.

Definition SetSettledAtByPaymentHash (t : table) (paymentHash : list byte) (settledAt : option time) :
    table * outcome unit :=
  let '(t', r) := ExecTx DefaultNumTxRetries (attempts e) (SetSettledAt paymentHash settledAt) t in
  (t', wrapf "unable to set settled at" r).

(** A missing row is reported as [mint.ErrSecretNotFound]. *)
Definition noRows {A} (o : outcome A) : outcome A :=
  match o with
  | Err er => if decide (er = ErrNoRows) then Err ErrSecretNotFound else Err er
  | _ => o
  end.

Definition GetSecret (t : table) (idHash : list byte) : outcome (list byte) :=
  wrapf "unable to get secret"
    (ExecTx DefaultNumTxRetries (attempts e)
       (fun t => (t, secretRow ← noRows (GetSecretByIdHash idHash t);
                     Ok (copy_array 32 secretRow))) t).2.

Definition GetSettledAtByPaymentHash (t : table) (paymentHash : list byte) : outcome (option time) :=
  wrapf "unable to get settled_at"
    (ExecTx DefaultNumTxRetries (attempts e)
       (fun t => (t, noRows (GetSettledAt (first_row e) paymentHash t))) t).2.

Definition RevokeSecret (t : table) (idHash : list byte) : table * outcome unit :=
  let '(t', r) :=
    ExecTx DefaultNumTxRetries (attempts e)
      (fun t => let '(t', r) := DeleteSecretByIdHash idHash t in (t', (fun _ => tt) <$> r)) t in
  (t', wrapf "unable to revoke secret" r).

End Store.

(** *** What the store does, whatever the database does to the attempts *)

Lemma NewSecret_stored e t i p t' k :
  NewSecret e t i p = (t', Ok k) ->
  is_array 32 k /\ i ∉ (MacaroonIDHash <$> rows t) /\ k ∉ (Secret <$> rows t) /\
  t' = added t i p k (clock_Now e).
Proof.
  unfold NewSecret. destruct (rand_Read e) as [b| |]; [|done..].
  destruct (ExecTx _ _ _ t) as [t1 r] eqn:E. intros [= <- Hr].
  destruct r as [[]| |]; [|done..]. injection Hr as <-.
  apply execAttempts_Ok in E. unfold InsertSecret in E. case_decide as Hd; [done|].
  injection E as <-. apply Decidable.not_or in Hd as [? ?]. auto with go.
Qed.

Lemma NewSecret_fails e t i p t' r :
  NewSecret e t i p = (t', r) -> is_ok r = false -> t' = t.
Proof.
  unfold NewSecret. destruct (rand_Read e) as [b| |]; [|naive_solver..].
  destruct (ExecTx _ _ _ t) as [t1 r1] eqn:E. intros [= <- <-] Hr.
  eapply execAttempts_atomic; [exact E|]. by destruct r1.
Qed.

(** Every operation that writes leaves the table as it was, or as its query
    makes it. *)
Lemma SetSettledAt_cases `{Zone} e t p a t' r :
  SetSettledAtByPaymentHash e t p a = (t', r) ->
  (r = Ok tt /\ t' = (SetSettledAt p a t).1) \/ (is_ok r = false /\ t' = t).
Proof.
  unfold SetSettledAtByPaymentHash. destruct (ExecTx _ _ _ t) as [t1 r1] eqn:E.
  intros [= <- <-]. destruct r1 as [[]| |].
  - left. apply execAttempts_Ok in E. by rewrite E.
  - right. split; [done|]. by eapply execAttempts_atomic.
  - right. split; [done|]. by eapply execAttempts_atomic.
Qed.

Lemma RevokeSecret_cases e t i t' r :
  RevokeSecret e t i = (t', r) ->
  (r = Ok tt /\ t' = (DeleteSecretByIdHash i t).1) \/ (is_ok r = false /\ t' = t).
Proof.
  unfold RevokeSecret. destruct (ExecTx _ _ _ t) as [t1 r1] eqn:E.
  intros [= <- <-]. destruct r1 as [[]| |].
  - left. apply execAttempts_Ok in E. by injection E as <-.
  - right. split; [done|]. by eapply execAttempts_atomic.
  - right. split; [done|]. by eapply execAttempts_atomic.
Qed.

(** *** Reading

    A read that answers answers from the table, and a database that works
    answers. *)
Definition calm (e : env) : Prop := forall i, attempts e i = clean.

Definition heldIn (t : table) (i : list byte) : option (list byte) :=
  (fun r => copy_array 32 (Secret r)) <$> head (filter (fun r => MacaroonIDHash r = i) (rows t)).
Definition settledIn (t : table) (p : list byte) : list (option time) :=
  SettledAt <$> filter (fun r => PaymentHash r = p) (rows t).

Lemma read_Ok {A} e (f : table -> outcome A) t a :
  (ExecTx DefaultNumTxRetries (attempts e) (fun t => (t, f t)) t).2 = Ok a -> f t = Ok a.
Proof.
  destruct (ExecTx _ _ _ t) as [t' r] eqn:E. cbn [snd]. intros ->.
  apply execAttempts_Ok in E. by injection E as _ ->.
Qed.

Lemma read_calm {A} e (f : table -> outcome A) t a :
  calm e -> f t = Ok a -> (ExecTx DefaultNumTxRetries (attempts e) (fun t => (t, f t)) t).2 = Ok a.
Proof.
  intros Hc Hf. unfold ExecTx, DefaultNumTxRetries. rewrite execAttempts_clean; [by rewrite Hf|apply Hc|].
  intros db' er. rewrite Hf. by intros [= _ ?].
Qed.

(** A secret is found under its identifier hash, cut or padded to 32 bytes. *)
Lemma GetSecret_heldIn e t i k : GetSecret e t i = Ok k -> heldIn t i = Some k.
Proof.
  intros E. apply wrapf_Ok_inv, read_Ok in E. unfold heldIn, GetSecretByIdHash in *.
  destruct (filter _ (rows t)) as [|r l]; [done|]. cbn in E. injection E as <-. done.
Qed.

Lemma GetSecret_calm e t i k : calm e -> heldIn t i = Some k -> GetSecret e t i = Ok k.
Proof.
  intros Hc E. unfold GetSecret. rewrite (read_calm e _ t k Hc); [done|]. unfold heldIn, GetSecretByIdHash in *.
  destruct (filter _ (rows t)) as [|r l]; [done|]. cbn in *. by injection E as <-.
Qed.

Lemma GetSettledAt_settledIn e t p a : GetSettledAtByPaymentHash e t p = Ok a -> a ∈ settledIn t p.
Proof.
  intros E. apply wrapf_Ok_inv, read_Ok in E. unfold settledIn, GetSettledAt in *.
  destruct (filter _ (rows t)) as [|r l]; [done|]. apply (inj Ok) in E as <-.
  apply list_elem_of_fmap_2. set (n := (first_row e mod length (r :: l))%nat).
  apply list_elem_of_In, nth_In. by apply Nat.mod_upper_bound.
Qed.

Lemma GetSettledAt_calm e t p :
  calm e -> settledIn t p ≠ [] -> is_ok (GetSettledAtByPaymentHash e t p) = true.
Proof.
  intros Hc Hn. unfold GetSettledAtByPaymentHash.
  assert (E : exists a, noRows (GetSettledAt (first_row e) p t) = Ok a).
  { unfold settledIn, GetSettledAt in *. destruct (filter _ (rows t)) as [|r l]; [done|]. by eexists. }
  destruct E as (a & E). by rewrite (read_calm e (fun t => noRows (GetSettledAt (first_row e) p t)) t a Hc E).
Qed.

(** A lookup without a row fails on a database that works with an error that
    [errors.Is] recognises as [ErrSecretNotFound]. *)
Lemma GetSecret_missing e t i :
  calm e -> heldIn t i = None ->
  exists er, GetSecret e t i = Err er /\ errors_is er ErrSecretNotFound = true.
Proof.
  intros Hc E. unfold GetSecret, ExecTx, DefaultNumTxRetries.
  unfold heldIn in E. destruct (filter _ (rows t)) as [|r l] eqn:Ef; [|done].
  assert (En : noRows (GetSecretByIdHash i t) = Err ErrSecretNotFound)
    by (unfold GetSecretByIdHash; by rewrite Ef).
  rewrite execAttempts_clean; [|apply Hc|].
  - rewrite En. cbn. eexists. split; [done|]. apply errors_is_wrap, errors_is_refl.
  - intros db' er. rewrite En. by intros [= _ <-].
Qed.

End SecretsStore.

(** ** The database store implements the interface

    A running store is the table and the worlds of its calls: a writing call moves on
    to the next one, and the reading calls in between are met by the present one. *)
Module DBStore.
Import SecretsDB Running.

Abbreviation store := (running table SecretsStore.env).

Definition present (s : store) : SecretsStore.env := world s (calls s).

#[global] Instance db_store `{Zone} : SecretStore store := {|
  NewSecret s i p := update s (SecretsStore.NewSecret (present s) (tbl s) i p);
  GetSecret s i := SecretsStore.GetSecret (present s) (tbl s) i;
  RevokeSecret s i := update s (SecretsStore.RevokeSecret (present s) (tbl s) i);
  SetSettledAtByPaymentHash s p a :=
    update s (SecretsStore.SetSettledAtByPaymentHash (present s) (tbl s) p a);
  GetSettledAtByPaymentHash s p := SecretsStore.GetSettledAtByPaymentHash (present s) (tbl s) p;
  held s i := SecretsStore.heldIn (tbl s) i;
  settlements s p := SecretsStore.settledIn (tbl s) p;
  readBack := timestamp
|}.

(** On a database that works a read with an answer is answered. *)
Lemma calm_answering `{Zone} (s : store) : SecretsStore.calm (present s) -> answering s.
Proof.
  intros Hs. split; [intros i k; by apply SecretsStore.GetSecret_calm|intros p; by apply SecretsStore.GetSettledAt_calm].
Qed.

Lemma filter_fresh i (l : list row) :
  i ∉ (MacaroonIDHash <$> l) -> filter (fun r => MacaroonIDHash r = i) l = [].
Proof.
  induction l as [|r l IH]; [done|]. rewrite fmap_cons, filter_cons. intros H.
  apply not_elem_of_cons in H as [H1 H2]. rewrite decide_False by congruence. auto.
Qed.

Lemma filter_deleted i j (l : list row) :
  filter (fun r => MacaroonIDHash r = j) (filter (fun r => MacaroonIDHash r ≠ i) l)
  = if decide (i = j) then [] else filter (fun r => MacaroonIDHash r = j) l.
Proof.
  induction l as [|r l IH]; [by case_decide|].
  rewrite !filter_cons. repeat case_decide; rewrite ?filter_cons, ?IH;
    repeat case_decide; congruence.
Qed.

Lemma filter_kept i (l : list row) :
  i ∉ (MacaroonIDHash <$> l) -> filter (fun r => MacaroonIDHash r ≠ i) l = l.
Proof.
  induction l as [|r l IH]; [done|]. rewrite fmap_cons, filter_cons. intros H.
  apply not_elem_of_cons in H as [H1 H2]. rewrite decide_True by congruence. by rewrite IH.
Qed.

(** What the queries make of the contents. *)
Lemma held_added t i p k c j :
  i ∉ (MacaroonIDHash <$> rows t) -> is_array 32 k ->
  SecretsStore.heldIn (added t i p k c) j = if decide (i = j) then Some k else SecretsStore.heldIn t j.
Proof.
  intros Hi Hk. unfold SecretsStore.heldIn, added. cbn [rows]. rewrite filter_app. case_decide as Hj.
  - subst j. rewrite filter_fresh, (filter_cons_True _ _ []) by done.
    unfold fmap, option_fmap, option_map, head. cbn [filter list_filter app Secret]. by rewrite copy_array_id.
  - by rewrite (filter_cons_False _ _ []), filter_nil, app_nil_r by done.
Qed.

Lemma settled_added t i p k c q :
  SecretsStore.settledIn (added t i p k c) q =
    SecretsStore.settledIn t q ++ (if decide (p = q) then [None] else []).
Proof.
  unfold SecretsStore.settledIn, added. cbn [rows]. rewrite filter_app, fmap_app, filter_cons.
  cbn [PaymentHash]. by case_decide.
Qed.

Lemma held_deleted t i j :
  SecretsStore.heldIn (DeleteSecretByIdHash i t).1 j = if decide (i = j) then None else SecretsStore.heldIn t j.
Proof.
  unfold SecretsStore.heldIn, DeleteSecretByIdHash. cbn [rows fst]. rewrite filter_deleted. by case_decide.
Qed.

Lemma settled_rolled_back t i p k c q :
  i ∉ (MacaroonIDHash <$> rows t) ->
  SecretsStore.settledIn (DeleteSecretByIdHash i (added t i p k c)).1 q = SecretsStore.settledIn t q.
Proof.
  intros Hi. unfold SecretsStore.settledIn, DeleteSecretByIdHash, added. cbn [rows fst].
  rewrite filter_app, (filter_cons_False _ _ []) by (cbn; tauto). by rewrite filter_kept, app_nil_r.
Qed.

Lemma held_set `{Zone} t p a i :
  SecretsStore.heldIn (SetSettledAt p a t).1 i = SecretsStore.heldIn t i.
Proof.
  unfold SecretsStore.heldIn, SetSettledAt. cbn [rows fst]. rewrite filter_settle_id.
  destruct (filter _ _) as [|r rs]; [done|]. cbn. by rewrite settle_secret.
Qed.

Lemma settled_set `{Zone} t p a q :
  SecretsStore.settledIn (SetSettledAt p a t).1 q =
    if decide (p = q) then (fun _ => timestamp <$> a) <$> SecretsStore.settledIn t q
    else SecretsStore.settledIn t q.
Proof.
  unfold SecretsStore.settledIn, SetSettledAt. cbn [rows fst]. rewrite filter_settle_payment.
  induction (rows t) as [|r l IH]; [by case_decide|]. rewrite !filter_cons.
  destruct (decide (PaymentHash r = q)) as [Hq|Hq]; [|exact IH].
  cbn [fmap list_fmap] in *. rewrite IH. unfold settle.
  destruct (decide (p = q)); [rewrite decide_True by congruence|rewrite decide_False by congruence]; done.
Qed.

(** A call that answers made the change of its query, one that fails made none. *)
Ltac open_calls :=
  repeat match goal with
  | E : SecretsStore.NewSecret _ _ _ _ = (_, Ok _) |- _ =>
      apply SecretsStore.NewSecret_stored in E as (? & ? & _ & E)
  | E : SecretsStore.NewSecret _ _ _ _ = (_, _), Hf : is_ok _ = false |- _ =>
      apply SecretsStore.NewSecret_fails in E; [|done]
  | E : SecretsStore.RevokeSecret _ _ _ = (_, _) |- _ =>
      apply SecretsStore.RevokeSecret_cases in E as [[? E]|[? E]]
  | E : SecretsStore.SetSettledAtByPaymentHash _ _ _ _ = (_, _) |- _ =>
      apply SecretsStore.SetSettledAt_cases in E as [[? E]|[? E]]
  end; simplify_eq; try done.

#[global] Instance db_store_laws `{Zone} : SecretStoreLaws store.
Proof.
  split; intros s; intros; unfold same_contents; cbn [NewSecret GetSecret RevokeSecret SetSettledAtByPaymentHash
    GetSettledAtByPaymentHash held settlements readBack db_store] in *; open_updates; open_calls;
    repeat match goal with E : tbl _ = _ |- _ => rewrite E; clear E end; try done.
  - by eapply SecretsStore.GetSecret_heldIn.
  - by eapply SecretsStore.GetSettledAt_settledIn.
  - unfold SecretsStore.heldIn. by rewrite filter_fresh.
  - by rewrite held_added, decide_True.
  - by rewrite held_added, decide_False.
  - apply settled_added.
  - by rewrite held_deleted, decide_True.
  - by rewrite held_deleted, decide_False.
  - by apply settled_rolled_back.
  - apply held_set.
  - by rewrite settled_set, decide_True.
  - by rewrite settled_set, decide_False.
Qed.
End DBStore.

(** ** Properties *)
Module SecretsProperties.
Import SecretsDB SecretsStore.

Lemma timestamp_nanos `{Zone} u :
  sane u -> - 86400 <= utcOffset u <= 86400 ->
  nanos (timestamp u) = (nanos u + utcOffset u * Second) / 1000 * 1000.
Proof.
  intros Hu Ho. destruct (Add_nanos u (utcOffset u * Second) Hu) as [Hn _].
  { unfold is_i64, minInt64, maxInt64, Second. lia. }
  rewrite <- Hn. unfold timestamp, nanos, Second. cbn [t_sec t_nsec]. zlia.
Qed.

(** C32: the database store keeps what the mint and the challenger are promised,
    whatever the database does to its transactions: a new secret is 32 bytes and is
    kept under its identifier, other secrets are untouched, a failed call changes
    nothing, a revoked secret is gone, a rolled back minting leaves the settlements
    as they were, and a settlement is written to every row of its payment hash and to
    no other row.  A read may fail; when it answers, with one of the rows of a payment
    hash that has several, it answers from the table, and on a database that works it
    answers.  A settlement is read back as an instant that is off by the distance of
    the server's time zone from UTC, and cut to microseconds. *)
Theorem database_implements_SecretStore `{Zone} :
  SecretStoreLaws DBStore.store /\
  (forall s : DBStore.store, calm (DBStore.present s) -> answering s) /\
  (forall u, sane u -> - 86400 <= utcOffset u <= 86400 ->
     nanos (readBack (S := DBStore.store) u) = (nanos u + utcOffset u * Second) / 1000 * 1000).
Proof.
  split; [apply _|]. split; [exact DBStore.calm_answering|exact timestamp_nanos].
Qed.

(** A server nine hours east of UTC: its settlements read nine hours late. *)
Definition tokyo : Zone := fun _ => 32400.
Definition toy_present : SecretsStore.env := {|
  rand_Read := Ok (replicate 32 Byte.x11); clock_Now := Unix 0; attempts _ := clean; first_row := 7 |}.
Definition toy_store : DBStore.store := {|
  Running.tbl := (SetSettledAt (H := tokyo) [Byte.x02] (Some (Unix 1010))
                   (added (added {| rows := []; nextId := 0 |} [Byte.x01] [Byte.x02] [Byte.x05] (Unix 0))
                      [Byte.x03] [Byte.x02] [Byte.x06] (Unix 0))).1;
  Running.world _ := toy_present; Running.calls := 0 |}.

Lemma database_implements_SecretStore_witness :
  is_ok (@Secrets.GetSettledAtByPaymentHash _ (DBStore.db_store (H := tokyo)) toy_store [Byte.x02]) = true /\
  nanos (@readBack _ (DBStore.db_store (H := tokyo)) (Unix 1010))
    = nanos (Unix 1010) + 9 * 3600 * Second.
Proof.
  destruct (database_implements_SecretStore (H := tokyo)) as (_ & Ha & Hr). split.
  - apply (Ha toy_store); [intros i; reflexivity|discriminate].
  - rewrite Hr; [reflexivity| |vm_compute; split; discriminate].
    apply (bool_decide_unpack _). vm_compute. exact I.
Defined.
End SecretsProperties.
