(* ===== verification/Mint.v ===== *)
(** * The mint: [mint/mint.go]

    [MintL402] and [VerifyL402] against the three interfaces the mint is
    configured with: the store of secrets, the challenger and the service
    limiter.  A call threads the state of the secret store; the random bytes it
    draws and the instant its clock shows are arguments. *)
From S2P Require Import Prelude.
From S2P Require Import GoStrings.
From S2P Require Import GoCodec.
From S2P Require Import GoTime.
From S2P Require Import Caveat.
From S2P Require Import Sha256.
From S2P Require Import Macaroon.
From S2P Require Import Identifier.
From S2P Require Import Http.
From S2P Require Import Header.
From S2P Require Import Database.
From S2P Require Import Secrets.

(** ** The interfaces *)
Class Challenger (C : Type) := {
  (* the payment request and its payment hash *)
  NewChallenge : C -> string -> Z -> outcome (string * list byte)
}.
Class ChallengerLaws (C : Type) `{!Challenger C} : Prop := {
  challenge_hash c r p inv h : NewChallenge c r p = Ok (inv, h) -> is_array 32 h
}.

Class ServiceLimiter (L : Type) := {
  ServiceCapabilities : L -> list LsatService.t -> outcome (list Caveat.t);
  ServiceConstraints : L -> list LsatService.t -> outcome (list Caveat.t);
  ServiceTimeouts : L -> list LsatService.t -> outcome (list Caveat.t)
}.

Module Mint.

Section Mint.
Context `{L402Lib}.
Context {S C L : Type} `{!SecretStore S} `{!Challenger C} `{!ServiceLimiter L}.
Implicit Types (st : S) (ch : C) (lim : L).

Definition paymentDetailsForMaxPrice (services : list LsatService.t) : string * Z :=
  foldl (fun '(recipientLud16, maxPrice) service =>
    if decide (maxPrice < LsatService.Price service)
    then (LsatService.RecipientLud16 service, LsatService.Price service)
    else (recipientLud16, maxPrice)) ("", 0) services.

(** [rand_Read] fills a [[TokenIDSize]byte]. *)
Definition generateTokenID (rand_Read : outcome (list byte)) : outcome (list byte) :=
  copy_array Identifier.TokenIDSize <$> rand_Read.

Definition createUniqueIdentifier (rand_Read : outcome (list byte)) (paymentHash : list byte) :
    outcome (list byte) :=
  tokenID ← generateTokenID rand_Read;
  let '(buf, err) := Identifier.EncodeIdentifier
    {| Identifier.Version := Identifier.LatestVersion;
       Identifier.PaymentHash := paymentHash;
       Identifier.TokenID := tokenID |} in
  _ ← err;
  Ok buf.

Definition caveatsForServices lim (services : list LsatService.t) : outcome (list Caveat.t) :=
  servicesCaveat ← LsatService.NewServicesCaveat services;
  capabilities ← ServiceCapabilities lim services;
  constraints ← ServiceConstraints lim services;
  timeouts ← ServiceTimeouts lim services;
  Ok ([servicesCaveat] ++ capabilities ++ constraints ++ timeouts).

(** What follows the creation of the secret: it fails as a whole. *)
Definition bakeL402 lim (secret id : list byte) (services : list LsatService.t) :
    outcome macaroon :=
  mac ← mac_New secret id "lsat";
  caveats ← match services with [] => Ok [] | _ => caveatsForServices lim services end;
  AddFirstPartyCaveats mac caveats.

(** Every failure after [NewSecret] revokes the secret and ignores how that went. *)
Definition MintL402 ch lim (rand_Read : outcome (list byte)) st
    (services : list LsatService.t) : S * outcome (macaroon * string) :=
  let '(recipientLud16, price) := paymentDetailsForMaxPrice services in
  match NewChallenge ch recipientLud16 price with
  | Ok (paymentRequest, paymentHash) =>
      match createUniqueIdentifier rand_Read paymentHash with
      | Ok id =>
          let idHash := Sum256 id in
          match NewSecret st idHash paymentHash with
          | (st1, Ok secret) =>
              match bakeL402 lim secret id services with
              | Ok mac => (st1, Ok (mac, paymentRequest))
              | Err e => ((RevokeSecret st1 idHash).1, Err e)
              | Panic m => (st1, Panic m)
              end
          | (st1, Err e) => (st1, Err e)
          | (st1, Panic m) => (st1, Panic m)
          end
      | Err e => (st, Err e)
      | Panic m => (st, Panic m)
      end
  | Err e => (st, Err e)
  | Panic m => (st, Panic m)
  end.

Record VerificationParams := {
  vpMacaroon : macaroon;
  vpPreimage : list byte;
  vpTargetService : string
}.

(** Caveats that do not decode are skipped. *)
Definition decodable (rawCaveats : list string) : list Caveat.t :=
  omap (fun raw => match Caveat.DecodeCaveat raw with Ok c => Some c | _ => None end) rawCaveats.

Definition satisfiers (target : string) (now : time) : list Caveat.Satisfier :=
  [Satisfiers.NewServicesSatisfier target; Satisfiers.NewTimeoutSatisfier target now].

Definition VerifyL402 st (now : time) (params : VerificationParams) : outcome unit :=
  id ← Identifier.DecodeIdentifier (mac_Id (vpMacaroon params));
  if decide (Preimage_Hash (vpPreimage params) ≠ Identifier.PaymentHash id)
  then Err (Errorf "invalid preimage")
  else
    secret ← GetSecret st (Sum256 (mac_Id (vpMacaroon params)));
    rawCaveats ← mac_VerifySignature (vpMacaroon params) secret;
    Caveat.VerifyCaveats (decodable rawCaveats)
      (satisfiers (vpTargetService params) now).
End Mint.
Arguments VerificationParams {_}.

(** ** The price *)
Lemma paymentDetails_fold services r0 p0 :
  let acc := foldl (fun '(r, m) s =>
    if decide (m < LsatService.Price s) then (LsatService.RecipientLud16 s, LsatService.Price s)
    else (r, m)) (r0, p0) services in
  p0 <= acc.2 /\ Forall (fun s => LsatService.Price s <= acc.2) services /\
  (acc = (r0, p0) \/
   exists s, s ∈ services /\ p0 < LsatService.Price s /\
             acc = (LsatService.RecipientLud16 s, LsatService.Price s)).
Proof.
  revert r0 p0; induction services as [|s services IH]; intros r0 p0.
  { cbn. split; [lia|]. split; [constructor | by left]. }
  cbn -[Z.lt]. case_decide as Hlt.
  - destruct (IH (LsatService.RecipientLud16 s) (LsatService.Price s)) as (H1 & H2 & H3).
    split; [lia|]. split; [by constructor|]. right.
    destruct H3 as [->|(s' & Hin & Hp & ->)].
    + exists s. split; [left|]. done.
    + exists s'. split; [by right|]. split; [lia|done].
  - destruct (IH r0 p0) as (H1 & H2 & H3).
    split; [lia|]. split; [constructor; [lia|done]|].
    destruct H3 as [->|(s' & Hin & Hp & ->)]; [by left|]. right.
    exists s'. split; [by right|]. done.
Qed.

(** ** Minting *)
Section MintFacts.
Context `{L402Lib} `{!L402Laws}.
Context {S C L : Type} `{!SecretStore S} `{!SecretStoreLaws S}
        `{!Challenger C} `{!ChallengerLaws C} `{!ServiceLimiter L}.
Implicit Types (st : S) (ch : C) (lim : L).

Lemma createUniqueIdentifier_Ok rnd h i :
  is_array 32 h -> createUniqueIdentifier rnd h = Ok i ->
  exists tid, is_array 32 tid /\
    Identifier.DecodeIdentifier i =
      Ok {| Identifier.Version := 0; Identifier.PaymentHash := h; Identifier.TokenID := tid |}.
Proof.
  unfold createUniqueIdentifier, generateTokenID. intros Hh E.
  apply bind_Ok_inv in E as (tid & Et & E).
  assert (Ht : is_array 32 tid).
  { destruct rnd; [|done..]. cbn [fmap outcome_fmap] in Et.
    apply (inj Ok) in Et as <-. apply copy_array_length. }
  exists tid. split; [done|].
  rewrite <- (Identifier.decode_encode
    {| Identifier.Version := 0; Identifier.PaymentHash := h; Identifier.TokenID := tid |}).
  - destruct (Identifier.EncodeIdentifier _) as [buf r] eqn:Ee.
    apply bind_Ok_inv in E as (u & _ & E). by apply (inj Ok) in E as <-.
  - done.
  - done.
Qed.

Lemma bakeL402_Ok lim secret i services mac :
  bakeL402 lim secret i services = Ok mac ->
  mac_Id mac = i /\
  exists cs, match services with [] => Ok [] | _ => caveatsForServices lim services end = Ok cs /\
             mac_VerifySignature mac secret = Ok (Caveat.EncodeCaveat <$> cs).
Proof.
  unfold bakeL402. intros E. apply bind_Ok_inv in E as (m0 & E0 & E).
  apply bind_Ok_inv in E as (cs & Ec & E). split.
  - destruct (AddFirstPartyCaveats_spec _ _ _ E) as [-> _]. by eapply New_Id.
  - exists cs. split; [done|].
    by rewrite (AddFirstPartyCaveats_verify _ _ _ _ _ E (Verify_New _ _ _ _ E0)).
Qed.

(** A minted token: its identifier carries the payment hash of the challenge,
    its secret is in the store, its signature verifies and reports exactly the
    caveats of its services. *)
Lemma MintL402_Ok ch lim rnd st services st' mac payreq :
  MintL402 ch lim rnd st services = (st', Ok (mac, payreq)) ->
  exists h tid secret cs,
    let '(recipient, price) := paymentDetailsForMaxPrice services in
    NewChallenge ch recipient price = Ok (payreq, h) /\
    is_array 32 h /\
    Identifier.DecodeIdentifier (mac_Id mac) =
      Ok {| Identifier.Version := 0; Identifier.PaymentHash := h; Identifier.TokenID := tid |} /\
    NewSecret st (Sum256 (mac_Id mac)) h = (st', Ok secret) /\
    mac_VerifySignature mac secret = Ok (Caveat.EncodeCaveat <$> cs) /\
    match services with [] => Ok [] | _ => caveatsForServices lim services end = Ok cs.
Proof.
  unfold MintL402. destruct (paymentDetailsForMaxPrice services) as [recipient price].
  destruct (NewChallenge ch recipient price) as [[inv h]| |] eqn:Ec; [|done..].
  pose proof (challenge_hash _ _ _ _ _ Ec) as Hh.
  destruct (createUniqueIdentifier rnd h) as [i| |] eqn:Ei; [|done..].
  destruct (NewSecret st (Sum256 i) h) as [st1 [secret| |]] eqn:En; [|done..].
  destruct (bakeL402 lim secret i services) as [m| |] eqn:Eb; [|done..].
  intros [= <- <- <-].
  apply createUniqueIdentifier_Ok in Ei as (tid & Ht & Ed); [|done].
  apply bakeL402_Ok in Eb as (Hid & cs & Hcs & Hv).
  exists h, tid, secret, cs. rewrite Hid. done.
Qed.

(** A failed minting leaves no secret behind when the store can revoke. *)
Lemma MintL402_Err ch lim rnd st services st' e j :
  (forall i h, is_ok (RevokeSecret (NewSecret st i h).1 i).2 = true) ->
  MintL402 ch lim rnd st services = (st', Err e) ->
  held st' j = held st j.
Proof.
  unfold MintL402. intros Hrev. destruct (paymentDetailsForMaxPrice services) as [recipient price].
  destruct (NewChallenge ch recipient price) as [[inv h]| |] eqn:Ec; [|naive_solver..].
  destruct (createUniqueIdentifier rnd h) as [i| |] eqn:Ei; [|naive_solver..].
  destruct (NewSecret st (Sum256 i) h) as [st1 [secret|e1|]] eqn:En; [| |done].
  2: { intros [= <- <-]. by eapply new_fails. }
  destruct (bakeL402 lim secret i services) as [m|e2|] eqn:Eb; [done| |done].
  intros [= <- <-]. specialize (Hrev (Sum256 i) h).
  rewrite En in Hrev. cbn [fst] in Hrev.
  destruct (RevokeSecret st1 (Sum256 i)) as [st2 r] eqn:Er. cbn [fst snd] in *.
  destruct (decide (Sum256 i = j)) as [<-|Hne].
  - rewrite (new_fresh _ _ _ _ _ En). destruct r as [[]| |]; [|done..]. by eapply revoke_get.
  - rewrite (revoke_other _ _ _ _ j Er Hne). by eapply new_other.
Qed.

(** The challenger never makes an invoice with this payment hash. *)
Definition never (ch : C) (q : list byte) : Prop :=
  forall recipient price inv, NewChallenge ch recipient price ≠ Ok (inv, q).

(** What is left alone: the secrets that are there, what has a row, and the
    settlements of the hashes in [Q]. *)
Record undisturbed (Q : list byte -> Prop) (st st' : S) : Prop := {
  undisturbed_held j : is_Some (held st j) -> held st' j = held st j;
  undisturbed_row q : settlements st q ≠ [] -> settlements st' q ≠ [];
  undisturbed_settled q : Q q -> settlements st' q = settlements st q
}.

Lemma undisturbed_same Q st st' : same_contents st st' -> undisturbed Q st st'.
Proof. intros [Hh Hs]. split; intros; by rewrite ?Hh, ?Hs. Qed.

Lemma undisturbed_refl Q st : undisturbed Q st st.
Proof. by apply undisturbed_same. Qed.

Lemma NewSecret_undisturbed st i h st1 r :
  NewSecret st i h = (st1, r) -> undisturbed (fun q => h ≠ q) st st1.
Proof.
  intros En. destruct (is_ok r) eqn:Hr.
  2: { apply undisturbed_same. by eapply new_fails. }
  destruct r as [k| |]; [|done..].
  split; [intros j Hj|intros q Hq|intros q Hq].
  - eapply new_other; [exact En|]. intros <-. rewrite (new_fresh _ _ _ _ _ En) in Hj. by destruct Hj.
  - rewrite (new_settlement _ _ _ _ _ q En). by destruct (settlements st q).
  - by rewrite (new_settlement _ _ _ _ _ q En), decide_False, app_nil_r.
Qed.

Lemma MintL402_undisturbed ch lim rnd st services :
  undisturbed (never ch) st (MintL402 ch lim rnd st services).1.
Proof.
  unfold MintL402. destruct (paymentDetailsForMaxPrice services) as [recipient price].
  destruct (NewChallenge ch recipient price) as [[inv h]| |] eqn:Ec; [|apply undisturbed_refl..].
  destruct (createUniqueIdentifier rnd h) as [i| |]; [|apply undisturbed_refl..].
  destruct (NewSecret st (Sum256 i) h) as [st1 r] eqn:En.
  assert (Hu : undisturbed (never ch) st st1).
  { destruct (NewSecret_undisturbed _ _ _ _ _ En) as [H1 H2 H3]. split; [exact H1|exact H2|].
    intros q Hq. apply H3. intros ->. by apply (Hq recipient price inv). }
  destruct r as [secret| |]; [|exact Hu..].
  destruct (bakeL402 lim secret i services) as [m| |]; [exact Hu| |exact Hu].
  destruct (RevokeSecret st1 (Sum256 i)) as [st2 r] eqn:Er. cbn [fst].
  destruct (is_ok r) eqn:Hr.
  - destruct r as [[]| |]; [|done..].
    split; intros j Hj; rewrite ?(rollback_settled _ _ _ _ _ _ j En Er); try done.
    rewrite (revoke_other _ _ _ _ j Er); [by apply Hu|].
    intros <-. rewrite (new_fresh _ _ _ _ _ En) in Hj. by destruct Hj.
  - destruct (revoke_fails _ _ _ _ Er Hr) as [Hh Hs], Hu as [H1 H2 H3].
    split; intros j Hj; rewrite ?Hh, ?Hs; auto.
Qed.

(** ** Verification *)
Lemma timeout_key_ne target :
  LsatService.CondServices ≠ target +:+ LsatService.CondTimeoutSuffix.
Proof.
  intros E. apply (f_equal String.length) in E. rewrite string_length_app in E. cbn in E. lia.
Qed.

(** The two satisfiers work on different conditions. *)
Lemma VerifyCaveats_two cs target now :
  Caveat.VerifyCaveats cs (satisfiers target now) = Ok tt <->
  Caveat.condition_ok (Satisfiers.NewServicesSatisfier target)
    (Caveat.select LsatService.CondServices cs) /\
  Caveat.condition_ok (Satisfiers.NewTimeoutSatisfier target now)
    (Caveat.select (target +:+ LsatService.CondTimeoutSuffix) cs).
Proof.
  unfold Caveat.VerifyCaveats. rewrite Caveat.VerifyCaveatsIn_Ok by (unfold Caveat.iteration_order; reflexivity).
  assert (Hl : forall k, Caveat.caveatSatisfiers (satisfiers target now) !! k =
    if decide (target +:+ LsatService.CondTimeoutSuffix = k)
    then Some (Satisfiers.NewTimeoutSatisfier target now)
    else if decide (LsatService.CondServices = k)
         then Some (Satisfiers.NewServicesSatisfier target) else None).
  { intros k. unfold Caveat.caveatSatisfiers, satisfiers. cbn [foldl Caveat.sCondition].
    rewrite !lookup_insert, lookup_empty. done. }
  split.
  - intros Hk. split; apply Hk; rewrite Hl.
    + rewrite decide_False by (intros E; by eapply timeout_key_ne). by rewrite decide_True.
    + by rewrite decide_True.
  - intros [Hs Ht] k s. rewrite Hl. repeat case_decide; naive_solver.
Qed.

Lemma VerifyL402_Ok st now params :
  VerifyL402 st now params = Ok tt <->
  exists id secret raw,
    Identifier.DecodeIdentifier (mac_Id (vpMacaroon params)) = Ok id /\
    Preimage_Hash (vpPreimage params) = Identifier.PaymentHash id /\
    GetSecret st (Sum256 (mac_Id (vpMacaroon params))) = Ok secret /\
    mac_VerifySignature (vpMacaroon params) secret = Ok raw /\
    Caveat.VerifyCaveats (decodable raw) (satisfiers (vpTargetService params) now) = Ok tt.
Proof.
  unfold VerifyL402. split.
  - intros E. apply bind_Ok_inv in E as (id & Ed & E). case_decide as Hp; [done|].
    apply bind_Ok_inv in E as (secret & Es & E). apply bind_Ok_inv in E as (raw & Er & E).
    exists id, secret, raw. destruct (decide (Preimage_Hash (vpPreimage params) = Identifier.PaymentHash id)); done.
  - intros (id & secret & raw & -> & Hp & -> & Er & Ev). cbn [mbind outcome_bind].
    rewrite decide_False by (by intros []). by rewrite Er.
Qed.

Lemma decodable_app a b : decodable (a ++ b) = decodable a ++ decodable b.
Proof. apply omap_app. Qed.

Lemma decodable_encode cs :
  Forall (fun c => lacks "=" (Caveat.Condition c) = true) cs ->
  decodable (Caveat.EncodeCaveat <$> cs) = cs.
Proof.
  induction 1 as [|c cs Hc Hcs IH]; [done|]. unfold decodable in *. cbn [fmap list_fmap omap list_omap].
  rewrite Caveat.DecodeCaveat_EncodeCaveat by done. by rewrite IH.
Qed.

(** Restricting a token never makes it acceptable. *)
Lemma VerifyCaveats_prefix a b target now :
  Caveat.VerifyCaveats (decodable (a ++ b)) (satisfiers target now) = Ok tt ->
  Caveat.VerifyCaveats (decodable a) (satisfiers target now) = Ok tt.
Proof.
  rewrite decodable_app. apply Satisfiers.verify_prefix; [|unfold Caveat.iteration_order; reflexivity..].
  repeat constructor.
  - apply Satisfiers.services_attenuating.
  - apply Satisfiers.timeout_attenuating.
Qed.

(** A single caveat of its condition is checked by [SatisfyFinal] alone. *)
Lemma condition_ok_single s c :
  Caveat.condition_ok s [c] <-> Caveat.SatisfyFinal s c = Ok tt.
Proof.
  unfold Caveat.condition_ok, Caveat.verifyCondition. cbn. split; [|by right]. by intros [|].
Qed.

Lemma NewServicesCaveat_Ok services c :
  LsatService.NewServicesCaveat services = Ok c ->
  Caveat.Condition c = LsatService.CondServices /\
  LsatService.encodeServicesCaveatValue services = Ok (Caveat.Value c).
Proof.
  unfold LsatService.NewServicesCaveat. intros E. apply bind_Ok_inv in E as (v & -> & E).
  by apply (inj Ok) in E as <-.
Qed.

Lemma names_of_forget services :
  Satisfiers.names_of (LsatService.forget <$> services) = LsatService.Name <$> services.
Proof. unfold Satisfiers.names_of. rewrite <- list_fmap_compose. done. Qed.

Lemma services_final services c target :
  Forall LsatService.plain services -> LsatService.NewServicesCaveat services = Ok c ->
  Caveat.SatisfyFinal (Satisfiers.NewServicesSatisfier target) c = Ok tt <->
  target ∈ (LsatService.Name <$> services).
Proof.
  intros Hp [_ Hv]%NewServicesCaveat_Ok. cbn.
  rewrite (LsatService.services_roundtrip _ _ Hp Hv). cbn [mbind outcome_bind].
  rewrite names_of_forget. case_decide; naive_solver.
Qed.

(** The caveats a limiter may add without touching the list of services. *)
Definition foreign (c : Caveat.t) : Prop :=
  lacks "=" (Caveat.Condition c) = true /\ Caveat.Condition c ≠ LsatService.CondServices.

Lemma select_foreign cs :
  Forall foreign cs -> Caveat.select LsatService.CondServices cs = [].
Proof.
  induction 1 as [|c cs [_ Hc] Hcs IH]; [done|]. unfold Caveat.select in *.
  by rewrite filter_cons_False.
Qed.

Lemma caveatsForServices_Ok lim services cs :
  caveatsForServices lim services = Ok cs ->
  exists c caps cons_ tos,
    LsatService.NewServicesCaveat services = Ok c /\
    ServiceCapabilities lim services = Ok caps /\
    ServiceConstraints lim services = Ok cons_ /\
    ServiceTimeouts lim services = Ok tos /\
    cs = c :: caps ++ cons_ ++ tos.
Proof.
  unfold caveatsForServices. intros E.
  apply bind_Ok_inv in E as (c & Ec & E). apply bind_Ok_inv in E as (caps & Ecap & E).
  apply bind_Ok_inv in E as (cons_ & Econs & E). apply bind_Ok_inv in E as (tos & Eto & E).
  apply (inj Ok) in E as <-. by exists c, caps, cons_, tos.
Qed.

(** What the verification of the minted caveats amounts to. *)
Lemma minted_caveats_verify services c rest target now :
  Forall LsatService.plain services -> LsatService.NewServicesCaveat services = Ok c ->
  Forall foreign rest ->
  Caveat.VerifyCaveats (decodable (Caveat.EncodeCaveat <$> (c :: rest))) (satisfiers target now)
    = Ok tt <->
  target ∈ (LsatService.Name <$> services) /\
  Caveat.condition_ok (Satisfiers.NewTimeoutSatisfier target now)
    (Caveat.select (target +:+ LsatService.CondTimeoutSuffix) rest).
Proof.
  intros Hp Hc Hf. pose proof (NewServicesCaveat_Ok _ _ Hc) as [Hcond _].
  rewrite decodable_encode.
  2: { constructor; [by rewrite Hcond|]. eapply Forall_impl; [exact Hf|]. by intros ? []. }
  rewrite VerifyCaveats_two. unfold Caveat.select at 1.
  rewrite filter_cons_True by done. fold (Caveat.select LsatService.CondServices rest).
  rewrite select_foreign, condition_ok_single by done. rewrite services_final by done.
  unfold Caveat.select at 1. rewrite filter_cons_False; [done|].
  rewrite Hcond. apply timeout_key_ne.
Qed.
(** The condition under which the time limits of a token allow a request. *)
Definition in_time (target : string) (now : time) (cs : list Caveat.t) : Prop :=
  Caveat.condition_ok (Satisfiers.NewTimeoutSatisfier target now)
    (Caveat.select (target +:+ LsatService.CondTimeoutSuffix) cs).

Lemma in_time_other target now cs c :
  Caveat.Condition c ≠ target +:+ LsatService.CondTimeoutSuffix ->
  in_time target now (cs ++ [c]) <-> in_time target now cs.
Proof.
  intros Hc. unfold in_time, Caveat.select.
  by rewrite filter_app, (filter_cons_False _ _ []), filter_nil, app_nil_r by done.
Qed.

(** A minted token with further caveats of other conditions. *)
Lemma minted_verify (ch : C) lim rnd st services st' st2 mac payreq caps cons_ tos extra mac' h p target now :
  MintL402 ch lim rnd st services = (st', Ok (mac, payreq)) ->
  services ≠ [] -> Forall LsatService.plain services ->
  ServiceCapabilities lim services = Ok caps -> ServiceConstraints lim services = Ok cons_ ->
  ServiceTimeouts lim services = Ok tos ->
  Forall foreign (caps ++ cons_ ++ tos ++ extra) ->
  AddFirstPartyCaveats mac extra = Ok mac' ->
  NewChallenge ch (paymentDetailsForMaxPrice services).1 (paymentDetailsForMaxPrice services).2
    = Ok (payreq, h) ->
  Preimage_Hash p = h ->
  held st2 (Sum256 (mac_Id mac)) = held st' (Sum256 (mac_Id mac)) ->
  is_ok (GetSecret st2 (Sum256 (mac_Id mac))) = true ->
  VerifyL402 st2 now {| vpMacaroon := mac'; vpPreimage := p; vpTargetService := target |} = Ok tt <->
  target ∈ (LsatService.Name <$> services) /\
  in_time target now (caps ++ cons_ ++ tos ++ extra).
Proof.
  intros Hm Hne Hp Hcap Hcon Hto Hf Hadd Hch Hpre Hsame Hok.
  apply MintL402_Ok in Hm as (h' & tid & secret & cs & Hm).
  destruct (paymentDetailsForMaxPrice services) as [recipient price]. cbn [fst snd] in Hch.
  destruct Hm as (Hch' & _ & Hid & Hnew & Hsig & Hcs).
  rewrite Hch' in Hch. injection Hch as ->.
  assert (Hcs' : caveatsForServices lim services = Ok cs) by by destruct services.
  apply caveatsForServices_Ok in Hcs' as (c & caps' & cons' & tos' & Hc & H1 & H2 & H3 & ->).
  rewrite Hcap in H1. rewrite Hcon in H2. rewrite Hto in H3. simplify_eq.
  assert (Hget : GetSecret st2 (Sum256 (mac_Id mac)) = Ok secret).
  { rewrite (new_get _ _ _ _ _ Hnew) in Hsame.
    destruct (GetSecret st2 _) as [k| |] eqn:E; [|done..]. apply get_held in E. congruence. }
  destruct (AddFirstPartyCaveats_spec _ _ _ Hadd) as [Hmid _].
  pose proof (AddFirstPartyCaveats_verify _ _ _ _ _ Hadd Hsig) as Hver.
  rewrite <- fmap_app, <- app_comm_cons, <- !app_assoc in Hver.
  rewrite VerifyL402_Ok. cbn [vpMacaroon vpPreimage vpTargetService]. rewrite Hmid, Hget, Hid.
  unfold in_time. rewrite <- (minted_caveats_verify services c _ target now Hp Hc Hf).
  split.
  - by intros (id & sec & raw & [= <-] & _ & [= <-] & [= <-]%(eq_trans (eq_sym Hver)) & Hv).
  - intros Hv. by eexists _, _, _.
Qed.
End MintFacts.
End Mint.

(** ** A toy world: the library of [ToyLib], the database store, a challenger that
    knows its preimage, a limiter with one capability and one timeout *)
Module ToyMint.
Section Toy.
#[local] Existing Instance ToyLib.lib.
#[local] Existing Instance ToyLib.laws.

(** A server whose time zone is UTC. *)
#[global] Instance toy_zone : SecretsDB.Zone := fun _ => 0.

Definition preimage : list byte := replicate 32 Byte.x09.
#[global] Instance toy_challenger : Challenger (list byte) :=
  {| NewChallenge p _ _ := Ok ("lnbc1", Sum256 p) |}.
#[global] Instance toy_challenger_laws : ChallengerLaws (list byte).
Proof. split. intros c r p inv h [= _ <-]. apply Sum256_length. Qed.

#[global] Instance toy_limiter : ServiceLimiter unit := {|
  ServiceCapabilities _ _ := Ok [LsatService.NewCapabilitiesCaveat "loop" "all"];
  ServiceConstraints _ _ := Ok [];
  ServiceTimeouts _ _ := Ok [LsatService.NewTimeoutCaveat "loop" 100 (Unix 1000)]
|}.

Definition store : DBStore.store := {|
  Running.tbl := {| SecretsDB.rows := []; SecretsDB.nextId := 0 |};
  Running.world _ := {| SecretsStore.rand_Read := Ok (replicate 32 Byte.x11);
                        SecretsStore.clock_Now := Unix 1000; SecretsStore.attempts _ := clean;
                        SecretsStore.first_row := 0 |};
  Running.calls := 0
|}.
Definition service : LsatService.t := {|
  LsatService.Name := "loop"; LsatService.Tier := 0;
  LsatService.RecipientLud16 := "a@b.c"; LsatService.Price := 21 |}.
Definition rand : outcome (list byte) := Ok (replicate 32 Byte.x22).

Definition minted := Mint.MintL402 preimage tt rand store [service].
Definition store' : DBStore.store := minted.1.
Definition mac : macaroon :=
  match minted.2 with
  | Ok (m, _) => m
  | _ => {| ToyLib.tId := []; ToyLib.tSig := []; ToyLib.tCavs := [] |}
  end.

Lemma minted_Ok : minted = (store', Ok (mac, "lnbc1")).
Proof. reflexivity. Qed.

(** The token with its preimage caveat, as a client sends it. *)
Definition preimageCaveat : Caveat.t :=
  Caveat.NewCaveat Caveat.PreimageKey (Preimage_String preimage).
Definition paidMac : macaroon :=
  match AddFirstPartyCaveats mac [preimageCaveat] with Ok m => m | _ => mac end.
End Toy.
End ToyMint.

(** ** Properties *)
Module MintProperties.
Import Mint.

(** The price of a token is the highest of its services' prices, never
    negative, and the recipient is that of a service with this price. *)
Theorem price_is_maximum services recipient price :
  paymentDetailsForMaxPrice services = (recipient, price) ->
  0 <= price /\ Forall (fun s => LsatService.Price s <= price) services /\
  ((recipient, price) = ("", 0) \/
   exists s, s ∈ services /\ 0 < price /\
     LsatService.RecipientLud16 s = recipient /\ LsatService.Price s = price).
Proof.
  intros E. destruct (paymentDetails_fold services "" 0) as (H1 & H2 & H3).
  unfold paymentDetailsForMaxPrice in E. rewrite E in *. cbn [snd] in *.
  split; [done|]. split; [done|]. destruct H3 as [|(s & Hs & Hp & [= -> ->])]; [by left|right].
  by exists s.
Qed.

Lemma price_is_maximum_witness :
  Forall (fun s => LsatService.Price s <= 9) CaveatProperties.two_services.
Proof. apply (price_is_maximum CaveatProperties.two_services "" 9). reflexivity. Defined.

(** C18: a minted token, with whatever further caveats of other conditions its
    holder adds, verifies with the preimage of its invoice for exactly the
    services it was minted for, while its time limits allow it, whenever the store
    still holds its secret and answers the lookup.  This is for services
    whose names are plain (not empty, without [:] and [,], the separators of the
    services caveat, which the code does not escape) and a limiter that adds no
    services caveat of its own and no condition with an equals sign. *)
Theorem minted_token_verifies `{L402Lib} `{!L402Laws} {S C L : Type} `{!SecretStore S}
    `{!SecretStoreLaws S} `{!Challenger C} `{!ChallengerLaws C} `{!ServiceLimiter L}
    (ch : C) (lim : L) rnd (st : S) services st' st2 mac payreq caps cons_ tos extra mac' h p target now :
  MintL402 ch lim rnd st services = (st', Ok (mac, payreq)) ->
  services ≠ [] -> Forall LsatService.plain services ->
  ServiceCapabilities lim services = Ok caps -> ServiceConstraints lim services = Ok cons_ ->
  ServiceTimeouts lim services = Ok tos ->
  Forall foreign (caps ++ cons_ ++ tos ++ extra) ->
  AddFirstPartyCaveats mac extra = Ok mac' ->
  NewChallenge ch (paymentDetailsForMaxPrice services).1 (paymentDetailsForMaxPrice services).2
    = Ok (payreq, h) ->
  Preimage_Hash p = h ->
  held st2 (Sum256 (mac_Id mac)) = held st' (Sum256 (mac_Id mac)) ->
  is_ok (GetSecret st2 (Sum256 (mac_Id mac))) = true ->
  VerifyL402 st2 now {| vpMacaroon := mac'; vpPreimage := p; vpTargetService := target |} = Ok tt <->
  target ∈ (LsatService.Name <$> services) /\
  in_time target now (caps ++ cons_ ++ tos ++ extra).
Proof. apply minted_verify. Qed.

Lemma minted_token_verifies_witness :
  @VerifyL402 ToyLib.lib _ _ ToyMint.store' (Unix 1050)
    {| vpMacaroon := ToyMint.paidMac; vpPreimage := ToyMint.preimage; vpTargetService := "loop" |} = Ok tt.
Proof.
  apply (@minted_token_verifies ToyLib.lib ToyLib.laws _ _ _ _ DBStore.db_store_laws
    _ ToyMint.toy_challenger_laws _ ToyMint.preimage tt ToyMint.rand ToyMint.store [ToyMint.service]
    ToyMint.store' ToyMint.store' ToyMint.mac "lnbc1"
    [LsatService.NewCapabilitiesCaveat "loop" "all"] []
    [LsatService.NewTimeoutCaveat "loop" 100 (Unix 1000)] [ToyMint.preimageCaveat]
    ToyMint.paidMac (Sum256 ToyMint.preimage) ToyMint.preimage "loop" (Unix 1050)).
  - apply ToyMint.minted_Ok.
  - discriminate.
  - repeat constructor; try reflexivity; discriminate.
  - reflexivity.
  - reflexivity.
  - reflexivity.
  - repeat constructor; try reflexivity; discriminate.
  - reflexivity.
  - reflexivity.
  - reflexivity.
  - reflexivity.
  - vm_compute. reflexivity.
  - split; [left|]. right. vm_compute. reflexivity.
Defined.

(** C19: whatever caveats a holder adds to a minted token, and whatever happens to
    other secrets, the token verifies only with a preimage of its invoice's hash
    and only for a service it was minted for.  As before the names of these services
    are plain and the limiter adds no services caveat of its own: a name with [,] in
    it, which may come from the path of a request, can name another service. *)
Theorem minted_token_is_confined `{L402Lib} `{!L402Laws} {S C L : Type} `{!SecretStore S}
    `{!SecretStoreLaws S} `{!Challenger C} `{!ChallengerLaws C} `{!ServiceLimiter L}
    (ch : C) (lim : L) rnd (st st1 st' : S) services mac payreq caps cons_ tos extra mac' p target now :
  MintL402 ch lim rnd st services = (st', Ok (mac, payreq)) ->
  services ≠ [] -> Forall LsatService.plain services ->
  ServiceCapabilities lim services = Ok caps -> ServiceConstraints lim services = Ok cons_ ->
  ServiceTimeouts lim services = Ok tos -> Forall foreign (caps ++ cons_ ++ tos) ->
  AddFirstPartyCaveats mac extra = Ok mac' ->
  held st1 (Sum256 (mac_Id mac)) = held st' (Sum256 (mac_Id mac)) ->
  VerifyL402 st1 now {| vpMacaroon := mac'; vpPreimage := p; vpTargetService := target |} = Ok tt ->
  target ∈ (LsatService.Name <$> services) /\
  NewChallenge ch (paymentDetailsForMaxPrice services).1 (paymentDetailsForMaxPrice services).2
    = Ok (payreq, Preimage_Hash p).
Proof.
  intros Hm Hne Hp Hcap Hcon Hto Hf Hadd Hsame Hv.
  apply MintL402_Ok in Hm as (h' & tid & secret & cs & Hm).
  destruct (paymentDetailsForMaxPrice services) as [recipient price].
  destruct Hm as (Hch' & _ & Hid & Hnew & Hsig & Hcs).
  assert (Hcs' : caveatsForServices lim services = Ok cs) by by destruct services.
  apply caveatsForServices_Ok in Hcs' as (c & caps' & cons' & tos' & Hc & H1 & H2 & H3 & ->).
  rewrite Hcap in H1. rewrite Hcon in H2. rewrite Hto in H3. simplify_eq.
  pose proof (new_get _ _ _ _ _ Hnew) as Hget.
  destruct (AddFirstPartyCaveats_spec _ _ _ Hadd) as [Hmid _].
  pose proof (AddFirstPartyCaveats_verify _ _ _ _ _ Hadd Hsig) as Hver.
  apply VerifyL402_Ok in Hv as (id & sec & raw & Hd & Hpre & Hg & Hr & Hv).
  cbn [vpMacaroon vpPreimage vpTargetService] in *. rewrite Hmid in Hd, Hg.
  rewrite Hid in Hd. injection Hd as <-. apply get_held in Hg.
  rewrite Hsame, Hget in Hg. injection Hg as <-.
  rewrite Hver in Hr. apply (inj Ok) in Hr as <-. cbn [Identifier.PaymentHash] in Hpre.
  apply VerifyCaveats_prefix in Hv.
  apply (minted_caveats_verify services c _ target now Hp Hc Hf) in Hv as [Hin _].
  cbn [fst snd]. by rewrite Hch', Hpre.
Qed.

Lemma minted_token_is_confined_witness :
  "loop" ∈ (LsatService.Name <$> [ToyMint.service]).
Proof.
  apply (@minted_token_is_confined ToyLib.lib ToyLib.laws _ _ _ _ DBStore.db_store_laws
    _ ToyMint.toy_challenger_laws _ ToyMint.preimage tt ToyMint.rand ToyMint.store ToyMint.store'
    ToyMint.store' [ToyMint.service] ToyMint.mac "lnbc1"
    [LsatService.NewCapabilitiesCaveat "loop" "all"] []
    [LsatService.NewTimeoutCaveat "loop" 100 (Unix 1000)] [ToyMint.preimageCaveat]
    ToyMint.paidMac ToyMint.preimage "loop" (Unix 1050)).
  - apply ToyMint.minted_Ok.
  - discriminate.
  - repeat constructor; try reflexivity; discriminate.
  - reflexivity.
  - reflexivity.
  - reflexivity.
  - repeat constructor; try reflexivity; discriminate.
  - reflexivity.
  - reflexivity.
  - vm_compute. reflexivity.
Defined.

(** C39: a minting that fails leaves the secrets of the store as they were, with no
    new one, in a store that can revoke, at whichever of its steps it fails. *)
Theorem failed_mint_leaves_no_secret `{L402Lib} {S C L : Type} `{!SecretStore S}
    `{!SecretStoreLaws S} `{!Challenger C} `{!ServiceLimiter L}
    (ch : C) (lim : L) rnd (st : S) services st' e j :
  (forall i h, is_ok (RevokeSecret (NewSecret st i h).1 i).2 = true) ->
  MintL402 ch lim rnd st services = (st', Err e) ->
  held st' j = held st j.
Proof. apply MintL402_Err. Qed.

(** A limiter that fails makes every minting for a service fail. *)
Definition failing_limiter : ServiceLimiter unit := {|
  ServiceCapabilities _ _ := Err (Errorf "limiter");
  ServiceConstraints _ _ := Ok [];
  ServiceTimeouts _ _ := Ok []
|}.

Lemma toy_store_revokes i h :
  is_ok (@RevokeSecret _ DBStore.db_store (@NewSecret _ DBStore.db_store ToyMint.store i h).1 i).2
  = true.
Proof.
  cbn [RevokeSecret NewSecret DBStore.db_store]. unfold Running.update at 1. cbn [snd].
  destruct (SecretsStore.RevokeSecret _ _ _) as [t r] eqn:E. cbn [snd].
  unfold SecretsStore.RevokeSecret, ExecTx, DefaultNumTxRetries in E.
  rewrite execAttempts_clean in E; [|done|done]. cbn in E. by injection E as _ <-.
Qed.

Lemma failed_mint_leaves_no_secret_witness :
  held (@MintL402 ToyLib.lib _ _ _ _ _ failing_limiter ToyMint.preimage tt ToyMint.rand
                      ToyMint.store [ToyMint.service]).1 (replicate 32 Byte.x00)
  = held ToyMint.store (replicate 32 Byte.x00).
Proof.
  apply (@failed_mint_leaves_no_secret ToyLib.lib _ _ _ _ DBStore.db_store_laws _
           failing_limiter ToyMint.preimage tt ToyMint.rand ToyMint.store [ToyMint.service] _
           (Errorf "limiter")).
  - apply toy_store_revokes.
  - vm_compute. reflexivity.
Defined.

(** After the secret of a token has been revoked, no preimage and no caveats
    make the token verify. *)
Theorem revoked_token_rejected `{L402Lib} {S : Type} `{!SecretStore S} `{!SecretStoreLaws S}
    (st st' : S) now params :
  RevokeSecret st (Sum256 (mac_Id (vpMacaroon params))) = (st', Ok tt) ->
  is_ok (VerifyL402 st' now params) = false.
Proof.
  intros Hr. apply revoke_get in Hr. unfold VerifyL402.
  destruct (Identifier.DecodeIdentifier _) as [id| |]; cbn [mbind outcome_bind]; [|done..].
  case_decide; [done|].
  destruct (GetSecret st' _) as [k| |] eqn:E; [|done..]. apply get_held in E. congruence.
Qed.

Definition revoked : DBStore.store :=
  (@RevokeSecret _ DBStore.db_store ToyMint.store' (Sum256 (@mac_Id ToyLib.lib ToyMint.mac))).1.

Lemma revoked_token_rejected_witness :
  is_ok (@VerifyL402 ToyLib.lib _ _ revoked (Unix 1050)
    {| vpMacaroon := ToyMint.mac; vpPreimage := ToyMint.preimage; vpTargetService := "loop" |}) = false.
Proof.
  apply (@revoked_token_rejected ToyLib.lib _ _ DBStore.db_store_laws ToyMint.store').
  vm_compute. reflexivity.
Defined.
End MintProperties.
