(* ===== verification/GoNet.v ===== *)
(** * Go's [net]: addresses

    [SplitHostPort], [ParseIP] (with the parsers of [net/netip] it calls),
    [IP.Mask] and [IP.String] as [proxy/log.go] and [freebie/mem_store.go] use
    them.  An [IP] is its 16 or 4 bytes; [nil] is the empty list. *)
From S2P Require Import Prelude.
From S2P Require Import GoStrings.
From S2P Require Import GoCodec.

Abbreviation IP := (list byte).

(** ** [SplitHostPort] *)

(** The last occurrence of a separator. *)
Fixpoint CutLast (s : string) (sep : ascii) : option (string * string) :=
  match s with
  | "" => None
  | String a s' =>
      match CutLast s' sep with
      | Some (x, y) => Some (String a x, y)
      | None => if decide (a = sep) then Some ("", s') else None
      end
  end.

Definition errAddr (m : string) : error := Errorf m.

(** The host of a [host:port] text; the port is not used. *)
Definition SplitHostPort (hostport : string) : outcome string :=
  match CutLast hostport ":" with
  | None => Err (errAddr "missing port in address")
  | Some (before, port) =>
      match hostport with
      | String "[" inner =>
          match Cut inner "]" with
          | None => Err (errAddr "missing ']' in address")
          | Some (host, rest) =>
              if decide (rest = String ":" port) then
                if negb (lacks "[" inner) then Err (errAddr "unexpected '[' in address")
                else if negb (lacks "]" rest) then Err (errAddr "unexpected ']' in address")
                else Ok host
              else match rest with
                   | String ":" _ => Err (errAddr "too many colons in address")
                   | _ => Err (errAddr "missing port in address")
                   end
          end
      | _ =>
          if negb (lacks ":" before) then Err (errAddr "too many colons in address")
          else if negb (lacks "[" hostport) then Err (errAddr "unexpected '[' in address")
          else if negb (lacks "]" hostport) then Err (errAddr "unexpected ']' in address")
          else Ok before
      end
  end.

(** ** [ParseIP] *)
Definition v4InV6Prefix : list byte := replicate 10 Byte.x00 ++ [Byte.xff; Byte.xff].

(** One field of a dotted address: decimal, at most 255, no leading zero. *)
Definition parseOctet (s : string) : option byte :=
  if negb (forallb_string is_digit s) then None
  else match s, parse_digits s with
       | String "0" (String _ _), _ => None
       | _, Some n => if decide (n <= 255) then Some (byte_of n) else None
       | _, None => None
       end.

Definition parseIPv4Fields (s : string) : option (list byte) :=
  match Split s "." with
  | [a; b; c; d] => mapM parseOctet [a; b; c; d]
  | _ => None
  end.

(** The longest prefix of hexadecimal digits. *)
Fixpoint hexPrefix (s : string) : list Z * string :=
  match s with
  | "" => ([], "")
  | String a s' =>
      match hex_val a with
      | Some d => let '(ds, r) := hexPrefix s' in (d :: ds, r)
      | None => ([], s)
      end
  end.

(** The loop of [parseIPv6]: [acc] holds the bytes read so far and [ell] the
    position of the ellipsis. *)
Fixpoint parseIPv6Loop (fuel : nat) (acc : list byte) (ell : option nat) (s : string) :
    option (list byte * option nat * string) :=
  match fuel with
  | O => Some (acc, ell, s)
  | S fuel' =>
      let '(ds, r) := hexPrefix s in
      if decide (4 < length ds)%nat then None
      else if decide (ds = []) then None
      else match r with
      | String "." _ =>
          if decide (ell = None /\ length acc ≠ 12%nat) then None
          else if decide (12 < length acc)%nat then None
          else match parseIPv4Fields s with
               | Some b4 => Some (acc ++ b4, ell, "")
               | None => None
               end
      | _ =>
          let v := foldl (fun x d => x * 16 + d) 0 ds in
          let acc := acc ++ [byte_of (v / 256); byte_of v] in
          match r with
          | "" => Some (acc, ell, "")
          | String ":" "" => None
          | String ":" (String ":" r') =>
              match ell with
              | Some _ => None
              | None =>
                  match r' with
                  | "" => Some (acc, Some (length acc), "")
                  | _ => parseIPv6Loop fuel' acc (Some (length acc)) r'
                  end
              end
          | String ":" r' => parseIPv6Loop fuel' acc ell r'
          | _ => None
          end
      end
  end.

Definition parseIPv6 (s : string) : option (list byte) :=
  let finish '(acc, ell, rest) :=
    if decide (rest = "") then
      if decide (length acc < 16)%nat then
        match ell with
        | None => None
        | Some n => Some (take n acc ++ replicate (16 - length acc) Byte.x00 ++ drop n acc)
        end
      else match ell with Some _ => None | None => Some acc end
    else None in
  match s with
  | "::" => Some (replicate 16 Byte.x00)
  | String ":" (String ":" r) => parseIPv6Loop 8 [] (Some 0%nat) r ≫= finish
  | _ => parseIPv6Loop 8 [] None s ≫= finish
  end.

(** The first of [.], [:] and [%] decides the family; an address with a zone is
    refused by [net.ParseIP]. *)
Fixpoint family (s : string) : option ascii :=
  match s with
  | "" => None
  | String a s' => if negb (lacks a ".:%") then Some a else family s'
  end.

Definition ParseIP (s : string) : IP :=
  match family s with
  | Some "."%char => match parseIPv4Fields s with Some b => v4InV6Prefix ++ b | None => [] end
  | Some ":"%char => if lacks "%" s then default [] (parseIPv6 s) else []
  | _ => []
  end.

Definition IPv4zero : IP := v4InV6Prefix ++ replicate 4 Byte.x00.

(** ** [IP.Mask] with a 4-byte mask, and [IP.String] of its result *)
Definition band (a b : byte) : byte := byte_of (Z.land (byte_val a) (byte_val b)).

Definition Mask (ip : IP) (mask : list byte) : IP :=
  let ip := if decide (length mask = 4 /\ length ip = 16 /\ take 12 ip = v4InV6Prefix)%nat
            then drop 12 ip else ip in
  if decide (length ip = length mask) then zip_with band ip mask else [].

(** The 16-byte form is not needed: a masked address has 4 bytes or none. *)
Definition IPString (ip : IP) : string :=
  match ip with
  | [] => "<nil>"
  | _ => Join ((fun b => FormatUint (byte_val b)) <$> ip) "."
  end.

(** ** Facts *)
Lemma FormatUint_byte_inj a b : FormatUint (byte_val a) = FormatUint (byte_val b) -> a = b.
Proof.
  intros E. pose proof (byte_val_range a). pose proof (byte_val_range b).
  apply byte_val_inj. apply (inj Some).
  rewrite <- !parse_digits_FormatUint by lia. by rewrite E.
Qed.

Lemma dotted_inj (a b : list byte) : a ≠ [] -> b ≠ [] -> IPString a = IPString b -> a = b.
Proof.
  intros Ha Hb E.
  assert (Hs : forall l : list byte, l ≠ [] -> Split (IPString l) "." =
    (fun b => FormatUint (byte_val b)) <$> l).
  { intros l Hl. destruct l as [|x l]; [done|]. unfold IPString. apply Split_Join; [done|].
    apply Forall_fmap, Forall_true. intros y. by apply FormatUint_lacks. }
  apply (list_fmap_eq_inj (fun b => FormatUint (byte_val b))).
  { intros x y. apply FormatUint_byte_inj. }
  by rewrite <- !Hs, E.
Qed.

Lemma IPString_nil (a : list byte) : a ≠ [] -> IPString a ≠ IPString [].
Proof.
  destruct a as [|x a]; [done|]. intros _ E.
  pose proof (lacks_Join "<" "." ((fun b => FormatUint (byte_val b)) <$> x :: a)) as Hs.
  change (Join _ _) with (IPString (x :: a)) in Hs. rewrite E in Hs.
  discriminate Hs; [done|]. apply Forall_fmap, Forall_true. intros y. by apply FormatUint_lacks.
Qed.

Lemma parseOctet_Format b : parseOctet (FormatUint (byte_val b)) = Some b.
Proof. destruct b; vm_compute; reflexivity. Qed.
