(* ===== verification/Freebie.v ===== *)
(** * Freebies: [freebie/mem_store.go] and the levels of [auth/config.go]

    The levels of a service, the counter of its free rides, and in [Concurrent] the
    counter under requests that are served at the same time, whose tallies can
    overwrite each other. *)
From Stdlib Require Import Factorial.
From S2P Require Import Prelude.
From S2P Require Import GoStrings.
From S2P Require Import GoNet.

(** ** [auth/config.go] *)
Module Level.
Definition LevelOff : string := "off".

Definition lower (l : string) : string := ToLower l.
Definition IsOn (l : string) : bool :=
  bool_decide (lower l = "" \/ lower l = "on" \/ lower l = "true").
Definition IsFreebie (l : string) : bool := HasPrefix (lower l) "freebie".
Definition IsOff (l : string) : bool :=
  bool_decide (lower l = "off" \/ lower l = "false").

(** [freebie.Count] is a [uint16]: the conversion wraps. *)
Definition FreebieCount (l : string) : outcome Z :=
  match Split (lower l) " " with
  | [_; n] =>
      match Atoi n with
      | Ok count => Ok (u16 count)
      | Err _ => Panic "strconv.Atoi"
      | Panic m => Panic m
      end
  | _ => Panic "invalid auth value"
  end.

(** At most one of the three holds. *)
Lemma IsOn_not_freebie l : IsOn l = true -> IsFreebie l = false.
Proof.
  unfold IsOn, IsFreebie. rewrite bool_decide_eq_true. by intros [->|[->| ->]].
Qed.
Lemma LevelOff_passes : IsOn LevelOff = false /\ IsFreebie LevelOff = false.
Proof. done. Qed.
End Level.

(** ** [freebie/mem_store.go] *)
Module MemStore.
Record t := { numFreebies : Z; freebieCounter : gmap string Z }.

Definition defaultIPMask : list byte := [Byte.xff; Byte.xff; Byte.xff; Byte.x00].
Definition getKey (ip : IP) : string := IPString (Mask ip defaultIPMask).

Definition currentCount (m : t) (ip : IP) : Z :=
  match freebieCounter m !! getKey ip with
  | None => 0
  | Some counter => counter
  end.

Definition CanPass (m : t) (ip : IP) : outcome bool :=
  Ok (bool_decide (currentCount m ip < numFreebies m)).

(** [TallyFreebie] reads the counter, and then writes it. *)
Definition nextCount (m : t) (ip : IP) : Z := u16 (currentCount m ip + 1).
Definition setCount (m : t) (ip : IP) (counter : Z) : t :=
  {| numFreebies := numFreebies m;
     freebieCounter := <[getKey ip := counter]> (freebieCounter m) |}.
Definition TallyFreebie (m : t) (ip : IP) : t * outcome bool :=
  let counter := nextCount m ip in
  (setCount m ip counter, Ok true).

Definition NewMemIPMaskStore (numFreebies : Z) : t :=
  {| numFreebies := numFreebies; freebieCounter := ∅ |}.

(** The counters stay at or below the limit, so they never wrap. *)
Definition wf (m : t) : Prop :=
  is_u16 (numFreebies m) /\
  map_Forall (fun _ c => 0 <= c <= numFreebies m) (freebieCounter m).

(** The check the proxy makes before it tallies, as one operation. *)
Definition tryFreebie (m : t) (ip : IP) : t * bool :=
  if decide (CanPass m ip = Ok true) then ((TallyFreebie m ip).1, true) else (m, false).

Lemma New_wf n : is_u16 n -> wf (NewMemIPMaskStore n).
Proof. intros Hn. split; [done|]. apply map_Forall_empty. Qed.

Lemma currentCount_range m ip : wf m -> 0 <= currentCount m ip <= numFreebies m.
Proof.
  intros [Hn Hf]. unfold currentCount. destruct (_ !! _) as [c|] eqn:E.
  - by apply (Hf _ _ E).
  - unfold is_u16 in Hn. lia.
Qed.

Lemma CanPass_spec m ip : CanPass m ip = Ok true <-> currentCount m ip < numFreebies m.
Proof.
  unfold CanPass. split.
  - intros [= E]. by apply bool_decide_eq_true in E.
  - intros E. by rewrite bool_decide_eq_true_2.
Qed.

Lemma TallyFreebie_count m ip ip' :
  wf m -> currentCount m ip < numFreebies m ->
  currentCount (TallyFreebie m ip).1 ip' =
    currentCount m ip' + (if decide (getKey ip = getKey ip') then 1 else 0).
Proof.
  intros Hw Hlt. pose proof (currentCount_range m ip Hw) as Hr. destruct Hw as [Hn _].
  unfold is_u16 in Hn. unfold currentCount at 1. cbn [TallyFreebie setCount nextCount fst freebieCounter]. unfold nextCount.
  rewrite lookup_insert. case_decide as Hk.
  - rewrite u16_small by lia. unfold currentCount. by rewrite Hk.
  - unfold currentCount. rewrite Z.add_0_r. done.
Qed.

Lemma TallyFreebie_wf m ip :
  wf m -> currentCount m ip < numFreebies m -> wf (TallyFreebie m ip).1.
Proof.
  intros Hw Hlt. pose proof (currentCount_range m ip Hw) as Hr. pose proof Hw as [Hn Hf].
  split; [done|]. cbn [TallyFreebie setCount fst freebieCounter numFreebies]. unfold nextCount.
  apply map_Forall_insert_2; [|done]. unfold is_u16 in Hn. rewrite u16_small by lia. lia.
Qed.

Lemma tryFreebie_wf m ip : wf m -> wf (tryFreebie m ip).1.
Proof.
  intros Hw. unfold tryFreebie. case_decide as Hp; [|done].
  apply TallyFreebie_wf; [done|]. by apply CanPass_spec.
Qed.

(** *** The keys: a /24 network for IPv4, one key for everything else *)
Definition v4 (a b c d : byte) : IP := v4InV6Prefix ++ [a; b; c; d].

Lemma band_ff a : band a Byte.xff = a.
Proof. destruct a; vm_compute; reflexivity. Qed.
Lemma band_00 a : band a Byte.x00 = Byte.x00.
Proof. destruct a; vm_compute; reflexivity. Qed.

Lemma Mask_v4 a b c d : Mask (v4 a b c d) defaultIPMask = [a; b; c; Byte.x00].
Proof.
  unfold Mask. rewrite decide_True by done.
  change (drop 12 (v4 a b c d)) with [a; b; c; d]. rewrite decide_True by done.
  unfold defaultIPMask. cbn [zip_with]. by rewrite !band_ff, band_00.
Qed.

Lemma getKey_v4 a b c d a' b' c' d' :
  getKey (v4 a b c d) = getKey (v4 a' b' c' d') <-> (a, b, c) = (a', b', c').
Proof.
  unfold getKey. rewrite !Mask_v4. split.
  - intros E. apply dotted_inj in E; [|done..]. congruence.
  - by intros [= -> -> ->].
Qed.

(** Every IPv6 client counts against the same key. *)
Lemma getKey_v6 ip :
  length ip = 16%nat -> take 12 ip ≠ v4InV6Prefix -> getKey ip = "<nil>".
Proof.
  intros Hl Hp. unfold getKey, Mask. cbn zeta.
  rewrite (decide_False (P := (length defaultIPMask = 4 /\ length ip = 16 /\
    take 12 ip = v4InV6Prefix)%nat)) by tauto.
  rewrite decide_False; [done|]. by rewrite Hl.
Qed.

(** *** A history of requests *)
Definition run (m : t) (ips : list IP) : t * list bool :=
  foldl (fun '(m, out) ip => let '(m', ok) := tryFreebie m ip in (m', out ++ [ok])) (m, []) ips.

(** How many of the requests of a key were let through. *)
Definition granted (k : string) (ips : list IP) (out : list bool) : Z :=
  Z.of_nat (length (filter (fun p => getKey p.1 = k /\ p.2 = true) (zip ips out))).
Definition asked (k : string) (ips : list IP) : Z :=
  Z.of_nat (length (filter (fun ip => getKey ip = k) ips)).

Lemma run_snoc m ips ip :
  run m (ips ++ [ip]) =
    let '(m1, out) := run m ips in
    let '(m2, ok) := tryFreebie m1 ip in (m2, out ++ [ok]).
Proof. unfold run. rewrite foldl_snoc. by destruct (foldl _ _ _). Qed.

Lemma run_length m ips : length (run m ips).2 = length ips.
Proof.
  induction ips as [|ip ips IH] using rev_ind; [done|].
  rewrite run_snoc. destruct (run m ips) as [m1 out]. destruct (tryFreebie m1 ip) as [m2 ok].
  cbn [snd] in *. rewrite !length_app, IH. done.
Qed.

(** The counter of a key is the number of its granted requests, and that is the
    smaller of what was asked and the limit. *)
Lemma run_counts n ips ip :
  is_u16 n ->
  let '(m, out) := run (NewMemIPMaskStore n) ips in
  wf m /\ numFreebies m = n /\
  currentCount m ip = granted (getKey ip) ips out /\
  granted (getKey ip) ips out = Z.min n (asked (getKey ip) ips).
Proof.
  intros Hn. induction ips as [|i ips IH] using rev_ind.
  { cbn. unfold granted, asked, currentCount. cbn. rewrite lookup_empty.
    unfold is_u16 in Hn. split; [by apply New_wf|]. split; [done|]. split; [done|]. lia. }
  rewrite run_snoc. pose proof (run_length (NewMemIPMaskStore n) ips) as Hlen.
  destruct (run _ ips) as [m out]. cbn [snd] in Hlen. destruct IH as (Hw & Hm & Hc & Hg).
  assert (Hz : forall ok, granted (getKey ip) (ips ++ [i]) (out ++ [ok]) =
    granted (getKey ip) ips out + (if decide (getKey i = getKey ip /\ ok = true) then 1 else 0)).
  { intros ok. unfold granted. rewrite zip_with_app by done. rewrite filter_app, length_app.
    cbn [zip_with]. rewrite filter_cons, filter_nil. cbn [fst snd].
    repeat case_decide; cbn [length]; (lia || tauto). }
  assert (Ha : asked (getKey ip) (ips ++ [i]) =
    asked (getKey ip) ips + (if decide (getKey i = getKey ip) then 1 else 0)).
  { unfold asked. rewrite filter_app, length_app, filter_cons, filter_nil.
    repeat case_decide; cbn [length]; (lia || tauto). }
  unfold tryFreebie. destruct (decide (CanPass m i = Ok true)) as [Hp|Hp].
  - pose proof (proj1 (CanPass_spec m i) Hp) as Hlt.
    split; [by apply TallyFreebie_wf|]. split; [done|].
    rewrite (TallyFreebie_count m i ip) by done. rewrite Hz, Ha.
    assert (Hk : getKey i = getKey ip -> currentCount m i = currentCount m ip).
    { intros E. unfold currentCount. by rewrite E. }
    split; repeat case_decide; intuition (try lia).
  - assert (Hge : numFreebies m <= currentCount m i).
    { destruct (decide (currentCount m i < numFreebies m)); [|lia].
      exfalso. by apply Hp, CanPass_spec. }
    pose proof (currentCount_range m i Hw) as Hr.
    split; [done|]. split; [done|]. rewrite Hz, Ha.
    rewrite decide_False by (by intros [_ ?]).
    assert (Hk : getKey i = getKey ip -> currentCount m i = currentCount m ip).
    { intros E. unfold currentCount. by rewrite E. }
    split; [lia|]. case_decide; intuition (try lia).
Qed.
End MemStore.

(** ** Requests at the same time

    A request asks [CanPass] and, when it may pass, calls [TallyFreebie] before it
    is forwarded ([proxy.go], the case of the freebies); nothing holds a lock, so
    that the check, the reading of the counter and the writing of the counter each
    have a moment of their own.  [c] requests are served at a time at most. *)
Module Concurrent.
Import MemStore.

(** A request between its check and its tally, and one in the middle of its tally,
    with the counter it is about to write. *)
Inductive flight := Passed (ip : IP) | Tallying (ip : IP) (counter : Z).

(** The store, the requests in flight, and those let through. *)
Record shared := { mem : t; flights : list flight; rides : list IP }.

Inductive action := Arrive (ip : IP) | Resume (i : nat).

Definition act (c : nat) (s : shared) (a : action) : option shared :=
  match a with
  | Arrive ip =>
      if decide (length (flights s) < c)%nat then
        Some (if decide (CanPass (mem s) ip = Ok true)
              then {| mem := mem s; flights := Passed ip :: flights s; rides := rides s |} else s)
      else None
  | Resume i =>
      f ← flights s !! i;
      Some match f with
           | Passed ip =>
               {| mem := mem s; rides := rides s;
                  flights := <[i := Tallying ip (nextCount (mem s) ip)]> (flights s) |}
           | Tallying ip counter =>
               {| mem := setCount (mem s) ip counter; flights := delete i (flights s);
                  rides := ip :: rides s |}
           end
  end.

Definition start (n : Z) : shared :=
  {| mem := NewMemIPMaskStore n; flights := []; rides := [] |}.

Fixpoint exec (c : nat) (s : shared) (acts : list action) : option shared :=
  match acts with
  | [] => Some s
  | a :: rest => s' ← act c s a; exec c s' rest
  end.

(** How many of a list are of the network of a key. *)
Definition ofKey (k : string) (ips : list IP) : nat :=
  length (filter (fun ip => getKey ip = k) ips).

Lemma ofKey_cons k ip ips :
  ofKey k (ip :: ips) = ((if decide (getKey ip = k) then 1 else 0) + ofKey k ips)%nat.
Proof. unfold ofKey. rewrite filter_cons. by case_decide. Qed.

(** *** Counting configurations

    [configs l s]: in how many ways at most [s] things can be put into [l] boxes. *)
Open Scope nat_scope.

Fixpoint configs (l s : nat) : nat :=
  match l with
  | 0 => 1
  | S l' => (fix row s := match s with 0 => 1 | S s' => row s' + configs l' (S s') end) s
  end.

Lemma configs_S l s : configs (S l) (S s) = configs (S l) s + configs l (S s).
Proof. reflexivity. Qed.
Lemma configs_0_r l : configs l 0 = 1.
Proof. by destruct l. Qed.

(** It is a binomial coefficient. *)
Lemma fact_S n : fact (S n) = S n * fact n.
Proof. reflexivity. Qed.
Lemma configs_binomial l s : configs l s * (fact l * fact s) = fact (l + s).
Proof.
  revert s. induction l as [|l IHl]; intros s; [cbn [configs fact Nat.add]; lia|].
  induction s as [|s IHs]; [rewrite configs_0_r, Nat.add_0_r; cbn [fact]; lia|].
  rewrite configs_S. specialize (IHl (S s)).
  replace (S l + S s) with (S (S l + s)) by lia. rewrite (fact_S (S l + s)), <- IHs.
  replace (l + S s) with (S l + s) in IHl by lia. rewrite <- IHs in IHl.
  rewrite (fact_S l), (fact_S s) in *. nia.
Qed.

Lemma configs_mono_s l s s' : s <= s' -> configs l s <= configs l s'.
Proof.
  induction 1 as [|s' _ IH]; [done|]. etrans; [exact IH|].
  destruct l as [|l]; [done|]. rewrite configs_S. lia.
Qed.
Lemma configs_mono_l l s : configs l s <= configs (S l) s.
Proof. destruct s as [|s]; [by rewrite !configs_0_r|]. rewrite configs_S. lia. Qed.
Lemma configs_pos l s : 1 <= configs l s.
Proof. rewrite <- (configs_0_r l). apply configs_mono_s. lia. Qed.

(** What is in the [l] boxes from [u] on. *)
Fixpoint total (l u : nat) (x : nat -> nat) : nat :=
  match l with 0 => 0 | S l => x u + total l (S u) x end.

(** The rank of the contents of the boxes, with [s] things at most, when contents
    are compared from the first box on. *)
Fixpoint rank (l u s : nat) (x : nat -> nat) : nat :=
  match l with
  | 0 => 0
  | S l' => (configs l s - configs l (s - x u)) + rank l' (S u) (s - x u) x
  end.

Lemma rank_bound l u s x : total l u x <= s -> rank l u s x < configs l s.
Proof.
  revert u s. induction l as [|l IH]; intros u s; [cbn; lia|]. cbn [total rank]. intros Ht.
  specialize (IH (S u) (s - x u) ltac:(lia)).
  pose proof (configs_mono_l l (s - x u)). pose proof (configs_mono_s (S l) (s - x u) s ltac:(lia)). lia.
Qed.

Lemma rank_ext l u s x y :
  (forall w, u <= w < u + l -> x w = y w) -> rank l u s x = rank l u s y.
Proof.
  revert u s. induction l as [|l IH]; intros u s He; [done|]. cbn [rank].
  rewrite (He u) by lia. f_equal. apply IH. intros w Hw. apply He. lia.
Qed.

(** Less in one box and the same in those before it: a lower rank. *)
Lemma rank_lex l u s x y j :
  u <= j < u + l -> (forall w, u <= w < j -> y w = x w) -> y j < x j ->
  total l u x <= s -> total l u y <= s -> rank l u s y < rank l u s x.
Proof.
  revert u s. induction l as [|l IH]; intros u s Hj Hb Hlt Hx Hy; [lia|]. cbn [total rank] in *.
  destruct (decide (j = u)) as [->|Hne].
  - pose proof (rank_bound l (S u) (s - y u) y ltac:(lia)) as Hr.
    pose proof (configs_mono_s (S l) (s - x u) (s - S (y u)) ltac:(lia)).
    pose proof (configs_mono_s (S l) (s - y u) s ltac:(lia)).
    replace (s - y u) with (S (s - S (y u))) in * by lia. rewrite configs_S in *. lia.
  - rewrite (Hb u) by lia. apply Nat.add_lt_mono_l, IH; try lia. intros w Hw. apply Hb. lia.
    rewrite <- (Hb u) by lia. lia.
Qed.

Lemma total_le l u x y : (forall w, y w <= x w) -> total l u y <= total l u x.
Proof. intros He. revert u. induction l as [|l IH]; intros u; cbn; [done|]. specialize (He u). specialize (IH (S u)). lia. Qed.

Lemma total_add l u x y : total l u (fun w => x w + y w) = total l u x + total l u y.
Proof. revert u. induction l as [|l IH]; intros u; cbn; [done|]. rewrite IH. lia. Qed.

Lemma total_at l u a m :
  total l u (fun w => if decide (w = a) then m else 0) = if decide (u <= a < u + l) then m else 0.
Proof.
  revert u. induction l as [|l IH]; intros u; cbn [total]; [by rewrite decide_False by lia|].
  rewrite IH. repeat case_decide; lia.
Qed.

(** Taking things out lowers the rank by as many. *)
Lemma rank_remove l u s x y :
  (forall w, y w <= x w) -> total l u x <= s ->
  rank l u s y + total l u x <= rank l u s x + total l u y.
Proof.
  intros Hle. remember (total l u x - total l u y) as d eqn:Hd. revert x Hle Hd.
  induction d as [d IH] using lt_wf_ind. intros x Hle Hd Hs.
  pose proof (total_le l u x y Hle) as Ht. destruct (decide (d = 0)) as [Hz|Hz].
  - rewrite (rank_ext l u s y x); [lia|]. intros w Hw.
    assert (Hsum : total l u x = total l u y) by lia. clear -Hle Hsum Hw.
    revert u Hsum Hw. induction l as [|l IHl]; intros u; cbn [total]; [lia|]. intros E Hw.
    pose proof (Hle u). pose proof (total_le l (S u) x y Hle).
    destruct (decide (w = u)) as [->|]; [lia|]. apply (IHl (S u)); lia.
  - assert (Hj : exists j, u <= j < u + l /\ y j < x j).
    { assert (Hsum : total l u y < total l u x) by lia. clear -Hle Hsum. revert u Hsum.
      induction l as [|l IHl]; intros u; cbn [total]; [lia|]. intros E.
      destruct (decide (y u < x u)) as [|Hn]; [exists u; lia|].
      destruct (IHl (S u)) as (j & Hj & ?); [lia|]. exists j. lia. }
    destruct Hj as (j & Hj & Hlt).
    set (x1 := fun w => x w - if decide (w = j) then 1 else 0).
    assert (Hx1 : total l u x = total l u x1 + 1).
    { transitivity (total l u (fun w => x1 w + if decide (w = j) then 1 else 0));
        [|by rewrite total_add, total_at, decide_True].
      apply Nat.le_antisymm; apply total_le; intros w; unfold x1; case_decide; subst; lia. }
    assert (Hlex : rank l u s x1 < rank l u s x).
    { apply (rank_lex l u s x x1 j); [done| | |done|lia].
      - intros w Hw. unfold x1. rewrite decide_False; lia.
      - unfold x1. rewrite decide_True by done. lia. }
    assert (Hle1 : forall w, y w <= x1 w).
    { intros w. unfold x1. specialize (Hle w). case_decide; subst; lia. }
    specialize (IH (total l u x1 - total l u y) ltac:(lia) x1 Hle1 eq_refl ltac:(lia)). lia.
Qed.


Lemma configs_1 l : configs l 1 = S l.
Proof. induction l as [|l IH]; [done|]. rewrite configs_S, IH, configs_0_r. lia. Qed.

(** *** The requests of one network

    What the counter of a network shows, the counters its requests are about to
    write, and how many of them are still to read it. *)
Record view := { shown : nat; pending : list nat; waiting : nat }.

Definition times (w : nat) (l : list nat) : nat := length (filter (fun v => v = w) l).
Definition beyond (n : nat) (l : list nat) : nat := length (filter (fun v => n < v) l).

(** A request that may still read the counter counts as one that will write what
    comes after it. *)
Definition held (c : nat) (v : view) (w : nat) : nat :=
  times w (pending v) + if decide (w = S (shown v)) then c - length (pending v) else 0.

(** The rides that can still follow: the rank of what is held, and those that
    write beyond the limit. *)
Definition left_over (n : nat) (v : view) : nat :=
  beyond n (pending v) + if decide (shown v < n) then 0 else waiting v.
Definition potential (n c : nat) (v : view) : nat := rank n 1 c (held c v) + left_over n v.

Lemma times_cons w v l : times w (v :: l) = (if decide (v = w) then 1 else 0) + times w l.
Proof. unfold times. rewrite filter_cons. by case_decide. Qed.
Lemma beyond_cons n v l : beyond n (v :: l) = (if decide (n < v) then 1 else 0) + beyond n l.
Proof. unfold beyond. rewrite filter_cons. by case_decide. Qed.

#[global] Instance times_perm w : Proper ((≡ₚ) ==> (=)) (times w).
Proof. intros l l' E. unfold times. apply Permutation_length. by rewrite E. Qed.
#[global] Instance beyond_perm n : Proper ((≡ₚ) ==> (=)) (beyond n).
Proof. intros l l' E. unfold beyond. apply Permutation_length. by rewrite E. Qed.

Lemma potential_perm n c k l l' p :
  l ≡ₚ l' -> potential n c {| shown := k; pending := l; waiting := p |} =
             potential n c {| shown := k; pending := l'; waiting := p |}.
Proof.
  intros E. unfold potential, left_over, held. cbn [shown pending waiting].
  f_equal; [|by rewrite E]. apply rank_ext. intros w _.
  by rewrite (times_perm w l l' E), (Permutation_length E).
Qed.

Lemma total_times l u ws : total l u (fun w => times w ws) <= length ws.
Proof.
  induction ws as [|v ws IH].
  - clear. revert u. induction l as [|l IH]; intros u; [done|]. apply (IH (S u)).
  - cbn [length]. pose proof (total_at l u v 1) as Hv.
    assert (E : total l u (fun w => times w (v :: ws)) <=
      total l u (fun w => (if decide (w = v) then 1 else 0) + times w ws)).
    { apply total_le. intros w. rewrite times_cons. repeat case_decide; congruence || lia. }
    rewrite total_add in E. case_decide; lia.
Qed.

Lemma total_held n u c v :
  total n u (held c v) = total n u (fun w => times w (pending v)) +
    if decide (u <= S (shown v) < u + n) then c - length (pending v) else 0.
Proof. unfold held. by rewrite total_add, total_at. Qed.

Lemma total_held_le n u c v : length (pending v) <= c -> total n u (held c v) <= c.
Proof.
  intros Hc. rewrite total_held. pose proof (total_times n u (pending v)). case_decide; lia.
Qed.

(** A request that reads the counter changes nothing. *)
Lemma potential_read n c k l p :
  length l < c ->
  potential n c {| shown := k; pending := S k :: l; waiting := p |} =
  potential n c {| shown := k; pending := l; waiting := S p |}.
Proof.
  intros Hc. unfold potential, left_over. cbn [shown pending waiting]. rewrite beyond_cons. f_equal.
  - apply rank_ext. intros w _. unfold held. cbn [shown pending length]. rewrite times_cons.
    repeat case_decide; congruence || lia.
  - repeat case_decide; lia.
Qed.

(** A ride that brings the counter to the limit or beyond. *)
Lemma potential_high n c k u l p :
  1 <= u -> n <= u -> S (length l) + p <= c ->
  potential n c {| shown := u; pending := l; waiting := p |} <
  potential n c {| shown := k; pending := u :: l; waiting := p |}.
Proof.
  intros H1 Hu Hc. unfold potential, left_over. cbn [shown pending waiting].
  rewrite beyond_cons, (decide_False (P := u < n)) by lia.
  pose proof (total_held_le n 1 c {| shown := k; pending := u :: l; waiting := p |} ltac:(cbn; lia)) as Ht.
  pose proof (rank_remove n 1 c (held c {| shown := k; pending := u :: l; waiting := p |})
    (fun w => times w l)) as Hr.
  rewrite total_held in Hr, Ht. cbn [shown pending length] in Hr, Ht.
  assert (E : total n 1 (fun w => times w (u :: l)) =
    total n 1 (fun w => times w l) + if decide (u = n) then 1 else 0).
  { transitivity (total n 1 (fun w => times w l + if decide (w = u) then 1 else 0)).
    - apply Nat.le_antisymm; apply total_le; intros w; rewrite times_cons; repeat case_decide;
        congruence || lia.
    - rewrite total_add, total_at. repeat case_decide; lia. }
  rewrite E in Hr, Ht.
  assert (Hx : forall w, times w l <= held c {| shown := k; pending := u :: l; waiting := p |} w).
  { intros w. unfold held. cbn [shown pending]. rewrite times_cons. lia. }
  specialize (Hr Hx Ht).
  rewrite (rank_ext n 1 c (held c {| shown := u; pending := l; waiting := p |}) (fun w => times w l)).
  - repeat case_decide; lia.
  - intros w Hw. unfold held. cbn [shown pending]. rewrite decide_False; lia.
Qed.

(** A ride that leaves the counter below the limit. *)
Lemma potential_low n c k u l p :
  1 <= u -> u < n -> S (length l) + p <= c ->
  potential n c {| shown := u; pending := l; waiting := p |} <
  potential n c {| shown := k; pending := u :: l; waiting := p |}.
Proof.
  intros H1 Hu Hc. unfold potential, left_over. cbn [shown pending waiting].
  rewrite beyond_cons, (decide_True (P := u < n)), (decide_False (P := n < u)) by lia.
  enough (rank n 1 c (held c {| shown := u; pending := l; waiting := p |}) <
          rank n 1 c (held c {| shown := k; pending := u :: l; waiting := p |})) by lia.
  assert (Hj : exists j, 1 <= j <= u /\ (j = u \/ j = S k /\ S (length l) < c) /\
    forall w, w < j -> w = S k -> S (length l) = c).
  { destruct (decide (1 <= S k <= u /\ S (length l) < c)) as [|Hn].
    - exists (S k). split; [lia|]. split; [by right; lia|]. lia.
    - exists u. split; [lia|]. split; [by left|]. lia. }
  destruct Hj as (j & Hj & Hor & Hbefore).
  apply (rank_lex n 1 c _ _ j); [lia| | |apply total_held_le; cbn; lia..].
  - intros w Hw. unfold held. cbn [shown pending length]. rewrite times_cons.
    specialize (Hbefore w ltac:(lia)). repeat case_decide; lia.
  - unfold held. cbn [shown pending length]. rewrite times_cons. repeat case_decide; lia.
Qed.

Lemma potential_ride n c k u l l' p :
  l ≡ₚ u :: l' -> 1 <= u -> length l + p <= c ->
  potential n c {| shown := u; pending := l'; waiting := p |} <
  potential n c {| shown := k; pending := l; waiting := p |}.
Proof.
  intros E H1 Hc. rewrite (potential_perm n c k l (u :: l')) by done. rewrite E in Hc. cbn [length] in Hc.
  destruct (decide (u < n)); [apply potential_low|apply potential_high]; lia.
Qed.

(** *** The view of a state *)

Definition counterOf (k : string) (m : t) : Z := default 0%Z (freebieCounter m !! k).
Definition pendingOf (k : string) (f : flight) : option nat :=
  match f with
  | Tallying ip counter => if decide (getKey ip = k) then Some (Z.to_nat counter) else None
  | Passed _ => None
  end.
Definition waitingOf (k : string) (f : flight) : nat :=
  match f with Passed ip => if decide (getKey ip = k) then 1 else 0 | Tallying _ _ => 0 end.
Definition viewOf (k : string) (s : shared) : view := {|
  shown := Z.to_nat (counterOf k (mem s));
  pending := omap (pendingOf k) (flights s);
  waiting := sum_list_with (waitingOf k) (flights s) |}.

Lemma currentCount_counterOf m ip : currentCount m ip = counterOf (getKey ip) m.
Proof. unfold currentCount, counterOf. by destruct (_ !! _). Qed.

Lemma view_length k fs :
  length (omap (pendingOf k) fs) + sum_list_with (waitingOf k) fs <= length fs.
Proof.
  induction fs as [|f fs IH]; [done|]. cbn [omap list_omap sum_list_with length].
  destruct f as [ip|ip z]; cbn [pendingOf waitingOf]; repeat case_decide; cbn [length]; lia.
Qed.

(** The counters never wrap while the rides are few. *)
Definition flight_ok (k : string) (r : nat) (f : flight) : Prop :=
  match f with
  | Tallying ip counter => getKey ip = k -> (1 <= counter <= Z.of_nat r + 1)%Z
  | Passed _ => True
  end.

Definition bounded (n c : nat) (k : string) (s : shared) : Prop :=
  numFreebies (mem s) = Z.of_nat n /\ length (flights s) <= c /\
  (0 <= counterOf k (mem s) <= Z.of_nat (ofKey k (rides s)))%Z /\
  Forall (flight_ok k (ofKey k (rides s))) (flights s) /\
  ofKey k (rides s) + potential n c (viewOf k s) < configs n c.

Lemma bounded_start n c k : 0 < n -> bounded n c k (start (Z.of_nat n)).
Proof.
  intros Hn. refine (conj _ (conj _ (conj _ (conj _ _))));
    [done|cbn; lia|cbn; unfold counterOf; cbn; rewrite lookup_empty; done
    |constructor|].
  unfold potential, left_over. cbn [viewOf start flights mem rides shown pending waiting omap list_omap].
  unfold counterOf. cbn [start mem NewMemIPMaskStore freebieCounter]. rewrite lookup_empty.
  rewrite decide_True by (cbn; lia). unfold ofKey, beyond. cbn [filter list_filter length Nat.add].
  rewrite Nat.add_0_r. apply rank_bound, total_held_le. cbn. lia.
Qed.

Lemma bounded_arrive n c k s ip s' :
  bounded n c k s -> act c s (Arrive ip) = Some s' -> bounded n c k s'.
Proof.
  intros (Hn & Hl & Hc & Hf & Hp). cbn [act]. case_decide as Hroom; [|done]. intros [= <-].
  case_decide as Hpass; [|done]. apply CanPass_spec in Hpass. rewrite currentCount_counterOf, Hn in Hpass.
  refine (conj _ (conj _ (conj _ (conj _ _)))); [done|cbn; lia|done|by constructor|]. cbn [rides mem flights].
  replace (potential n c _) with (potential n c (viewOf k s)); [done|].
  unfold potential, left_over. cbn [viewOf shown pending waiting mem flights omap list_omap pendingOf
    sum_list_with waitingOf]. destruct (decide (getKey ip = k)) as [Hk|Hk]; [|done].
  rewrite Hk in Hpass. rewrite !decide_True by lia. done.
Qed.

Lemma bounded_read n c k s i ip s' :
  (Z.of_nat (configs n c) < 2 ^ 16)%Z ->
  bounded n c k s -> flights s !! i = Some (Passed ip) -> act c s (Resume i) = Some s' ->
  bounded n c k s'.
Proof.
  intros H16 (Hn & Hl & Hc & Hf & Hp) Hi. cbn [act]. rewrite Hi. cbn [mbind option_bind].
  intros Hs. apply (inj Some) in Hs as <-.
  assert (Hnext : getKey ip = k -> nextCount (mem s) ip = (counterOf k (mem s) + 1)%Z).
  { intros <-. unfold nextCount. rewrite currentCount_counterOf. apply u16_small. unfold is_u16. lia. }
  refine (conj _ (conj _ (conj _ (conj _ _))));
    [done|cbn [flights]; by rewrite length_insert|done| |]; cbn [mem flights rides].
  - apply Forall_insert; [done|]. intros Hk. rewrite Hnext by done. lia.
  - pose proof (view_length k (flights s)) as Hlen.
    apply list_elem_of_split_length in Hi as (l1 & l2 & Hfs & ->).
    unfold viewOf in *. cbn [mem flights] in *. rewrite Hfs in *.
    rewrite insert_app_r_alt, Nat.sub_diag by lia. cbn [insert list_insert].
    rewrite !omap_app, !sum_list_with_app in *. cbn [omap list_omap sum_list_with] in *.
    cbn [pendingOf waitingOf] in *. case_decide as Hk; [|done]. rewrite Hnext by done.
    rewrite (potential_perm _ _ _ _ (S (Z.to_nat (counterOf k (mem s))) ::
      omap (pendingOf k) l1 ++ omap (pendingOf k) l2)).
    + rewrite potential_read; [by rewrite Nat.add_succ_r in Hp|]. rewrite !length_app in *. lia.
    + rewrite Z2Nat.inj_add, Nat.add_comm by lia. cbn. by rewrite Permutation_middle.
Qed.

Lemma bounded_write n c k s i ip counter s' :
  bounded n c k s -> flights s !! i = Some (Tallying ip counter) -> act c s (Resume i) = Some s' ->
  bounded n c k s'.
Proof.
  intros (Hn & Hl & Hc & Hf & Hp) Hi. cbn [act]. rewrite Hi. cbn [mbind option_bind].
  intros Hs. apply (inj Some) in Hs as <-.
  pose proof (Forall_lookup_1 _ _ _ _ Hf Hi) as Hz. cbn [flight_ok] in Hz.
  pose proof (lookup_lt_Some _ _ _ Hi) as Hlt.
  assert (Hmono : Forall (flight_ok k (ofKey k (ip :: rides s))) (delete i (flights s))).
  { apply Forall_delete. eapply Forall_impl; [exact Hf|]. intros [ip'|ip' z]; [done|]. cbn [flight_ok].
    rewrite ofKey_cons. intros Hb Hk. specialize (Hb Hk). case_decide; lia. }
  pose proof (view_length k (flights s)) as Hlen.
  refine (conj _ (conj _ (conj _ (conj _ _))));
    [done|cbn [flights]; rewrite length_delete by done; lia| |exact Hmono|];
    cbn [mem flights rides setCount] in *; rewrite ofKey_cons; unfold counterOf in *.
  - cbn [setCount freebieCounter]. destruct (decide (getKey ip = k)) as [Hk|Hk].
    + rewrite Hk, lookup_insert_eq. specialize (Hz Hk). cbn. lia.
    + rewrite lookup_insert_ne by done. cbn. lia.
  - apply list_elem_of_split_length in Hi as (l1 & l2 & Hfs & ->).
    unfold viewOf in *. cbn [mem flights] in *. rewrite Hfs in *. rewrite delete_middle.
    rewrite !omap_app, !sum_list_with_app in *. cbn [omap list_omap sum_list_with] in *.
    cbn [pendingOf waitingOf] in *. unfold counterOf in *. cbn [setCount freebieCounter].
    destruct (decide (getKey ip = k)) as [Hk|Hk]; [|by rewrite lookup_insert_ne by done].
    rewrite Hk, lookup_insert_eq. cbn [default from_option id]. specialize (Hz Hk).
    eapply Nat.le_lt_trans; [|exact Hp]. rewrite Nat.add_succ_l, <- Nat.add_succ_r.
    apply Nat.add_le_mono_l. cbn [Nat.add]. apply potential_ride; [by rewrite Permutation_middle|lia|].
    rewrite !length_app in *. cbn [length] in *. lia.
Qed.

Lemma bounded_exec n c k s acts s' :
  (Z.of_nat (configs n c) < 2 ^ 16)%Z -> bounded n c k s -> exec c s acts = Some s' -> bounded n c k s'.
Proof.
  intros H16. revert s. induction acts as [|a acts IH]; intros s Hs; cbn [exec]; [by intros [= <-]|].
  destruct (act c s a) as [s1|] eqn:E; [|done]. cbn [mbind option_bind]. apply IH.
  destruct a as [ip|i]; [by eapply bounded_arrive|].
  destruct (flights s !! i) as [[ip|ip z]|] eqn:Hi; [by eapply bounded_read|by eapply bounded_write|].
  cbn [act] in E. by rewrite Hi in E.
Qed.

(** *** The bound is reached *)

Lemma exec_app c s a b : exec c s (a ++ b) = exec c s a ≫= fun s' => exec c s' b.
Proof.
  revert s. induction a as [|x a IH]; intros s; [done|]. cbn. destruct (act c s x); [apply IH|done].
Qed.

(** With [f] free places, requests of one network that all start while its counter
    is [v] can make it lose all but their own updates, one inside the other. *)
Lemma exec_surge n c ip f d s :
  numFreebies (mem s) = Z.of_nat n -> length (flights s) + f <= c -> (Z.of_nat n < 2 ^ 16)%Z ->
  (currentCount (mem s) ip + Z.of_nat d = Z.of_nat n)%Z -> (0 <= currentCount (mem s) ip)%Z ->
  exists acts s', exec c s acts = Some s' /\ numFreebies (mem s') = Z.of_nat n /\
    flights s' = flights s /\
    S (ofKey (getKey ip) (rides s')) = ofKey (getKey ip) (rides s) + configs d f.
Proof.
  intros Hn Hl H16. revert d s Hn Hl. induction f as [|f IHf]; intros d s Hn Hl.
  { intros _ _. exists [], s. rewrite configs_0_r. split_and!; [done..|lia]. }
  revert s Hn Hl. induction d as [|d IHd]; intros s Hn Hl Hc H0.
  { exists [], s. cbn [configs]. split_and!; [done..|lia]. }
  (* one request passes and reads the counter *)
  set (v := nextCount (mem s) ip).
  set (s1 := {| mem := mem s; flights := Tallying ip v :: flights s; rides := rides s |}).
  assert (H1 : exec c s [Arrive ip; Resume 0] = Some s1).
  { cbn [exec act]. rewrite decide_True by lia. cbn [mbind option_bind].
    rewrite decide_True by (apply CanPass_spec; lia). done. }
  (* the others come in its shadow *)
  destruct (IHf (S d) s1) as (a2 & s2 & H2 & Hn2 & Hf2 & Hr2); [done|cbn; lia|done|done|].
  (* it writes *)
  set (s3 := {| mem := setCount (mem s2) ip v; flights := flights s; rides := ip :: rides s2 |}).
  assert (H3 : exec c s2 [Resume 0] = Some s3) by (cbn [exec act]; by rewrite Hf2).
  assert (Hv : currentCount (mem s3) ip = (currentCount (mem s) ip + 1)%Z).
  { unfold currentCount at 1. cbn [s3 mem setCount freebieCounter]. rewrite lookup_insert_eq.
    apply u16_small. unfold is_u16. lia. }
  destruct (IHd s3) as (a4 & s4 & H4 & Hn4 & Hf4 & Hr4); [done|cbn; lia|lia|lia|].
  exists ([Arrive ip; Resume 0] ++ a2 ++ [Resume 0] ++ a4), s4.
  rewrite exec_app, H1. cbn [mbind option_bind]. rewrite exec_app, H2. cbn [mbind option_bind].
  rewrite exec_app, H3. split_and!; [done..|].
  cbn [s3 rides] in Hr4. rewrite ofKey_cons, decide_True in Hr4 by done. rewrite configs_S.
  cbn [s1 rides] in Hr2. lia.
Qed.

(** A counter at the largest value starts again at zero. *)
Lemma counter_wraps m ip :
  currentCount m ip = 65535%Z -> currentCount (TallyFreebie m ip).1 ip = 0%Z.
Proof.
  intros Hc. unfold currentCount at 1. cbn [TallyFreebie setCount fst freebieCounter].
  rewrite lookup_insert_eq. unfold nextCount. by rewrite Hc.
Qed.
Close Scope nat_scope.
End Concurrent.

(** ** Properties *)
Module FreebieProperties.
Import MemStore.

(** In every sequence of requests the store lets through exactly the first
    ones of each key, as many as the limit, and the 16-bit counter of a key is
    their number: it never wraps. *)
Theorem freebies_are_counted n ips ip :
  is_u16 n ->
  currentCount (run (NewMemIPMaskStore n) ips).1 ip =
    granted (getKey ip) ips (run (NewMemIPMaskStore n) ips).2 /\
  granted (getKey ip) ips (run (NewMemIPMaskStore n) ips).2 = Z.min n (asked (getKey ip) ips).
Proof.
  intros Hn. pose proof (run_counts n ips ip Hn) as H.
  destruct (run _ ips) as [m out]. cbn [fst snd]. tauto.
Qed.

Definition some_ips : list IP :=
  [v4 Byte.x01 Byte.x02 Byte.x03 Byte.x04; v4 Byte.x01 Byte.x02 Byte.x03 Byte.x05;
   v4 Byte.x01 Byte.x02 Byte.x03 Byte.x06; v4 Byte.x09 Byte.x02 Byte.x03 Byte.x04].
Lemma freebies_are_counted_witness :
  granted (getKey (v4 Byte.x01 Byte.x02 Byte.x03 Byte.x04)) some_ips
    (run (NewMemIPMaskStore 2) some_ips).2 =
  Z.min 2 (asked (getKey (v4 Byte.x01 Byte.x02 Byte.x03 Byte.x04)) some_ips).
Proof. apply (freebies_are_counted 2). split; [discriminate|reflexivity]. Defined.

(** two IPv4 clients share a counter exactly when they are in the same /24
    network, while all clients that are not IPv4 share a single one. *)
Theorem freebie_networks a b c d a' b' c' d' ip :
  (getKey (v4 a b c d) = getKey (v4 a' b' c' d') <-> (a, b, c) = (a', b', c')) /\
  (length ip = 16%nat -> take 12 ip ≠ v4InV6Prefix -> getKey ip = "<nil>").
Proof. split; [apply getKey_v4 | apply getKey_v6]. Qed.

Lemma freebie_networks_witness : getKey (replicate 15 Byte.x00 ++ [Byte.x01]) = "<nil>".
Proof.
  apply (freebie_networks Byte.x01 Byte.x01 Byte.x01 Byte.x01 Byte.x01 Byte.x01 Byte.x01 Byte.x01
           (replicate 15 Byte.x00 ++ [Byte.x01])).
  - reflexivity.
  - vm_compute. discriminate.
Defined.
(** C23: requests at the same time: the check, the reading and the writing of a
    counter are three moments, so that a tally can be lost.  When at most [c]
    requests are served together and the service has [n] freebies, a network gets at
    most [(n + c)! / (n! c!) - 1] rides, however the moments of the requests
    interleave, and some interleaving gives it that many: the configured [n] only for
    requests one after the other ([c = 1]), 9 for [n = 2] and [c = 3].  (The number
    is below 2^16, so that the counter does not wrap.) *)
Theorem free_rides_under_concurrency n c :
  (0 < n)%nat -> (0 < c)%nat -> Z.of_nat (Concurrent.configs n c) < 2 ^ 16 ->
  (Concurrent.configs n c * (fact n * fact c) = fact (n + c))%nat /\
  (forall acts s ip, Concurrent.exec c (Concurrent.start (Z.of_nat n)) acts = Some s ->
     (Concurrent.ofKey (getKey ip) (Concurrent.rides s) <= Concurrent.configs n c - 1)%nat) /\
  (forall ip, exists acts s, Concurrent.exec c (Concurrent.start (Z.of_nat n)) acts = Some s /\
     Concurrent.ofKey (getKey ip) (Concurrent.rides s) = (Concurrent.configs n c - 1)%nat).
Proof.
  intros H0 Hc H16. split; [apply Concurrent.configs_binomial|]. split.
  - intros acts s ip He.
    destruct (Concurrent.bounded_exec n c (getKey ip) _ _ _ H16 (Concurrent.bounded_start n c _ H0) He)
      as (_ & _ & _ & _ & Hb). lia.
  - intros ip. assert (Hn : Z.of_nat n < 2 ^ 16).
    { pose proof (Concurrent.configs_mono_s n 1 c Hc). pose proof (Concurrent.configs_1 n). lia. }
    destruct (Concurrent.exec_surge n c ip c n (Concurrent.start (Z.of_nat n)))
      as (acts & s & He & _ & _ & Hr); [done|done|done|..].
    + unfold currentCount. cbn. rewrite lookup_empty. lia.
    + unfold currentCount. cbn. by rewrite lookup_empty.
    + exists acts, s. split; [done|]. change (Concurrent.ofKey _ (Concurrent.rides (Concurrent.start _))) with 0%nat in Hr.
      lia.
Qed.

Lemma free_rides_under_concurrency_witness :
  exists acts s, Concurrent.exec 3 (Concurrent.start 2) acts = Some s /\
    Concurrent.ofKey (getKey (v4 Byte.x01 Byte.x02 Byte.x03 Byte.x04)) (Concurrent.rides s) = 9%nat.
Proof.
  destruct (free_rides_under_concurrency 2 3) as (_ & _ & H); [lia|lia|vm_compute; reflexivity|].
  apply (H (v4 Byte.x01 Byte.x02 Byte.x03 Byte.x04)).
Defined.
End FreebieProperties.
