(* ===== verification/Service.v ===== *)
(** * Backend services and their prices: [proxy/service.go], [pricer/]

    Regular expressions are compiled and matched by Go's [regexp], whose
    language is not modelled: [Compile] is a parameter, the matcher of a
    pattern or nothing.  The price server behind a [GRPCPricer] is a parameter
    too. *)
From S2P Require Import Prelude.
From S2P Require Import GoStrings.
From S2P Require Import GoCodec.
From S2P Require Import Http.
From S2P Require Import GoNet.
From S2P Require Import Freebie.

(** ** [pricer/]: the interface and its two implementations *)
Module Pricer.

(** [GetPaymentDetails] returns the recipient and the price; it may read the
    body of the request it is given. *)
Record t := {
  GetPaymentDetails : request -> request * outcome (string * Z);
  Close : outcome unit
}.

Definition NewDefaultPricer (price : Z) : t := {|
  GetPaymentDetails r := (r, Ok ("", price));
  Close := Ok tt
|}.

Record Config := {
  Enabled : bool;
  GRPCAddress : string;
  Insecure : bool;
  TLSCertPath : string
}.

(** A connection to the price server: the RPC, given the path and the text of
    the request, and the result of closing the connection. *)
Record rpcConn := {
  rpcGetPaymentDetails : string -> string -> outcome (string * Z);
  rpcClose : outcome unit
}.

Record env := {
  NewClientTLSFromFile : string -> outcome unit;
  Dial : string -> outcome rpcConn;
  requestText : request -> outcome string    (* [r.Write(&b)] *)
}.

(** [r.Write] reads the whole body. *)
Definition GRPCPricer (e : env) (c : rpcConn) : t := {|
  GetPaymentDetails r :=
    (with_body r "",
     b ← requestText e r;
     rpcGetPaymentDetails c (rPath r) b);
  Close := rpcClose c
|}.

Definition NewGRPCPricer (e : env) (cfg : Config) : outcome t :=
  _ ← (if Insecure cfg then Ok tt
       else errorf "unable to load TLS cert" (NewClientTLSFromFile e (TLSCertPath cfg)));
  c ← Dial e (GRPCAddress cfg);
  Ok (GRPCPricer e c).

End Pricer.

(** ** [proxy/service.go] *)
Module Service.

Definition filePrefix : string := "!file".
Definition filePrefixHex : string := "!file+hex".
Definition filePrefixBase64 : string := "!file+base64".
Definition defaultServicePrice : Z := 1.
Definition SatoshiPerBitcoin : Z := 100000000.
Definition maxServicePrice : Z := SatoshiPerBitcoin * 100000.

Record t := {
  Name : string;
  TLSCertPath : string;
  Address : string;
  Protocol : string;
  Auth : string;
  HostRegexp : string;
  PathRegexp : string;
  Headers : gmap string string;
  Timeout : Z;
  Capabilities : string;
  Constraints : list (string * string);     (* the map, in the order it is walked *)
  Price : Z;
  DynamicPrice : Pricer.Config;
  AuthWhitelistPaths : list string;
  freebieDB : option MemStore.t;
  pricer : option Pricer.t
}.

Definition set_freebieDB (s : t) (db : option MemStore.t) : t :=
  {| Name := Name s; TLSCertPath := TLSCertPath s; Address := Address s; Protocol := Protocol s;
     Auth := Auth s; HostRegexp := HostRegexp s; PathRegexp := PathRegexp s;
     Headers := Headers s; Timeout := Timeout s; Capabilities := Capabilities s;
     Constraints := Constraints s; Price := Price s; DynamicPrice := DynamicPrice s;
     AuthWhitelistPaths := AuthWhitelistPaths s; freebieDB := db; pricer := pricer s |}.
Definition set_Headers (s : t) (h : gmap string string) : t :=
  {| Name := Name s; TLSCertPath := TLSCertPath s; Address := Address s; Protocol := Protocol s;
     Auth := Auth s; HostRegexp := HostRegexp s; PathRegexp := PathRegexp s;
     Headers := h; Timeout := Timeout s; Capabilities := Capabilities s;
     Constraints := Constraints s; Price := Price s; DynamicPrice := DynamicPrice s;
     AuthWhitelistPaths := AuthWhitelistPaths s; freebieDB := freebieDB s; pricer := pricer s |}.
Definition set_pricer (s : t) (price : Z) (p : Pricer.t) : t :=
  {| Name := Name s; TLSCertPath := TLSCertPath s; Address := Address s; Protocol := Protocol s;
     Auth := Auth s; HostRegexp := HostRegexp s; PathRegexp := PathRegexp s;
     Headers := Headers s; Timeout := Timeout s; Capabilities := Capabilities s;
     Constraints := Constraints s; Price := price; DynamicPrice := DynamicPrice s;
     AuthWhitelistPaths := AuthWhitelistPaths s; freebieDB := freebieDB s; pricer := Some p |}.

Record env := {
  Compile : string -> option (string -> bool);   (* [regexp.Compile], [MatchString] *)
  ReadFile : string -> outcome (list byte);
  grpc : Pricer.env
}.

Section Service.
Variable e : env.

(** [regexp.MustCompile(p).MatchString(s)] *)
Definition MustMatch (p s : string) : outcome bool :=
  match Compile e p with
  | Some m => Ok (m s)
  | None => Panic "regexp: Compile"
  end.

Definition ResourceName (s : t) (resourcePath : string) : string :=
  if Pricer.Enabled (DynamicPrice s) then Name s +:+ resourcePath else Name s.

Fixpoint whitelisted (paths : list string) (path : string) : outcome bool :=
  match paths with
  | [] => Ok false
  | p :: rest =>
      m ← MustMatch p path;
      if (m : bool) then Ok true else whitelisted rest path
  end.

Definition AuthRequired (s : t) (r : request) : outcome string :=
  w ← whitelisted (AuthWhitelistPaths s) (rPath r);
  Ok (if (w : bool) then Level.LevelOff else Auth s).

(** The new value of one configured header field. *)
Definition headerValue (value : string) : outcome string :=
  if HasPrefix value filePrefix then
    match Split value ":" with
    | [prefix; fileName] =>
        bytes ← ReadFile e fileName;
        if decide (prefix = filePrefixHex) then Ok (hex_EncodeToString bytes)
        else if decide (prefix = filePrefixBase64) then Ok (b64_EncodeToString bytes)
        else Err (Errorf "unsupported file prefix format")
    | _ => Err (Errorf "invalid header config, must be '!file+hex:path'")
    end
  else Ok value.

Fixpoint replaceHeaders (entries : list (string * string)) (h : gmap string string) :
    gmap string string * outcome unit :=
  match entries with
  | [] => (h, Ok tt)
  | (key, value) :: rest =>
      match headerValue value with
      | Ok v => replaceHeaders rest (<[key := v]> h)
      | Err er => (h, Err er)
      | Panic m => (h, Panic m)
      end
  end.

Fixpoint checkWhitelist (paths : list string) : outcome unit :=
  match paths with
  | [] => Ok tt
  | entry :: rest =>
      match Compile e entry with
      | Some _ => checkWhitelist rest
      | None => Err (Errorf "error validating auth whitelist")
      end
  end.

(** The freebie store of one service. *)
Definition prepareFreebie (s : t) : outcome t :=
  if Level.IsFreebie (Auth s) then
    n ← Level.FreebieCount (Auth s);
    Ok (set_freebieDB s (Some (MemStore.NewMemIPMaskStore n)))
  else Ok s.

(** The pricer of one service. *)
Definition preparePricer (s : t) : outcome t :=
  if Pricer.Enabled (DynamicPrice s) then
    p ← errorf "error initializing pricer" (Pricer.NewGRPCPricer (grpc e) (DynamicPrice s));
    Ok (set_pricer s (Price s) p)
  else if decide (Price s = 0) then
    Ok (set_pricer s defaultServicePrice (Pricer.NewDefaultPricer defaultServicePrice))
  else if decide (Price s < 0) then Err (Errorf "negative price set for service")
  else if decide (maxServicePrice < Price s) then Err (Errorf "maximum price exceeded for service")
  else Ok (set_pricer s (Price s) (Pricer.NewDefaultPricer (Price s))).

(** One round of the loop: what the service has become, and how it went. *)
Definition prepareService (s : t) : t * outcome unit :=
  match prepareFreebie s with
  | Ok s1 =>
      let '(h, r) := replaceHeaders (map_to_list (Headers s1)) (Headers s1) in
      let s2 := set_Headers s1 h in
      match (_ ← r; _ ← checkWhitelist (AuthWhitelistPaths s2); preparePricer s2) with
      | Ok s3 => (s3, Ok tt)
      | Err er => (s2, Err er)
      | Panic m => (s2, Panic m)
      end
  | Err er => (s, Err er)
  | Panic m => (s, Panic m)
  end.

(** The services are updated in place, up to the first failure. *)
Fixpoint prepareServices (services : list t) : list t * outcome unit :=
  match services with
  | [] => ([], Ok tt)
  | s :: rest =>
      match prepareService s with
      | (s', Ok _) => let '(rest', r) := prepareServices rest in (s' :: rest', r)
      | (s', Err er) => (s' :: rest, Err er)
      | (s', Panic m) => (s' :: rest, Panic m)
      end
  end.

(** ** What a prepared service is *)
Definition prepared (s : t) : Prop :=
  (exists p, pricer s = Some p) /\
  (Level.IsFreebie (Auth s) = true ->
   exists n, Level.FreebieCount (Auth s) = Ok n /\
             freebieDB s = Some (MemStore.NewMemIPMaskStore n)) /\
  Forall (fun p => is_Some (Compile e p)) (AuthWhitelistPaths s) /\
  (Pricer.Enabled (DynamicPrice s) = false ->
   1 <= Price s <= maxServicePrice /\
   pricer s = Some (Pricer.NewDefaultPricer (Price s))).

Lemma checkWhitelist_Ok paths :
  checkWhitelist paths = Ok tt <-> Forall (fun p => is_Some (Compile e p)) paths.
Proof.
  induction paths as [|p paths IH]; cbn; [done|]. rewrite Forall_cons, <- IH.
  destruct (Compile e p); [|split; [done|by intros [[] _]]]. naive_solver.
Qed.

Lemma prepareFreebie_Ok s s' :
  prepareFreebie s = Ok s' ->
  Auth s' = Auth s /\ Price s' = Price s /\ DynamicPrice s' = DynamicPrice s /\
  (Level.IsFreebie (Auth s) = true ->
   exists n, Level.FreebieCount (Auth s) = Ok n /\
             freebieDB s' = Some (MemStore.NewMemIPMaskStore n)).
Proof.
  unfold prepareFreebie. destruct (Level.IsFreebie (Auth s)).
  - intros E. apply bind_Ok_inv in E as (n & Hn & E). apply (inj Ok) in E as <-.
    split; [done|]. split; [done|]. split; [done|]. by exists n.
  - by intros [= <-].
Qed.

Lemma preparePricer_Ok s s' :
  preparePricer s = Ok s' ->
  (exists price p, s' = set_pricer s price p) /\
  (Pricer.Enabled (DynamicPrice s) = false ->
   1 <= Price s' <= maxServicePrice /\ pricer s' = Some (Pricer.NewDefaultPricer (Price s'))).
Proof.
  unfold preparePricer. destruct (Pricer.Enabled (DynamicPrice s)).
  - intros E. apply bind_Ok_inv in E as (p & _ & E). apply (inj Ok) in E as <-.
    split; [by eauto|done].
  - repeat case_decide; try done; intros E; apply (inj Ok) in E as <-;
      (split; [by eauto|]); intros _; cbn [Price pricer set_pricer];
      unfold defaultServicePrice, maxServicePrice, SatoshiPerBitcoin in *; (split; [lia|done]).
Qed.

Lemma prepareService_Ok s s' : prepareService s = (s', Ok tt) -> prepared s'.
Proof.
  unfold prepareService. destruct (prepareFreebie s) as [s1| |] eqn:Ef; [|done..].
  apply prepareFreebie_Ok in Ef as (Ha & Hp & Hd & Hf).
  destruct (replaceHeaders _ _) as [h r]. set (s2 := set_Headers s1 h).
  destruct (_ ≫= _) as [s3| |] eqn:E; [|done..]. intros [= <-].
  apply bind_Ok_inv in E as (u1 & _ & E). apply bind_Ok_inv in E as (u2 & Hw & E).
  destruct u2. apply checkWhitelist_Ok in Hw.
  apply preparePricer_Ok in E as ((price & p & ->) & Hpr).
  split; [by exists p|]. cbn [Auth freebieDB set_pricer set_Headers s2 AuthWhitelistPaths].
  split; [by rewrite Ha|]. split; [done|]. exact Hpr.
Qed.

Lemma prepareServices_Ok services services' :
  prepareServices services = (services', Ok tt) ->
  Forall2 (fun s s' => prepareService s = (s', Ok tt)) services services'.
Proof.
  revert services'; induction services as [|s rest IH]; intros services'; cbn.
  - intros [= <-]. constructor.
  - destruct (prepareService s) as [s' [[]| |]] eqn:E; [|done..].
    destruct (prepareServices rest) as [rest' r]. intros [= <- ->]. constructor; [done|]. by apply IH.
Qed.

(** On a prepared service the level of a request can be determined. *)
Lemma whitelisted_Ok paths path :
  Forall (fun p => is_Some (Compile e p)) paths -> exists b, whitelisted paths path = Ok b.
Proof.
  induction 1 as [|p paths [m Hm] Hp IH]; cbn; [by exists false|].
  unfold MustMatch. rewrite Hm. cbn. destruct (m path); [by exists true|done].
Qed.

Lemma AuthRequired_Ok s r : prepared s -> exists l, AuthRequired s r = Ok l.
Proof.
  intros (_ & _ & Hw & _). unfold AuthRequired.
  destruct (whitelisted_Ok _ (rPath r) Hw) as [b ->]. cbn. eauto.
Qed.
End Service.
End Service.

(** ** Properties *)
Module ServiceProperties.
Import Service.

Definition toy_env : env := {|
  Compile p := if decide (p = "(") then None else Some (fun s => bool_decide (s = p));
  ReadFile _ := Ok [Byte.x61; Byte.x62];
  grpc := {| Pricer.NewClientTLSFromFile _ := Ok tt;
             Pricer.Dial _ := Ok {| Pricer.rpcGetPaymentDetails _ _ := Ok ("a@b.c", 10);
                                    Pricer.rpcClose := Ok tt |};
             Pricer.requestText _ := Ok "" |}
|}.
Definition toy_service : t := {|
  Name := "loop"; TLSCertPath := ""; Address := "10.0.0.1:80"; Protocol := "http";
  Auth := "freebie 2"; HostRegexp := "h"; PathRegexp := "";
  Headers := {["X-Secret" := "!file+hex:f"]}; Timeout := 300; Capabilities := "all";
  Constraints := [("valid", "yes")]; Price := 0;
  DynamicPrice := {| Pricer.Enabled := false; Pricer.GRPCAddress := ""; Pricer.Insecure := false;
                     Pricer.TLSCertPath := "" |};
  AuthWhitelistPaths := ["/open"]; freebieDB := None; pricer := None |}.
Definition toy_prepared : list t := (prepareServices toy_env [toy_service]).1.

(** When the preparation succeeds, every service has a pricer and, if it
    gives freebies, a fresh counter with its limit; all whitelist patterns
    compile, so that the level of a request is always determined; and a static
    price is between one satoshi and the maximum. *)
Theorem services_are_prepared e services services' :
  prepareServices e services = (services', Ok tt) ->
  Forall (fun s => prepared e s /\ forall r, exists l, AuthRequired e s r = Ok l) services'.
Proof.
  intros E. apply prepareServices_Ok in E.
  induction E as [|s s' services services' Hs _ IH]; constructor; [|done].
  apply prepareService_Ok in Hs. split; [done|]. intros r. by apply AuthRequired_Ok.
Qed.

Lemma services_are_prepared_witness :
  Forall (fun s => prepared toy_env s /\ forall r, exists l, AuthRequired toy_env s r = Ok l)
    toy_prepared.
Proof. apply (services_are_prepared toy_env [toy_service] toy_prepared). reflexivity. Defined.
End ServiceProperties.
