(* ===== verification/Limiter.v ===== *)
(** * The static service limiter: [services.go]

    It implements the mint's [ServiceLimiter] with three maps keyed by the whole
    [lsat.Service], the recipient and the price included. *)
From S2P Require Import Prelude.
From S2P Require Import GoStrings.
From S2P Require Import GoTime.
From S2P Require Import Caveat.
From S2P Require Import Sha256.
From S2P Require Import Macaroon.
From S2P Require Import Mint.
From S2P Require Import Http.
From S2P Require Import Service.

Module Limiter.

Record staticServiceLimiter := {
  capabilities : gmap LsatService.t Caveat.t;
  constraints : gmap LsatService.t (list Caveat.t);
  timeouts : gmap LsatService.t Caveat.t
}.

Definition key (s : Service.t) : LsatService.t := {|
  LsatService.Name := Service.Name s;
  LsatService.Tier := LsatService.BaseTier;
  LsatService.RecipientLud16 := "";
  LsatService.Price := Service.Price s
|}.

Definition constraintCaveat (p : string * string) : Caveat.t :=
  {| Caveat.Condition := p.1; Caveat.Value := p.2 |}.

(** One round of the loop; [now] is the instant [time.Now] shows in it. *)
Definition addService (now : time) (l : staticServiceLimiter) (p : Service.t) :
    staticServiceLimiter :=
  let s := key p in {|
    timeouts :=
      if decide (0 < Service.Timeout p)
      then <[s := LsatService.NewTimeoutCaveat (Service.Name p) (Service.Timeout p) now]> (timeouts l)
      else timeouts l;
    capabilities :=
      <[s := LsatService.NewCapabilitiesCaveat (Service.Name p) (Service.Capabilities p)]>
        (capabilities l);
    constraints :=
      foldl (fun m c => <[s := default [] (m !! s) ++ [constraintCaveat c]]> m)
        (constraints l) (Service.Constraints p)
  |}.

Definition newStaticServiceLimiter (now : time) (proxyServices : list Service.t) :
    staticServiceLimiter :=
  foldl (addService now) {| capabilities := ∅; constraints := ∅; timeouts := ∅ |} proxyServices.

(** The three queries skip the services the maps do not know. *)
#[global] Instance limiter : ServiceLimiter staticServiceLimiter := {|
  ServiceCapabilities l services := Ok (omap (fun s => capabilities l !! s) services);
  ServiceConstraints l services :=
    Ok (concat (omap (fun s => constraints l !! s) services));
  ServiceTimeouts l services := Ok (omap (fun s => timeouts l !! s) services)
|}.

(** ** What the limiter applies *)

Lemma constraints_fold (s k : LsatService.t) cs (m : gmap LsatService.t (list Caveat.t)) :
  foldl (fun (m : gmap LsatService.t (list Caveat.t)) c =>
    <[s := default [] (m !! s) ++ [constraintCaveat c]]> m) m cs !! k =
  if decide (s = k /\ cs ≠ []) then Some (default [] (m !! s) ++ (constraintCaveat <$> cs))
  else m !! k.
Proof.
  induction cs as [|c cs IH] using rev_ind.
  - rewrite decide_False by tauto. done.
  - rewrite foldl_snoc, lookup_insert. destruct (decide (s = k)) as [<-|Hne].
    + rewrite (decide_True (P := s = s /\ cs ++ [c] ≠ [])) by (split; [done|by destruct cs]).
      rewrite IH. f_equal. rewrite fmap_app. destruct cs as [|c' cs].
      * rewrite decide_False by tauto. done.
      * rewrite decide_True by done. cbn. by rewrite <- app_assoc.
    + rewrite IH. rewrite !decide_False by tauto. done.
Qed.

(** The caveats of a configured service, asked for with the price the limiter
    was built with and no recipient. *)
Lemma single_lookup now p :
  let l := newStaticServiceLimiter now [p] in
  capabilities l !! key p =
    Some (LsatService.NewCapabilitiesCaveat (Service.Name p) (Service.Capabilities p)) /\
  timeouts l !! key p =
    (if decide (0 < Service.Timeout p)
     then Some (LsatService.NewTimeoutCaveat (Service.Name p) (Service.Timeout p) now)
     else None) /\
  default [] (constraints l !! key p) = constraintCaveat <$> Service.Constraints p.
Proof.
  unfold newStaticServiceLimiter. cbn [foldl addService capabilities timeouts constraints].
  rewrite lookup_insert_eq. split; [done|]. split.
  - case_decide; [by rewrite lookup_insert_eq | by rewrite lookup_empty].
  - rewrite constraints_fold. rewrite lookup_empty. cbn [default from_option id app].
    destruct (Service.Constraints p) as [|c cs].
    + rewrite decide_False by tauto. done.
    + rewrite decide_True by done. done.
Qed.

(** The keys of the maps are keys of configured services. *)
Definition keyed (l : staticServiceLimiter) (ps : list Service.t) : Prop :=
  forall s, is_Some (capabilities l !! s) \/ is_Some (constraints l !! s) \/
            is_Some (timeouts l !! s) -> exists p, p ∈ ps /\ s = key p.

Lemma keyed_add now l ps p : keyed l ps -> keyed (addService now l p) (ps ++ [p]).
Proof.
  intros Hk s Hs. destruct (decide (s = key p)) as [->|Hne]; [exists p; set_solver|].
  destruct (Hk s) as (q & Hq & ->); [|exists q; set_solver].
  unfold addService in Hs. cbn [capabilities constraints timeouts] in Hs.
  rewrite constraints_fold, (decide_False (P := key p = s /\ _)) in Hs by naive_solver.
  rewrite lookup_insert_ne in Hs by done.
  case_decide; [rewrite lookup_insert_ne in Hs by done|]; done.
Qed.

Lemma new_keyed now ps : keyed (newStaticServiceLimiter now ps) ps.
Proof.
  unfold newStaticServiceLimiter. induction ps as [|p ps IH] using rev_ind.
  - intros s. cbn. rewrite !lookup_empty. by intros [[]|[[]|[]]].
  - rewrite foldl_snoc. by apply keyed_add.
Qed.

(** A service the limiter has no key for gets no caveat at all. *)
Lemma unknown_service now ps s :
  (forall p, p ∈ ps -> s ≠ key p) ->
  let l := newStaticServiceLimiter now ps in
  ServiceCapabilities l [s] = Ok [] /\ ServiceConstraints l [s] = Ok [] /\
  ServiceTimeouts l [s] = Ok [].
Proof.
  intros Hs. cbn zeta. pose proof (new_keyed now ps s) as Hk.
  assert (forall A (m : gmap LsatService.t A),
    (is_Some (m !! s) -> exists p, p ∈ ps /\ s = key p) -> m !! s = None) as Hn.
  { intros A m Hm. destruct (m !! s) as [x|] eqn:E; [|done].
    destruct Hm as (p & Hp & ->); [eauto|]. by destruct (Hs p Hp). }
  cbn [ServiceCapabilities ServiceConstraints ServiceTimeouts limiter omap list_omap].
  rewrite (Hn _ (capabilities _)), (Hn _ (constraints _)), (Hn _ (timeouts _)) by tauto. done.
Qed.
(** A configured service among others with other keys. *)
Lemma fold_lookup now ps p l :
  key p ∉ (key <$> ps) ->
  let l' := foldl (addService now) l ps in
  capabilities l' !! key p = capabilities l !! key p /\
  timeouts l' !! key p = timeouts l !! key p /\
  constraints l' !! key p = constraints l !! key p.
Proof.
  induction ps as [|q ps IH] using rev_ind; intros Hn; [done|].
  rewrite fmap_app in Hn. apply not_elem_of_app in Hn as [Hn Hq].
  assert (Hne : key q ≠ key p) by (intros E; apply Hq; apply list_elem_of_singleton; by rewrite E).
  destruct (IH Hn) as (IH1 & IH2 & IH3). rewrite foldl_snoc.
  generalize dependent (foldl (addService now) l ps). intros l1 IH1 IH2 IH3.
  cbn [addService capabilities timeouts constraints].
  rewrite lookup_insert_ne by done. rewrite constraints_fold, (decide_False (P := key q = key p /\ _)) by tauto.
  split; [done|]. split; [|done]. case_decide; [by rewrite lookup_insert_ne|done].
Qed.

Lemma configured_lookup now ps1 p ps2 :
  key p ∉ (key <$> ps1) -> key p ∉ (key <$> ps2) ->
  let l := newStaticServiceLimiter now (ps1 ++ p :: ps2) in
  capabilities l !! key p =
    Some (LsatService.NewCapabilitiesCaveat (Service.Name p) (Service.Capabilities p)) /\
  timeouts l !! key p =
    (if decide (0 < Service.Timeout p)
     then Some (LsatService.NewTimeoutCaveat (Service.Name p) (Service.Timeout p) now)
     else None) /\
  default [] (constraints l !! key p) = constraintCaveat <$> Service.Constraints p.
Proof.
  intros H1 H2. unfold newStaticServiceLimiter. rewrite foldl_app. cbn [foldl]. cbn zeta.
  destruct (fold_lookup now ps2 p (addService now (foldl (addService now)
    {| capabilities := ∅; constraints := ∅; timeouts := ∅ |} ps1) p) H2) as (-> & -> & ->).
  destruct (fold_lookup now ps1 p {| capabilities := ∅; constraints := ∅; timeouts := ∅ |} H1)
    as (_ & E2 & E3). cbn [capabilities timeouts constraints] in E2, E3. rewrite lookup_empty in E2.
  rewrite lookup_empty in E3.
  cbn [addService capabilities timeouts constraints].
  rewrite lookup_insert_eq. split; [done|]. split.
  - case_decide; [by rewrite lookup_insert_eq | done].
  - rewrite constraints_fold. rewrite E3. cbn [default from_option id app].
    destruct (Service.Constraints p) as [|c cs].
    + by rewrite decide_False by tauto.
    + by rewrite decide_True.
Qed.

End Limiter.

(** ** Properties *)
Module LimiterProperties.
Import Limiter.

Definition timeoutCaveats (now : time) (p : Service.t) : list Caveat.t :=
  if decide (0 < Service.Timeout p)
  then [LsatService.NewTimeoutCaveat (Service.Name p) (Service.Timeout p) now] else [].

(** A token for a configured service, asked for with the price the limiter
    was built with and without a recipient, carries its services caveat, its
    capabilities, its constraints in order and, when it has one, the timeout
    counted from the construction of the limiter. *)
Theorem configured_service_caveats now ps1 p ps2 :
  key p ∉ (key <$> ps1) -> key p ∉ (key <$> ps2) -> Service.Name p ≠ "" ->
  Mint.caveatsForServices (newStaticServiceLimiter now (ps1 ++ p :: ps2)) [key p] =
    Ok ([Caveat.NewCaveat LsatService.CondServices (Service.Name p +:+ ":0");
         LsatService.NewCapabilitiesCaveat (Service.Name p) (Service.Capabilities p)] ++
        (constraintCaveat <$> Service.Constraints p) ++ timeoutCaveats now p).
Proof.
  intros H1 H2 Hn. destruct (configured_lookup now ps1 p ps2 H1 H2) as (Hc & Ht & Hk).
  unfold Mint.caveatsForServices, LsatService.NewServicesCaveat.
  cbn [LsatService.encodeServicesCaveatValue LsatService.encodeServices].
  change (LsatService.Name (key p)) with (Service.Name p). rewrite decide_False by done.
  cbn [mbind outcome_bind ServiceCapabilities ServiceConstraints ServiceTimeouts limiter
       omap list_omap option_bind].
  rewrite Hc, Ht.
  assert (Hk' : concat match constraints (newStaticServiceLimiter now (ps1 ++ p :: ps2)) !! key p with
                       | Some y => [y] | None => [] end = constraintCaveat <$> Service.Constraints p).
  { rewrite <- Hk. destruct (constraints _ !! key p); [apply app_nil_r|done]. }
  rewrite Hk'. unfold timeoutCaveats. by case_decide.
Qed.

Lemma configured_service_caveats_witness :
  Mint.caveatsForServices (newStaticServiceLimiter (Unix 1000) [ServiceProperties.toy_service])
    [key ServiceProperties.toy_service] =
  Ok [Caveat.NewCaveat "services" "loop:0"; Caveat.NewCaveat "loop_capabilities" "all";
      Caveat.NewCaveat "valid" "yes"; Caveat.NewCaveat "loop_valid_until" "1300"].
Proof.
  apply (configured_service_caveats (Unix 1000) [] ServiceProperties.toy_service []).
  - apply not_elem_of_nil.
  - apply not_elem_of_nil.
  - discriminate.
Defined.

(** A service that is asked for with another name, price or recipient than
    the limiter was built with, as dynamic prices and the default price make it,
    gets no capability, no constraint and no timeout. *)
Theorem changed_service_unrestricted now ps s :
  (forall p, p ∈ ps -> s ≠ key p) ->
  let l := newStaticServiceLimiter now ps in
  ServiceCapabilities l [s] = Ok [] /\ ServiceConstraints l [s] = Ok [] /\
  ServiceTimeouts l [s] = Ok [].
Proof. apply unknown_service. Qed.

(** The service as the proxy asks for it once its default price is set. *)
Definition asked_service : LsatService.t := {|
  LsatService.Name := "loop"; LsatService.Tier := 0; LsatService.RecipientLud16 := "";
  LsatService.Price := 1 |}.
Lemma changed_service_unrestricted_witness :
  ServiceTimeouts (newStaticServiceLimiter (Unix 1000) [ServiceProperties.toy_service])
    [asked_service] = Ok [].
Proof.
  apply (changed_service_unrestricted (Unix 1000) [ServiceProperties.toy_service] asked_service).
  intros p Hp%list_elem_of_singleton. rewrite Hp. discriminate.
Defined.
End LimiterProperties.
