(* ===== verification/Auth.v ===== *)
(** * Authentication: [auth/interface.go], [auth/authenticator.go],
    [auth/mock_authenticator.go]

    The interfaces between the proxy, the authenticator, the mint and the
    challenger, and the two implementations of [Authenticator]. *)
From S2P Require Import Prelude.
From S2P Require Import GoStrings.
From S2P Require Import GoCodec.
From S2P Require Import GoTime.
From S2P Require Import Caveat.
From S2P Require Import Macaroon.
From S2P Require Import Http.
From S2P Require Import Header.
From S2P Require Import Challenge.
From S2P Require Import Secrets.
From S2P Require Import Mint.

(** ** The interfaces of [auth/interface.go] *)

(** [lnrpc.Invoice_InvoiceState] *)
Inductive InvoiceState := OPEN | SETTLED | CANCELED | ACCEPTED.
#[global] Instance InvoiceState_eq_dec : EqDecision InvoiceState.
Proof. solve_decision. Defined.

Definition DefaultInvoiceLookupTimeout : Z := Seconds 3.

Class InvoiceChecker (K : Type) := {
  VerifyInvoiceStatus : K -> list byte -> InvoiceState -> Z -> outcome unit;
  VerifyRightsWithinExpiry : K -> list byte -> Z -> outcome unit
}.

Class Minter `{L402Lib} (M : Type) := {
  mint_MintL402 : M -> list LsatService.t -> M * outcome (macaroon * string);
  mint_VerifyL402 : M -> Mint.VerificationParams -> outcome unit
}.

(** A request is passed by reference: the header it comes back with may have
    changed, and a returned header is that same map. *)
Class Authenticator (A : Type) := {
  Accept : A -> header -> string -> bool;
  FreshChallengeHeader : A -> request -> string -> string -> Z -> A * request * outcome header
}.

(** A fresh challenge is set in the header of the request, and nothing else of
    the request changes. *)
Class AuthenticatorLaws (A : Type) `{!Authenticator A} : Prop := {
  fresh_header a r n rc pc a' r' h :
    FreshChallengeHeader a r n rc pc = (a', r', Ok h) ->
    exists str, h = Set_ (rHeader r) "WWW-Authenticate" str /\ r' = with_header r h
}.

(** ** The mint as a [Minter]

    Its challenger may answer differently each time: an invoice has a payment hash
    of its own. *)
Record mint_state (S C L : Type) := {
  ms_secrets : S;
  ms_challenger : nat -> C;
  ms_limiter : L;
  ms_rand : nat -> outcome (list byte);   (* the draws of [crypto/rand] *)
  ms_draws : nat;
  ms_now : time
}.
Arguments ms_secrets {S C L}.
Arguments ms_challenger {S C L}.
Arguments ms_limiter {S C L}.
Arguments ms_rand {S C L}.
Arguments ms_draws {S C L}.
Arguments ms_now {S C L}.

#[global] Instance mint_minter `{L402Lib} {S C L} `{!SecretStore S, !Challenger C, !ServiceLimiter L} :
    Minter (mint_state S C L) := {|
  mint_MintL402 m services :=
    let '(s', r) := Mint.MintL402 (ms_challenger m (ms_draws m)) (ms_limiter m) (ms_rand m (ms_draws m))
                      (ms_secrets m) services in
    ({| ms_secrets := s'; ms_challenger := ms_challenger m; ms_limiter := ms_limiter m;
        ms_rand := ms_rand m; ms_draws := Datatypes.S (ms_draws m); ms_now := ms_now m |}, r);
  mint_VerifyL402 m params := Mint.VerifyL402 (ms_secrets m) (ms_now m) params
|}.

(** ** [auth/authenticator.go] *)
Module LsatAuth.

Definition L402RightExpiryDuration : Z := Seconds 3600.

Section Auth.
Context `{L402Lib} {M K : Type} `{!Minter M} `{!InvoiceChecker K}.

Record LsatAuthenticator := { minter : M; checker : K }.

Definition Accept (l : LsatAuthenticator) (h : header) (serviceName : string) : bool :=
  is_ok ('(mac, preimage) ← FromHeader h;
         _ ← mint_VerifyL402 (minter l)
               {| Mint.vpMacaroon := mac; Mint.vpPreimage := preimage;
                  Mint.vpTargetService := serviceName |};
         _ ← VerifyInvoiceStatus (checker l) (Preimage_Hash preimage) SETTLED
               DefaultInvoiceLookupTimeout;
         VerifyRightsWithinExpiry (checker l) (Preimage_Hash preimage)
               L402RightExpiryDuration).

(** A macaroon that does not serialize is only logged: the challenge is sent
    with what was returned, nothing. *)
Definition FreshChallengeHeader (l : LsatAuthenticator) (r : request)
    (serviceName serviceRecipientLud16 : string) (servicePrice : Z) :
    LsatAuthenticator * request * outcome header :=
  let service := {| LsatService.Name := serviceName; LsatService.Tier := LsatService.BaseTier;
                    LsatService.RecipientLud16 := serviceRecipientLud16;
                    LsatService.Price := servicePrice |} in
  let '(m', res) := mint_MintL402 (minter l) [service] in
  let l' := {| minter := m'; checker := checker l |} in
  match res with
  | Ok (mac, paymentRequest) =>
      match mac_MarshalBinary mac with
      | Panic m => (l', r, Panic m)
      | mb =>
          let macBytes := match mb with Ok b => b | _ => [] end in
          let str := challengeText (b64_EncodeToString macBytes) paymentRequest in
          let h := Set_ (rHeader r) "WWW-Authenticate" str in
          (l', with_header r h, Ok h)
      end
  | Err e => (l', r, Err e)
  | Panic m => (l', r, Panic m)
  end.
End Auth.
Arguments LsatAuthenticator : clear implicits.

#[global] Instance lsat_authenticator `{L402Lib} {M K} `{!Minter M, !InvoiceChecker K} :
    Authenticator (LsatAuthenticator M K) := {|
  Auth.Accept := Accept;
  Auth.FreshChallengeHeader := FreshChallengeHeader
|}.

Section Facts.
Context `{L402Lib} {M K : Type} `{!Minter M} `{!InvoiceChecker K}.

(** What acceptance means. *)
Lemma Accept_true (l : LsatAuthenticator M K) h name :
  Accept l h name = true <->
  exists mac preimage u,
    FromHeader h = Ok (mac, preimage) /\
    mint_VerifyL402 (minter l)
      {| Mint.vpMacaroon := mac; Mint.vpPreimage := preimage; Mint.vpTargetService := name |}
      = Ok tt /\
    VerifyInvoiceStatus (checker l) (Preimage_Hash preimage) SETTLED
      DefaultInvoiceLookupTimeout = Ok tt /\
    VerifyRightsWithinExpiry (checker l) (Preimage_Hash preimage) L402RightExpiryDuration = Ok u.
Proof.
  unfold Accept. split.
  - destruct (FromHeader h) as [[mac preimage]| |]; cbn [mbind outcome_bind]; [|done..].
    destruct (mint_VerifyL402 _ _) as [[]| |] eqn:Ev; cbn [mbind outcome_bind]; [|done..].
    destruct (VerifyInvoiceStatus _ _ _ _) as [[]| |] eqn:Ei; cbn [mbind outcome_bind]; [|done..].
    destruct (VerifyRightsWithinExpiry _ _ _) as [[]| |] eqn:Er; [|done..].
    intros _. by exists mac, preimage, tt.
  - intros (mac & preimage & u & -> & Hv & Hi & Hr). cbn [mbind outcome_bind].
    rewrite Hv. cbn [mbind outcome_bind]. rewrite Hi. cbn [mbind outcome_bind]. by rewrite Hr.
Qed.

(** The header a fresh challenge answers with is the header of the request with
    the challenge set in it. *)
Lemma FreshChallengeHeader_Ok (l : LsatAuthenticator M K) r name recipient price l' r' h :
  FreshChallengeHeader l r name recipient price = (l', r', Ok h) ->
  exists m' mac inv macBytes,
    mint_MintL402 (minter l)
      [{| LsatService.Name := name; LsatService.Tier := 0;
          LsatService.RecipientLud16 := recipient; LsatService.Price := price |}]
      = (m', Ok (mac, inv)) /\
    l' = {| minter := m'; checker := checker l |} /\
    (mac_MarshalBinary mac = Ok macBytes \/ is_err (mac_MarshalBinary mac) = true /\ macBytes = []) /\
    h = Set_ (rHeader r) "WWW-Authenticate" (challengeText (b64_EncodeToString macBytes) inv) /\
    r' = with_header r h.
Proof.
  unfold FreshChallengeHeader.
  destruct (mint_MintL402 _ _) as [m' [[mac inv]| |]] eqn:Em; [|done..].
  destruct (mac_MarshalBinary mac) as [b|e|] eqn:Eb; [| |done]; intros [= <- <- <-].
  - exists m', mac, inv, b. auto.
  - exists m', mac, inv, []. split; [done|]. split; [done|]. split; [right; by rewrite Eb|]. done.
Qed.

#[global] Instance lsat_authenticator_laws : AuthenticatorLaws (LsatAuthenticator M K).
Proof.
  split. intros a r n rc pc a' r' h E.
  apply FreshChallengeHeader_Ok in E as (m' & mac & inv & mb & _ & _ & _ & -> & ->). eauto.
Qed.
End Facts.
End LsatAuth.

(** ** [auth/mock_authenticator.go] *)
Module MockAuth.
Definition Accept (h : header) : bool :=
  bool_decide (Get h "Authorization" ≠ "") ||
  bool_decide (Get h "Grpc-Metadata-macaroon" ≠ "") ||
  bool_decide (Get h "Macaroon" ≠ "").

Definition mockChallenge : string :=
  challengeText "AGIAJEemVQUTEyNCR0exk7ek90Cg=="
    ("lnbc1500n1pw5kjhmpp5fu6xhthlt2vucm" +:+
     "zkx6c7wtlh2r625r30cyjsfqhu8rsx4xpz5lwqdpa2fjkzep6yptk" +:+
     "sct5yp5hxgrrv96hx6twvusycn3qv9jx7ur5d9hkugr5dusx6cqzp" +:+
     "gxqr23s79ruapxc4j5uskt4htly2salw4drq979d7rcela9wz02el" +:+
     "hypmdzmzlnxuknpgfyfm86pntt8vvkvffma5qc9n50h4mvqhngadq" +:+
     "y3ngqjcym5a").

#[global] Instance mock_authenticator : Authenticator unit := {|
  Auth.Accept _ h _ := Accept h;
  Auth.FreshChallengeHeader _ r _ _ _ :=
    let h := Set_ (rHeader r) "WWW-Authenticate" mockChallenge in
    (tt, with_header r h, Ok h)
|}.

#[global] Instance mock_authenticator_laws : AuthenticatorLaws unit.
Proof. split. intros a r n rc pc a' r' h [= <- <- <-]. eauto. Qed.
End MockAuth.
