(* ===== verification/Proxy.v ===== *)
(** * The reverse proxy: [proxy/proxy.go], [proxy/log.go]

    [ServeHTTP] as a function on the proxy's state: the services, whose freebie
    counters it updates, and the authenticator.  What Go's [ReverseProxy] does
    with a request is to apply the director to a copy and send it on: the model
    stops at the request the director makes. *)
From S2P Require Import Prelude.
From S2P Require Import GoStrings.
From S2P Require Import Caveat.
From S2P Require Import Macaroon.
From S2P Require Import Http.
From S2P Require Import Header.
From S2P Require Import GoNet.
From S2P Require Import Freebie.
From S2P Require Import Service.
From S2P Require Import Auth.

(** ** [proxy/log.go] *)
Definition NewRemoteIPPrefixLog (remoteAddr : string) : IP :=
  let remoteHost := match SplitHostPort remoteAddr with Ok h => h | _ => "0.0.0.0" end in
  match ParseIP remoteHost with
  | [] => IPv4zero
  | remoteIP => remoteIP
  end.

Module Proxy.

Definition hdrContentType : string := "Content-Type".
Definition hdrGrpcStatus : string := "Grpc-Status".
Definition hdrGrpcMessage : string := "Grpc-Message".
Definition hdrTypeGrpc : string := "application/grpc".
Definition codes_Internal : Z := 13.

(** What becomes of a request: a direct answer, the request sent to a backend,
    or the number of the local service that serves it. *)
Inductive action :=
  | Respond (resp : response)
  | Forward (out : request)
  | Local (i : nat).

Definition addCorsHeaders (h : header) : header :=
  let h := Add_ h "Access-Control-Allow-Origin" "*" in
  let h := Add_ h "Access-Control-Allow-Methods" "GET, POST, OPTIONS" in
  let h := Add_ h "Access-Control-Expose-Headers" "WWW-Authenticate" in
  Add_ h "Access-Control-Allow-Headers"
    "Authorization, Grpc-Metadata-macaroon, WWW-Authenticate".

(** [w] is the header map of the response writer. *)
Definition sendDirectResponse (w : header) (r : request) (statusCode : Z) (errInfo : string) :
    response :=
  if HasPrefix (Get (rHeader r) hdrContentType) hdrTypeGrpc then
    let w := Set_ w hdrGrpcStatus (FormatInt codes_Internal) in
    let w := Set_ w hdrGrpcMessage errInfo in
    {| wHeader := w; wStatus := StatusOK; wBody := "" |}
  else http_Error w errInfo statusCode.

(** The loop that copies a header map, one entry after the other. *)
Fixpoint copyEntries (w : header) (entries : list (string * list string)) : outcome header :=
  match entries with
  | [] => Ok w
  | (_, []) :: _ => Panic "index out of range"
  | (name, v :: vs) :: rest =>
      copyEntries (foldl (fun w x => Add_ w name x) (Set_ w name v) vs) rest
  end.

(** The index of the matching service, to update its counters. *)
Fixpoint matchService (e : Service.env) (r : request) (services : list Service.t) :
    outcome (option (nat * Service.t)) :=
  match services with
  | [] => Ok None
  | service :: rest =>
      let next := (o ← matchService e r rest; Ok (option_map (prod_map S id) o)) in
      h ← Service.MustMatch e (Service.HostRegexp service) (rHost r);
      if negb h then next
      else if decide (Service.PathRegexp service = "") then Ok (Some (0%nat, service))
      else
        m ← Service.MustMatch e (Service.PathRegexp service) (rPath r);
        if negb m then next else Ok (Some (0%nat, service))
  end.

Section Proxy.
Context `{L402Lib}.
Context {A : Type} `{!Authenticator A}.
Variable e : Service.env.

Record t := {
  localServices : list (request -> bool);    (* [IsHandling] of each *)
  authenticator : A;
  services : list Service.t
}.

Definition set_authenticator (p : t) (a : A) : t :=
  {| localServices := localServices p; authenticator := a; services := services p |}.
Definition set_services (p : t) (ss : list Service.t) : t :=
  {| localServices := localServices p; authenticator := authenticator p; services := ss |}.

(** The configured fields are added in the order the map is walked. *)
Definition addConfigured (h : header) (entries : list (string * string)) : header :=
  foldl (fun h '(name, value) => Add_ h name value) h entries.

Definition director (ss : list Service.t) (req : request) : outcome request :=
  o ← matchService e req ss;
  match o with
  | None => Ok req
  | Some (_, target) =>
      h ← match FromHeader (rHeader req) with
          | Ok (mac, preimage) =>
              match SetHeader (rHeader req) mac preimage with
              | Err _ => Ok (rHeader req)
              | o => o
              end
          | Err _ => Ok (rHeader req)
          | Panic m => Panic m
          end;
      Ok {| rMethod := rMethod req; rHost := Service.Address target; rPath := rPath req;
            rURLHost := Service.Address target; rScheme := Service.Protocol target;
            rRemoteAddr := rRemoteAddr req;
            rHeader := addConfigured h (map_to_list (Service.Headers target));
            rBody := rBody req |}
  end.

(** The challenge is built in the header map of the request, and that whole map
    is copied to the response. *)
Definition handlePaymentRequired (p : t) (w : header) (r : request)
    (serviceName serviceRecipientLud16 : string) (servicePrice : Z) : t * outcome action :=
  let r := with_header r (addCorsHeaders (rHeader r)) in
  match FreshChallengeHeader (authenticator p) r serviceName serviceRecipientLud16 servicePrice with
  | (a, r, Ok h) =>
      (set_authenticator p a,
       w ← copyEntries w (map_to_list h);
       Ok (Respond (sendDirectResponse w r StatusPaymentRequired "payment required")))
  | (a, r, Err _) =>
      (set_authenticator p a,
       Ok (Respond (sendDirectResponse w r StatusInternalServerError "challenge failure")))
  | (a, r, Panic m) => (set_authenticator p a, Panic m)
  end.

Definition forward (p : t) (r : request) : t * outcome action :=
  (p, out ← director (services p) r; Ok (Forward out)).

(** The price of a request, and what follows when it is not accepted; [charge]
    is what a challenge asks for. *)
Definition priceAndChallenge (p : t) (w : header) (r : request) (target : Service.t)
    (resourceName : string) (charge : Z -> Z) : t * outcome action :=
  match Service.pricer target with
  | None => (p, Panic "nil pointer dereference")
  | Some pr =>
      match Pricer.GetPaymentDetails pr r with
      | (r, Ok (recipientLud16, price)) =>
          if decide (price = 0) then forward p r
          else handlePaymentRequired p w r resourceName recipientLud16 (charge price)
      | (r, Err _) =>
          (p, Ok (Respond (sendDirectResponse w r StatusInternalServerError
                             "failure fetching resource price")))
      | (_, Panic m) => (p, Panic m)
      end
  end.

(** The branch of a service with freebies for a request that is not accepted:
    the challenge asks for the static price of the service.  [ServeHTTP] is the
    handler of a request that is served alone: the code holds no lock from the check
    to the tally, and what other requests do in between is in [Freebie.Concurrent]. *)
Definition serveFreebie (p : t) (w : header) (r : request) (i : nat) (target : Service.t)
    (resourceName : string) (remoteIP : IP) : t * outcome action :=
  let dbFailure :=
    (p, Ok (Respond (sendDirectResponse w r StatusInternalServerError "freebie DB failure"))) in
  match Service.freebieDB target with
  | None => (p, Panic "nil pointer dereference")
  | Some db =>
      match MemStore.CanPass db remoteIP with
      | Err _ => dbFailure
      | Panic m => (p, Panic m)
      | Ok false =>
          priceAndChallenge p w r target resourceName (fun _ => Service.Price target)
      | Ok true =>
          let '(db', res) := MemStore.TallyFreebie db remoteIP in
          let p' := set_services p
                      (<[i := Service.set_freebieDB target (Some db')]> (services p)) in
          match res with
          | Err _ => (p', dbFailure.2)
          | Panic m => (p', Panic m)
          | Ok _ => forward p' r
          end
      end
  end.

Fixpoint findLocal (ls : list (request -> bool)) (r : request) : option nat :=
  match ls with
  | [] => None
  | isHandling :: rest => if isHandling r then Some 0%nat else S <$> findLocal rest r
  end.

Definition ServeHTTP (p : t) (w : header) (r : request) : t * outcome action :=
  let remoteIP := NewRemoteIPPrefixLog (rRemoteAddr r) in
  if decide (rMethod r = "OPTIONS") then
    (p, Ok (Respond (sendDirectResponse (addCorsHeaders w) r StatusOK "")))
  else
    match matchService e r (services p) with
    | Err er => (p, Err er)
    | Panic m => (p, Panic m)
    | Ok None =>
        (p, Ok match findLocal (localServices p) r with
               | Some i => Local i
               | None =>
                   Respond (sendDirectResponse (addCorsHeaders w) r StatusInternalServerError "")
               end)
    | Ok (Some (i, target)) =>
        let resourceName := Service.ResourceName target (rPath r) in
        match Service.AuthRequired e target r with
        | Err er => (p, Err er)
        | Panic m => (p, Panic m)
        | Ok authLevel =>
            if Level.IsOn authLevel then
              if Accept (authenticator p) (rHeader r) resourceName then forward p r
              else priceAndChallenge p w r target resourceName (fun price => price)
            else if Level.IsFreebie authLevel then
              if Accept (authenticator p) (rHeader r) resourceName then forward p r
              else serveFreebie p w r i target resourceName remoteIP
            else forward p r
        end
    end.

(** Certificates are parsed by [crypto/x509]: [AppendCertsFromPEM] is a parameter. *)
Fixpoint certPool (AppendCertsFromPEM : list byte -> bool) (ss : list Service.t) :
    outcome (list (list byte)) :=
  match ss with
  | [] => Ok []
  | s :: rest =>
      if decide (Service.TLSCertPath s = "") then certPool AppendCertsFromPEM rest
      else
        b ← Service.ReadFile e (Service.TLSCertPath s);
        if AppendCertsFromPEM b then cp ← certPool AppendCertsFromPEM rest; Ok (b :: cp)
        else Err (Errorf "credentials: failed to append certificate")
  end.

(** The services given are prepared in place; the proxy gets a new backend, and
    its own list of services is not touched. *)
Definition UpdateServices (pem : list byte -> bool) (p : t) (ss : list Service.t) :
    t * list Service.t * outcome unit :=
  let '(ss', res) := Service.prepareServices e ss in
  (p, ss', _ ← res; _ ← certPool pem ss'; Ok tt).

(** [New] gives the same list to the proxy and to [UpdateServices]. *)
Definition New (pem : list byte -> bool) (a : A) (ss : list Service.t)
    (locals : list (request -> bool)) : outcome t :=
  let p := {| localServices := locals; authenticator := a; services := ss |} in
  let '(p, ss', res) := UpdateServices pem p ss in
  _ ← res;
  Ok (set_services p ss').

(** The last failure is returned, and every pricer is closed. *)
Definition Close (p : t) : outcome unit :=
  foldl (fun returnErr s =>
    match returnErr, Service.pricer s with
    | Panic m, _ => Panic m
    | _, None => Panic "nil pointer dereference"
    | _, Some pr => match Pricer.Close pr with Ok _ => returnErr | x => x end
    end) (Ok tt) (services p).
End Proxy.
Arguments t : clear implicits.

(** ** The transport that repairs trailers *)
Record backendResponse := { bHeader : header; bTrailer : header }.

Definition RoundTrip (resp : option backendResponse) : option backendResponse :=
  match resp with
  | None => None
  | Some resp =>
      Some (if decide (bTrailer resp = ∅ /\ Values (bHeader resp) hdrGrpcStatus ≠ []) then
              let grpcStatus := Get (bHeader resp) hdrGrpcStatus in
              let grpcMessage := Get (bHeader resp) hdrGrpcMessage in
              {| bHeader := bHeader resp;
                 bTrailer := Add_ (Add_ ∅ hdrGrpcStatus grpcStatus) hdrGrpcMessage grpcMessage |}
            else resp)
  end.

(** ** Facts *)

Lemma matchService_lookup e r ss i s :
  matchService e r ss = Ok (Some (i, s)) -> ss !! i = Some s.
Proof.
  revert i; induction ss as [|x ss IH]; intros i; [done|]. cbn [matchService].
  assert (Hnext : (o ← matchService e r ss; Ok (option_map (prod_map S id) o)) = Ok (Some (i, s)) ->
                  (x :: ss) !! i = Some s).
  { intros E. apply bind_Ok_inv in E as ([[j y]|] & Ej & E); [|done].
    injection E as <- <-. by apply IH. }
  intros E. apply bind_Ok_inv in E as (h & _ & E). destruct h; cbn [negb] in E; [|auto].
  case_decide; [by injection E as <- <-|].
  apply bind_Ok_inv in E as (m & _ & E). destruct m; cbn [negb] in E; [|auto].
  by injection E as <- <-.
Qed.

(** Only the host and the path of a request decide. *)
Lemma matchService_ext e r r' ss :
  rHost r = rHost r' -> rPath r = rPath r' -> matchService e r ss = matchService e r' ss.
Proof.
  intros Hh Hp. induction ss as [|s ss IH]; [done|]. cbn [matchService]. by rewrite Hh, Hp, IH.
Qed.

(** A map whose keys are canonical and whose values are not empty, as the HTTP
    server makes it from a request, is copied as it is. *)
Definition canonical (h : header) : Prop :=
  map_Forall (fun k vs => CanonicalHeaderKey k = k /\ vs ≠ []) h.

Lemma Add_all w name vs :
  foldl (fun w x => Add_ w name x) w vs =
  match vs with [] => w | _ => <[CanonicalHeaderKey name := Values w name ++ vs]> w end.
Proof.
  revert w; induction vs as [|v vs IH]; intros w; [done|]. cbn [foldl]. rewrite IH.
  unfold Add_ at 1. destruct vs as [|v' vs]; [done|].
  unfold Add_, Values at 1. rewrite lookup_insert_eq, insert_insert_eq. cbn [default from_option id].
  by rewrite <- app_assoc.
Qed.

Lemma copyEntries_canonical entries w :
  Forall (fun kv => CanonicalHeaderKey kv.1 = kv.1 /\ kv.2 ≠ []) entries ->
  copyEntries w entries = Ok (foldl (fun w kv => <[kv.1 := kv.2]> w) w entries).
Proof.
  intros Hc. revert w; induction Hc as [|[k vs] entries [Hk Hv] Hc IH]; intros w; [done|].
  cbn [fst snd] in Hk, Hv. destruct vs as [|v vs]; [done|]. cbn [copyEntries]. rewrite IH.
  f_equal. cbn [foldl fst snd]. f_equal. rewrite Add_all. unfold Set_. rewrite Hk.
  destruct vs as [|v' vs]; [done|].
  unfold Values. by rewrite Hk, lookup_insert_eq, insert_insert_eq.
Qed.

Lemma foldl_insert_union (l : list (string * list string)) (w : header) :
  NoDup l.*1 -> foldl (fun w kv => <[kv.1 := kv.2]> w) w l = list_to_map l ∪ w.
Proof.
  revert w; induction l as [|[k v] l IH]; intros w Hn; [cbn [foldl]; by rewrite list_to_map_nil, map_empty_union|].
  cbn [fmap list_fmap fst] in Hn. apply NoDup_cons in Hn as [Hk Hn].
  cbn [foldl fst snd list_to_map foldr]. rewrite IH by done.
  rewrite <- insert_union_l, insert_union_r; [done|]. by apply not_elem_of_list_to_map_1.
Qed.

Lemma copyEntries_map w h :
  canonical h -> copyEntries w (map_to_list h) = Ok (h ∪ w).
Proof.
  intros Hc. rewrite copyEntries_canonical.
  - rewrite foldl_insert_union by apply NoDup_fst_map_to_list. by rewrite list_to_map_to_list.
  - apply Forall_forall. intros [k v] Hin%elem_of_map_to_list. by apply (Hc k v).
Qed.

Lemma canonical_Set h k v : CanonicalHeaderKey (CanonicalHeaderKey k) = CanonicalHeaderKey k ->
  canonical h -> canonical (Set_ h k v).
Proof. intros Hk Hc. by apply map_Forall_insert_2. Qed.

Lemma canonical_Add h k v : CanonicalHeaderKey (CanonicalHeaderKey k) = CanonicalHeaderKey k ->
  canonical h -> canonical (Add_ h k v).
Proof.
  intros Hk Hc. apply map_Forall_insert_2; [|done]. split; [done|]. by destruct (Values h k).
Qed.

Lemma canonical_cors h : canonical h -> canonical (addCorsHeaders h).
Proof. intros Hc. unfold addCorsHeaders. by repeat (apply canonical_Add; [done|]). Qed.

Section Facts.
Context `{L402Lib} {A : Type} `{!Authenticator A}.
Variable e : Service.env.
Implicit Types (p : t A) (w : header) (r out : request).

Abbreviation ip_of r := (NewRemoteIPPrefixLog (rRemoteAddr r)).

(** What the proxy charges a request, when it asks. *)
Definition priced (target : Service.t) r (recipient : string) (price : Z) : Prop :=
  exists pr r', Service.pricer target = Some pr /\
    Pricer.GetPaymentDetails pr r = (r', Ok (recipient, price)).

Definition tallied p i target db r : t A :=
  set_services p (<[i := Service.set_freebieDB target
                           (Some (MemStore.TallyFreebie db (ip_of r)).1)]> (services p)).

Lemma handlePaymentRequired_Respond p w r n rc pc p' a :
  handlePaymentRequired p w r n rc pc = (p', Ok a) ->
  services p' = services p /\ exists resp, a = Respond resp.
Proof.
  unfold handlePaymentRequired.
  destruct (FreshChallengeHeader _ _ _ _ _) as [[a' r'] [h|er|m]]; [| |done].
  - intros [= <- Ha]. split; [done|]. apply bind_Ok_inv in Ha as (w' & _ & Ha).
    injection Ha as <-. eauto.
  - intros [= <- <-]. eauto.
Qed.

Lemma priceAndChallenge_Forward p w r target n charge p' out :
  priceAndChallenge e p w r target n charge = (p', Ok (Forward out)) ->
  p' = p /\ exists recipient, priced target r recipient 0.
Proof.
  unfold priceAndChallenge, priced. destruct (Service.pricer target) as [pr|]; [|done].
  destruct (Pricer.GetPaymentDetails pr r) as [r' [[recipient price]|er|m]] eqn:Ep; [| |done].
  - case_decide as Hz.
    + subst price. unfold forward. intros [= <- _]. split; [done|]. by exists recipient, pr, r'.
    + intros E. by apply handlePaymentRequired_Respond in E as (_ & resp & E).
  - done.
Qed.

(** The ways to a backend. *)
Inductive admitted p r : nat -> Service.t -> t A -> Prop :=
  | AdmOff i target level :
      Service.AuthRequired e target r = Ok level ->
      Level.IsOn level = false -> Level.IsFreebie level = false ->
      admitted p r i target p
  | AdmPaid i target :
      Accept (authenticator p) (rHeader r) (Service.ResourceName target (rPath r)) = true ->
      admitted p r i target p
  | AdmFree i target recipient :
      priced target r recipient 0 -> admitted p r i target p
  | AdmFreebie i target level db :
      Service.AuthRequired e target r = Ok level -> Level.IsFreebie level = true ->
      Service.freebieDB target = Some db -> MemStore.CanPass db (ip_of r) = Ok true ->
      admitted p r i target (tallied p i target db r).

Lemma serveFreebie_Forward p w r i target level n p' out :
  Service.AuthRequired e target r = Ok level -> Level.IsFreebie level = true ->
  serveFreebie e p w r i target n (ip_of r) = (p', Ok (Forward out)) ->
  admitted p r i target p'.
Proof.
  intros Hl Hf. unfold serveFreebie. destruct (Service.freebieDB target) as [db|] eqn:Ed; [|done].
  destruct (MemStore.CanPass db (ip_of r)) as [[]| |] eqn:Ec; [| |done..].
  - cbn [MemStore.TallyFreebie]. intros [= <- _]. by eapply AdmFreebie.
  - intros E. apply priceAndChallenge_Forward in E as (-> & recipient & Hp). by eapply AdmFree.
Qed.

Lemma ServeHTTP_Forward p w r p' out :
  ServeHTTP e p w r = (p', Ok (Forward out)) ->
  rMethod r ≠ "OPTIONS" /\
  exists i target, matchService e r (services p) = Ok (Some (i, target)) /\
                   admitted p r i target p'.
Proof.
  unfold ServeHTTP. case_decide as Hm; [done|]. intros E. split; [done|].
  destruct (matchService e r (services p)) as [[[i target]|]|er|m] eqn:Et; [| |done..].
  2: { by destruct (findLocal _ _). }
  exists i, target. split; [done|].
  destruct (Service.AuthRequired e target r) as [level|er|m] eqn:El; [|done..].
  destruct (Level.IsOn level) eqn:Eon.
  - destruct (Accept _ _ _) eqn:Ea.
    + injection E as <- _. by apply AdmPaid.
    + apply priceAndChallenge_Forward in E as (-> & recipient & Hp). by eapply AdmFree.
  - destruct (Level.IsFreebie level) eqn:Ef.
    + destruct (Accept _ _ _) eqn:Ea.
      * injection E as <- _. by apply AdmPaid.
      * by eapply serveFreebie_Forward.
    + injection E as <- _. by eapply AdmOff.
Qed.

(** *** Challenges *)
Lemma handlePaymentRequired_Ok `{!AuthenticatorLaws A} p w r n rc pc a' r' h :
  canonical (rHeader r) ->
  FreshChallengeHeader (authenticator p) (with_header r (addCorsHeaders (rHeader r))) n rc pc
    = (a', r', Ok h) ->
  exists str,
    h = Set_ (addCorsHeaders (rHeader r)) "WWW-Authenticate" str /\
    handlePaymentRequired p w r n rc pc =
      (set_authenticator p a',
       Ok (Respond (sendDirectResponse (h ∪ w) (with_header r h) StatusPaymentRequired
                      "payment required"))).
Proof.
  intros Hc E. destruct (fresh_header _ _ _ _ _ _ _ _ E) as (str & Hh & Hr'). cbn in Hh.
  exists str. split; [done|]. unfold handlePaymentRequired. rewrite E.
  rewrite copyEntries_map; [by rewrite Hr'|]. rewrite Hh.
  apply canonical_Set; [done|]. by apply canonical_cors.
Qed.

(** A request that is not accepted and not free is answered with a challenge for
    the resource, at the price the pricer named. *)
Lemma ServeHTTP_challenge p w r i target level pr r' recipient price :
  rMethod r ≠ "OPTIONS" ->
  matchService e r (services p) = Ok (Some (i, target)) ->
  Service.AuthRequired e target r = Ok level -> Level.IsOn level = true ->
  Accept (authenticator p) (rHeader r) (Service.ResourceName target (rPath r)) = false ->
  Service.pricer target = Some pr ->
  Pricer.GetPaymentDetails pr r = (r', Ok (recipient, price)) -> price ≠ 0 ->
  ServeHTTP e p w r =
    handlePaymentRequired p w r' (Service.ResourceName target (rPath r)) recipient price.
Proof.
  intros Hm Ht Hl Hon Ha Hpr Hp Hz.
  unfold ServeHTTP. rewrite decide_False by done. rewrite Ht, Hl, Hon, Ha.
  unfold priceAndChallenge. rewrite Hpr, Hp. by rewrite decide_False.
Qed.

(** *** The director *)
Lemma addConfigured_keeps h entries k :
  Get h k ≠ "" -> Get (addConfigured h entries) k = Get h k.
Proof.
  revert h; induction entries as [|[n v] entries IH]; intros h Hk; [done|].
  cbn [addConfigured foldl] in *. fold (addConfigured (Add_ h n v) entries).
  rewrite IH; rewrite Get_Add_keeps; done.
Qed.

Lemma FromHeader_same h h' :
  Get h HeaderAuthorization ≠ "" -> Get h' HeaderAuthorization = Get h HeaderAuthorization ->
  FromHeader h' = FromHeader h.
Proof. intros Hne Heq. unfold FromHeader. by rewrite Heq, !decide_True. Qed.

Lemma SetHeader_Get h mac preimage h' :
  SetHeader h mac preimage = Ok h' -> Get h' HeaderAuthorization ≠ "".
Proof.
  unfold SetHeader. intros E. apply bind_Ok_inv in E as (b & _ & E).
  apply (inj Ok) in E as <-. by rewrite Get_Set_eq.
Qed.

(** A forwarded request goes to the backend, with the L402 the client sent in the
    field backends expect it in. *)
Lemma director_Ok `{!L402Laws} ss req i target mac preimage h' :
  matchService e req ss = Ok (Some (i, target)) ->
  FromHeader (rHeader req) = Ok (mac, preimage) -> is_array 32 preimage ->
  SetHeader (rHeader req) mac preimage = Ok h' ->
  exists out, director e ss req = Ok out /\
    rHost out = Service.Address target /\ rURLHost out = Service.Address target /\
    rScheme out = Service.Protocol target /\ rPath out = rPath req /\ rBody out = rBody req /\
    FromHeader (rHeader out) = Ok (mac, preimage).
Proof.
  intros Ht Hf Hp Hs. unfold director. rewrite Ht. cbn [mbind outcome_bind].
  rewrite Hf, Hs. cbn [mbind outcome_bind]. eexists. split; [done|].
  do 5 (split; [done|]). cbn [rHeader].
  rewrite (FromHeader_same h').
  - by eapply FromHeader_SetHeader.
  - by eapply SetHeader_Get.
  - apply addConfigured_keeps. by eapply SetHeader_Get.
Qed.

(** The fields of the configuration do not replace those of the client. *)
Lemma director_keeps_client ss req out k :
  CanonicalHeaderKey k ≠ CanonicalHeaderKey HeaderAuthorization ->
  director e ss req = Ok out -> Get (rHeader req) k ≠ "" ->
  Get (rHeader out) k = Get (rHeader req) k.
Proof.
  intros Hk E Hg. unfold director in E. apply bind_Ok_inv in E as (o & _ & E).
  destruct o as [[i target]|]; [|by apply (inj Ok) in E as <-].
  apply bind_Ok_inv in E as (h & Eh & E). apply (inj Ok) in E as <-. cbn [rHeader].
  assert (Hh : Get h k = Get (rHeader req) k).
  { destruct (FromHeader (rHeader req)) as [[mac preimage]| |];
      [|by apply (inj Ok) in Eh as <-|done].
    destruct (SetHeader (rHeader req) mac preimage) as [h1| |] eqn:Es;
      [|by apply (inj Ok) in Eh as <-|done].
    apply (inj Ok) in Eh as <-. unfold SetHeader in Es.
    apply bind_Ok_inv in Es as (b & _ & Es). apply (inj Ok) in Es as <-.
    rewrite Get_Set_ne; [done|]. congruence. }
  rewrite addConfigured_keeps; congruence.
Qed.

(** *** Freebies over a history of requests *)

(** The counter of a key. *)
Definition countKey (db : MemStore.t) (k : string) : Z :=
  default 0 (MemStore.freebieCounter db !! k).

Lemma currentCount_key db ip : MemStore.currentCount db ip = countKey db (MemStore.getKey ip).
Proof. unfold MemStore.currentCount, countKey. by destruct (_ !! _). Qed.

(** A request that reached backend [i] from the network [k] although it was not
    accepted and has a price. *)
Definition free_price (target : Service.t) r : bool :=
  match Service.pricer target with
  | Some pr => match (Pricer.GetPaymentDetails pr r).2 with
               | Ok (_, price) => bool_decide (price = 0)
               | _ => false
               end
  | None => false
  end.

Definition needs_freebie (target : Service.t) r : bool :=
  match Service.AuthRequired e target r with
  | Ok level => Level.IsFreebie level
  | _ => false
  end.

Definition rides p w r (i : nat) (k : string) : bool :=
  match matchService e r (services p), (ServeHTTP e p w r).2 with
  | Ok (Some (j, target)), Ok (Forward _) =>
      bool_decide (j = i) && bool_decide (MemStore.getKey (ip_of r) = k) &&
      needs_freebie target r && negb (free_price target r) &&
      negb (Accept (authenticator p) (rHeader r) (Service.ResourceName target (rPath r)))
  | _, _ => false
  end.

Fixpoint rides_of p (reqs : list (header * request)) (i : nat) (k : string) : Z :=
  match reqs with
  | [] => 0
  | (w, r) :: rest =>
      (if rides p w r i k then 1 else 0) + rides_of (ServeHTTP e p w r).1 rest i k
  end.

(** The state of service [i]'s freebie store. *)
Definition store_at p (i : nat) (db : MemStore.t) : Prop :=
  exists s, services p !! i = Some s /\ Service.freebieDB s = Some db.

Lemma handlePaymentRequired_services p w r n rc pc :
  services (handlePaymentRequired p w r n rc pc).1 = services p.
Proof.
  unfold handlePaymentRequired.
  by destruct (FreshChallengeHeader _ _ _ _ _) as [[a' r'] [h|er|m]].
Qed.

Lemma priceAndChallenge_services p w r target n charge :
  services (priceAndChallenge e p w r target n charge).1 = services p.
Proof.
  unfold priceAndChallenge. destruct (Service.pricer target) as [pr|]; [|done].
  destruct (Pricer.GetPaymentDetails pr r) as [r' [[recipient price]|er|m]]; [|done..].
  case_decide; [done|]. apply handlePaymentRequired_services.
Qed.

(** A request changes the services in one way only: a freebie is tallied. *)
Lemma ServeHTTP_services p w r :
  services (ServeHTTP e p w r).1 = services p \/
  exists j target db, services p !! j = Some target /\ Service.freebieDB target = Some db /\
    MemStore.CanPass db (ip_of r) = Ok true /\
    services (ServeHTTP e p w r).1 = services (tallied p j target db r).
Proof.
  unfold ServeHTTP. case_decide; [by left|].
  destruct (matchService e r (services p)) as [[[j target]|]|er|m] eqn:Et; [|by left..].
  apply matchService_lookup in Et.
  destruct (Service.AuthRequired e target r) as [level|er|m]; [|by left..].
  destruct (Level.IsOn level).
  { destruct (Accept _ _ _); left; [done|]. apply priceAndChallenge_services. }
  destruct (Level.IsFreebie level); [|by left].
  destruct (Accept _ _ _); [by left|]. unfold serveFreebie.
  destruct (Service.freebieDB target) as [db|] eqn:Ed; [|by left].
  destruct (MemStore.CanPass db (ip_of r)) as [[]| |] eqn:Ec; [| |by left..].
  - right. exists j, target, db. done.
  - left. apply priceAndChallenge_services.
Qed.

(** A service whose configuration is that of another; the counter may differ. *)
Definition similar (s s' : Service.t) : Prop := exists db, s' = Service.set_freebieDB s db.

#[global] Instance similar_refl : Reflexive similar.
Proof. intros []. by eexists. Qed.
#[global] Instance similar_trans : Transitive similar.
Proof. intros s s' s'' [db ->] [db' ->]. by exists db'. Qed.

Lemma matchService_similar r ss ss' i t :
  Forall2 similar ss ss' -> matchService e r ss = Ok (Some (i, t)) ->
  exists t', matchService e r ss' = Ok (Some (i, t')) /\ similar t t'.
Proof.
  intros Hss. revert i t. induction Hss as [|s s' ss ss' [db ->] _ IH]; intros i t; [done|].
  cbn [matchService Service.HostRegexp Service.PathRegexp Service.set_freebieDB].
  assert (Hnext : forall i t,
    (o ← matchService e r ss; Ok (option_map (prod_map S id) o)) = Ok (Some (i, t)) ->
    exists t', (o ← matchService e r ss'; Ok (option_map (prod_map S id) o)) = Ok (Some (i, t')) /\
               similar t t').
  { intros j u E. apply bind_Ok_inv in E as ([[k x]|] & E & [= <- <-]).
    apply IH in E as (t' & -> & Ht). by exists t'. }
  destruct (Service.MustMatch e (Service.HostRegexp s) (rHost r)) as [[]| |]; cbn [mbind outcome_bind negb];
    [|by apply Hnext|done..].
  case_decide; [intros [= <- <-]; eexists; split; [done|by exists db]|].
  destruct (Service.MustMatch e (Service.PathRegexp s) (rPath r)) as [[]| |]; cbn [mbind outcome_bind negb];
    [|by apply Hnext|done..].
  intros [= <- <-]. eexists. split; [done|by exists db].
Qed.

Lemma ServeHTTP_similar p w r : Forall2 similar (services p) (services (ServeHTTP e p w r).1).
Proof.
  destruct (ServeHTTP_services p w r) as [->|(j & target & db & Hj & _ & _ & ->)]; [reflexivity|].
  unfold tallied. cbn [services set_services]. rewrite <- (list_insert_id (services p) j target) at 1 by done.
  apply Forall2_insert; [reflexivity|by eexists].
Qed.

(** A request reaches the authenticator's state through a challenge only. *)
Lemma ServeHTTP_authenticator p w r :
  authenticator (ServeHTTP e p w r).1 = authenticator p \/
  exists r' n rc pc,
    authenticator (ServeHTTP e p w r).1 = (FreshChallengeHeader (authenticator p) r' n rc pc).1.1.
Proof.
  assert (Hpay : forall r n rc pc, let p' := (handlePaymentRequired p w r n rc pc).1 in
    exists r' n rc pc, authenticator p' = (FreshChallengeHeader (authenticator p) r' n rc pc).1.1).
  { intros r0 n rc pc. unfold handlePaymentRequired.
    destruct (FreshChallengeHeader (authenticator p) (with_header r0 _) n rc pc) as [[a' r'] [h|er|m]] eqn:E;
      eexists _, n, rc, pc; by rewrite E. }
  assert (Hprice : forall target n charge, let p' := (priceAndChallenge e p w r target n charge).1 in
    authenticator p' = authenticator p \/
    exists r' n rc pc, authenticator p' = (FreshChallengeHeader (authenticator p) r' n rc pc).1.1).
  { intros target n charge. unfold priceAndChallenge. destruct (Service.pricer target); [|by left].
    destruct (Pricer.GetPaymentDetails _ _) as [r' [[rc pc]| |]]; [|by left..].
    case_decide; [by left|right; apply Hpay]. }
  unfold ServeHTTP. case_decide; [by left|].
  destruct (matchService e r (services p)) as [[[j target]|]|er|m]; [|by left..].
  destruct (Service.AuthRequired e target r) as [level|er|m]; [|by left..].
  destruct (Level.IsOn level); [destruct (Accept _ _ _); [by left|apply Hprice]|].
  destruct (Level.IsFreebie level); [|by left]. destruct (Accept _ _ _); [by left|].
  unfold serveFreebie. destruct (Service.freebieDB target) as [db|]; [|by left].
  destruct (MemStore.CanPass _ _) as [[]| |]; [by left|apply Hprice|by left..].
Qed.

(** An accepted request is forwarded. *)
Lemma ServeHTTP_accepted p w r i target level :
  rMethod r ≠ "OPTIONS" -> matchService e r (services p) = Ok (Some (i, target)) ->
  Service.AuthRequired e target r = Ok level -> Level.IsOn level = true ->
  Accept (authenticator p) (rHeader r) (Service.ResourceName target (rPath r)) = true ->
  ServeHTTP e p w r = forward e p r.
Proof.
  intros Hm Ht Hl Hon Ha. unfold ServeHTTP. rewrite decide_False by done.
  by rewrite Ht, Hl, Hon, Ha.
Qed.

Lemma rides_tallies p w r i k :
  rides p w r i k = true ->
  exists target db, services p !! i = Some target /\ Service.freebieDB target = Some db /\
    MemStore.CanPass db (ip_of r) = Ok true /\ MemStore.getKey (ip_of r) = k /\
    services (ServeHTTP e p w r).1 = services (tallied p i target db r).
Proof.
  unfold rides. destruct (matchService e r (services p)) as [[[j target]|]| |] eqn:Et; [|done..].
  destruct (ServeHTTP e p w r) as [p' res] eqn:Es. cbn [fst snd].
  destruct res as [[resp|out|l]| |]; [done| |done..].
  rewrite !andb_true_iff, !negb_true_iff, !bool_decide_eq_true.
  intros [[[[-> Hk] Hn] Hf] Ha].
  apply ServeHTTP_Forward in Es as (_ & i' & target' & Et' & Hadm).
  rewrite Et in Et'. injection Et' as <- <-. apply matchService_lookup in Et.
  unfold needs_freebie in Hn. destruct Hadm as [i t l Hl Hon Hfr|i t Hacc|i t rcp Hp|i t l db Hl Hfr Hdb Hc].
  - rewrite Hl in Hn. congruence.
  - congruence.
  - destruct Hp as (pr & r' & Hpr & Hp). unfold free_price in Hf. rewrite Hpr, Hp in Hf. done.
  - by exists t, db.
Qed.

Lemma tally_store p i target db r :
  services p !! i = Some target -> Service.freebieDB target = Some db ->
  store_at (tallied p i target db r) i (MemStore.TallyFreebie db (ip_of r)).1.
Proof.
  intros Hi Hdb.
  exists (Service.set_freebieDB target (Some (MemStore.TallyFreebie db (ip_of r)).1)).
  split; [|done]. apply list_lookup_insert_eq. by eapply lookup_lt_Some.
Qed.

Lemma tally_countKey db ip k :
  MemStore.wf db -> MemStore.CanPass db ip = Ok true ->
  countKey (MemStore.TallyFreebie db ip).1 k =
  countKey db k + (if decide (MemStore.getKey ip = k) then 1 else 0).
Proof.
  intros Hw Hc. apply MemStore.CanPass_spec in Hc.
  pose proof (MemStore.currentCount_range db ip Hw) as Hr. destruct Hw as [Hn _].
  unfold is_u16 in Hn. unfold countKey at 1. cbn [MemStore.TallyFreebie MemStore.setCount fst MemStore.freebieCounter]. unfold MemStore.nextCount.
  rewrite lookup_insert. case_decide as Hk; cbn [default from_option id].
  - rewrite u16_small by lia. by rewrite currentCount_key, Hk.
  - unfold countKey. lia.
Qed.

(** One request: the store of service [i] stays well-formed with its limit, and
    its counters grow, by one at least for a free ride. *)
Lemma ServeHTTP_store p w r i db k :
  store_at p i db -> MemStore.wf db ->
  exists db', store_at (ServeHTTP e p w r).1 i db' /\ MemStore.wf db' /\
    MemStore.numFreebies db' = MemStore.numFreebies db /\
    countKey db k + (if rides p w r i k then 1 else 0) <= countKey db' k.
Proof.
  intros (s & Hs & Hdb) Hw.
  assert (Hstep : forall j target db0, services p !! j = Some target ->
    Service.freebieDB target = Some db0 -> MemStore.CanPass db0 (ip_of r) = Ok true ->
    services (ServeHTTP e p w r).1 = services (tallied p j target db0 r) ->
    j = i -> store_at (ServeHTTP e p w r).1 i (MemStore.TallyFreebie db (ip_of r)).1 /\
      MemStore.CanPass db (ip_of r) = Ok true).
  { intros j target db0 Hj Hd0 Hc Hsv ->. rewrite Hs in Hj. injection Hj as <-.
    rewrite Hdb in Hd0. injection Hd0 as <-. split; [|done].
    destruct (tally_store p i s db r Hs Hdb) as (s' & Hs' & Hd'). exists s'. by rewrite Hsv. }
  destruct (rides p w r i k) eqn:Er.
  - apply rides_tallies in Er as (target & db0 & Hi & Hd0 & Hc & Hk & Hsv).
    destruct (Hstep i target db0) as [Hst Hcan]; [done..|].
    exists (MemStore.TallyFreebie db (ip_of r)).1. split; [done|].
    split; [apply MemStore.TallyFreebie_wf; [done|by apply MemStore.CanPass_spec]|]. split; [done|].
    rewrite tally_countKey by done. rewrite decide_True by done. lia.
  - destruct (ServeHTTP_services p w r) as [Hsv|(j & target & db0 & Hj & Hd0 & Hc & Hsv)].
    { exists db. split; [exists s; by rewrite Hsv|]. repeat (split; [done|]). lia. }
    destruct (decide (j = i)) as [->|Hne].
    + destruct (Hstep i target db0) as [Hst Hcan]; [done..|].
      exists (MemStore.TallyFreebie db (ip_of r)).1. split; [done|].
      split; [apply MemStore.TallyFreebie_wf; [done|by apply MemStore.CanPass_spec]|]. split; [done|].
      rewrite tally_countKey by done. case_decide; lia.
    + exists db. split.
      { exists s. rewrite Hsv. unfold tallied. cbn [services set_services].
        by rewrite list_lookup_insert_ne. }
      repeat (split; [done|]). lia.
Qed.

Lemma countKey_limit db k : MemStore.wf db -> 0 <= countKey db k <= MemStore.numFreebies db.
Proof.
  intros [Hn Hf]. unfold countKey. destruct (_ !! k) as [c|] eqn:E; cbn.
  - by apply (Hf k).
  - unfold is_u16 in Hn. lia.
Qed.

Lemma rides_bound p reqs i db k :
  store_at p i db -> MemStore.wf db ->
  countKey db k + rides_of p reqs i k <= MemStore.numFreebies db.
Proof.
  revert p db; induction reqs as [|[w r] reqs IH]; intros p db Hs Hw; cbn [rides_of].
  - pose proof (countKey_limit db k Hw). lia.
  - destruct (ServeHTTP_store p w r i db k Hs Hw) as (db' & Hs' & Hw' & Hn & Hc).
    specialize (IH _ db' Hs' Hw'). lia.
Qed.
End Facts.
End Proxy.

(** ** Properties *)
Module ProxyProperties.
Import Proxy.

(** The toy proxy: one prepared service with two freebies, behind the mock
    authenticator. *)
Definition toy_env : Service.env := ServiceProperties.toy_env.
Definition paid_service : Service.t :=
  match (Service.prepareServices toy_env
           [Service.set_Headers
              {| Service.Name := "loop"; Service.TLSCertPath := ""; Service.Address := "10.0.0.1:80";
                 Service.Protocol := "http"; Service.Auth := "on"; Service.HostRegexp := "h";
                 Service.PathRegexp := ""; Service.Headers := ∅; Service.Timeout := 0;
                 Service.Capabilities := ""; Service.Constraints := []; Service.Price := 5;
                 Service.DynamicPrice := Service.DynamicPrice ServiceProperties.toy_service;
                 Service.AuthWhitelistPaths := []; Service.freebieDB := None;
                 Service.pricer := None |} {["X-Role" := "reader"]}]).1
  with s :: _ => s | [] => ServiceProperties.toy_service end.
Definition freebie_proxy : t unit :=
  {| localServices := []; authenticator := tt; services := ServiceProperties.toy_prepared |}.
Definition paid_proxy : t unit :=
  {| localServices := []; authenticator := tt; services := [paid_service] |}.
Definition toy_request : request := {|
  rMethod := "GET"; rHost := "h"; rPath := "/x"; rURLHost := ""; rScheme := "";
  rRemoteAddr := "1.2.3.4:99"; rHeader := {["X-Role" := ["admin"]]}; rBody := "" |}.

(** C6: a request reaches a backend only if it matches a service and is not an
    OPTIONS request, and either no authentication is asked for its path, or its
    L402 is accepted for the resource, or the resource is free, or a freebie of
    its network was left, which is then counted. *)
Theorem backend_reached_only_when_admitted `{L402Lib} {A : Type} `{!Authenticator A} e
    (p : t A) w r p' out :
  ServeHTTP e p w r = (p', Ok (Forward out)) ->
  rMethod r ≠ "OPTIONS" /\
  exists i target, matchService e r (services p) = Ok (Some (i, target)) /\
                   services p !! i = Some target /\ admitted e p r i target p'.
Proof.
  intros E. apply ServeHTTP_Forward in E as (Hm & i & target & Ht & Ha).
  split; [done|]. exists i, target. split; [done|]. split; [by eapply matchService_lookup|done].
Qed.

Section Toy1.
#[local] Existing Instance ToyLib.lib.
#[local] Existing Instance ToyLib.laws.
Lemma backend_reached_only_when_admitted_witness :
  exists i target, services freebie_proxy !! i = Some target /\
    admitted toy_env freebie_proxy toy_request i target
      (ServeHTTP toy_env freebie_proxy ∅ toy_request).1.
Proof.
  assert (E : exists out, ServeHTTP toy_env freebie_proxy ∅ toy_request =
    ((ServeHTTP toy_env freebie_proxy ∅ toy_request).1, Ok (Forward out))).
  { eexists. reflexivity. }
  destruct E as [out E].
  destruct (backend_reached_only_when_admitted toy_env freebie_proxy ∅ toy_request _ out E)
    as (_ & i & target & _ & Hi & Ha).
  exists i, target. split; [exact Hi|exact Ha].
Defined.
End Toy1.

(** The status of a direct answer: gRPC clients get it in a header field. *)
Lemma direct_status w r code msg :
  let resp := sendDirectResponse w r code msg in
  if HasPrefix (Get (rHeader r) hdrContentType) hdrTypeGrpc
  then wStatus resp = StatusOK /\ Get (wHeader resp) hdrGrpcStatus = "13" /\
       Get (wHeader resp) hdrGrpcMessage = msg
  else wStatus resp = code.
Proof.
  unfold sendDirectResponse. destruct (HasPrefix _ _); [|done]. cbn zeta.
  cbn [wStatus wHeader]. split; [done|]. split; [|by rewrite Get_Set_eq].
  rewrite Get_Set_ne by (vm_compute; discriminate). by rewrite Get_Set_eq.
Qed.

(** An answer to a gRPC call of the proxy itself has the content type that is in
    the header map of the writer already, so none but for a challenge, which
    repeats the fields of the request. *)
Lemma direct_answer_is_untyped w r code msg :
  HasPrefix (Get (rHeader r) hdrContentType) hdrTypeGrpc = true ->
  Values (wHeader (sendDirectResponse w r code msg)) hdrContentType = Values w hdrContentType.
Proof.
  intros Hg. unfold sendDirectResponse. rewrite Hg. cbn [wHeader]. unfold Values, Set_.
  by rewrite !lookup_insert_ne by (vm_compute; discriminate).
Qed.

Lemma direct_keeps w r code msg k :
  CanonicalHeaderKey k ∉ ["Grpc-Status"; "Grpc-Message"; "Content-Type"; "X-Content-Type-Options"] ->
  Values (wHeader (sendDirectResponse w r code msg)) k = Values w k.
Proof.
  intros Hk. repeat (apply not_elem_of_cons in Hk as [? Hk]).
  unfold sendDirectResponse, http_Error, Values, Set_.
  change (CanonicalHeaderKey hdrGrpcStatus) with "Grpc-Status".
  change (CanonicalHeaderKey hdrGrpcMessage) with "Grpc-Message".
  change (CanonicalHeaderKey "Content-Type") with "Content-Type".
  change (CanonicalHeaderKey "X-Content-Type-Options") with "X-Content-Type-Options".
  destruct (HasPrefix _ _); cbn [wHeader]; by rewrite !lookup_insert_ne.
Qed.

(** C21: a request whose L402 is not accepted for a service with authentication on,
    and whose resource has a price, is answered with the status 402, or its gRPC
    form, and with the challenge the authenticator made for exactly this
    resource, recipient and price; it does not reach the backend. *)
Theorem unpaid_request_is_challenged `{L402Lib} {A : Type} `{!Authenticator A}
    `{!AuthenticatorLaws A} e (p : t A) w r i target level pr r' recipient price a' r'' h :
  rMethod r ≠ "OPTIONS" ->
  matchService e r (services p) = Ok (Some (i, target)) ->
  Service.AuthRequired e target r = Ok level -> Level.IsOn level = true ->
  Accept (authenticator p) (rHeader r) (Service.ResourceName target (rPath r)) = false ->
  Service.pricer target = Some pr ->
  Pricer.GetPaymentDetails pr r = (r', Ok (recipient, price)) -> price ≠ 0 ->
  canonical (rHeader r') ->
  FreshChallengeHeader (authenticator p) (with_header r' (addCorsHeaders (rHeader r')))
    (Service.ResourceName target (rPath r)) recipient price = (a', r'', Ok h) ->
  exists resp,
    ServeHTTP e p w r = (set_authenticator p a', Ok (Respond resp)) /\
    Values (wHeader resp) "WWW-Authenticate" = Values h "WWW-Authenticate" /\
    (if HasPrefix (Get h hdrContentType) hdrTypeGrpc
     then wStatus resp = StatusOK /\ Get (wHeader resp) hdrGrpcStatus = "13" /\
          Get (wHeader resp) hdrGrpcMessage = "payment required"
     else wStatus resp = StatusPaymentRequired).
Proof.
  intros Hm Ht Hl Hon Hacc Hpr Hp Hz Hcan Hf.
  rewrite (ServeHTTP_challenge e p w r i target level pr r' recipient price) by done.
  destruct (handlePaymentRequired_Ok p w r' _ _ _ _ _ _ Hcan Hf) as (str & Hh & ->).
  eexists. split; [done|]. split.
  - rewrite direct_keeps.
    + subst h. unfold Values, Set_. by rewrite <- insert_union_l, !lookup_insert_eq.
    + change (CanonicalHeaderKey "WWW-Authenticate") with "Www-Authenticate".
      apply (bool_decide_unpack _). vm_compute. exact I.
  - apply (direct_status (h ∪ w) (with_header r' h)).
Qed.

Section Toy2.
#[local] Existing Instance ToyLib.lib.
#[local] Existing Instance ToyLib.laws.
Lemma unpaid_request_is_challenged_witness :
  exists resp,
    ServeHTTP toy_env paid_proxy ∅ toy_request = (paid_proxy, Ok (Respond resp)) /\
    wStatus resp = 402.
Proof.
  destruct (unpaid_request_is_challenged toy_env paid_proxy ∅ toy_request 0 paid_service "on"
    (Pricer.NewDefaultPricer 5) toy_request "" 5 tt
    (with_header toy_request (Set_ (addCorsHeaders (rHeader toy_request)) "WWW-Authenticate"
                                MockAuth.mockChallenge))
    (Set_ (addCorsHeaders (rHeader toy_request)) "WWW-Authenticate" MockAuth.mockChallenge))
    as (resp & E & _ & Hs).
  - discriminate.
  - vm_compute. reflexivity.
  - vm_compute. reflexivity.
  - reflexivity.
  - reflexivity.
  - vm_compute. reflexivity.
  - reflexivity.
  - discriminate.
  - apply map_Forall_singleton. split; [reflexivity|discriminate].
  - reflexivity.
  - exists resp. split; [exact E|exact Hs].
Defined.
End Toy2.

(** C22: over any history of requests that are served one after the other, no network
    gets more requests through to a service without an accepted L402, where a price
    is asked, than the service has freebies.  (Requests served at the same time can
    get more: their check and their tally are separate moments, see
    [Freebie.Concurrent].) *)
Theorem free_rides_are_bounded `{L402Lib} {A : Type} `{!Authenticator A} e (p : t A) reqs i n k :
  store_at p i (MemStore.NewMemIPMaskStore n) -> is_u16 n ->
  rides_of e p reqs i k <= n.
Proof.
  intros Hs Hn. pose proof (rides_bound e p reqs i _ k Hs (MemStore.New_wf n Hn)) as Hb.
  unfold countKey in Hb. cbn [MemStore.NewMemIPMaskStore MemStore.freebieCounter] in Hb.
  rewrite lookup_empty in Hb. cbn in Hb. lia.
Qed.

Section Toy3.
#[local] Existing Instance ToyLib.lib.
#[local] Existing Instance ToyLib.laws.
Lemma free_rides_are_bounded_witness :
  rides_of toy_env freebie_proxy [(∅, toy_request); (∅, toy_request); (∅, toy_request)] 0 "1.2.3.0" <= 2.
Proof.
  apply (free_rides_are_bounded toy_env freebie_proxy).
  - eexists. split; vm_compute; reflexivity.
  - split; [discriminate|reflexivity].
Defined.
End Toy3.

(** a forwarded request is addressed to the backend of its service with the
    configured protocol, its path and body are unchanged, and the L402 the client
    sent, in whichever of the three fields, is read back from it. *)
Theorem forwarded_request_carries_l402 `{L402Lib} `{!L402Laws} e ss req i target mac preimage h' :
  matchService e req ss = Ok (Some (i, target)) ->
  FromHeader (rHeader req) = Ok (mac, preimage) -> is_array 32 preimage ->
  SetHeader (rHeader req) mac preimage = Ok h' ->
  exists out, director e ss req = Ok out /\
    rHost out = Service.Address target /\ rURLHost out = Service.Address target /\
    rScheme out = Service.Protocol target /\ rPath out = rPath req /\ rBody out = rBody req /\
    FromHeader (rHeader out) = Ok (mac, preimage).
Proof. apply (director_Ok e). Qed.

Section Toy4.
#[local] Existing Instance ToyLib.lib.
#[local] Existing Instance ToyLib.laws.
Definition l402_header : header :=
  match SetHeader ∅ HeaderProperties.toy_mac (replicate 32 Byte.x07) with Ok h => h | _ => ∅ end.
Lemma forwarded_request_carries_l402_witness :
  exists out, director toy_env [paid_service] (with_header toy_request l402_header) = Ok out /\
              rHost out = "10.0.0.1:80".
Proof.
  destruct (forwarded_request_carries_l402 toy_env [paid_service]
    (with_header toy_request l402_header) 0 paid_service HeaderProperties.toy_mac
    (replicate 32 Byte.x07) l402_header) as (out & Ho & Hh & _).
  - vm_compute. reflexivity.
  - vm_compute. reflexivity.
  - reflexivity.
  - vm_compute. reflexivity.
  - exists out. split; [exact Ho|exact Hh].
Defined.
End Toy4.

(** A header field the client sends, other than Authorization, reaches the
    backend with the client's value first even when the configuration of the
    service sets the same field: it is added, not overwritten. *)
Theorem configured_header_does_not_overwrite `{L402Lib} e ss req out k :
  CanonicalHeaderKey k ≠ CanonicalHeaderKey HeaderAuthorization ->
  director e ss req = Ok out -> Get (rHeader req) k ≠ "" ->
  Get (rHeader out) k = Get (rHeader req) k.
Proof. apply director_keeps_client. Qed.

Section Toy6.
#[local] Existing Instance ToyLib.lib.
#[local] Existing Instance ToyLib.laws.
Lemma configured_header_does_not_overwrite_witness :
  exists out, director toy_env [paid_service] toy_request = Ok out /\
    Service.Headers paid_service !! "X-Role" = Some "reader" /\
    Get (rHeader out) "X-Role" = "admin".
Proof.
  eexists. split; [vm_compute; reflexivity|]. split; [vm_compute; reflexivity|].
  apply (configured_header_does_not_overwrite toy_env [paid_service] toy_request).
  - vm_compute. discriminate.
  - vm_compute. reflexivity.
  - vm_compute. discriminate.
Defined.
End Toy6.

(** *** What the model shows beside the properties *)

(** The answer to an unpaid request repeats the header fields of the request. *)
Theorem challenge_echoes_request `{L402Lib} {A : Type} `{!Authenticator A} `{!AuthenticatorLaws A}
    (p : t A) w r n rc pc a' r' h k :
  canonical (rHeader r) ->
  FreshChallengeHeader (authenticator p) (with_header r (addCorsHeaders (rHeader r))) n rc pc
    = (a', r', Ok h) ->
  CanonicalHeaderKey k ∉ ["Grpc-Status"; "Grpc-Message"; "Content-Type"; "X-Content-Type-Options"] ->
  is_Some (h !! CanonicalHeaderKey k) ->
  exists resp, (handlePaymentRequired p w r n rc pc).2 = Ok (Respond resp) /\
               Values (wHeader resp) k = Values h k.
Proof.
  intros Hc Hf Hk Hs. destruct (handlePaymentRequired_Ok p w r n rc pc _ _ _ Hc Hf) as (str & _ & ->).
  eexists. split; [done|]. rewrite direct_keeps by done. unfold Values.
  destruct Hs as [v Hv]. by rewrite Hv, (lookup_union_Some_l _ _ _ _ Hv).
Qed.

(** [UpdateServices] succeeds with new services and the proxy goes on with the
    old ones. *)
Section ToyUpdate.
#[local] Existing Instance ToyLib.lib.
Theorem updated_services_are_not_used :
  exists ss', UpdateServices toy_env (fun _ => true) paid_proxy [ServiceProperties.toy_service]
    = (paid_proxy, ss', Ok tt) /\ services paid_proxy ≠ ss'.
Proof. eexists. split; [reflexivity|]. vm_compute. discriminate. Qed.
End ToyUpdate.

(** The price of a resource that is free is fetched with the request's own
    reader: the backend gets an empty body. *)
Theorem free_resource_loses_body e (c : Pricer.rpcConn) r r' res :
  Pricer.GetPaymentDetails (Pricer.GRPCPricer e c) r = (r', res) -> rBody r' = "".
Proof. by intros [= <- _]. Qed.
End ProxyProperties.
