(* ===== verification/Challenger.v ===== *)
(** * The challenger: [challenger/lnproxy.go], and [lnurl/lnurl.go]

    The cache of invoice states that lnd's invoice stream keeps up to date, the
    two checks the authenticator makes on it, and the making of a new challenge.
    The HTTP endpoints, the JSON and URL packages and the invoice decoder
    [zpay32] are arguments. *)
From S2P Require Import Prelude.
From S2P Require Import GoStrings.
From S2P Require Import GoTime.
From S2P Require Import Caveat.
From S2P Require Import Sha256.
From S2P Require Import Macaroon.
From S2P Require Import Http.
From S2P Require Import Secrets.
From S2P Require Import Mint.
From S2P Require Import Auth.

(** ** [lnurl/lnurl.go] *)
Module Lnurl.

Record t := { Lud16 : string; Lnurl : string }.

Record LnurlResponse := { Status : string; Callback : string }.
Record LnurlCallbackResponse := { cbStatus : string; Pr : string }.

(** The world of a call: a GET answers with the HTTP status and what decoding
    its body gives; [setAmount] is the callback with its [amount] parameter set. *)
Record env := {
  getPayRequest : string -> outcome (Z * outcome LnurlResponse);
  setAmount : string -> string -> outcome string;
  getCallback : string -> outcome (Z * outcome LnurlCallbackResponse)
}.

Definition NewLnurl (lud16 : string) : outcome t :=
  match Split lud16 "@" with
  | [name; domain] =>
      Ok {| Lud16 := lud16;
            Lnurl := "https://" +:+ domain +:+ "/.well-known/lnurlp/" +:+ name |}
  | _ => Err (Errorf "invalid lud16 format")
  end.

(** The amount of the callback is in millisatoshis. *)
Definition GetInvoice (e : env) (l : t) (amount_sats : Z) : outcome string :=
  '(code, dec) ← getPayRequest e (Lnurl l);
  body ← dec;
  if decide (code ≠ StatusOK \/ Status body ≠ "OK") then Err (Errorf "request zap endpoint error")
  else if decide (Callback body = "") then Err (Errorf "callback not found")
  else
    u ← setAmount e (Callback body) (FormatInt (i64 (amount_sats * 1000)));
    '(code, dec) ← getCallback e u;
    callbackBody ← dec;
    if decide (code ≠ StatusOK \/ cbStatus callbackBody ≠ "OK")
    then Err (Errorf "request zap endpoint callback error")
    else if decide (Pr callbackBody = "") then Err (Errorf "invoice not found")
    else Ok (Pr callbackBody).

Lemma NewLnurl_Ok name domain :
  lacks "@" name = true -> lacks "@" domain = true ->
  NewLnurl (name +:+ String "@" domain) =
    Ok {| Lud16 := name +:+ String "@" domain;
          Lnurl := "https://" +:+ domain +:+ "/.well-known/lnurlp/" +:+ name |}.
Proof. intros Hn Hd. unfold NewLnurl. by rewrite Split_app, Split_lacks. Qed.

Lemma NewLnurl_no_at s : lacks "@" s = true -> is_err (NewLnurl s) = true.
Proof. intros Hs. unfold NewLnurl. by rewrite Split_lacks. Qed.
End Lnurl.

(** ** [challenger/lnproxy.go] *)
Module LnproxyChallenger.

(** The fields of [lnrpc.Invoice] that are read; [RHash] may be nil. *)
Record invoice := {
  RHash : option (list byte);
  AddIndex : Z;
  SettleIndex : Z;
  State : InvoiceState;
  CreationDate : Z;
  Expiry : Z;
  SettleDate : Z
}.

(** The argument is a pointer. *)
Definition invoiceIrrelevant (now : time) (i : option invoice) : bool :=
  match i with
  | None => true
  | Some i =>
      if decide (State i = CANCELED) then true
      else
        let creation := Unix (CreationDate i) in
        let expiration := Add creation (Seconds (Expiry i)) in
        let expired := After now expiration in
        let notSettled := bool_decide (State i = OPEN \/ State i = ACCEPTED) in
        expired && notSettled
  end.

Abbreviation states := (gmap (list byte) InvoiceState).

Section Challenger.
Context `{L402Lib}.
Context {S : Type} `{!SecretStore S}.

Record t := { invoiceStates : states; secrets : S }.

(** *** [Start]: the loop over the invoices lnd lists; [now] is the clock when
    each one is looked at. *)
Definition idx := (Z * Z)%type.

Definition cacheInvoice (now : time) (i : invoice) (acc : states * idx) :
    states * idx * outcome unit :=
  let '(m, (addIndex, settleIndex)) := acc in
  match RHash i with
  | None => (m, (addIndex, settleIndex), Ok tt)
  | Some h =>
      let addIndex := if decide (addIndex < AddIndex i) then AddIndex i else addIndex in
      let settleIndex := if decide (settleIndex < SettleIndex i) then SettleIndex i
                         else settleIndex in
      match MakeHash h with
      | Ok hash =>
          if invoiceIrrelevant now (Some i) then (m, (addIndex, settleIndex), Ok tt)
          else (<[hash := State i]> m, (addIndex, settleIndex), Ok tt)
      | Err _ => (m, (addIndex, settleIndex), Err (Errorf "error parsing invoice hash"))
      | Panic x => (m, (addIndex, settleIndex), Panic x)
      end
  end.

Fixpoint cacheInvoices (invoices : list (time * invoice)) (acc : states * idx) :
    states * idx * outcome unit :=
  match invoices with
  | [] => (acc, Ok tt)
  | (now, i) :: rest =>
      match cacheInvoice now i acc with
      | (acc', Ok _) => cacheInvoices rest acc'
      | (acc', r) => (acc', r)
      end
  end.

(** The subscription is made with the two indices reached. *)
Definition Start (listInvoices : outcome (list (time * invoice)))
    (subscribe : Z -> Z -> outcome unit) (l : t) : t * outcome unit :=
  match listInvoices with
  | Ok invoices =>
      let '(m, (addIndex, settleIndex), r) := cacheInvoices invoices (invoiceStates l, (0, 0)) in
      ({| invoiceStates := m; secrets := secrets l |},
       _ ← r; subscribe addIndex settleIndex)
  | Err e => (l, Err e)
  | Panic m => (l, Panic m)
  end.

Definition NewLnproxyChallenger (store : S) (listInvoices : outcome (list (time * invoice)))
    (subscribe : Z -> Z -> outcome unit) : outcome t :=
  let '(l, r) := Start listInvoices subscribe {| invoiceStates := ∅; secrets := store |} in
  _ ← wrapf "unable to start challenger" r;
  Ok l.

(** *** [readInvoiceStream] *)

(** What one round of the loop meets: the quit signal, or what [Recv] returns. *)
Inductive recv :=
  | RQuit
  | RInvoice (now : time) (i : invoice)
  | REOF
  | RCanceled
  | RError (e : error).

(** A round ends the loop, possibly with an error for the main goroutine, or
    goes on. *)
Inductive round :=
  | Continue
  | Return (signalled : option error).

Definition onUpdate (now : time) (i : invoice) (l : t) : t * round :=
  match RHash i with
  | None => (l, Continue)
  | Some h =>
      match MakeHash h with
      | Ok paymentHash =>
          if invoiceIrrelevant now (Some i) then
            ({| invoiceStates := delete paymentHash (invoiceStates l); secrets := secrets l |},
             Continue)
          else
            let m := <[paymentHash := State i]> (invoiceStates l) in
            let s := if decide (State i = SETTLED)
                     then (SetSettledAtByPaymentHash (secrets l) paymentHash
                             (Some (Unix (SettleDate i)))).1
                     else secrets l in
            ({| invoiceStates := m; secrets := s |}, Continue)
      | _ => (l, Return None)
      end
  end.

Definition streamRound (l : t) (x : recv) : t * round :=
  match x with
  | RQuit => (l, Return None)
  | REOF => (l, Return (Some (Sentinel "io.EOF")))
  | RCanceled => (l, Return None)
  | RError e => (l, Return (Some e))
  | RInvoice now i => onUpdate now i l
  end.

Fixpoint readInvoiceStream (l : t) (stream : list recv) : t * option (option error) :=
  match stream with
  | [] => (l, None)      (* still waiting for the next message *)
  | x :: rest =>
      match streamRound l x with
      | (l', Continue) => readInvoiceStream l' rest
      | (l', Return sig) => (l', Some sig)
      end
  end.

(** *** [VerifyInvoiceStatus]

    The waiting goroutine looks at the cache when it gets the lock and after
    every wake-up: [cur] is what it sees first and [later] what it sees then;
    the last look is the one at which the timeout was reached. *)
Fixpoint waitStatus (hash : list byte) (state : InvoiceState) (cur : states)
    (later : list states) : option InvoiceState :=
  if decide (cur !! hash = Some state) then Some state
  else match later with
       | [] => cur !! hash
       | m :: rest => waitStatus hash state m rest
       end.

Definition VerifyInvoiceStatus (l : t) (later : list states) (hash : list byte)
    (state : InvoiceState) : outcome unit :=
  match waitStatus hash state (invoiceStates l) later with
  | None => Err (Errorf "no active or settled invoice found for hash")
  | Some invoiceState =>
      if decide (invoiceState ≠ state)
      then Err (Errorf "invoice status not correct before timeout")
      else Ok tt
  end.

Definition VerifyRightsWithinExpiry (l : t) (now : time) (paymentHash : list byte)
    (duration : Z) : outcome unit :=
  settledAt ← GetSettledAtByPaymentHash (secrets l) paymentHash;
  match settledAt with
  | None => Err (Errorf "no settled time found for paymentHash")
  | Some at_ =>
      let expiryTime := Add at_ duration in
      if Before expiryTime now then Err (Errorf "L402 right expired") else Ok tt
  end.
End Challenger.
Arguments t : clear implicits.

(** The running challenger as the authenticator's [InvoiceChecker]. *)
Record running (S : Type) := { chal : t S; sees : list states; clock : time }.
Arguments chal {S}.
Arguments sees {S}.
Arguments clock {S}.

#[global] Instance checker `{L402Lib} {S} `{!SecretStore S} : InvoiceChecker (running S) := {|
  Auth.VerifyInvoiceStatus k hash state _ := VerifyInvoiceStatus (chal k) (sees k) hash state;
  Auth.VerifyRightsWithinExpiry k hash duration :=
    VerifyRightsWithinExpiry (chal k) (clock k) hash duration
|}.

(** *** [NewChallenge] *)

(** [uint64(amount_sats * 3 / 100)], at least 10_000. *)
Definition getRoutingMsat (amount_sats : Z) : Z :=
  let routingMsat := u64 (Z.quot (i64 (amount_sats * 3)) 100) in
  if decide (routingMsat < 10000) then 10000 else routingMsat.

Record ProxyParameters := { Invoice : string; RoutingMsat : option Z }.

Record env := {
  loadDotenv : outcome unit;                            (* [godotenv.Load] *)
  lnurl : Lnurl.env;
  parseEnv : outcome string;                            (* [env.Parse]: LNPROXY_URL *)
  specURL : string -> outcome string;                   (* [url.Parse], [path.Join] *)
  postSpec : string -> ProxyParameters -> outcome string;   (* the raw body *)
  decodeRaw : string -> outcome string;                 (* a JSON value *)
  unmarshalError : string -> outcome string;            (* its [reason] *)
  unmarshalSuccess : string -> outcome string;          (* its [proxy_invoice] *)
  zpay32_Decode : string -> outcome (option { h : list byte | is_array 32 h })   (* the payment hash *)
}.

(** [panic(err)] *)
Definition must {A} (o : outcome A) : outcome A :=
  match o with Err _ => Panic "panic(err)" | _ => o end.

Definition getCreatorInvoice (e : env) (lud16 : string) (price : Z) : outcome string :=
  lu ← errorf "error creating lnurl" (Lnurl.NewLnurl lud16);
  errorf "error getting creator invoice" (Lnurl.GetInvoice (lnurl e) lu price).

Definition requestWrappedInvoice (e : env) (p : ProxyParameters) : outcome string :=
  conf ← must (parseEnv e);
  u ← errorf "failed to parse lnproxy url" (specURL e conf);
  res ← postSpec e u p;
  rawJSON ← errorf "error unmarshaling response" (decodeRaw e res);
  if Contains rawJSON "ERROR" then
    reason ← errorf "error decoding error response" (unmarshalError e rawJSON);
    Err (Errorf ("error response: " +:+ reason))
  else errorf "error decoding success response" (unmarshalSuccess e rawJSON).

Definition extractPaymentHash (e : env) (inv : string) : outcome (list byte) :=
  decodedInvoice ← errorf "error decoding invoice" (zpay32_Decode e inv);
  match decodedInvoice with
  | Some paymentHash => Ok (proj1_sig paymentHash)
  | None => Panic "nil pointer dereference"
  end.

Definition NewChallenge (e : env) (recipientLud16 : string) (price : Z) :
    outcome (string * list byte) :=
  _ ← must (loadDotenv e);
  creatorInvoice ← errorf "error getting creator invoice" (getCreatorInvoice e recipientLud16 price);
  let routingMsat := getRoutingMsat price in
  wrappedInvoice ← errorf "error requesting wrapped invoice"
    (requestWrappedInvoice e {| Invoice := creatorInvoice; RoutingMsat := Some routingMsat |});
  paymentHash ← errorf "error extracting payment hash" (extractPaymentHash e wrappedInvoice);
  Ok (wrappedInvoice, paymentHash).

#[global] Instance challenger : Challenger env := {| Mint.NewChallenge := NewChallenge |}.

#[global] Instance challenger_laws : ChallengerLaws env.
Proof.
  split. intros e r p inv h E. cbn in E. unfold NewChallenge in E.
  apply bind_Ok_inv in E as (u & _ & E). apply bind_Ok_inv in E as (ci & _ & E).
  apply bind_Ok_inv in E as (wi & _ & E). apply bind_Ok_inv in E as (ph & Eh & E).
  apply errorf_Ok_inv in Eh. unfold extractPaymentHash in Eh.
  apply bind_Ok_inv in Eh as ([[x Hx]|] & _ & Eh); [|done].
  apply (inj Ok) in Eh as <-. by injection E as _ <-.
Qed.

(** ** Facts *)

Lemma settled_relevant now i : State i = SETTLED -> invoiceIrrelevant now (Some i) = false.
Proof.
  intros Hs. unfold invoiceIrrelevant. rewrite Hs. rewrite decide_False by done.
  rewrite bool_decide_eq_false_2 by naive_solver. apply andb_false_r.
Qed.

(** The budget is three hundredths of the price, as a number of sats, read as
    msats, with a floor. *)
Lemma getRoutingMsat_spec price :
  0 <= price -> price * 3 <= maxInt64 -> getRoutingMsat price = Z.max 10000 (price * 3 / 100).
Proof.
  intros H0 H1. unfold getRoutingMsat, maxInt64 in *.
  rewrite i64_small by (unfold is_i64, minInt64, maxInt64; lia).
  rewrite Z.quot_div_nonneg by lia. rewrite u64_small by zlia. case_decide; lia.
Qed.

Lemma getRoutingMsat_floor price : 10000 <= getRoutingMsat price.
Proof. unfold getRoutingMsat. case_decide; lia. Qed.

Section Facts.
Context `{L402Lib} `{!L402Laws}.
Context {S : Type} `{!SecretStore S} `{!SecretStoreLaws S}.
Implicit Types (l : t S).

(** What one update makes of the cached state of a hash. *)
Definition effect (h : list byte) (o : option InvoiceState) (x : time * invoice) :
    option InvoiceState :=
  if decide (RHash x.2 = Some h)
  then (if invoiceIrrelevant x.1 (Some x.2) then None else Some (State x.2))
  else o.

Definition hashed (i : invoice) : Prop :=
  match RHash i with Some h => is_array 32 h | None => True end.

Lemma onUpdate_states l now i :
  hashed i ->
  (onUpdate now i l).2 = Continue /\
  forall h, invoiceStates (onUpdate now i l).1 !! h = effect h (invoiceStates l !! h) (now, i).
Proof.
  unfold hashed, onUpdate, effect. cbn [fst snd]. destruct (RHash i) as [h0|]; [|done].
  intros Hh. rewrite MakeHash_spec by done.
  destruct (invoiceIrrelevant now (Some i)); (split; [done|]); intros h; cbn [invoiceStates fst].
  - destruct (decide (h0 = h)) as [->|Hne].
    + rewrite lookup_delete_eq. by rewrite decide_True.
    + rewrite lookup_delete_ne by done. by rewrite decide_False by congruence.
  - destruct (decide (h0 = h)) as [->|Hne].
    + rewrite lookup_insert_eq. by rewrite decide_True.
    + rewrite lookup_insert_ne by done. by rewrite decide_False by congruence.
Qed.

(** The stream of updates keeps the cache at the last word on every hash. *)
Lemma stream_states l (updates : list (time * invoice)) :
  Forall (fun x => hashed x.2) updates ->
  let '(l', ended) := readInvoiceStream l ((fun x => RInvoice x.1 x.2) <$> updates) in
  ended = None /\
  forall h, invoiceStates l' !! h = foldl (effect h) (invoiceStates l !! h) updates.
Proof.
  intros Hu. revert l; induction Hu as [|[now i] updates Hi Hu IH]; intros l; [done|].
  cbn [fmap list_fmap readInvoiceStream streamRound fst snd].
  destruct (onUpdate_states l now i Hi) as [Hc Hm].
  destruct (onUpdate now i l) as [l1 r]. cbn [fst snd] in Hc, Hm. subst r.
  specialize (IH l1). destruct (readInvoiceStream l1 _) as [l' ended].
  destruct IH as [He Hl']. split; [done|]. intros h. rewrite Hl', Hm. done.
Qed.

(** The wait succeeds exactly when one of the looks shows the state. *)
Lemma VerifyInvoiceStatus_Ok l later hash state :
  VerifyInvoiceStatus l later hash state = Ok tt <->
  Exists (fun m : states => m !! hash = Some state) (invoiceStates l :: later).
Proof.
  unfold VerifyInvoiceStatus. generalize (invoiceStates l). intros cur. revert cur.
  induction later as [|m later IH]; intros cur; cbn [waitStatus].
  - rewrite Exists_cons, Exists_nil. case_decide as Hc.
    + rewrite decide_False by tauto. split; [by left|done].
    + destruct (cur !! hash) as [s|].
      * rewrite decide_True by congruence. split; [done|]. by intros [?|?].
      * split; [done|]. by intros [?|?].
  - rewrite Exists_cons. case_decide as Hc.
    + rewrite decide_False by tauto. split; [by left|done].
    + rewrite IH. split; [by right|]. by intros [?|?].
Qed.

(** The right lasts for the duration after the settlement, limits included. *)
Lemma VerifyRights_Ok l now h d at_ :
  GetSettledAtByPaymentHash (secrets l) h = Ok (Some at_) ->
  sane at_ -> sane now -> is_i64 d ->
  VerifyRightsWithinExpiry l now h d = Ok tt <-> nanos now <= nanos at_ + d.
Proof.
  intros Hg Ha Hn Hd. unfold VerifyRightsWithinExpiry. rewrite Hg. cbn [mbind outcome_bind].
  destruct (Add_nanos at_ d Ha Hd) as [Hadd Hs]. destruct Hn as [_ Hn].
  destruct (Before (Add at_ d) now) eqn:E.
  - apply Before_nanos in E; [|done..]. rewrite Hadd in E. split; [done|lia].
  - split; [|done]. intros _. destruct (decide (nanos now <= nanos at_ + d)); [done|].
    assert (Before (Add at_ d) now = true); [|congruence]. apply Before_nanos; [done..|lia].
Qed.

(** A settlement the stream reports is recorded with its date. *)
Lemma onUpdate_settles l now i h :
  RHash i = Some h -> is_array 32 h -> State i = SETTLED ->
  settlements (secrets l) h ≠ [] ->
  is_ok (SetSettledAtByPaymentHash (secrets l) h (Some (Unix (SettleDate i)))).2 = true ->
  settled_as (secrets (onUpdate now i l).1) h (readBack (S := S) (Unix (SettleDate i))).
Proof.
  intros Hh Ha Hs Hg Hok. unfold onUpdate. rewrite Hh, MakeHash_spec by done.
  rewrite settled_relevant by done. cbn [fst secrets]. rewrite decide_True by done.
  destruct (SetSettledAtByPaymentHash _ _ _) as [s' [[]| |]] eqn:E; [|done..].
  by eapply settle_settles.
Qed.

(** [Start] fills the cache and never writes to the store of secrets. *)
Lemma Start_secrets l listed subscribe : secrets (Start listed subscribe l).1 = secrets l.
Proof.
  unfold Start. destruct listed as [invoices| |]; [|done..].
  by destruct (cacheInvoices _ _) as [[m [a s]] r].
Qed.

Lemma cacheInvoice_spec now i m a s :
  hashed i ->
  let '(m', (a', s'), r) := cacheInvoice now i (m, (a, s)) in
  r = Ok tt /\ a <= a' /\ s <= s' /\
  (is_Some (RHash i) -> AddIndex i <= a' /\ SettleIndex i <= s') /\
  forall h, m' !! h =
    if decide (RHash i = Some h /\ invoiceIrrelevant now (Some i) = false)
    then Some (State i) else m !! h.
Proof.
  unfold hashed, cacheInvoice. destruct (RHash i) as [h0|].
  2: { intros _. split; [done|]. split; [lia|]. split; [lia|]. split; [by intros []|].
       intros h. by rewrite decide_False by naive_solver. }
  intros Hh. rewrite MakeHash_spec by done.
  destruct (invoiceIrrelevant now (Some i));
    (split; [done|]); (split; [case_decide; lia|]); (split; [case_decide; lia|]);
    (split; [intros _; repeat case_decide; lia|]); intros h.
  - by rewrite decide_False by naive_solver.
  - destruct (decide (h0 = h)) as [->|Hne].
    + by rewrite lookup_insert_eq, decide_True.
    + rewrite lookup_insert_ne by done. by rewrite decide_False by naive_solver.
Qed.
End Facts.
End LnproxyChallenger.

(** ** Properties *)
Module ChallengerProperties.
Import LnproxyChallenger.

(** after any sequence of invoice updates the cache holds, for every payment
    hash, the state the last update about it reported, and nothing if that
    update was canceled or expired before settlement; the loop goes on. *)
Theorem cache_follows_updates `{L402Lib} `{!L402Laws} {S : Type} `{!SecretStore S}
    (l : t S) (updates : list (time * invoice)) h :
  Forall (fun x => hashed x.2) updates ->
  (readInvoiceStream l ((fun x => RInvoice x.1 x.2) <$> updates)).2 = None /\
  invoiceStates (readInvoiceStream l ((fun x => RInvoice x.1 x.2) <$> updates)).1 !! h =
    foldl (effect h) (invoiceStates l !! h) updates.
Proof.
  intros Hu. pose proof (stream_states l updates Hu) as Hs.
  destruct (readInvoiceStream l _) as [l' ended]. destruct Hs as [He Hs]. cbn [fst snd]. auto.
Qed.

(** Waiting for an invoice status succeeds exactly when the state is seen in
    the cache at the start or at one of the wake-ups before the timeout. *)
Theorem status_check_exact `{L402Lib} {S : Type} `{!SecretStore S} (l : t S) later hash state :
  VerifyInvoiceStatus l later hash state = Ok tt <->
  Exists (fun m : states => m !! hash = Some state) (invoiceStates l :: later).
Proof. apply VerifyInvoiceStatus_Ok. Qed.

(** a right holds from the recorded settlement until the given duration after
    it, the last nanosecond included. *)
Theorem right_lasts_its_duration `{L402Lib} {S : Type} `{!SecretStore S}
    (l : t S) now h d at_ :
  GetSettledAtByPaymentHash (secrets l) h = Ok (Some at_) ->
  sane at_ -> sane now -> is_i64 d ->
  VerifyRightsWithinExpiry l now h d = Ok tt <-> nanos now <= nanos at_ + d.
Proof. apply VerifyRights_Ok. Qed.

(** A settlement reported by the stream is recorded with its date, as the store
    reads it back: the right of its token starts then. *)
Theorem settlement_is_recorded `{L402Lib} `{!L402Laws} {S : Type} `{!SecretStore S}
    `{!SecretStoreLaws S} (l : t S) now i h :
  RHash i = Some h -> is_array 32 h -> State i = SETTLED ->
  settlements (secrets l) h ≠ [] ->
  is_ok (SetSettledAtByPaymentHash (secrets l) h (Some (Unix (SettleDate i)))).2 = true ->
  invoiceStates (onUpdate now i l).1 !! h = Some SETTLED /\
  settled_as (secrets (onUpdate now i l).1) h (readBack (S := S) (Unix (SettleDate i))).
Proof.
  intros Hh Ha Hs Hg Hok. split; [|by apply onUpdate_settles].
  destruct (onUpdate_states l now i) as [_ Hm]; [by unfold hashed; rewrite Hh|].
  rewrite Hm. unfold effect. cbn [fst snd]. by rewrite decide_True, settled_relevant, Hs.
Qed.

(** An invoice that [Start] finds settled is cached as settled, but its
    settlement is not recorded: a token paid while the server was down passes the
    status check and is then refused for want of a settlement time. *)
Theorem settled_while_down_is_refused `{L402Lib} `{!L402Laws} {S : Type} `{!SecretStore S}
    (l : t S) now i h later d clock subscribe :
  RHash i = Some h -> is_array 32 h -> State i = SETTLED ->
  GetSettledAtByPaymentHash (secrets l) h = Ok None ->
  let l' := (Start (Ok [(now, i)]) subscribe l).1 in
  VerifyInvoiceStatus l' later h SETTLED = Ok tt /\
  is_err (VerifyRightsWithinExpiry l' clock h d) = true.
Proof.
  intros Hh Ha Hs Hg l'. split.
  - apply VerifyInvoiceStatus_Ok. left. unfold l', Start. cbn [cacheInvoices].
    pose proof (cacheInvoice_spec now i (invoiceStates l) 0 0) as Hc.
    destruct (cacheInvoice _ _ _) as [[m [a s]] r]. cbn [fst invoiceStates].
    destruct Hc as (-> & _ & _ & _ & Hm); [by unfold hashed; rewrite Hh|].
    cbn [fst invoiceStates]. by rewrite Hm, decide_True, Hs by by rewrite settled_relevant.
  - unfold VerifyRightsWithinExpiry, l'. rewrite Start_secrets, Hg. done.
Qed.

(** The routing budget of a challenge is three hundredths of the price in
    sats, read as msats, and at least 10000 msat; a price so large that the
    product leaves [int64] still gives at least that. *)
Theorem routing_budget price :
  (0 <= price -> price * 3 <= maxInt64 -> getRoutingMsat price = Z.max 10000 (price * 3 / 100)) /\
  10000 <= getRoutingMsat price.
Proof. split; [apply getRoutingMsat_spec | apply getRoutingMsat_floor]. Qed.

(** A challenge cannot be made for a service without a lightning address. *)
Theorem no_recipient_no_challenge e price :
  loadDotenv e = Ok tt -> is_err (NewChallenge e "" price) = true.
Proof. intros Hd. unfold NewChallenge, must. by rewrite Hd. Qed.

(** *** Witnesses *)
Section Toy.
#[local] Existing Instance ToyLib.lib.
#[local] Existing Instance ToyLib.laws.

Definition toy_hash : list byte := Sum256 ToyMint.preimage.
Definition toy_invoice (s : InvoiceState) : invoice := {|
  RHash := Some toy_hash; AddIndex := 1; SettleIndex := 0; State := s;
  CreationDate := 1000; Expiry := 3600; SettleDate := 1010 |}.
Definition toy_state : t DBStore.store :=
  {| invoiceStates := ∅; secrets := ToyMint.store' |}.
Definition settled_state : t DBStore.store :=
  (onUpdate (Unix 1011) (toy_invoice SETTLED) toy_state).1.

Lemma toy_hash_array : is_array 32 toy_hash.
Proof. apply Sum256_length. Qed.

Lemma toy_updates_hashed :
  Forall (fun x : time * invoice => hashed x.2)
    [(Unix 1005, toy_invoice OPEN); (Unix 1011, toy_invoice SETTLED)].
Proof. repeat constructor; apply toy_hash_array. Qed.

Lemma cache_follows_updates_witness :
  invoiceStates (readInvoiceStream toy_state
    ((fun x => RInvoice x.1 x.2) <$> [(Unix 1005, toy_invoice OPEN); (Unix 1011, toy_invoice SETTLED)])).1
    !! toy_hash = Some SETTLED.
Proof.
  rewrite (proj2 (cache_follows_updates toy_state
    [(Unix 1005, toy_invoice OPEN); (Unix 1011, toy_invoice SETTLED)] toy_hash
    toy_updates_hashed)).
  vm_compute. reflexivity.
Defined.

Lemma right_lasts_its_duration_witness :
  VerifyRightsWithinExpiry settled_state (Unix 4610) toy_hash LsatAuth.L402RightExpiryDuration = Ok tt.
Proof.
  apply (right_lasts_its_duration settled_state (Unix 4610) toy_hash LsatAuth.L402RightExpiryDuration
           (Unix 1010)).
  - vm_compute. reflexivity.
  - apply (bool_decide_unpack _). vm_compute. exact I.
  - apply (bool_decide_unpack _). vm_compute. exact I.
  - split; vm_compute; discriminate.
  - vm_compute. discriminate.
Defined.

Lemma settlement_is_recorded_witness :
  settled_as (secrets settled_state) toy_hash (readBack (S := DBStore.store) (Unix 1010)).
Proof.
  apply (settlement_is_recorded toy_state (Unix 1011) (toy_invoice SETTLED) toy_hash).
  - reflexivity.
  - apply toy_hash_array.
  - reflexivity.
  - intros E. apply (f_equal length) in E. vm_compute in E. discriminate E.
  - vm_compute. reflexivity.
Defined.

Lemma settled_while_down_is_refused_witness :
  is_err (VerifyRightsWithinExpiry
    (Start (Ok [(Unix 1011, toy_invoice SETTLED)]) (fun _ _ => Ok tt) toy_state).1
    (Unix 1012) toy_hash LsatAuth.L402RightExpiryDuration) = true.
Proof.
  apply (settled_while_down_is_refused toy_state (Unix 1011) (toy_invoice SETTLED) toy_hash []
           LsatAuth.L402RightExpiryDuration (Unix 1012) (fun _ _ => Ok tt)).
  - reflexivity.
  - apply toy_hash_array.
  - reflexivity.
  - vm_compute. reflexivity.
Defined.

Lemma routing_budget_witness : getRoutingMsat 1000000 = 30000.
Proof.
  apply (proj1 (routing_budget 1000000)); vm_compute; discriminate.
Defined.
End Toy.
End ChallengerProperties.
