(* ===== verification/Restrictions.v ===== *)
(** * The limits of a configured service and the tokens that are sold

    The mint with the static limiter of [services.go] and the LNURL challenger of
    [challenger/lnproxy.go], as [aperture.go] puts them together: the limiter files
    the capabilities, the constraints and the timeout of a service under a key
    without a recipient, and no challenge can be made without one. *)
From S2P Require Import Prelude.
From S2P Require Import GoStrings.
From S2P Require Import GoTime.
From S2P Require Import Caveat.
From S2P Require Import Sha256.
From S2P Require Import Macaroon.
From S2P Require Import Header.
From S2P Require Import Database.
From S2P Require Import Secrets.
From S2P Require Import Mint.
From S2P Require Import Service.
From S2P Require Import Limiter.
From S2P Require Import Challenger.

Import Mint.Mint Limiter.Limiter.

(** A challenge has a recipient. *)
Lemma challenge_recipient (e : LnproxyChallenger.env) r price x :
  LnproxyChallenger.NewChallenge e r price = Ok x -> r ≠ "".
Proof. intros E ->. unfold LnproxyChallenger.NewChallenge in E. by apply bind_Ok_inv in E as (? & _ & ?). Qed.

(** What a token for one service is sold for: the price is its own, or there is none. *)
Lemma price_of_one svc :
  paymentDetailsForMaxPrice [svc] =
    if decide (0 < LsatService.Price svc)
    then (LsatService.RecipientLud16 svc, LsatService.Price svc) else ("", 0).
Proof. reflexivity. Qed.

(** The caveat a client adds to its paid token concerns no limit. *)
Lemma preimage_caveat_in_time target now v :
  in_time target now [Caveat.NewCaveat Caveat.PreimageKey v].
Proof.
  apply (in_time_other target now []); [|by left].
  intros E. apply (f_equal String.length) in E. rewrite string_length_app in E. cbn in E. lia.
Qed.

(** ** Properties *)
Module RestrictionsProperties.

(** C20: the limits configured for a service are on no token that is sold.  With the
    limiter and the challenger the program is wired with, every token minted for a
    service carries the caveat that names the service and no other: neither the
    capabilities nor the constraints nor the timeout of any configured service.  So
    (for a name without the separators of that caveat, and a store that answers) the token with its preimage
    passes [VerifyL402] for that service, and for no other, at any instant whatever
    the timeout of the service is. *)
Theorem configured_limits_are_never_sold `{L402Lib} `{!L402Laws} {S : Type} `{!SecretStore S}
    `{!SecretStoreLaws S} (ch : LnproxyChallenger.env) rnd (st st' : S) start ps svc mac payreq :
  MintL402 ch (newStaticServiceLimiter start ps) rnd st [svc] = (st', Ok (mac, payreq)) ->
  exists h secret c,
    LnproxyChallenger.NewChallenge ch (LsatService.RecipientLud16 svc) (LsatService.Price svc)
      = Ok (payreq, h) /\
    LsatService.NewServicesCaveat [svc] = Ok c /\
    held st' (Sum256 (mac_Id mac)) = Some secret /\
    mac_VerifySignature mac secret = Ok [Caveat.EncodeCaveat c] /\
    (LsatService.plain svc -> is_ok (GetSecret st' (Sum256 (mac_Id mac))) = true -> forall pre mac' target now,
      Preimage_Hash pre = h ->
      AddFirstPartyCaveats mac [Caveat.NewCaveat Caveat.PreimageKey (Preimage_String pre)] = Ok mac' ->
      VerifyL402 st' now {| vpMacaroon := mac'; vpPreimage := pre; vpTargetService := target |} = Ok tt
        <-> target = LsatService.Name svc).
Proof.
  intros Hm. pose proof (MintL402_Ok _ _ _ _ _ _ _ _ Hm) as (h & tid & secret & cs & Hs).
  rewrite price_of_one in Hs. case_decide as Hpr.
  2: { destruct Hs as [Hs _]. by apply challenge_recipient in Hs. }
  destruct Hs as (Hch & _ & _ & Hnew & Hsig & Hcs).
  pose proof (challenge_recipient _ _ _ _ Hch) as Hrec.
  destruct (unknown_service start ps svc) as (H1 & H2 & H3).
  { intros p _ ->. by apply Hrec. }
  pose proof Hcs as Hcs'. apply caveatsForServices_Ok in Hcs' as (c & ? & ? & ? & Hc & E1 & E2 & E3 & ->).
  rewrite H1 in E1. rewrite H2 in E2. rewrite H3 in E3. simplify_eq.
  exists h, secret, c. do 2 (split; [done|]). split; [by eapply new_get|]. split; [exact Hsig|].
  intros Hp Hok pre mac' target now Hpre Hadd.
  rewrite (minted_verify ch _ rnd st [svc] st' st' mac payreq _ _ _
             [Caveat.NewCaveat Caveat.PreimageKey (Preimage_String pre)] mac' h pre target now
             Hm ltac:(done) ltac:(by constructor) H1 H2 H3); [|..|exact Hadd| |exact Hpre|done|exact Hok].
  - change (LsatService.Name <$> [svc]) with [LsatService.Name svc].
    rewrite list_elem_of_singleton. split; [by intros []|]. intros ->. split; [done|].
    apply preimage_caveat_in_time.
  - by repeat constructor.
  - rewrite price_of_one. by rewrite decide_True.
Qed.

(** *** Witness: a service with a timeout of 300 seconds, bought at second 1000 *)
Section Toy.
#[local] Existing Instance ToyLib.lib.
#[local] Existing Instance ToyLib.laws.

(** A world in which every request of a challenge is answered. *)
Definition toy_challenger : LnproxyChallenger.env := {|
  LnproxyChallenger.loadDotenv := Ok tt;
  LnproxyChallenger.lnurl := {|
    Lnurl.getPayRequest _ := Ok (200, Ok {| Lnurl.Status := "OK"; Lnurl.Callback := "https://b.c/cb" |});
    Lnurl.setAmount u a := Ok (u +:+ "?amount=" +:+ a);
    Lnurl.getCallback _ := Ok (200, Ok {| Lnurl.cbStatus := "OK"; Lnurl.Pr := "lnbc1" |}) |};
  LnproxyChallenger.parseEnv := Ok "https://relay";
  LnproxyChallenger.specURL u := Ok (u +:+ "/spec");
  LnproxyChallenger.postSpec _ _ := Ok "{}";
  LnproxyChallenger.decodeRaw b := Ok b;
  LnproxyChallenger.unmarshalError _ := Ok "";
  LnproxyChallenger.unmarshalSuccess _ := Ok "lnbc2";
  LnproxyChallenger.zpay32_Decode _ :=
    Ok (Some (exist _ (Sum256 ToyMint.preimage) (Sum256_length _))) |}.

Definition toy_p : Service.t := ServiceProperties.toy_service.
Definition toy_asked : LsatService.t := {|
  LsatService.Name := Service.Name toy_p; LsatService.Tier := LsatService.BaseTier;
  LsatService.RecipientLud16 := "a@b.c"; LsatService.Price := 21 |}.
Definition toy_minted := MintL402 toy_challenger (newStaticServiceLimiter (Unix 1000) [toy_p])
                           ToyMint.rand ToyMint.store [toy_asked].
Definition toy_mac : macaroon := match toy_minted.2 with Ok (m, _) => m | _ => ToyMint.mac end.

Lemma configured_limits_are_never_sold_witness :
  0 < Service.Timeout toy_p /\
  exists secret, mac_VerifySignature toy_mac secret = Ok ["services=loop:0"].
Proof.
  split; [vm_compute; reflexivity|].
  destruct (configured_limits_are_never_sold toy_challenger ToyMint.rand ToyMint.store toy_minted.1
    (Unix 1000) [toy_p] toy_asked toy_mac "lnbc2") as (h & secret & c & _ & Hc & _ & Hs & _);
    [reflexivity|].
  exists secret. rewrite Hs. injection Hc as <-. reflexivity.
Defined.
End Toy.
End RestrictionsProperties.
