(* ===== verification/Relay.v ===== *)
(** * The relay: [lnproxy/relay.go] and [lnproxy/cmd/http-relay/main.go]

    The wrapping of an invoice with its [uint64] arithmetic, and the circuit
    that pays the original invoice once the wrapped one is accepted.  The
    Lightning node (package [lnc]) is a record of oracles. *)
From S2P Require Import Prelude.
From S2P Require Import GoStrings.
From S2P Require Import GoCodec.

Module Relay.

Definition ClientFacing : error := Sentinel "ClientFacing".
Definition PaymentHashExists : error := Sentinel "lnc.PaymentHashExists".
Definition PaymentFailed : error := Sentinel "lnc.PaymentFailed".

(** [errors.Join(ClientFacing, errors.New(msg))]: [errors.Is] finds the sentinel,
    and the text is the message after an empty line. *)
Definition clientFacing (msg : string) : error := Wrapf msg ClientFacing.

(** ** The node *)
Record DecodedInvoice := {
  PaymentHash : string;
  Timestamp : Z;
  dExpiry : Z;
  Description : string;
  dDescriptionHash : string;
  NumMsat : Z;
  Features : list string        (* the flags, in the order the map is walked *)
}.

Record InvoiceParameters := {
  Memo : string;
  Hash : list byte;
  ValueMsat : Z;
  DescriptionHash : list byte;
  Expiry : Z;
  CltvExpiry : Z
}.

Record PaymentParameters := {
  pInvoice : string;
  TimeoutSeconds : Z;
  FeeLimitMsat : Z;
  CltvLimit : Z
}.

Inductive invoiceState := Open | Settled | Canceled | Accepted.
#[global] Instance invoiceState_eq_dec : EqDecision invoiceState.
Proof. solve_decision. Defined.

Record LN := {
  DecodeInvoice : string -> outcome DecodedInvoice;
  EstimateRoutingFee : DecodedInvoice -> Z -> outcome (Z * Z);
  AddInvoice : InvoiceParameters -> outcome string;
  WatchInvoice : list byte -> (invoiceState * Z) * option error;   (* state, CltvExpiryDelta *)
  CancelInvoice : list byte -> outcome unit;
  PayInvoice : PaymentParameters -> outcome (list byte);
  SettleInvoice : list byte -> outcome unit
}.

(** ** The parameters *)
Record RelayParameters := {
  MinAmountMsat : Z;
  MaxAmountMsat : Z;
  MinFeeBudgetMsat : Z;
  RoutingFeeBaseMsat : Z;
  RoutingFeePPM : Z;
  ExpiryBuffer : Z;
  MaxExpiry : Z;
  CltvDeltaAlpha : Z;
  CltvDeltaBeta : Z;
  RoutingBudgetAlpha : Z;
  RoutingBudgetBeta : Z;
  MaxCltvExpiry : Z;
  MinCltvExpiry : Z;
  PaymentTimeout : Z
}.

(** [NewRelay] *)
Definition NewRelay : RelayParameters := {|
  MinAmountMsat := 10000;
  MaxAmountMsat := 1000000000;
  ExpiryBuffer := 300;
  MaxExpiry := 604800;
  MinFeeBudgetMsat := 1000;
  RoutingBudgetAlpha := 1000;
  RoutingBudgetBeta := 1500000;
  RoutingFeeBaseMsat := 1000;
  RoutingFeePPM := 1000;
  CltvDeltaAlpha := 42;
  CltvDeltaBeta := 42;
  MaxCltvExpiry := 1800;
  MinCltvExpiry := 200;
  PaymentTimeout := 600
|}.

Record ProxyParameters := {
  Invoice : string;
  RoutingMsat : option Z;
  xDescription : option string;
  xDescriptionHash : option string
}.

(** ** [wrap] *)
Definition knownFeature (flag : string) : bool :=
  bool_decide (flag ∈ ["8"; "9"; "14"; "15"; "16"; "17"; "25"; "48"; "49"; "149"; "151"]).

(** Memo and description hash of the wrapped invoice. *)
Definition wrapDescription (x : ProxyParameters) (p : DecodedInvoice) :
    outcome (string * list byte) :=
  match xDescription x, xDescriptionHash x with
  | Some _, Some _ =>
      Err (clientFacing "description and description hash cannot both be set")
  | Some d, None => Ok (d, [])
  | None, Some dh => h ← hex_DecodeString dh; Ok ("", h)
  | None, None =>
      if decide (dDescriptionHash p ≠ "") then h ← hex_DecodeString (dDescriptionHash p); Ok ("", h)
      else Ok (Description p, [])
  end.

(** The fee the relay keeps. *)
Definition routingFee (relay : RelayParameters) (amt : Z) : Z :=
  u64 (RoutingFeeBaseMsat relay + u64 (amt * RoutingFeePPM relay) / 1000000).

(** The value of the wrapped invoice, and the fee budget of the payment. *)
Definition wrapValue (relay : RelayParameters) (routingMsat : option Z) (amt min_fee_budget_msat : Z) :
    outcome (Z * Z) :=
  let routing_fee_msat := routingFee relay amt in
  match routingMsat with
  | Some r =>
      if decide (r < u64 (MinFeeBudgetMsat relay + routing_fee_msat))
      then Err (clientFacing "custom fee budget too low")
      else Ok (u64 (amt + r), u64 (r - routing_fee_msat))
  | None =>
      let fee_budget_msat :=
        u64 (u64 (min_fee_budget_msat + RoutingBudgetAlpha relay) +
             u64 (min_fee_budget_msat * RoutingBudgetBeta relay) / 1000000) in
      Ok (u64 (u64 (amt + fee_budget_msat) + routing_fee_msat), fee_budget_msat)
  end.

Definition wrapExpiry (relay : RelayParameters) (timestamp expiry now1 now2 : Z) : outcome Z :=
  if decide (u64 (timestamp + expiry) < u64 (now1 + ExpiryBuffer relay))
  then Err (clientFacing "payment request expiration is too close.")
  else
    let expiry := if decide (MaxExpiry relay < expiry) then MaxExpiry relay else expiry in
    Ok (u64 (u64 (u64 (timestamp + expiry) - now2) - ExpiryBuffer relay)).

Definition wrapCltv (relay : RelayParameters) (min_cltv_delta : Z) : outcome Z :=
  let c := u64 (u64 (min_cltv_delta + CltvDeltaBeta relay) + CltvDeltaAlpha relay) in
  if decide (MaxCltvExpiry relay <= c) then Err (clientFacing "cltv_expiry is too long")
  else Ok (if decide (c < MinCltvExpiry relay) then MinCltvExpiry relay else c).

(** [now1] and [now2] are the Unix seconds the two calls of [time.Now] show. *)
Definition wrap (relay : RelayParameters) (ln : LN) (now1 now2 : Z) (x : ProxyParameters) :
    outcome (InvoiceParameters * Z) :=
  p ← DecodeInvoice ln (Invoice x);
  if decide (NumMsat p = 0)
  then Err (clientFacing "zero amount invoices cannot be relayed trustlessly")
  else if decide (NumMsat p < MinAmountMsat relay) then Err (clientFacing "invoice amount too low")
  else if decide (MaxAmountMsat relay < NumMsat p) then Err (clientFacing "invoice amount too high")
  else
    '(min_fee_budget_msat, min_cltv_delta) ←
      match EstimateRoutingFee ln p 0 with
      | Err _ => Err (clientFacing "could not find route")
      | o => o
      end;
    if negb (forallb knownFeature (Features p)) then Err (clientFacing "unknown feature flag")
    else
      hash ← hex_DecodeString (PaymentHash p);
      '(memo, description_hash) ← wrapDescription x p;
      expiry ← wrapExpiry relay (Timestamp p) (dExpiry p) now1 now2;
      cltv ← wrapCltv relay min_cltv_delta;
      '(value, fee_budget_msat) ← wrapValue relay (RoutingMsat x) (NumMsat p) min_fee_budget_msat;
      Ok ({| Memo := memo; Hash := hash; ValueMsat := value; DescriptionHash := description_hash;
             Expiry := expiry; CltvExpiry := cltv |}, fee_budget_msat).

(** ** [circuitSwitch]: what it asks of the node, in order *)
Inductive event :=
  | EWatch (hash : list byte)
  | EPay (p : PaymentParameters) (res : outcome (list byte))
  | ECancel (hash : list byte)
  | ESettle (preimage : list byte) (ok : bool).

Definition circuitSwitch (relay : RelayParameters) (ln : LN) (hash : list byte) (invoice : string)
    (fee_budget_msat : Z) : list event * outcome unit :=
  let '((state, cltvDelta), err) := WatchInvoice ln hash in
  if decide (err ≠ None \/ state ≠ Accepted) then
    if decide (state ≠ Canceled) then ([EWatch hash; ECancel hash], Ok tt) else ([EWatch hash], Ok tt)
  else
    let p := {| pInvoice := invoice; TimeoutSeconds := PaymentTimeout relay;
                FeeLimitMsat := fee_budget_msat;
                CltvLimit := u64 (cltvDelta - CltvDeltaAlpha relay) |} in
    let res := PayInvoice ln p in
    match res with
    | Ok preimage =>
        match SettleInvoice ln preimage with
        | Ok _ => ([EWatch hash; EPay p res; ESettle preimage true], Ok tt)
        | _ => ([EWatch hash; EPay p res; ESettle preimage false],
                Panic "error while settling original invoice")
        end
    | Err e =>
        if errors_is e PaymentFailed then ([EWatch hash; EPay p res; ECancel hash], Ok tt)
        else ([EWatch hash; EPay p res], Panic "payment in unknown state")
    | Panic m => ([EWatch hash; EPay p res], Panic m)
    end.

(** ** [OpenCircuit]: the wrapped invoice, and the circuit it starts *)
Definition OpenCircuit (relay : RelayParameters) (ln : LN) (now1 now2 : Z) (x : ProxyParameters) :
    outcome (string * (list event * outcome unit)) :=
  '(q, fee_budget_msat) ← wrap relay ln now1 now2 x;
  match AddInvoice ln q with
  | Err e =>
      if errors_is e PaymentHashExists then Err (Wrapf "payment hash exists" ClientFacing) else Err e
  | Panic m => Panic m
  | Ok proxy_invoice =>
      Ok (proxy_invoice, circuitSwitch relay ln (Hash q) (Invoice x) fee_budget_msat)
  end.

(** ** [specApiHandler]: the answer of the HTTP endpoint *)
Inductive SpecResponse :=
  | JsonError (reason : string)
  | WrappedInvoice (proxy_invoice : string).

(** The text of a client facing error, trimmed. *)
Definition clientText (e : error) : string :=
  match e with Wrapf m _ => m | _ => "" end.

Definition specApiHandler (relay : RelayParameters) (ln : LN) (now1 now2 : Z)
    (body : outcome ProxyParameters) : outcome SpecResponse :=
  match body with
  | Err _ => Ok (JsonError "bad request")
  | Panic m => Panic m
  | Ok x =>
      match OpenCircuit relay ln now1 now2 x with
      | Ok (proxy_invoice, _) => Ok (WrappedInvoice proxy_invoice)
      | Err e =>
          if errors_is e ClientFacing then Ok (JsonError (clientText e))
          else Ok (JsonError "internal error")
      | Panic m => Panic m
      end
  end.

(** ** Facts *)

(** Parameters with which the arithmetic of fees cannot wrap. *)
Definition tame (relay : RelayParameters) : Prop :=
  0 <= MinAmountMsat relay /\ MaxAmountMsat relay <= 2 ^ 40 /\
  0 <= MinFeeBudgetMsat relay <= 2 ^ 40 /\
  0 <= RoutingFeeBaseMsat relay <= 2 ^ 40 /\ 0 <= RoutingFeePPM relay <= 2 ^ 20 /\
  0 <= RoutingBudgetAlpha relay <= 2 ^ 40 /\ 0 <= RoutingBudgetBeta relay <= 2 ^ 22.
#[global] Instance tame_dec relay : Decision (tame relay).
Proof. unfold tame. apply _. Defined.

Lemma NewRelay_tame : tame NewRelay.
Proof. unfold tame. cbn. lia. Qed.

Lemma routingFee_exact relay amt :
  tame relay -> 0 <= amt <= 2 ^ 40 ->
  routingFee relay amt = RoutingFeeBaseMsat relay + amt * RoutingFeePPM relay / 1000000 /\
  0 <= routingFee relay amt <= 2 ^ 61.
Proof.
  intros (_ & _ & _ & Hb & Hp & _) Ha. unfold routingFee.
  assert (0 <= amt * RoutingFeePPM relay <= 2 ^ 60) by nia.
  rewrite (u64_small (amt * _)) by lia.
  assert (0 <= amt * RoutingFeePPM relay / 1000000 <= 2 ^ 60) by zlia.
  rewrite u64_small by lia. lia.
Qed.

(** The value asked of the payer covers the amount, the budget of the payment
    and the fee the relay keeps. *)
Lemma wrapValue_exact relay routingMsat amt mf value budget :
  tame relay -> 0 <= amt <= 2 ^ 40 -> 0 <= mf <= 2 ^ 40 ->
  (forall r, routingMsat = Some r -> 0 <= r /\ amt + r < 2 ^ 64) ->
  wrapValue relay routingMsat amt mf = Ok (value, budget) ->
  value = amt + budget + routingFee relay amt /\ 0 <= budget /\
  (is_Some routingMsat -> MinFeeBudgetMsat relay <= budget).
Proof.
  intros Ht Ha Hm Hr. destruct (routingFee_exact relay amt Ht Ha) as [_ Hf].
  destruct Ht as (_ & _ & Hmin & _ & _ & Hal & Hbe). unfold wrapValue.
  set (f := routingFee relay amt) in *. destruct routingMsat as [r|].
  - destruct (Hr r eq_refl) as [Hr0 Hr1]. rewrite (u64_small (MinFeeBudgetMsat relay + f)) by lia.
    case_decide; [done|]. intros E. injection E as <- <-. rewrite !u64_small by lia. lia.
  - intros E. injection E as <- <-.
    assert (0 <= mf * RoutingBudgetBeta relay <= 2 ^ 62) by nia.
    rewrite (u64_small (mf * _)) by lia.
    assert (0 <= mf * RoutingBudgetBeta relay / 1000000 <= 2 ^ 62) by zlia.
    rewrite (u64_small (mf + _)) by lia.
    rewrite (u64_small (mf + _ + _)) by lia.
    rewrite (u64_small (amt + _)) by lia. rewrite u64_small by lia.
    split; [lia|]. split; [lia|]. by intros [].
Qed.

(** What a successful wrapping went through. *)
Lemma wrap_Ok relay ln now1 now2 x q budget :
  wrap relay ln now1 now2 x = Ok (q, budget) ->
  exists p mf mc,
    DecodeInvoice ln (Invoice x) = Ok p /\
    NumMsat p ≠ 0 /\ MinAmountMsat relay <= NumMsat p <= MaxAmountMsat relay /\
    EstimateRoutingFee ln p 0 = Ok (mf, mc) /\
    Forall (fun f => knownFeature f = true) (Features p) /\
    hex_DecodeString (PaymentHash p) = Ok (Hash q) /\
    wrapDescription x p = Ok (Memo q, DescriptionHash q) /\
    wrapExpiry relay (Timestamp p) (dExpiry p) now1 now2 = Ok (Expiry q) /\
    wrapCltv relay mc = Ok (CltvExpiry q) /\
    wrapValue relay (RoutingMsat x) (NumMsat p) mf = Ok (ValueMsat q, budget).
Proof.
  unfold wrap. intros E. apply bind_Ok_inv in E as (p & Hp & E). repeat (case_decide; [done|]).
  apply bind_Ok_inv in E as ([mf mc] & He & E).
  destruct (forallb knownFeature (Features p)) eqn:Hf; cbn [negb] in E; [|done].
  apply bind_Ok_inv in E as (hash & Hh & E). apply bind_Ok_inv in E as ([memo dh] & Hd & E).
  apply bind_Ok_inv in E as (ex & Hx & E). apply bind_Ok_inv in E as (cl & Hc & E).
  apply bind_Ok_inv in E as ([v b] & Hv & E). injection E as <- <-.
  exists p, mf, mc. cbn [Hash Memo DescriptionHash Expiry CltvExpiry ValueMsat].
  split; [done|]. split; [done|]. split; [lia|].
  split; [by destruct (EstimateRoutingFee ln p 0)|]. split; [|done].
  apply Forall_forall. intros f Hin. rewrite forallb_forall in Hf. apply Hf.
  by apply list_elem_of_In.
Qed.

(** The wrapped invoice expires before the original one by the buffer. *)
Lemma wrapExpiry_exact relay ts ex now :
  0 <= ts -> 0 <= ex <= MaxExpiry relay -> 0 <= now -> 0 <= ExpiryBuffer relay ->
  ts + ex < 2 ^ 64 -> now + ExpiryBuffer relay < 2 ^ 64 ->
  wrapExpiry relay ts ex now now =
    if decide (ts + ex < now + ExpiryBuffer relay)
    then Err (clientFacing "payment request expiration is too close.")
    else Ok (ts + ex - now - ExpiryBuffer relay).
Proof.
  intros H1 H2 H3 H4 H5 H6. unfold wrapExpiry. rewrite !(u64_small (ts + ex)) by lia.
  rewrite (u64_small (now + _)) by lia. case_decide; [done|].
  rewrite (decide_False (P := MaxExpiry relay < ex)) by lia.
  rewrite (u64_small (ts + ex)) by lia. rewrite (u64_small (ts + ex - now)) by lia.
  by rewrite u64_small by lia.
Qed.

(** *** The money of a circuit

    [fee p] is what the payment [p] cost in routing fees. *)
Definition gain (fee : PaymentParameters -> Z) (amt value : Z) (e : event) : Z :=
  match e with
  | EPay p (Ok _) => - (amt + fee p)
  | ESettle _ true => value
  | _ => 0
  end.
Definition balance (fee : PaymentParameters -> Z) (amt value : Z) (trace : list event) : Z :=
  foldr (fun e b => gain fee amt value e + b) 0 trace.

(** The traces of a circuit that ends without a panic. *)
Lemma circuitSwitch_traces relay ln hash inv budget trace :
  circuitSwitch relay ln hash inv budget = (trace, Ok tt) ->
  (trace = [EWatch hash] \/ trace = [EWatch hash; ECancel hash]) \/
  exists p, pInvoice p = inv /\ FeeLimitMsat p = budget /\
    WatchInvoice ln hash =
      ((Accepted, (WatchInvoice ln hash).1.2), None) /\
    ((exists e, PayInvoice ln p = Err e /\ errors_is e PaymentFailed = true /\
                trace = [EWatch hash; EPay p (Err e); ECancel hash]) \/
     (exists preimage, PayInvoice ln p = Ok preimage /\
                trace = [EWatch hash; EPay p (Ok preimage); ESettle preimage true])).
Proof.
  unfold circuitSwitch. destruct (WatchInvoice ln hash) as [[state delta] err] eqn:Ew.
  destruct (decide (err ≠ None \/ state ≠ Accepted)) as [Hb|Hb].
  - case_decide; intros [= <-]; left; auto.
  - set (p := {| pInvoice := inv; TimeoutSeconds := _; FeeLimitMsat := _; CltvLimit := _ |}).
    assert (err = None /\ state = Accepted) as [-> ->].
    { destruct (decide (err = None)), (decide (state = Accepted)); tauto. }
    destruct (PayInvoice ln p) as [preimage|e|m] eqn:Ep; [| |done].
    + destruct (SettleInvoice ln preimage) eqn:Es; [|done..]. intros [= <-].
      right. exists p. do 3 (split; [done|]). right. by exists preimage.
    + destruct (errors_is e PaymentFailed) eqn:Ee; [|done]. intros [= <-].
      right. exists p. do 3 (split; [done|]). left. by exists e.
Qed.

Lemma circuit_balance relay ln hash inv budget trace fee amt value rf :
  circuitSwitch relay ln hash inv budget = (trace, Ok tt) ->
  (forall p, 0 <= FeeLimitMsat p -> 0 <= fee p <= FeeLimitMsat p) ->
  0 <= budget -> value = amt + budget + rf ->
  balance fee amt value trace = 0 \/ rf <= balance fee amt value trace.
Proof.
  intros E Hfee Hb ->. apply circuitSwitch_traces in E as [[->| ->]|(p & _ & Hl & _ & H)];
    [by left..|].
  destruct H as [(e & _ & _ & ->)|(preimage & _ & ->)]; [by left|right].
  unfold balance. cbn [foldr gain]. specialize (Hfee p). rewrite Hl in Hfee. specialize (Hfee Hb). lia.
Qed.
End Relay.

(** ** Properties *)
Module RelayProperties.
Import Relay.

(** a circuit whose custom routing budget does not overflow never loses money:
    when it ends, either nothing was paid and nothing was received, or the relay
    keeps at least its routing fee, provided the node respects the fee limit of a
    payment. *)
Theorem circuit_never_loses relay ln now1 now2 x invoice trace fee p :
  tame relay ->
  OpenCircuit relay ln now1 now2 x = Ok (invoice, (trace, Ok tt)) ->
  DecodeInvoice ln (Invoice x) = Ok p ->
  (forall mf mc, EstimateRoutingFee ln p 0 = Ok (mf, mc) -> 0 <= mf <= 2 ^ 40) ->
  (forall r, RoutingMsat x = Some r -> 0 <= r /\ NumMsat p + r < 2 ^ 64) ->
  (forall q, 0 <= FeeLimitMsat q -> 0 <= fee q <= FeeLimitMsat q) ->
  exists q budget,
    wrap relay ln now1 now2 x = Ok (q, budget) /\
    (balance fee (NumMsat p) (ValueMsat q) trace = 0 \/
     routingFee relay (NumMsat p) <= balance fee (NumMsat p) (ValueMsat q) trace) /\
    0 <= balance fee (NumMsat p) (ValueMsat q) trace.
Proof.
  intros Ht E Hp Hmf Hr Hfee. unfold OpenCircuit in E.
  apply bind_Ok_inv in E as ([q budget] & Ew & E). exists q, budget. split; [done|].
  destruct (AddInvoice ln q) as [inv|e|m]; [|by destruct (errors_is _ _)|done].
  apply (inj Ok) in E. injection E as <- Ec.
  apply wrap_Ok in Ew as (p' & mf & mc & Hp' & Hnz & Hamt & He & _ & _ & _ & _ & _ & Hv).
  rewrite Hp in Hp'. injection Hp' as <-.
  assert (Ha : 0 <= NumMsat p <= 2 ^ 40) by (destruct Ht as (? & ? & _); lia).
  destruct (wrapValue_exact _ _ _ _ _ _ Ht Ha (Hmf _ _ He) Hr Hv) as (Hval & Hb & _).
  destruct (routingFee_exact relay _ Ht Ha) as [_ Hf].
  destruct (circuit_balance _ _ _ _ _ _ fee (NumMsat p) (ValueMsat q) _ Ec Hfee Hb Hval); split; auto; lia.
Qed.

(** the order of a circuit: the payment is made only after the wrapped invoice
    was accepted, the preimage that settles the wrapped invoice is the one the
    payment returned, and a wrapped invoice is canceled only when nothing was
    paid. *)
Theorem circuit_order relay ln hash inv budget trace :
  circuitSwitch relay ln hash inv budget = (trace, Ok tt) ->
  (trace = [EWatch hash] \/ trace = [EWatch hash; ECancel hash]) \/
  exists p, pInvoice p = inv /\ FeeLimitMsat p = budget /\
    WatchInvoice ln hash = ((Accepted, (WatchInvoice ln hash).1.2), None) /\
    ((exists e, PayInvoice ln p = Err e /\ errors_is e PaymentFailed = true /\
                trace = [EWatch hash; EPay p (Err e); ECancel hash]) \/
     (exists preimage, PayInvoice ln p = Ok preimage /\
                trace = [EWatch hash; EPay p (Ok preimage); ESettle preimage true])).
Proof. apply circuitSwitch_traces. Qed.

(** An invoice whose lifetime is within the maximum is wrapped with a lifetime
    that ends the buffer before its own, and refused when less than the buffer is
    left. *)
Theorem wrapped_expiry relay ts ex now :
  0 <= ts -> 0 <= ex <= MaxExpiry relay -> 0 <= now -> 0 <= ExpiryBuffer relay ->
  ts + ex < 2 ^ 64 -> now + ExpiryBuffer relay < 2 ^ 64 ->
  wrapExpiry relay ts ex now now =
    if decide (ts + ex < now + ExpiryBuffer relay)
    then Err (clientFacing "payment request expiration is too close.")
    else Ok (ts + ex - now - ExpiryBuffer relay).
Proof. apply wrapExpiry_exact. Qed.

Lemma wrapped_expiry_witness : wrapExpiry NewRelay 1000 3600 1100 1100 = Ok 3200.
Proof. apply (wrapped_expiry NewRelay 1000 3600 1100); cbn; lia. Defined.

(** The endpoint tells a client only the errors meant for it: every other
    failure is answered as an internal error, whatever its text. *)
Theorem internal_errors_stay_internal relay ln now1 now2 x :
  (forall m, OpenCircuit relay ln now1 now2 x ≠ Panic m) ->
  specApiHandler relay ln now1 now2 (Ok x) =
    match OpenCircuit relay ln now1 now2 x with
    | Ok (proxy_invoice, _) => Ok (WrappedInvoice proxy_invoice)
    | Err e => if decide (errors_is e ClientFacing = true) then Ok (JsonError (clientText e))
               else Ok (JsonError "internal error")
    | Panic m => Panic m
    end.
Proof.
  intros Hp. unfold specApiHandler. destruct (OpenCircuit _ _ _ _ _) as [[inv c]|e|m]; [done| |done].
  by destruct (errors_is e ClientFacing).
Qed.

(** *** The toy node: one invoice of 1000 sats, which it pays *)
Definition toy_invoice : DecodedInvoice := {|
  PaymentHash := "0a0b"; Timestamp := 1000; dExpiry := 3600; Description := "d";
  dDescriptionHash := ""; NumMsat := 1000000; Features := ["8"; "14"] |}.
Definition toy_ln : LN := {|
  DecodeInvoice _ := Ok toy_invoice;
  EstimateRoutingFee _ _ := Ok (2000, 80);
  AddInvoice _ := Ok "lnwrapped";
  WatchInvoice _ := ((Accepted, 200), None);
  CancelInvoice _ := Ok tt;
  PayInvoice _ := Ok [Byte.x09];
  SettleInvoice _ := Ok tt
|}.
Definition toy_request (routing : option Z) : ProxyParameters := {|
  Invoice := "lnbc10u"; RoutingMsat := routing; xDescription := None; xDescriptionHash := None |}.
Definition toy_trace (routing : option Z) : list event :=
  match OpenCircuit NewRelay toy_ln 1100 1100 (toy_request routing) with
  | Ok (_, (tr, _)) => tr | _ => [] end.

Lemma circuit_never_loses_witness :
  exists q budget,
    wrap NewRelay toy_ln 1100 1100 (toy_request (Some 10000)) = Ok (q, budget) /\
    (balance FeeLimitMsat 1000000 (ValueMsat q) (toy_trace (Some 10000)) = 0 \/
     routingFee NewRelay 1000000
       <= balance FeeLimitMsat 1000000 (ValueMsat q) (toy_trace (Some 10000))) /\
    0 <= balance FeeLimitMsat 1000000 (ValueMsat q) (toy_trace (Some 10000)).
Proof.
  apply (circuit_never_loses NewRelay toy_ln 1100 1100 (toy_request (Some 10000)) "lnwrapped"
    (toy_trace (Some 10000)) FeeLimitMsat toy_invoice).
  - apply NewRelay_tame.
  - vm_compute. reflexivity.
  - reflexivity.
  - intros mf mc E. injection E as <- <-. split; discriminate.
  - intros r E. injection E as <-. split; [discriminate|reflexivity].
  - intros q Hq. split; [exact Hq|apply Z.le_refl].
Defined.

Lemma circuit_order_witness :
  exists preimage, PayInvoice toy_ln
    {| pInvoice := "lnbc10u"; TimeoutSeconds := 600; FeeLimitMsat := 8000; CltvLimit := 158 |}
    = Ok preimage.
Proof.
  destruct (circuit_order NewRelay toy_ln [Byte.x0a; Byte.x0b] "lnbc10u" 8000
    (circuitSwitch NewRelay toy_ln [Byte.x0a; Byte.x0b] "lnbc10u" 8000).1 eq_refl)
    as [[E|E]|(p & _ & _ & _ & [(e & E & _)|(preimage & E & _)])].
  - discriminate E.
  - discriminate E.
  - discriminate E.
  - exists preimage. exact E.
Defined.

Lemma internal_errors_stay_internal_witness :
  specApiHandler NewRelay toy_ln 1100 1100 (Ok (toy_request (Some 5))) =
    Ok (JsonError "custom fee budget too low").
Proof.
  rewrite (internal_errors_stay_internal NewRelay toy_ln 1100 1100 (toy_request (Some 5))).
  - vm_compute. reflexivity.
  - intros m. vm_compute. discriminate.
Defined.

(** A routing budget close to [2 ^ 64] is accepted and makes the value of the
    wrapped invoice wrap around: the payer is asked for a single msat while the
    relay is bound to pay the whole amount. *)
Theorem huge_routing_budget_accepted ln now x p mf mc hash :
  DecodeInvoice ln (Invoice x) = Ok p -> EstimateRoutingFee ln p 0 = Ok (mf, mc) ->
  10000 <= NumMsat p <= 1000000000 -> Features p = [] -> hex_DecodeString (PaymentHash p) = Ok hash ->
  xDescription x = Some "" -> xDescriptionHash x = None ->
  wrapExpiry NewRelay (Timestamp p) (dExpiry p) now now = Ok 1000 -> 0 <= mc <= 1000 ->
  RoutingMsat x = Some (2 ^ 64 - NumMsat p + 1) ->
  exists q budget, wrap NewRelay ln now now x = Ok (q, budget) /\ ValueMsat q = 1.
Proof.
  intros Hp He Ha Hf Hh Hd Hdh Hx Hc Hr. unfold wrap. rewrite Hp. cbn [mbind outcome_bind].
  cbn [MinAmountMsat MaxAmountMsat NewRelay].
  rewrite !decide_False by lia. rewrite He. cbn [mbind outcome_bind]. rewrite Hf. cbn [forallb negb].
  rewrite Hh. cbn [mbind outcome_bind]. unfold wrapDescription. rewrite Hd, Hdh.
  cbn [mbind outcome_bind]. rewrite Hx. cbn [mbind outcome_bind].
  unfold wrapCltv. cbn [CltvDeltaBeta CltvDeltaAlpha MaxCltvExpiry MinCltvExpiry NewRelay].
  rewrite (u64_small (mc + 42)) by lia. rewrite u64_small by lia.
  rewrite decide_False by lia. cbn [mbind outcome_bind].
  unfold wrapValue. rewrite Hr.
  destruct (routingFee_exact NewRelay (NumMsat p) NewRelay_tame ltac:(lia)) as [Hrf Hb].
  cbn [RoutingFeeBaseMsat RoutingFeePPM NewRelay] in Hrf.
  assert (Hsm : routingFee NewRelay (NumMsat p) <= 1001000) by zlia.
  cbn [MinFeeBudgetMsat NewRelay]. rewrite (u64_small (1000 + _)) by lia.
  rewrite (decide_False (P := _ < 1000 + _)) by lia. cbn [mbind outcome_bind]. eexists _, _. split; [done|].
  cbn [ValueMsat]. unfold u64. replace (NumMsat p + (2 ^ 64 - NumMsat p + 1)) with (1 + 1 * 2 ^ 64) by lia.
  by rewrite Z.mod_add.
Qed.

Definition toy_attack_invoice : DecodedInvoice := {|
  PaymentHash := "0a0b"; Timestamp := 1000; dExpiry := 1400; Description := "d";
  dDescriptionHash := ""; NumMsat := 1000000; Features := [] |}.
Definition toy_attack_ln : LN := {|
  DecodeInvoice _ := Ok toy_attack_invoice; EstimateRoutingFee := EstimateRoutingFee toy_ln;
  AddInvoice := AddInvoice toy_ln; WatchInvoice := WatchInvoice toy_ln;
  CancelInvoice := CancelInvoice toy_ln; PayInvoice := PayInvoice toy_ln;
  SettleInvoice := SettleInvoice toy_ln |}.
Lemma huge_routing_budget_accepted_witness :
  exists q budget, wrap NewRelay toy_attack_ln 1100 1100
    {| Invoice := "lnbc10u"; RoutingMsat := Some (2 ^ 64 - 1000000 + 1); xDescription := Some "";
       xDescriptionHash := None |} = Ok (q, budget) /\ ValueMsat q = 1.
Proof.
  apply (huge_routing_budget_accepted toy_attack_ln 1100 _ toy_attack_invoice 2000 80 [Byte.x0a; Byte.x0b]).
  - reflexivity.
  - reflexivity.
  - split; discriminate.
  - reflexivity.
  - reflexivity.
  - reflexivity.
  - reflexivity.
  - reflexivity.
  - split; discriminate.
  - reflexivity.
Defined.

(** An old invoice with a lifetime beyond the maximum passes the check of the
    buffer, and the lifetime of the wrapped invoice wraps below zero. *)
Theorem clamped_expiry_wraps :
  wrapExpiry NewRelay 0 1000000 700000 700000 = Ok (2 ^ 64 + 604800 - 700000 - 300).
Proof. vm_compute. reflexivity. Qed.
End RelayProperties.
