(* ===== verification/Circuits.v ===== *)
(** * The circuits of a relay: [lnproxy/relay.go] and its [main], running

    [Relay.circuitSwitch] is one circuit from its start to its end, with a node
    that answers at once.  Here every circuit is a goroutine that waits for the
    node at each of its calls, beside the other circuits, the handlers of the HTTP
    server, the goroutine that waits for the interrupt and [main], which waits for
    the circuits ([sync.WaitGroup]) before it returns.  A panic in a circuit is
    recovered by nobody: it ends the process. *)
From stdpp Require Import relations.
From S2P Require Import Prelude.
From S2P Require Import Steps.
From S2P Require Import Relay.

Module Circuits.
Import Relay.

(** ** One circuit *)

(** Where the goroutine is: in [WatchInvoice], [PayInvoice], [CancelInvoice] or
    [SettleInvoice], over, or in a panic. *)
Inductive pc :=
  | Watching
  | Paying (p : PaymentParameters)
  | Cancelling
  | Settling (preimage : list byte)
  | Over
  | Crashed (msg : string).

(** The arguments of [circuitSwitch] and where it is.  The program does not keep
    the last three: what the circuit has asked of the node, and the amounts of the
    original and of the wrapped invoice. *)
Record circuit := {
  cHash : list byte;
  cInvoice : string;
  cBudget : Z;
  cAt : pc;
  cDid : list event;
  cAmt : Z;
  cValue : Z
}.

Definition goto (p : pc) (ev : event) (c : circuit) : circuit := {|
  cHash := cHash c; cInvoice := cInvoice c; cBudget := cBudget c; cAt := p;
  cDid := cDid c ++ [ev]; cAmt := cAmt c; cValue := cValue c |}.

(** What the call that the circuit waits for returns. *)
Inductive answer :=
  | Watched (state : invoiceState) (cltvDelta : Z) (err : option error)
  | Paid (res : outcome (list byte))
  | CancelReturned
  | SettleReturned (ok : bool).

Section Circuit.
Context (relay : RelayParameters).

Definition payment (c : circuit) (cltvDelta : Z) : PaymentParameters := {|
  pInvoice := cInvoice c; TimeoutSeconds := PaymentTimeout relay;
  FeeLimitMsat := cBudget c; CltvLimit := u64 (cltvDelta - CltvDeltaAlpha relay) |}.

(** The circuit goes on to its next call. *)
Definition advance (a : answer) (c : circuit) : option circuit :=
  match cAt c, a with
  | Watching, Watched state cltvDelta err =>
      let p :=
        if decide (err ≠ None \/ state ≠ Accepted) then
          if decide (state ≠ Canceled) then Cancelling else Over
        else Paying (payment c cltvDelta) in
      Some (goto p (EWatch (cHash c)) c)
  | Paying p, Paid res =>
      let next :=
        match res with
        | Ok preimage => Settling preimage
        | Err e => if errors_is e PaymentFailed then Cancelling
                   else Crashed "payment in unknown state"
        | Panic m => Crashed m
        end in
      Some (goto next (EPay p res) c)
  | Cancelling, CancelReturned => Some (goto Over (ECancel (cHash c)) c)
  | Settling preimage, SettleReturned ok =>
      Some (goto (if ok then Over else Crashed "error while settling original invoice")
                 (ESettle preimage ok) c)
  | _, _ => None
  end.

(** A goroutine that still holds the wait group. *)
Definition running (c : circuit) : bool :=
  match cAt c with Over | Crashed _ => false | _ => true end.

(** [OpenCircuit] up to the goroutine it starts. *)
Definition opens (ln : LN) (now1 now2 : Z) (x : ProxyParameters) : outcome (string * circuit) :=
  '(q, fee_budget_msat) ← wrap relay ln now1 now2 x;
  match AddInvoice ln q with
  | Err e =>
      if errors_is e PaymentHashExists then Err (Wrapf "payment hash exists" ClientFacing) else Err e
  | Panic m => Panic m
  | Ok proxy_invoice =>
      Ok (proxy_invoice, {|
        cHash := Hash q; cInvoice := Invoice x; cBudget := fee_budget_msat;
        cAt := Watching; cDid := [];
        cAmt := match DecodeInvoice ln (Invoice x) with Ok p => NumMsat p | _ => 0 end;
        cValue := ValueMsat q |})
  end.
End Circuit.

(** ** The process *)

(** A request: [specApiHandler] has its body, or has its answer and returns. *)
Inductive handler :=
  | Handling (body : outcome ProxyParameters)
  | Answering (resp : SpecResponse).

(** The HTTP server: it accepts requests; [ListenAndServe] has failed; in
    [Shutdown], which waits for the handlers; shut down, and [idleConnsClosed]
    closed. *)
Inductive server := Serving | Broken | Draining | Closed.

(** [main]: at [<-idleConnsClosed], in [WaitGroup.Wait] with the signal reset,
    returned; or the process was ended by something else. *)
Inductive mainpc := Idling | Joining | Exited | Dead (msg : string).

Record t := {
  main : mainpc;
  srv : server;
  handlers : list handler;
  wg : Z;                       (* the counter of the wait group *)
  circuits : list circuit
}.

Definition start : t := {|
  main := Idling; srv := Serving; handlers := []; wg := 0; circuits := [] |}.

Definition set_main (p : mainpc) (s : t) : t := {|
  main := p; srv := srv s; handlers := handlers s; wg := wg s; circuits := circuits s |}.
Definition set_srv (v : server) (s : t) : t := {|
  main := main s; srv := v; handlers := handlers s; wg := wg s; circuits := circuits s |}.
Definition set_handlers (h : list handler) (s : t) : t := {|
  main := main s; srv := srv s; handlers := h; wg := wg s; circuits := circuits s |}.

Inductive action :=
  | Arrives (body : outcome ProxyParameters)
  | Handles (k : nat) (ln : LN) (now1 now2 : Z)   (* the node as it answers the request [k] *)
  | Returns (k : nat)
  | Replies (i : nat) (a : answer)                (* the node replies to the circuit [i] *)
  | Breaks
  | Interrupt
  | Drained
  | Main.

Section Process.
Context (relay : RelayParameters).

(** The body of [specApiHandler] after the request is read; a panic in a handler
    is recovered by the HTTP server. *)
Definition handles (k : nat) (ln : LN) (now1 now2 : Z) (body : outcome ProxyParameters) (s : t) : t :=
  let answers r := set_handlers (<[k := Answering r]> (handlers s)) s in
  let aborted := set_handlers (delete k (handlers s)) s in
  match body with
  | Err _ => answers (JsonError "bad request")
  | Panic _ => aborted
  | Ok x =>
      match opens relay ln now1 now2 x with
      | Ok (proxy_invoice, c) => {|
          main := main s; srv := srv s;
          handlers := <[k := Answering (WrappedInvoice proxy_invoice)]> (handlers s);
          wg := wg s + 1; circuits := circuits s ++ [c] |}
      | Err e => answers (JsonError (if errors_is e ClientFacing then clientText e else "internal error"))
      | Panic _ => aborted
      end
  end.

(** A circuit that ends runs its deferred [Done], also in a panic. *)
Definition replies (i : nat) (a : answer) (s : t) : option t :=
  c ← circuits s !! i;
  c' ← advance relay a c;
  Some {|
    main := match cAt c' with Crashed m => Dead m | _ => main s end;
    srv := srv s; handlers := handlers s;
    wg := if running c' then wg s else wg s - 1;
    circuits := <[i := c']> (circuits s) |}.

Definition mainStep (s : t) : option t :=
  match main s with
  | Idling => match srv s with Closed => Some (set_main Joining s) | _ => None end
  | Joining => if decide (wg s = 0) then Some (set_main Exited s) else None
  | _ => None
  end.

(** The first interrupt starts the shutdown of the server; another one is not
    noticed before [main] has reset the signal, and then ends the process. *)
Definition interrupt (s : t) : option t :=
  match main s, srv s with
  | Idling, (Serving | Broken) => Some (set_srv Draining s)
  | Joining, _ => Some (set_main (Dead "interrupt") s)
  | _, _ => None
  end.

Definition alive (s : t) : bool :=
  match main s with Idling | Joining => true | _ => false end.

Definition step (a : action) (s : t) : option t :=
  if alive s then
    match a with
    | Arrives body =>
        match srv s with
        | Serving => Some (set_handlers (handlers s ++ [Handling body]) s)
        | _ => None
        end
    | Handles k ln now1 now2 =>
        match handlers s !! k with
        | Some (Handling body) => Some (handles k ln now1 now2 body s)
        | _ => None
        end
    | Returns k =>
        match handlers s !! k with
        | Some (Answering _) => Some (set_handlers (delete k (handlers s)) s)
        | _ => None
        end
    | Replies i a => replies i a s
    | Breaks => match srv s with Serving => Some (set_srv Broken s) | _ => None end
    | Interrupt => interrupt s
    | Drained =>
        match srv s, handlers s with
        | Draining, [] => Some (set_srv Closed s)
        | _, _ => None
        end
    | Main => mainStep s
    end
  else None.
End Process.

(** ** One circuit does what [circuitSwitch] does *)

(** The rest of [circuitSwitch], from where the circuit is, with a node that
    answers at once. *)
Definition settle (ln : LN) (preimage : list byte) : list event * outcome unit :=
  match SettleInvoice ln preimage with
  | Ok _ => ([ESettle preimage true], Ok tt)
  | _ => ([ESettle preimage false], Panic "error while settling original invoice")
  end.
Definition pay (ln : LN) (hash : list byte) (p : PaymentParameters) : list event * outcome unit :=
  let res := PayInvoice ln p in
  match res with
  | Ok preimage => (EPay p res :: (settle ln preimage).1, (settle ln preimage).2)
  | Err e =>
      if errors_is e PaymentFailed then ([EPay p res; ECancel hash], Ok tt)
      else ([EPay p res], Panic "payment in unknown state")
  | Panic m => ([EPay p res], Panic m)
  end.
Definition rest (relay : RelayParameters) (ln : LN) (c : circuit) : list event * outcome unit :=
  match cAt c with
  | Watching => circuitSwitch relay ln (cHash c) (cInvoice c) (cBudget c)
  | Paying p => pay ln (cHash c) p
  | Cancelling => ([ECancel (cHash c)], Ok tt)
  | Settling preimage => settle ln preimage
  | Over => ([], Ok tt)
  | Crashed m => ([], Panic m)
  end.

(** The node that gives the answer [a], and then answers like [ln]. *)
Definition answering (a : answer) (ln : LN) : LN := {|
  DecodeInvoice := DecodeInvoice ln; EstimateRoutingFee := EstimateRoutingFee ln;
  AddInvoice := AddInvoice ln;
  WatchInvoice h := match a with Watched st d err => ((st, d), err) | _ => WatchInvoice ln h end;
  CancelInvoice := CancelInvoice ln;
  PayInvoice p := match a with Paid res => res | _ => PayInvoice ln p end;
  SettleInvoice r :=
    match a with
    | SettleReturned ok => if ok then Ok tt else Err (Errorf "settle")
    | _ => SettleInvoice ln r
    end
|}.

(** A node that refuses everything but to settle. *)
Definition silent : LN := {|
  DecodeInvoice _ := Err (Errorf "silent"); EstimateRoutingFee _ _ := Err (Errorf "silent");
  AddInvoice _ := Err (Errorf "silent"); WatchInvoice _ := ((Open, 0), None);
  CancelInvoice _ := Err (Errorf "silent"); PayInvoice _ := Err (Errorf "silent");
  SettleInvoice _ := Ok tt |}.

Section Switch.
Context (relay : RelayParameters).

(** Everything a circuit can do, whatever the node answers and however it ends. *)
Lemma circuitSwitch_shape ln hash inv budget :
  exists p, pInvoice p = inv /\ FeeLimitMsat p = budget /\
  let tr := (circuitSwitch relay ln hash inv budget).1 in
  tr = [EWatch hash] \/ tr = [EWatch hash; ECancel hash] \/
  (exists res, is_ok res = false /\
     (tr = [EWatch hash; EPay p res] \/ tr = [EWatch hash; EPay p res; ECancel hash])) \/
  exists r b, tr = [EWatch hash; EPay p (Ok r); ESettle r b].
Proof.
  unfold circuitSwitch. destruct (WatchInvoice ln hash) as [[st d] err].
  set (p := {| pInvoice := inv; TimeoutSeconds := _; FeeLimitMsat := _; CltvLimit := _ |}).
  exists p. split; [done|]. split; [done|]. cbv zeta.
  case_decide; [by case_decide; auto|].
  do 2 right. destruct (PayInvoice ln p) as [r|e|m] eqn:Ep.
  - right. by destruct (SettleInvoice ln r); eauto.
  - left. exists (Err e). split; [done|]. destruct (errors_is e PaymentFailed); auto.
  - left. exists (Panic m). auto.
Qed.

Lemma rest_advance a c c' ln :
  advance relay a c = Some c' ->
  exists ev, cDid c' = cDid c ++ [ev] /\
    rest relay (answering a ln) c = (ev :: (rest relay ln c').1, (rest relay ln c').2).
Proof.
  unfold advance, rest. destruct (cAt c) as [|p| |r| |m] eqn:Ep, a as [st d err|res| |ok]; try done;
    intros [= <-]; eexists; (split; [reflexivity|]); cbn [cAt goto cHash].
  - unfold circuitSwitch. cbn [WatchInvoice answering].
    case_decide; [by case_decide|]. cbn [PayInvoice answering]. unfold pay, payment.
    destruct (PayInvoice ln _) as [r|e|m]; [|by destruct (errors_is e _)|done].
    unfold settle. cbn [SettleInvoice answering]. by destruct (SettleInvoice ln r).
  - unfold pay. cbn [PayInvoice answering]. by destruct res as [r|e|m]; [|destruct (errors_is e _)|].
  - done.
  - unfold settle. cbn [SettleInvoice answering]. by destruct ok.
Qed.

(** What the circuit has done, and will do with any node, is what [circuitSwitch]
    does with some node. *)
Definition follows (c : circuit) : Prop := forall ln, exists ln',
  circuitSwitch relay ln' (cHash c) (cInvoice c) (cBudget c) =
    (cDid c ++ (rest relay ln c).1, (rest relay ln c).2).

Lemma advance_keeps a c c' :
  advance relay a c = Some c' ->
  cHash c' = cHash c /\ cInvoice c' = cInvoice c /\ cBudget c' = cBudget c /\
  cAmt c' = cAmt c /\ cValue c' = cValue c.
Proof. unfold advance. by destruct (cAt c), a; intros [= <-]. Qed.

Lemma follows_advance a c c' : follows c -> advance relay a c = Some c' -> follows c'.
Proof.
  intros Hf Ha ln. destruct (rest_advance a c c' ln Ha) as (ev & Hd & Hr).
  destruct (advance_keeps a c c' Ha) as (-> & -> & -> & _).
  destruct (Hf (answering a ln)) as [ln' Hl]. exists ln'. rewrite Hl, Hr, Hd, <- app_assoc. done.
Qed.

Lemma follows_start c : cAt c = Watching -> cDid c = [] -> follows c.
Proof.
  intros Hp Hd ln. exists ln. unfold rest. rewrite Hp, Hd. by destruct (circuitSwitch _ _ _ _ _).
Qed.

Lemma rest_over c :
  follows c ->
  match cAt c with
  | Over => exists ln, circuitSwitch relay ln (cHash c) (cInvoice c) (cBudget c) = (cDid c, Ok tt)
  | Crashed m => exists ln, circuitSwitch relay ln (cHash c) (cInvoice c) (cBudget c) = (cDid c, Panic m)
  | Settling r => exists p, cDid c = [EWatch (cHash c); EPay p (Ok r)] /\ FeeLimitMsat p = cBudget c
  | _ => True
  end.
Proof.
  intros Hf. destruct (Hf silent) as [ln Hl]. unfold rest in Hl.
  destruct (cAt c) as [|p| |r| |m]; [done..| | |]; cbn in Hl.
  - destruct (circuitSwitch_traces _ _ _ _ _ _ Hl) as
      [[E|E]|(p & _ & Hb & _ & [(e & _ & _ & E)|(r' & _ & E)])].
    + by apply (app_inj_tail _ []) in E as [_ [=]].
    + by apply (app_inj_tail _ [EWatch _]) in E as [_ [=]].
    + by apply (app_inj_tail _ [EWatch _; EPay p _]) in E as [_ [=]].
    + apply (app_inj_tail _ [EWatch _; EPay p _]) in E as [E [= ->]]. by exists p.
  - exists ln. by rewrite Hl, app_nil_r.
  - exists ln. by rewrite Hl, app_nil_r.
Qed.

(** What a circuit has done so far is a beginning of such a trace. *)
Lemma follows_prefix c : follows c -> exists ln more,
  (circuitSwitch relay ln (cHash c) (cInvoice c) (cBudget c)).1 = cDid c ++ more.
Proof. intros Hf. destruct (Hf silent) as [ln Hl]. exists ln, (rest relay silent c).1. by rewrite Hl. Qed.

(** And a circuit can do whatever [circuitSwitch] does. *)
Fixpoint advances (l : list answer) (c : circuit) : option circuit :=
  match l with [] => Some c | a :: l => c' ← advance relay a c; advances l c' end.

Definition ended (o : outcome unit) (p : pc) : Prop :=
  match o with Ok _ => p = Over | Panic m => p = Crashed m | Err _ => False end.

Lemma settle_follows ln c r :
  cAt c = Settling r ->
  exists l c', advances l c = Some c' /\ cDid c' = cDid c ++ (settle ln r).1 /\
               ended (settle ln r).2 (cAt c').
Proof.
  intros Hp. unfold settle. exists [SettleReturned (is_ok (SettleInvoice ln r))].
  cbn [advances]. unfold advance. rewrite Hp. eexists. split; [reflexivity|].
  by destruct (SettleInvoice ln r).
Qed.

Lemma cancel_follows c :
  cAt c = Cancelling ->
  exists l c', advances l c = Some c' /\ cDid c' = cDid c ++ [ECancel (cHash c)] /\ cAt c' = Over.
Proof.
  intros Hp. exists [CancelReturned]. cbn [advances]. unfold advance. rewrite Hp. by eexists.
Qed.

Lemma advances_cons a l c c1 c' :
  advance relay a c = Some c1 -> advances l c1 = Some c' -> advances (a :: l) c = Some c'.
Proof. intros H1 H2. cbn [advances]. by rewrite H1. Qed.

Lemma pay_follows ln c p :
  cAt c = Paying p ->
  exists l c', advances l c = Some c' /\ cDid c' = cDid c ++ (pay ln (cHash c) p).1 /\
               ended (pay ln (cHash c) p).2 (cAt c').
Proof.
  intros Hp. set (res := PayInvoice ln p).
  assert (Ha : exists c1, advance relay (Paid res) c = Some c1) by (unfold advance; rewrite Hp; eauto).
  destruct Ha as [c1 Ha]. pose proof Ha as Hc. unfold advance in Hc. rewrite Hp in Hc.
  injection Hc as Hc. unfold pay. fold res. destruct res as [r|e|m].
  - destruct (settle_follows ln c1 r) as (l & c' & H1 & H2 & H3); [by rewrite <- Hc|].
    exists (Paid (Ok r) :: l), c'. split; [by eapply advances_cons|]. split; [|done].
    rewrite H2, <- Hc. cbn [cDid goto]. by rewrite <- app_assoc.
  - destruct (errors_is e PaymentFailed).
    + destruct (cancel_follows c1) as (l & c' & H1 & H2 & H3); [by rewrite <- Hc|].
      exists (Paid (Err e) :: l), c'. split; [by eapply advances_cons|]. split; [|done].
      rewrite H2, <- Hc. cbn [cDid goto cHash]. by rewrite <- app_assoc.
    + exists [Paid (Err e)], c1. split; [by eapply advances_cons|]. by rewrite <- Hc.
  - exists [Paid (Panic m)], c1. split; [by eapply advances_cons|]. by rewrite <- Hc.
Qed.

Lemma switch_follows ln c :
  cAt c = Watching -> cDid c = [] ->
  exists l c', advances l c = Some c' /\
    cDid c' = (circuitSwitch relay ln (cHash c) (cInvoice c) (cBudget c)).1 /\
    ended (circuitSwitch relay ln (cHash c) (cInvoice c) (cBudget c)).2 (cAt c').
Proof.
  intros Hp Hd. unfold circuitSwitch. destruct (WatchInvoice ln (cHash c)) as [[st d] err].
  assert (Ha : exists c1, advance relay (Watched st d err) c = Some c1)
    by (unfold advance; rewrite Hp; eauto).
  destruct Ha as [c1 Ha]. pose proof Ha as Hc. unfold advance in Hc. rewrite Hp in Hc.
  injection Hc as Hc. case_decide; [case_decide|].
  - destruct (cancel_follows c1) as (l & c' & H1 & H2 & H3); [by rewrite <- Hc|].
    exists (Watched st d err :: l), c'. split; [by eapply advances_cons|].
    split; [|done]. rewrite H2, <- Hc. cbn. by rewrite Hd.
  - exists [Watched st d err], c1. split; [by eapply advances_cons|].
    rewrite <- Hc. cbn. by rewrite Hd.
  - destruct (pay_follows ln c1 (payment relay c d)) as (l & c' & H1 & H2 & H3); [by rewrite <- Hc|].
    exists (Watched st d err :: l), c'. split; [by eapply advances_cons|].
    rewrite H2. revert H3. rewrite <- Hc. cbn [cDid goto cHash]. rewrite Hd. unfold pay, payment, settle.
    destruct (PayInvoice ln _) as [r|e|m]; [|by destruct (errors_is e _)|done].
    by destruct (SettleInvoice ln r).
Qed.
End Switch.

(** ** The invariant of the process *)

Definition over (c : circuit) : Prop := cAt c = Over.
Definition sum (l : list Z) : Z := foldr Z.add 0 l.
(** How many circuits hold the wait group. *)
Definition count (l : list circuit) : nat := sum_list_with (fun c => Nat.b2n (running c)) l.

Lemma sum_app l1 l2 : sum (l1 ++ l2) = sum l1 + sum l2.
Proof. induction l1 as [|z l IH]; cbn; [done|]. fold (sum l). fold (sum (l ++ l2)). lia. Qed.

Lemma sum_nonneg l : Forall (fun z => 0 <= z) l -> 0 <= sum l.
Proof. induction 1 as [|z l Hz _ IH]; cbn; [done|]. fold (sum l). lia. Qed.

Lemma count_zero l :
  Forall (fun c => forall m, cAt c ≠ Crashed m) l -> count l = 0%nat -> Forall over l.
Proof.
  intros Hl Hz%sum_zero. apply Forall_forall. intros c Hc.
  rewrite Forall_forall in Hl, Hz. specialize (Hl c Hc). specialize (Hz c Hc).
  unfold over, running in *. destruct (cAt c); [done..|]. by edestruct Hl.
Qed.

Section Invariant.
Context (relay : RelayParameters).

(** Amounts and answers of the node with which the fees of a circuit do not
    overflow. *)
Definition sane_body (body : outcome ProxyParameters) : Prop :=
  forall x r, body = Ok x -> RoutingMsat x = Some r -> 0 <= r < 2 ^ 63.
Definition sane_handler (h : handler) : Prop :=
  match h with Handling body => sane_body body | Answering _ => True end.
Definition sane (a : action) : Prop :=
  match a with
  | Arrives body => sane_body body
  | Handles _ ln _ _ =>
      forall p mf mc, EstimateRoutingFee ln p 0 = Ok (mf, mc) -> 0 <= mf <= 2 ^ 40
  | _ => True
  end.

(** What the payer of the wrapped invoice pays for. *)
Definition priced (c : circuit) : Prop :=
  0 <= cBudget c /\ 0 <= routingFee relay (cAmt c) /\
  cValue c = cAmt c + cBudget c + routingFee relay (cAmt c).

Lemma opens_start ln now1 now2 x inv c :
  opens relay ln now1 now2 x = Ok (inv, c) -> cAt c = Watching /\ cDid c = [].
Proof.
  unfold opens. intros ([q b] & _ & E)%bind_Ok_inv.
  destruct (AddInvoice ln q) as [i|e|m]; [|by destruct (errors_is _ _)|done]. by injection E as _ <-.
Qed.

Lemma opens_priced ln now1 now2 x inv c :
  tame relay -> sane_body (Ok x) ->
  (forall p mf mc, EstimateRoutingFee ln p 0 = Ok (mf, mc) -> 0 <= mf <= 2 ^ 40) ->
  opens relay ln now1 now2 x = Ok (inv, c) -> priced c.
Proof.
  intros Ht Hb Hmf. unfold opens. intros ([q b] & Ew & E)%bind_Ok_inv.
  destruct (AddInvoice ln q) as [i|e|m]; [|by destruct (errors_is _ _)|done].
  injection E as _ <-. unfold priced. cbn [cBudget cAmt cValue].
  apply wrap_Ok in Ew as (p & mf & mc & Hp & _ & Hamt & He & _ & _ & _ & _ & _ & Hv). rewrite Hp.
  assert (Ha : 0 <= NumMsat p <= 2 ^ 40) by (destruct Ht as (? & ? & _); lia).
  assert (Hr : forall r, RoutingMsat x = Some r -> 0 <= r /\ NumMsat p + r < 2 ^ 64)
    by (intros r Hr; destruct (Hb x r eq_refl Hr); lia).
  destruct (wrapValue_exact _ _ _ _ _ _ Ht Ha (Hmf _ _ _ He) Hr Hv) as (Hval & Hb0 & _).
  destruct (routingFee_exact relay _ Ht Ha) as [_ Hf]. lia.
Qed.

(** The handler and the endpoint of [Relay] agree. *)
Lemma opens_spec ln now1 now2 x :
  OpenCircuit relay ln now1 now2 x =
    '(inv, c) ← opens relay ln now1 now2 x;
    Ok (inv, circuitSwitch relay ln (cHash c) (cInvoice c) (cBudget c)).
Proof.
  unfold OpenCircuit, opens. destruct (wrap relay ln now1 now2 x) as [[q b]| |]; [|done..]. cbn.
  destruct (AddInvoice ln q) as [i|e|m]; [done| |done]. by destruct (errors_is e _).
Qed.

Lemma handles_spec k ln now1 now2 body s :
  (k < length (handlers s))%nat ->
  match specApiHandler relay ln now1 now2 body with
  | Ok resp => handlers (handles relay k ln now1 now2 body s) !! k = Some (Answering resp)
  | _ => handlers (handles relay k ln now1 now2 body s) = delete k (handlers s)
  end.
Proof.
  intros Hk. unfold specApiHandler, handles. destruct body as [x|e|m]; cbn.
  - rewrite opens_spec. destruct (opens _ _ _ _ _) as [[inv c]|e|m]; cbn; [| |done].
    + by apply list_lookup_insert_eq.
    + destruct (errors_is e ClientFacing); by apply list_lookup_insert_eq.
  - by apply list_lookup_insert_eq.
  - done.
Qed.

Record ok (s : t) : Prop := {
  counted : wg s = Z.of_nat (count (circuits s));
  drained : srv s = Closed -> handlers s = [];
  joined : (main s = Joining \/ main s = Exited) -> srv s = Closed;
  done_ : main s = Exited -> Forall over (circuits s);
  calm : (forall m, main s ≠ Dead m) -> Forall (fun c => forall m, cAt c ≠ Crashed m) (circuits s);
  follow : Forall (follows relay) (circuits s)
}.

Definition fair (s : t) : Prop :=
  Forall sane_handler (handlers s) /\ Forall priced (circuits s).

Lemma relay_ok_start : ok start.
Proof. split; try done; [naive_solver|constructor..]. Qed.

Lemma fair_start : fair start.
Proof. by split. Qed.

Lemma alive_dead s : alive s = true -> (forall m, main s ≠ Dead m) /\ main s ≠ Exited.
Proof. unfold alive. by destruct (main s). Qed.

(** The steps of the handlers. *)
Lemma ok_handlers h s : srv s ≠ Closed -> ok s -> ok (set_handlers h s).
Proof. intros Hn [Hc Hd Hj He Hm Hf]. by split. Qed.

Lemma ok_open v h c s :
  alive s = true -> srv s ≠ Closed -> cAt c = Watching -> cDid c = [] -> ok s ->
  ok {| main := main s; srv := srv s; handlers := <[v := h]> (handlers s);
        wg := wg s + 1; circuits := circuits s ++ [c] |}.
Proof.
  intros [Ha1 Ha2]%alive_dead Hn Hw Hd0 [Hc Hd Hj He Hm Hf]. split; cbn; [|done..| |].
  - unfold count in *. rewrite sum_list_with_app, Hc. cbn. unfold running at 3. rewrite Hw. cbn. lia.
  - intros Hdead. apply Forall_app. split; [by apply Hm|]. constructor; [by rewrite Hw|done].
  - apply Forall_app. split; [done|]. constructor; [by apply follows_start|done].
Qed.

Lemma handles_cases k ln now1 now2 body s :
  (exists h, handles relay k ln now1 now2 body s = set_handlers h s /\
             (h = delete k (handlers s) \/ exists r, h = <[k := Answering r]> (handlers s))) \/
  exists x inv c, body = Ok x /\ opens relay ln now1 now2 x = Ok (inv, c) /\
    handles relay k ln now1 now2 body s = {|
      main := main s; srv := srv s;
      handlers := <[k := Answering (WrappedInvoice inv)]> (handlers s);
      wg := wg s + 1; circuits := circuits s ++ [c] |}.
Proof.
  unfold handles. destruct body as [x|e|m]; [|left; eauto..].
  destruct (opens relay ln now1 now2 x) as [[inv c]|e|m] eqn:E; [right|left..]; eauto 8.
Qed.

(** The step of a circuit. *)
Lemma replies_inv i a s s' :
  replies relay i a s = Some s' ->
  exists c c', circuits s !! i = Some c /\ advance relay a c = Some c' /\ running c = true /\
    s' = {| main := match cAt c' with Crashed m => Dead m | _ => main s end;
            srv := srv s; handlers := handlers s;
            wg := if running c' then wg s else wg s - 1;
            circuits := <[i := c']> (circuits s) |}.
Proof.
  unfold replies. destruct (circuits s !! i) as [c|]; [|done]. cbn.
  destruct (advance relay a c) as [c'|] eqn:Ea; [|done]. cbn. intros [= <-].
  exists c, c'. split_and!; [done..| |done].
  unfold advance in Ea. unfold running. by destruct (cAt c), a.
Qed.

Lemma ok_replies i a s s' : alive s = true -> ok s -> replies relay i a s = Some s' -> ok s'.
Proof.
  intros [Ha1 Ha2]%alive_dead [Hc Hd Hj He Hm Hf] (c & c' & Hi & Ha & Hr & ->)%replies_inv.
  split; cbn [main srv handlers wg circuits]; [|done|..].
  - rewrite Hc. pose proof (sum_insert (fun c => Nat.b2n (running c)) _ i c c' Hi) as E.
    cbn beta in E. rewrite Hr in E. unfold count. destruct (running c'); cbn in E; lia.
  - intros H. apply Hj. destruct (cAt c'); try done. by destruct H.
  - intros H. by destruct (cAt c').
  - intros H. apply Forall_insert; [by apply Hm|]. intros m E. rewrite E in H. by apply (H m).
  - apply Forall_insert; [done|]. eapply follows_advance; [|done].
    eapply Forall_lookup_1; [exact Hf|exact Hi].
Qed.

Lemma mainStep_inv s s' :
  mainStep s = Some s' ->
  (main s = Idling /\ srv s = Closed /\ s' = set_main Joining s) \/
  (main s = Joining /\ wg s = 0 /\ s' = set_main Exited s).
Proof.
  unfold mainStep. destruct (main s); [destruct (srv s); [done..|]|case_decide; [|done]|done..];
    intros [= <-]; auto.
Qed.

Lemma relay_ok_main s s' : ok s -> mainStep s = Some s' -> ok s'.
Proof.
  intros [Hc Hd Hj He Hm Hf] [(Hi & Hs & ->)|(Hi & Hw & ->)]%mainStep_inv.
  - split; cbn; try done. intros _. apply Hm. by rewrite Hi.
  - assert (Ho : Forall (fun c => forall m, cAt c ≠ Crashed m) (circuits s)) by (apply Hm; by rewrite Hi).
    split; cbn; try done; [by auto|].
    intros _. apply count_zero; [done|]. lia.
Qed.

Lemma ok_interrupt s s' : ok s -> interrupt s = Some s' -> ok s'.
Proof.
  intros [Hc Hd Hj He Hm Hf]. unfold interrupt.
  destruct (main s) eqn:E, (srv s) eqn:Es; try done; intros [= <-]; split; cbn; try done.
  all: rewrite ?E; try naive_solver.
Qed.

Lemma relay_ok_step a s s' : ok s -> step relay a s = Some s' -> ok s'.
Proof.
  intros Hs. unfold step. destruct (alive s) eqn:Hal; [|done].
  destruct a as [b|k ln n1 n2|k|i a| | | |].
  - destruct (srv s) eqn:E; try done. intros [= <-]. apply ok_handlers; [by rewrite E|done].
  - destruct (handlers s !! k) as [[b|]|] eqn:Ek; [|done..]. intros [= <-].
    assert (Hn : srv s ≠ Closed) by (intros ?%(drained _ Hs); rewrite H in Ek; done).
    destruct (handles_cases k ln n1 n2 b s) as [(h & -> & _)|(x & inv & c & _ & Ho & ->)].
    + by apply ok_handlers.
    + apply opens_start in Ho as [H1 H2]. by apply ok_open.
  - destruct (handlers s !! k) as [[|r]|] eqn:Ek; [done| |done]. intros [= <-].
    apply ok_handlers; [|done]. intros ?%(drained _ Hs). rewrite H in Ek. done.
  - by apply ok_replies.
  - destruct (srv s) eqn:E; try done. intros [= <-]. destruct Hs as [Hc Hd Hj He Hm Hf].
    split; cbn; try done. intros H. rewrite (Hj H) in E. done.
  - by apply ok_interrupt.
  - destruct (srv s) eqn:E; try done. destruct (handlers s) eqn:Eh; [|done]. intros [= <-].
    destruct Hs as [Hc Hd Hj He Hm Hf]. by split.
  - by apply relay_ok_main.
Qed.

Lemma relay_exec_ok l s : exec (step relay) l start = Some s -> ok s.
Proof. apply (exec_inv (step relay) ok); [by apply relay_ok_step|apply relay_ok_start]. Qed.

(** *** The money *)

Lemma advance_priced a c c' : advance relay a c = Some c' -> priced c -> priced c'.
Proof. intros (_ & _ & Hb & Ha & Hv)%advance_keeps. unfold priced. by rewrite Hb, Ha, Hv. Qed.

Lemma fair_handles k ln n1 n2 body s :
  tame relay -> sane (Handles k ln n1 n2) -> handlers s !! k = Some (Handling body) ->
  fair s -> fair (handles relay k ln n1 n2 body s).
Proof.
  intros Ht Hq Hk [H1 H2].
  destruct (handles_cases k ln n1 n2 body s) as [(h & -> & Hh)|(x & inv & c & -> & Ho & ->)]; split; cbn.
  - destruct Hh as [->|[r ->]]; [by apply Forall_delete|by apply Forall_insert].
  - done.
  - by apply Forall_insert.
  - apply Forall_app. split; [done|]. constructor; [|done]. eapply opens_priced; [done| |exact Hq|exact Ho].
    exact (Forall_lookup_1 _ _ _ _ H1 Hk).
Qed.

Lemma fair_step a s s' : tame relay -> sane a -> fair s -> step relay a s = Some s' -> fair s'.
Proof.
  intros Ht Hq Hs. pose proof Hs as [H1 H2]. unfold step. destruct (alive s); [|done].
  destruct a as [b|k ln n1 n2|k|i a| | | |].
  - destruct (srv s); try done. intros [= <-]. split; [|done]. cbn. by rewrite Forall_app, Forall_singleton.
  - destruct (handlers s !! k) as [[b|]|] eqn:Ek; [|done..]. intros [= <-]. by apply fair_handles.
  - destruct (handlers s !! k) as [[|r]|]; [done| |done]. intros [= <-]. split; [by apply Forall_delete|done].
  - intros (c & c' & Hi & Ha & _ & ->)%replies_inv. split; [done|]. apply Forall_insert; [done|].
    eapply advance_priced; [done|]. exact (Forall_lookup_1 _ _ _ _ H2 Hi).
  - destruct (srv s); try done. by intros [= <-].
  - unfold interrupt. destruct (main s), (srv s); try done; by intros [= <-].
  - destruct (srv s), (handlers s); try done; by intros [= <-].
  - by intros [(_ & _ & ->)|(_ & _ & ->)]%mainStep_inv.
Qed.

Lemma relay_exec_fair l s :
  tame relay -> Forall sane l -> exec (step relay) l start = Some s -> fair s.
Proof.
  intros Ht Hl. apply (exec_inv_on (step relay) sane fair); [|done|apply fair_start].
  intros a s1 s2 Ha H1. by apply fair_step.
Qed.

(** A circuit that is over has kept its fee, or nothing has changed hands. *)
Lemma over_balance fee c :
  follows relay c -> over c -> priced c ->
  (forall p, 0 <= FeeLimitMsat p -> 0 <= fee p <= FeeLimitMsat p) ->
  balance fee (cAmt c) (cValue c) (cDid c) = 0 \/
  routingFee relay (cAmt c) <= balance fee (cAmt c) (cValue c) (cDid c).
Proof.
  intros Hf Ho (Hb & Hr & Hv) Hfee.
  pose proof (rest_over relay c Hf) as Hl. rewrite Ho in Hl. destruct Hl as [ln Hl].
  by eapply circuit_balance.
Qed.

(** *** The end *)

(** The shutdown has begun. *)
Definition shutting (s : t) : Prop := srv s = Draining \/ srv s = Closed.

Definition circuitWeight (c : circuit) : nat :=
  match cAt c with Watching => 3 | Paying _ => 2 | Cancelling | Settling _ => 1 | _ => 0 end.
Definition handlerWeight (h : handler) : nat := match h with Handling _ => 5 | Answering _ => 1 end.
Definition weight (s : t) : nat :=
  match main s with Idling => 2 | Joining => 1 | _ => 0 end +
  match srv s with Closed => 0 | _ => 1 end +
  sum_list_with handlerWeight (handlers s) + sum_list_with circuitWeight (circuits s).

Lemma advance_weight a c c' : advance relay a c = Some c' -> (circuitWeight c' < circuitWeight c)%nat.
Proof.
  unfold advance, circuitWeight. destruct (cAt c), a as [st d err|res| |ok]; try done; intros [= <-]; cbn.
  - repeat case_decide; lia.
  - destruct res as [r|e|m]; [|destruct (errors_is e _)|]; lia.
  - lia.
  - destruct ok; lia.
Qed.

Lemma weight_handles k ln n1 n2 body s :
  handlers s !! k = Some (Handling body) ->
  (weight (handles relay k ln n1 n2 body s) < weight s)%nat /\
  main (handles relay k ln n1 n2 body s) = main s /\ srv (handles relay k ln n1 n2 body s) = srv s.
Proof.
  intros Hk. pose proof (sum_delete handlerWeight _ _ _ Hk) as Hd.
  pose proof (fun r => sum_insert handlerWeight _ _ _ (Answering r) Hk) as Hi.
  cbn [handlerWeight] in Hd, Hi. unfold weight.
  destruct (handles_cases k ln n1 n2 body s) as [(h & -> & [->|[r ->]])|(x & inv & c & _ & Ho & ->)];
    cbn; (split; [|done]).
  - lia.
  - specialize (Hi r). lia.
  - specialize (Hi (WrappedInvoice inv)). apply opens_start in Ho as [Hw _].
    assert (E : circuitWeight c = 3%nat) by (unfold circuitWeight; by rewrite Hw).
    rewrite sum_list_with_app. cbn [sum_list_with]. lia.
Qed.

Lemma weight_replies i a s s' :
  alive s = true -> replies relay i a s = Some s' -> (weight s' < weight s)%nat /\ srv s' = srv s.
Proof.
  intros Hal (c & c' & Hi & Ha & _ & ->)%replies_inv. split; [|done]. unfold weight. cbn.
  pose proof (sum_insert circuitWeight _ _ _ c' Hi). apply advance_weight in Ha.
  unfold alive in Hal. destruct (cAt c'), (main s); try done; lia.
Qed.

Lemma shutting_step s s' :
  shutting s -> any (step relay) s s' -> shutting s' /\ (weight s' < weight s)%nat.
Proof.
  intros Hs [a Ha]. unfold step in Ha. destruct (alive s) eqn:Hal; [|done].
  destruct a as [b|k ln n1 n2|k|i a| | | |].
  - unfold shutting in Hs. destruct (srv s); naive_solver.
  - destruct (handlers s !! k) as [[b|]|] eqn:Ek; [|done..]. injection Ha as <-.
    destruct (weight_handles k ln n1 n2 b s Ek) as (Hw & _ & Hv). unfold shutting. by rewrite Hv.
  - destruct (handlers s !! k) as [[|r]|] eqn:Ek; [done| |done]. injection Ha as <-. split; [done|].
    pose proof (sum_delete handlerWeight _ _ _ Ek) as Hd. cbn [handlerWeight] in Hd.
    unfold weight. cbn. lia.
  - destruct (weight_replies i a s s' Hal Ha) as [Hw Hv]. unfold shutting. by rewrite Hv.
  - unfold shutting in Hs. destruct (srv s); naive_solver.
  - unfold interrupt in Ha. unfold shutting in *. unfold weight.
    destruct (main s), (srv s) eqn:Ev; try done; try (by destruct Hs); injection Ha as <-; cbn;
      rewrite Ev; (split; [auto|lia]).
  - unfold shutting, weight in *. destruct (srv s), (handlers s) eqn:Eh; try done; injection Ha as <-; cbn.
    rewrite Eh. cbn. split; [auto|lia].
  - apply mainStep_inv in Ha as [(Hm & Hv & ->)|(Hm & _ & ->)]; (split; [done|]);
      unfold weight; rewrite Hm; cbn; lia.
Qed.

(** What happens as long as the node knows what became of a payment, settles what
    was paid, and there is no second interrupt. *)
Definition orderly (a : action) : Prop :=
  match a with
  | Replies _ (Paid (Err e)) => errors_is e PaymentFailed = true
  | Replies _ (Paid (Panic _)) => False
  | Replies _ (SettleReturned ok) => ok = true
  | Interrupt => False
  | _ => True
  end.

Lemma running_goes c :
  running c = true ->
  exists a, (forall i, orderly (Replies i a)) /\ is_Some (advance relay a c).
Proof.
  unfold running, advance. destruct (cAt c) as [|p| |r| |m]; [..|done|done]; intros _.
  - exists (Watched Canceled 0 None). by eauto.
  - exists (Paid (Err PaymentFailed)). by eauto.
  - exists CancelReturned. by eauto.
  - exists (SettleReturned true). by eauto.
Qed.

Lemma count_running l : count l ≠ 0%nat -> exists i c, l !! i = Some c /\ running c = true.
Proof.
  induction l as [|c l IH]; [done|]. destruct (running c) eqn:Hr; [by exists 0%nat, c|].
  unfold count. cbn. rewrite Hr. cbn. intros (i & c' & H)%IH. by exists (S i), c'.
Qed.

Lemma relay_progress s :
  ok s -> shutting s -> alive s = true -> (forall a, orderly a -> step relay a s = None) -> False.
Proof.
  intros Hs Hsh Hal Hst. unfold step in Hst. rewrite Hal in Hst. destruct Hsh as [Hv|Hv].
  - destruct (handlers s) as [|[b|r] l] eqn:Eh.
    + specialize (Hst Drained I). cbn in Hst. by rewrite Hv in Hst.
    + specialize (Hst (Handles 0 silent 0 0) I). by cbn in Hst.
    + specialize (Hst (Returns 0) I). by cbn in Hst.
  - pose proof (Hst Main I) as Hm. cbn in Hm. unfold mainStep in Hm. unfold alive in Hal.
    rewrite Hv in Hm. destruct (main s) eqn:Em; [done| |done..]. case_decide as Hw; [done|].
    destruct (count_running (circuits s)) as (i & c & Hi & Hr); [rewrite (counted _ Hs) in Hw; lia|].
    destruct (running_goes c Hr) as (a & Ha & c' & Hc').
    specialize (Hst (Replies i a) (Ha i)). cbn in Hst. unfold replies in Hst. rewrite Hi in Hst. cbn in Hst.
    by rewrite Hc' in Hst.
Qed.

(** An orderly step crashes nothing. *)
Lemma orderly_alive a s s' :
  orderly a -> (forall m, main s ≠ Dead m) -> step relay a s = Some s' -> forall m, main s' ≠ Dead m.
Proof.
  intros Ho Hm. unfold step. destruct (alive s); [|done]. destruct a as [b|k ln n1 n2|k|i a| | | |].
  - destruct (srv s); try done. by intros [= <-].
  - destruct (handlers s !! k) as [[b|]|] eqn:Ek; [|done..]. intros [= <-].
    by destruct (weight_handles k ln n1 n2 b s Ek) as (_ & -> & _).
  - destruct (handlers s !! k) as [[|r]|]; [done| |done]. by intros [= <-].
  - intros (c & c' & _ & Ha & _ & ->)%replies_inv. cbn. unfold advance in Ha.
    destruct (cAt c), a as [st d err|res| |ok']; try done; injection Ha as <-; cbn in *.
    + by repeat case_decide.
    + destruct res as [r|e|m']; [done| |done]. by rewrite Ho.
    + done.
    + by rewrite Ho.
  - destruct (srv s); try done. by intros [= <-].
  - done.
  - destruct (srv s), (handlers s); try done; by intros [= <-].
  - by intros [(_ & _ & ->)|(_ & _ & ->)]%mainStep_inv.
Qed.
End Invariant.
End Circuits.

(** ** Properties *)
Module CircuitsProperties.
Import Relay Circuits.

(** What a relay has gained with all the circuits it has opened. *)
Definition earnings (fee : PaymentParameters -> Z) (s : t) : Z :=
  sum (map (fun c => balance fee (cAmt c) (cValue c) (cDid c)) (circuits s)).

(** C7: a relay that was interrupted and whose [main] has returned has answered every
    request and ended every circuit, however the requests and the circuits were
    interleaved.  And as long as the arithmetic of its fees does not wrap - its
    parameters are in range ([NewRelay]'s are), every client asks for a routing budget
    below 2^63 and the node estimates fees of at most 2^40 - and the node pays within
    the fee limits it is given, each circuit either changed nothing or kept at least
    its routing fee, and all together have not lost money.  (For what a client gets
    who asks for a larger budget see [huge_routing_budget_accepted].) *)
Theorem interrupted_relay_owes_nothing relay l s :
  exec (step relay) l start = Some s -> main s = Exited ->
  handlers s = [] /\ Forall over (circuits s) /\
  forall fee, tame relay -> Forall sane l ->
    (forall p, 0 <= FeeLimitMsat p -> 0 <= fee p <= FeeLimitMsat p) ->
    Forall (fun c => balance fee (cAmt c) (cValue c) (cDid c) = 0 \/
      routingFee relay (cAmt c) <= balance fee (cAmt c) (cValue c) (cDid c)) (circuits s) /\
    0 <= earnings fee s.
Proof.
  intros He Hm. pose proof (relay_exec_ok relay l s He) as Hok. pose proof (done_ _ _ Hok Hm) as Ho.
  split; [by apply (drained _ _ Hok), (joined _ _ Hok); right|]. split; [done|].
  intros fee Ht Hl Hfee. destruct (relay_exec_fair relay l s Ht Hl He) as [_ Hp].
  assert (Hall : Forall (fun c => balance fee (cAmt c) (cValue c) (cDid c) = 0 \/
    routingFee relay (cAmt c) <= balance fee (cAmt c) (cValue c) (cDid c)) (circuits s)).
  { apply Forall_forall. intros c Hc. pose proof (follow _ _ Hok) as Hf.
    rewrite Forall_forall in Hp, Ho, Hf. apply over_balance; auto. }
  split; [done|].
  apply sum_nonneg, Forall_map. rewrite Forall_forall in Hall, Hp. apply Forall_forall.
  intros c Hc. cbn. destruct (Hall c Hc) as [Hb|Hb], (Hp c Hc) as (_ & Hr & _); lia.
Qed.

(** C8: once the shutdown of the relay has begun, every sequence of steps comes to
    an end, whatever the node answers.  And if from then on the node knows what became
    of every payment, every settlement of an invoice succeeds and no second interrupt
    comes (each of these ends the process at once, leaving its circuits), then when
    nothing more can happen [main] has returned and no circuit is left open. *)
Theorem relay_shutdown_completes relay l s :
  exec (step relay) l start = Some s -> shutting s ->
  sn (any (step relay)) s /\
  forall l' s', alive s = true -> Forall orderly l' -> exec (step relay) l' s = Some s' ->
    (forall a, orderly a -> step relay a s' = None) ->
    main s' = Exited /\ Forall over (circuits s').
Proof.
  intros He Hsh. pose proof (relay_exec_ok relay l s He) as Hok. split.
  - apply (measure_sn_on shutting _ weight); [|done]. intros s1 s2. apply shutting_step.
  - intros l' s' Hal Hl' He' Hst.
    assert (Hok' : ok relay s')
      by (eapply (exec_inv (step relay) (ok relay)); [apply relay_ok_step|exact Hok|exact He']).
    assert (Hsh' : shutting s').
    { eapply (exec_inv (step relay) shutting); [|exact Hsh|exact He'].
      intros a s1 s2 H1 H2. apply (shutting_step relay s1 s2); [done|by exists a]. }
    assert (Hd : forall m, main s' ≠ Dead m).
    { refine (exec_inv_on (step relay) orderly (fun s => forall m, main s ≠ Dead m) l' s s' _ Hl' _ He').
      - intros a s1 s2. apply orderly_alive.
      - by apply alive_dead. }
    assert (Hex : main s' = Exited).
    { destruct (main s') as [| | |m] eqn:Em; [exfalso..|done|by edestruct Hd];
        (eapply (relay_progress relay s'); [done..|unfold alive; by rewrite Em|done]). }
    split; [done|by apply (done_ _ _ Hok')].
Qed.

(** C10: the circuits that run beside each other are those of the sequential model:
    what a circuit that is over, or has crashed, has asked of the node is what
    [circuitSwitch] does with some node, and a fresh circuit can do whatever
    [circuitSwitch] does with a given node. *)
Theorem circuits_refine_switch relay :
  (forall l s c, exec (step relay) l start = Some s -> c ∈ circuits s ->
     (cAt c = Over -> exists ln,
        circuitSwitch relay ln (cHash c) (cInvoice c) (cBudget c) = (cDid c, Ok tt)) /\
     (forall m, cAt c = Crashed m -> exists ln,
        circuitSwitch relay ln (cHash c) (cInvoice c) (cBudget c) = (cDid c, Panic m))) /\
  (forall ln now1 now2 x inv c, opens relay ln now1 now2 x = Ok (inv, c) ->
     exists l c', advances relay l c = Some c' /\
       OpenCircuit relay ln now1 now2 x =
         Ok (inv, (cDid c', match cAt c' with Crashed m => Panic m | _ => Ok tt end))).
Proof.
  split.
  - intros l s c He Hc. pose proof (follow _ _ (relay_exec_ok relay l s He)) as Hf.
    rewrite Forall_forall in Hf. pose proof (rest_over relay c (Hf c Hc)) as Hr.
    split; [intros Ho|intros m Ho]; rewrite Ho in Hr; exact Hr.
  - intros ln now1 now2 x inv c Ho. destruct (opens_start relay _ _ _ _ _ _ Ho) as [Hw Hd].
    destruct (switch_follows relay ln c Hw Hd) as (l & c' & Ha & Hdid & Hend).
    exists l, c'. split; [done|]. rewrite opens_spec, Ho. cbn. rewrite Hdid.
    destruct (circuitSwitch _ _ _ _ _) as [tr [[]|e|m]]; cbn in *; [by rewrite Hend|done|by rewrite Hend].
Qed.

(** C9: no circuit of a running relay cheats its payer, its creator or its owner: at
    any moment, however the circuits are interleaved and whatever the node answers,
    a circuit has made at most one payment, after the wrapped invoice was watched, of
    the original invoice and within the budget; it settles only with the preimage
    which this payment has returned, and it has not canceled what it has paid. *)
Theorem circuits_are_honest relay l s c a ev b :
  exec (step relay) l start = Some s -> c ∈ circuits s -> cDid c = a ++ ev :: b ->
  match ev with
  | EWatch h => a = [] /\ h = cHash c
  | EPay p _ => a = [EWatch (cHash c)] /\ pInvoice p = cInvoice c /\ FeeLimitMsat p = cBudget c
  | ESettle r _ => exists p, a = [EWatch (cHash c); EPay p (Ok r)] /\ pInvoice p = cInvoice c
  | ECancel h => h = cHash c /\ forall p r, EPay p (Ok r) ∉ a
  end.
Proof.
  intros He Hc Hd. pose proof (follow _ _ (relay_exec_ok relay l s He)) as Hf.
  rewrite Forall_forall in Hf. destruct (follows_prefix relay c (Hf c Hc)) as (ln & more & Hp).
  destruct (circuitSwitch_shape relay ln (cHash c) (cInvoice c) (cBudget c)) as (p & H1 & H2 & Hs).
  cbv zeta in Hs. rewrite Hp, Hd, <- app_assoc in Hs. cbn [app] in Hs.
  destruct Hs as [E|[E|[(res & Hr & [E|E])|(r & ok' & E)]]];
    repeat (destruct a as [|x a]; cbn [app] in E; first [discriminate E|injection E as -> E]).
  all: try done; try (by split_and!; eauto); try by exists p.
  all: split; [done|]; intros q y Hin; set_unfold in Hin; naive_solver.
Qed.

(** a payment whose outcome the node does not know ends the process, and with it
    every other circuit where it is: one that has paid the original invoice and not
    yet settled its own stays without the money. *)
Theorem unknown_payment_strands_others relay l s i c p e j c' r fee :
  exec (step relay) l start = Some s -> alive s = true ->
  circuits s !! i = Some c -> cAt c = Paying p -> errors_is e PaymentFailed = false ->
  circuits s !! j = Some c' -> cAt c' = Settling r -> 0 < cAmt c' -> (forall q, 0 <= fee q) ->
  exists s', step relay (Replies i (Paid (Err e))) s = Some s' /\
    (forall a, step relay a s' = None) /\ circuits s' !! j = Some c' /\
    balance fee (cAmt c') (cValue c') (cDid c') <= - cAmt c'.
Proof.
  intros Hx Hal Hi Hp He Hj Hr Ha Hfee. pose proof (follow _ _ (relay_exec_ok relay l s Hx)) as Hf.
  pose proof (rest_over relay c' (Forall_lookup_1 _ _ _ _ Hf Hj)) as Hd. rewrite Hr in Hd.
  destruct Hd as (q & Hd & _). assert (j ≠ i) by congruence.
  unfold step. rewrite Hal. unfold replies. rewrite Hi. cbn [mbind option_bind].
  unfold advance. rewrite Hp, He. cbn [mbind option_bind].
  eexists. split; [reflexivity|]. split; [by intros []|]. split.
  - cbn. by rewrite list_lookup_insert_ne.
  - rewrite Hd. unfold balance. cbn. specialize (Hfee q). lia.
Qed.

(** *** Witnesses: two requests, of which the second is paid after the interrupt *)
Definition toy_opening : list action :=
  [Arrives (Ok (RelayProperties.toy_request (Some 10000)));
   Arrives (Ok (RelayProperties.toy_request None));
   Handles 0 RelayProperties.toy_ln 1100 1100; Returns 0;
   Handles 0 RelayProperties.toy_ln 1100 1100;
   Replies 1 (Watched Accepted 200 None)].
Definition toy_interrupted : list action := toy_opening ++ [Interrupt].
Definition toy_ending : list action :=
  [Replies 0 (Watched Open 0 (Some (Errorf "expired"))); Returns 0; Drained; Main;
   Replies 1 (Paid (Ok [Byte.x09])); Replies 0 CancelReturned; Replies 1 (SettleReturned true); Main].
Definition toy_unknown : list action :=
  toy_opening ++ [Replies 0 (Watched Accepted 200 None); Replies 1 (Paid (Ok [Byte.x09]))].
Definition after (l : list action) : t := default start (exec (step NewRelay) l start).
Definition circuit_of (i : nat) (l : list action) : circuit :=
  default {| cHash := []; cInvoice := ""; cBudget := 0; cAt := Over; cDid := []; cAmt := 0; cValue := 0 |}
    (circuits (after l) !! i).

Lemma toy_opening_sane : Forall sane toy_opening.
Proof.
  apply Forall_fold_right. cbn. split_and!; try done.
  - intros x r [= <-] [= <-]. lia.
  - by intros x r [= <-] [=].
  - intros p mf mc [= <- <-]. lia.
  - intros p mf mc [= <- <-]. lia.
Qed.

Lemma interrupted_relay_owes_nothing_witness :
  earnings FeeLimitMsat (after (toy_interrupted ++ toy_ending)) = 2000 /\
  0 <= earnings FeeLimitMsat (after (toy_interrupted ++ toy_ending)).
Proof.
  split; [vm_compute; reflexivity|].
  destruct (interrupted_relay_owes_nothing NewRelay (toy_interrupted ++ toy_ending)
    (after (toy_interrupted ++ toy_ending))) as (_ & _ & H); [vm_compute; reflexivity..|].
  apply H.
  - apply NewRelay_tame.
  - apply Forall_app. split; [|repeat constructor]. apply Forall_app. split; [apply toy_opening_sane|repeat constructor].
  - intros p Hp. split; [exact Hp|apply Z.le_refl].
Defined.

Lemma relay_shutdown_completes_witness : main (after (toy_interrupted ++ toy_ending)) = Exited.
Proof.
  refine (proj1 (proj2 (relay_shutdown_completes NewRelay toy_interrupted (after toy_interrupted) _ _)
    toy_ending _ _ _ _ _)).
  - reflexivity.
  - left. reflexivity.
  - reflexivity.
  - repeat constructor.
  - reflexivity.
  - intros a _. reflexivity.
Defined.

Lemma circuits_refine_switch_witness :
  exists ln, circuitSwitch NewRelay ln [Byte.x0a; Byte.x0b] "lnbc10u" 8000 =
    ([EWatch [Byte.x0a; Byte.x0b]; ECancel [Byte.x0a; Byte.x0b]], Ok tt).
Proof.
  refine (proj1 (proj1 (circuits_refine_switch NewRelay) (toy_interrupted ++ toy_ending)
    (after (toy_interrupted ++ toy_ending))
    (circuit_of 0 (toy_interrupted ++ toy_ending)) _ _) _).
  - reflexivity.
  - left.
  - reflexivity.
Defined.

Lemma circuits_are_honest_witness :
  exists p, pInvoice p = "lnbc10u" /\
    cDid (circuit_of 1 (toy_interrupted ++ toy_ending)) =
      [EWatch [Byte.x0a; Byte.x0b]; EPay p (Ok [Byte.x09]); ESettle [Byte.x09] true].
Proof.
  destruct (circuits_are_honest NewRelay (toy_interrupted ++ toy_ending)
    (after (toy_interrupted ++ toy_ending)) (circuit_of 1 (toy_interrupted ++ toy_ending))
    (take 2 (cDid (circuit_of 1 (toy_interrupted ++ toy_ending)))) (ESettle [Byte.x09] true) [])
    as (p & Hp & Hi).
  - reflexivity.
  - right. left.
  - reflexivity.
  - exists p. split; [exact Hi|].
    assert (E : cDid (circuit_of 1 (toy_interrupted ++ toy_ending)) =
      take 2 (cDid (circuit_of 1 (toy_interrupted ++ toy_ending))) ++ [ESettle [Byte.x09] true]) by reflexivity.
    rewrite E, Hp. reflexivity.
Defined.

Lemma unknown_payment_strands_others_witness :
  exists s', step NewRelay (Replies 0 (Paid (Err (Errorf "timeout")))) (after toy_unknown) = Some s' /\
    (forall a, step NewRelay a s' = None) /\ earnings FeeLimitMsat s' < 0.
Proof.
  destruct (unknown_payment_strands_others NewRelay toy_unknown (after toy_unknown) 0
    (circuit_of 0 toy_unknown)
    {| pInvoice := "lnbc10u"; TimeoutSeconds := 600; FeeLimitMsat := 8000; CltvLimit := 158 |}
    (Errorf "timeout") 1
    (circuit_of 1 toy_unknown)
    [Byte.x09] (fun _ => 0)) as (s' & Hs & Hn & _); try reflexivity.
  exists s'. split; [exact Hs|]. split; [exact Hn|].
  assert (E : s' = default start (step NewRelay (Replies 0 (Paid (Err (Errorf "timeout")))) (after toy_unknown)))
    by (rewrite Hs; reflexivity).
  rewrite E. vm_compute. reflexivity.
Defined.
End CircuitsProperties.
