(* ===== verification/Onion.v ===== *)
(** * The store of the Tor service key

    The contract of lnd's [tor.OnionStore], and the two implementations:
    [aperturedb/onion.go] over the table of [aperturedb/sqlc/onion.sql.go], and
    the etcd store of [onion_store.go]. *)
From S2P Require Import Prelude.
From S2P Require Import GoStrings.
From S2P Require Import GoTime.
From S2P Require Import Database.

Definition ErrNoPrivateKey : error := Sentinel "tor.ErrNoPrivateKey".

(** ** The interface *)
Class OnionStore (S : Type) := {
  StorePrivateKey : S -> list byte -> S * outcome unit;
  PrivateKey : S -> outcome (list byte);
  DeletePrivateKey : S -> S * outcome unit
}.

(** A stored key is read back, a failed call changes nothing, and after a
    deletion there is no key. *)
Class OnionStoreLaws (S : Type) `{!OnionStore S} : Prop := {
  onion_stored s k s' : StorePrivateKey s k = (s', Ok tt) -> PrivateKey s' = Ok k;
  onion_store_fails s k s' r :
    StorePrivateKey s k = (s', r) -> is_ok r = false -> PrivateKey s' = PrivateKey s;
  onion_deleted s s' :
    DeletePrivateKey s = (s', Ok tt) ->
    exists e, PrivateKey s' = Err e /\ errors_is e ErrNoPrivateKey = true;
  onion_delete_fails s s' r :
    DeletePrivateKey s = (s', r) -> is_ok r = false -> PrivateKey s' = PrivateKey s
}.

(** ** The table *)
Module OnionDB.

Record row := { private_key : list byte; created_at : time }.
Abbreviation table := (list row).

(** [ON CONFLICT (private_key) DO NOTHING] *)
Definition UpsertOnion (k : list byte) (now : time) (t : table) : table * outcome unit :=
  if decide (k ∈ (private_key <$> t)) then (t, Ok tt)
  else (t ++ [{| private_key := k; created_at := now |}], Ok tt).

(** [LIMIT 1] *)
Definition SelectOnionPrivateKey (t : table) : outcome (list byte) :=
  match t with
  | r :: _ => Ok (private_key r)
  | [] => Err ErrNoRows
  end.

Definition DeleteOnionPrivateKey (t : table) : table * outcome unit := ([], Ok tt).

End OnionDB.

(** ** [aperturedb/onion.go] *)
Module OnionDBStore.
Import OnionDB Running.

(** The clock of a call and what the database does to its transaction. *)
Record env := { clock_Now : time; attempts : nat -> attempt }.

Section Store.
Variable e : env.

(** The body of the storing transaction: another key is never replaced. *)
Definition storeBody (privateKey : list byte) (t : table) : table * outcome unit :=
  match SelectOnionPrivateKey t with
  | Ok dbPK =>
      if decide (dbPK ≠ privateKey) then (t, Err (Errorf "private key already exists"))
      else UpsertOnion privateKey (clock_Now e) t
  | Err er =>
      if decide (er ≠ ErrNoRows) then (t, Err er) else UpsertOnion privateKey (clock_Now e) t
  | Panic m => (t, Panic m)
  end.

Definition StorePrivateKey (t : table) (privateKey : list byte) : table * outcome unit :=
  let '(t', r) := ExecTx DefaultNumTxRetries (attempts e) (storeBody privateKey) t in
  (t', errorf "failed to store private key" r).

Definition PrivateKey (t : table) : outcome (list byte) :=
  wrapf "failed to retrieve private key"
    (ExecTx DefaultNumTxRetries (attempts e)
       (fun t => (t, match SelectOnionPrivateKey t with
                     | Err er => if decide (er = ErrNoRows) then Err ErrNoPrivateKey else Err er
                     | o => o
                     end)) t).2.

Definition DeletePrivateKey (t : table) : table * outcome unit :=
  let '(t', r) := ExecTx DefaultNumTxRetries (attempts e) DeleteOnionPrivateKey t in
  (t', errorf "failed to delete private key" r).

End Store.

Lemma PrivateKey_calm e t :
  (forall i, attempts e i = clean) ->
  PrivateKey e t = match t with
                   | r :: _ => Ok (private_key r)
                   | [] => Err (Wrapf "failed to retrieve private key" ErrNoPrivateKey)
                   end.
Proof.
  intros Hc. unfold PrivateKey, ExecTx, DefaultNumTxRetries.
  rewrite execAttempts_clean; [by destruct t|apply Hc|].
  intros db' er. destruct t; cbn; [|done]. by intros [= <- <-].
Qed.

Lemma Store_cases e t k t' r :
  StorePrivateKey e t k = (t', r) ->
  (r = Ok tt /\ storeBody e k t = (t', Ok tt)) \/ (is_ok r = false /\ t' = t).
Proof.
  unfold StorePrivateKey. destruct (ExecTx _ _ _ t) as [t1 [[]|er|m]] eqn:E; intros [= <- <-].
  - left. by apply execAttempts_Ok in E.
  - right. split; [done|by eapply execAttempts_atomic].
  - right. split; [done|by eapply execAttempts_atomic].
Qed.

Lemma Delete_cases e t t' r :
  DeletePrivateKey e t = (t', r) -> (r = Ok tt /\ t' = []) \/ (is_ok r = false /\ t' = t).
Proof.
  unfold DeletePrivateKey. destruct (ExecTx _ _ _ t) as [t1 [[]|er|m]] eqn:E; intros [= <- <-].
  - left. apply execAttempts_Ok in E. by injection E as <-.
  - right. split; [done|by eapply execAttempts_atomic].
  - right. split; [done|by eapply execAttempts_atomic].
Qed.

(** What storing does to a table: nothing when the key is the one it has, and an
    empty table gets it. *)
Lemma storeBody_Ok e k t t' :
  storeBody e k t = (t', Ok tt) ->
  match t with
  | [] => t' = [{| private_key := k; created_at := clock_Now e |}]
  | r :: _ => private_key r = k /\ t' = t
  end.
Proof.
  unfold storeBody, UpsertOnion. destruct t as [|r t]; cbn.
  - rewrite !decide_False by (set_solver || (intros []; done)). by intros [= <-].
  - destruct (decide (private_key r ≠ k)) as [?|Hk%dec_stable]; [done|].
    rewrite decide_True by (subst; left). by intros [= <-].
Qed.

(** A running store: the table, and the worlds its writing calls will meet. *)
Abbreviation store := (running table env).
Definition reads : env := {| clock_Now := Unix 0; attempts _ := clean |}.

#[global] Instance db_store : OnionStore store := {|
  Onion.StorePrivateKey s k := update s (StorePrivateKey (world s (calls s)) (tbl s) k);
  Onion.PrivateKey s := PrivateKey reads (tbl s);
  Onion.DeletePrivateKey s := update s (DeletePrivateKey (world s (calls s)) (tbl s))
|}.

#[global] Instance db_store_laws : OnionStoreLaws store.
Proof.
  split; intros s; intros; cbn [Onion.StorePrivateKey Onion.PrivateKey Onion.DeletePrivateKey
    db_store] in *;
    open_updates;
    rewrite !PrivateKey_calm by done.
  - apply Store_cases in H as [[_ Hs]|[? _]]; [|done]. apply storeBody_Ok in Hs.
    destruct (tbl s); [by rewrite Hs|]. destruct Hs as [Hk ->]. by rewrite Hk.
  - apply Store_cases in H as [[-> _]|[_ ->]]; done.
  - apply Delete_cases in H as [[_ ->]|[? _]]; [|done]. eexists. split; [done|].
    apply errors_is_wrap, errors_is_refl.
  - apply Delete_cases in H as [[-> _]|[_ ->]]; done.
Qed.

End OnionDBStore.

(** ** [onion_store.go]: the etcd store *)
Module OnionEtcd.

Definition topLevelKey : string := "lsat/proxy".
Definition etcdKeyDelimeter : string := "/".
Definition onionDir : string := "onion".
Definition onionV3Dir : string := "v3".
Definition onionPath : string :=
  String.concat etcdKeyDelimeter [topLevelKey; onionDir; onionV3Dir].

(** The cluster: its keys, and the error with which it refuses a write. *)
Record store := { kvs : gmap string (list byte); refuse : nat -> option error; calls : nat }.

Definition write (s : store) (m : gmap string (list byte)) : store * outcome unit :=
  match refuse s (calls s) with
  | Some e => ({| kvs := kvs s; refuse := refuse s; calls := S (calls s) |}, Err e)
  | None => ({| kvs := m; refuse := refuse s; calls := S (calls s) |}, Ok tt)
  end.

#[global] Instance etcd_store : OnionStore store := {|
  StorePrivateKey s k := write s (<[onionPath := k]> (kvs s));
  PrivateKey s := of_option ErrNoPrivateKey (kvs s !! onionPath);
  DeletePrivateKey s := write s (delete onionPath (kvs s))
|}.

#[global] Instance etcd_store_laws : OnionStoreLaws store.
Proof.
  split; intros s; intros; cbn in *; unfold write in *; destruct (refuse s (calls s));
    simplify_eq; cbn; try done.
  - by rewrite lookup_insert_eq.
  - rewrite lookup_delete_eq. eexists. split; [done|apply errors_is_refl].
Qed.

End OnionEtcd.

(** ** Properties *)
Module OnionProperties.
Import OnionDB OnionDBStore.

(** A call of the database store. *)
Inductive call := CStore (k : list byte) | CDelete.
Definition run_call (t : table) (ec : env * call) : table :=
  match ec.2 with
  | CStore k => (StorePrivateKey ec.1 t k).1
  | CDelete => (DeletePrivateKey ec.1 t).1
  end.
Definition stores (ec : env * call) : bool :=
  match ec.2 with CStore _ => true | CDelete => false end.

(** Both stores keep the contract of Tor's key store: the stored key is read
    back, a failed call changes nothing, and a deleted key is reported as
    [ErrNoPrivateKey]. *)
Theorem onion_stores_keep_contract :
  OnionStoreLaws OnionDBStore.store /\ OnionStoreLaws OnionEtcd.store.
Proof. split; apply _. Qed.

(** In the database a key is never replaced: after it was stored, no sequence
    of further attempts to store keys, whichever keys and whatever the database
    does to the transactions, changes the key the service restarts with, and the
    table holds at most one key at any time. *)
Theorem onion_key_is_stable e k t t' ecs :
  (length t <= 1)%nat -> StorePrivateKey e t k = (t', Ok tt) ->
  Forall (fun ec => stores ec = true) ecs ->
  PrivateKey reads (foldl run_call t' ecs) = Ok k /\
  (length (foldl run_call t' ecs) <= 1)%nat.
Proof.
  intros Hl Hs Ha. apply Store_cases in Hs as [[_ Hs]|[? _]]; [|done].
  assert (Ht : exists r, t' = [r] /\ private_key r = k).
  { apply storeBody_Ok in Hs. destruct t as [|r t]; [by subst; eexists|].
    destruct Hs as [Hk ->]. destruct t; cbn in Hl; [by eexists|lia]. }
  clear Hl Hs. revert t' Ht. induction Ha as [|[e' c] ecs Hc _ IH]; intros t' (r & -> & Hk).
  - cbn [foldl]. rewrite PrivateKey_calm by done. by rewrite Hk.
  - cbn [foldl]. apply IH. destruct c as [k'|]; [|done]. unfold run_call. cbn [fst snd].
    destruct (StorePrivateKey e' [r] k') as [t1 r1] eqn:E. cbn.
    apply Store_cases in E as [[_ Hs]|[_ ->]]; [|by eexists].
    apply storeBody_Ok in Hs as [_ ->]. by eexists.
Qed.

Lemma onion_key_is_stable_witness :
  let t := (StorePrivateKey reads [] [Byte.x01]).1 in
  PrivateKey reads (foldl run_call t [(reads, CStore [Byte.x02]); (reads, CStore [Byte.x01])])
    = Ok [Byte.x01].
Proof.
  apply (onion_key_is_stable reads [Byte.x01] []); [cbn; lia|reflexivity|].
  repeat constructor.
Defined.

End OnionProperties.
