(* ===== verification/Contents.v ===== *)
(** * The content server: [contents/db/db.go], [contents/content.go] and
    [contents/pricer.go]

    The table of contents with the column types of
    [db/postgres/init/1_create.sql], the calls of the content service, the
    handler that serves a content, and the price server the proxy asks. *)
From S2P Require Import Prelude.
From S2P Require Import GoStrings.
From S2P Require Import GoCodec.
From S2P Require Import Http.
From S2P Require Import Database.
From S2P Require Import Service.

(** ** [contents/db/db.go] *)
Module ContentsDB.

Record Content := {
  Id : string;
  Title : string;
  Author : string;
  Filepath : string;
  RecipientLud16 : string;
  Price : Z
}.

(** The rows by primary key. *)
Abbreviation table := (gmap string Content).

Definition StringTooLong : string := "22001".
Definition NumericOutOfRange : string := "22003".

(** What the column types of the table refuse. *)
Definition refused (c : Content) : option error :=
  if ((255 <? String.length (Id c)) || (255 <? String.length (Title c)) ||
      (63 <? String.length (Author c)) || (255 <? String.length (Filepath c)) ||
      (31 <? String.length (RecipientLud16 c)))%nat
  then Some (PgError StringTooLong)
  else if decide (- 2 ^ 31 <= Price c < 2 ^ 31) then None
  else Some (PgError NumericOutOfRange).

(** A query: it may fail before it does anything. *)
Definition query {A} (fail : option error) (t : table) (run : table * outcome A) :
    table * outcome A :=
  match fail with Some e => (t, Err e) | None => run end.

Definition AddContent (fail : option error) (content : Content) (t : table) :
    table * outcome string :=
  query fail t
    match refused content with
    | Some e => (t, Err e)
    | None =>
        match t !! Id content with
        | Some _ => (t, Err (PgError UniqueViolation))
        | None => (<[Id content := content]> t, Ok (Id content))
        end
    end.

(** An update of no row is not an error. *)
Definition UpdateContent (fail : option error) (content : Content) (t : table) :
    table * outcome string :=
  query fail t
    match t !! Id content with
    | None => (t, Ok (Id content))
    | Some _ =>
        match refused content with
        | Some e => (t, Err e)
        | None => (<[Id content := content]> t, Ok (Id content))
        end
    end.

Definition RemoveContent (failCount failDelete : option error) (id : string) (t : table) :
    table * outcome string :=
  query failCount t
    match t !! id with
    | None => (t, Err (Errorf "content does not exist"))
    | Some _ => query failDelete t (delete id t, Ok id)
    end.

Definition GetContent (fail : option error) (id : string) (t : table) : outcome Content :=
  match fail with
  | Some e => Err e
  | None => of_option (Errorf "no content with id") (t !! id)
  end.

(** Every row is under its key and fits its columns. *)
Definition wf (t : table) : Prop :=
  map_Forall (fun id c => Id c = id /\ refused c = None) t.

Lemma AddContent_wf fail c t : wf t -> wf (AddContent fail c t).1.
Proof.
  intros Hw. unfold AddContent, query. destruct fail; [done|].
  destruct (refused c) eqn:Hr; [done|]. destruct (t !! Id c) eqn:Hi; [done|].
  by apply map_Forall_insert_2.
Qed.

Lemma UpdateContent_wf fail c t : wf t -> wf (UpdateContent fail c t).1.
Proof.
  intros Hw. unfold UpdateContent, query. destruct fail; [done|].
  destruct (t !! Id c) eqn:Hi; [|done]. destruct (refused c) eqn:Hr; [done|].
  by apply map_Forall_insert_2.
Qed.

Lemma RemoveContent_wf f1 f2 id t : wf t -> wf (RemoveContent f1 f2 id t).1.
Proof.
  intros Hw. unfold RemoveContent, query. destruct f1; [done|].
  destruct (t !! id); [|done]. destruct f2; [done|]. by apply map_Forall_delete.
Qed.

End ContentsDB.

(** ** [contents/content.go] *)
Module ContentServer.
Import ContentsDB.

(** The calls of the content service.  A request without a content has a nil
    pointer in it, and reading its fields panics. *)
Definition nilContent {A} : outcome A := Panic "invalid memory address or nil pointer dereference".

Definition AddContent (fail : option error) (content : option Content) (t : table) :
    table * outcome string :=
  match content with
  | None => (t, nilContent)
  | Some c => ContentsDB.AddContent fail c t
  end.
Definition UpdateContent (fail : option error) (content : option Content) (t : table) :
    table * outcome string :=
  match content with
  | None => (t, nilContent)
  | Some c => ContentsDB.UpdateContent fail c t
  end.
Definition RemoveContent := ContentsDB.RemoveContent.
Definition GetContent := ContentsDB.GetContent.

(** The configuration and the outside of the content handler: parsing an URL,
    building a request and fetching it; the bytes are what could be read of the
    body, whatever its status. *)
Record env := {
  S3Bucket : string;
  Region : string;
  Parse : string -> outcome string;
  NewRequest : string -> outcome string;
  Do : string -> outcome (list byte)
}.

Definition freebeeHandler (w : header) : response :=
  {| wHeader := w; wStatus := StatusOK; wBody := "Freebee endpoint test" +:+ String "010" "" |}.

(** The text of an error, as far as the model keeps it. *)
Definition error_text (e : error) : string :=
  match e with Errorf m => m | Wrapf m _ => m | Sentinel m => m | PgError c => c | _ => "" end.

(** [vars] are the variables of the route ([mux.Vars]). *)
Definition contentHandler (e : env) (fail : option error) (t : table) (w : header)
    (vars : gmap string string) : outcome response :=
  let id := default "" (vars !! "id") in
  let failed er := Ok (http_Error w (error_text er) StatusInternalServerError) in
  match GetContent fail id t with
  | Err er => failed er
  | Panic m => Panic m
  | Ok content =>
      match (originalURL ← Parse e ("https://" +:+ S3Bucket e +:+ ".s3-" +:+ Region e +:+
                                    ".amazonaws.com/" +:+ Filepath content);
             req ← NewRequest e originalURL;
             Do e req) with
      | Err er => failed er
      | Panic m => Panic m
      | Ok data =>
          Ok {| wHeader := Set_ w "Content-Type" "text/plain"; wStatus := StatusOK;
                wBody := b64_EncodeToString data |}
      end
  end.

(** *** The router of [Start]

    [Match] is the router of gorilla/mux: for the patterns and methods that are
    registered, in their order, a method and a path, it gives the route that takes
    the request with the values of its variables, or the answer of the router. *)
Inductive matched :=
  | Matched (i : nat) (vars : gmap string string)
  | Unmatched (resp : response).
Record router := { Match : list (string * string) -> string -> string -> matched }.

(** A segment of a path that is not changed when the path is cleaned. *)
Definition segment (v : string) : Prop :=
  v ≠ "" /\ v ≠ "." /\ v ≠ ".." /\ lacks "/" v = true.
#[global] Instance segment_dec v : Decision (segment v).
Proof. unfold segment. apply _. Defined.

(** The name of a variable, without an expression of its own. *)
Definition varname (n : string) : Prop :=
  lacks "{" n = true /\ lacks "}" n = true /\ lacks ":" n = true.

(** What the documentation says of patterns: one without variables matches itself,
    and a variable matches anything until the next slash; the routes are tried in
    the order of their registration, and the first that matches is taken. *)
Record mux_documented (m : router) : Prop := {
  match_variable rs1 dir name method rs2 v :
    Forall (fun r => lacks "{" r.1 = true /\ r.1 ≠ "/" +:+ dir +:+ "/" +:+ v) rs1 ->
    segment dir -> lacks "{" dir = true -> varname name -> segment v ->
    Match m (rs1 ++ ("/" +:+ dir +:+ "/{" +:+ name +:+ "}", method) :: rs2) method
      ("/" +:+ dir +:+ "/" +:+ v) = Matched (length rs1) {[name := v]};
  match_until_slash rs method path i vars name v :
    Match m rs method path = Matched i vars -> vars !! name = Some v -> lacks "/" v = true;
  match_covers_path rs dir name method meth path i vars :
    Match m rs meth path = Matched i vars ->
    rs !! i = Some ("/" +:+ dir +:+ "/{" +:+ name +:+ "}", method) ->
    lacks "{" dir = true -> varname name ->
    exists v, vars !! name = Some v /\ path = "/" +:+ dir +:+ "/" +:+ v
}.

Definition routes : list (string * string) := [("/test", "GET"); ("/content/{id}", "GET")].

(** The HTTP server of [Start]. *)
Definition serve (m : router) (e : env) (fail : option error) (t : table) (w : header)
    (r : request) : outcome response :=
  match Match m routes (rMethod r) (rPath r) with
  | Matched 0 _ => Ok (freebeeHandler w)
  | Matched _ vars => contentHandler e fail t w vars
  | Unmatched resp => Ok resp
  end.

(** ** [contents/pricer.go] *)
Definition GetPaymentDetails (fail : option error) (t : table) (path : string) :
    outcome (string * Z) :=
  if negb (Contains path "content") then Err (Errorf "no prices for given path")
  else
    let id := TrimLeft path "/content/" in
    c ← GetContent fail id t;
    Ok (RecipientLud16 c, Price c).

(** *** Lemmas *)

Lemma route_of_content m id :
  mux_documented m -> segment id ->
  Match m routes "GET" ("/content/" +:+ id) = Matched 1 {["id" := id]}.
Proof.
  intros Hm Hs. apply (match_variable m Hm [("/test", "GET")] "content" "id" "GET" []).
  - by repeat constructor.
  - repeat split; discriminate.
  - done.
  - done.
  - done.
Qed.

(** The characters [TrimLeft] removes are those of the set, not the prefix. *)
Lemma TrimLeft_app a b cut :
  forallb_string (fun c => negb (lacks c cut)) a = true -> TrimLeft (a +:+ b) cut = TrimLeft b cut.
Proof.
  induction a as [|x a IH]; [done|]. cbn [forallb_string]. intros [Hx Ha]%andb_true_iff.
  rewrite string_app_cons. cbn [TrimLeft]. apply negb_true_iff in Hx. rewrite Hx. auto.
Qed.

Lemma TrimLeft_keeps a s cut : lacks a cut = true -> TrimLeft (String a s) cut = String a s.
Proof. intros Ha. cbn [TrimLeft]. by rewrite Ha. Qed.

Lemma Contains_prefix x s : HasPrefix x s = true -> Contains x s = true.
Proof. intros Hp. destruct x; cbn [Contains]; by rewrite Hp. Qed.

Lemma Contains_app a b s : Contains (a +:+ s +:+ b) s = true.
Proof.
  induction a as [|x a IH]; [exact (Contains_prefix _ _ (HasPrefix_app s b))|].
  rewrite string_app_cons. cbn [Contains]. rewrite IH. apply orb_true_r.
Qed.

Lemma details_of_path fail t a s :
  lacks a "/content/" = true ->
  GetPaymentDetails fail t ("/content/" +:+ String a s) =
    (c ← GetContent fail (String a s) t; Ok (RecipientLud16 c, Price c)).
Proof.
  intros Ha. unfold GetPaymentDetails.
  change ("/content/" +:+ String a s) with ("/" +:+ "content" +:+ ("/" +:+ String a s)) at 1.
  rewrite Contains_app. cbn [negb].
  rewrite TrimLeft_app by done. by rewrite TrimLeft_keeps.
Qed.

End ContentServer.

(** ** Properties *)
Module ContentsProperties.
Import ContentsDB ContentServer.

(** A call of the content service. *)
Inductive call :=
  | CAdd (content : option Content)
  | CUpdate (content : option Content)
  | CRemove (id : string).

Definition run_call (t : table) (fc : (option error * option error) * call) : table :=
  match fc.2 with
  | CAdd c => (ContentServer.AddContent fc.1.1 c t).1
  | CUpdate c => (ContentServer.UpdateContent fc.1.1 c t).1
  | CRemove id => (ContentServer.RemoveContent fc.1.1 fc.1.2 id t).1
  end.

Lemma run_content_calls_wf calls t : wf t -> wf (foldl run_call t calls).
Proof.
  revert t. induction calls as [|[[f1 f2] [[c|]|[c|]|id]] calls IH]; intros t Hw; cbn; [done|..];
    apply IH; auto using AddContent_wf, UpdateContent_wf, RemoveContent_wf.
Qed.

Lemma refused_price c : refused c = None -> - 2 ^ 31 <= Price c < 2 ^ 31.
Proof. unfold refused. case_match; [done|]. by case_decide. Qed.


(** A content whose id has a slash is quoted like the others, but whatever is asked
    for under its path, the content handler is not called. *)
Lemma slash_id_is_never_served m meth id vars :
  mux_documented m -> lacks "/" id = false -> Match m routes meth ("/content/" +:+ id) ≠ Matched 1 vars.
Proof.
  intros Hm Hid E.
  destruct (match_covers_path m Hm routes "content" "id" "GET" _ _ _ _ E) as (v & Hv & Hp); [done..|].
  change ("/" +:+ "content" +:+ "/" +:+ v) with ("/content/" +:+ v) in Hp.
  apply append_inj_l in Hp as ->. rewrite (match_until_slash m Hm _ _ _ _ _ _ _ E Hv) in Hid. done.
Qed.

(** A router: the first route whose pattern, of at most one variable at its end,
    matches a path without an empty or dotted segment. *)
Fixpoint cut (dir path : string) : option string :=
  match dir with
  | "" => Some path
  | String a dir' =>
      match path with
      | String b path' => if decide (a = b) then cut dir' path' else None
      | "" => None
      end
  end.
(** The directory and the variable of a pattern [dir{name}]. *)
Definition pattern (p : string) : option (string * string) :=
  match Split p "{" with
  | [dir; rest] => match Split rest "}" with [name; ""] => Some (dir, name) | _ => None end
  | _ => None
  end.
Definition toy_match1 (p path : string) : option (gmap string string) :=
  match pattern p with
  | Some (dir, name) =>
      v ← cut dir path; if decide (segment v) then Some {[name := v]} else None
  | None => if decide (p = path) then Some ∅ else None
  end.
Fixpoint toy_Match (i : nat) (rs : list (string * string)) (method path : string) : matched :=
  match rs with
  | [] => Unmatched (http_Error ∅ "404 page not found" 404)
  | (p, me) :: rs =>
      match toy_match1 p path with
      | Some vars => if decide (me = method) then Matched i vars
                     else toy_Match (S i) rs method path
      | None => toy_Match (S i) rs method path
      end
  end.
Definition toy_mux : router := {| Match := toy_Match 0 |}.

Lemma cut_app dir v : cut dir (dir +:+ v) = Some v.
Proof. induction dir as [|a dir IH]; cbn; [done|]. by rewrite decide_True. Qed.
Lemma cut_Some dir path v : cut dir path = Some v -> path = dir +:+ v.
Proof.
  revert path. induction dir as [|a dir IH]; intros [|b path]; cbn; [by intros [= <-]..|done|].
  case_decide as E; [|done]. intros ->%IH. by rewrite E.
Qed.

Lemma pattern_variable dir name :
  lacks "{" dir = true -> varname name ->
  pattern ("/" +:+ dir +:+ "/{" +:+ name +:+ "}") = Some ("/" +:+ dir +:+ "/", name).
Proof.
  intros Hd (H1 & H2 & _). unfold pattern.
  replace ("/" +:+ dir +:+ "/{" +:+ name +:+ "}")
    with (("/" +:+ dir +:+ "/") +:+ String "{" (name +:+ "}")) by (by rewrite !string_app_assoc).
  rewrite Split_app by (by rewrite !lacks_app, Hd).
  rewrite Split_lacks by (by rewrite lacks_app, H1).
  by rewrite (Split_app name "" "}").
Qed.

Lemma pattern_static p : lacks "{" p = true -> pattern p = None.
Proof. intros Hp. unfold pattern. by rewrite Split_lacks. Qed.

Lemma toy_Match_inv k rs me path i vars :
  toy_Match k rs me path = Matched i vars ->
  exists j p, i = (k + j)%nat /\ rs !! j = Some (p, me) /\ toy_match1 p path = Some vars.
Proof.
  revert k. induction rs as [|[p me'] rs IH]; intros k; cbn [toy_Match]; [done|].
  assert (Hr : toy_Match (S k) rs me path = Matched i vars -> exists j p0,
    i = (k + j)%nat /\ ((p, me') :: rs) !! j = Some (p0, me) /\ toy_match1 p0 path = Some vars).
  { intros (j & p0 & -> & Hl & Hm)%IH. exists (S j), p0. split; [lia|done]. }
  destruct (toy_match1 p path) as [vs|] eqn:E; [|done]. case_decide as Hme; [|done].
  intros [= <- <-]. exists 0%nat, p. split; [lia|]. by rewrite Hme.
Qed.

Lemma toy_mux_documented : mux_documented toy_mux.
Proof.
  split.
  - intros rs1 dir name method rs2 v Hrs Hdir Hd Hn Hv. change (length rs1) with (0 + length rs1)%nat.
    cbn [Match toy_mux]. generalize 0%nat as k. induction Hrs as [|[p me] rs1 [Hp Hne] _ IH]; intros k.
    + cbn [app toy_Match]. unfold toy_match1. rewrite pattern_variable by done.
      replace ("/" +:+ dir +:+ "/" +:+ v) with (("/" +:+ dir +:+ "/") +:+ v)
        by (by rewrite !string_app_assoc).
      rewrite cut_app. cbn [mbind option_bind]. rewrite !decide_True by done. f_equal. cbn. lia.
    + cbn [app toy_Match]. unfold toy_match1. cbn [fst] in Hp, Hne.
      rewrite (pattern_static p) by done. rewrite decide_False by done. rewrite IH. f_equal. cbn. lia.
  - intros rs me path i vars name v (j & p & _ & _ & Hm)%toy_Match_inv Hv. unfold toy_match1 in Hm.
    destruct (pattern p) as [[dir n]|].
    + apply bind_Some in Hm as (w & _ & Hm). case_decide as Hs; [|done]. injection Hm as <-.
      apply lookup_singleton_Some in Hv as [_ <-]. by destruct Hs as (_ & _ & _ & ?).
    + case_decide; [|done]. by injection Hm as <-.
  - intros rs dir name method me path i vars (j & p & -> & Hl & Hm)%toy_Match_inv Hi Hd Hn.
    cbn [Nat.add] in Hi. rewrite Hl in Hi. apply (inj Some) in Hi.
    apply (f_equal fst) in Hi. cbn [fst] in Hi. rewrite Hi in Hm. unfold toy_match1 in Hm.
    rewrite pattern_variable in Hm by done. apply bind_Some in Hm as (w & Hc%cut_Some & Hm).
    case_decide as Hs; [|done]. injection Hm as <-. exists w. rewrite lookup_singleton_eq.
    split; [done|]. rewrite Hc. by rewrite !string_app_assoc.
Qed.

Definition toy_content : Content := {|
  Id := "7"; Title := "t"; Author := "a"; Filepath := "f"; RecipientLud16 := "me@host"; Price := 21 |}.
Definition toy_calls : list ((option error * option error) * call) :=
  [((None, None), CAdd (Some toy_content))].
Definition toy_conn : Pricer.rpcConn := {|
  Pricer.rpcGetPaymentDetails path _ := GetPaymentDetails None (foldl run_call ∅ toy_calls) path;
  Pricer.rpcClose := Ok tt |}.
Definition toy_pricer_env : Pricer.env := {|
  Pricer.NewClientTLSFromFile _ := Ok tt; Pricer.Dial _ := Ok toy_conn;
  Pricer.requestText _ := Ok "" |}.
Definition toy_server_env : ContentServer.env := {|
  S3Bucket := "b"; Region := "r"; Parse := Ok; NewRequest := Ok; Do _ := Ok [Byte.x2a] |}.
Definition toy_content_request : request := {|
  rMethod := "GET"; rHost := "h"; rPath := "/content/7"; rURLHost := ""; rScheme := "http";
  rRemoteAddr := ""; rHeader := ∅; rBody := "" |}.


(** For an id that starts with one of these characters another id is quoted: the
    characters are all removed. *)
Lemma trimmed_id_is_quoted fail t id :
  GetPaymentDetails fail t ("/content/" +:+ id) =
    (c ← GetContent fail (TrimLeft id "/content/") t; Ok (RecipientLud16 c, Price c)).
Proof.
  unfold GetPaymentDetails.
  change ("/content/" +:+ id) with ("/" +:+ "content" +:+ ("/" +:+ id)) at 1.
  rewrite Contains_app. cbn [negb]. by rewrite TrimLeft_app.
Qed.
Example note1_is_quoted_as_1 : TrimLeft "note1" "/content/" = "1".
Proof. reflexivity. Qed.

End ContentsProperties.
