(* ===== verification/ContentCli.v ===== *)
(** * The control program of the content server: [contents/cmd/appcli/main.go]

    Its four commands talk to the content service through a client.  What they
    need of the service is the class [ContentService] with its laws, which the
    server of [Contents] satisfies over a table whose queries may fail.  The
    parsing of flags is that of the cli library: a string flag that is not given
    is empty, a number is zero. *)
From S2P Require Import Prelude.
From S2P Require Import GoStrings.
From S2P Require Import Database.
From S2P Require Import Http.
From S2P Require Import Service.
From S2P Require Import Contents.

Import ContentsDB.

(** ** The interface: the calls of [contentrpc.ContentServiceClient] *)
Class ContentService (S : Type) := {
  AddContent : S -> option Content -> S * outcome string;
  UpdateContent : S -> option Content -> S * outcome string;
  RemoveContent : S -> string -> S * outcome string;
  GetContent : S -> string -> outcome (option Content)
}.

(** What the service keeps, and what its calls do to it. *)
Class ContentServiceLaws (S : Type) `{!ContentService S} (contents : S -> gmap string Content) :
    Prop := {
  add_Ok s c s' id :
    AddContent s (Some c) = (s', Ok id) ->
    id = Id c /\ contents s !! id = None /\ contents s' = <[id := c]> (contents s);
  add_fails s c s' r :
    AddContent s c = (s', r) -> is_ok r = false -> contents s' = contents s;
  update_Ok s c s' id :
    UpdateContent s (Some c) = (s', Ok id) ->
    id = Id c /\
    contents s' = if contents s !! id then <[id := c]> (contents s) else contents s;
  update_fails s c s' r :
    UpdateContent s c = (s', r) -> is_ok r = false -> contents s' = contents s;
  remove_Ok s i s' id :
    RemoveContent s i = (s', Ok id) ->
    id = i /\ is_Some (contents s !! i) /\ contents s' = delete i (contents s);
  remove_fails s i s' r :
    RemoveContent s i = (s', r) -> is_ok r = false -> contents s' = contents s;
  get_Ok s i oc :
    GetContent s i = Ok oc -> exists c, oc = Some c /\ contents s !! i = Some c
}.

(** ** The commands *)
Module Cli.

Record flags := {
  fId : string;
  fTitle : string;
  fAuthor : string;
  fFilepath : string;
  fRecipientLud16 : string;
  fPrice : Z
}.

Section Commands.
Context {S : Type} `{!ContentService S}.

(** A command that stops with an error has not called the service. *)
Definition stop {A} (s : S) (msg : string) : S * outcome A := (s, Err (Errorf msg)).

(** [getClient]: every use of the service dials first. *)
Definition getClient {A} (dial : outcome unit) (s : S) (k : S * outcome A) : S * outcome A :=
  match dial with
  | Ok _ => k
  | Err _ => stop s "unable to connect to RPC server"
  | Panic m => (s, Panic m)
  end.

Definition required {A} (v msg : string) (s : S) (k : S * outcome A) : S * outcome A :=
  if decide (v = "") then stop s msg else k.

Definition addContent (dial : outcome unit) (f : flags) (s : S) : S * outcome string :=
  getClient dial s (
    required (fId f) "must set an id for the content" s (
    required (fTitle f) "must set a title for the content" s (
    required (fAuthor f) "must set a author for the content" s (
    required (fFilepath f) "must set filepath for the content" s (
    required (fRecipientLud16 f) "must set recipient_lud16 for the content" s (
    if decide (fPrice f < 0) then stop s "cant have a negative price"
    else AddContent s (Some {| Id := fId f; Title := fTitle f; Author := fAuthor f;
                               Filepath := fFilepath f; RecipientLud16 := fRecipientLud16 f;
                               Price := fPrice f |}))))))).

(** [getContentImpl] dials a second time. *)
Definition getContentImpl (dial : outcome unit) (s : S) (id : string) : outcome (option Content) :=
  _ ← errorf "unable to connect to RPC server" dial;
  GetContent s id.

(** [if v != "" { proto.Field = v; moreThanOneSet = true }] *)
Definition setIf (given : bool) (upd : Content -> Content) (x : Content * bool) : Content * bool :=
  if given then (upd x.1, true) else x.

Definition given (v : string) : bool := negb (bool_decide (v = "")).

(** The fields that are given overwrite those of the content, one after the
    other; the flag says that one was. *)
Definition setFields (f : flags) (c : Content) : Content * bool :=
  let x := (c, false) in
  let x := setIf (given (fTitle f)) (fun c =>
    {| Id := Id c; Title := fTitle f; Author := Author c; Filepath := Filepath c;
       RecipientLud16 := RecipientLud16 c; Price := Price c |}) x in
  let x := setIf (given (fAuthor f)) (fun c =>
    {| Id := Id c; Title := Title c; Author := fAuthor f; Filepath := Filepath c;
       RecipientLud16 := RecipientLud16 c; Price := Price c |}) x in
  let x := setIf (given (fFilepath f)) (fun c =>
    {| Id := Id c; Title := Title c; Author := Author c; Filepath := fFilepath f;
       RecipientLud16 := RecipientLud16 c; Price := Price c |}) x in
  let x := setIf (given (fRecipientLud16 f)) (fun c =>
    {| Id := Id c; Title := Title c; Author := Author c; Filepath := Filepath c;
       RecipientLud16 := fRecipientLud16 f; Price := Price c |}) x in
  setIf (bool_decide (0 < fPrice f)) (fun c =>
    {| Id := Id c; Title := Title c; Author := Author c; Filepath := Filepath c;
       RecipientLud16 := RecipientLud16 c; Price := fPrice f |}) x.

(** A service that answers without a content hands out a nil pointer, which is
    only followed when a field is set. *)
Definition updateContent (dial dial2 : outcome unit) (f : flags) (s : S) : S * outcome string :=
  getClient dial s (
    required (fId f) "must set an id for the content" s (
    match getContentImpl dial2 s (fId f) with
    | Err _ => stop s "no content with id"
    | Panic m => (s, Panic m)
    | Ok proto =>
        let blank := {| Id := ""; Title := ""; Author := ""; Filepath := "";
                        RecipientLud16 := ""; Price := 0 |} in
        let '(c, moreThanOneSet) := setFields f (default blank proto) in
        if negb moreThanOneSet then stop s "must set at least one field to update"
        else match proto with
             | None => (s, Panic "invalid memory address or nil pointer dereference")
             | Some _ => UpdateContent s (Some c)
             end
    end)).

Definition removeContent (dial : outcome unit) (f : flags) (s : S) : S * outcome string :=
  getClient dial s (
    required (fId f) "must set an id for the content" s (RemoveContent s (fId f))).

Definition getContent (dial : outcome unit) (f : flags) (s : S) : outcome (option Content) :=
  if decide (fId f = "") then Err (Errorf "must set an id for the content")
  else getContentImpl dial s (fId f).

(** *** Lemmas *)

Lemma getClient_Ok {A} dial (s s' : S) (k : S * outcome A) r :
  getClient dial s k = (s', r) -> k = (s', r) \/ (s' = s /\ is_ok r = false).
Proof. destruct dial; cbn; unfold stop; naive_solver. Qed.

Lemma required_Ok {A} v msg (s s' : S) (k : S * outcome A) r :
  required v msg s k = (s', r) -> (v ≠ "" /\ k = (s', r)) \/ (s' = s /\ is_ok r = false).
Proof. unfold required, stop. case_decide; naive_solver. Qed.

(** What the two commands that write end in. *)
Lemma addContent_cases dial f s s' r :
  addContent dial f s = (s', r) ->
  (s' = s /\ is_ok r = false) \/
  (0 <= fPrice f /\
   AddContent s (Some {| Id := fId f; Title := fTitle f; Author := fAuthor f;
                         Filepath := fFilepath f; RecipientLud16 := fRecipientLud16 f;
                         Price := fPrice f |}) = (s', r)).
Proof.
  unfold addContent. intros [H|?]%getClient_Ok; [|by left].
  repeat (apply required_Ok in H as [[_ H]|?]; [|by left]).
  case_decide; [left; unfold stop in H; naive_solver|]. right. split; [lia|done].
Qed.

(** The content with the given fields set. *)
Definition merged (f : flags) (c : Content) : Content := {|
  Id := Id c;
  Title := if given (fTitle f) then fTitle f else Title c;
  Author := if given (fAuthor f) then fAuthor f else Author c;
  Filepath := if given (fFilepath f) then fFilepath f else Filepath c;
  RecipientLud16 := if given (fRecipientLud16 f) then fRecipientLud16 f else RecipientLud16 c;
  Price := if bool_decide (0 < fPrice f) then fPrice f else Price c
|}.

Definition sets_a_field (f : flags) : Prop :=
  fTitle f ≠ "" \/ fAuthor f ≠ "" \/ fFilepath f ≠ "" \/ fRecipientLud16 f ≠ "" \/ 0 < fPrice f.

Lemma setIf_snd g u x : (setIf g u x).2 = g || x.2.
Proof. by destruct g. Qed.

Lemma given_true v : given v = true <-> v ≠ "".
Proof. unfold given. by rewrite negb_true_iff, bool_decide_eq_false. Qed.

Lemma setFields_merged f c :
  (setFields f c).1 = merged f c /\ ((setFields f c).2 = true <-> sets_a_field f).
Proof.
  split.
  - unfold setFields, merged. destruct c.
    destruct (given (fTitle f)), (given (fAuthor f)), (given (fFilepath f)),
      (given (fRecipientLud16 f)), (bool_decide (0 < fPrice f)); reflexivity.
  - unfold setFields, sets_a_field. rewrite !setIf_snd, !orb_true_iff, !given_true, bool_decide_eq_true.
    cbn. intuition discriminate.
Qed.

Lemma updateContent_cases `{!ContentServiceLaws S contents} dial dial2 f s s' r :
  updateContent dial dial2 f s = (s', r) ->
  (s' = s /\ is_ok r = false) \/
  (exists c, contents s !! fId f = Some c /\ sets_a_field f /\
             UpdateContent s (Some (merged f c)) = (s', r)).
Proof.
  unfold updateContent. intros [H|?]%getClient_Ok; [|by left].
  apply required_Ok in H as [[_ H]|?]; [|by left].
  destruct (getContentImpl dial2 s (fId f)) as [proto|e|m] eqn:E;
    [|left; unfold stop in H; naive_solver..].
  apply bind_Ok_inv in E as (u & _ & E). apply get_Ok in E as (c & -> & Hc). cbn in H.
  destruct (setFields_merged f c) as [Hm Hs]. destruct (setFields f c) as [c' b]. cbn in Hm, Hs.
  subst c'. destruct b; [|left; unfold stop in H; naive_solver]. right. exists c. naive_solver.
Qed.

End Commands.
End Cli.

(** ** The server of [Contents] is such a service *)
Module Served.
Import Running.

(** The table, and how the queries of each call fail. *)
Abbreviation store := (running table (option error * option error)).

#[global] Instance served : ContentService store := {|
  AddContent s c := update s (ContentServer.AddContent (world s (calls s)).1 c (tbl s));
  UpdateContent s c := update s (ContentServer.UpdateContent (world s (calls s)).1 c (tbl s));
  RemoveContent s i :=
    update s (ContentServer.RemoveContent (world s (calls s)).1 (world s (calls s)).2 i (tbl s));
  GetContent s i := Some <$> ContentServer.GetContent (world s (calls s)).1 i (tbl s)
|}.

#[global] Instance served_laws : ContentServiceLaws store tbl.
Proof.
  split; intros s; intros; cbn [AddContent UpdateContent RemoveContent
    GetContent served] in *; open_updates.
  - cbn in H. unfold ContentsDB.AddContent, query in H.
    destruct (world s (calls s)).1, (refused c), (tbl s !! Id c) eqn:E; naive_solver.
  - unfold ContentServer.AddContent, ContentsDB.AddContent, query in H.
    destruct c as [c|], (world s (calls s)).1; [naive_solver| |naive_solver..].
    destruct (refused c), (tbl s !! Id c) eqn:E; naive_solver.
  - cbn in H. unfold ContentsDB.UpdateContent, query in H.
    destruct (world s (calls s)).1; [done|].
    destruct (tbl s !! Id c) eqn:E; [destruct (refused c); [done|]|];
      injection H as <- <-; split; try done; by rewrite E.
  - unfold ContentServer.UpdateContent, ContentsDB.UpdateContent, query in H.
    destruct c as [c|], (world s (calls s)).1; [naive_solver| |naive_solver..].
    destruct (tbl s !! Id c) eqn:E; [destruct (refused c)|]; naive_solver.
  - unfold ContentServer.RemoveContent, ContentsDB.RemoveContent, query in H.
    destruct (world s (calls s)) as [[] []], (tbl s !! i) eqn:E; naive_solver.
  - unfold ContentServer.RemoveContent, ContentsDB.RemoveContent, query in H.
    destruct (world s (calls s)) as [[] []], (tbl s !! i) eqn:E; naive_solver.
  - unfold ContentServer.GetContent, ContentsDB.GetContent in H.
    destruct (world s (calls s)).1; [done|]. destruct (tbl s !! i) as [c|]; [|done].
    injection H as <-. by exists c.
Qed.
End Served.

(** ** Properties *)
Module CliProperties.
Import Cli.

Section Properties.
Context {S : Type} `{!ContentService S} (contents : S -> gmap string Content)
        `{!ContentServiceLaws S contents}.

(** Every content is under its own id. *)
Definition keyed (s : S) : Prop := map_Forall (fun i c => Id c = i) (contents s).

(** the update command changes the one content it is given and in it exactly
    the fields that are given: when it reports an id, that content existed, the
    fields with a flag have the flag's value, all others their old one, and a
    flag was given; when it fails, no content has changed.  Every content stays
    under its own id. *)
Theorem cli_update_merges dial dial2 f s s' r :
  keyed s -> updateContent dial dial2 f s = (s', r) ->
  keyed s' /\
  match r with
  | Ok id =>
      id = fId f /\ sets_a_field f /\
      exists c, contents s !! id = Some c /\
                contents s' = <[id := merged f c]> (contents s)
  | _ => contents s' = contents s
  end.
Proof.
  intros Hk [[-> Hr]|(c & Hc & Hf & Hu)]%updateContent_cases; [by destruct r|].
  destruct r as [id|e|m].
  - apply update_Ok in Hu as [-> Hs]. assert (Hi : Id (merged f c) = fId f) by apply (Hk _ _ Hc).
    rewrite Hi, Hc in Hs. rewrite Hi. split; [|eauto].
    unfold keyed. rewrite Hs. by apply map_Forall_insert_2.
  - apply update_fails in Hu; [|done]. unfold keyed. by rewrite Hu.
  - apply update_fails in Hu; [|done]. unfold keyed. by rewrite Hu.
Qed.

(** The add command. *)
Lemma cli_add_stores dial f s s' r :
  addContent dial f s = (s', r) ->
  match r with
  | Ok id =>
      id = fId f /\ 0 <= fPrice f /\ contents s !! id = None /\
      contents s' = <[id := {| Id := fId f; Title := fTitle f; Author := fAuthor f;
                               Filepath := fFilepath f; RecipientLud16 := fRecipientLud16 f;
                               Price := fPrice f |}]> (contents s)
  | _ => contents s' = contents s
  end.
Proof.
  intros [[-> Hr]|[Hp Ha]]%addContent_cases; [by destruct r|]. destruct r as [id|e|m].
  - apply add_Ok in Ha as (-> & Hn & Hs). done.
  - by apply add_fails in Ha.
  - by apply add_fails in Ha.
Qed.

End Properties.

(** a content that the add command has added is for sale as it was entered:
    the price server, asked for its path, quotes the recipient and the price of
    the flags, and the price is not negative and fits in 32 bits. *)
Theorem added_content_is_quoted dial f (s s' : Served.store) id a rest :
  addContent dial f s = (s', Ok id) ->
  fId f = String a rest -> lacks a "/content/" = true ->
  ContentServer.GetPaymentDetails None (Running.tbl s') ("/content/" +:+ fId f) =
    Ok (fRecipientLud16 f, fPrice f) /\ 0 <= fPrice f < 2 ^ 31.
Proof.
  intros Ha Hid Hl. assert (Hs := cli_add_stores Running.tbl _ _ _ _ _ Ha).
  destruct Hs as (-> & Hp & _ & Hs). split.
  - rewrite Hid, ContentServer.details_of_path by done. rewrite Hs, Hid.
    cbn. by rewrite lookup_insert_eq.
  - split; [done|]. apply addContent_cases in Ha as [[_ ?]|[_ Ha]]; [done|].
    cbn [AddContent Served.served] in Ha. apply Running.update_eq in Ha. cbn in Ha.
    unfold ContentsDB.AddContent, query in Ha.
    destruct (Running.world s (Running.calls s)).1; [done|].
    match type of Ha with context [refused ?c] => destruct (refused c) eqn:Hr end; [done|].
    apply ContentsProperties.refused_price in Hr. apply Hr.
Qed.

(** *** Witnesses *)
Definition toy_flags : flags := {|
  fId := "7"; fTitle := "t"; fAuthor := "a"; fFilepath := "f"; fRecipientLud16 := "me@host";
  fPrice := 21 |}.
Definition toy_service : Served.store :=
  {| Running.tbl := ∅; Running.world _ := (None, None); Running.calls := 0 |}.
Definition toy_added : Served.store := (addContent (Ok tt) toy_flags toy_service).1.
Definition toy_change : flags := {|
  fId := "7"; fTitle := ""; fAuthor := ""; fFilepath := "g"; fRecipientLud16 := ""; fPrice := 0 |}.

Lemma added_content_is_quoted_witness :
  ContentServer.GetPaymentDetails None (Running.tbl toy_added) "/content/7" = Ok ("me@host", 21).
Proof.
  refine (proj1 (added_content_is_quoted (Ok tt) toy_flags toy_service toy_added "7" "7" "" _ _ _));
    vm_compute; reflexivity.
Defined.

Definition toy_changed : Content := {|
  Id := "7"; Title := "t"; Author := "a"; Filepath := "g"; RecipientLud16 := "me@host"; Price := 21 |}.

Lemma toy_keyed : keyed Running.tbl toy_added.
Proof.
  assert (Running.tbl toy_added = {[ "7" := ContentsProperties.toy_content ]}) as E
    by (vm_compute; reflexivity).
  unfold keyed. rewrite E. by apply map_Forall_singleton.
Qed.

Lemma cli_update_merges_witness :
  exists c, Running.tbl toy_added !! "7" = Some c /\
    Running.tbl (updateContent (Ok tt) (Ok tt) toy_change toy_added).1 =
      <["7" := merged toy_change c]> (Running.tbl toy_added).
Proof.
  apply (cli_update_merges Running.tbl (Ok tt) (Ok tt) toy_change toy_added
    (updateContent (Ok tt) (Ok tt) toy_change toy_added).1 (Ok "7")).
  - apply toy_keyed.
  - vm_compute. reflexivity.
Defined.
Example toy_change_result :
  Running.tbl (updateContent (Ok tt) (Ok tt) toy_change toy_added).1 !! "7" = Some toy_changed.
Proof. vm_compute. reflexivity. Qed.
End CliProperties.
