(* ===== verification/Lnc.v ===== *)
(** * Lightning Node Connect: sessions and their store

    The session and the [Store] interface of [lnc], the database store of
    [aperturedb/lnc_sessions.go] over its table, and what [lnc.NodeConn] does
    with them: opening a session and its connection, the two callbacks of the
    handshake, and closing the connection once.  The mailbox, the keys of [btcec] and the macaroon library are
    not part of the repository. *)
From S2P Require Import Prelude.
From S2P Require Import GoStrings.
From S2P Require Import GoCodec.
From S2P Require Import GoTime.
From S2P Require Import Macaroon.
From S2P Require Import Database.

(** ** The libraries *)
Class LncLib := {
  PublicKey : Type;
  PrivateKey : Type;
  SerializeCompressed : PublicKey -> list byte;
  ParsePubKey : list byte -> outcome PublicKey;
  Serialize : PrivateKey -> list byte;
  PrivKeyFromBytes : list byte -> PrivateKey;
  (* the mnemonic of [mailbox] *)
  NumPassphraseWords : nat;
  PassphraseMnemonicToEntropy : list string -> list byte;
  (* [checkers.ExpiryTime] on the caveats of a macaroon *)
  ExpiryTime : list (list byte) -> option time;
  (* what a TIMESTAMP column keeps of an instant *)
  dbTime : time -> time
}.

Class LncLaws `{LncLib} : Prop := {
  ParsePubKey_Serialize k : ParsePubKey (SerializeCompressed k) = Ok k;
  PrivKey_Serialize k : PrivKeyFromBytes (Serialize k) = k;
  (* the columns have a resolution of a microsecond *)
  dbTime_micro t : t_nsec t mod 1000 = 0 -> dbTime t = t
}.

(** ** [lnc/session.go] *)
Module Session.
Section Session.
Context `{LncLib}.

Record t := {
  PassphraseWords : string;
  PassphraseEntropy : list byte;
  RemoteStaticPubKey : option PublicKey;
  LocalStaticPrivKey : option PrivateKey;
  MailboxAddr : string;
  CreatedAt : time;
  Expiry : option time;
  DevServer : bool
}.

Definition zeroTime : time := {| t_sec := 0; t_nsec := 0 |}.

Definition NewSession (passphrase mailboxAddr : string) (devServer : bool) : outcome t :=
  if decide (passphrase = "") then Err (Errorf "passphrase cannot be empty")
  else if decide (mailboxAddr = "") then Err (Errorf "mailbox address cannot be empty")
  else
    let words := Split passphrase " " in
    if decide (length words ≠ NumPassphraseWords) then Err (Errorf "invalid passphrase")
    else Ok {| PassphraseWords := passphrase;
               PassphraseEntropy := PassphraseMnemonicToEntropy words;
               RemoteStaticPubKey := None; LocalStaticPrivKey := None;
               MailboxAddr := mailboxAddr; CreatedAt := zeroTime; Expiry := None;
               DevServer := devServer |}.

Definition set_local (s : t) (k : PrivateKey) : t :=
  {| PassphraseWords := PassphraseWords s; PassphraseEntropy := PassphraseEntropy s;
     RemoteStaticPubKey := RemoteStaticPubKey s; LocalStaticPrivKey := Some k;
     MailboxAddr := MailboxAddr s; CreatedAt := CreatedAt s; Expiry := Expiry s;
     DevServer := DevServer s |}.
Definition set_created (s : t) (c : time) : t :=
  {| PassphraseWords := PassphraseWords s; PassphraseEntropy := PassphraseEntropy s;
     RemoteStaticPubKey := RemoteStaticPubKey s; LocalStaticPrivKey := LocalStaticPrivKey s;
     MailboxAddr := MailboxAddr s; CreatedAt := c; Expiry := Expiry s;
     DevServer := DevServer s |}.
Definition set_remote (s : t) (k : option PublicKey) : t :=
  {| PassphraseWords := PassphraseWords s; PassphraseEntropy := PassphraseEntropy s;
     RemoteStaticPubKey := k; LocalStaticPrivKey := LocalStaticPrivKey s;
     MailboxAddr := MailboxAddr s; CreatedAt := CreatedAt s; Expiry := Expiry s;
     DevServer := DevServer s |}.
Definition set_expiry (s : t) (e : option time) : t :=
  {| PassphraseWords := PassphraseWords s; PassphraseEntropy := PassphraseEntropy s;
     RemoteStaticPubKey := RemoteStaticPubKey s; LocalStaticPrivKey := LocalStaticPrivKey s;
     MailboxAddr := MailboxAddr s; CreatedAt := CreatedAt s; Expiry := e;
     DevServer := DevServer s |}.

End Session.
End Session.

(** ** [lnc/store.go] *)
Definition ErrSessionNotFound : error := Sentinel "lnc.ErrSessionNotFound".

(** [AddSession] sets the creation date of the session it is given: it returns
    the session as it leaves it. *)
Class SessionStore `{LncLib} (S : Type) := {
  AddSession : S -> Session.t -> S * outcome Session.t;
  GetSession : S -> list byte -> outcome Session.t;
  SetRemotePubKey : S -> list byte -> list byte -> S * outcome unit;
  SetExpiry : S -> list byte -> time -> S * outcome unit
}.

Class SessionStoreLaws `{LncLib} (S : Type) `{!SessionStore S} : Prop := {
  session_added s x s' x' :
    AddSession s x = (s', Ok x') ->
    x' = Session.set_created x (Session.CreatedAt x') /\
    GetSession s' (Session.PassphraseEntropy x)
      = Ok (Session.set_expiry (Session.set_remote x' None) None);
  session_add_fresh s x s' x' :
    AddSession s x = (s', Ok x') -> is_ok (GetSession s (Session.PassphraseEntropy x)) = false;
  session_add_other s x s' r e :
    AddSession s x = (s', r) -> e ≠ Session.PassphraseEntropy x -> GetSession s' e = GetSession s e;
  session_remote s e k s' x :
    SetRemotePubKey s e (SerializeCompressed k) = (s', Ok tt) -> GetSession s e = Ok x ->
    GetSession s' e = Ok (Session.set_remote x (Some k));
  session_remote_other s e k s' r e' :
    SetRemotePubKey s e k = (s', r) -> e' ≠ e -> GetSession s' e' = GetSession s e';
  session_expiry s e u s' x :
    SetExpiry s e u = (s', Ok tt) -> GetSession s e = Ok x ->
    GetSession s' e = Ok (Session.set_expiry x (Some (dbTime u)));
  session_expiry_other s e u s' r e' :
    SetExpiry s e u = (s', r) -> e' ≠ e -> GetSession s' e' = GetSession s e';
  session_add_fails s x s' r e :
    AddSession s x = (s', r) -> is_ok r = false -> GetSession s' e = GetSession s e;
  session_remote_fails s e k s' r e' :
    SetRemotePubKey s e k = (s', r) -> is_ok r = false -> GetSession s' e' = GetSession s e';
  session_expiry_fails s e u s' r e' :
    SetExpiry s e u = (s', r) -> is_ok r = false -> GetSession s' e' = GetSession s e'
}.

(** ** The table [lnc_sessions] and its queries *)
Module SessionsDB.

Record row := {
  rId : Z;
  passphrase_words : string;
  passphrase_entropy : list byte;
  remote_static_pub_key : option (list byte);
  local_static_priv_key : list byte;
  mailbox_addr : string;
  created_at : time;
  expiry : option time;
  dev_server : bool
}.

Record table := { rows : list row; nextId : Z }.

(** The unique columns; NULL is not compared. *)
Definition constraints (l : list row) : Prop :=
  NoDup (passphrase_words <$> l) /\ NoDup (passphrase_entropy <$> l) /\
  NoDup (omap remote_static_pub_key l).
#[export] Instance constraints_dec l : Decision (constraints l).
Proof. unfold constraints. apply _. Defined.

(** A statement that would break a constraint is refused. *)
Definition commit_rows (t : table) (l : list row) (next : Z) : table * outcome unit :=
  if decide (constraints l) then ({| rows := l; nextId := next |}, Ok tt)
  else (t, Err (PgError UniqueViolation)).

Definition InsertSession (words : string) (entropy localKey : list byte) (addr : string)
    (createdAt : time) (exp : option time) (dev : bool) (t : table) : table * outcome unit :=
  commit_rows t
    (rows t ++ [{| rId := nextId t; passphrase_words := words; passphrase_entropy := entropy;
                   remote_static_pub_key := None; local_static_priv_key := localKey;
                   mailbox_addr := addr; created_at := createdAt; expiry := exp;
                   dev_server := dev |}])
    (nextId t + 1).

Definition GetSession (entropy : list byte) (t : table) : outcome row :=
  match filter (fun r => passphrase_entropy r = entropy) (rows t) with
  | r :: _ => Ok r
  | [] => Err ErrNoRows
  end.

Definition with_remote (k : list byte) (r : row) : row :=
  {| rId := rId r; passphrase_words := passphrase_words r;
     passphrase_entropy := passphrase_entropy r; remote_static_pub_key := Some k;
     local_static_priv_key := local_static_priv_key r; mailbox_addr := mailbox_addr r;
     created_at := created_at r; expiry := expiry r; dev_server := dev_server r |}.
Definition with_expiry (e : option time) (r : row) : row :=
  {| rId := rId r; passphrase_words := passphrase_words r;
     passphrase_entropy := passphrase_entropy r;
     remote_static_pub_key := remote_static_pub_key r;
     local_static_priv_key := local_static_priv_key r; mailbox_addr := mailbox_addr r;
     created_at := created_at r; expiry := e; dev_server := dev_server r |}.

(** [UPDATE ... WHERE passphrase_entropy = $2] *)
Definition updateRows (f : row -> row) (entropy : list byte) (l : list row) : list row :=
  (fun r => if decide (passphrase_entropy r = entropy) then f r else r) <$> l.

Definition SetRemotePubKey (k entropy : list byte) (t : table) : table * outcome unit :=
  commit_rows t (updateRows (with_remote k) entropy (rows t)) (nextId t).
Definition SetExpiry (e : option time) (entropy : list byte) (t : table) : table * outcome unit :=
  commit_rows t (updateRows (with_expiry e) entropy (rows t)) (nextId t).

Lemma commit_rows_wf t l n : constraints (rows t) -> constraints (rows (commit_rows t l n).1).
Proof. unfold commit_rows. by case_decide. Qed.

Lemma commit_rows_Ok t l n t' r :
  commit_rows t l n = (t', Ok r) -> t' = {| rows := l; nextId := n |} /\ constraints l.
Proof. unfold commit_rows. case_decide; [by intros [= <- _]|done]. Qed.

(** A key that no row has, or the one row that has it. *)
Lemma filter_update (f : row -> row) e e' l :
  (forall r, passphrase_entropy (f r) = passphrase_entropy r) ->
  filter (fun r => passphrase_entropy r = e') (updateRows f e l) =
    (if decide (e' = e) then f <$> filter (fun r => passphrase_entropy r = e') l
     else filter (fun r => passphrase_entropy r = e') l).
Proof.
  intros Hf. induction l as [|r l IH]; [by case_decide|].
  unfold updateRows in *. rewrite fmap_cons, !filter_cons, IH. clear IH.
  destruct (decide (passphrase_entropy r = e)) as [Er|Er]; rewrite ?Hf;
    repeat case_decide; subst; done.
Qed.

Lemma filter_absent e l :
  e ∉ (passphrase_entropy <$> l) -> filter (fun r => passphrase_entropy r = e) l = [].
Proof.
  induction l as [|r l IH]; [done|]. rewrite fmap_cons, not_elem_of_cons, filter_cons.
  intros [Hne Hl]. rewrite decide_False by congruence. auto.
Qed.

End SessionsDB.

(** ** [aperturedb/lnc_sessions.go] *)
Module SessionsStore.
Section Store.
Context `{LncLib}.

(** The clock of a call and what the database does to its transaction. *)
Record env := { clock_Now : time; attempts : nat -> attempt }.

(** [t.Truncate(time.Microsecond)] *)
Definition TruncateMicro (u : time) : time :=
  {| t_sec := t_sec u; t_nsec := t_nsec u - t_nsec u mod 1000 |}.

Section Calls.
Variable e : env.

Definition AddSession (t : SessionsDB.table) (session : Session.t) :
    SessionsDB.table * outcome Session.t :=
  match Session.LocalStaticPrivKey session with
  | None => (t, Err (Errorf "local static private key is required"))
  | Some key =>
      let localPrivKey := Serialize key in
      let createdAt := TruncateMicro (clock_Now e) in
      let '(t', r) :=
        ExecTx DefaultNumTxRetries (attempts e)
          (SessionsDB.InsertSession (Session.PassphraseWords session)
             (Session.PassphraseEntropy session) localPrivKey (Session.MailboxAddr session)
             (dbTime createdAt) None (Session.DevServer session)) t in
      (t', _ ← errorf "failed to insert new session" r;
           Ok (Session.set_created session createdAt))
  end.

(** The session of a row. *)
Definition sessionOfRow (r : SessionsDB.row) : outcome Session.t :=
  remote ← match SessionsDB.remote_static_pub_key r with
           | Some k => wrapf "failed to parse remote public key" (Some <$> ParsePubKey k)
           | None => Ok None
           end;
  Ok {| Session.PassphraseWords := SessionsDB.passphrase_words r;
        Session.PassphraseEntropy := SessionsDB.passphrase_entropy r;
        Session.RemoteStaticPubKey := remote;
        Session.LocalStaticPrivKey := Some (PrivKeyFromBytes (SessionsDB.local_static_priv_key r));
        Session.MailboxAddr := SessionsDB.mailbox_addr r;
        Session.CreatedAt := SessionsDB.created_at r;
        Session.Expiry := SessionsDB.expiry r;
        Session.DevServer := SessionsDB.dev_server r |}.

Definition getBody (passphraseEntropy : list byte) (t : SessionsDB.table) :
    SessionsDB.table * outcome Session.t :=
  (t, match SessionsDB.GetSession passphraseEntropy t with
      | Err er => if decide (er = ErrNoRows) then Err ErrSessionNotFound else Err er
      | Panic m => Panic m
      | Ok dbSession => sessionOfRow dbSession
      end).

Definition GetSession (t : SessionsDB.table) (passphraseEntropy : list byte) : outcome Session.t :=
  wrapf "failed to get session"
    (ExecTx DefaultNumTxRetries (attempts e) (getBody passphraseEntropy) t).2.

Definition SetRemotePubKey (t : SessionsDB.table) (passphraseEntropy remotePubKey : list byte) :
    SessionsDB.table * outcome unit :=
  let '(t', r) := ExecTx DefaultNumTxRetries (attempts e)
                    (SessionsDB.SetRemotePubKey remotePubKey passphraseEntropy) t in
  (t', wrapf "failed to set remote pub key" r).

Definition SetExpiry (t : SessionsDB.table) (passphraseEntropy : list byte) (exp : time) :
    SessionsDB.table * outcome unit :=
  let '(t', r) := ExecTx DefaultNumTxRetries (attempts e)
                    (SessionsDB.SetExpiry (Some (dbTime exp)) passphraseEntropy) t in
  (t', wrapf "failed to set expiry time" r).

End Calls.
End Store.

End SessionsStore.

(** ** The database store implements the interface *)
Module SessionsDBStore.
Import SessionsDB SessionsStore Running.

Abbreviation store := (running table env).

(** *** Reading *)

(** A transaction that only reads depends on what it reads. *)
Lemma execAttempts_read {DB A} left i attempts (body : DB -> DB * outcome A) t1 t2 o :
  body t1 = (t1, o) -> body t2 = (t2, o) ->
  (execAttempts left i attempts body t1).2 = (execAttempts left i attempts body t2).2.
Proof.
  intros H1 H2. revert i. induction left as [|left IH]; intros i; cbn; [done|].
  destruct (aBegin _); [done|]. unfold body_run. destruct (aQuery _).
  - case_match; [apply IH|done].
  - rewrite H1, H2. destruct o; [by destruct (aCommit _)| |done].
    case_match; [apply IH|done].
Qed.

Section Reading.
Context `{LncLib}.

Definition reads : env := {| clock_Now := Session.zeroTime; attempts _ := clean |}.

Lemma GetSession_depends t t' e :
  filter (fun r => passphrase_entropy r = e) (rows t) =
    filter (fun r => passphrase_entropy r = e) (rows t') ->
  GetSession reads t e = GetSession reads t' e.
Proof.
  intros Hf. unfold GetSession. f_equal. apply execAttempts_read with (getBody e t).2; [done|].
  unfold getBody, SessionsDB.GetSession. cbn. by rewrite Hf.
Qed.

Lemma GetSession_row t e r l x :
  filter (fun r => passphrase_entropy r = e) (rows t) = r :: l -> sessionOfRow r = Ok x ->
  GetSession reads t e = Ok x.
Proof.
  intros Hf Hr. unfold GetSession, ExecTx, DefaultNumTxRetries.
  assert (Hb : getBody e t = (t, Ok x)).
  { unfold getBody, SessionsDB.GetSession. by rewrite Hf, Hr. }
  rewrite execAttempts_clean; [by rewrite Hb|done|]. intros db' er. by rewrite Hb.
Qed.

Lemma GetSession_Ok_inv t e x :
  GetSession reads t e = Ok x ->
  exists r l, filter (fun r => passphrase_entropy r = e) (rows t) = r :: l /\ sessionOfRow r = Ok x.
Proof.
  unfold GetSession. intros Hg%wrapf_Ok_inv.
  destruct (ExecTx _ _ _ t) as [t' o] eqn:E. cbn in Hg. subst.
  apply execAttempts_Ok in E. unfold getBody, SessionsDB.GetSession in E.
  destruct (filter _ (rows t)) as [|r l]; [done|]. exists r, l. split; [done|]. congruence.
Qed.

Lemma GetSession_absent t e :
  filter (fun r => passphrase_entropy r = e) (rows t) = [] ->
  GetSession reads t e = Err (Wrapf "failed to get session" ErrSessionNotFound).
Proof.
  intros Hf. unfold GetSession, ExecTx, DefaultNumTxRetries.
  assert (Hb : getBody e t = (t, Err ErrSessionNotFound)).
  { unfold getBody, SessionsDB.GetSession. by rewrite Hf. }
  rewrite execAttempts_clean; [by rewrite Hb|done|]. intros db' er. rewrite Hb. by intros [= <- <-].
Qed.

(** *** What the writing calls do, whatever the database does *)

Lemma AddSession_cases e t x t' r :
  AddSession e t x = (t', r) ->
  (is_ok r = false /\ t' = t) \/
  exists key new,
    Session.LocalStaticPrivKey x = Some key /\
    r = Ok (Session.set_created x (TruncateMicro (clock_Now e))) /\
    rows t' = rows t ++ [new] /\ constraints (rows t ++ [new]) /\
    passphrase_entropy new = Session.PassphraseEntropy x /\
    sessionOfRow new = Ok (Session.set_expiry (Session.set_remote
      (Session.set_local (Session.set_created x (dbTime (TruncateMicro (clock_Now e))))
         (PrivKeyFromBytes (Serialize key))) None) None).
Proof.
  unfold AddSession. destruct (Session.LocalStaticPrivKey x) as [key|] eqn:Hk;
    [|intros [= <- <-]; by left].
  destruct (ExecTx _ _ _ t) as [t1 [[]|er|m]] eqn:E; intros [= <- <-].
  - right. apply execAttempts_Ok in E. apply commit_rows_Ok in E as [-> Hc].
    eexists key, _. split_and!; try done.
  - left. split; [done|by eapply execAttempts_atomic].
  - left. split; [done|by eapply execAttempts_atomic].
Qed.

Lemma SetRemote_cases e t en k t' r :
  SetRemotePubKey e t en k = (t', r) ->
  (is_ok r = false /\ t' = t) \/
  (r = Ok tt /\ rows t' = updateRows (with_remote k) en (rows t) /\ constraints (rows t')).
Proof.
  unfold SetRemotePubKey. destruct (ExecTx _ _ _ t) as [t1 [[]|er|m]] eqn:E; intros [= <- <-].
  - right. apply execAttempts_Ok in E. by apply commit_rows_Ok in E as [-> Hc].
  - left. split; [done|by eapply execAttempts_atomic].
  - left. split; [done|by eapply execAttempts_atomic].
Qed.

Lemma SetExpiry_cases e t en u t' r :
  SetExpiry e t en u = (t', r) ->
  (is_ok r = false /\ t' = t) \/
  (r = Ok tt /\ rows t' = updateRows (with_expiry (Some (dbTime u))) en (rows t) /\
   constraints (rows t')).
Proof.
  unfold SetExpiry. destruct (ExecTx _ _ _ t) as [t1 [[]|er|m]] eqn:E; intros [= <- <-].
  - right. apply execAttempts_Ok in E. by apply commit_rows_Ok in E as [-> Hc].
  - left. split; [done|by eapply execAttempts_atomic].
  - left. split; [done|by eapply execAttempts_atomic].
Qed.

(** *** The database store implements the interface *)

#[global] Instance db_sessions : SessionStore store := {|
  Lnc.AddSession s x := update s (AddSession (world s (calls s)) (tbl s) x);
  Lnc.GetSession s e := GetSession reads (tbl s) e;
  Lnc.SetRemotePubKey s e k := update s (SetRemotePubKey (world s (calls s)) (tbl s) e k);
  Lnc.SetExpiry s e u := update s (SetExpiry (world s (calls s)) (tbl s) e u)
|}.

Lemma filter_snoc_entropy e l new :
  filter (fun r => passphrase_entropy r = e) (l ++ [new]) =
    filter (fun r => passphrase_entropy r = e) l ++
    (if decide (passphrase_entropy new = e) then [new] else []).
Proof. rewrite filter_app, filter_cons, filter_nil. by case_decide. Qed.

Lemma fresh_row l new :
  constraints (l ++ [new]) ->
  filter (fun r => passphrase_entropy r = passphrase_entropy new) l = [].
Proof.
  intros (_ & Hn & _). rewrite fmap_app in Hn. apply NoDup_app in Hn as (_ & Hd & _).
  apply filter_absent. intros Hin. apply (Hd _ Hin). by left.
Qed.

Lemma set_local_same x key :
  Session.LocalStaticPrivKey x = Some key -> Session.set_local x key = x.
Proof. destruct x. cbn. by intros ->. Qed.

Lemma TruncateMicro_db `{!LncLaws} u : dbTime (TruncateMicro u) = TruncateMicro u.
Proof.
  apply dbTime_micro. unfold TruncateMicro. cbn.
  rewrite Zminus_mod_idemp_r, Z.sub_diag. done.
Qed.

End Reading.

#[global] Instance db_sessions_laws `{LncLib} `{!LncLaws} : SessionStoreLaws store.
Proof.
  split; intros s; intros; cbn [Lnc.AddSession Lnc.GetSession Lnc.SetRemotePubKey Lnc.SetExpiry
    db_sessions] in *;
    match goal with Hu : update _ _ = _ |- _ => apply update_eq in Hu; rename Hu into Hc end.
  - apply AddSession_cases in Hc as [[? _]|(key & new & Hk & Hx & Hr & Hcs & He & Hs)]; [done|].
    injection Hx as ->. split; [done|].
    rewrite TruncateMicro_db, PrivKey_Serialize in Hs.
    eapply (GetSession_row _ _ new []).
    + rewrite Hr, filter_snoc_entropy, <- He, decide_True by done.
      by rewrite (fresh_row _ _ Hcs).
    + rewrite Hs. by rewrite set_local_same.
  - apply AddSession_cases in Hc as [[? _]|(key & new & _ & _ & _ & Hcs & He & _)]; [done|].
    rewrite <- He, GetSession_absent; [done|by apply fresh_row].
  - apply AddSession_cases in Hc as [[_ ->]|(key & new & _ & _ & Hr & _ & He & _)]; [done|].
    apply GetSession_depends. rewrite Hr, filter_snoc_entropy, decide_False by congruence.
    apply app_nil_r.
  - apply SetRemote_cases in Hc as [[? _]|(_ & Hr & _)]; [done|].
    match goal with Hg : _ = Ok _ |- _ => apply GetSession_Ok_inv in Hg as (r & l & Hf & Hs) end.
    eapply GetSession_row; [rewrite Hr, filter_update, decide_True by done; by rewrite Hf|].
    unfold sessionOfRow in *. cbn. rewrite ParsePubKey_Serialize. cbn.
    apply bind_Ok_inv in Hs as (? & _ & [= <-]). done.
  - apply SetRemote_cases in Hc as [[_ ->]|(_ & Hr & _)]; [done|].
    apply GetSession_depends. by rewrite Hr, filter_update, decide_False.
  - apply SetExpiry_cases in Hc as [[? _]|(_ & Hr & _)]; [done|].
    match goal with Hg : _ = Ok _ |- _ => apply GetSession_Ok_inv in Hg as (r & l & Hf & Hs) end.
    eapply GetSession_row; [rewrite Hr, filter_update, decide_True by done; by rewrite Hf|].
    unfold sessionOfRow in *. cbn.
    apply bind_Ok_inv in Hs as (? & -> & [= <-]). done.
  - apply SetExpiry_cases in Hc as [[_ ->]|(_ & Hr & _)]; [done|].
    apply GetSession_depends. by rewrite Hr, filter_update, decide_False.
  - by apply AddSession_cases in Hc as [[_ ->]|(key & new & _ & -> & _)].
  - by apply SetRemote_cases in Hc as [[_ ->]|(-> & _)].
  - by apply SetExpiry_cases in Hc as [[_ ->]|(-> & _)].
Qed.

End SessionsDBStore.

(** ** [lnc/lnc.go]: the connection to a node *)

(** [strings.Split] for a separator of two characters. *)
Fixpoint Split2 (a b : ascii) (s : string) : list string :=
  match s with
  | "" => [""]
  | String x s' =>
      match s' with
      | String y s'' =>
          if decide (x = a /\ y = b) then "" :: Split2 a b s''
          else match Split2 a b s' with
               | w :: ws => String x w :: ws
               | [] => [String x ""]
               end
      | "" => [String x ""]
      end
  end.

Module NodeConn.
Section NodeConn.
Context `{LncLib} `{L402Lib} {S : Type} `{!SessionStore S}.

Definition HeaderMacaroon : string := "Macaroon".

(** The connection below: whether it is open; closing is done once. *)
Record conn := { stopped : bool }.

Record t := { session : Session.t; nodeConn : option conn; macStr : string }.

(** What a connection does to the outside: it is closed, and its context is
    cancelled. *)
Inductive event := EClose | ECancel.

(** [conn.Close] with its [sync.Once]: the error of closing the transport is
    reported by the call that closes it. *)
Definition Close (grpcClose : outcome unit) (c : conn) : conn * list event * outcome unit :=
  if stopped c then (c, [], Ok tt) else ({| stopped := true |}, [EClose; ECancel], grpcClose).

Definition CloseConn (grpcClose : outcome unit) (n : t) : t * list event * outcome unit :=
  match nodeConn n with
  | None => (n, [], Err (Errorf "connection not open"))
  | Some c =>
      let '(c', ev, r) := Close grpcClose c in
      ({| session := session n; nodeConn := Some c'; macStr := macStr n |}, ev,
       wrapf "unable to close connection" r)
  end.

Definition Stop (grpcClose : outcome unit) (n : t) : t * list event * outcome unit :=
  match nodeConn n with Some _ => CloseConn grpcClose n | None => (n, [], Ok tt) end.

(** The client is the one of the open connection. *)
Definition Client (n : t) : outcome conn :=
  of_option (Errorf "connection not open") (nodeConn n).

(** The metadata of every call: the macaroon in its field. *)
Definition CtxFunc (n : t) : string * string := (HeaderMacaroon, macStr n).

(** The remote key goes to the store; the session in memory keeps the one it
    has. *)
Definition onRemoteStatic (key : PublicKey) (n : t) (s : S) : S * outcome unit :=
  SetRemotePubKey s (Session.PassphraseEntropy (session n)) (SerializeCompressed key).

Definition extractMacaroon (authData : list byte) : outcome macaroon :=
  match Split2 ":" " " (string_of authData) with
  | [name; hexMac] =>
      if decide (name ≠ HeaderMacaroon) then Err (Errorf "authdata does not contain a macaroon")
      else
        macBytes ← hex_DecodeString hexMac;
        if decide (macBytes = []) then Err (Errorf "no macaroon received during connman")
        else errorf "unable to decode macaroon" (mac_UnmarshalBinary macBytes)
  | _ => Err (Errorf "authdata does not contain a macaroon")
  end.

(** A failure to store the expiry is only logged. *)
Definition onAuthData (data : list byte) (n : t) (s : S) : t * S * outcome unit :=
  match (mac ← extractMacaroon data; macBytes ← mac_MarshalBinary mac; Ok (mac, macBytes)) with
  | Err er => (n, s, Err er)
  | Panic m => (n, s, Panic m)
  | Ok (mac, macBytes) =>
      let n1 := {| session := session n; nodeConn := nodeConn n;
                   macStr := hex_EncodeToString macBytes |} in
      match Session.Expiry (session n) with
      | Some _ => (n1, s, Ok tt)
      | None =>
          match ExpiryTime (mac_Caveats mac) with
          | None => (n1, s, Ok tt)
          | Some exp =>
              let '(s', _) := SetExpiry s (Session.PassphraseEntropy (session n)) exp in
              ({| session := Session.set_expiry (session n) (Some exp);
                  nodeConn := nodeConn n; macStr := macStr n1 |}, s', Ok tt)
          end
      end
  end.

(** *** Opening a connection

    The mailbox package is given the keys of the session and the two callbacks;
    it makes the transport, whose certificate a development server need not have
    signed, and during the handshake calls the callbacks for what the other side
    sends. *)
Record connData := {
  cdLocal : option PrivateKey;
  cdRemote : option PublicKey;
  cdEntropy : list byte
}.

Inductive callback := RemoteStatic (key : PublicKey) | AuthData (data : list byte).

(** The key generator, the transport, what the other side sends, and the result of
    the blocking dial, given how the callbacks ended. *)
Record env := {
  NewPrivateKey : outcome PrivateKey;
  NewGrpcClient : connData -> bool -> string -> outcome unit;
  messages : connData -> list callback;
  DialContext : connData -> outcome unit -> outcome unit
}.

Definition called (c : callback) (n : t) (s : S) : t * S * outcome unit :=
  match c with
  | RemoteStatic key => let '(s', r) := onRemoteStatic key n s in (n, s', r)
  | AuthData data => onAuthData data n s
  end.

(** The first callback that fails ends the handshake. *)
Fixpoint handshake (cs : list callback) (n : t) (s : S) : t * S * outcome unit :=
  match cs with
  | [] => (n, s, Ok tt)
  | c :: rest =>
      match called c n s with
      | (n', s', Ok _) => handshake rest n' s'
      | x => x
      end
  end.

Definition dataOf (sess : Session.t) : connData := {|
  cdLocal := Session.LocalStaticPrivKey sess;
  cdRemote := Session.RemoteStaticPubKey sess;
  cdEntropy := Session.PassphraseEntropy sess
|}.

(** The context of a connection that is not made is cancelled. *)
Definition newConn (e : env) (sess : Session.t) (n : t) (s : S) :
    t * S * list event * outcome conn :=
  match NewGrpcClient e (dataOf sess) (Session.DevServer sess) (Session.MailboxAddr sess) with
  | Ok _ =>
      let '(n1, s1, r) := handshake (messages e (dataOf sess)) n s in
      match DialContext e (dataOf sess) r with
      | Ok _ => (n1, s1, [], Ok {| stopped := false |})
      | Err er => (n1, s1, [ECancel], Err er)
      | Panic m => (n1, s1, [], Panic m)
      end
  | Err er => (n, s, [ECancel], Err er)
  | Panic m => (n, s, [], Panic m)
  end.

(** The end of [NewNodeConn], with the session it has settled on. *)
Definition connect (e : env) (s : S) (sess : Session.t) : S * list event * outcome t :=
  let '(n, s, ev, r) :=
    newConn e sess {| session := sess; nodeConn := None; macStr := "" |} s in
  (s, ev, c ← r; Ok {| session := session n; nodeConn := Some c; macStr := macStr n |}).

Definition NewNodeConn (e : env) (sess : Session.t) (s : S) : S * list event * outcome t :=
  match GetSession s (Session.PassphraseEntropy sess) with
  | Err er =>
      if errors_is er ErrSessionNotFound then
        match NewPrivateKey e with
        | Err e1 => (s, [], Err (Wrapf "unable to generate local static key" e1))
        | Panic m => (s, [], Panic m)
        | Ok localStatic =>
            match AddSession s (Session.set_local sess localStatic) with
            | (s', Ok sess') => connect e s' sess'
            | (s', Err e1) => (s', [], Err (Wrapf "unable to add new session" e1))
            | (s', Panic m) => (s', [], Panic m)
            end
        end
      else (s, [], Err (Wrapf "unable to get session" er))
  | Panic m => (s, [], Panic m)
  | Ok dbSession => connect e s dbSession
  end.

(** *** Lemmas *)

Lemma Split2_lacks a b s : lacks a s = true -> Split2 a b s = [s].
Proof.
  induction s as [|x s IH]; [done|]. rewrite lacks_cons. intros [Hx Hs].
  destruct s as [|y s]; [done|]. cbn [Split2] in *.
  rewrite decide_False by naive_solver. by rewrite (IH Hs).
Qed.

Lemma Split2_app a b p s :
  lacks a p = true -> Split2 a b (p +:+ String a (String b s)) = p :: Split2 a b s.
Proof.
  induction p as [|x p IH]; intros Hp.
  - cbn [String.append Split2]. by rewrite decide_True.
  - apply lacks_cons in Hp as [Hx Hp]. rewrite string_app_cons.
    specialize (IH Hp). destruct p as [|y p].
    + cbn [String.append] in *. cbn [Split2] in *. rewrite decide_False by naive_solver.
      rewrite IH. done.
    + rewrite string_app_cons in *. cbn [Split2] in *.
      rewrite decide_False by naive_solver. by rewrite IH.
Qed.

Lemma extract_sent `{!L402Laws} mac b :
  mac_MarshalBinary mac = Ok b ->
  extractMacaroon (bytes_of (HeaderMacaroon +:+ ": " +:+ hex_EncodeToString b)) = Ok mac.
Proof.
  intros Hm. unfold extractMacaroon. rewrite string_of_bytes_of.
  change (HeaderMacaroon +:+ ": " +:+ hex_EncodeToString b)
    with (HeaderMacaroon +:+ String ":" (String " " (hex_EncodeToString b))).
  rewrite Split2_app by done.
  rewrite Split2_lacks by (apply (lacks_if is_hex); [done|apply hex_encode_chars]).
  rewrite decide_False by naive_solver. rewrite hex_roundtrip. cbn [mbind outcome_bind].
  rewrite decide_False by by eapply Marshal_nonempty. by rewrite (Unmarshal_Marshal _ _ Hm).
Qed.

(** A session that is made and added is without remote key and expiry. *)
Lemma fresh_session passphrase addr dev sess key sess' :
  Session.NewSession passphrase addr dev = Ok sess ->
  sess' = Session.set_created (Session.set_local sess key) (Session.CreatedAt sess') ->
  Session.PassphraseEntropy sess' = Session.PassphraseEntropy sess /\
  dataOf sess' =
    {| cdLocal := Some key; cdRemote := None; cdEntropy := Session.PassphraseEntropy sess |} /\
  Session.Expiry sess' = None /\
  Session.set_expiry (Session.set_remote sess' None) None = sess'.
Proof.
  unfold Session.NewSession. intros Hn. repeat (case_decide; [done|]). injection Hn as <-.
  intros ->. done.
Qed.

(** An opening that succeeds: what the handshake made of the connection. *)
Lemma connect_Ok e s sess s1 ev n1 :
  (forall d r, is_ok (DialContext e d r) = true -> is_ok r = true) ->
  connect e s sess = (s1, ev, Ok n1) ->
  exists n, handshake (messages e (dataOf sess))
              {| session := sess; nodeConn := None; macStr := "" |} s = (n, s1, Ok tt) /\
    ev = [] /\ n1 = {| session := session n; nodeConn := Some {| stopped := false |}; macStr := macStr n |}.
Proof.
  intros Hd. unfold connect, newConn. destruct (NewGrpcClient _ _ _ _) as [u| |]; [|done..].
  destruct (handshake _ _ _) as [[n s'] r]. destruct (DialContext e (dataOf sess) r) eqn:E; [|done..].
  specialize (Hd (dataOf sess) r). rewrite E in Hd. destruct r as [[]| |]; try (by discriminate Hd).
  intros [= <- <- <-]. by exists n.
Qed.

(** An opening leaves a live context behind exactly when it succeeds. *)
Lemma opening_cancels e sess s s' ev r :
  NewNodeConn e sess s = (s', ev, r) ->
  match r with
  | Ok n => ev = [] /\ nodeConn n = Some {| stopped := false |}
  | _ => EClose ∉ ev
  end.
Proof.
  assert (Hc : forall s sess s' ev r, connect e s sess = (s', ev, r) ->
    match r with Ok n => ev = [] /\ nodeConn n = Some {| stopped := false |} | _ => EClose ∉ ev end).
  { intros s2 x s3 ev2 r2. unfold connect, newConn. 
    destruct (NewGrpcClient _ _ _ _) as [u|e1|m1]; [|intros [= <- <- <-]; set_solver..].
    destruct (handshake _ _ _) as [[n3 s4] r3].
    destruct (DialContext _ _ _) as [u'|e2|m2]; intros [= <- <- <-]; [done|set_solver..]. }
  unfold NewNodeConn. destruct (GetSession s _) as [x|er|m].
  - apply Hc.
  - destruct (errors_is _ _); [|intros [= <- <- <-]; set_solver].
    destruct (NewPrivateKey e) as [key|e1|m]; [|intros [= <- <- <-]; set_solver..].
    destruct (AddSession s _) as [s2 [x|e1|m]]; [apply Hc|intros [= <- <- <-]; set_solver..].
  - intros [= <- <- <-]. set_solver.
Qed.

(** However often it is stopped, a connection is closed and its context cancelled
    once. *)
Fixpoint stops (closes : list (outcome unit)) (n : t) : list event :=
  match closes with
  | [] => []
  | r :: rest => let '(n', ev, _) := Stop r n in ev ++ stops rest n'
  end.

Lemma stops_stopped closes n :
  nodeConn n = Some {| stopped := true |} -> stops closes n = [].
Proof.
  intros Hn. induction closes as [|r closes IH]; [done|]. cbn [stops]. unfold Stop, CloseConn.
  rewrite Hn. cbn. destruct n as [x c m]. cbn in Hn. by subst c.
Qed.

Lemma closed_once r closes n :
  nodeConn n = Some {| stopped := false |} -> stops (r :: closes) n = [EClose; ECancel].
Proof.
  intros Hn. cbn [stops]. unfold Stop, CloseConn. rewrite Hn. cbn.
  by rewrite stops_stopped.
Qed.

End NodeConn.
End NodeConn.

(** ** Properties *)
Module LncProperties.
Import NodeConn.

(** Keys are their bytes, an instant is kept as it is, and every macaroon
    expires at the same time, for concrete runs. *)
Definition toy_lnc : LncLib := {|
  PublicKey := list byte; PrivateKey := list byte;
  SerializeCompressed k := k; ParsePubKey := Ok; Serialize k := k; PrivKeyFromBytes k := k;
  NumPassphraseWords := 2; PassphraseMnemonicToEntropy ws := bytes_of (Join ws "-");
  ExpiryTime _ := Some (Unix 7); dbTime u := u
|}.
Lemma toy_lnc_laws : LncLaws (H := toy_lnc).
Proof. by split. Qed.

(** the database store implements the session store the connection is written
    against: an added session is read back under its entropy with its keys and
    its creation date, a remote key and an expiry that are set later are read
    back with it, other sessions are untouched, and a failed call changes
    nothing. *)
Theorem database_implements_SessionStore `{LncLib} `{!LncLaws} :
  SessionStoreLaws SessionsDBStore.store.
Proof. apply SessionsDBStore.db_sessions_laws. Qed.

Lemma database_implements_SessionStore_witness :
  SessionStoreLaws (H := toy_lnc) (SessionsDBStore.store).
Proof. apply (@database_implements_SessionStore toy_lnc toy_lnc_laws). Defined.

(** C26: a session survives a restart: after it was opened for the first time with
    a fresh local key, and the other side sent its static key and a macaroon that
    expires, opening a session for the same passphrase again connects with the
    same local key, the received remote key and the expiry of the macaroon, to the
    microsecond, and adds nothing to the store.  Only when the store refused to record
    the expiry at that very call, which the code logs and passes over, the session
    comes back without one. *)
Theorem session_survives_restart `{LncLib} `{L402Lib} `{!L402Laws} {S : Type} `{!SessionStore S}
    `{!SessionStoreLaws S} e passphrase addr dev sess (s0 s1 : S) ev n1 key k mac b exp :
  Session.NewSession passphrase addr dev = Ok sess ->
  (exists er, GetSession s0 (Session.PassphraseEntropy sess) = Err er /\
              errors_is er ErrSessionNotFound = true) ->
  NewPrivateKey e = Ok key ->
  messages e {| cdLocal := Some key; cdRemote := None; cdEntropy := Session.PassphraseEntropy sess |} =
    [RemoteStatic k; AuthData (bytes_of (HeaderMacaroon +:+ ": " +:+ hex_EncodeToString b))] ->
  (forall d r, is_ok (DialContext e d r) = true -> is_ok r = true) ->
  mac_MarshalBinary mac = Ok b -> ExpiryTime (mac_Caveats mac) = Some exp ->
  NewNodeConn e sess s0 = (s1, ev, Ok n1) ->
  (* the three calls of the store *)
  let sa := (AddSession s0 (Session.set_local sess key)).1 in
  let s2 := (SetRemotePubKey sa (Session.PassphraseEntropy sess) (SerializeCompressed k)).1 in
  let r3 := (SetExpiry s2 (Session.PassphraseEntropy sess) exp).2 in
  macStr n1 = hex_EncodeToString b /\ Session.Expiry (session n1) = Some exp /\
  exists x, GetSession s1 (Session.PassphraseEntropy sess) = Ok x /\
    dataOf x = {| cdLocal := Some key; cdRemote := Some k; cdEntropy := Session.PassphraseEntropy sess |} /\
    Session.Expiry x = (if is_ok r3 then Some (dbTime exp) else None) /\
    forall e', NewNodeConn e' sess s1 = connect e' s1 x.
Proof.
  intros Hn (er & Hg & Hnf) Hk Hmsg Hdial Hm Hx Hopen.
  unfold NewNodeConn in Hopen. rewrite Hg, Hnf, Hk in Hopen.
  destruct (AddSession s0 (Session.set_local sess key)) as [sa [sess'| |]] eqn:Ha; [|discriminate..].
  apply session_added in Ha as [Hs' Hget]. cbn in Hget. cbn [fst].
  destruct (fresh_session _ _ _ _ _ _ Hn Hs') as (E & Hd & Hne & Hs1). rewrite Hs1 in Hget.
  apply connect_Ok in Hopen as (n & Hh & -> & ->); [|exact Hdial]. cbn [macStr session].
  rewrite Hd, Hmsg in Hh. cbn [handshake called] in Hh. unfold onRemoteStatic in Hh. cbn [session] in Hh.
  rewrite E in Hh.
  destruct (SetRemotePubKey sa _ _) as [s2 [[]| |]] eqn:Hr; [|done..]. cbn [fst].
  eapply session_remote in Hr; [|exact Hget].
  unfold onAuthData in Hh. rewrite (extract_sent _ _ Hm) in Hh. cbn [mbind outcome_bind] in Hh.
  rewrite Hm in Hh. cbn [mbind outcome_bind session nodeConn macStr] in Hh. rewrite Hne, Hx, E in Hh.
  destruct (SetExpiry s2 (Session.PassphraseEntropy sess) exp) as [s3 r3] eqn:He. cbn [snd].
  injection Hh as <- <-. split; [done|]. split; [done|].
  destruct (is_ok r3) eqn:Hok.
  - destruct r3 as [[]| |]; [|done..]. eapply session_expiry in He; [|exact Hr].
    eexists. split; [exact He|]. split; [unfold dataOf; rewrite Hs'; cbn; by rewrite <- E, Hs'|].
    split; [done|]. intros e'. unfold NewNodeConn. by rewrite He.
  - pose proof (session_expiry_fails _ _ _ _ _ (Session.PassphraseEntropy sess) He Hok) as Hsame.
    rewrite Hr in Hsame. eexists. split; [exact Hsame|].
    split; [unfold dataOf; rewrite Hs'; cbn; by rewrite <- E, Hs'|].
    split; [done|]. intros e'. unfold NewNodeConn. by rewrite Hsame.
Qed.

Section Toy.
#[local] Existing Instance toy_lnc.
#[local] Existing Instance ToyLib.lib.

Definition toy_store : SessionsDBStore.store := {|
  Running.tbl := {| SessionsDB.rows := []; SessionsDB.nextId := 1 |};
  Running.world _ := SessionsDBStore.reads; Running.calls := 0 |}.
Definition toy_session : Session.t := {|
  Session.PassphraseWords := "two words"; Session.PassphraseEntropy := bytes_of "two-words";
  Session.RemoteStaticPubKey := None; Session.LocalStaticPrivKey := None;
  Session.MailboxAddr := "mailbox"; Session.CreatedAt := Session.zeroTime;
  Session.Expiry := None; Session.DevServer := false |}.
Definition toy_mac : macaroon :=
  {| ToyLib.tId := [Byte.x01]; ToyLib.tSig := [Byte.x02]; ToyLib.tCavs := [] |}.
Definition toy_auth_data : list byte :=
  bytes_of (HeaderMacaroon +:+ ": " +:+ hex_EncodeToString (ToyLib.marshal toy_mac)).

(** The other side sends its key and its macaroon to a side it does not know. *)
Definition toy_node_env : NodeConn.env := {|
  NewPrivateKey := Ok [Byte.x01];
  NewGrpcClient _ _ _ := Ok tt;
  messages d :=
    match cdRemote d with
    | None => [RemoteStatic [Byte.x02]; AuthData toy_auth_data]
    | Some _ => [AuthData toy_auth_data]
    end;
  DialContext _ r := r
|}.

Lemma session_survives_restart_witness :
  let r := NewNodeConn toy_node_env toy_session toy_store in
  exists n1 x, r.2 = Ok n1 /\ GetSession r.1.1 (bytes_of "two-words") = Ok x /\
    dataOf x = {| cdLocal := Some [Byte.x01]; cdRemote := Some [Byte.x02];
                  cdEntropy := bytes_of "two-words" |}.
Proof.
  intros r.
  destruct (r.2) as [n1| |] eqn:E; [|vm_compute in E; discriminate E..].
  destruct (session_survives_restart (H0 := ToyLib.lib) (H1 := ToyLib.laws)
    (SessionStoreLaws0 := @SessionsDBStore.db_sessions_laws toy_lnc toy_lnc_laws)
    toy_node_env "two words" "mailbox" false toy_session toy_store r.1.1 r.1.2 n1
    [Byte.x01] [Byte.x02] toy_mac (ToyLib.marshal toy_mac) (Unix 7))
    as (_ & _ & x & Hx & Hd & _); try (vm_compute; reflexivity).
  - eexists. split; [vm_compute; reflexivity|reflexivity].
  - intros d o Ho. exact Ho.
  - rewrite <- E. exact (eq_trans (surjective_pairing r) (f_equal (fun p => (p, r.2)) (surjective_pairing r.1))).
  - exists n1, x. split; [reflexivity|]. split; [exact Hx|exact Hd].
Defined.
End Toy.

End LncProperties.
