(* ===== verification/HashMail.v ===== *)
(** * The mailbox server of [hashmail_server.go]

    A mailbox is a pipe with one read end and one write end.  [Frames] is what
    happens to the bytes of the messages on their way through the two [io.Pipe]s
    of a stream; [HashMail] is the server: the table of streams, the two tokens
    of a stream, its stale timer, and the calls as steps of a transition
    system. *)
From stdpp Require Import gmultiset.
From S2P Require Import Prelude.
From S2P Require Import GoStrings.
From S2P Require Import GoCodec.

(** ** Framing

    The variable length integers are those of lnd's [tlv] package. *)
Class VarInt := {
  WriteVarInt : Z -> list byte;
  ReadVarInt : list byte -> outcome (Z * list byte)
}.

Class VarIntLaws `{VarInt} : Prop := {
  VarInt_roundtrip n rest : is_u64 n -> ReadVarInt (WriteVarInt n ++ rest) = Ok (n, rest)
}.

Module Frames.

Definition DefaultBufSize : nat := Z.to_nat 4096.

Lemma buf_pos : (0 < DefaultBufSize)%nat.
Proof. apply Nat.ltb_lt. by vm_compute. Qed.
#[local] Opaque DefaultBufSize.

(** The buffer of [io.Copy]. *)
Definition copyBufSize : nat := 8 * DefaultBufSize.

(** The pieces in which a reader with a buffer of [n] bytes gets what one
    [Write] puts into an [io.Pipe]; each piece takes at least one byte, so the
    length of the bytes is fuel enough. *)
Fixpoint pieces_go (fuel n : nat) (b : list byte) : list (list byte) :=
  match fuel with
  | O => []
  | S f => match b with
           | [] => []
           | _ => take n b :: pieces_go f n (drop n b)
           end
  end.
Definition pieces (n : nat) (b : list byte) : list (list byte) := pieces_go (length b) n b.

Section Frames.
Context `{VI : VarInt}.

(** [writeStream.WriteMsg]: the bytes of one [Write]. *)
Definition frame (msg : list byte) : list byte :=
  WriteVarInt (u64 (Z.of_nat (length msg))) ++ msg.

(** What the reading goroutine of [newStream] gets for it, one [Read] after the
    other: the copying goroutine has cut it before. *)
Definition chunksOf (b : list byte) : list (list byte) :=
  concat (pieces DefaultBufSize <$> pieces copyBufSize b).

(** One round of the reading goroutine: it joins full buffers to the buffer that
    follows them and hands the result on.  [None] when it waits for more. *)
Fixpoint assemble (acc : list byte) (chunks : list (list byte)) :
    option (list byte * list (list byte)) :=
  match chunks with
  | [] => None
  | c :: rest =>
      if decide (length c = DefaultBufSize) then assemble (acc ++ c) rest
      else Some (acc ++ c, rest)
  end.

(** What is left when the reading goroutine, at its [select], has given up the bytes
    of [n] rounds. *)
Fixpoint giveUp (n : nat) (chunks : list (list byte)) : option (list (list byte)) :=
  match n with
  | O => Some chunks
  | S n => '(_, rest) ← assemble [] chunks; giveUp n rest
  end.

(** [readStream.ReadNextMsg]: of the bytes handed on, the message is what the
    length at their head says; what follows it is dropped. *)
Definition nextMsg (b : list byte) : outcome (list byte) :=
  '(msgLen, rest) ← ReadVarInt b;
  Ok (take (Z.to_nat (i64 msgLen)) rest).

End Frames.

(** *** Cutting a frame twice is cutting it once *)

Lemma pieces_go_fuel f f' n b :
  (0 < n)%nat -> (length b <= f)%nat -> (length b <= f')%nat ->
  pieces_go f n b = pieces_go f' n b.
Proof.
  intros Hn. revert f' b. induction f as [|f IH]; intros f' b Hf Hf'.
  - destruct b; cbn [length] in Hf; [by destruct f'|lia].
  - destruct b as [|x b]; [by destruct f'|]. destruct f' as [|f']; cbn [length] in *; [lia|].
    cbn [pieces_go]. f_equal. apply IH; rewrite length_drop; cbn [length]; lia.
Qed.

Lemma pieces_cons n b :
  (0 < n)%nat -> b ≠ [] -> pieces n b = take n b :: pieces n (drop n b).
Proof.
  intros Hn Hb. destruct b as [|x b]; [done|]. unfold pieces at 1. cbn [length pieces_go].
  f_equal. unfold pieces. apply pieces_go_fuel; rewrite ?length_drop; cbn [length]; lia.
Qed.

Lemma pieces_small n b : (length b <= n)%nat -> b ≠ [] -> pieces n b = [b].
Proof.
  intros Hl Hb. assert (0 < length b)%nat by (destruct b; [done|cbn; lia]).
  rewrite pieces_cons by (done || lia). by rewrite take_ge, drop_ge by done.
Qed.

Lemma pieces_app n k a b :
  (0 < n)%nat -> length a = (k * n)%nat -> pieces n (a ++ b) = pieces n a ++ pieces n b.
Proof.
  intros Hn. revert a. induction k as [|k IH]; intros a Ha.
  - by destruct a.
  - assert (Hane : a ≠ []) by (intros ->; cbn in Ha; lia).
    rewrite pieces_cons by (done || (by intros [??]%app_nil)).
    rewrite (pieces_cons n a) by done. cbn [app].
    rewrite take_app_le, drop_app_le by lia. f_equal.
    apply IH. rewrite length_drop. lia.
Qed.

Lemma chunksOf_pieces b : chunksOf b = pieces DefaultBufSize b.
Proof.
  unfold chunksOf. remember (length b) as n eqn:Hn.
  revert b Hn. induction n as [n IH] using lt_wf_ind. intros b Hn.
  destruct (decide (b = [])) as [->|Hb]; [done|].
  rewrite (pieces_cons copyBufSize) by (done || (unfold copyBufSize; pose proof buf_pos; lia)).
  cbn [fmap list_fmap concat].
  assert (Hl : (0 < length b)%nat) by (destruct b; [done|cbn; lia]).
  rewrite (IH (length (drop copyBufSize b))) by
    (rewrite ?length_drop; unfold copyBufSize in *; pose proof buf_pos; lia || done).
  destruct (decide (copyBufSize <= length b)%nat).
  - rewrite <- (pieces_app _ 8) by (rewrite ?length_take; unfold copyBufSize in *; pose proof buf_pos; lia).
    by rewrite take_drop.
  - rewrite take_ge, drop_ge by lia. by rewrite app_nil_r.
Qed.

(** A frame that does not end with a full buffer is handed on alone and whole. *)
Lemma assemble_pieces acc b rest :
  (length b mod DefaultBufSize ≠ 0)%nat ->
  assemble acc (pieces DefaultBufSize b ++ rest) = Some (acc ++ b, rest).
Proof.
  remember (length b) as n eqn:Hn. revert acc b Hn.
  induction n as [n IH] using lt_wf_ind. intros acc b Hn Hm.
  assert (Hb : b ≠ []) by (intros ->; cbn in Hn; subst; done).
  destruct (decide (length b <= DefaultBufSize)%nat) as [Hl|Hl].
  - rewrite pieces_small by done. cbn [app assemble]. rewrite decide_False; [done|].
    intros E. apply Hm. by rewrite Hn, E, Nat.Div0.mod_same.
  - rewrite pieces_cons by (done || apply buf_pos). cbn [app assemble].
    rewrite decide_True by (rewrite length_take; lia).
    rewrite (IH (length (drop DefaultBufSize b))).
    + by rewrite <- (assoc_L (++)), take_drop.
    + rewrite length_drop. pose proof buf_pos. lia.
    + done.
    + rewrite length_drop, <- Hn. intros E. apply Hm.
      replace n with (n - DefaultBufSize + 1 * DefaultBufSize)%nat by (pose proof buf_pos; lia).
      by rewrite Nat.Div0.mod_add.
Qed.

(** A frame that does is held back and joined to what follows. *)
Lemma assemble_full acc k b rest :
  length b = (k * DefaultBufSize)%nat ->
  assemble acc (pieces DefaultBufSize b ++ rest) = assemble (acc ++ b) rest.
Proof.
  revert acc b. induction k as [|k IH]; intros acc b Hb.
  - destruct b; [|done]. by rewrite app_nil_r.
  - assert (Hne : b ≠ []) by (intros ->; cbn in Hb; pose proof buf_pos; lia).
    rewrite pieces_cons by (done || apply buf_pos). cbn [app assemble].
    rewrite decide_True by (rewrite length_take; pose proof buf_pos; lia).
    rewrite IH by (rewrite length_drop; pose proof buf_pos; lia).
    by rewrite <- (assoc_L (++)), take_drop.
Qed.

Section Messages.
Context `{VarInt} `{!VarIntLaws}.

(** A message that fits a Go slice. *)
Definition sized (msg : list byte) : Prop := Z.of_nat (length msg) <= maxInt64.

Lemma nextMsg_frame msg rest : sized msg -> nextMsg (frame msg ++ rest) = Ok msg.
Proof.
  unfold sized, maxInt64, nextMsg, frame. intros Hs.
  assert (Hu : is_u64 (Z.of_nat (length msg))) by (unfold is_u64; lia).
  rewrite u64_small by done. rewrite <- (assoc_L (++)), VarInt_roundtrip by done. cbn.
  rewrite i64_small by (unfold is_i64, minInt64, maxInt64; lia).
  by rewrite Nat2Z.id, take_app_length.
Qed.

(** A message whose frame does not fill the last buffer. *)
Definition unaligned (msg : list byte) : Prop :=
  (length (frame msg) mod DefaultBufSize ≠ 0)%nat.

Lemma assemble_unaligned msg rest :
  unaligned msg -> assemble [] (chunksOf (frame msg) ++ rest) = Some (frame msg, rest).
Proof. intros Hu. rewrite chunksOf_pieces. by rewrite assemble_pieces. Qed.

Lemma assemble_aligned msg next rest :
  ~ unaligned msg -> unaligned next ->
  assemble [] (chunksOf (frame msg) ++ chunksOf (frame next) ++ rest)
    = Some (frame msg ++ frame next, rest).
Proof.
  intros Ha Hu. rewrite !chunksOf_pieces.
  destruct (decide (length (frame msg) mod DefaultBufSize = 0)%nat) as [Hm|Hm]; [|done].
  rewrite (assemble_full _ (length (frame msg) / DefaultBufSize)).
  - rewrite assemble_pieces by done. done.
  - pose proof (Nat.div_mod_eq (length (frame msg)) DefaultBufSize). lia.
Qed.

End Messages.

End Frames.

(** ** The server *)
Module HashMail.
Import Frames.

Definition newStreamID (id : list byte) : list byte := copy_array 64 id.
Definition baseID (s : list byte) : list byte := copy_array 16 (take 16 s).
Definition isOdd (s : list byte) : bool :=
  Z.land (byte_val (nth 63 s Byte.x00)) 1 =? 1.

(** *** [streamStatus]: the occupancy of the two ends and the stale timer *)
Record streamStatus := {
  disabled : bool;
  staleTimer : bool;          (* armed *)
  readStreamOccupied : bool;
  writeStreamOccupied : bool
}.

Definition newStreamStatus (staleTimeout : Z) : streamStatus :=
  if decide (staleTimeout < 0)
  then {| disabled := true; staleTimer := false;
          readStreamOccupied := false; writeStreamOccupied := false |}
  else {| disabled := false; staleTimer := true;
          readStreamOccupied := false; writeStreamOccupied := false |}.

Definition stop (s : streamStatus) : streamStatus :=
  if disabled s then s
  else {| disabled := false; staleTimer := false;
          readStreamOccupied := readStreamOccupied s;
          writeStreamOccupied := writeStreamOccupied s |}.

Definition streamTaken (read : bool) (s : streamStatus) : streamStatus :=
  if disabled s then s
  else {| disabled := false; staleTimer := false;
          readStreamOccupied := if read then true else readStreamOccupied s;
          writeStreamOccupied := if read then writeStreamOccupied s else true |}.

Definition streamReturned (read : bool) (s : streamStatus) : streamStatus :=
  if disabled s then s
  else
    let r := if read then false else readStreamOccupied s in
    let w := if read then writeStreamOccupied s else false in
    {| disabled := false;
       staleTimer := if negb r && negb w then true else staleTimer s;
       readStreamOccupied := r; writeStreamOccupied := w |}.

(** *** [stream]

    The two channels of capacity one hold the read and the write end while
    nobody uses them; [chunks] are the bytes in the two pipes, and [readErrTaken]
    says that a reader has had the error of the reading goroutine. *)
Record stream := {
  sId : list byte;
  readStreamChan : bool;
  writeStreamChan : bool;
  quitClosed : bool;
  status : streamStatus;
  chunks : list (list byte);
  readErrTaken : bool
}.

Definition set_status (st : stream) (s : streamStatus) : stream :=
  {| sId := sId st; readStreamChan := readStreamChan st; writeStreamChan := writeStreamChan st;
     quitClosed := quitClosed st; status := s; chunks := chunks st; readErrTaken := readErrTaken st |}.
Definition set_chunks (st : stream) (c : list (list byte)) : stream :=
  {| sId := sId st; readStreamChan := readStreamChan st; writeStreamChan := writeStreamChan st;
     quitClosed := quitClosed st; status := status st; chunks := c;
     readErrTaken := readErrTaken st |}.
Definition end_of_pipe (st : stream) : stream :=
  {| sId := sId st; readStreamChan := readStreamChan st; writeStreamChan := writeStreamChan st;
     quitClosed := quitClosed st; status := status st; chunks := []; readErrTaken := true |}.
Definition set_chans (st : stream) (r w : bool) : stream :=
  {| sId := sId st; readStreamChan := r; writeStreamChan := w;
     quitClosed := quitClosed st; status := status st; chunks := chunks st; readErrTaken := readErrTaken st |}.

Definition newStream (id : list byte) (staleTimeout : Z) : stream :=
  {| sId := id; readStreamChan := true; writeStreamChan := true; quitClosed := false;
     status := newStreamStatus staleTimeout; chunks := []; readErrTaken := false |}.

(** The second [close(s.quit)] panics; by then the timer has been stopped. *)
Definition tearDown (st : stream) : outcome stream :=
  if quitClosed st then Panic "close of closed channel"
  else Ok {| sId := sId st; readStreamChan := readStreamChan st;
             writeStreamChan := writeStreamChan st; quitClosed := true;
             status := stop (status st); chunks := chunks st; readErrTaken := readErrTaken st |}.

Definition RequestReadStream (st : stream) : outcome stream :=
  if readStreamChan st
  then Ok (set_chans (set_status st (streamTaken true (status st))) false (writeStreamChan st))
  else Err (Errorf "read stream occupied").

Definition RequestWriteStream (st : stream) : outcome stream :=
  if writeStreamChan st
  then Ok (set_chans (set_status st (streamTaken false (status st))) (readStreamChan st) false)
  else Err (Errorf "write stream occupied").

(** *** [hashMailServer]

    Streams are shared by reference between the table and the handlers: [heap]
    holds every stream ever made, and the table the index of the live ones. *)
Record hashMailServerConfig := { msgRate : Z; msgBurstAllowance : Z; staleTimeout : Z }.

Record hashMailServer := {
  streams : gmap (list byte) nat;
  heap : list stream;
  cfg : hashMailServerConfig
}.

Definition DefaultMsgRate : Z := 500 * 1000000.
Definition DefaultMsgBurstAllowance : Z := 10.
Definition DefaultStaleTimeout : Z := 3600 * 1000000000.

Definition newHashMailServer (c : hashMailServerConfig) : hashMailServer :=
  {| streams := ∅; heap := [];
     cfg := {| msgRate := if decide (msgRate c = 0) then DefaultMsgRate else msgRate c;
               msgBurstAllowance := if decide (msgBurstAllowance c = 0)
                                    then DefaultMsgBurstAllowance else msgBurstAllowance c;
               staleTimeout := if decide (staleTimeout c = 0)
                               then DefaultStaleTimeout else staleTimeout c |} |}.

Definition set_stream (h : hashMailServer) (i : nat) (st : stream) : hashMailServer :=
  {| streams := streams h; heap := <[i := st]> (heap h); cfg := cfg h |}.
Definition forget_stream (h : hashMailServer) (id : list byte) : hashMailServer :=
  {| streams := delete id (streams h); heap := heap h; cfg := cfg h |}.

(** A stream of the table. *)
Definition find (id : list byte) (h : hashMailServer) : outcome (nat * stream) :=
  i ← of_option (Errorf "stream not found") (streams h !! id);
  st ← of_option (Errorf "stream not found") (heap h !! i);
  Ok (i, st).

(** [Stop]: the streams stay in the table. *)
Definition Stop (h : hashMailServer) : outcome hashMailServer :=
  foldr (fun i o => h ← o;
           match heap h !! i with
           | Some st => st' ← tearDown st; Ok (set_stream h i st')
           | None => Ok h
           end) (Ok h) ((map_to_list (streams h)).*2).

Definition tearDownStaleStream (id : list byte) (h : hashMailServer) : outcome hashMailServer :=
  '(i, st) ← find id h;
  st' ← tearDown st;
  Ok (forget_stream (set_stream h i st') id).

(** A [CipherBoxAuth] message: the descriptor, its stream id, and whether the
    kind of authentication is given.  The first two can be absent. *)
Record CipherBoxAuth := { Desc : option (option (list byte)); hasAuth : bool }.

Definition validateAuthReq (req : CipherBoxAuth) : outcome (list byte) :=
  match Desc req with
  | None => Err (Errorf "cipher box descriptor required")
  | Some None => Err (Errorf "stream_id required")
  | Some (Some id) => if hasAuth req then Ok id else Err (Errorf "auth type required")
  end.

(** [ValidateStreamAuth] and [equivAuth] accept everything. *)
Definition ValidateStreamAuth (init : CipherBoxAuth) : outcome unit := Ok tt.
Definition equivAuth (auth : CipherBoxAuth) : outcome unit := Ok tt.

Definition InitStream (streamId : list byte) (h : hashMailServer) : outcome hashMailServer :=
  let streamID := newStreamID streamId in
  match streams h !! streamID with
  | Some _ => Err (Errorf "stream already active")
  | None => Ok {| streams := <[streamID := length (heap h)]> (streams h);
                  heap := heap h ++ [newStream streamID (staleTimeout (cfg h))];
                  cfg := cfg h |}
  end.

Definition LookUpReadStream (streamID : list byte) (h : hashMailServer) :
    outcome (nat * hashMailServer) :=
  '(i, st) ← find (newStreamID streamID) h;
  st' ← RequestReadStream st;
  Ok (i, set_stream h i st').

Definition LookUpWriteStream (streamID : list byte) (h : hashMailServer) :
    outcome (nat * hashMailServer) :=
  '(i, st) ← find (newStreamID streamID) h;
  st' ← RequestWriteStream st;
  Ok (i, set_stream h i st').

Definition TearDownStream (streamID : list byte) (auth : CipherBoxAuth) (h : hashMailServer) :
    outcome hashMailServer :=
  let sid := newStreamID streamID in
  '(i, st) ← find sid h;
  _ ← errorf "invalid auth" (equivAuth auth);
  _ ← ValidateStreamAuth auth;
  st' ← tearDown st;
  Ok (forget_stream (set_stream h i st') sid).

Definition NewCipherBox (init : CipherBoxAuth) (h : hashMailServer) : outcome hashMailServer :=
  id ← validateAuthReq init;
  _ ← ValidateStreamAuth init;
  InitStream id h.

Definition DelCipherBox (auth : CipherBoxAuth) (h : hashMailServer) : outcome hashMailServer :=
  id ← validateAuthReq auth;
  TearDownStream id auth h.

(** *** The two streaming calls, step by step

    [SendStream] looks at the first message to find its stream. *)
Definition openSendStream (desc : option (option (list byte))) (h : hashMailServer) :
    outcome (nat * hashMailServer) :=
  match desc with
  | None => Err (Errorf "cipher box descriptor required")
  | Some None => Err (Errorf "stream_id required")
  | Some (Some id) => LookUpWriteStream id h
  end.

Section Calls.
Context `{VI : VarInt}.

Definition WriteMsg (limiter : outcome unit) (i : nat) (msg : list byte) (h : hashMailServer) :
    outcome hashMailServer :=
  _ ← limiter;
  st ← of_option (Errorf "no stream") (heap h !! i);
  if quitClosed st then Err (Sentinel "io.ErrClosedPipe")
  else Ok (set_stream h i (set_chunks st (chunks st ++ chunksOf (frame msg)))).

(** The cases of the [select] of [ReadNextMsg]: bytes from [readBytesChan], after the
    reading goroutine has taken its own [quit] case instead [n] times; the error of
    its last read, which it puts into [readErrChan] once; the context of the call. *)
Inductive received_on := Bytes (n : nat) | ReadErr | CtxDone (e : error).

(** [None] when the case cannot happen; the call blocks as long as none can.  Only a
    stream that is torn down gives bytes up and comes to the end of its pipe, and
    then nothing more comes out of it. *)
Definition ReadNextMsg (on : received_on) (i : nat) (h : hashMailServer) :
    option (outcome (list byte) * hashMailServer) :=
  st ← heap h !! i;
  match on with
  | Bytes n =>
      if decide (n = 0%nat \/ quitClosed st = true) then
        left ← giveUp n (chunks st);
        '(b, rest) ← assemble [] left;
        Some (nextMsg b, set_stream h i (set_chunks st rest))
      else None
  | ReadErr =>
      if quitClosed st && negb (readErrTaken st)
      then Some (Err (Sentinel "io.EOF"), set_stream h i (end_of_pipe st)) else None
  | CtxDone e => Some (Err e, h)
  end.

(** [ReturnReadStream] and [ReturnWriteStream] first put the end back into its
    channel, which blocks ([None]) if that is full, and then tell the status. *)
Definition putBack (read : bool) (i : nat) (h : hashMailServer) : option hashMailServer :=
  st ← heap h !! i;
  if (if read then readStreamChan st else writeStreamChan st) then None
  else Some (set_stream h i (set_chans st (if read then true else readStreamChan st)
                                          (if read then writeStreamChan st else true))).
Definition tellReturned (read : bool) (i : nat) (h : hashMailServer) : option hashMailServer :=
  st ← heap h !! i;
  Some (set_stream h i (set_status st (streamReturned read (status st)))).

(** *** The server and its handlers

    [readers] and [writers] are the handlers that use an end of a stream,
    [leaving] those that put it back and have not told the status yet, and
    [fired] the timers that have gone off and whose callbacks wait for the lock
    of the server.  Time is not modelled: an armed timer may go off at any
    moment. *)
Record world := {
  srv : hashMailServer;
  readers : gmultiset nat;
  writers : gmultiset nat;
  leaving : list (bool * nat);
  fired : list (list byte)
}.

Definition at_srv (w : world) (h : hashMailServer) : world :=
  {| srv := h; readers := readers w; writers := writers w; leaving := leaving w;
     fired := fired w |}.

Inductive event :=
  | ENew (init : CipherBoxAuth)
  | EDel (auth : CipherBoxAuth)
  | EAttachRead (i : nat)
  | EAttachWrite (i : nat)
  | ESend (i : nat) (msg : list byte)
  | ERecv (i : nat) (r : outcome (list byte))
  | EDetachRead (i : nat)
  | EDetachWrite (i : nat)
  | EReturned (read : bool) (i : nat)
  | EFire (i : nat)
  | EStale (id : list byte)
  | EStop.

Inductive step (w : world) : event -> world -> Prop :=
  | step_new init h :
      NewCipherBox init (srv w) = Ok h -> step w (ENew init) (at_srv w h)
  | step_del auth h :
      DelCipherBox auth (srv w) = Ok h -> step w (EDel auth) (at_srv w h)
  | step_attach_read id i h :
      LookUpReadStream id (srv w) = Ok (i, h) ->
      step w (EAttachRead i)
        {| srv := h; readers := {[+ i +]} ⊎ readers w; writers := writers w;
           leaving := leaving w; fired := fired w |}
  | step_attach_write desc i h :
      openSendStream desc (srv w) = Ok (i, h) ->
      step w (EAttachWrite i)
        {| srv := h; readers := readers w; writers := {[+ i +]} ⊎ writers w;
           leaving := leaving w; fired := fired w |}
  | step_send i msg h :
      i ∈ writers w -> WriteMsg (Ok tt) i msg (srv w) = Ok h ->
      step w (ESend i msg) (at_srv w h)
  | step_recv on i r h :
      i ∈ readers w -> ReadNextMsg on i (srv w) = Some (r, h) ->
      step w (ERecv i r) (at_srv w h)
  | step_detach_read i h :
      i ∈ readers w -> putBack true i (srv w) = Some h ->
      step w (EDetachRead i)
        {| srv := h; readers := readers w ∖ {[+ i +]}; writers := writers w;
           leaving := (true, i) :: leaving w; fired := fired w |}
  | step_detach_write i h :
      i ∈ writers w -> putBack false i (srv w) = Some h ->
      step w (EDetachWrite i)
        {| srv := h; readers := readers w; writers := writers w ∖ {[+ i +]};
           leaving := (false, i) :: leaving w; fired := fired w |}
  | step_returned l1 l2 read i h :
      leaving w = l1 ++ (read, i) :: l2 -> tellReturned read i (srv w) = Some h ->
      step w (EReturned read i)
        {| srv := h; readers := readers w; writers := writers w;
           leaving := l1 ++ l2; fired := fired w |}
  | step_fire i st :
      heap (srv w) !! i = Some st -> staleTimer (status st) = true ->
      step w (EFire i)
        {| srv := set_stream (srv w) i (set_status st (stop (status st)));
           readers := readers w; writers := writers w; leaving := leaving w;
           fired := sId st :: fired w |}
  | step_stale l1 l2 id h :
      fired w = l1 ++ id :: l2 ->
      (tearDownStaleStream id (srv w) = Ok h \/
       (h = srv w /\ is_err (tearDownStaleStream id (srv w)) = true)) ->
      step w (EStale id)
        {| srv := h; readers := readers w; writers := writers w; leaving := leaving w;
           fired := l1 ++ l2 |}
  | step_stop h : Stop (srv w) = Ok h -> step w EStop (at_srv w h).

Definition start (c : hashMailServerConfig) : world :=
  {| srv := newHashMailServer c; readers := ∅; writers := ∅; leaving := []; fired := [] |}.

Inductive reach (c : hashMailServerConfig) : list event -> world -> Prop :=
  | reach_start : reach c [] (start c)
  | reach_step tr w ev w' : reach c tr w -> step w ev w' -> reach c (tr ++ [ev]) w'.

(** The steps as a function, to replay concrete runs: a command names the step
    and its arguments. *)
Inductive command :=
  | CNew (init : CipherBoxAuth)
  | CDel (auth : CipherBoxAuth)
  | CAttachRead (id : list byte)
  | CAttachWrite (desc : option (option (list byte)))
  | CSend (i : nat) (msg : list byte)
  | CRecv (on : received_on) (i : nat)
  | CDetachRead (i : nat)
  | CReturned
  | CFire (i : nat)
  | CStale.

Definition ok {A} (o : outcome A) : option A :=
  match o with Ok a => Some a | _ => None end.

Definition exec (w : world) (c : command) : option (event * world) :=
  match c with
  | CNew init => h ← ok (NewCipherBox init (srv w)); Some (ENew init, at_srv w h)
  | CDel auth => h ← ok (DelCipherBox auth (srv w)); Some (EDel auth, at_srv w h)
  | CAttachRead id =>
      '(i, h) ← ok (LookUpReadStream id (srv w));
      Some (EAttachRead i,
            {| srv := h; readers := {[+ i +]} ⊎ readers w; writers := writers w;
               leaving := leaving w; fired := fired w |})
  | CAttachWrite desc =>
      '(i, h) ← ok (openSendStream desc (srv w));
      Some (EAttachWrite i,
            {| srv := h; readers := readers w; writers := {[+ i +]} ⊎ writers w;
               leaving := leaving w; fired := fired w |})
  | CSend i msg =>
      if decide (i ∈ writers w)
      then h ← ok (WriteMsg (Ok tt) i msg (srv w)); Some (ESend i msg, at_srv w h) else None
  | CRecv on i =>
      if decide (i ∈ readers w)
      then '(r, h) ← ReadNextMsg on i (srv w); Some (ERecv i r, at_srv w h) else None
  | CDetachRead i =>
      if decide (i ∈ readers w)
      then h ← putBack true i (srv w);
           Some (EDetachRead i,
                 {| srv := h; readers := readers w ∖ {[+ i +]}; writers := writers w;
                    leaving := (true, i) :: leaving w; fired := fired w |})
      else None
  | CReturned =>
      match leaving w with
      | (read, i) :: l =>
          h ← tellReturned read i (srv w);
          Some (EReturned read i,
                {| srv := h; readers := readers w; writers := writers w; leaving := l;
                   fired := fired w |})
      | [] => None
      end
  | CFire i =>
      st ← heap (srv w) !! i;
      if staleTimer (status st)
      then Some (EFire i,
                 {| srv := set_stream (srv w) i (set_status st (stop (status st)));
                    readers := readers w; writers := writers w; leaving := leaving w;
                    fired := sId st :: fired w |})
      else None
  | CStale =>
      match fired w with
      | id :: l =>
          h ← ok (tearDownStaleStream id (srv w));
          Some (EStale id,
                {| srv := h; readers := readers w; writers := writers w;
                   leaving := leaving w; fired := l |})
      | [] => None
      end
  end.

Fixpoint exec_all (tr : list event) (w : world) (cs : list command) : option (list event * world) :=
  match cs with
  | [] => Some (tr, w)
  | c :: cs' => '(ev, w') ← exec w c; exec_all (tr ++ [ev]) w' cs'
  end.

Lemma ok_Some {A} (o : outcome A) a : ok o = Some a -> o = Ok a.
Proof. destruct o; cbn; congruence. Qed.

Lemma exec_step w c ev w' : exec w c = Some (ev, w') -> step w ev w'.
Proof.
  destruct c; cbn [exec]; intros E;
    repeat (case_match; try discriminate E);
    repeat match goal with
    | Hb : (_ ≫= _) = Some _ |- _ => apply bind_Some in Hb as (? & ? & Hb)
    | x : (_ * _)%type |- _ => destruct x
    | Ho : ok _ = Some _ |- _ => apply ok_Some in Ho
    end; repeat (case_match; try discriminate E); simplify_eq.
  - by apply step_new.
  - by apply step_del.
  - by eapply step_attach_read.
  - by eapply step_attach_write.
  - by apply step_send.
  - by eapply step_recv.
  - by apply step_detach_read.
  - by eapply (step_returned _ []).
  - by apply step_fire.
  - by eapply (step_stale _ []); [|left].
Qed.

Lemma exec_reach c tr w cs tr' w' :
  reach c tr w -> exec_all tr w cs = Some (tr', w') -> reach c tr' w'.
Proof.
  revert tr w. induction cs as [|cm cs IH]; intros tr w Hr; cbn; [by intros [= <- <-]|].
  intros ([ev w1] & He & Ha)%bind_Some. eapply IH; [|exact Ha].
  eapply reach_step; [done|by apply exec_step in He].
Qed.

(** *** What the steps change

    Two relations between the states of a stream: the tokens in its channels
    stay where they are, and its pipe is untouched and not opened again. *)
Definition same_chans (st st' : stream) : Prop :=
  readStreamChan st' = readStreamChan st /\ writeStreamChan st' = writeStreamChan st.
Definition same_pipe (st st' : stream) : Prop :=
  chunks st' = chunks st /\ (quitClosed st' = false -> quitClosed st = false).

Definition on_heap (R : stream -> stream -> Prop) (h h' : hashMailServer) : Prop :=
  forall j, option_Forall2 R (heap h !! j) (heap h' !! j).

Lemma on_heap_refl R h : (forall st, R st st) -> on_heap R h h.
Proof. intros HR j. destruct (heap h !! j); by constructor. Qed.

Lemma on_heap_set R h i st st' :
  (forall st, R st st) -> heap h !! i = Some st -> R st st' -> on_heap R h (set_stream h i st').
Proof.
  intros HR Hi Hst j. cbn. destruct (decide (i = j)) as [<-|Hne].
  - rewrite list_lookup_insert_eq by by eapply lookup_lt_Some. rewrite Hi. by constructor.
  - rewrite list_lookup_insert_ne by done. by apply on_heap_refl.
Qed.

Lemma on_heap_forget R h h' id : on_heap R h h' -> on_heap R h (forget_stream h' id).
Proof. done. Qed.

Lemma on_heap_trans (R : stream -> stream -> Prop) `{!Transitive R} h1 h2 h3 :
  on_heap R h1 h2 -> on_heap R h2 h3 -> on_heap R h1 h3.
Proof. intros H1 H2 j. specialize (H1 j). specialize (H2 j). by etrans. Qed.

Lemma same_chans_refl st : same_chans st st.
Proof. done. Qed.
Lemma same_pipe_refl st : same_pipe st st.
Proof. done. Qed.
#[local] Instance same_chans_trans : Transitive same_chans.
Proof. intros a b c [? ?] [? ?]. split; congruence. Qed.
#[local] Instance same_pipe_trans : Transitive same_pipe.
Proof. unfold same_pipe. intros a b c [H1 ?] [H2 ?]. split; [congruence|auto]. Qed.
#[local] Hint Resolve same_chans_refl same_pipe_refl on_heap_refl on_heap_forget : core.

(** A step that leaves both alone. *)
Definition quiet (st st' : stream) : Prop := same_chans st st' /\ same_pipe st st'.
Lemma quiet_refl st : quiet st st.
Proof. done. Qed.
#[local] Instance quiet_trans : Transitive quiet.
Proof. intros a b c [??] [??]. split; by etrans. Qed.
#[local] Hint Resolve quiet_refl : core.

Lemma find_inv id h i st : find id h = Ok (i, st) -> streams h !! id = Some i /\ heap h !! i = Some st.
Proof. unfold find. intros Hf. inv_ok. done. Qed.

Ltac open_find :=
  match goal with
  | x : (nat * stream)%type |- _ => destruct x as [? ?]; inv_ok; open_find
  | Hf : find _ _ = Ok (_, _) |- _ => apply find_inv in Hf as [? Hi]
  end.

Lemma tearDown_quiet st st' : tearDown st = Ok st' -> quiet st st'.
Proof. unfold tearDown. destruct (quitClosed st); [done|]. by intros [= <-]. Qed.

Lemma tearDownStale_quiet id h h' : tearDownStaleStream id h = Ok h' -> on_heap quiet h h'.
Proof.
  unfold tearDownStaleStream. intros Hf. inv_ok. open_find. apply on_heap_forget.
  eapply on_heap_set; eauto using tearDown_quiet.
Qed.

Lemma DelCipherBox_quiet auth h h' : DelCipherBox auth h = Ok h' -> on_heap quiet h h'.
Proof.
  unfold DelCipherBox, TearDownStream. intros Hf. inv_ok. open_find. apply on_heap_forget.
  eapply on_heap_set; eauto using tearDown_quiet.
Qed.

Lemma Stop_quiet h h' : Stop h = Ok h' -> on_heap quiet h h'.
Proof.
  unfold Stop. generalize ((map_to_list (streams h)).*2) as l. intros l. revert h'.
  induction l as [|i l IH]; intros h'; cbn [foldr].
  - intros [= <-]. auto.
  - intros (h1 & H1 & Hc)%bind_Ok_inv. specialize (IH _ H1).
    destruct (heap h1 !! i) as [st|] eqn:Hi; [|by injection Hc as <-].
    inv_ok. eapply on_heap_trans; [apply _|exact IH|].
    eapply on_heap_set; eauto using tearDown_quiet.
Qed.

Lemma tellReturned_quiet read i h h' : tellReturned read i h = Some h' -> on_heap quiet h h'.
Proof.
  unfold tellReturned. destruct (heap h !! i) as [st|] eqn:Hi; [|done]. cbn. intros [= <-].
  by eapply on_heap_set.
Qed.

(** The steps by what they do to the heap. *)
Lemma quiet_steps w ev w' :
  step w ev w' ->
  match ev with
  | EDel _ | EReturned _ _ | EFire _ | EStale _ | EStop =>
      on_heap quiet (srv w) (srv w') /\ readers w' = readers w /\ writers w' = writers w
  | _ => True
  end.
Proof.
  destruct 1 as [| auth h H | | | | | | | l1 l2 rd i h _ H | i st Hi Ht | l1 l2 id h _ H | h H];
    try done; cbn [srv readers writers at_srv].
  - split; [by eapply DelCipherBox_quiet|done].
  - split; [by eapply tellReturned_quiet|done].
  - split; [by eapply on_heap_set|done].
  - destruct H as [H|[-> _]]; split; [by eapply tearDownStale_quiet|done|auto|done].
  - split; [by eapply Stop_quiet|done].
Qed.

Lemma NewCipherBox_inv init h h' :
  NewCipherBox init h = Ok h' -> exists id t, heap h' = heap h ++ [newStream id t].
Proof.
  unfold NewCipherBox, InitStream. intros (id & _ & (? & _ & Hi)%bind_Ok_inv)%bind_Ok_inv.
  destruct (streams h !! newStreamID id); [done|]. injection Hi as <-. cbn. eauto.
Qed.

Lemma LookUpRead_inv id h i h' :
  LookUpReadStream id h = Ok (i, h') ->
  exists st st', heap h !! i = Some st /\ h' = set_stream h i st' /\ same_pipe st st' /\
    readStreamChan st = true /\ readStreamChan st' = false /\
    writeStreamChan st' = writeStreamChan st.
Proof.
  unfold LookUpReadStream. intros ([j st] & Hf & (st' & Hr & Hs)%bind_Ok_inv)%bind_Ok_inv.
  apply find_inv in Hf as [_ Hi]. injection Hs as -> <-. unfold RequestReadStream in Hr.
  destruct (readStreamChan st) eqn:E; [|done]. injection Hr as <-. by exists st; eexists.
Qed.

Lemma openSend_inv d h i h' :
  openSendStream d h = Ok (i, h') ->
  exists st st', heap h !! i = Some st /\ h' = set_stream h i st' /\ same_pipe st st' /\
    writeStreamChan st = true /\ writeStreamChan st' = false /\
    readStreamChan st' = readStreamChan st.
Proof.
  destruct d as [[id|]|]; [|done..]. cbn. unfold LookUpWriteStream. 
  intros ([j st] & Hf & (st' & Hr & Hs)%bind_Ok_inv)%bind_Ok_inv.
  apply find_inv in Hf as [_ Hi]. injection Hs as -> <-. unfold RequestWriteStream in Hr.
  destruct (writeStreamChan st) eqn:E; [|done]. injection Hr as <-. by exists st; eexists.
Qed.

Lemma putBack_inv read i h h' :
  putBack read i h = Some h' ->
  exists st st', heap h !! i = Some st /\ h' = set_stream h i st' /\ same_pipe st st' /\
    (if read then readStreamChan st else writeStreamChan st) = false /\
    readStreamChan st' = (if read then true else readStreamChan st) /\
    writeStreamChan st' = (if read then writeStreamChan st else true).
Proof.
  unfold putBack. destruct (heap h !! i) as [st|] eqn:Hi; [|done]. cbn.
  intros Hp. exists st. destruct read, (readStreamChan st), (writeStreamChan st);
    try discriminate Hp; injection Hp as <-; by eexists.
Qed.

Lemma WriteMsg_inv l i msg h h' :
  WriteMsg l i msg h = Ok h' ->
  exists st, heap h !! i = Some st /\ quitClosed st = false /\
    h' = set_stream h i (set_chunks st (chunks st ++ chunksOf (frame msg))).
Proof.
  unfold WriteMsg. intros (? & _ & (st & Hi & Hw)%bind_Ok_inv)%bind_Ok_inv.
  apply of_option_Ok_inv in Hi. destruct (quitClosed st) eqn:Hq; [done|].
  injection Hw as <-. eauto.
Qed.

(** What a read does to the pipe: nothing and no message, its end, or a message
    from it, which is the next one while the stream is open. *)
Lemma ReadNextMsg_inv on i h r h' :
  ReadNextMsg on i h = Some (r, h') ->
  (is_ok r = false /\ h' = h) \/
  exists st, heap h !! i = Some st /\
    ((is_ok r = false /\ quitClosed st = true /\ h' = set_stream h i (end_of_pipe st)) \/
     exists n left b rest, (n = 0%nat \/ quitClosed st = true) /\ giveUp n (chunks st) = Some left /\
       assemble [] left = Some (b, rest) /\ r = nextMsg b /\ h' = set_stream h i (set_chunks st rest)).
Proof.
  unfold ReadNextMsg. destruct (heap h !! i) as [st|]; [|done]. cbn [mbind option_bind].
  destruct on as [n| |e].
  - case_decide as Hn; [|done]. intros (left & Hl & ([b rest] & Ha & E)%bind_Some)%bind_Some.
    injection E as <- <-. right. exists st. split; [done|]. right. by exists n, left, b, rest.
  - destruct (quitClosed st && negb (readErrTaken st)) eqn:E; [|done]. apply andb_true_iff in E as [Hq _].
    intros [= <- <-]. right. exists st. split; [done|]. by left.
  - intros [= <- <-]. by left.
Qed.

(** *** At most one reader and one writer *)

Definition tokens (h : hashMailServer) (i : nat) : option (bool * bool) :=
  (fun st => (readStreamChan st, writeStreamChan st)) <$> heap h !! i.

(** The end of a stream is in its channel or with exactly one handler. *)
Definition balanced (w : world) : Prop := forall i,
  match tokens (srv w) i with
  | Some (r, wr) => (multiplicity i (readers w) + Nat.b2n r = 1)%nat /\
                    (multiplicity i (writers w) + Nat.b2n wr = 1)%nat
  | None => multiplicity i (readers w) = 0%nat /\ multiplicity i (writers w) = 0%nat
  end.

Lemma tokens_set h i st st' j :
  heap h !! i = Some st ->
  tokens (set_stream h i st') j =
    if decide (i = j) then Some (readStreamChan st', writeStreamChan st') else tokens h j.
Proof.
  intros Hi. unfold tokens. cbn. destruct (decide (i = j)) as [<-|Hne].
  - by rewrite list_lookup_insert_eq by by eapply lookup_lt_Some.
  - by rewrite list_lookup_insert_ne.
Qed.

Lemma tokens_quiet h h' j : on_heap quiet h h' -> tokens h' j = tokens h j.
Proof.
  intros Hq. specialize (Hq j). unfold tokens.
  destruct Hq as [st st' [[E1 E2] _]|]; [|done]. cbn. by rewrite E1, E2.
Qed.

Lemma tokens_new h h' id t j :
  heap h' = heap h ++ [newStream id t] ->
  tokens h' j = if decide (j = length (heap h)) then Some (true, true) else tokens h j.
Proof.
  intros E. unfold tokens. rewrite E. destruct (decide (j = length (heap h))) as [->|Hne].
  - by rewrite lookup_app_r, Nat.sub_diag by done.
  - destruct (decide (j < length (heap h))%nat).
    + by rewrite lookup_app_l.
    + rewrite !lookup_ge_None_2; [done|lia|]. rewrite length_app. cbn. lia.
Qed.

Lemma balanced_tokens w w' :
  (forall j, tokens (srv w') j = tokens (srv w) j) ->
  readers w' = readers w -> writers w' = writers w -> balanced w -> balanced w'.
Proof. intros Ht Hr Hw Hb i. rewrite Ht, Hr, Hw. apply Hb. Qed.

(** A step that moves an end of stream [i] moves the token and the handler. *)
Lemma balanced_move w w' i st st' :
  heap (srv w) !! i = Some st -> srv w' = set_stream (srv w) i st' ->
  (forall j, j ≠ i -> multiplicity j (readers w') = multiplicity j (readers w) /\
                      multiplicity j (writers w') = multiplicity j (writers w)) ->
  (multiplicity i (readers w') + Nat.b2n (readStreamChan st')
     = multiplicity i (readers w) + Nat.b2n (readStreamChan st))%nat ->
  (multiplicity i (writers w') + Nat.b2n (writeStreamChan st')
     = multiplicity i (writers w) + Nat.b2n (writeStreamChan st))%nat ->
  balanced w -> balanced w'.
Proof.
  intros Hi Hs Hother Hr Hw Hb j. specialize (Hb j).
  rewrite Hs, (tokens_set _ _ _ _ _ Hi). destruct (decide (i = j)) as [<-|Hne].
  - unfold tokens in Hb. rewrite Hi in Hb. cbn in Hb. lia.
  - destruct (Hother j) as [-> ->]; done.
Qed.

Lemma mult_add i j (X : gmultiset nat) :
  multiplicity j ({[+ i +]} ⊎ X) = (multiplicity j X + Nat.b2n (bool_decide (j = i)))%nat.
Proof.
  rewrite multiplicity_disj_union, multiplicity_singleton. case_decide; case_bool_decide; cbn; lia.
Qed.

Lemma mult_del i j (X : gmultiset nat) :
  i ∈ X -> (multiplicity j (X ∖ {[+ i +]}) + Nat.b2n (bool_decide (j = i)) = multiplicity j X)%nat.
Proof.
  rewrite elem_of_multiplicity, multiplicity_difference, multiplicity_singleton. intros Hi.
  case_decide; case_bool_decide; subst; cbn; lia.
Qed.

Lemma balanced_step w ev w' : step w ev w' -> balanced w -> balanced w'.
Proof.
  intros Hstep. pose proof (quiet_steps _ _ _ Hstep) as Hq.
  destruct Hstep as
    [init h H|auth h H|id i h H|d i h H|i msg h Hin H|on i r h Hin H|i h Hin H|i h Hin H
    |l1 l2 rd i h Hl H|i st Hi Ht|l1 l2 id h Hl H|h H]; intros Hb;
    try (destruct Hq as (Hq & Hr & Hw);
         eapply balanced_tokens; [intros j; by apply tokens_quiet|exact Hr|exact Hw|exact Hb]).
  - apply NewCipherBox_inv in H as (id & t & E). intros j. cbn [srv readers writers at_srv].
    rewrite (tokens_new _ _ _ _ _ E). specialize (Hb j).
    destruct (decide (j = length (heap (srv w)))) as [->|Hne]; [|done].
    unfold tokens in Hb. rewrite lookup_ge_None_2 in Hb by done. cbn in Hb. cbn. lia.
  - apply LookUpRead_inv in H as (st & st' & Hi & -> & _ & E1 & E2 & E3).
    eapply (balanced_move w _ i st st'); cbn [readers writers srv]; [done..| | | |done].
    + intros j Hj. rewrite mult_add, bool_decide_eq_false_2 by done. cbn. lia.
    + rewrite E1, E2, mult_add, bool_decide_eq_true_2 by done. cbn. lia.
    + by rewrite E3.
  - apply openSend_inv in H as (st & st' & Hi & -> & _ & E1 & E2 & E3).
    eapply (balanced_move w _ i st st'); cbn [readers writers srv]; [done..| | | |done].
    + intros j Hj. rewrite mult_add, bool_decide_eq_false_2 by done. cbn. lia.
    + by rewrite E3.
    + rewrite E1, E2, mult_add, bool_decide_eq_true_2 by done. cbn. lia.
  - apply WriteMsg_inv in H as (st & Hi & _ & ->).
    eapply (balanced_move w _ i st); cbn [readers writers srv at_srv]; done.
  - apply ReadNextMsg_inv in H as
      [[_ ->]|(st & Hi & [(_ & _ & ->)|(n & left & b & rest & _ & _ & _ & _ & ->)])];
      [by eapply balanced_tokens|eapply (balanced_move w _ i st);
        cbn [readers writers srv at_srv]; done..].
  - apply putBack_inv in H as (st & st' & Hi & -> & _ & Hf & E1 & E2).
    eapply (balanced_move w _ i st st'); cbn [readers writers srv]; [done..| | | |done].
    + intros j Hj. pose proof (mult_del i j (readers w) Hin) as Hd.
      rewrite bool_decide_eq_false_2 in Hd by done. cbn in Hd. lia.
    + pose proof (mult_del i i (readers w) Hin) as Hd.
      rewrite bool_decide_eq_true_2 in Hd by done. rewrite E1, Hf. cbn in *. lia.
    + by rewrite E2.
  - apply putBack_inv in H as (st & st' & Hi & -> & _ & Hf & E1 & E2).
    eapply (balanced_move w _ i st st'); cbn [readers writers srv]; [done..| | | |done].
    + intros j Hj. pose proof (mult_del i j (writers w) Hin) as Hd.
      rewrite bool_decide_eq_false_2 in Hd by done. cbn in Hd. lia.
    + by rewrite E1.
    + pose proof (mult_del i i (writers w) Hin) as Hd.
      rewrite bool_decide_eq_true_2 in Hd by done. rewrite E2, Hf. cbn in *. lia.
Qed.

Lemma balanced_reach c tr w : reach c tr w -> balanced w.
Proof.
  induction 1 as [|tr w ev w' _ IH Hs]; [|by eapply balanced_step].
  intros i. cbn. by rewrite !multiplicity_empty.
Qed.

(** *** The messages of a stream *)

Definition sentBy (i : nat) (ev : event) : option (list byte) :=
  match ev with ESend j msg => if decide (j = i) then Some msg else None | _ => None end.
Definition receivedBy (i : nat) (ev : event) : option (list byte) :=
  match ev with ERecv j (Ok msg) => if decide (j = i) then Some msg else None | _ => None end.
Definition sent (i : nat) (tr : list event) : list (list byte) := omap (sentBy i) tr.
Definition received (i : nat) (tr : list event) : list (list byte) := omap (receivedBy i) tr.

(** Every message sent fits its type and does not fill the last buffer. *)
Definition good (ev : event) : Prop :=
  match ev with ESend _ msg => sized msg /\ unaligned msg | _ => True end.

Definition in_pipe (msgs : list (list byte)) : list (list byte) :=
  concat ((fun m => chunksOf (frame m)) <$> msgs).

(** What was sent is in the pipe, or is past: all of that was received, in order, as
    long as the stream is open. *)
Definition fifo (tr : list event) (w : world) : Prop := forall i,
  match heap (srv w) !! i with
  | Some st => exists past rest, sent i tr = past ++ rest /\ received i tr `sublist_of` past /\
      (quitClosed st = false -> received i tr = past) /\
      Forall (fun m => sized m /\ unaligned m) rest /\ chunks st = in_pipe rest
  | None => sent i tr = [] /\ received i tr = []
  end.

Lemma sent_snoc i tr ev : sent i (tr ++ [ev]) = sent i tr ++ omap (sentBy i) [ev].
Proof. apply omap_app. Qed.
Lemma received_snoc i tr ev : received i (tr ++ [ev]) = received i tr ++ omap (receivedBy i) [ev].
Proof. apply omap_app. Qed.

Lemma fifo_same tr ev w w' :
  on_heap same_pipe (srv w) (srv w') ->
  (forall i, sentBy i ev = None) -> (forall i, receivedBy i ev = None) ->
  fifo tr w -> fifo (tr ++ [ev]) w'.
Proof.
  intros Hs Hse Hre Hf i. specialize (Hs i). specialize (Hf i).
  rewrite sent_snoc, received_snoc. cbn. rewrite Hse, Hre, !app_nil_r.
  destruct Hs as [st st' Hp|]; [|done].
  destruct Hf as (past & rest & E & Hsub & Hall & Hg & Hc), Hp as [Hch Hq]. exists past, rest.
  split_and!; [done|done|auto|done|congruence].
Qed.

Lemma quiet_pipe h h' : on_heap quiet h h' -> on_heap same_pipe h h'.
Proof. intros Hq j. destruct (Hq j) as [st st' [_ ?]|]; by constructor. Qed.

Lemma in_pipe_snoc msgs m : in_pipe (msgs ++ [m]) = in_pipe msgs ++ chunksOf (frame m).
Proof. unfold in_pipe. by rewrite fmap_app, concat_app, fmap_cons, concat_cons, app_nil_r. Qed.

(** Of a pipe with good messages, reading takes the first. *)
Lemma in_pipe_next `{!VarIntLaws} rest b chs :
  Forall (fun m => sized m /\ unaligned m) rest ->
  assemble [] (in_pipe rest) = Some (b, chs) ->
  exists m rest', rest = m :: rest' /\ nextMsg b = Ok m /\ chs = in_pipe rest'.
Proof.
  destruct rest as [|m rest]; [done|]. intros [[Hs Hu] _]%Forall_cons.
  unfold in_pipe at 1. rewrite fmap_cons, concat_cons, assemble_unaligned by done.
  intros [= <- <-]. exists m, rest. split_and!; [done| |done].
  rewrite <- (app_nil_r (frame m)). by apply nextMsg_frame.
Qed.

(** Giving up bytes of good messages is giving up messages. *)
Lemma in_pipe_giveUp `{!VarIntLaws} n rest chs :
  Forall (fun m => sized m /\ unaligned m) rest -> giveUp n (in_pipe rest) = Some chs ->
  exists lost rest', rest = lost ++ rest' /\ length lost = n /\ chs = in_pipe rest'.
Proof.
  revert rest. induction n as [|n IH]; intros rest Hg; cbn [giveUp]; [intros [= <-]; by exists [], rest|].
  intros ([b r] & Ha & Hn)%bind_Some.
  apply in_pipe_next in Ha as (m & rest' & -> & _ & ->); [|done].
  apply Forall_cons in Hg as [_ Hg]. destruct (IH _ Hg Hn) as (lost & r' & -> & <- & ->).
  by exists (m :: lost), r'.
Qed.

Lemma fifo_new tr init w h :
  NewCipherBox init (srv w) = Ok h -> fifo tr w -> fifo (tr ++ [ENew init]) (at_srv w h).
Proof.
  intros (id & t & E)%NewCipherBox_inv Hf i. specialize (Hf i).
  rewrite sent_snoc, received_snoc. cbn. rewrite !app_nil_r, E.
  destruct (heap (srv w) !! i) as [st|] eqn:Hi.
  - by rewrite lookup_app_l, Hi by by eapply lookup_lt_Some.
  - destruct ((heap (srv w) ++ [newStream id t]) !! i) as [st|] eqn:Hi'; [|done].
    rewrite lookup_app_r in Hi' by by apply lookup_ge_None_1.
    apply list_lookup_singleton_Some in Hi' as [_ <-]. destruct Hf as [-> ->].
    by exists [], [].
Qed.

Lemma fifo_send tr i msg w h :
  WriteMsg (Ok tt) i msg (srv w) = Ok h -> good (ESend i msg) ->
  fifo tr w -> fifo (tr ++ [ESend i msg]) (at_srv w h).
Proof.
  intros (st & Hi & Hq & ->)%WriteMsg_inv Hg Hf j. specialize (Hf j).
  rewrite sent_snoc, received_snoc. cbn. rewrite app_nil_r.
  destruct (decide (i = j)) as [<-|Hne].
  - rewrite list_lookup_insert_eq by by eapply lookup_lt_Some. rewrite Hi in Hf.
    destruct Hf as (past & rest & -> & Hsub & Hall & Hgs & Hc). exists past, (rest ++ [msg]).
    rewrite (assoc_L (++)). split_and!; [done|done|done
      |by apply Forall_app_2; [|constructor]|]. cbn. by rewrite Hc, in_pipe_snoc.
  - rewrite list_lookup_insert_ne, app_nil_r by done. done.
Qed.

Lemma received_other tr i j r :
  j ≠ i \/ is_ok r = false -> received i (tr ++ [ERecv j r]) = received i tr.
Proof.
  intros Hor. rewrite received_snoc. cbn. destruct r; cbn; [|apply app_nil_r..].
  rewrite decide_False by naive_solver. apply app_nil_r.
Qed.

Lemma fifo_recv `{VL : !VarIntLaws} tr on i r w h :
  ReadNextMsg on i (srv w) = Some (r, h) ->
  fifo tr w -> fifo (tr ++ [ERecv i r]) (at_srv w h).
Proof.
  intros Hread Hf j. specialize (Hf j). rewrite sent_snoc. cbn [omap list_omap sentBy]. rewrite app_nil_r.
  apply ReadNextMsg_inv in Hread as
    [[Hr ->]|(st & Hi & [(Hr & Hq & ->)|(n & chs & b & tl & Hn & Hup & Ha & -> & ->)])];
    cbn [srv at_srv set_stream heap].
  - by rewrite received_other by by right.
  - rewrite received_other by by right. destruct (decide (i = j)) as [<-|Hne];
      [|by rewrite list_lookup_insert_ne].
    rewrite list_lookup_insert_eq by by eapply lookup_lt_Some. rewrite Hi in Hf.
    destruct Hf as (past & rest & -> & Hsub & _ & _ & _). exists (past ++ rest), [].
    split_and!; [by rewrite app_nil_r|by apply sublist_inserts_r|cbn; congruence|constructor|done].
  - destruct (decide (i = j)) as [<-|Hne].
    2: { rewrite received_other by by left. by rewrite list_lookup_insert_ne. }
    rewrite list_lookup_insert_eq by by eapply lookup_lt_Some. rewrite Hi in Hf.
    destruct Hf as (past & rest & -> & Hsub & Hall & Hg & Hc). rewrite Hc in Hup.
    apply in_pipe_giveUp in Hup as (lost & rest1 & -> & Hlen & ->); [|done].
    apply Forall_app in Hg as [_ Hg]. apply in_pipe_next in Ha as (m & rest' & -> & -> & ->); [|done].
    apply Forall_cons in Hg as [_ Hg]. rewrite received_snoc. cbn [omap list_omap receivedBy].
    rewrite decide_True by done. exists (past ++ lost ++ [m]), rest'. split_and!; [|..|done|done].
    + by rewrite <- !(assoc_L (++)).
    + by apply sublist_app, sublist_inserts_l.
    + cbn. intros Hq. destruct Hn as [->|Hn]; [|congruence]. destruct lost; [|done]. by rewrite Hall.
Qed.

Lemma fifo_reach `{VL : !VarIntLaws} c tr w : reach c tr w -> Forall good tr -> fifo tr w.
Proof.
  induction 1 as [|tr w ev w' _ IH Hs]; [by intros _ i|].
  intros [Hg [Hev _]%Forall_cons]%Forall_app. specialize (IH Hg).
  pose proof (quiet_steps _ _ _ Hs) as Hq.
  destruct Hs as
    [init h H|auth h H|id i h H|d i h H|i msg h Hin H|on i r h Hin H|i h Hin H|i h Hin H
    |l1 l2 rd i h Hl H|i st Hi Ht|l1 l2 id h Hl H|h H];
    try (destruct Hq as (Hq & _); by apply fifo_same with w; [apply quiet_pipe|..]).
  - by apply fifo_new.
  - apply LookUpRead_inv in H as (st & st' & Hi & -> & Hp & _).
    apply fifo_same with w; [by eapply on_heap_set|done..].
  - apply openSend_inv in H as (st & st' & Hi & -> & Hp & _).
    apply fifo_same with w; [by eapply on_heap_set|done..].
  - by apply fifo_send.
  - by eapply fifo_recv.
  - apply putBack_inv in H as (st & st' & Hi & -> & Hp & _).
    apply fifo_same with w; [by eapply on_heap_set|done..].
  - apply putBack_inv in H as (st & st' & Hi & -> & Hp & _).
    apply fifo_same with w; [by eapply on_heap_set|done..].
Qed.

End Calls.
End HashMail.

(** ** Properties *)
Module HashMailProperties.
Import Frames HashMail.

(** Lengths as eight bytes, for concrete runs. *)
Definition toy_varint : VarInt := {|
  WriteVarInt := be_bytes 8;
  ReadVarInt b := if decide (8 <= length b)%nat then Ok (be_val (take 8 b), drop 8 b)
                  else Err (Sentinel "io.EOF")
|}.

Lemma toy_varint_laws : VarIntLaws (H := toy_varint).
Proof.
  split. intros n rest Hn. cbn [ReadVarInt WriteVarInt toy_varint].
  rewrite decide_True by (rewrite length_app, be_bytes_length; lia).
  rewrite take_app_length', drop_app_length', be_val_bytes by by rewrite be_bytes_length.
  by rewrite Z.mod_small.
Qed.

Definition toy_config : hashMailServerConfig :=
  {| msgRate := 0; msgBurstAllowance := 0; staleTimeout := 0 |}.
Definition toy_mailbox : CipherBoxAuth := {| Desc := Some (Some [Byte.x07]); hasAuth := true |}.

(** One message on its way through a mailbox. *)
Definition toy_run : list event :=
  [ENew toy_mailbox; EAttachRead 0; EAttachWrite 0; ESend 0 [Byte.x41]].

Definition toy_commands : list command :=
  [CNew toy_mailbox; CAttachRead [Byte.x07]; CAttachWrite (Some (Some [Byte.x07]));
   CSend 0 [Byte.x41]].

(** The outcome of a concrete run, as a test. *)
Definition ends_in `{VarInt} (cs : list command) (P : list event -> world -> bool) : bool :=
  match exec_all [] (start toy_config) cs with Some (tr, w) => P tr w | None => false end.

Lemma ends_in_reach `{VarInt} cs P :
  ends_in cs P = true -> exists tr w, reach toy_config tr w /\ P tr w = true.
Proof.
  unfold ends_in. destruct (exec_all _ _ _) as [[tr w]|] eqn:E; [|done].
  intros HP. exists tr, w. split; [|done]. by eapply exec_reach; [constructor|].
Qed.

Section ToyRun.
#[local] Existing Instance toy_varint.

Lemma toy_run_reach :
  exists w, reach toy_config toy_run w /\ 0%nat ∈ readers w /\
            exists st, heap (srv w) !! 0%nat = Some st /\ quitClosed st = false.
Proof.
  assert (E : ends_in toy_commands (fun tr w =>
    match tr with
    | [ENew m; EAttachRead 0%nat; EAttachWrite 0%nat; ESend 0%nat msg] =>
        bool_decide (Desc m = Desc toy_mailbox) && hasAuth m && bool_decide (msg = [Byte.x41])
    | _ => false
    end && bool_decide (0%nat ∈ readers w) &&
    bool_decide ((quitClosed <$> heap (srv w) !! 0%nat) = Some false)) = true).
  { vm_compute. reflexivity. }
  apply ends_in_reach in E as (tr & w & Hr & E). exists w. unfold toy_run.
  repeat case_match; try discriminate E. subst.
  apply andb_true_iff in E as [[E Hin%bool_decide_eq_true]%andb_true_iff Hq%bool_decide_eq_true].
  apply andb_true_iff in E as [[Hd%bool_decide_eq_true Ha]%andb_true_iff ->%bool_decide_eq_true].
  apply fmap_Some in Hq as (st & Hq & Hi). destruct init as [d a]. cbn in Hd, Ha. subst.
  split; [exact Hr|]. eauto.
Qed.
End ToyRun.

(** C15: in every state the server can reach, under any interleaving of calls,
    timers and teardowns, at most one handler reads from a stream and at most one
    writes to it, and a handler that puts its end back never blocks. *)
Theorem one_reader_one_writer `{VarInt} c tr w i :
  reach c tr w ->
  (multiplicity i (readers w) <= 1)%nat /\ (multiplicity i (writers w) <= 1)%nat /\
  (i ∈ readers w -> is_Some (putBack true i (srv w))) /\
  (i ∈ writers w -> is_Some (putBack false i (srv w))).
Proof.
  intros Hr%balanced_reach. specialize (Hr i). rewrite !elem_of_multiplicity.
  unfold tokens, putBack in *. destruct (heap (srv w) !! i) as [st|]; cbn in *; [|lia].
  destruct Hr as [Hr Hw].
  split_and!; [lia|lia|intros Hin|intros Hin].
  - destruct (readStreamChan st); cbn in *; [lia|done].
  - destruct (writeStreamChan st); cbn in *; [lia|done].
Qed.

(** C14: as long as no frame fills the last buffer: the messages read from a stream
    that is not torn down are the ones written to it, in order and without loss, and
    a message that was written to it can be read at once and is the only one that
    can; and what is read from a stream at all, before and after it was torn down, is
    in the order in which it was written, none twice, though a stream that is being
    torn down may drop some messages and still deliver later ones. *)
Theorem messages_arrive_in_order `{VarInt} `{!VarIntLaws} c tr w i :
  reach c tr w -> Forall good tr ->
  received i tr `sublist_of` sent i tr /\
  (forall st, heap (srv w) !! i = Some st -> quitClosed st = false ->
     received i tr `prefix_of` sent i tr /\
     (received i tr ≠ sent i tr -> exists msg h, ReadNextMsg (Bytes 0) i (srv w) = Some (Ok msg, h)) /\
     (forall on msg h, ReadNextMsg on i (srv w) = Some (Ok msg, h) ->
        received i tr ++ [msg] `prefix_of` sent i tr)).
Proof.
  intros Hr Hg. pose proof (fifo_reach _ _ _ Hr Hg i) as Hf. split.
  - destruct (heap (srv w) !! i); [|by destruct Hf as [-> ->]].
    destruct Hf as (past & rest & -> & Hsub & _). by apply sublist_inserts_r.
  - intros st Hi Hq. rewrite Hi in Hf. destruct Hf as (past & rest & E & _ & Hall & Hgs & Hc).
    rewrite E, (Hall Hq). split; [by exists rest|]. split.
    + intros Hne. destruct rest as [|m rest]; [by rewrite app_nil_r in Hne|].
      apply Forall_cons in Hgs as [[Hs Hu] _].
      unfold ReadNextMsg. rewrite Hi. cbn [mbind option_bind]. rewrite decide_True by by left.
      cbn [giveUp mbind option_bind]. rewrite Hc. unfold in_pipe.
      rewrite fmap_cons, concat_cons, assemble_unaligned by done. cbn [mbind option_bind].
      rewrite <- (app_nil_r (frame m)), nextMsg_frame by done. by eexists m, _.
    + intros on msg h [[Hx _]|(st' & Hi' & [(Hx & _)|(n & chs & b & tl & Hn & Hup & Ha & Hm & _)])]%ReadNextMsg_inv;
        [done..|]. rewrite Hi in Hi'. injection Hi' as <-.
      destruct Hn as [->|Hn]; [|congruence]. injection Hup as <-. rewrite Hc in Ha.
      apply in_pipe_next in Ha as (m & rest' & -> & Hm' & _); [|done]. rewrite Hm' in Hm.
      injection Hm as ->. exists rest'. by rewrite <- (assoc_L (++)).
Qed.

Lemma one_reader_one_writer_witness :
  exists w, reach (VI := toy_varint) toy_config toy_run w /\ is_Some (putBack true 0 (srv w)).
Proof.
  destruct toy_run_reach as (w & Hr & Hin & _). exists w. split; [exact Hr|].
  apply (one_reader_one_writer _ _ _ _ Hr). exact Hin.
Defined.

Lemma messages_arrive_in_order_witness :
  exists w msg h, reach (VI := toy_varint) toy_config toy_run w /\
    ReadNextMsg (VI := toy_varint) (Bytes 0) 0 (srv w) = Some (Ok msg, h) /\
    [msg] `prefix_of` [[Byte.x41]].
Proof.
  destruct toy_run_reach as (w & Hr & _ & st & Hi & Hq).
  assert (Hg : Forall (good (VI := toy_varint)) toy_run).
  { repeat constructor; vm_compute; discriminate. }
  destruct (proj2 (messages_arrive_in_order (H0 := toy_varint_laws) _ _ _ 0 Hr Hg) st Hi Hq)
    as (_ & H1 & H2).
  destruct H1 as (msg & h & Hm); [discriminate|]. exists w, msg, h. split; [exact Hr|].
  split; [exact Hm|]. exact (H2 _ _ _ Hm).
Defined.

(** A stream that is torn down with two messages on their way: the first is dropped
    and the second is read. *)
Lemma torn_down_stream_skips :
  exists tr w, reach (VI := toy_varint) toy_config tr w /\
    sent 0 tr = [[Byte.x41]; [Byte.x42]] /\ received 0 tr = [[Byte.x42]].
Proof.
  assert (E : @ends_in toy_varint [CNew toy_mailbox; CAttachRead [Byte.x07];
      CAttachWrite (Some (Some [Byte.x07])); CSend 0 [Byte.x41]; CSend 0 [Byte.x42];
      CDel toy_mailbox; CRecv (Bytes 1) 0] (fun tr _ =>
    bool_decide (sent 0 tr = [[Byte.x41]; [Byte.x42]]) &&
    bool_decide (received 0 tr = [[Byte.x42]])) = true) by (vm_compute; reflexivity).
  apply ends_in_reach in E as (tr & w & Hr & [H1%bool_decide_eq_true H2%bool_decide_eq_true]%andb_true_iff).
  by exists tr, w.
Qed.

(** A message whose frame fills the last buffer is held back until another is
    written, and that other one is then lost: the two arrive as one buffer, of
    which only the first message is read. *)
Lemma full_buffer_swallows_next `{VarInt} `{!VarIntLaws} msg next rest :
  sized msg -> ~ unaligned msg -> unaligned next ->
  assemble [] (chunksOf (frame msg)) = None /\
  exists b, assemble [] (chunksOf (frame msg) ++ chunksOf (frame next) ++ rest) = Some (b, rest) /\
            nextMsg b = Ok msg.
Proof.
  intros Hs Ha Hn. split.
  - rewrite chunksOf_pieces, <- (app_nil_r (pieces _ _)).
    destruct (decide (length (frame msg) mod DefaultBufSize = 0)%nat) as [Hm|Hm]; [|done].
    rewrite (assemble_full _ (length (frame msg) / DefaultBufSize)); [done|].
    pose proof (Nat.div_mod_eq (length (frame msg)) DefaultBufSize). lia.
  - exists (frame msg ++ frame next). rewrite assemble_aligned by done. split; [done|].
    by apply nextMsg_frame.
Qed.

(** A stream that is in use can be torn down as stale: a reader that leaves
    a deleted stream arms its timer again, and when that goes off it tears down
    whatever stream has the same id by then. *)
Theorem old_timer_tears_down_new_stream `{VarInt} :
  exists tr w st, reach toy_config tr w /\ last tr = Some (EStale (newStreamID [Byte.x07])) /\
    heap (srv w) !! 1%nat = Some st /\ quitClosed st = true /\
    1%nat ∈ readers w /\ 1%nat ∈ writers w /\ streams (srv w) = ∅.
Proof.
  assert (E : ends_in [CNew toy_mailbox; CAttachRead [Byte.x07]; CDel toy_mailbox;
      CDetachRead 0; CReturned; CNew toy_mailbox; CAttachRead [Byte.x07];
      CAttachWrite (Some (Some [Byte.x07])); CFire 0; CStale] (fun tr w =>
    match last tr with Some (EStale id) => bool_decide (id = newStreamID [Byte.x07]) | _ => false end &&
    bool_decide ((quitClosed <$> heap (srv w) !! 1%nat) = Some true) &&
    bool_decide (1%nat ∈ readers w) && bool_decide (1%nat ∈ writers w) &&
    bool_decide (streams (srv w) = ∅)) = true).
  { vm_compute. reflexivity. }
  apply ends_in_reach in E as (tr & w & Hr & E).
  rewrite !andb_true_iff in E. destruct E as [[[[El Eq] Er] Ew] Es].
  apply bool_decide_eq_true in Eq, Er, Ew, Es. apply fmap_Some in Eq as (st & Hq & Hi).
  exists tr, w, st. destruct (last tr) as [[]|]; try discriminate El.
  apply bool_decide_eq_true in El as ->. auto 10.
Qed.

End HashMailProperties.
