(* ===== verification/Transport.v ===== *)
(** * The goroutines of a mailbox stream: [newStream] of [hashmail_server.go]

    [HashMail] has the bytes of a stream as a queue of pieces.  This file has what
    carries them: the call of [Write] that puts a frame into the first [io.Pipe],
    the goroutine that copies it to the second one, the goroutine that reads that
    one and hands the bytes on, and the call of [tearDown], as steps that can
    happen in any order.  A pipe has no buffer: a step moves bytes from a write to
    a read. *)
From stdpp Require Import relations.
From S2P Require Import Prelude.
From S2P Require Import Steps.
From S2P Require Import HashMail.
Import Frames.

Module Transport.

Lemma copy_pos : (0 < copyBufSize)%nat.
Proof. unfold copyBufSize. pose proof buf_pos. lia. Qed.
#[local] Opaque DefaultBufSize copyBufSize.

(** The goroutine of [io.Copy]: in [Read], in [Write] with the bytes that are left,
    over, with both its pipe ends closed. *)
Inductive copier := Copying | Pushing (b : list byte) | CopyOver.

(** The other goroutine: in [Read] with the full buffers it has, at the [select]
    with bytes to hand on, over, with its error in [readErrChan]. *)
Inductive reader := Reading (c : list byte) | Handing (c : list byte) | ReadOver.

(** A call of [tearDown]: not made, after [writeWritePipe.Close], in [wg.Wait],
    back. *)
Inductive tearing := Live | PipeClosed | Waiting | Over.

(** [writing] is what a call of [Write] has left, and [handed] what has come out of
    [readBytesChan]. *)
Record t := {
  writing : option (list byte);
  copy : copier;
  read : reader;
  tear : tearing;
  handed : list (list byte)
}.

Definition start : t := {|
  writing := None; copy := Copying; read := Reading []; tear := Live; handed := [] |}.

Definition closed (s : t) : bool := match tear s with Live => false | _ => true end.
Definition quit (s : t) : bool := match tear s with Waiting | Over => true | _ => false end.

Inductive action :=
  | Write (b : list byte)   (* a handler starts to write *)
  | Abandon                 (* its write fails *)
  | CopyReads | CopyEnds    (* the read of the copying goroutine *)
  | Reads | ReadEnds        (* the read of the reading goroutine *)
  | Hands | Drops           (* its two cases *)
  | TearsDown.              (* [tearDown] is called, or goes on *)

Definition set_writing (w : option (list byte)) (s : t) : t := {|
  writing := w; copy := copy s; read := read s; tear := tear s; handed := handed s |}.
Definition set_copy (c : copier) (s : t) : t := {|
  writing := writing s; copy := c; read := read s; tear := tear s; handed := handed s |}.
Definition set_read (r : reader) (s : t) : t := {|
  writing := writing s; copy := copy s; read := r; tear := tear s; handed := handed s |}.
Definition set_tear (x : tearing) (s : t) : t := {|
  writing := writing s; copy := copy s; read := read s; tear := x; handed := handed s |}.
Definition hand (c : list byte) (s : t) : t := {|
  writing := writing s; copy := copy s; read := Reading []; tear := tear s;
  handed := handed s ++ [c] |}.

(** A write of no bytes is read as no bytes. *)
Definition rest (n : nat) (b : list byte) : option (list byte) :=
  match drop n b with [] => None | b' => Some b' end.

Definition step (a : action) (s : t) : option t :=
  match a with
  | Write b =>
      match writing s with
      | None => if closed s then None else Some (set_writing (Some b) s)
      | Some _ => None
      end
  | Abandon =>
      match writing s with
      | Some _ => if closed s then Some (set_writing None s) else None
      | None => None
      end
  | CopyReads =>
      match copy s, writing s with
      | Copying, Some b =>
          Some (set_copy (match b with [] => Copying | _ => Pushing (take copyBufSize b) end)
                  (set_writing (rest copyBufSize b) s))
      | _, _ => None
      end
  | CopyEnds =>
      match copy s with
      | Copying => if closed s then Some (set_copy CopyOver s) else None
      | _ => None
      end
  | Reads =>
      match copy s, read s with
      | Pushing b, Reading c =>
          let p := take DefaultBufSize b in
          Some (set_read (if decide (length p = DefaultBufSize) then Reading (c ++ p)
                          else Handing (c ++ p))
                  (set_copy (match rest DefaultBufSize b with
                             | None => Copying | Some b' => Pushing b' end) s))
      | _, _ => None
      end
  | ReadEnds =>
      match copy s, read s with
      | CopyOver, Reading _ => Some (set_read ReadOver s)
      | _, _ => None
      end
  | Hands =>
      match read s with Handing c => Some (hand c s) | _ => None end
  | Drops =>
      match read s with
      | Handing _ => if quit s then Some (set_read (Reading []) s) else None
      | _ => None
      end
  | TearsDown =>
      match tear s with
      | Live => Some (set_tear PipeClosed s)
      | PipeClosed => Some (set_tear Waiting s)
      | Waiting =>
          match copy s, read s with
          | CopyOver, ReadOver => Some (set_tear Over s)
          | _, _ => None
          end
      | Over => None
      end
  end.

(** What has been written. *)
Definition written (l : list action) : list (list byte) :=
  omap (fun a => match a with Write b => Some b | _ => None end) l.

(** *** The queue of [HashMail] *)

(** Rounds of [assemble]: what is handed on, and the pieces that remain. *)
Inductive assembles : list (list byte) -> list (list byte) -> list (list byte) -> Prop :=
  | assembles_none cs : assembles cs [] cs
  | assembles_round cs b cs' out tail :
      assemble [] cs = Some (b, cs') -> assembles cs' out tail -> assembles cs (b :: out) tail.

Lemma assemble_app acc cs b cs' x :
  assemble acc cs = Some (b, cs') -> assemble acc (cs ++ x) = Some (b, cs' ++ x).
Proof.
  revert acc. induction cs as [|c cs IH]; intros acc; cbn [assemble app]; [done|].
  case_decide; [apply IH|]. by intros [= <- <-].
Qed.

Lemma assembles_app cs out tail x : assembles cs out tail -> assembles (cs ++ x) out (tail ++ x).
Proof.
  induction 1 as [cs|cs b cs' out tail Ha _ IH]; [constructor|].
  econstructor; [by apply assemble_app|done].
Qed.

Lemma assembles_last cs out tail b rest :
  assembles cs out tail -> assemble [] tail = Some (b, rest) -> assembles cs (out ++ [b]) rest.
Proof.
  induction 1 as [cs|cs b' cs' out tail Ha _ IH]; intros Hb; cbn [app];
    econstructor; eauto. constructor.
Qed.

(** Full buffers and what follows them. *)
Definition full (cs : list (list byte)) : Prop := Forall (fun c => length c = DefaultBufSize) cs.

Lemma assemble_full_then acc cs p :
  full cs -> length p ≠ DefaultBufSize -> assemble acc (cs ++ [p]) = Some (acc ++ concat cs ++ p, []).
Proof.
  intros Hf Hp. revert acc. induction Hf as [|c cs Hc Hf IH]; intros acc; cbn [app assemble concat].
  - by rewrite decide_False.
  - rewrite decide_True by done. rewrite IH. by rewrite <- !(assoc_L (++)).
Qed.

(** The pieces on their way. *)
Definition pieces4 : list byte -> list (list byte) := pieces DefaultBufSize.
Definition pending (s : t) : list (list byte) :=
  match copy s with Pushing b => pieces4 b | _ => [] end ++
  match writing s with Some b => pieces4 b | None => [] end.

Lemma pieces_rest n b :
  (0 < n)%nat -> b ≠ [] -> pieces n b = take n b :: match rest n b with None => [] | Some b' => pieces n b' end.
Proof.
  intros Hn Hb. rewrite pieces_cons by done. unfold rest. f_equal.
  by destruct (drop n b).
Qed.

(** What the copying goroutine reads is cut where the other one would cut it. *)
Lemma pieces4_copy b :
  pieces4 b = pieces4 (take copyBufSize b) ++ match rest copyBufSize b with None => [] | Some b' => pieces4 b' end.
Proof.
  destruct (decide (b = [])) as [->|Hb]; [done|]. unfold pieces4 at 1.
  rewrite <- chunksOf_pieces. unfold chunksOf.
  rewrite pieces_rest by (done || apply copy_pos). cbn [fmap list_fmap concat]. f_equal.
  destruct (rest copyBufSize b) as [b'|]; [|done]. apply chunksOf_pieces.
Qed.

(** While the stream lives, what was written is what was handed on, the full
    buffers the reading goroutine has, and what is on its way. *)
Record carries (ws : list (list byte)) (s : t) : Prop := {
  pushed : forall b, copy s = Pushing b -> b ≠ [];
  copies : copy s ≠ CopyOver;
  flows : exists tail, assembles (concat (chunksOf <$> ws)) (handed s) (tail ++ pending s) /\
    match read s with
    | Reading c => full tail /\ concat tail = c
    | Handing c => assemble [] tail = Some (c, [])
    | ReadOver => False
    end
}.

Lemma carries_write ws b s :
  writing s = None -> carries ws s -> carries (ws ++ [b]) (set_writing (Some b) s).
Proof.
  intros Hw [Hp Ho (tail & Ha & Hr)]. split; [done..|]. exists tail. split; [|done].
  rewrite fmap_app, concat_app. cbn [fmap list_fmap concat]. rewrite app_nil_r, chunksOf_pieces.
  unfold pending in *. cbn [copy writing set_writing]. rewrite Hw, app_nil_r in Ha.
  rewrite (assoc_L (++)). by apply assembles_app.
Qed.

Lemma carries_copy ws b s :
  copy s = Copying -> writing s = Some b -> carries ws s ->
  carries ws (set_copy (match b with [] => Copying | _ => Pushing (take copyBufSize b) end)
                (set_writing (rest copyBufSize b) s)).
Proof.
  intros Hc Hw [Hp Ho (tail & Ha & Hr)]. split.
  - intros b'. cbn. destruct b as [|x b]; [done|]. intros [= <-].
    pose proof copy_pos. by destruct copyBufSize; [lia|].
  - cbn. by destruct b.
  - exists tail. split; [|done]. unfold pending in *. rewrite Hc, Hw in Ha. cbn [app] in Ha.
    rewrite pieces4_copy in Ha. cbn [copy writing set_writing set_copy].
    by destruct b as [|x b]; [rewrite ?take_nil in Ha|].
Qed.

Lemma full_last tail p : full tail -> length p = DefaultBufSize -> full (tail ++ [p]).
Proof. intros. apply Forall_app. auto. Qed.

Lemma carries_read ws b c s :
  copy s = Pushing b -> read s = Reading c -> carries ws s ->
  let p := take DefaultBufSize b in
  carries ws (set_read (if decide (length p = DefaultBufSize) then Reading (c ++ p) else Handing (c ++ p))
    (set_copy (match rest DefaultBufSize b with None => Copying | Some b' => Pushing b' end) s)).
Proof.
  intros Hc Hr [Hp Ho (tail & Ha & Ht)] p. rewrite Hr in Ht. destruct Ht as [Hf <-]. split.
  - intros b'. cbn. unfold rest. by destruct (drop _ b) eqn:E; intros [= <-].
  - cbn. by destruct (rest _ b).
  - exists (tail ++ [p]). unfold pending in *. rewrite Hc in Ha. cbn [copy writing set_copy set_read read].
    unfold pieces4 in Ha. rewrite pieces_rest in Ha by (apply buf_pos || by apply Hp). split.
    + rewrite <- (assoc_L (++)). cbn [app] in *. fold p in Ha. by destruct (rest DefaultBufSize b).
    + destruct (decide (length p = DefaultBufSize)) as [Hl|Hl].
      * split; [by apply full_last|]. by rewrite concat_app; cbn; rewrite app_nil_r.
      * by rewrite assemble_full_then.
Qed.

Lemma carries_hand ws c s : read s = Handing c -> carries ws s -> carries ws (hand c s).
Proof.
  intros Hr [Hp Ho (tail & Ha & Ht)]. rewrite Hr in Ht. split; [done..|]. exists []. split; [|by split; [constructor|]].
  eapply assembles_last; [exact Ha|]. by apply (assemble_app _ _ _ []).
Qed.

Lemma carries_step ws a s s' :
  tear s = Live -> tear s' = Live -> carries ws s -> step a s = Some s' ->
  carries (ws ++ match a with Write b => [b] | _ => [] end) s'.
Proof.
  intros Hl Hl' Hs Hstep. assert (Hc : closed s = false) by (unfold closed; by rewrite Hl).
  destruct a; cbn [step] in Hstep; rewrite ?app_nil_r.
  - destruct (writing s) eqn:E; [done|]. rewrite Hc in Hstep. injection Hstep as <-.
    by apply carries_write.
  - destruct (writing s); [by rewrite Hc in Hstep|done].
  - destruct (copy s) eqn:E; [|done..]. destruct (writing s) as [b|] eqn:Ew; [|done].
    injection Hstep as <-. by apply carries_copy.
  - destruct (copy s); [|done..]. by rewrite Hc in Hstep.
  - destruct (copy s) eqn:E; [done| |done]. destruct (read s) eqn:Er; [|done..].
    injection Hstep as <-. by apply carries_read.
  - destruct Hs as [_ Ho _]. by destruct (copy s).
  - destruct (read s) eqn:Er; [done| |done]. injection Hstep as <-. by apply carries_hand.
  - destruct (read s); [done| |done]. unfold quit in Hstep. by rewrite Hl in Hstep.
  - rewrite Hl in Hstep. by injection Hstep as <-.
Qed.

Lemma carries_start : carries [] start.
Proof. split; [done..|]. exists []. split; [constructor|]. by split; [constructor|]. Qed.

(** A stream that lives has not been torn down before. *)
Lemma step_live a s s' : step a s = Some s' -> tear s' = Live -> tear s = Live.
Proof.
  destruct (tear s) eqn:E; [done|..]; destruct a; cbn [step]; intros Hs Hl;
    repeat case_match; simplify_eq; cbn in *; congruence.
Qed.

Lemma run_carries l ws s s' :
  carries ws s -> exec step l s = Some s' -> tear s' = Live -> carries (ws ++ written l) s'.
Proof.
  revert ws s. induction l as [|a l IH]; intros ws s Hs; cbn [exec].
  - intros [= <-] _. by rewrite app_nil_r.
  - destruct (step a s) as [s1|] eqn:E; [|done]. cbn [mbind option_bind]. intros Hr Hl.
    assert (Hl1 : tear s1 = Live).
    { clear IH E Hs. revert s1 Hr. induction l as [|a' l IH]; intros s1; cbn [exec]; [by intros [= ->]|].
      destruct (step a' s1) as [s2|] eqn:E; [|done]. intros Hr. eapply step_live; [exact E|by apply IH]. }
    pose proof (carries_step ws a s s1 (step_live _ _ _ E Hl1) Hl1 Hs E) as H1.
    specialize (IH _ _ H1 Hr Hl). by destruct a; rewrite ?app_nil_r, <- ?(assoc_L (++)) in IH.
Qed.

(** *** Tearing down *)

(** Every step but a new write makes the weight smaller. *)
Definition weight (s : t) : nat :=
  match writing s with Some b => 5 * length b + 2 | None => 0 end +
  match copy s with Copying => 1 | Pushing b => 3 * length b + 2 | CopyOver => 0 end +
  match read s with Reading _ => 1 | Handing _ => 3 | ReadOver => 0 end +
  match tear s with Live => 3 | PipeClosed => 2 | Waiting => 1 | Over => 0 end.

Record ok (s : t) : Prop := {
  pushing : forall b, copy s = Pushing b -> b ≠ [];
  order : read s = ReadOver -> copy s = CopyOver;
  over : tear s = Over -> copy s = CopyOver /\ read s = ReadOver
}.

Lemma length_rest n b :
  (match rest n b with Some b' => length b' | None => 0 end + length (take n b) = length b)%nat.
Proof.
  pose proof (f_equal length (take_drop n b)) as H. rewrite length_app in H.
  unfold rest. destruct (drop n b); cbn [length] in *; lia.
Qed.

Lemma take_pos n (b : list byte) : (0 < n)%nat -> b ≠ [] -> (1 <= length (take n b))%nat.
Proof. intros Hn Hb. rewrite length_take. destruct b; [done|cbn; lia]. Qed.

Lemma step_weight a s s' :
  ok s -> closed s = true -> step a s = Some s' -> (weight s' < weight s)%nat /\ closed s' = true.
Proof.
  intros [Hp Ho Hv] Hc Hs. destruct s as [w c r x h]. cbn in Hp, Ho, Hv.
  destruct a; cbn in Hs; cbn in Hc.
  - destruct w; [done|]. by rewrite Hc in Hs.
  - destruct w; [|done]. rewrite Hc in Hs. injection Hs as <-.
    split; [unfold weight; cbn; lia|done].
  - destruct c; [|done..]. destruct w as [b|]; [|done]. injection Hs as <-. split; [|done].
    pose proof (length_rest copyBufSize b). unfold weight. cbn.
    destruct b as [|y b]; [unfold rest; rewrite drop_nil; cbn; lia|].
    pose proof (take_pos copyBufSize (y :: b) copy_pos ltac:(done)).
    destruct (rest copyBufSize (y :: b)); cbn in *; lia.
  - destruct c; [|done..]. rewrite Hc in Hs. injection Hs as <-.
    split; [unfold weight; cbn; lia|done].
  - destruct c as [|b|]; [done| |done]. destruct r; [|done..]. injection Hs as <-. split; [|done].
    pose proof (length_rest DefaultBufSize b).
    pose proof (take_pos DefaultBufSize b buf_pos (Hp b eq_refl)). unfold weight. cbn.
    case_decide; destruct (rest DefaultBufSize b); cbn in *; lia.
  - destruct c; [done..|]. destruct r; [|done..]. injection Hs as <-.
    split; [unfold weight; cbn; lia|done].
  - destruct r; [done| |done]. injection Hs as <-. split; [unfold weight; cbn; lia|done].
  - destruct r; [done| |done]. unfold quit in Hs. cbn in Hs. destruct x; try done;
      injection Hs as <-; (split; [unfold weight; cbn; lia|done]).
  - destruct x; [done|..|done].
    + injection Hs as <-. split; [unfold weight; cbn; lia|done].
    + destruct c; [done..|]. destruct r; [done..|]. injection Hs as <-.
      split; [unfold weight; cbn; lia|done].
Qed.

Lemma rest_nonempty n b b' : rest n b = Some b' -> b' ≠ [].
Proof. unfold rest. by destruct (drop n b); intros [= <-]. Qed.

Lemma stream_ok_step a s s' : ok s -> step a s = Some s' -> ok s'.
Proof.
  intros [Hp Ho Hv] Hs.
  destruct a; cbn [step] in Hs.
  - destruct (writing s); [done|]. destruct (closed s); [done|]. by injection Hs as <-.
  - destruct (writing s); [|done]. destruct (closed s); [|done]. by injection Hs as <-.
  - destruct (copy s); [|done..]. destruct (writing s) as [b|]; [|done]. injection Hs as <-.
    split; cbn; [|by intros Hr; specialize (Ho Hr)|by intros Ht; destruct (Hv Ht)].
    intros b'. destruct b as [|x b]; [done|]. intros [= <-] Ht.
    pose proof (take_pos copyBufSize (x :: b) copy_pos ltac:(done)) as Hl. rewrite Ht in Hl. cbn in Hl. lia.
  - destruct (copy s); [|done..]. destruct (closed s); [|done]. injection Hs as <-.
    split; cbn; [done..|]. by intros Ht; destruct (Hv Ht).
  - destruct (copy s) as [|b|]; [done| |done]. destruct (read s); [|done..]. injection Hs as <-.
    split; cbn; [|by case_decide|by intros Ht; destruct (Hv Ht)].
    intros b'. destruct (rest _ b) eqn:E; [|done]. intros [= <-]. by eapply rest_nonempty.
  - destruct (copy s) eqn:Ec; [done..|]. destruct (read s); [|done..]. injection Hs as <-.
    split; cbn; rewrite ?Ec; done.
  - destruct (read s); [done| |done]. injection Hs as <-. split; cbn; [done..|].
    by intros Ht; destruct (Hv Ht).
  - destruct (read s); [done| |done]. destruct (quit s); [|done]. injection Hs as <-.
    split; cbn; [done..|]. by intros Ht; destruct (Hv Ht).
  - destruct (tear s); [..|done]; [by injection Hs as <-..|].
    destruct (copy s) eqn:Ec; [done..|]. destruct (read s) eqn:Er; [done..|]. injection Hs as <-.
    split; cbn; rewrite ?Ec, ?Er; done.
Qed.

Lemma stream_ok_start : ok start.
Proof. by split. Qed.

Lemma stream_exec_ok l s : exec step l start = Some s -> ok s.
Proof. apply (exec_inv step ok); [apply stream_ok_step|apply stream_ok_start]. Qed.

Definition closing (s : t) : Prop := ok s /\ closed s = true.

Lemma closing_step a s s' : closing s -> step a s = Some s' -> closing s'.
Proof. intros [Hs Hc] Ha. split; [by eapply stream_ok_step|by eapply step_weight]. Qed.

Lemma closing_sn s : closing s -> sn (any step) s.
Proof.
  remember (weight s) as n eqn:Hn. revert s Hn. induction n as [n IH] using lt_wf_ind.
  intros s -> Hs. constructor. intros s' [a Ha]. destruct Hs as [Hs Hc].
  destruct (step_weight _ _ _ Hs Hc Ha) as [Hw Hc']. eapply IH; [done..|].
  split; [by eapply stream_ok_step|done].
Qed.

(** The steps that need no other handler. *)
Definition own (a : action) : bool := match a with Write _ | Hands => false | _ => true end.

Definition stuck (s : t) : Prop := forall a, own a = true -> step a s = None.

(** Nobody is left waiting for anybody. *)
Lemma stream_progress s : closing s -> stuck s -> tear s = Over /\ writing s = None.
Proof.
  intros [[Hp Ho Hv] Hc] Hn.
  assert (Hw : writing s = None).
  { specialize (Hn Abandon eq_refl). cbn [step] in Hn. rewrite Hc in Hn. by destruct (writing s). }
  split; [|done]. pose proof (Hn TearsDown eq_refl) as Ht. cbn [step] in Ht.
  destruct (tear s) eqn:E; [done..| |done]. exfalso.
  assert (Hd : forall c, read s ≠ Handing c).
  { intros c Hr. specialize (Hn Drops eq_refl). cbn [step] in Hn. rewrite Hr in Hn. unfold quit in Hn.
    by rewrite E in Hn. }
  destruct (copy s) as [|b|] eqn:Ec.
  - specialize (Hn CopyEnds eq_refl). cbn [step] in Hn. by rewrite Ec, Hc in Hn.
  - specialize (Hn Reads eq_refl). cbn [step] in Hn. rewrite Ec in Hn.
    destruct (read s) as [c|c|]; [done|by eapply Hd|by specialize (Ho eq_refl)].
  - specialize (Hn ReadEnds eq_refl). cbn [step] in Hn. rewrite Ec in Hn.
    destruct (read s) as [c|c|]; [done|by eapply Hd|done].
Qed.
End Transport.

(** ** Properties *)
Module TransportProperties.
Import Transport.

(** C16: the goroutines of a stream are the queue of [HashMail]: as long as the
    stream is not torn down, whatever the interleaving, what has been handed on is
    what rounds of [assemble] give for the pieces of everything that was
    written; and when all the goroutines wait with nothing in their hands, no
    piece is left. *)
Theorem goroutines_refine_queue acts s :
  exec step acts start = Some s -> tear s = Live ->
  exists left, assembles (concat (chunksOf <$> written acts)) (handed s) left /\
    (writing s = None -> copy s = Copying -> read s = Reading [] -> left = []).
Proof.
  intros Hr Hl. destruct (run_carries _ [] _ _ carries_start Hr Hl) as [_ _ (tail & Ha & Ht)].
  cbn [app] in Ha. eexists. split; [exact Ha|]. intros Hw Hc Hd. unfold pending.
  rewrite Hc, Hw, app_nil_r. cbn [app]. rewrite Hd in Ht. destruct Ht as [Hf Ht].
  destruct Hf as [|c cs Hc0 _]; [done|]. cbn in Ht. apply app_nil in Ht as [-> _].
  pose proof buf_pos. cbn in Hc0. lia.
Qed.

(** C17: [tearDown] returns: once it has closed the pipe, whatever is still on its
    way and whoever waits for it, finitely many steps are left, and when none is
    left that the stream can take without a reader, the call is back, both
    goroutines are over and no write is stuck. *)
Theorem tear_down_returns acts s :
  exec step acts start = Some s -> closed s = true ->
  sn (any step) s /\
  forall s', rtc (any step) s s' -> stuck s' ->
    tear s' = Over /\ copy s' = CopyOver /\ read s' = ReadOver /\ writing s' = None.
Proof.
  intros Hr Hc. assert (Hs : closing s) by (split; [by eapply stream_exec_ok|done]).
  split; [by apply closing_sn|]. intros s' Hr' Hnf.
  pose proof (any_inv step closing _ _ closing_step Hs Hr') as Hs'.
  destruct (stream_progress _ Hs' Hnf) as [Ht Hw]. destruct Hs' as [[_ _ Hv] _].
  by destruct (Hv Ht) as [-> ->].
Qed.

(** *** Witnesses: a message that is handed on, and one that is on its way when the
    stream is torn down *)
Definition toy_message : list byte := [Byte.x02; Byte.x61; Byte.x62].
Definition toy_actions : list action :=
  [Write toy_message; CopyReads; Reads; Hands; Write toy_message; CopyReads; Reads].

Definition toy_state : t := {|
  writing := None; copy := Copying; read := Handing toy_message; tear := Live;
  handed := [toy_message] |}.

Lemma goroutines_refine_queue_witness :
  exists left, assembles (concat (chunksOf <$> [toy_message; toy_message])) [toy_message] left.
Proof.
  destruct (goroutines_refine_queue toy_actions toy_state) as (left & Ha & _).
  - vm_compute. reflexivity.
  - reflexivity.
  - exists left. exact Ha.
Defined.

Lemma tear_down_returns_witness : sn (any step) (set_tear PipeClosed toy_state).
Proof.
  refine (proj1 (tear_down_returns (toy_actions ++ [TearsDown]) (set_tear PipeClosed toy_state) _ _)).
  - vm_compute. reflexivity.
  - reflexivity.
Defined.

End TransportProperties.
