(* ===== verification/System.v ===== *)
(** * The system: proxy, authenticator, mint, challenger, relay and client
    together

    The components are composed as [aperture.go] composes them: the proxy's
    authenticator mints and verifies with the mint, the mint and the challenger
    share one store of secrets, and the challenger gets its invoices from the
    relay. *)
From S2P Require Import Prelude.
From S2P Require Import GoStrings.
From S2P Require Import GoCodec.
From S2P Require Import GoTime.
From S2P Require Import Caveat.
From S2P Require Import Sha256.
From S2P Require Import Macaroon.
From S2P Require Import Identifier.
From S2P Require Import Http.
From S2P Require Import Header.
From S2P Require Import Token.
From S2P Require Import Challenge.
From S2P Require Import Database.
From S2P Require Import Secrets.
From S2P Require Import Mint.
From S2P Require Import Freebie.
From S2P Require Import Service.
From S2P Require Import Auth.
From S2P Require Import Proxy.
From S2P Require Import Challenger.
From S2P Require Import Relay.

Module System.

(** ** A token's way: from the challenge to the next request

    What the client makes of the challenge text once the invoice with [hash] is
    paid and [preimage] is known: the steps of [payLsatToken],
    [addLsatCredentials] and [GetRequestMetadata], and the header field in which
    the credential arrives. *)
Section Cycle.
Context `{L402Lib}.

Definition clientHeader (now : time) (text : string) (hash preimage : list byte) : outcome header :=
  '(macBase64, _) ← of_option (Errorf "invalid auth header format") (authHeaderRegex_find text);
  macBytes ← errorf "base64 decode of macaroon failed" (b64_DecodeString macBase64);
  tok ← Token.tokenFromChallenge now macBytes hash;
  pm ← Token.PaidMacaroon {|
    Token.PaymentHash := Token.PaymentHash tok; Token.Preimage := preimage;
    Token.AmountPaid := 0; Token.RoutingFeePaid := 0; Token.TimeCreated := Token.TimeCreated tok;
    Token.baseMac := Token.baseMac tok |};
  md ← GetRequestMetadata (NewMacaroonCredential pm false);
  Ok {[HeaderMacaroon := [default "" (md !! "macaroon")]]}.

Context `{!L402Laws}.

(** What arrives at the server: the macaroon of the challenge with the preimage
    caveat, and the preimage. *)
Lemma clientHeader_arrives now mac macBytes inv p h :
  mac_MarshalBinary mac = Ok macBytes ->
  lacks dq inv = true -> lacks "010" inv = true -> is_array 32 p ->
  clientHeader now (challengeText (b64_EncodeToString macBytes) inv) (Preimage_Hash p) p = Ok h ->
  exists pm, AddFirstPartyCaveats mac [Caveat.NewCaveat Caveat.PreimageKey (Preimage_String p)] = Ok pm /\
             FromHeader h = Ok (pm, p).
Proof.
  intros Hm Hq Hn Hp E. unfold clientHeader in E.
  rewrite challenge_parse in E by done. cbn [of_option mbind outcome_bind] in E.
  rewrite b64_roundtrip in E. cbn [errorf mbind outcome_bind] in E.
  unfold Token.tokenFromChallenge in E. rewrite (Unmarshal_Marshal _ _ Hm) in E.
  cbn [errorf mbind outcome_bind] in E. rewrite MakeHash_spec in E by apply Hash_length.
  cbn [mbind outcome_bind Token.PaymentHash Token.TimeCreated Token.baseMac] in E.
  apply bind_Ok_inv in E as (pm & Hpm & E). apply bind_Ok_inv in E as (md & Hmd & E).
  apply (inj Ok) in E. exists pm. split; [exact Hpm|].
  pose proof (Token.PaidMacaroon_preimage _ _ Hpm) as Hc. cbn [Token.Preimage] in Hc.
  destruct (FromHeader_credential pm _ md h Hmd eq_refl (eq_sym E)) as [Hf|Hf].
  - rewrite Hf, Hc. cbn [of_option mbind outcome_bind]. by rewrite MakePreimage_String.
  - exfalso. unfold GetRequestMetadata in Hmd. apply bind_Ok_inv in Hmd as (b & Hb & Hmd).
    apply (inj Ok) in Hmd as <-. cbn [mcMacaroon NewMacaroonCredential] in Hb.
    apply Marshal_nonempty in Hb. subst h. rewrite lookup_singleton_eq in Hf.
    cbn [default from_option id] in Hf. unfold FromHeader in Hf.
    set (hd := {[HeaderMacaroon := [hex_EncodeToString b]]} : header) in Hf.
    assert (G1 : Get hd HeaderAuthorization = "") by done.
    assert (G2 : Get hd HeaderMacaroonMD = "") by done.
    assert (G3 : Get hd HeaderMacaroon = hex_EncodeToString b) by done.
    rewrite G1, G2, G3 in Hf. rewrite !(decide_False (P := "" ≠ "")) in Hf by naive_solver.
    rewrite decide_True in Hf by by destruct b.
    assert (Hno : forall s, fromMacaroonHex s ≠ Err (Errorf "no auth header provided")).
    { intros s. unfold fromMacaroonHex. destruct (hex_DecodeString s) as [x| |]; cbn; [|done..].
      destruct (mac_UnmarshalBinary x) as [y| |]; cbn; [|done..].
      destruct (HasCaveat y _); cbn; [|done]. by destruct (MakePreimageFromStr _). }
    by apply (Hno _ Hf).
Qed.
End Cycle.

(** ** The running server

    One store of secrets serves the mint and the challenger.  A step is a request
    the proxy serves or an invoice update the challenger reads; both run under
    the locks of their components, and a request is served at one instant, with
    the cache and the store as they are then.  How the database answers its reads
    may change at any time, without a change of what it holds. *)
Section Run.
Context `{L402Lib}.
Context {S C L : Type} `{!SecretStore S} `{!Challenger C} `{!ServiceLimiter L}.
Variable e : Service.env.
Variable locals : list (request -> bool).
Variables (ch : nat -> C) (lim : L) (rand : nat -> outcome (list byte)).

Record sys := {
  sServices : list Service.t;
  sSecrets : S;
  sCache : LnproxyChallenger.states;
  sDraws : nat
}.

Abbreviation authn :=
  (LsatAuth.LsatAuthenticator (mint_state S C L) (LnproxyChallenger.running S)).

(** The authenticator, at an instant. *)
Definition auth_of (now : time) (s : sys) : authn := {|
  LsatAuth.minter := {| ms_secrets := sSecrets s; ms_challenger := ch; ms_limiter := lim;
                        ms_rand := rand; ms_draws := sDraws s; ms_now := now |};
  LsatAuth.checker := {|
    LnproxyChallenger.chal := {| LnproxyChallenger.invoiceStates := sCache s;
                                 LnproxyChallenger.secrets := sSecrets s |};
    LnproxyChallenger.sees := []; LnproxyChallenger.clock := now |}
|}.

Definition proxy_of (now : time) (s : sys) : Proxy.t authn :=
  {| Proxy.localServices := locals; Proxy.authenticator := auth_of now s;
     Proxy.services := sServices s |}.

(** A request: the minting it may cause changes the shared store. *)
Definition serve (now : time) (w : header) (r : request) (s : sys) : sys * outcome Proxy.action :=
  let '(p', a) := Proxy.ServeHTTP e (proxy_of now s) w r in
  let m := LsatAuth.minter (Proxy.authenticator p') in
  ({| sServices := Proxy.services p'; sSecrets := ms_secrets m; sCache := sCache s;
      sDraws := ms_draws m |}, a).

Definition with_store (st : S) (s : sys) : sys :=
  {| sServices := sServices s; sSecrets := st; sCache := sCache s; sDraws := sDraws s |}.

(** An invoice update. *)
Definition update (now : time) (i : LnproxyChallenger.invoice) (s : sys) : sys :=
  let l := (LnproxyChallenger.onUpdate now i
              {| LnproxyChallenger.invoiceStates := sCache s;
                 LnproxyChallenger.secrets := sSecrets s |}).1 in
  {| sServices := sServices s; sSecrets := LnproxyChallenger.secrets l;
     sCache := LnproxyChallenger.invoiceStates l; sDraws := sDraws s |}.

Inductive event :=
  | Served (now : time) (r : request) (a : outcome Proxy.action)
  | Updated (now : time) (i : LnproxyChallenger.invoice).

Inductive reach (s0 : sys) : list event -> sys -> Prop :=
  | reach_init : reach s0 [] s0
  | reach_serve tr s now w r s' a :
      reach s0 tr s -> serve now w r s = (s', a) -> reach s0 (tr ++ [Served now r a]) s'
  | reach_update tr s now i :
      reach s0 tr s -> LnproxyChallenger.hashed i ->
      reach s0 (tr ++ [Updated now i]) (update now i s)
  | reach_store tr s st :
      reach s0 tr s -> same_contents (sSecrets s) st -> reach s0 tr (with_store st s).

(** The update that reported a settlement. *)
Definition reported_settled (tr : list event) (h : list byte) : Prop :=
  exists now i, Updated now i ∈ tr /\ LnproxyChallenger.RHash i = Some h /\
                LnproxyChallenger.State i = SETTLED.

Context `{!L402Laws}.

Lemma reported_snoc tr ev h : reported_settled tr h -> reported_settled (tr ++ [ev]) h.
Proof.
  intros (now & i & Hin & Hr). exists now, i. split; [|done].
  apply elem_of_app. by left.
Qed.

(** A hash is cached as settled only after an update said so. *)
Lemma cached_settled_was_reported s0 tr s h :
  sCache s0 = ∅ -> reach s0 tr s -> sCache s !! h = Some SETTLED -> reported_settled tr h.
Proof.
  intros Hs0 Hr. induction Hr as [|tr s now w r s' a Hr IH Hs|tr s now i Hr IH Hi|tr s st Hr IH Hst]; intros Hc.
  - rewrite Hs0, lookup_empty in Hc. done.
  - apply reported_snoc, IH. unfold serve in Hs. destruct (Proxy.ServeHTTP _ _ _ _) as [p' a'].
    by injection Hs as <- <-.
  - unfold update in Hc. cbn [sCache] in Hc.
    destruct (LnproxyChallenger.onUpdate_states
      {| LnproxyChallenger.invoiceStates := sCache s; LnproxyChallenger.secrets := sSecrets s |}
      now i Hi) as [_ Hm].
    rewrite Hm in Hc. unfold LnproxyChallenger.effect in Hc. cbn [fst snd] in Hc.
    case_decide as Hh.
    + destruct (LnproxyChallenger.invoiceIrrelevant now (Some i)); [done|].
      injection Hc as Hc. exists now, i. split; [|done].
      apply elem_of_app. right. by left.
    + apply reported_snoc, IH. exact Hc.
  - exact (IH Hc).
Qed.

(** What an accepted request has shown. *)
Lemma accepted_shows now s h name :
  LsatAuth.Accept (auth_of now s) h name = true ->
  exists mac preimage id secret raw at_,
    FromHeader h = Ok (mac, preimage) /\
    Identifier.DecodeIdentifier (mac_Id mac) = Ok id /\
    Preimage_Hash preimage = Identifier.PaymentHash id /\
    GetSecret (sSecrets s) (Sum256 (mac_Id mac)) = Ok secret /\
    mac_VerifySignature mac secret = Ok raw /\
    Caveat.VerifyCaveats (Mint.decodable raw) (Mint.satisfiers name now) = Ok tt /\
    sCache s !! Identifier.PaymentHash id = Some SETTLED /\
    GetSettledAtByPaymentHash (sSecrets s) (Identifier.PaymentHash id) = Ok (Some at_) /\
    Before (Add at_ LsatAuth.L402RightExpiryDuration) now = false.
Proof.
  intros Ha. apply LsatAuth.Accept_true in Ha as (mac & preimage & u & Hf & Hv & Hi & Hr).
  cbn in Hv. apply Mint.VerifyL402_Ok in Hv as (id & secret & raw & Hd & Hp & Hs & Hm & Hc).
  cbn [Mint.vpMacaroon Mint.vpPreimage Mint.vpTargetService auth_of LsatAuth.minter ms_secrets ms_now] in *.
  cbn [VerifyInvoiceStatus VerifyRightsWithinExpiry LnproxyChallenger.checker] in Hi, Hr.
  apply LnproxyChallenger.VerifyInvoiceStatus_Ok in Hi.
  apply Exists_cons in Hi as [Hi|Hi]; [|by apply Exists_nil in Hi].
  cbn [LsatAuth.checker LnproxyChallenger.chal LnproxyChallenger.clock auth_of
       LnproxyChallenger.invoiceStates] in Hi, Hr.
  unfold LnproxyChallenger.VerifyRightsWithinExpiry in Hr. cbn [LnproxyChallenger.secrets] in Hr.
  apply bind_Ok_inv in Hr as ([at_|] & Hg & Hr); [|done].
  destruct (Before _ now) eqn:Hb; [done|].
  rewrite Hp in *. by exists mac, preimage, id, secret, raw, at_.
Qed.

(** A request that needs authentication and has a price is forwarded only when the
    authenticator accepts it. *)
Lemma forwarded_was_accepted now w r s s' out i target level :
  serve now w r s = (s', Ok (Proxy.Forward out)) ->
  Proxy.matchService e r (sServices s) = Ok (Some (i, target)) ->
  Service.AuthRequired e target r = Ok level -> Level.IsOn level = true ->
  (forall recipient, ~ Proxy.priced target r recipient 0) ->
  LsatAuth.Accept (auth_of now s) (rHeader r) (Service.ResourceName target (rPath r)) = true.
Proof.
  intros Hs Hm Hl Hon Hpr. unfold serve in Hs.
  destruct (Proxy.ServeHTTP _ _ _ _) as [p' a] eqn:E. injection Hs as _ ->.
  apply Proxy.ServeHTTP_Forward in E as (_ & i' & target' & Hm' & Hadm).
  cbn [Proxy.services proxy_of] in Hm'. rewrite Hm in Hm'. injection Hm' as <- <-.
  destruct Hadm as [j t l Hl' Hoff _|j t Ha|j t rcp Hfree|j t l db Hl' Hfb _ _].
  - congruence.
  - exact Ha.
  - by destruct (Hpr rcp).
  - rewrite Hl in Hl'. injection Hl' as <-. by rewrite Level.IsOn_not_freebie in Hfb.
Qed.
End Run.
Arguments sys : clear implicits.
Arguments event : clear implicits.

(** ** The price range of challenges a relay with default parameters wraps *)
Lemma relay_value_range price mf :
  0 <= price <= 10 ^ 6 ->
  is_ok (Relay.wrapValue Relay.NewRelay (Some (LnproxyChallenger.getRoutingMsat price))
           (1000 * price) mf) = true <-> price <= 8000.
Proof.
  intros Hp. unfold Relay.wrapValue.
  rewrite LnproxyChallenger.getRoutingMsat_spec by (unfold maxInt64; lia).
  destruct (Relay.routingFee_exact Relay.NewRelay (1000 * price) Relay.NewRelay_tame ltac:(lia))
    as [-> _].
  cbn [Relay.RoutingFeeBaseMsat Relay.RoutingFeePPM Relay.MinFeeBudgetMsat Relay.NewRelay].
  replace (1000 * price * 1000) with (price * 1000000) by lia. rewrite Z.div_mul by lia.
  rewrite (u64_small (1000 + _)) by lia.
  assert (price * 3 / 100 <= price) by zlia.
  case_decide as Hd; cbn [is_ok].
  - split; [done|]. lia.
  - split; [|done]. lia.
Qed.

(** The checks of the relay that do not concern the amount. *)
Definition otherwise_fine (ln : Relay.LN) (now : Z) (x : Relay.ProxyParameters)
    (p : Relay.DecodedInvoice) : Prop :=
  Relay.DecodeInvoice ln (Relay.Invoice x) = Ok p /\
  (exists mf mc, Relay.EstimateRoutingFee ln p 0 = Ok (mf, mc) /\
                 is_ok (Relay.wrapCltv Relay.NewRelay mc) = true) /\
  forallb Relay.knownFeature (Relay.Features p) = true /\
  is_ok (hex_DecodeString (Relay.PaymentHash p)) = true /\
  is_ok (Relay.wrapDescription x p) = true /\
  is_ok (Relay.wrapExpiry Relay.NewRelay (Relay.Timestamp p) (Relay.dExpiry p) now now) = true.

Lemma is_ok_bind {A B} (o : outcome A) (f : A -> outcome B) :
  is_ok o = true -> exists a, o = Ok a /\ (o ≫= f) = f a.
Proof. destruct o as [a| |]; [|done..]. intros _. by exists a. Qed.

Lemma relay_price_range ln now x p price :
  otherwise_fine ln now x p -> Relay.NumMsat p = 1000 * price -> 0 <= price <= 10 ^ 12 ->
  Relay.RoutingMsat x = Some (LnproxyChallenger.getRoutingMsat price) ->
  is_ok (Relay.wrap Relay.NewRelay ln now now x) = true <-> 10 <= price <= 8000.
Proof.
  intros (Hp & (mf & mc & He & Hc) & Hf & Hh & Hd & Hx) Hn Hpr Hr.
  unfold Relay.wrap. rewrite Hp. cbn [mbind outcome_bind]. rewrite Hn.
  cbn [Relay.MinAmountMsat Relay.MaxAmountMsat Relay.NewRelay].
  case_decide; [cbn; split; [done|lia]|]. case_decide; [cbn; split; [done|lia]|].
  case_decide; [cbn; split; [done|lia]|]. rewrite He. cbn [mbind outcome_bind]. rewrite Hf.
  cbn [negb].
  destruct (hex_DecodeString _) as [hash| |]; [|done..]. cbn [mbind outcome_bind].
  destruct (Relay.wrapDescription x p) as [[memo dh]| |]; [|done..]. cbn [mbind outcome_bind].
  destruct (Relay.wrapExpiry _ _ _ _ _) as [ex| |]; [|done..]. cbn [mbind outcome_bind].
  destruct (Relay.wrapCltv _ _) as [cl| |]; [|done..]. cbn [mbind outcome_bind].
  rewrite Hr. rewrite <- Hn, Hn. pose proof (relay_value_range price mf ltac:(lia)) as Hv.
  destruct (Relay.wrapValue _ _ _ _) as [[v b]| |]; cbn [mbind outcome_bind is_ok] in *;
    rewrite Hv; lia.
Qed.

(** ** Properties *)
Section Properties.
Context `{L402Lib} `{!L402Laws}.

(** C1: in a server that started with an empty cache, after any history of
    requests and invoice updates, a request that needs authentication and whose
    resource has a price reaches the backend only if it carries a macaroon of
    this server's store whose signature and caveats verify for the resource, with
    the preimage of its payment hash, after an update reported the invoice of
    this hash settled, and not later than an hour after the recorded settlement, as
    the store reads it back. *)
Theorem served_requests_are_paid {S C L : Type} `{!SecretStore S} `{!Challenger C}
    `{!ServiceLimiter L} e locals (ch : nat -> C) (lim : L) rand (s0 s s' : sys S) tr now w r out i target level :
  sCache s0 = ∅ ->
  reach e locals ch lim rand s0 tr s ->
  serve e locals ch lim rand now w r s = (s', Ok (Proxy.Forward out)) ->
  Proxy.matchService e r (sServices s) = Ok (Some (i, target)) ->
  Service.AuthRequired e target r = Ok level -> Level.IsOn level = true ->
  (forall recipient, ~ Proxy.priced target r recipient 0) ->
  exists mac preimage id secret raw at_,
    FromHeader (rHeader r) = Ok (mac, preimage) /\
    Identifier.DecodeIdentifier (mac_Id mac) = Ok id /\
    Preimage_Hash preimage = Identifier.PaymentHash id /\
    GetSecret (sSecrets s) (Sum256 (mac_Id mac)) = Ok secret /\
    mac_VerifySignature mac secret = Ok raw /\
    Caveat.VerifyCaveats (Mint.decodable raw)
      (Mint.satisfiers (Service.ResourceName target (rPath r)) now) = Ok tt /\
    reported_settled tr (Identifier.PaymentHash id) /\
    GetSettledAtByPaymentHash (sSecrets s) (Identifier.PaymentHash id) = Ok (Some at_) /\
    Before (Add at_ LsatAuth.L402RightExpiryDuration) now = false.
Proof.
  intros Hs0 Hr Hs Hm Hl Hon Hpr.
  pose proof (forwarded_was_accepted _ _ _ _ _ _ _ _ _ _ _ _ _ _ Hs Hm Hl Hon Hpr) as Hacc.
  apply accepted_shows in Hacc as (mac & pre & id & secret & raw & at_ & H1 & H2 & H3 & H4 & H5 & H6 & H7 & H8 & H9).
  exists mac, pre, id, secret, raw, at_. repeat (split; [done|]). split; [|done].
  by eapply cached_settled_was_reported.
Qed.

(** A minted token that carries its preimage is accepted for its service while
    its secret is in the store and its limits last, once its invoice is settled
    and its right recorded. *)
Lemma minted_accepted {S C L K : Type} `{!SecretStore S} `{!SecretStoreLaws S}
    `{!Challenger C} `{!ChallengerLaws C} `{!ServiceLimiter L} `{!InvoiceChecker K}
    (ch : C) (lim : L) rnd (st : S) svc st' mac inv caps cons_ tos p pm h (k : K) m :
  Mint.MintL402 ch lim rnd st [svc] = (st', Ok (mac, inv)) ->
  LsatService.plain svc -> 0 < LsatService.Price svc ->
  ServiceCapabilities lim [svc] = Ok caps -> ServiceConstraints lim [svc] = Ok cons_ ->
  ServiceTimeouts lim [svc] = Ok tos -> Forall Mint.foreign (caps ++ cons_ ++ tos) ->
  NewChallenge ch (LsatService.RecipientLud16 svc) (LsatService.Price svc)
    = Ok (inv, Preimage_Hash p) ->
  AddFirstPartyCaveats mac [Caveat.NewCaveat Caveat.PreimageKey (Preimage_String p)] = Ok pm ->
  FromHeader h = Ok (pm, p) ->
  held (ms_secrets m) (Sum256 (mac_Id mac)) = held st' (Sum256 (mac_Id mac)) ->
  is_ok (GetSecret (ms_secrets m) (Sum256 (mac_Id mac))) = true ->
  Mint.in_time (LsatService.Name svc) (ms_now m) (caps ++ cons_ ++ tos) ->
  VerifyInvoiceStatus k (Preimage_Hash p) SETTLED DefaultInvoiceLookupTimeout = Ok tt ->
  VerifyRightsWithinExpiry k (Preimage_Hash p) LsatAuth.L402RightExpiryDuration = Ok tt ->
  LsatAuth.Accept (M := mint_state S C L) {| LsatAuth.minter := m; LsatAuth.checker := k |} h
    (LsatService.Name svc) = true.
Proof.
  intros Hm Hpl Hpos Hcap Hcon Hto Hfor Hch Hpm Hfh Hsec Hans Htime Hstat Hright.
  apply LsatAuth.Accept_true. exists pm, p, tt. split; [exact Hfh|]. split; [|by split].
  cbn [mint_VerifyL402 mint_minter LsatAuth.minter].
  set (pc := Caveat.NewCaveat Caveat.PreimageKey (Preimage_String p)) in *.
  assert (Hdet : Mint.paymentDetailsForMaxPrice [svc] =
    (LsatService.RecipientLud16 svc, LsatService.Price svc)).
  { unfold Mint.paymentDetailsForMaxPrice. cbn [foldl]. by rewrite decide_True. }
  eapply (Mint.minted_verify ch lim rnd st [svc] st' (ms_secrets m) mac inv caps cons_ tos [pc] pm (Preimage_Hash p));
    [exact Hm|done|by constructor|done..| |exact Hpm|by rewrite Hdet|done|exact Hsec|exact Hans|].
  - apply Forall_app in Hfor as [Hf1 Hf2]. apply Forall_app in Hf2 as [Hf2 Hf3].
    repeat apply Forall_app_2; [done..|]. by repeat constructor.
  - split; [by left|].
    replace (caps ++ cons_ ++ tos ++ [pc]) with ((caps ++ cons_ ++ tos) ++ [pc])
      by by rewrite <- !app_assoc.
    apply Mint.in_time_other; [|done].
    intros E. apply (f_equal String.length) in E. rewrite string_length_app in E. cbn in E. lia.
Qed.

(** The whole way of a token's text: the challenge the server makes is parsed by
    the client, and once the invoice is paid, settled and recorded, the request the
    client sends with the token is accepted for its service while its time limit
    lasts, whatever the macaroon library and the limiter's caveats are. *)
Theorem paid_challenge_is_accepted {S C L K : Type} `{!SecretStore S} `{!SecretStoreLaws S}
    `{!Challenger C} `{!ChallengerLaws C} `{!ServiceLimiter L} `{!InvoiceChecker K}
    (ch : C) (lim : L) rnd (st : S) svc st' mac inv caps cons_ tos macBytes p h (k : K) m cnow :
  Mint.MintL402 ch lim rnd st [svc] = (st', Ok (mac, inv)) ->
  LsatService.plain svc -> 0 < LsatService.Price svc ->
  ServiceCapabilities lim [svc] = Ok caps -> ServiceConstraints lim [svc] = Ok cons_ ->
  ServiceTimeouts lim [svc] = Ok tos -> Forall Mint.foreign (caps ++ cons_ ++ tos) ->
  mac_MarshalBinary mac = Ok macBytes -> lacks dq inv = true -> lacks "010" inv = true ->
  NewChallenge ch (LsatService.RecipientLud16 svc) (LsatService.Price svc)
    = Ok (inv, Preimage_Hash p) ->
  is_array 32 p ->
  clientHeader cnow (challengeText (b64_EncodeToString macBytes) inv) (Preimage_Hash p) p = Ok h ->
  ms_secrets m = st' -> is_ok (GetSecret st' (Sum256 (mac_Id mac))) = true ->
  Mint.in_time (LsatService.Name svc) (ms_now m) (caps ++ cons_ ++ tos) ->
  VerifyInvoiceStatus k (Preimage_Hash p) SETTLED DefaultInvoiceLookupTimeout = Ok tt ->
  VerifyRightsWithinExpiry k (Preimage_Hash p) LsatAuth.L402RightExpiryDuration = Ok tt ->
  LsatAuth.Accept (M := mint_state S C L) {| LsatAuth.minter := m; LsatAuth.checker := k |} h
    (LsatService.Name svc) = true.
Proof.
  intros Hm Hpl Hpos Hcap Hcon Hto Hfor Hmb Hq Hn Hch Hp Hcl Hst Hans Htime Hstat Hright.
  destruct (clientHeader_arrives cnow mac macBytes inv p h Hmb Hq Hn Hp Hcl) as (pm & Hpm & Hfh).
  eapply minted_accepted;
    [exact Hm|exact Hpl|exact Hpos|exact Hcap|exact Hcon|exact Hto|exact Hfor|exact Hch|exact Hpm|exact Hfh
    |by rewrite Hst|by rewrite Hst|done..].
Qed.
End Properties.

(** A relay with default parameters wraps the invoice of a challenge exactly
    when its price is between 10 and 8000 sats: above, the routing budget the
    challenger offers is too low. *)
Theorem challenge_price_range ln now x p price :
  otherwise_fine ln now x p -> Relay.NumMsat p = 1000 * price -> 0 <= price <= 10 ^ 12 ->
  Relay.RoutingMsat x = Some (LnproxyChallenger.getRoutingMsat price) ->
  is_ok (Relay.wrap Relay.NewRelay ln now now x) = true <-> 10 <= price <= 8000.
Proof. apply relay_price_range. Qed.

Lemma challenge_price_range_witness :
  is_ok (Relay.wrap Relay.NewRelay RelayProperties.toy_ln 1100 1100
    (RelayProperties.toy_request (Some 10000))) = true.
Proof.
  apply (challenge_price_range RelayProperties.toy_ln 1100 (RelayProperties.toy_request (Some 10000))
    RelayProperties.toy_invoice 1000).
  - split; [reflexivity|]. split; [exists 2000, 80; split; reflexivity|].
    split; [reflexivity|]. split; [reflexivity|]. split; [reflexivity|]. vm_compute. reflexivity.
  - reflexivity.
  - split; discriminate.
  - reflexivity.
  - split; discriminate.
Defined.

(** *** The toy server *)
Section Toy.
#[local] Existing Instance ToyLib.lib.
#[local] Existing Instance ToyLib.laws.

Definition toy_hash : list byte := Sum256 ToyMint.preimage.
Definition toy_text : string := challengeText (b64_EncodeToString (ToyLib.marshal ToyMint.mac)) "lnbc1".
Definition toy_header : header :=
  ok_or ∅ (clientHeader (Unix 1000) toy_text toy_hash ToyMint.preimage).
Definition toy_minter : mint_state DBStore.store (list byte) unit := {|
  ms_secrets := ToyMint.store'; ms_challenger _ := ToyMint.preimage; ms_limiter := tt;
  ms_rand _ := ToyMint.rand; ms_draws := 0; ms_now := Unix 1050 |}.
Definition toy_checker : LnproxyChallenger.running DBStore.store := {|
  LnproxyChallenger.chal := ChallengerProperties.settled_state;
  LnproxyChallenger.sees := []; LnproxyChallenger.clock := Unix 1050 |}.

Lemma paid_challenge_is_accepted_witness :
  LsatAuth.Accept {| LsatAuth.minter := toy_minter; LsatAuth.checker := toy_checker |} toy_header "loop"
  = true.
Proof.
  apply (paid_challenge_is_accepted (SecretStoreLaws0 := DBStore.db_store_laws) (ServiceLimiter0 := ToyMint.toy_limiter)
    ToyMint.preimage tt ToyMint.rand ToyMint.store ToyMint.service ToyMint.store' ToyMint.mac "lnbc1"
    [LsatService.NewCapabilitiesCaveat "loop" "all"] []
    [LsatService.NewTimeoutCaveat "loop" 100 (Unix 1000)]
    (ToyLib.marshal ToyMint.mac) ToyMint.preimage toy_header toy_checker toy_minter (Unix 1000)).
  - apply ToyMint.minted_Ok.
  - split; [discriminate|]. split; reflexivity.
  - vm_compute. reflexivity.
  - vm_compute. reflexivity.
  - vm_compute. reflexivity.
  - vm_compute. reflexivity.
  - repeat constructor; try reflexivity; discriminate.
  - vm_compute. reflexivity.
  - vm_compute. reflexivity.
  - vm_compute. reflexivity.
  - vm_compute. reflexivity.
  - vm_compute. reflexivity.
  - vm_compute. reflexivity.
  - reflexivity.
  - vm_compute. reflexivity.
  - right. vm_compute. reflexivity.
  - vm_compute. reflexivity.
  - vm_compute. reflexivity.
Defined.

Definition toy_start : sys DBStore.store := {|
  sServices := [ProxyProperties.paid_service]; sSecrets := ToyMint.store'; sCache := ∅; sDraws := 0 |}.
Definition toy_settled : sys DBStore.store :=
  update (Unix 1011) (ChallengerProperties.toy_invoice SETTLED) toy_start.
Definition toy_paid_request : request := with_header ProxyProperties.toy_request toy_header.
Definition toy_trace : list (event) := [Updated (Unix 1011) (ChallengerProperties.toy_invoice SETTLED)].

Lemma toy_reach :
  reach ProxyProperties.toy_env [] (fun _ => ToyMint.preimage) tt (fun _ => ToyMint.rand) toy_start toy_trace toy_settled.
Proof.
  apply (reach_update _ _ _ _ _ toy_start [] toy_start).
  - constructor.
  - apply ChallengerProperties.toy_hash_array.
Qed.

Lemma served_requests_are_paid_witness : exists h, reported_settled toy_trace h.
Proof.
  destruct (served_requests_are_paid ProxyProperties.toy_env [] (fun _ => ToyMint.preimage) tt
    (fun _ => ToyMint.rand) toy_start toy_settled
    (serve ProxyProperties.toy_env [] (fun _ => ToyMint.preimage) tt (fun _ => ToyMint.rand) (Unix 1050) ∅
       toy_paid_request toy_settled).1 toy_trace (Unix 1050) ∅ toy_paid_request
    match (serve ProxyProperties.toy_env [] (fun _ => ToyMint.preimage) tt (fun _ => ToyMint.rand) (Unix 1050) ∅
             toy_paid_request toy_settled).2 with
    | Ok (Proxy.Forward out) => out | _ => toy_paid_request end
    0 ProxyProperties.paid_service "on") as (mac & p & id & secret & raw & at_ & _ & _ & _ & _ & _ & _ & Hr & _).
  - reflexivity.
  - apply toy_reach.
  - vm_compute. reflexivity.
  - vm_compute. reflexivity.
  - vm_compute. reflexivity.
  - reflexivity.
  - intros recipient (pr & r' & Hpr & Hp). vm_compute in Hpr. injection Hpr as <-. discriminate Hp.
  - exists (Identifier.PaymentHash id). exact Hr.
Defined.
End Toy.
End System.
