(* ===== verification/Aperture.v ===== *)
(** * The main program: [config.go] and [aperture.go]

    The validation and loading of the configuration, the certificate of the
    server, the making of the proxy with its local services, and the order of
    starting and stopping.  Flags, YAML, the certificate library, Tor and the
    listeners are not part of the repository. *)
From S2P Require Import Prelude.
From S2P Require Import GoStrings.
From S2P Require Import GoTime.
From S2P Require Import Steps.
From S2P Require Import Macaroon.
From S2P Require Import Http.
From S2P Require Import Service.
From S2P Require Import Auth.
From S2P Require Import Proxy.

(** ** [config.go] *)
Module Config.

Record AuthConfig := {
  Network : string;
  Disable : bool;
  LndHost : string;
  TLSPath : string;
  MacDir : string;
  Passphrase : string;
  MailboxAddress : string;
  AuthDevServer : bool
}.

Definition validateLNDAuth (a : AuthConfig) : outcome unit :=
  if decide (LndHost a = "") then Err (Errorf "lnd host required")
  else if decide (TLSPath a = "") then Err (Errorf "lnd tls required")
  else if decide (MacDir a = "") then Err (Errorf "lnd mac dir required")
  else Ok tt.

Definition validateLNCAuth (a : AuthConfig) : outcome unit :=
  if decide (Passphrase a = "") then Err (Errorf "lnc passphrase required")
  else if decide (MailboxAddress a = "") then Err (Errorf "lnc mailbox address required")
  else if decide (Network a = "") then Err (Errorf "lnc network required")
  else Ok tt.

Definition validateAuth (a : AuthConfig) : outcome unit :=
  if Disable a then Ok tt
  else if decide (LndHost a ≠ "") then
    if decide (Passphrase a ≠ "")
    then Err (Errorf "passphrase field cannot be set when connecting directly to the lnd node")
    else validateLNDAuth a
  else if decide (Passphrase a ≠ "") then validateLNCAuth a
  else Err (Errorf "invalid authenticator configuration").

Record HashMailConfig := {
  hmEnabled : bool; MessageRate : Z; MessageBurstAllowance : Z; StaleTimeout : Z
}.

Record TorConfig := { Control : string; ListenPort : Z; VirtualPort : Z; V3 : bool }.

Record t := {
  ListenAddr : string;
  ServerName : string;
  AutoCert : bool;
  Insecure : bool;
  StaticRoot : string;
  ServeStatic : bool;
  DatabaseBackend : string;
  Authenticator : AuthConfig;
  Tor : TorConfig;
  Services : list Service.t;
  HashMail : HashMailConfig;
  DebugLevel : string;
  ConfigFile : string;
  BaseDir : string;
  Profile : Z;                    (* a uint16 *)
  IdleTimeout : Z;
  ReadTimeout : Z;
  WriteTimeout : Z
}.

Definition validate (c : t) : outcome unit :=
  _ ← (if Disable (Authenticator c) then Ok tt else validateAuth (Authenticator c));
  if decide (ListenAddr c = "") then Err (Errorf "missing listen address for server") else Ok tt.

Definition defaultIdleTimeout : Z := 2 * 60 * Second.
Definition defaultReadTimeout : Z := 15 * Second.
Definition defaultWriteTimeout : Z := 30 * Second.

Definition NewConfig : t := {|
  ListenAddr := ""; ServerName := ""; AutoCert := false; Insecure := false;
  StaticRoot := ""; ServeStatic := false; DatabaseBackend := "etcd";
  Authenticator := {| Network := ""; Disable := false; LndHost := ""; TLSPath := "";
                      MacDir := ""; Passphrase := ""; MailboxAddress := "";
                      AuthDevServer := false |};
  Tor := {| Control := ""; ListenPort := 0; VirtualPort := 0; V3 := false |};
  Services := [];
  HashMail := {| hmEnabled := false; MessageRate := 0; MessageBurstAllowance := 0;
                 StaleTimeout := 0 |};
  DebugLevel := ""; ConfigFile := ""; BaseDir := ""; Profile := 0;
  IdleTimeout := defaultIdleTimeout; ReadTimeout := defaultReadTimeout;
  WriteTimeout := defaultWriteTimeout
|}.

(** *** [getConfig] *)
Definition defaultConfigFilename : string := "aperture.yaml".
Definition defaultMailboxAddress : string := "mailbox.terminal.lightning.today:443".

(** What reading a file gives. *)
Inductive readResult := Content (b : list byte) | NotExist | ReadError (e : error).

(** The flags are parsed into the configuration twice; [Unmarshal] writes the
    fields the file has into it; [CleanAndExpandPath] is lnd's. *)
Record env := {
  apertureDataDir : string;
  JoinPath : string -> string -> string;
  CleanAndExpandPath : string -> string;
  ParseFlags : t -> outcome t;
  ReadConfig : string -> readResult;
  Unmarshal : list byte -> t -> outcome t
}.

(** The configuration file and whether it must exist. *)
Definition configFile (e : env) (c : t) : string * bool :=
  if decide (ConfigFile c ≠ "") then (CleanAndExpandPath e (ConfigFile c), true)
  else if decide (BaseDir c ≠ "") then (JoinPath e (BaseDir c) defaultConfigFilename, false)
  else (JoinPath e (apertureDataDir e) defaultConfigFilename, false).

Definition clean (e : env) (c : t) : t :=
  let a := Authenticator c in
  {| ListenAddr := ListenAddr c; ServerName := ServerName c; AutoCert := AutoCert c;
     Insecure := Insecure c; StaticRoot := StaticRoot c; ServeStatic := ServeStatic c;
     DatabaseBackend := DatabaseBackend c;
     Authenticator := {| Network := Network a; Disable := Disable a; LndHost := LndHost a;
       TLSPath := CleanAndExpandPath e (TLSPath a); MacDir := CleanAndExpandPath e (MacDir a);
       Passphrase := Passphrase a;
       MailboxAddress := if decide (MailboxAddress a = "") then defaultMailboxAddress
                         else MailboxAddress a;
       AuthDevServer := AuthDevServer a |};
     Tor := Tor c; Services := Services c; HashMail := HashMail c; DebugLevel := DebugLevel c;
     ConfigFile := ConfigFile c;
     BaseDir := CleanAndExpandPath e (BaseDir c); Profile := Profile c;
     IdleTimeout := IdleTimeout c; ReadTimeout := ReadTimeout c; WriteTimeout := WriteTimeout c |}.

Definition getConfig (e : env) : outcome t :=
  cfg ← ParseFlags e NewConfig;
  let '(file, mustExist) := configFile e cfg in
  cfg ← match ReadConfig e file with
        | Content b => Unmarshal e b cfg
        | ReadError er => Err er
        | NotExist =>
            if mustExist then Err (Wrapf "config file must exist" (Sentinel "os.ErrNotExist"))
            else Ok cfg
        end;
  cfg ← ParseFlags e cfg;
  let cfg := clean e cfg in
  _ ← validate cfg;
  Ok cfg.

Definition set_DebugLevel (c : t) (level : string) : t :=
  {| ListenAddr := ListenAddr c; ServerName := ServerName c; AutoCert := AutoCert c;
     Insecure := Insecure c; StaticRoot := StaticRoot c; ServeStatic := ServeStatic c;
     DatabaseBackend := DatabaseBackend c; Authenticator := Authenticator c; Tor := Tor c;
     Services := Services c; HashMail := HashMail c; DebugLevel := level;
     ConfigFile := ConfigFile c; BaseDir := BaseDir c; Profile := Profile c;
     IdleTimeout := IdleTimeout c; ReadTimeout := ReadTimeout c; WriteTimeout := WriteTimeout c |}.

End Config.

(** ** The certificate of the server: [getTLSConfig] *)

(** The two files of the directory. *)
Record files (Cert Key : Type) := { certFile : option Cert; keyFile : option Key }.
Arguments certFile {Cert Key}.
Arguments keyFile {Cert Key}.
Arguments Build_files {Cert Key}.

(** lnd's [cert] package: certificates, their keys, making a pair and reading
    one from the files. *)
Class CertLib := {
  Cert : Type;
  Key : Type;
  NotAfter : Cert -> time;
  Organization : Cert -> list string;
  DNSNames : Cert -> list string;
  GenCertPair : time -> string -> list string -> Z -> outcome (Cert * Key);
  LoadCert : files Cert Key -> outcome (Cert * Key)
}.

(** What is loaded is what the files hold, a generated pair can be loaded, it
    carries the organization, and it is valid for the given time from now on, in
    whole seconds, but not beyond the end of 2049, where lnd cuts it off. *)
Definition endOfTime : time := Unix 2524607999.

Class CertLaws `{CertLib} : Prop := {
  Load_files f c k :
    LoadCert f = Ok (c, k) -> certFile f = Some c /\ keyFile f = Some k;
  Load_Gen now org names validity c k :
    GenCertPair now org names validity = Ok (c, k) ->
    LoadCert {| certFile := Some c; keyFile := Some k |} = Ok (c, k);
  Gen_org now org names validity c k :
    GenCertPair now org names validity = Ok (c, k) -> Organization c = [org];
  Gen_names now org names validity c k :
    GenCertPair now org names validity = Ok (c, k) -> incl names (DNSNames c);
  Gen_valid now org names validity c k :
    GenCertPair now org names validity = Ok (c, k) ->
    is_i64 validity -> sane now -> sane (Add now validity) ->
    sane (NotAfter c) /\
    Z.min (nanos now + validity) (nanos endOfTime) - Second <= nanos (NotAfter c)
}.

Module TLS.
Section TLS.
Context `{CertLib}.

Definition selfSignedCertOrganization : string := "aperture autogenerated cert".
Definition selfSignedCertValidity : Z := 3600 * Second * 24 * 820.
Definition selfSignedCertExpiryMargin : Z := selfSignedCertValidity / 2.

Notation files := (files Cert Key).

(** The clock, [cert.WriteCertPair] for the first and the second pair written,
    and the removals that fail. *)
Record env := {
  now : time;
  WriteCertPair : nat -> Cert -> Key -> files -> files * outcome unit;
  removeCertFails : option error;
  removeKeyFails : option error
}.

Inductive config :=
  | AutoCert (host : string)
  | Certificates (c : Cert) (k : Key).

(** A pair that is written without an error is in the files. *)
Definition writes_both (e : env) : Prop :=
  forall n c k f f', WriteCertPair e n c k f = (f', Ok tt) ->
    f' = {| certFile := Some c; keyFile := Some k |}.

Definition generate (e : env) (n : nat) (names : list string) (f : files) : files * outcome unit :=
  match GenCertPair (now e) selfSignedCertOrganization names selfSignedCertValidity with
  | Ok (c, k) => WriteCertPair e n c k f
  | Err er => (f, Err er)
  | Panic m => (f, Panic m)
  end.

Definition isSelfSigned (c : Cert) : bool :=
  match Organization c with o :: _ => bool_decide (o = selfSignedCertOrganization) | [] => false end.

Definition expiresSoon (e : env) (c : Cert) : bool :=
  After (now e) (Add (NotAfter c) (-1 * selfSignedCertExpiryMargin)).

(** The renewal of an old pair: both files are removed and made again. *)
Definition renew (e : env) (f : files) : files * outcome unit :=
  match removeCertFails e with
  | Some er => (f, Err er)
  | None =>
      let f := {| certFile := None; keyFile := keyFile f |} in
      match removeKeyFails e with
      | Some er => (f, Err er)
      | None => generate e 1 [] {| certFile := None; keyFile := None |}
      end
  end.

Definition getTLSConfig (e : env) (serverName : string) (autoCert : bool) (f : files) :
    files * outcome config :=
  if autoCert then
    (f, if decide (serverName = "") then Err (Errorf "servername option is required")
        else Ok (AutoCert serverName))
  else
    let '(f1, r1) :=
      match certFile f, keyFile f with
      | None, None => generate e 0 [serverName] f
      | _, _ => (f, Ok tt)
      end in
    match r1 with
    | Err er => (f1, Err er)
    | Panic m => (f1, Panic m)
    | Ok _ =>
        match LoadCert f1 with
        | Err er => (f1, Err er)
        | Panic m => (f1, Panic m)
        | Ok (c, k) =>
            if isSelfSigned c && expiresSoon e c then
              let '(f2, r2) := renew e f1 in
              (f2, _ ← r2; '(c2, k2) ← LoadCert f2; Ok (Certificates c2 k2))
            else (f1, Ok (Certificates c k))
        end
    end.

(** *** Lemmas *)

Lemma generate_inv e n names f f' :
  writes_both e -> generate e n names f = (f', Ok tt) ->
  exists c k, GenCertPair (now e) selfSignedCertOrganization names selfSignedCertValidity = Ok (c, k) /\
    f' = {| certFile := Some c; keyFile := Some k |}.
Proof.
  intros Hw. unfold generate. destruct (GenCertPair _ _ _ _) as [[c k]| |]; [|done..].
  intros ->%Hw. eauto.
Qed.

(** A certificate that does not expire soon is valid for the margin at least. *)
Lemma expiresSoon_false e c :
  sane (now e) -> sane (NotAfter c) -> expiresSoon e c = false ->
  nanos (now e) <= nanos (NotAfter c) - selfSignedCertExpiryMargin.
Proof.
  intros Hs Hc. unfold expiresSoon, After.
  destruct (Add_nanos (NotAfter c) (-1 * selfSignedCertExpiryMargin)) as [Hn Hb];
    [done|by vm_compute|].
  rewrite <- not_true_iff_false, Before_nanos by (done || apply Hs). lia.
Qed.

Lemma generated_fresh `{!CertLaws} now' names c k :
  GenCertPair now' selfSignedCertOrganization names selfSignedCertValidity = Ok (c, k) ->
  sane now' -> sane (Add now' selfSignedCertValidity) ->
  sane (NotAfter c) /\
  (nanos now' + selfSignedCertValidity <= nanos endOfTime ->
   nanos now' <= nanos (NotAfter c) - selfSignedCertExpiryMargin).
Proof.
  intros Hg Hn Hs. destruct (Gen_valid _ _ _ _ _ _ Hg ltac:(by vm_compute) Hn Hs).
  split; [done|]. intros Hend.
  assert (selfSignedCertExpiryMargin + Second <= selfSignedCertValidity) by by vm_compute.
  lia.
Qed.

End TLS.
End TLS.

(** ** Making the proxy: [createProxy] and [createHashMailServer] *)
Module Setup.
Import Config.

Definition hashMailGRPCPrefix : string := "/hashmailrpc.HashMail/".
Definition hashMailRESTPrefix : string := "/v1/lightning-node-connect/hashmail".

(** [len(strings.TrimSpace(s)) == 0] *)
Definition is_space (c : ascii) : bool :=
  let n := nat_of_ascii c in ((n =? 32) || ((9 <=? n) && (n <=? 13)))%nat.
Definition blank (s : string) : bool := forallb_string is_space s.

(** What handles a request that is for no backend. *)
Inductive handler :=
  | HashMailGRPC
  | HashMailREST
  | FileServer (root : string)
  | NotFound.

(** [RegisterHashMailHandlerFromEndpoint] may fail. *)
Definition createHashMailServer (register : outcome unit) :
    outcome (list (handler * (request -> bool))) :=
  _ ← register;
  Ok [(HashMailGRPC, fun r => HasPrefix (rPath r) hashMailGRPCPrefix);
      (HashMailREST, fun r => HasPrefix (rPath r) hashMailRESTPrefix)].

Definition localServices (c : Config.t) (register : outcome unit) :
    outcome (list (handler * (request -> bool))) :=
  staticServer ← (if ServeStatic c then
                    if blank (StaticRoot c) then Err (Errorf "staticroot cannot be empty")
                    else Ok (FileServer (StaticRoot c))
                  else Ok NotFound);
  hashMail ← (if hmEnabled (HashMail c) then createHashMailServer register else Ok []);
  (* the static file server must be last *)
  Ok (hashMail ++ [(staticServer, fun _ => true)]).

Section Create.
Context `{L402Lib} {A : Type} `{!Auth.Authenticator A}.

(** The authenticator is made of the mint and the challenger, and is a parameter
    here. *)
Definition createProxy (e : Service.env) (pem : list byte -> bool) (register : outcome unit)
    (a : A) (c : Config.t) : outcome (Proxy.t A * list (handler * (request -> bool))) :=
  ls ← localServices c register;
  p ← Proxy.New e pem a (Services c) (ls.*2);
  Ok (p, ls).

(** [Aperture.UpdateServices] is the proxy's. *)
Definition UpdateServices (e : Service.env) (pem : list byte -> bool) (p : Proxy.t A) (ss : list Service.t) :
    Proxy.t A * list Service.t * outcome unit :=
  Proxy.UpdateServices e pem p ss.

Lemma New_locals e pem (a : A) ss ls p :
  Proxy.New e pem a ss ls = Ok p -> Proxy.localServices p = ls.
Proof.
  unfold Proxy.New, Proxy.UpdateServices.
  destruct (Service.prepareServices e ss) as [ss' res]. intros (? & _ & [= <-])%bind_Ok_inv. done.
Qed.

Lemma createProxy_locals e pem register (a : A) c p ls :
  createProxy e pem register a c = Ok (p, ls) ->
  localServices c register = Ok ls /\ Proxy.localServices p = ls.*2.
Proof.
  intros (ls' & Hl & (p' & Hp & [= -> ->])%bind_Ok_inv)%bind_Ok_inv.
  by apply New_locals in Hp.
Qed.

(** The local services, by what is configured. *)
Lemma localServices_inv c register ls :
  localServices c register = Ok ls ->
  exists static,
    (static = NotFound \/ (ServeStatic c = true /\ static = FileServer (StaticRoot c))) /\
    ls = (if hmEnabled (HashMail c)
          then [(HashMailGRPC, fun r => HasPrefix (rPath r) hashMailGRPCPrefix);
                (HashMailREST, fun r => HasPrefix (rPath r) hashMailRESTPrefix)]
          else []) ++ [(static, fun _ => true)].
Proof.
  intros (static & Hs & (hm & Hm & [= <-])%bind_Ok_inv)%bind_Ok_inv. exists static. split.
  - destruct (ServeStatic c); [|left; congruence]. destruct (blank _); [done|].
    right. split; congruence.
  - f_equal. destruct (hmEnabled (HashMail c)); [|congruence].
    by apply bind_Ok_inv in Hm as (? & _ & [= <-]).
Qed.

End Create.
End Setup.

(** ** Starting and stopping *)
Module Lifecycle.
Import Config.

(** What is started or stopped, in order. *)
Inductive event :=
  | EPrometheus | EProfile | EDatabase | EChallenger | EProxy | EListen
  | ETorController | ETorOnion | ETorListen | ETorControllerStop
  | EStopChallenger | EProxyCleanup | ECloseDatabase | ECloseProxy | ECloseServer | ECloseTor.

Abbreviation M := (Steps.M event).

(** The outcomes of what is started. *)
Record env := {
  StartPrometheusExporter : outcome bool;   (* whether it is enabled, and serves *)
  NewPostgresStore : outcome unit;
  NewBasicClient : outcome unit;
  NewLnproxyChallenger : outcome unit;
  makeProxy : outcome unit;            (* [createProxy] *)
  tlsConfig : outcome unit;            (* [getTLSConfig] *)
  torStart : outcome unit;
  torAddOnion : outcome unit
}.

Definition initTorListener (e : env) (c : Config.t) : M unit :=
  _ ← doing ETorController (torStart e);
  if V3 (Tor c) then doing ETorOnion (torAddOnion e) else mret ().

(** The end of [Start]: the second server, for the onion service. *)
Definition startTor (e : env) (c : Config.t) : M unit :=
  if V3 (Tor c) then
    _ ← initTorListener e c;
    deferred [ETorControllerStop] (doing ETorListen (Ok tt))
  else mret ().

Definition Start (e : env) (c : Config.t) : M unit :=
  serves ← Steps.lift (errorf "unable to start the prometheus exporter" (StartPrometheusExporter e));
  _ ← (if serves : bool then doing EPrometheus (Ok tt) else mret ());
  _ ← (if decide (Profile c ≠ 0) then
         if decide (Profile c < 1024 \/ Profile c > 65535)
         then refuse (Errorf "the profile port must be between 1024 and 65535")
         else doing EProfile (Ok tt)
       else mret ());
  _ ← (if decide (DatabaseBackend c = "postgres")
       then doing EDatabase (errorf "unable to connect to postgres" (NewPostgresStore e))
       else refuse (Errorf "unknown database backend"));
  _ ← (if Disable (Authenticator c) then mret ()
       else if decide (LndHost (Authenticator c) ≠ "")
       then doing EChallenger (_ ← NewBasicClient e; NewLnproxyChallenger e)
       else refuse (Errorf "no authenticator lndhost config provided"));
  _ ← doing EProxy (makeProxy e);
  _ ← (if Insecure c then mret () else Steps.lift (tlsConfig e));
  _ ← doing EListen (Ok tt);
  startTor e c.

(** What an [Aperture] holds, nil or not, and what closing it reports. *)
Record running := {
  hasChallenger : bool;
  hasCleanup : bool;
  closeDB : option (outcome unit);
  closeTor : option (outcome unit)
}.

(** [cleanup] only logs the errors of the proxy and of the server. *)
Definition cleanup : list event := [ECloseProxy; ECloseServer].

(** The last of the other errors is returned. *)
Definition Stop (a : running) : M unit :=
  let last_err r x := match x with Some (Err e) => Err e | _ => r end in
  let r := last_err (last_err (Ok tt) (closeDB a)) (closeTor a) in
  ((if hasChallenger a then [EStopChallenger] else []) ++
   (if hasCleanup a then [EProxyCleanup] else []) ++
   (if closeDB a then [ECloseDatabase] else []) ++
   cleanup ++
   (if closeTor a then [ECloseTor] else []), r).

(** A start that succeeds runs through these steps; the controller of Tor is
    stopped when [Start] returns. *)
Lemma start_sequence e c l :
  Start e c = (l, Ok tt) ->
  DatabaseBackend c = "postgres" /\
  (Disable (Authenticator c) = false -> LndHost (Authenticator c) ≠ "") /\
  l = (if bool_decide (StartPrometheusExporter e = Ok true) then [EPrometheus] else []) ++
      (if decide (Profile c ≠ 0) then [EProfile] else []) ++ [EDatabase] ++
      (if Disable (Authenticator c) then [] else [EChallenger]) ++ [EProxy; EListen] ++
      (if V3 (Tor c) then [ETorController; ETorOnion; ETorListen; ETorControllerStop] else []).
Proof.
  unfold Start. intros Hs.
  apply M_bind_Ok in Hs as (l0 & serves & r0 & [-> E0]%lift_Ok & Hs & ->).
  apply M_bind_Ok in Hs as (l1 & [] & r1 & H1 & Hs & ->).
  assert (E1 : l1 = if bool_decide (StartPrometheusExporter e = Ok true) then [EPrometheus] else []).
  { apply errorf_Ok_inv in E0. rewrite E0. destruct serves; by injection H1 as <-. }
  apply M_bind_Ok in Hs as (l2 & [] & r2 & H2 & Hs & ->).
  apply M_bind_Ok in Hs as (l3 & [] & r3 & H3 & Hs & ->).
  apply M_bind_Ok in Hs as (l4 & [] & r4 & H4 & Hs & ->).
  apply M_bind_Ok in Hs as (l5 & [] & r5 & [-> _]%doing_Ok & Hs & ->).
  apply M_bind_Ok in Hs as (l6 & [] & r6 & H6 & Hs & ->).
  apply M_bind_Ok in Hs as (l7 & [] & r7 & [-> _]%doing_Ok & Hs & ->).
  destruct (decide (DatabaseBackend c = "postgres")); [|done]. apply doing_Ok in H3 as [-> _].
  assert (E6 : l6 = []) by (destruct (Insecure c); by injection H6 as <-).
  assert (E2 : l2 = if decide (Profile c ≠ 0) then [EProfile] else []).
  { destruct (decide (Profile c ≠ 0)); [|by injection H2 as <-].
    destruct (decide (Profile c < 1024 \/ _)); [done|]. by injection H2 as <-. }
  assert (E4 : (Disable (Authenticator c) = false -> LndHost (Authenticator c) ≠ "") /\
               l4 = if Disable (Authenticator c) then [] else [EChallenger]).
  { destruct (Disable (Authenticator c)); [by injection H4 as <-|].
    destruct (decide (LndHost _ ≠ "")); [|done]. by apply doing_Ok in H4 as [-> _]. }
  destruct E4 as [E4 ->]. rewrite E1, E2, E6. split_and!; [done..|]. cbn [app].
  do 5 f_equal. unfold startTor in Hs. destruct (V3 (Tor c)) eqn:Hv; [|by injection Hs as <-].
  apply M_bind_Ok in Hs as (l8 & [] & r8 & Hi & Hs & ->). injection Hs as <-.
  unfold initTorListener in Hi. rewrite Hv in Hi.
  apply M_bind_Ok in Hi as (l9 & [] & r9 & [-> _]%doing_Ok & [-> _]%doing_Ok & ->). done.
Qed.

End Lifecycle.

(** ** Properties *)
Module ApertureProperties.

(** C34: the server starts with a certificate and key that belong together and are
    the ones on disk; a certificate of its own is valid for at least half its
    lifetime from now on, because an older one has been replaced (as long as a
    lifetime from now ends before 2050, where lnd cuts certificates off), and a
    certificate of another organization is never replaced. *)
Theorem tls_certificate_is_fresh `{CertLib} `{!CertLaws} e serverName f f' c k :
  TLS.getTLSConfig e serverName false f = (f', Ok (TLS.Certificates c k)) ->
  sane (TLS.now e) -> sane (Add (TLS.now e) TLS.selfSignedCertValidity) ->
  TLS.writes_both e ->
  (forall c0, certFile f = Some c0 -> sane (NotAfter c0)) ->
  certFile f' = Some c /\ keyFile f' = Some k /\ LoadCert f' = Ok (c, k) /\
  (TLS.isSelfSigned c = true ->
     nanos (TLS.now e) + TLS.selfSignedCertValidity <= nanos endOfTime ->
     nanos (TLS.now e) <= nanos (NotAfter c) - TLS.selfSignedCertExpiryMargin) /\
  (forall c0, certFile f = Some c0 -> TLS.isSelfSigned c0 = false -> f' = f).
Proof.
  intros Hg Hs Hs' Hw Hold. unfold TLS.getTLSConfig in Hg.
  destruct (match certFile f, keyFile f with
            | None, None => _ | _, _ => _ end) as [f1 [[]| |]] eqn:E1; [|done..].
  destruct (LoadCert f1) as [[c1 k1]| |] eqn:El; [|done..].
  assert (Hf1 : forall c0, certFile f = Some c0 -> f1 = f).
  { intros c0 Hc0. rewrite Hc0 in E1. by injection E1 as <-. }
  destruct (Load_files _ _ _ El) as [Hc1 Hk1].
  assert (Hc1s : sane (NotAfter c1)).
  { destruct (certFile f) as [c0|] eqn:E0.
    - rewrite (Hf1 _ eq_refl), E0 in Hc1. injection Hc1 as <-. by apply Hold.
    - destruct (keyFile f).
      + injection E1 as <-. congruence.
      + apply TLS.generate_inv in E1 as (c2 & k2 & Hgen & ->); [|done]. injection Hc1 as ->.
        by eapply TLS.generated_fresh. }
  destruct (TLS.isSelfSigned c1 && TLS.expiresSoon e c1) eqn:Er.
  - destruct (TLS.renew e f1) as [f2 r2] eqn:En. injection Hg as <- Hg.
    apply bind_Ok_inv in Hg as ([] & -> & Hg). unfold TLS.renew in En.
    destruct (TLS.removeCertFails e); [done|]. destruct (TLS.removeKeyFails e); [done|].
    apply TLS.generate_inv in En as (c2 & k2 & Hgen & ->); [|done].
    rewrite (Load_Gen _ _ _ _ _ _ Hgen) in Hg. cbn in Hg. injection Hg as <- <-.
    split_and!; [done|done|by eapply Load_Gen|intros _; by apply (TLS.generated_fresh _ _ _ _ Hgen)|].
    intros c0 Hc0 Hns. rewrite (Hf1 _ Hc0), Hc0 in Hc1. injection Hc1 as ->.
    by rewrite Hns in Er.
  - injection Hg as <- <- <-. split_and!; [done..| |].
    + intros Hss _. rewrite Hss in Er. by apply TLS.expiresSoon_false.
    + intros c0 Hc0 _. by eapply Hf1.
Qed.

(** A certificate is its end, organization and names, for concrete runs. *)
Definition toy_certs : CertLib := {|
  Cert := time * list string * list string; Key := unit;
  NotAfter c := c.1.1; Organization c := c.1.2; DNSNames c := c.2;
  GenCertPair now org names validity :=
    let validUntil := Add now validity in
    Ok ((if After validUntil endOfTime then endOfTime else validUntil, [org], names), tt);
  LoadCert f := match certFile f, keyFile f with
                | Some c, Some k => Ok (c, k)
                | _, _ => Err (Sentinel "os.ErrNotExist")
                end
|}.
Lemma toy_certs_laws : CertLaws (H := toy_certs).
Proof.
  split.
  - intros [[c0|] [k0|]] c k; cbn; [|done..]. by intros [= <- <-].
  - done.
  - by intros now org names validity c k [= <- _].
  - intros now org names validity c k [= <- _]. by intros x.
  - intros now org names validity c k [= <- _] Hv Hn Hs. cbn.
    destruct (Add_nanos now validity Hn Hv) as [Ha _]. destruct (After _ _) eqn:E.
    + split; [by vm_compute|]. unfold Second. lia.
    + split; [done|]. rewrite Ha. unfold Second. lia.
Qed.

Section ToyTLS.
#[local] Existing Instance toy_certs.

Definition toy_cert (end_ : time) (names : list string) : Cert :=
  (end_, [TLS.selfSignedCertOrganization], names).
Definition toy_key : Key := tt.
(** An old certificate of the program is replaced. *)
Definition toy_tls_env : TLS.env := {|
  TLS.now := Unix 1800000000;
  TLS.WriteCertPair _ c k _ := ({| certFile := Some c; keyFile := Some k |}, Ok tt);
  TLS.removeCertFails := None; TLS.removeKeyFails := None |}.
Definition toy_old_files : files Cert Key := {|
  certFile := Some (toy_cert (Unix 1800000001) ["host"]); keyFile := Some toy_key |}.

Lemma tls_certificate_is_fresh_witness :
  let c := toy_cert (Add (Unix 1800000000) TLS.selfSignedCertValidity) [] in
  nanos (Unix 1800000000) <= nanos (NotAfter c) - TLS.selfSignedCertExpiryMargin.
Proof.
  intros c.
  unshelve refine (proj1 (proj2 (proj2 (proj2 (tls_certificate_is_fresh (H0 := toy_certs_laws)
    toy_tls_env "host" toy_old_files
    {| certFile := Some c; keyFile := Some toy_key |} c toy_key _ _ _ _ _)))) _ _);
    [reflexivity|by vm_compute|by vm_compute|by intros n c0 k f f' [= <-]
    |intros c0 [= <-]; by vm_compute|reflexivity|by vm_compute].
Defined.
End ToyTLS.

(** in the proxy the program makes, a request that is for no backend always
    has a handler: the mailbox server takes the paths of its two interfaces when
    it is enabled, and the static file server, or its refusal, everything else. *)
Theorem unmatched_request_is_handled `{L402Lib} {A : Type} `{!Authenticator A}
    e pem register (a : A) c p ls w r :
  Setup.createProxy e pem register a c = Ok (p, ls) ->
  rMethod r ≠ "OPTIONS" -> Proxy.matchService e r (Proxy.services p) = Ok None ->
  exists i h, Proxy.ServeHTTP e p w r = (p, Ok (Proxy.Local i)) /\ ls.*1 !! i = Some h /\
    if Config.hmEnabled (Config.HashMail c) && HasPrefix (rPath r) Setup.hashMailGRPCPrefix
    then h = Setup.HashMailGRPC
    else if Config.hmEnabled (Config.HashMail c) && HasPrefix (rPath r) Setup.hashMailRESTPrefix
    then h = Setup.HashMailREST
    else h = Setup.NotFound \/
         (Config.ServeStatic c = true /\ h = Setup.FileServer (Config.StaticRoot c)).
Proof.
  intros [Hl Hp]%Setup.createProxy_locals Hm Hno.
  apply Setup.localServices_inv in Hl as (static & Hst & ->).
  unfold Proxy.ServeHTTP. rewrite decide_False, Hno, Hp by done.
  destruct (Config.hmEnabled _); cbn.
  - destruct (HasPrefix (rPath r) Setup.hashMailGRPCPrefix); [by eexists 0%nat, _|].
    destruct (HasPrefix (rPath r) Setup.hashMailRESTPrefix); [by eexists 1%nat, _|].
    by eexists 2%nat, _.
  - by eexists 0%nat, _.
Qed.

Section Toy.
#[local] Existing Instance ToyLib.lib.

Definition toy_service_env : Service.env := {|
  Service.Compile _ := Some (fun _ => false); Service.ReadFile _ := Err (Sentinel "os.ErrNotExist");
  Service.grpc := {| Pricer.NewClientTLSFromFile _ := Ok tt;
                     Pricer.Dial _ := Err (Errorf "no server"); Pricer.requestText _ := Ok "" |} |}.
Definition toy_proxy : Proxy.t unit :=
  {| Proxy.localServices := [fun _ => true]; Proxy.authenticator := tt; Proxy.services := [] |}.
Definition toy_local_request : request := {|
  rMethod := "GET"; rHost := "h"; rPath := "/index.html"; rURLHost := ""; rScheme := "http";
  rRemoteAddr := ""; rHeader := ∅; rBody := "" |}.

Lemma unmatched_request_is_handled_witness :
  exists i, (Proxy.ServeHTTP (A := unit) toy_service_env toy_proxy ∅ toy_local_request).2
              = Ok (Proxy.Local i).
Proof.
  destruct (unmatched_request_is_handled toy_service_env (fun _ => true) (Ok tt) tt Config.NewConfig
    toy_proxy [(Setup.NotFound, fun _ => true)] ∅ toy_local_request) as (i & h & Hs & _).
  - reflexivity.
  - discriminate.
  - reflexivity.
  - exists i. by rewrite Hs.
Defined.
End Toy.

End ApertureProperties.
