(* ===== verification/Programs.v ===== *)
(** * The programs: what runs the components

    [run] and [Main] of [aperture.go] with the exporter of [prometheus.go]; the
    CORS handler in front of the mailbox's REST server; the content server's
    [NewServer], [Start] and [Stop] with its [main]; and the [main] of the relay.
    A program is the sequence of what it starts and stops, and how it exits; the
    signals, flags, listeners and libraries it waits for are answers in an
    environment. *)
From S2P Require Import Prelude.
From S2P Require Import GoStrings.
From S2P Require Import GoCodec.
From S2P Require Import Steps.
From S2P Require Import Macaroon.
From S2P Require Import Http.
From S2P Require Import Service.
From S2P Require Import Auth.
From S2P Require Import Proxy.
From S2P Require Import Relay.
From S2P Require Import Aperture.

(** ** [allowCORS] *)
Module Cors.

Definition allowHeaders : string := "Access-Control-Allow-Headers".
Definition allowMethods : string := "Access-Control-Allow-Methods".
Definition allowOrigin : string := "Access-Control-Allow-Origin".

(** The header with the static fields, and with the origin when it is allowed. *)
Definition withCors (origins : list string) (origin : string) (w : header) : header :=
  let w := Set_ w allowHeaders "Content-Type, Accept, Grpc-Metadata-Macaroon" in
  let w := Set_ w allowMethods "GET, POST, DELETE" in
  if existsb (fun allowedOrigin => bool_decide (allowedOrigin = "*" \/ origin = allowedOrigin)) origins
  then Set_ w allowOrigin origin else w.

(** A handler that returns without writing sends an empty answer. *)
Definition allowCORS (handler : header -> request -> response) (origins : list string) :
    header -> request -> response :=
  match origins with
  | [] => handler
  | _ =>
      fun w r =>
        let origin := Get (rHeader r) "Origin" in
        if decide (origin = "") then handler w r
        else
          let w := withCors origins origin w in
          if decide (rMethod r = "OPTIONS") then {| wHeader := w; wStatus := StatusOK; wBody := "" |}
          else handler w r
  end.

Lemma withCors_other origins origin w k :
  k ∉ [CanonicalHeaderKey allowHeaders; CanonicalHeaderKey allowMethods; CanonicalHeaderKey allowOrigin] ->
  withCors origins origin w !! k = w !! k.
Proof.
  rewrite !not_elem_of_cons. intros (H1 & H2 & H3 & _). unfold withCors, Set_.
  case_match; rewrite !lookup_insert_ne by congruence; done.
Qed.

Lemma withCors_methods origins origin w :
  Values (withCors origins origin w) allowMethods = ["GET, POST, DELETE"].
Proof.
  unfold withCors, Values, Set_. case_match.
  - rewrite lookup_insert_ne by (vm_compute; discriminate). by rewrite lookup_insert_eq.
  - by rewrite lookup_insert_eq.
Qed.

Lemma withCors_star origin w : Get (withCors ["*"] origin w) allowOrigin = origin.
Proof. unfold withCors. cbn [existsb]. rewrite bool_decide_eq_true_2 by by left. apply Get_Set_eq. Qed.

End Cors.

(** ** [prometheus.go], [run] and [Main] *)
Module Run.
Import Config Lifecycle.

Record PrometheusConfig := { Enabled : bool; PrometheusListenAddr : string }.

(** [MustRegister] panics for a metric that has been registered before. *)
Definition StartPrometheusExporter (registered : bool) (cfg : PrometheusConfig) :
    bool * outcome unit :=
  if negb (Enabled cfg) then (registered, Ok tt)
  else if registered then (registered, Panic "duplicate metrics collector registration attempted")
  else (true, Ok tt).

(** One level of [errors.Unwrap]. *)
Definition Unwrap (e : error) : option error :=
  match e with Wrapf _ e' | ErrSerializationError e' => Some e' | _ => None end.

(** The type of error of the flags package that asks for help. *)
Definition ErrHelp : error := Sentinel "flags.ErrHelp".

Record env := {
  Intercept : outcome unit;
  configEnv : Config.env;
  InitLogRotator : string -> outcome unit;
  ParseAndSetDebugLevels : string -> outcome unit;
  startEnv : Lifecycle.env;
  dbClose : outcome unit;
  torClose : outcome unit
}.

Definition defaultLogLevel : string := "info".
Definition defaultLogFilename : string := "aperture.log".

(** The level is written into the configuration; the rotator and the parser of the
    levels are lnd's. *)
Definition setupLogging (e : env) (cfg : Config.t) : Config.t * outcome unit :=
  let cfg := if decide (DebugLevel cfg = "") then set_DebugLevel cfg defaultLogLevel else cfg in
  let logFile :=
    if decide (BaseDir cfg ≠ "") then JoinPath (configEnv e) (BaseDir cfg) defaultLogFilename
    else JoinPath (configEnv e) (apertureDataDir (configEnv e)) defaultLogFilename in
  (cfg, _ ← InitLogRotator e logFile; ParseAndSetDebugLevels e (DebugLevel cfg)).

(** What a started [Aperture] holds: the database and the proxy's clean-up
    always, the others as configured. *)
Definition started (e : env) (c : Config.t) : Lifecycle.running := {|
  hasChallenger := negb (Disable (Authenticator c));
  hasCleanup := true;
  closeDB := Some (dbClose e);
  closeTor := if V3 (Tor c) then Some (torClose e) else None
|}.

(** It stops after a signal or an error of a server, which is only logged. *)
Definition run (e : env) : Steps.M event unit :=
  _ ← Steps.lift (Intercept e);
  cfg ← Steps.lift (wrapf "unable to parse config file" (getConfig (configEnv e)));
  let '(cfg, r) := setupLogging e cfg in
  _ ← Steps.lift (errorf "unable to set up logging" r);
  _ ← (let m := Start (startEnv e) cfg in (m.1, errorf "unable to start aperture" m.2));
  Stop (started e cfg).

(** The exit code; a panic ends a Go program with 2. *)
Definition Main (e : env) : Z :=
  match (run e).2 with
  | Ok _ => 0
  | Err err => if decide (Unwrap err = Some ErrHelp) then 0 else 1
  | Panic _ => 2
  end.

(** The steps that start something which goes on by itself, and the steps that end
    such a thing.  (What Tor publishes for the onion service ends with the
    connection of the controller.) *)
Definition starts (ev : event) : bool :=
  match ev with
  | EPrometheus | EProfile | EDatabase | EChallenger | EProxy | EListen
  | ETorController | ETorListen => true
  | _ => false
  end.
Definition closes (ev : event) : option event :=
  match ev with
  | ECloseDatabase => Some EDatabase
  | EStopChallenger => Some EChallenger
  | ECloseProxy => Some EProxy
  | ECloseServer => Some EListen
  | ETorControllerStop => Some ETorController
  | ECloseTor => Some ETorListen
  | _ => None
  end.

(** The step that ends what a step started. *)
Definition closing (ev : event) : event :=
  match ev with
  | EDatabase => ECloseDatabase
  | EChallenger => EStopChallenger
  | EProxy => ECloseProxy
  | EListen => ECloseServer
  | ETorController => ETorControllerStop
  | _ => ECloseTor
  end.

Lemma errorf_is_ok {A} m (o : outcome A) : is_ok (errorf m o) = is_ok o.
Proof. by destruct o. Qed.

(** A run that gets past its start. *)
Lemma run_started e cfg0 cfg l0 :
  Intercept e = Ok tt -> getConfig (configEnv e) = Ok cfg0 -> setupLogging e cfg0 = (cfg, Ok tt) ->
  Start (startEnv e) cfg = (l0, Ok tt) ->
  run e = (l0 ++ (Stop (started e cfg)).1, (Stop (started e cfg)).2).
Proof. intros Hi Hc Hl Hs. unfold run. rewrite Hi, Hc. cbn -[setupLogging Start Stop].
  rewrite Hl. cbn -[Start Stop]. by rewrite Hs. Qed.

#[export] Instance event_eq_dec : EqDecision event.
Proof. solve_decision. Defined.

(** One event happens after another in a trace. *)
Fixpoint before (a b : event) (l : list event) : bool :=
  match l with
  | [] => false
  | x :: l' => (bool_decide (x = a) && existsb (fun y => bool_decide (y = b)) l') || before a b l'
  end.

End Run.

(** ** The content server: [contents/content.go] and [contents/cmd/app] *)
Module ContentMain.

Record ServerConfig := {
  cRegion : string;
  cS3Bucket : string;
  PostgresUser : string;
  PostgresPassword : string;
  PostgresHost : string;
  PostgresPort : string;
  PostgresDB : string
}.

Definition dataSourceName (conf : ServerConfig) : string :=
  "postgres://" +:+ PostgresUser conf +:+ ":" +:+ PostgresPassword conf +:+ "@" +:+
  PostgresHost conf +:+ ":" +:+ PostgresPort conf +:+ "/" +:+ PostgresDB conf +:+ "?sslmode=disable".

Inductive event :=
  | EOpenDB (dsn : string)
  | EListen (addr : string)
  | EServeContents | EServePrices | EServeHTTP
  | EStopContents | ECloseDB.

Record env := {
  godotenv_Load : outcome unit;
  env_Parse : outcome ServerConfig;
  OpenDB : string -> outcome unit;        (* the driver reads the data source name *)
  LoadDefaultConfig : outcome unit;
  RetrieveCredentials : outcome unit;
  Listen : string -> outcome unit;
  CloseDB : outcome unit;
  InterceptSignal : outcome unit
}.

(** [panic(err)] *)
Definition must {A} (o : outcome A) : outcome A :=
  match o with Err _ => Panic "panic(err)" | _ => o end.

Definition SetupAWSConfig (e : env) : outcome unit :=
  _ ← LoadDefaultConfig e; RetrieveCredentials e.

Definition NewServer (e : env) : M event ServerConfig :=
  _ ← lift (must (godotenv_Load e));
  conf ← lift (must (env_Parse e));
  _ ← doing (EOpenDB (dataSourceName conf)) (OpenDB e (dataSourceName conf));
  _ ← lift (SetupAWSConfig e);
  mret conf.

(** Three servers on fixed ports; the HTTP server's listener reports its failure
    to nobody. *)
Definition Start (e : env) : M event unit :=
  _ ← doing (EListen ":8080") (Listen e ":8080");
  _ ← doing EServeContents (Ok tt);
  _ ← doing (EListen ":8083") (Listen e ":8083");
  _ ← doing EServePrices (Ok tt);
  doing EServeHTTP (Ok tt).

(** Only the first of them is stopped. *)
Definition Stop (e : env) : M event unit := ([EStopContents; ECloseDB], CloseDB e).

(** The trace and the exit code of [main]: [log.Fatal] exits with 1 and runs no
    deferred call; the deferred [Stop] runs after the explicit one, and when the
    program panics, which exits with 2. *)
Definition main (e : env) : list event * Z :=
  match InterceptSignal e with
  | Ok _ =>
      match NewServer e with
      | (l, Ok _) =>
          match Start e with
          | (l1, Ok _) =>
              match Stop e with
              | (l2, Ok _) => (l ++ l1 ++ l2 ++ (Stop e).1, 0)
              | (l2, Err _) => (l ++ l1 ++ l2, 1)
              | (l2, Panic _) => (l ++ l1 ++ l2 ++ (Stop e).1, 2)
              end
          | (l1, Err _) => (l ++ l1, 1)
          | (l1, Panic _) => (l ++ l1 ++ (Stop e).1, 2)
          end
      | (l, Err _) => (l, 1)
      | (l, Panic _) => (l, 2)
      end
  | Err _ => ([], 1)
  | Panic _ => ([], 2)
  end.

(** A run that comes to its end serves on the three ports and closes the database
    twice; the price server and the HTTP server are never stopped. *)
Lemma main_trace e l :
  main e = (l, 0) -> exists dsn,
    l = [EOpenDB dsn; EListen ":8080"; EServeContents; EListen ":8083"; EServePrices; EServeHTTP;
         EStopContents; ECloseDB; EStopContents; ECloseDB].
Proof.
  unfold main, Start. destruct (InterceptSignal e); [|done..].
  destruct (NewServer e) as [l0 [c| |]] eqn:En; [|done..].
  unfold NewServer in En.
  apply M_bind_Ok in En as (? & [] & ? & [-> _]%lift_Ok & En & ->).
  apply M_bind_Ok in En as (? & conf & ? & [-> _]%lift_Ok & En & ->).
  apply M_bind_Ok in En as (? & [] & ? & [-> _]%doing_Ok & En & ->).
  apply M_bind_Ok in En as (? & [] & ? & [-> _]%lift_Ok & En & ->). injection En as <- _.
  cbn. destruct (Listen e ":8080") as [[]| |]; [|done..]. cbn.
  destruct (Listen e ":8083") as [[]| |]; [|done..]. cbn.
  destruct (CloseDB e); [|done..]. cbn. intros [= <-]. eauto.
Qed.

End ContentMain.

(** ** The relay: [main] of [lnproxy/cmd/http-relay] *)
Module RelayMain.

Record flags := { httpPort : string; lndHostString : string; lndCertPath : string; args : list string }.

(** The certificates the connection to lnd is checked against. *)
Inductive roots := SystemRoots | RootCAs (pem : list byte).

Record lnd := { Host : string; TlsConfig : roots; Macaroon : string }.

Record env := {
  ReadFile : string -> outcome (list byte);
  url_Parse : string -> outcome string;       (* the host of an URL *)
  AppendCertsFromPEM : list byte -> bool;
  Shutdown : outcome unit
}.

Inductive event :=
  | EUsage
  | EServe (addr : string) (l : lnd) (relay : Relay.RelayParameters)
  | EShutdown | EWaitCircuits.

(** The client of lnd, or the exit code of [log.Fatalln].  A file without a
    certificate leaves the pool empty, whatever it holds. *)
Definition newLnd (e : env) (f : flags) (macaroonPath : string) : Z + lnd :=
  match ReadFile e macaroonPath with
  | Ok macaroonBytes =>
      match url_Parse e (lndHostString f) with
      | Ok host =>
          if decide (lndCertPath f = "") then
            inr {| Host := host +:+ "/"; TlsConfig := SystemRoots;
                   Macaroon := hex_EncodeToString macaroonBytes |}
          else
            match ReadFile e (lndCertPath f) with
            | Ok lndCert =>
                inr {| Host := host +:+ "/";
                       TlsConfig := RootCAs (if AppendCertsFromPEM e lndCert then lndCert else []);
                       Macaroon := hex_EncodeToString macaroonBytes |}
            | _ => inl 1
            end
      | _ => inl 1
      end
  | _ => inl 1
  end.

(** The server runs until an interrupt; the program then waits for the open
    circuits, however the server shut down. *)
Definition main (e : env) (f : flags) : list event * Z :=
  match args f with
  | [macaroonPath] =>
      match newLnd e f macaroonPath with
      | inl code => ([], code)
      | inr l => ([EServe ("0.0.0.0:" +:+ httpPort f) l Relay.NewRelay; EShutdown; EWaitCircuits], 0)
      end
  | _ => ([EUsage], 2)
  end.

(** A run that served ends after the circuits, with the parameters of
    [NewRelay]. *)
Lemma main_waits e f l :
  main e f = (l, 0) -> exists addr lnd, l = [EServe addr lnd Relay.NewRelay; EShutdown; EWaitCircuits].
Proof.
  unfold main, newLnd. destruct (args f) as [|p [|]]; [done| |done].
  destruct (ReadFile e p); [|done..]. destruct (url_Parse e _); [|done..].
  case_decide; [intros [= <-]; eauto|]. destruct (ReadFile e (lndCertPath f)); [|done..].
  intros [= <-]. eauto.
Qed.

End RelayMain.

(** ** Properties *)
Module ProgramsProperties.


(** the CORS handler in front of the mailbox's REST server: without an origin
    it is transparent; a pre-flight request is answered with the origin and the
    methods, DELETE included, and goes no further; any other request reaches the
    handler with the origin allowed and no other field changed.  Behind the proxy,
    though, a pre-flight request never gets there: the proxy answers every
    OPTIONS request itself, for whatever path, and its methods do not include
    DELETE. *)
Theorem preflight_is_answered `{L402Lib} {A : Type} `{!Authenticator A} handler e (p : Proxy.t A) w r :
  let h := Cors.allowCORS handler ["*"] in
  let origin := Get (rHeader r) "Origin" in
  (origin = "" -> h w r = handler w r) /\
  (origin ≠ "" -> rMethod r = "OPTIONS" ->
     wStatus (h w r) = StatusOK /\ Get (wHeader (h w r)) Cors.allowOrigin = origin /\
     Values (wHeader (h w r)) Cors.allowMethods = ["GET, POST, DELETE"]) /\
  (origin ≠ "" -> rMethod r ≠ "OPTIONS" ->
     exists w', h w r = handler w' r /\ Get w' Cors.allowOrigin = origin /\
       forall k, k ∉ [Cors.allowHeaders; Cors.allowMethods; Cors.allowOrigin] -> w' !! k = w !! k) /\
  (rMethod r = "OPTIONS" ->
     exists resp, Proxy.ServeHTTP e p w r = (p, Ok (Proxy.Respond resp)) /\
       wStatus resp = StatusOK /\
       Values (wHeader resp) Cors.allowMethods =
         Values w Cors.allowMethods ++ ["GET, POST, OPTIONS"]).
Proof.
  intros h origin. unfold h, Cors.allowCORS. fold origin. split_and!.
  - intros Ho. by rewrite decide_True.
  - intros Ho Hm. rewrite decide_False, decide_True by done. cbn [wStatus wHeader].
    split_and!; [done|apply Cors.withCors_star|apply Cors.withCors_methods].
  - intros Ho Hm. rewrite decide_False, decide_False by done. eexists. split; [done|].
    split; [apply Cors.withCors_star|]. intros k Hk. by apply Cors.withCors_other.
  - intros Hm. unfold Proxy.ServeHTTP. rewrite decide_True by done. eexists. split; [done|].
    rewrite ProxyProperties.direct_keeps by (vm_compute; set_solver).
    split; [unfold Proxy.sendDirectResponse; by destruct (HasPrefix _ _)|].
    unfold Proxy.addCorsHeaders, Values, Add_, Cors.allowMethods.
    rewrite !lookup_insert_ne by (vm_compute; discriminate).
    rewrite lookup_insert_eq. unfold Values.
    by rewrite lookup_insert_ne by (vm_compute; discriminate).
Qed.

(** *** Witness: a proxy with lnd, a database and Tor *)
Definition toy_config : Config.t := {|
  Config.ListenAddr := "localhost:8081"; Config.ServerName := ""; Config.AutoCert := false;
  Config.Insecure := true; Config.StaticRoot := ""; Config.ServeStatic := false;
  Config.DatabaseBackend := "postgres";
  Config.Authenticator := {|
    Config.Network := "regtest"; Config.Disable := false; Config.LndHost := "localhost:10009";
    Config.TLSPath := "/tls.cert"; Config.MacDir := "/mac"; Config.Passphrase := "";
    Config.MailboxAddress := "m"; Config.AuthDevServer := false |};
  Config.Tor := {| Config.Control := "localhost:9051"; Config.ListenPort := 8082;
                   Config.VirtualPort := 80; Config.V3 := true |};
  Config.Services := [];
  Config.HashMail := {| Config.hmEnabled := false; Config.MessageRate := 0;
                        Config.MessageBurstAllowance := 0; Config.StaleTimeout := 0 |};
  Config.DebugLevel := ""; Config.ConfigFile := ""; Config.BaseDir := "/aperture"; Config.Profile := 6060;
  Config.IdleTimeout := 0; Config.ReadTimeout := 0; Config.WriteTimeout := 0 |}.

Definition toy_run_env : Run.env := {|
  Run.Intercept := Ok tt;
  Run.configEnv := {|
    Config.apertureDataDir := "/home"; Config.JoinPath a b := a +:+ "/" +:+ b;
    Config.CleanAndExpandPath p := p; Config.ParseFlags _ := Ok toy_config;
    Config.ReadConfig _ := Config.NotExist; Config.Unmarshal _ c := Ok c |};
  Run.InitLogRotator _ := Ok tt; Run.ParseAndSetDebugLevels _ := Ok tt;
  Run.startEnv := {|
    Lifecycle.StartPrometheusExporter := Ok true; Lifecycle.NewPostgresStore := Ok tt;
    Lifecycle.NewBasicClient := Ok tt; Lifecycle.NewLnproxyChallenger := Ok tt;
    Lifecycle.makeProxy := Ok tt; Lifecycle.tlsConfig := Ok tt; Lifecycle.torStart := Ok tt;
    Lifecycle.torAddOnion := Ok tt |};
  Run.dbClose := Ok tt; Run.torClose := Ok tt |}.


(** Asking for help is a success, and starts nothing. *)
Lemma help_exits_zero e :
  Run.Intercept e = Ok tt -> Config.getConfig (Run.configEnv e) = Err Run.ErrHelp ->
  Run.Main e = 0 /\ (Run.run e).1 = [].
Proof. intros Hi Hc. unfold Run.Main, Run.run. by rewrite Hi, Hc. Qed.

End ProgramsProperties.
