(* ===== verification/Purchase.v ===== *)
(** * A purchase from end to end

    The paying client of [lsat/client_interceptor.go] as a caller of the proxy:
    its remote calls are answered by the server of [System], between them lnd
    reports the settlement of the invoice, and other clients go on using the
    server.  gRPC, which carries the calls, is third-party: how it hands an
    answer to the client is a parameter with the documented behaviour as its
    law. *)
From S2P Require Import Prelude.
From S2P Require Import GoStrings.
From S2P Require Import GoCodec.
From S2P Require Import GoTime.
From S2P Require Import Caveat.
From S2P Require Import Sha256.
From S2P Require Import Macaroon.
From S2P Require Import Identifier.
From S2P Require Import Http.
From S2P Require Import Header.
From S2P Require Import Token.
From S2P Require Import Challenge.
From S2P Require Import ClientInterceptor.
From S2P Require Import Database.
From S2P Require Import Secrets.
From S2P Require Import Mint.
From S2P Require Import Freebie.
From S2P Require Import Service.
From S2P Require Import Auth.
From S2P Require Import Proxy.
From S2P Require Import Challenger.
From S2P Require Import System.

Module Purchase.
Import System.

(** ** What the rest of the world leaves alone

    Requests of other clients and updates about other invoices disturb neither
    a secret, nor the settlement of a hash, nor its cached state, nor the
    configuration of a service. *)
Section Others.
Context `{L402Lib} `{!L402Laws} {S C L : Type} `{!SecretStore S} `{!SecretStoreLaws S} `{!Challenger C}
        `{!ServiceLimiter L}.
Variable e : Service.env.
Variable locals : list (request -> bool).
Variables (ch : nat -> C) (lim : L) (rand : nat -> outcome (list byte)).
Implicit Types (s : sys S).

Abbreviation serve := (System.serve e locals ch lim rand).
Abbreviation reach := (System.reach e locals ch lim rand).

Lemma fresh_minter {K} `{!InvoiceChecker K} (l : LsatAuth.LsatAuthenticator (mint_state S C L) K)
    r n rc pc :
  LsatAuth.minter (LsatAuth.FreshChallengeHeader l r n rc pc).1.1 =
    (mint_MintL402 (LsatAuth.minter l)
       [{| LsatService.Name := n; LsatService.Tier := LsatService.BaseTier;
           LsatService.RecipientLud16 := rc; LsatService.Price := pc |}]).1.
Proof.
  unfold LsatAuth.FreshChallengeHeader.
  destruct (mint_MintL402 _ _) as [m [[mac inv]| |]]; [|done..]. by destruct (mac_MarshalBinary mac).
Qed.

(** What a step may change. *)
Record calm s s' : Prop := {
  calm_secrets : Mint.undisturbed (Mint.never (ch (sDraws s))) (sSecrets s) (sSecrets s');
  calm_services : Forall2 Proxy.similar (sServices s) (sServices s');
  calm_draws : (sDraws s <= sDraws s')%nat
}.

Lemma serve_calm now w r s : calm s (serve now w r s).1 /\ sCache (serve now w r s).1 = sCache s.
Proof.
  unfold System.serve.
  pose proof (Proxy.ServeHTTP_similar e (proxy_of locals ch lim rand now s) w r) as Hsim.
  pose proof (Proxy.ServeHTTP_authenticator e (proxy_of locals ch lim rand now s) w r) as Ha.
  destruct (Proxy.ServeHTTP e (proxy_of locals ch lim rand now s) w r) as [p' a].
  cbn [fst] in *.
  assert (Hm : Mint.undisturbed (Mint.never (ch (sDraws s))) (sSecrets s)
                 (ms_secrets (LsatAuth.minter (Proxy.authenticator p'))) /\
               (sDraws s <= ms_draws (LsatAuth.minter (Proxy.authenticator p')))%nat).
  2: { destruct Hm as [H1 H2]. split; [split; [exact H1|exact Hsim|exact H2]|done]. }
  destruct Ha as [->|(r' & n & rc & pc & ->)]; [split; [apply Mint.undisturbed_refl|done]|].
  cbn [FreshChallengeHeader LsatAuth.lsat_authenticator]. rewrite fresh_minter.
  cbn [mint_MintL402 mint_minter].
  pose proof (Mint.MintL402_undisturbed (ch (sDraws s)) lim (rand (sDraws s)) (sSecrets s)) as Hu.
  cbn [proxy_of auth_of Proxy.authenticator LsatAuth.minter ms_challenger ms_limiter ms_rand ms_draws ms_secrets].
  match goal with |- context [Mint.MintL402 _ _ _ _ ?l] => specialize (Hu l) end.
  destruct (Mint.MintL402 _ _ _ _ _). cbn [fst ms_secrets ms_draws]. auto.
Qed.

(** What an update may change. *)
Lemma update_other now i s :
  LnproxyChallenger.hashed i ->
  let s' := System.update now i s in
  sServices s' = sServices s /\
  (forall j, held (sSecrets s') j = held (sSecrets s) j) /\
  forall q,
    (settlements (sSecrets s) q ≠ [] -> settlements (sSecrets s') q ≠ []) /\
    (LnproxyChallenger.RHash i ≠ Some q ->
     settlements (sSecrets s') q = settlements (sSecrets s) q /\ sCache s' !! q = sCache s !! q).
Proof.
  intros Hi. cbn zeta. unfold System.update. cbn [sServices sSecrets sCache].
  set (l := {| LnproxyChallenger.invoiceStates := sCache s; LnproxyChallenger.secrets := sSecrets s |}).
  pose proof (proj2 (LnproxyChallenger.onUpdate_states l now i Hi)) as Hm.
  assert (Hs : LnproxyChallenger.secrets (LnproxyChallenger.onUpdate now i l).1 = sSecrets s \/
    exists h t, LnproxyChallenger.RHash i = Some h /\
      LnproxyChallenger.secrets (LnproxyChallenger.onUpdate now i l).1 =
        (SetSettledAtByPaymentHash (sSecrets s) h t).1).
  { unfold LnproxyChallenger.onUpdate, LnproxyChallenger.hashed in *.
    destruct (LnproxyChallenger.RHash i) as [h|]; [|by left]. rewrite MakeHash_spec by done.
    destruct (LnproxyChallenger.invoiceIrrelevant _ _); [by left|]. cbn [fst LnproxyChallenger.secrets].
    case_decide; [right; eauto|by left]. }
  split; [done|]. destruct Hs as [->|(h & t & Hh & ->)].
  - split; [done|]. intros q. split; [done|]. intros Hq. split; [done|].
    rewrite Hm. unfold LnproxyChallenger.effect. by rewrite decide_False.
  - destruct (SetSettledAtByPaymentHash (sSecrets s) h t) as [st' r] eqn:E. cbn [fst].
    split; [intros j; by eapply settle_keeps|]. intros q. split; [by eapply settle_known|].
    intros Hq. split; [eapply settle_other; [exact E|congruence]|].
    rewrite Hm. unfold LnproxyChallenger.effect. by rewrite decide_False.
Qed.

(** Over any history: secrets stay, what has a row keeps it, and services keep
    their configuration; without an update about a hash, and without another
    invoice with it, its state stays too. *)
Record kept (tr : list System.event) s s' : Prop := {
  kept_secret j : is_Some (held (sSecrets s) j) -> held (sSecrets s') j = held (sSecrets s) j;
  kept_row q : settlements (sSecrets s) q ≠ [] -> settlements (sSecrets s') q ≠ [];
  kept_services : Forall2 Proxy.similar (sServices s) (sServices s');
  kept_draws : (sDraws s <= sDraws s')%nat;
  kept_settled q :
    (forall now i, Updated now i ∈ tr -> LnproxyChallenger.RHash i ≠ Some q) ->
    (forall n, (sDraws s <= n)%nat -> Mint.never (ch n) q) ->
    settlements (sSecrets s') q = settlements (sSecrets s) q /\ sCache s' !! q = sCache s !! q
}.

Lemma reach_kept s tr s' : reach s tr s' -> kept tr s s'.
Proof.
  induction 1 as [|tr s1 now w r s2 a _ [IHs IHk IHv IHd IHt] Hs|tr s1 now i _ [IHs IHk IHv IHd IHt] Hi
                  |tr s1 st _ [IHs IHk IHv IHd IHt] [Hh Hst]].
  - split; [done..|reflexivity|done|done].
  - destruct (serve_calm now w r s1) as [[[Hsec Hrow Hset] Hsv Hd] Hc]. rewrite Hs in *. cbn [fst] in *.
    split; [intros j Hj|auto|by transitivity (sServices s1)|lia|intros q Hn Hq].
    + rewrite Hsec; rewrite IHs; auto.
    + destruct (IHt q) as [E1 E2]; [intros ? ? ?; eapply Hn; apply elem_of_app; eauto|done|].
      rewrite Hset, Hc by (apply Hq; lia). by rewrite E1, E2.
  - destruct (update_other now i s1 Hi) as (Hsv & Hsec & Hq). cbn zeta in *.
    split; [intros j Hj|intros q Hk|by rewrite Hsv|done|intros q Hn Hk].
    + rewrite Hsec; auto.
    + apply (Hq q); auto.
    + destruct (IHt q) as [E1 E2]; [intros ? ? ?; eapply Hn; apply elem_of_app; eauto|done|].
      destruct (Hq q) as [_ Hq']. destruct Hq' as [-> ->]; [|done].
      eapply (Hn now i), elem_of_app. right. by left.
  - split; cbn [with_store sSecrets sServices sDraws sCache];
      [intros j Hj|intros q Hk|done|done|intros q Hn Hk]; rewrite ?Hh, ?Hst; auto.
Qed.

End Others.

(** ** A token that is used later

    The token that was minted in the state [s1] is accepted in the state [s4],
    when in between its invoice was reported settled and anything else may have
    happened. *)
Section Later.
Context `{L402Lib} `{!L402Laws} {S C L : Type} `{!SecretStore S} `{!SecretStoreLaws S}
        `{!Challenger C} `{!ChallengerLaws C} `{!ServiceLimiter L}.
Variable e : Service.env.
Variable locals : list (request -> bool).
Variables (ch : nat -> C) (lim : L) (rand : nat -> outcome (list byte)).
Implicit Types (s : sys S).

(** What the mint sells for a service when the challenger is [c]: the token, its
    invoice and its limits. *)
Record minted (c : C) (st st1 : S) (rnd : outcome (list byte)) (svc : LsatService.t) (mac : macaroon)
    (inv : string) (limits : list Caveat.t) (p : list byte) : Prop := {
  minted_by : Mint.MintL402 c lim rnd st [svc] = (st1, Ok (mac, inv));
  minted_plain : LsatService.plain svc;
  minted_price : 0 < LsatService.Price svc;
  minted_limits : exists caps cons_ tos,
    ServiceCapabilities lim [svc] = Ok caps /\ ServiceConstraints lim [svc] = Ok cons_ /\
    ServiceTimeouts lim [svc] = Ok tos /\ limits = caps ++ cons_ ++ tos /\
    Forall Mint.foreign limits;
  minted_invoice :
    NewChallenge c (LsatService.RecipientLud16 svc) (LsatService.Price svc) =
      Ok (inv, Preimage_Hash p);
  minted_preimage : is_array 32 p
}.

(** Anything may happen, then the settlement of a hash is reported and recorded,
    and then anything that is not about this hash: no update, and no other invoice
    with the same hash.  The store reads the date back as [at_]. *)
Record settled_on_the_way (s1 s4 : sys S) (h : list byte) (at_ : time) : Prop := {
  way : exists tr1 s2 now u tr2,
    reach e locals ch lim rand s1 tr1 s2 /\
    LnproxyChallenger.RHash u = Some h /\ LnproxyChallenger.State u = SETTLED /\
    at_ = readBack (S := S) (Unix (LnproxyChallenger.SettleDate u)) /\
    is_ok (SetSettledAtByPaymentHash (sSecrets s2) h (Some (Unix (LnproxyChallenger.SettleDate u)))).2
      = true /\
    reach e locals ch lim rand (update now u s2) tr2 s4 /\
    (forall now i, Updated now i ∈ tr2 -> LnproxyChallenger.RHash i ≠ Some h) /\
    forall n, (sDraws s2 <= n)%nat -> Mint.never (ch n) h
}.

Lemma settled_later s1 s4 h at_ :
  is_array 32 h -> settlements (sSecrets s1) h ≠ [] ->
  settled_on_the_way s1 s4 h at_ ->
  (forall j, is_Some (held (sSecrets s1) j) -> held (sSecrets s4) j = held (sSecrets s1) j) /\
  settled_as (sSecrets s4) h at_ /\
  sCache s4 !! h = Some SETTLED /\
  Forall2 Proxy.similar (sServices s1) (sServices s4).
Proof.
  intros Hh Hk [(tr1 & s2 & now & u & tr2 & Hr1 & Hu & Hst & -> & Hok & Hr2 & Hno & Hfresh)].
  apply reach_kept in Hr1 as [H1s H1k H1v _ _], Hr2 as [H2s H2k H2v _ H2t].
  assert (Hhash : LnproxyChallenger.hashed u) by (unfold LnproxyChallenger.hashed; by rewrite Hu).
  destruct (update_other now u s2 Hhash) as (Hsv & Hsec & _). cbn zeta in *.
  assert (Hset : settled_as (sSecrets (update now u s2)) h
    (readBack (S := S) (Unix (LnproxyChallenger.SettleDate u)))).
  { apply (LnproxyChallenger.onUpdate_settles
      {| LnproxyChallenger.invoiceStates := sCache s2; LnproxyChallenger.secrets := sSecrets s2 |} now u h);
      auto. }
  destruct (H2t h Hno Hfresh) as [E1 E2].
  split_and!.
  - intros j Hj. rewrite H2s; rewrite Hsec, H1s; auto.
  - unfold settled_as. by rewrite E1.
  - rewrite E2. unfold update. cbn [sCache].
    rewrite (proj2 (LnproxyChallenger.onUpdate_states _ now u Hhash)).
    unfold LnproxyChallenger.effect. cbn [fst snd]. rewrite decide_True by done.
    by rewrite LnproxyChallenger.settled_relevant, Hst.
  - rewrite Hsv in H2v. by rewrite H1v.
Qed.

(** The mint has a row for the invoice. *)
Lemma minted_row c st st1 rnd svc mac inv limits p :
  minted c st st1 rnd svc mac inv limits p ->
  is_array 32 (Preimage_Hash p) /\ is_Some (held st1 (Sum256 (mac_Id mac))) /\
  settlements st1 (Preimage_Hash p) ≠ [].
Proof.
  intros [Hm _ Hpos _ Hch Hp].
  pose proof (Mint.MintL402_Ok _ _ _ _ _ _ _ _ Hm) as (h & tid & secret & cs & Hmint).
  assert (Hdet : Mint.paymentDetailsForMaxPrice [svc] =
    (LsatService.RecipientLud16 svc, LsatService.Price svc))
    by (unfold Mint.paymentDetailsForMaxPrice; cbn [foldl]; by rewrite decide_True).
  rewrite Hdet in Hmint. destruct Hmint as (Hch' & Hh & Hid & Hnew & _).
  rewrite Hch in Hch'. injection Hch' as <-. split; [done|].
  split; [by rewrite (new_get _ _ _ _ _ Hnew)|].
  rewrite (new_settlement _ _ _ _ _ _ Hnew), decide_True by done. by destruct (settlements st _).
Qed.

(** A token whose secret is still there and whose invoice is known as settled is
    accepted, by any server that shares the store, when the store answers. *)
Lemma accepted_if ch' lim' rand' now2 s4 c st st1 rnd svc mac inv limits p pm at_ hd :
  minted c st st1 rnd svc mac inv limits p ->
  (forall j, is_Some (held st1 j) -> held (sSecrets s4) j = held st1 j) ->
  settled_as (sSecrets s4) (Preimage_Hash p) at_ ->
  sCache s4 !! Preimage_Hash p = Some SETTLED ->
  answering (sSecrets s4) ->
  AddFirstPartyCaveats mac [Caveat.NewCaveat Caveat.PreimageKey (Preimage_String p)] = Ok pm ->
  FromHeader hd = Ok (pm, p) ->
  Mint.in_time (LsatService.Name svc) now2 limits ->
  Before (Add at_ LsatAuth.L402RightExpiryDuration) now2 = false ->
  Accept (auth_of (C := C) (L := L) ch' lim' rand' now2 s4) hd (LsatService.Name svc) = true.
Proof.
  intros Hmint Hsec Hset Hc Hans Hpm Hfh Htime Hexp.
  destruct (minted_row _ _ _ _ _ _ _ _ _ Hmint) as (_ & Hrow & _).
  destruct Hmint as [Hm Hpl Hpos (caps & cons_ & tos & Hcap & Hcon & Hto & -> & Hf) Hch Hp].
  specialize (Hsec _ Hrow). destruct Hrow as [k Hk].
  eapply (minted_accepted c lim rnd st svc st1);
    [exact Hm|done..|exact Hch|exact Hpm|exact Hfh|exact Hsec| |done| |].
  - cbn [auth_of ms_secrets]. by rewrite (proj1 Hans _ k) by congruence.
  - apply LnproxyChallenger.VerifyInvoiceStatus_Ok. left. exact Hc.
  - cbn [VerifyRightsWithinExpiry LnproxyChallenger.checker].
    unfold LnproxyChallenger.VerifyRightsWithinExpiry. cbn [LnproxyChallenger.chal LnproxyChallenger.secrets LnproxyChallenger.clock].
    rewrite (settled_as_get _ _ at_ Hans Hset). cbn [mbind outcome_bind]. by rewrite Hexp.
Qed.

Lemma accepted_later now2 s1 s4 c st rnd svc mac inv limits p pm at_ hd :
  minted c st (sSecrets s1) rnd svc mac inv limits p ->
  settled_on_the_way s1 s4 (Preimage_Hash p) at_ -> answering (sSecrets s4) ->
  AddFirstPartyCaveats mac [Caveat.NewCaveat Caveat.PreimageKey (Preimage_String p)] = Ok pm ->
  FromHeader hd = Ok (pm, p) ->
  Mint.in_time (LsatService.Name svc) now2 limits ->
  Before (Add at_ LsatAuth.L402RightExpiryDuration) now2 = false ->
  Accept (auth_of ch lim rand now2 s4) hd (LsatService.Name svc) = true.
Proof.
  intros Hmint Hway Hans Hpm Hfh Htime Hexp.
  destruct (minted_row _ _ _ _ _ _ _ _ _ Hmint) as (Hh & _ & Hk).
  destruct (settled_later s1 s4 _ at_ Hh Hk Hway) as (Hsec & Hset & Hc & _).
  by eapply accepted_if.
Qed.
End Later.


(** ** Remote calls *)
Section Calls.
Context `{L402Lib}.

(** gRPC: what the client is told of an answer of the proxy itself, and of the
    answer of a backend to the request it gets. *)
Record transport := {
  onResponse : response -> Client.rpcResult;
  onBackend : request -> Client.rpcResult
}.

(** The content type of a gRPC message: the bare type, or one with a subtype or
    with parameters. *)
Definition grpc_type (v : string) : bool :=
  bool_decide (v = Proxy.hdrTypeGrpc) || HasPrefix v (Proxy.hdrTypeGrpc +:+ "+")
  || HasPrefix v (Proxy.hdrTypeGrpc +:+ ";").

(** A status message that needs no percent-encoding. *)
Definition unescaped (msg : string) : bool :=
  forallb_string (fun c => let n := nat_of_ascii c in
                     (32 <=? n)%nat && (n <=? 126)%nat && negb (n =? 37)%nat) msg.

(** Field names with no meaning of their own in HTTP/2 or gRPC: not about the
    framing of the message, and without the suffix of binary values. *)
Definition binary_field (k : string) : bool := HasPrefix (String.rev k) (String.rev "-Bin").
Definition framing_fields : list string := ["Content-Length"; "Connection"; "Transfer-Encoding"; "Trailer"].
Definition ordinary (h : header) : Prop :=
  map_Forall (fun k _ => k ∉ framing_fields /\ binary_field k = false) h.

Lemma ordinary_Set h k v :
  CanonicalHeaderKey k ∉ framing_fields -> binary_field (CanonicalHeaderKey k) = false ->
  ordinary h -> ordinary (Set_ h k v).
Proof. intros H1 H2 Hh. by apply map_Forall_insert_2. Qed.

Lemma ordinary_Add h k v :
  CanonicalHeaderKey k ∉ framing_fields -> binary_field (CanonicalHeaderKey k) = false ->
  ordinary h -> ordinary (Add_ h k v).
Proof. intros H1 H2 Hh. by apply map_Forall_insert_2. Qed.

Lemma ordinary_cors h : ordinary h -> ordinary (Proxy.addCorsHeaders h).
Proof.
  intros Hh. unfold Proxy.addCorsHeaders.
  by repeat (apply ordinary_Add; [apply (bool_decide_unpack _); vm_compute; exact I|done|]).
Qed.

(** The Trailers-Only form of the gRPC protocol: a response of HTTP status 200,
    with the content type of gRPC and no message, reports the failure in its
    header fields, and its fields are handed to the caller as the trailer, under
    names in lower case. *)
Definition trailers_only (tp : transport) : Prop := forall resp code msg v,
  wStatus resp = StatusOK -> wBody resp = "" -> ordinary (wHeader resp) ->
  Values (wHeader resp) Proxy.hdrContentType = [v] -> grpc_type v = true ->
  1 <= code <= 16 -> Values (wHeader resp) Proxy.hdrGrpcStatus = [FormatInt code] ->
  unescaped msg = true -> Values (wHeader resp) Proxy.hdrGrpcMessage = [msg] ->
  exists trailer,
    onResponse tp resp = Client.RpcStatus code msg trailer /\
    (Values (wHeader resp) Client.AuthHeader ≠ [] ->
     trailer !! ToLower Client.AuthHeader = Some (Values (wHeader resp) Client.AuthHeader)).

Definition answer (tp : transport) (a : outcome Proxy.action) : Client.rpcResult :=
  match a with
  | Ok (Proxy.Respond resp) => onResponse tp resp
  | Ok (Proxy.Forward out) => onBackend tp out
  | _ => Client.RpcOther
  end.

(** The metadata of the credentials go into the header of the request. *)
Definition addMetadata (h : header) (md : gmap string string) : header :=
  foldl (fun h '(k, v) => Add_ h k v) h (map_to_list md).

Fixpoint callRequest (r : request) (creds : list MacaroonCredential) : outcome request :=
  match creds with
  | [] => Ok r
  | c :: rest =>
      md ← GetRequestMetadata c;
      callRequest (with_header r (addMetadata (rHeader r) md)) rest
  end.

Context `{!L402Laws}.

(** A header without an L402. *)
Definition bare (h : header) : Prop :=
  Get h HeaderAuthorization = "" /\ Get h HeaderMacaroonMD = "" /\ Values h HeaderMacaroon = [].

Lemma FromHeader_bare h : bare h -> FromHeader h = Err (Errorf "no auth header provided").
Proof.
  intros (H1 & H2 & H3). unfold FromHeader. rewrite H1, H2.
  replace (Get h HeaderMacaroon) with "" by (unfold Get; by rewrite H3).
  by rewrite !(decide_False (P := "" ≠ "")) by naive_solver.
Qed.

(** The request of a call with a paid token. *)
Lemma callRequest_paid r pm b p insecure :
  bare (rHeader r) -> mac_MarshalBinary pm = Ok b -> is_array 32 p ->
  HasCaveat pm Caveat.PreimageKey = Some (Preimage_String p) ->
  exists h, callRequest r [NewMacaroonCredential pm insecure] = Ok (with_header r h) /\
            FromHeader h = Ok (pm, p).
Proof.
  intros (H1 & H2 & H3) Hb Hp Hc. cbn [callRequest]. unfold GetRequestMetadata.
  cbn [mcMacaroon NewMacaroonCredential]. rewrite Hb. cbn [mbind outcome_bind].
  eexists. split; [done|]. unfold addMetadata. rewrite map_to_list_singleton. cbn [foldl].
  assert (HG : Get (Add_ (rHeader r) "macaroon" (hex_EncodeToString b)) HeaderMacaroon = hex_EncodeToString b).
  { unfold Get, Values, Add_. change (CanonicalHeaderKey "macaroon") with (CanonicalHeaderKey HeaderMacaroon).
    rewrite lookup_insert_eq. cbn [default from_option id].
    change (Values (rHeader r) "macaroon") with (Values (rHeader r) HeaderMacaroon). by rewrite H3. }
  unfold FromHeader. rewrite !Get_Add_ne by (vm_compute; discriminate). rewrite H1, H2, HG.
  rewrite !(decide_False (P := "" ≠ "")) by naive_solver.
  apply Marshal_nonempty in Hb as Hne.
  rewrite decide_True by (by destruct b). unfold fromMacaroonHex.
  rewrite hex_roundtrip. cbn [errorf mbind outcome_bind].
  rewrite (Unmarshal_Marshal _ _ Hb). cbn [errorf mbind outcome_bind]. rewrite Hc.
  cbn [of_option mbind outcome_bind]. by rewrite MakePreimage_String.
Qed.
End Calls.

(** ** The first call: the challenge *)
Section Challenged.
Context `{L402Lib} `{!L402Laws} {S C L : Type} `{!SecretStore S} `{!SecretStoreLaws S}
        `{!Challenger C} `{!ChallengerLaws C} `{!ServiceLimiter L}.
Variable e : Service.env.
Variable locals : list (request -> bool).
Variables (ch : nat -> C) (lim : L) (rand : nat -> outcome (list byte)).
Implicit Types (s : sys S).

(** A gRPC call without a token for something that costs: its service, the
    recipient and the price.  Its fields are those of a gRPC client. *)
Record for_sale s (r : request) (target : Service.t) (svc : LsatService.t) : Prop := {
  sale_method : rMethod r ≠ "OPTIONS";
  sale_grpc : exists v, Values (rHeader r) Proxy.hdrContentType = [v] /\ grpc_type v = true;
  sale_ordinary : ordinary (rHeader r);
  sale_header : Proxy.canonical (rHeader r);
  sale_bare : bare (rHeader r);
  sale_service : exists i, Proxy.matchService e r (sServices s) = Ok (Some (i, target));
  sale_level : exists level, Service.AuthRequired e target r = Ok level /\ Level.IsOn level = true;
  sale_price : exists pr r' rc price,
    Service.pricer target = Some pr /\ Pricer.GetPaymentDetails pr r = (r', Ok (rc, price)) /\
    rHeader r' = rHeader r /\ price ≠ 0 /\
    svc = {| LsatService.Name := Service.ResourceName target (rPath r);
             LsatService.Tier := LsatService.BaseTier; LsatService.RecipientLud16 := rc;
             LsatService.Price := price |}
}.

Lemma grpc_type_prefix v : grpc_type v = true -> HasPrefix v Proxy.hdrTypeGrpc = true.
Proof.
  unfold grpc_type. rewrite !orb_true_iff, bool_decide_eq_true.
  intros [[->|[x ->]%HasPrefix_inv]|[x ->]%HasPrefix_inv]; [done|..];
    rewrite string_app_assoc; apply HasPrefix_app.
Qed.

(** The answer to a gRPC call whose request header, with the challenge, is [h]:
    its fields are those of [h] and the two of the status, so that the content
    type is the one the client sent. *)
Lemma direct_trailers h r msg v :
  rHeader r = h -> ordinary h ->
  Values h Proxy.hdrContentType = [v] -> grpc_type v = true ->
  let resp := Proxy.sendDirectResponse h r StatusPaymentRequired msg in
  wStatus resp = StatusOK /\ wBody resp = "" /\ ordinary (wHeader resp) /\
  Values (wHeader resp) Proxy.hdrContentType = [v] /\
  Values (wHeader resp) Proxy.hdrGrpcStatus = [FormatInt 13] /\
  Values (wHeader resp) Proxy.hdrGrpcMessage = [msg] /\
  Values (wHeader resp) Client.AuthHeader = Values h Client.AuthHeader.
Proof.
  intros Hr Ho Hv Hg. unfold Proxy.sendDirectResponse. rewrite Hr.
  replace (Get h Proxy.hdrContentType) with v by (unfold Get; by rewrite Hv).
  rewrite (grpc_type_prefix v Hg). cbn zeta. cbn [wStatus wBody wHeader].
  split_and!; [done..| | | | |].
  - repeat (apply ordinary_Set; [apply (bool_decide_unpack _); vm_compute; exact I|done|]). done.
  - rewrite <- Hv. unfold Values, Set_. by rewrite !lookup_insert_ne by (vm_compute; discriminate).
  - unfold Values, Set_. rewrite lookup_insert_ne by (vm_compute; discriminate). by rewrite lookup_insert_eq.
  - unfold Values, Set_. by rewrite lookup_insert_eq.
  - unfold Values, Set_. by rewrite !lookup_insert_ne by (vm_compute; discriminate).
Qed.

Lemma challenged now s r target svc st1 mac inv macBytes limits p :
  for_sale s r target svc ->
  minted lim (ch (sDraws s)) (sSecrets s) st1 (rand (sDraws s)) svc mac inv limits p ->
  mac_MarshalBinary mac = Ok macBytes ->
  exists s1 resp,
    serve e locals ch lim rand now ∅ r s = (s1, Ok (Proxy.Respond resp)) /\
    sSecrets s1 = st1 /\ sServices s1 = sServices s /\
    wStatus resp = StatusOK /\ wBody resp = "" /\ ordinary (wHeader resp) /\
    Values (wHeader resp) Proxy.hdrContentType = Values (rHeader r) Proxy.hdrContentType /\
    Values (wHeader resp) Proxy.hdrGrpcStatus = [FormatInt 13] /\
    Values (wHeader resp) Proxy.hdrGrpcMessage = ["payment required"] /\
    Values (wHeader resp) Client.AuthHeader = [challengeText (b64_EncodeToString macBytes) inv].
Proof.
  intros [Hm (v & Hv & Hg) Hor Hcan Hbare (i & Ht) (level & Hl & Hon)
      (pr & r' & rc & price & Hpr & Hpd & Hr' & Hz & ->)]
    [Hmint _ _ _ _ _] Hmb.
  set (p0 := proxy_of locals ch lim rand now s).
  set (h := Set_ (Proxy.addCorsHeaders (rHeader r')) "WWW-Authenticate"
              (challengeText (b64_EncodeToString macBytes) inv)).
  assert (Hf : exists a', FreshChallengeHeader (Proxy.authenticator p0)
    (with_header r' (Proxy.addCorsHeaders (rHeader r')))
    (Service.ResourceName target (rPath r)) rc price =
    (a', with_header (with_header r' (Proxy.addCorsHeaders (rHeader r'))) h, Ok h) /\
    ms_secrets (LsatAuth.minter a') = st1).
  { cbn [FreshChallengeHeader LsatAuth.lsat_authenticator Proxy.authenticator p0 proxy_of].
    unfold LsatAuth.FreshChallengeHeader. cbn [mint_MintL402 mint_minter LsatAuth.minter auth_of
      ms_challenger ms_limiter ms_rand ms_draws ms_secrets].
    rewrite Hmint, Hmb. by eexists. }
  destruct Hf as (a' & Hf & Hst).
  assert (Hserve : Proxy.ServeHTTP e p0 ∅ r = (Proxy.set_authenticator p0 a',
    Ok (Proxy.Respond (Proxy.sendDirectResponse (h ∪ ∅) (with_header r' h) StatusPaymentRequired
                         "payment required")))).
  { rewrite (Proxy.ServeHTTP_challenge e p0 ∅ r i target level pr r' rc price);
      [|done|exact Ht|exact Hl|exact Hon| |exact Hpr|exact Hpd|exact Hz].
    2: { cbn [Accept LsatAuth.lsat_authenticator Proxy.authenticator p0 proxy_of].
         unfold LsatAuth.Accept. by rewrite FromHeader_bare. }
    destruct (Proxy.handlePaymentRequired_Ok p0 ∅ r' _ _ _ _ _ _ ltac:(by rewrite Hr') Hf)
      as (str & _ & ->). done. }
  eexists _, _. unfold serve. fold p0. rewrite Hserve. split; [done|]. cbn [sSecrets sServices].
  split; [exact Hst|]. split; [done|].
  rewrite (right_id_L ∅ (∪)). rewrite Hv.
  assert (Hh : ordinary h) by (apply ordinary_Set; [apply (bool_decide_unpack _); vm_compute; exact I|done|];
    apply ordinary_cors; by rewrite Hr').
  assert (Hvh : Values h Proxy.hdrContentType = [v]).
  { subst h. unfold Proxy.addCorsHeaders, Values, Set_, Add_.
    rewrite !lookup_insert_ne by (vm_compute; discriminate). by rewrite Hr'. }
  destruct (direct_trailers h (with_header r' h) "payment required" v) as (D1 & D2 & D3 & D4 & D5 & D6 & D7);
    [done..|].
  split_and!; [exact D1|exact D2|exact D3|exact D4|exact D5|exact D6|]. rewrite D7.
  unfold Values, h, Set_. by rewrite lookup_insert_eq.
Qed.
End Challenged.

(** ** The client, wired to the server

    Its first attempt is served in one state and its second in another. *)
Section Wired.
Context `{L402Lib} `{!L402Laws} {S C L : Type} `{!SecretStore S} `{!SecretStoreLaws S}
        `{!Challenger C} `{!ChallengerLaws C} `{!ServiceLimiter L}.
Variable e : Service.env.
Variable locals : list (request -> bool).
Variables (ch : nat -> C) (lim : L) (rand : nat -> outcome (list byte)).
Implicit Types (s : sys S).

Definition call (tp : transport) (now : time) s (r : request) (creds : list MacaroonCredential) :
    Client.rpcResult :=
  match callRequest r creds with
  | Ok r => answer tp (serve e locals ch lim rand now ∅ r s).2
  | _ => Client.RpcOther
  end.

Definition wired (tp : transport) (now1 now2 : time) s0 s4 (r : request) (lnd : Client.env) :
    Client.env := {|
  Client.invoker n creds :=
    if decide (n = 1)%nat then call tp now1 s0 r creds else call tp now2 s4 r creds;
  Client.zpay32_Decode := Client.zpay32_Decode lnd;
  Client.NewMSatFromSatoshis := Client.NewMSatFromSatoshis lnd;
  Client.PayInvoice := Client.PayInvoice lnd;
  Client.TrackPayment := Client.TrackPayment lnd;
  Client.now := Client.now lnd
|}.

(** The request with the token is let through to the backend. *)
Lemma served_later now2 s1 s4 c st rnd r target svc mac inv limits p pm b at_ insecure s0 :
  for_sale e s0 r target svc -> sServices s1 = sServices s0 ->
  minted lim c st (sSecrets s1) rnd svc mac inv limits p ->
  settled_on_the_way e locals ch lim rand s1 s4 (Preimage_Hash p) at_ -> answering (sSecrets s4) ->
  AddFirstPartyCaveats mac [Caveat.NewCaveat Caveat.PreimageKey (Preimage_String p)] = Ok pm ->
  mac_MarshalBinary pm = Ok b ->
  Mint.in_time (LsatService.Name svc) now2 limits ->
  Before (Add at_ LsatAuth.L402RightExpiryDuration) now2 = false ->
  exists req out,
    callRequest r [NewMacaroonCredential pm insecure] = Ok req /\
    (serve e locals ch lim rand now2 ∅ req s4).2 = Ok (Proxy.Forward out) /\
    rHost out = Service.Address target /\ rPath out = rPath r /\
    FromHeader (rHeader out) = Ok (pm, p).
Proof.
  intros [Hm _ _ _ Hbare (i & Ht) (level & Hl & Hon) (pr & r' & rc & price & _ & _ & _ & _ & Hsvc)]
    Hsv Hmint Hway Hans Hpm Hb Htime Hexp.
  pose proof Hmint as [Hmi _ _ _ Hch Hp].
  assert (Hc : HasCaveat pm Caveat.PreimageKey = Some (Preimage_String p)).
  { apply AddFirstPartyCaveats_spec in Hpm as [_ Hcs]. cbn in Hcs.
    by eapply (HasCaveat_snoc pm (Caveat.NewCaveat Caveat.PreimageKey _)). }
  destruct (callRequest_paid r pm b p insecure Hbare Hb Hp Hc) as (hd & Hcall & Hfh).
  assert (Hacc : Accept (auth_of ch lim rand now2 s4) hd (LsatService.Name svc) = true)
    by by eapply accepted_later.
  assert (Hsim : Forall2 Proxy.similar (sServices s0) (sServices s4)).
  { rewrite <- Hsv. destruct Hway as [(tr1 & s2 & now & u & tr2 & Hr1 & Hu & _ & _ & _ & Hr2 & _)].
    apply reach_kept in Hr1 as [_ _ H1 _ _], Hr2 as [_ _ H2 _ _]. by transitivity (sServices s2). }
  rewrite (Proxy.matchService_ext e r (with_header r hd)) in Ht by done.
  destruct (Proxy.matchService_similar e (with_header r hd) _ _ i target Hsim Ht) as (t' & Ht' & db & ->).
  set (p4 := proxy_of locals ch lim rand now2 s4).
  destruct (Proxy.director_Ok e (sServices s4) (with_header r hd) i (Service.set_freebieDB target db)
    pm p (Set_ hd HeaderAuthorization (authFormat (b64_EncodeToString b) (Preimage_String p))))
    as (out & Ho & Hhost & _ & _ & Hpath & _ & Hf); [done|done|done| |].
  { unfold SetHeader. rewrite Hb. done. }
  exists (with_header r hd), out. split; [done|]. split; [|done].
  unfold serve. fold p4.
  rewrite (Proxy.ServeHTTP_accepted e p4 ∅ (with_header r hd) i (Service.set_freebieDB target db) level);
    [|done|exact Ht'|exact Hl|exact Hon|].
  2: { rewrite Hsvc in Hacc. exact Hacc. }
  unfold Proxy.forward. cbn [Proxy.services p4 proxy_of]. by rewrite Ho.
Qed.
End Wired.
End Purchase.

(** ** Properties *)
Module PurchaseProperties.
Import System Purchase.

(** C2: a purchase from end to end: a gRPC client without a token that calls a
    service behind the proxy is challenged, pays the invoice of the challenge
    once, and its repeated call with the token reaches the backend with the paid
    token, whose answer is the answer of the call; the token is kept as paid.
    This holds whatever other requests and invoice updates the server handles
    before and after the settlement is reported, as long as the settlement is not
    withdrawn, no later invoice has the same payment hash, the store answers, and the
    token's time limits and the hour after the settlement, as the store reads it back,
    last.  The name of the service (with
    dynamic prices, the path in it too) has no ':' and no ',', and a limit of the
    service is no caveat about other services; gRPC is taken at its documented
    protocol: an answer without a message and with the content type of gRPC
    reports the failure in its header fields. *)
Theorem client_buys_access `{L402Lib} `{!L402Laws} {S C L T : Type} `{!SecretStore S}
    `{!SecretStoreLaws S} `{!Challenger C} `{!ChallengerLaws C} `{!ServiceLimiter L}
    `{!TokenStore T} `{!TokenStoreLaws T}
    e locals (ch : nat -> C) (lim : L) rand (s0 s4 : sys S) tp now1 now2 r target svc st1 mac inv macBytes
    limits p pm b at_ i lnd (w : Client.world (S := T)) tok amt fee :
  let ce := wired e locals ch lim rand tp now1 now2 s0 s4 r lnd in
  let s1 := (serve e locals ch lim rand now1 ∅ r s0).1 in
  trailers_only tp ->
  (* the server sells the service, and the challenge carries a token *)
  for_sale e s0 r target svc ->
  minted lim (ch (sDraws s0)) (sSecrets s0) st1 (rand (sDraws s0)) svc mac inv limits p ->
  mac_MarshalBinary mac = Ok macBytes ->
  (* the client has no token, and lnd pays the invoice *)
  repr (Client.store w) FileStore.Empty ->
  Client.payable i ce macBytes inv tok p amt fee ->
  Token.PaidMacaroon (Client.paidToken ce tok p amt fee) = Ok pm -> mac_MarshalBinary pm = Ok b ->
  (* the settlement is reported before the second attempt, which is in time *)
  settled_on_the_way e locals ch lim rand s1 s4 (Preimage_Hash p) at_ -> answering (sSecrets s4) ->
  Mint.in_time (LsatService.Name svc) now2 limits ->
  Before (Add at_ LsatAuth.L402RightExpiryDuration) now2 = false ->
  exists out,
    (Client.UnaryInterceptor i ce w).2 = Client.rpcOutcome (onBackend tp out) /\
    rHost out = Service.Address target /\ rPath out = rPath r /\
    FromHeader (rHeader out) = Ok (pm, p) /\
    Client.payments (Client.trace (Client.UnaryInterceptor i ce w).1) =
      Client.payments (Client.trace w) ++ [inv] /\
    repr (Client.store (Client.UnaryInterceptor i ce w).1)
      (FileStore.Paid (Client.paidToken ce tok p amt fee)).
Proof.
  intros ce s1 Htp Hsale Hmint Hmb Hrep Hpay Hpm Hb Hway Hans Htime Hexp.
  destruct (challenged e locals ch lim rand now1 s0 r target svc st1 mac inv macBytes limits p
              Hsale Hmint Hmb) as (s1' & resp & Hs & Hst & Hsv & R1 & R2 & R3 & R4 & R5 & R6 & R7).
  assert (E1 : s1 = s1') by (subst s1; by rewrite Hs). rewrite <- E1 in *. clear s1' E1.
  destruct (sale_grpc _ _ _ _ _ Hsale) as (v & Hv & Hg). rewrite Hv in R4.
  destruct (Htp resp 13 "payment required" v R1 R2 R3 R4 Hg ltac:(lia) R5 eq_refl R6)
    as (trailer & Hresp & Htr).
  rewrite R7 in Htr. specialize (Htr ltac:(done)).
  assert (Hbase : Token.baseMac tok = mac).
  { destruct Hpay as [_ _ (d & _ & _ & Ht) _ _ _ _]. unfold Token.tokenFromChallenge in Ht.
    rewrite (Unmarshal_Marshal _ _ Hmb) in Ht. cbn [errorf mbind outcome_bind] in Ht.
    apply bind_Ok_inv in Ht as (hh & _ & [= <-]). done. }
  assert (Hpm' := Hpm). unfold Token.PaidMacaroon, Token.BaseMacaroon in Hpm'.
  cbn [Client.paidToken Token.baseMac Token.Preimage] in Hpm'. rewrite Hbase in Hpm'.
  destruct (Client.fresh_run i ce w 13 "payment required" trailer macBytes inv [] tok p amt fee pm)
    as (F1 & F2 & F3); [done| |reflexivity|exact Htr|exact Hpay|exact Hpm|].
  { cbn. unfold call. cbn [callRequest]. rewrite Hs. cbn [snd answer]. exact Hresp. }
  rewrite <- Hst in Hmint.
  destruct (served_later e locals ch lim rand now2 s1 s4 _ _ _ r target svc mac inv limits p pm b at_
    (Client.allowInsecure i) s0 Hsale Hsv Hmint Hway Hans Hpm' Hb Htime Hexp)
    as (req & out & Hcall & Hfwd & Hhost & Hpath & Hfh).
  exists out. rewrite F2, F3. split_and!; [|done..| |exact F1].
  - cbn. unfold call. rewrite Hcall, Hfwd. done.
  - by rewrite Client.payments_app.
Qed.

(** *** Witness: the toy mint behind the toy service, and a client with an empty
    directory *)
#[local] Existing Instance ToyLib.lib.
#[local] Existing Instance ToyLib.laws.
#[local] Existing Instance ClientProperties.toy_store.
#[local] Existing Instance ClientProperties.toy_store_laws.

Definition toy_transport : transport := {|
  onResponse resp :=
    if negb (grpc_type (Get (wHeader resp) Proxy.hdrContentType)) then Client.RpcOther else
    match ParseInt (Get (wHeader resp) Proxy.hdrGrpcStatus) with
    | Ok code => Client.RpcStatus code (Get (wHeader resp) Proxy.hdrGrpcMessage)
                   {[ToLower Client.AuthHeader := Values (wHeader resp) Client.AuthHeader]}
    | _ => Client.RpcOther
    end;
  onBackend _ := Client.RpcOk
|}.

Lemma toy_trailers : trailers_only toy_transport.
Proof.
  intros resp code msg v _ _ _ Hv Hg Hc Hs _ Hm. cbn [onResponse toy_transport].
  unfold Get. rewrite Hv, Hg, Hs, Hm. cbn [negb]. rewrite ParseInt_FormatInt by (unfold is_i64, minInt64, maxInt64; lia).
  eexists. split; [done|]. intros _. apply lookup_singleton_eq.
Qed.

Definition toy_sale : LsatService.t := {|
  LsatService.Name := "loop"; LsatService.Tier := 0;
  LsatService.RecipientLud16 := ""; LsatService.Price := 5 |}.
Definition toy_call : request :=
  with_header ProxyProperties.toy_request {["Content-Type" := ["application/grpc"]]}.
Definition toy_s0 : sys DBStore.store := {|
  sServices := [ProxyProperties.paid_service]; sSecrets := ToyMint.store; sCache := ∅; sDraws := 0 |}.
Definition toy_locals : list (request -> bool) := [].
(** An invoice of its own for every token. *)
Definition toy_chal (n : nat) : list byte :=
  match n with O => ToyMint.preimage | _ => replicate 32 Byte.x0a end.
Definition toy_rand (_ : nat) : outcome (list byte) := ToyMint.rand.
Definition toy_minted := Mint.MintL402 ToyMint.preimage tt ToyMint.rand ToyMint.store [toy_sale].
Definition toy_mac : macaroon := (ok_or (ToyMint.mac, "") toy_minted.2).1.
Definition toy_paid : macaroon :=
  ok_or toy_mac (AddFirstPartyCaveats toy_mac [ToyMint.preimageCaveat]).
Definition toy_s1 : sys DBStore.store :=
  (serve ProxyProperties.toy_env toy_locals toy_chal tt toy_rand (Unix 1005) ∅ toy_call toy_s0).1.
Definition toy_update : LnproxyChallenger.invoice := {|
  LnproxyChallenger.RHash := Some (Sum256 ToyMint.preimage); LnproxyChallenger.AddIndex := 1;
  LnproxyChallenger.SettleIndex := 1; LnproxyChallenger.State := SETTLED;
  LnproxyChallenger.CreationDate := 1000; LnproxyChallenger.Expiry := 3600;
  LnproxyChallenger.SettleDate := 1010 |}.
Definition toy_s4 : sys DBStore.store := update (Unix 1011) toy_update toy_s1.
Definition toy_lnd : Client.env := {|
  Client.invoker _ _ := Client.RpcOther;
  Client.zpay32_Decode _ := Ok {| Client.MilliSat := Some 5000; Client.iPaymentHash := Sum256 ToyMint.preimage |};
  Client.NewMSatFromSatoshis z := z * 1000;
  Client.PayInvoice _ _ := Client.Settled ToyMint.preimage 5 1;
  Client.TrackPayment _ := Err (Errorf "none");
  Client.now := UnixFromNano 0 |}.
Definition toy_tok : Token.t :=
  ok_or ToyToken.pending
    (Token.tokenFromChallenge (UnixFromNano 0) (ToyLib.marshal toy_mac) (Sum256 ToyMint.preimage)).
Definition toy_client : Client.world (S := FileStore.dir) := {| Client.store := ∅; Client.trace := [] |}.

Lemma toy_minted_Ok :
  Mint.MintL402 ToyMint.preimage tt ToyMint.rand ToyMint.store [toy_sale] = (toy_minted.1, Ok (toy_mac, "lnbc1")).
Proof. reflexivity. Qed.

Lemma toy_tok_Ok :
  Token.tokenFromChallenge (UnixFromNano 0) (ToyLib.marshal toy_mac) (Sum256 ToyMint.preimage) = Ok toy_tok.
Proof.
  assert (E : is_ok (Token.tokenFromChallenge (UnixFromNano 0) (ToyLib.marshal toy_mac)
                       (Sum256 ToyMint.preimage)) = true) by (vm_compute; reflexivity).
  unfold toy_tok. by destruct (Token.tokenFromChallenge _ _ _).
Qed.

Lemma toy_storable t :
  Token.PaymentHash t = Sum256 ToyMint.preimage -> is_array 32 (Token.Preimage t) ->
  is_u64 (Token.AmountPaid t) -> is_u64 (Token.RoutingFeePaid t) ->
  Token.TimeCreated t = UnixFromNano 0 -> Token.baseMac t = toy_mac -> Token.storable t.
Proof.
  intros H1 H2 H3 H4 H5 H6. split_and!; [rewrite H1; apply Sum256_length|done..| |].
  - exists 0. split; [split; vm_compute; discriminate|done].
  - exists (ToyLib.marshal toy_mac). rewrite H6. split; [done|]. split; vm_compute; [discriminate|reflexivity].
Qed.

Definition toy_ce : Client.env :=
  wired ProxyProperties.toy_env toy_locals toy_chal tt toy_rand toy_transport (Unix 1005) (Unix 1050)
    toy_s0 toy_s4 toy_call toy_lnd.

Lemma client_buys_access_witness :
  (Client.UnaryInterceptor ClientProperties.toy_interceptor toy_ce toy_client).2 = Ok tt.
Proof.
  destruct (client_buys_access (SecretStoreLaws0 := DBStore.db_store_laws)
    (ServiceLimiter0 := ToyMint.toy_limiter)
    ProxyProperties.toy_env toy_locals toy_chal tt toy_rand toy_s0 toy_s4 toy_transport
    (Unix 1005) (Unix 1050) toy_call ProxyProperties.paid_service toy_sale toy_minted.1 toy_mac "lnbc1"
    (ToyLib.marshal toy_mac)
    [LsatService.NewCapabilitiesCaveat "loop" "all"; LsatService.NewTimeoutCaveat "loop" 100 (Unix 1000)]
    ToyMint.preimage toy_paid (ToyLib.marshal toy_paid) (Unix 1010) ClientProperties.toy_interceptor toy_lnd
    toy_client toy_tok 5 1) as (out & E & _).
  - apply toy_trailers.
  - split.
    + discriminate.
    + exists "application/grpc". split; vm_compute; reflexivity.
    + apply map_Forall_singleton. split; [apply (bool_decide_unpack _); vm_compute; exact I|reflexivity].
    + apply map_Forall_singleton. split; [reflexivity|discriminate].
    + vm_compute. repeat split.
    + exists 0%nat. vm_compute. reflexivity.
    + exists "on". vm_compute. split; reflexivity.
    + exists (Pricer.NewDefaultPricer 5), toy_call, "", 5.
      split; [vm_compute; reflexivity|]. split; [reflexivity|]. split; [reflexivity|].
      split; [discriminate|vm_compute; reflexivity].
  - split; [exact toy_minted_Ok|repeat split; discriminate|reflexivity| |vm_compute; reflexivity|reflexivity].
    eexists _, _, _. split; [reflexivity|]. split; [reflexivity|]. split; [reflexivity|].
    split; [reflexivity|]. repeat constructor; discriminate.
  - reflexivity.
  - apply FileStore.repr_empty; reflexivity.
  - split; [reflexivity|reflexivity| | | |reflexivity|discriminate].
    + exists {| Client.MilliSat := Some 5000; Client.iPaymentHash := Sum256 ToyMint.preimage |}.
      split; [reflexivity|]. split; [unfold Client.within_budget; cbn; lia|]. exact toy_tok_Ok.
    + apply toy_storable; vm_compute; repeat split; discriminate.
    + apply toy_storable; vm_compute; repeat split; discriminate.
  - vm_compute. reflexivity.
  - vm_compute. reflexivity.
  - split. exists [], toy_s1, (Unix 1011), toy_update, [].
    split; [apply reach_init|]. split; [vm_compute; reflexivity|]. split; [vm_compute; reflexivity|].
    split; [vm_compute; reflexivity|]. split; [vm_compute; reflexivity|]. split; [apply reach_init|].
    split; [intros now i Hin; exfalso; by apply not_elem_of_nil in Hin|].
    intros n Hn rc pc inv E. destruct n as [|n]; [vm_compute in Hn; lia|].
    apply (inj Ok) in E. apply (f_equal snd) in E. vm_compute in E. discriminate E.
  - apply DBStore.calm_answering. intros n. vm_compute. reflexivity.
  - right. vm_compute. reflexivity.
  - vm_compute. reflexivity.
  - exact E.
Defined.
End PurchaseProperties.
