(* ===== verification/Fleet.v ===== *)
(** * Several servers over one store of secrets, and their restarts

    The database backend ([aperturedb]) lets several instances of [aperture.go]
    share their secrets, and what one instance knows besides them is lost when it
    ends: its cache of invoice states, which [LnproxyChallenger.Start] fills again
    from the invoices that lnd lists, and its freebie counters.  A fleet is the
    shared store and the instances; each step is a step of [System] at one of them,
    or a restart. *)
From S2P Require Import Prelude.
From S2P Require Import GoTime.
From S2P Require Import Caveat.
From S2P Require Import Sha256.
From S2P Require Import Macaroon.
From S2P Require Import Identifier.
From S2P Require Import Http.
From S2P Require Import Header.
From S2P Require Import Secrets.
From S2P Require Import Mint.
From S2P Require Import Freebie.
From S2P Require Import Service.
From S2P Require Import Auth.
From S2P Require Import Proxy.
From S2P Require Import Challenger.
From S2P Require Import System.
From S2P Require Import Purchase.

Module Fleet.
Import System Purchase.

Section Fleet.
Context `{L402Lib}.
Context {S C L : Type} `{!SecretStore S} `{!Challenger C} `{!ServiceLimiter L}.

(** What an instance is started with: its services as they are prepared, its local
    services, challenger and limiter, and its random bytes; the challenger and the
    randomness answer differently each time, also after a restart. *)
Record conf := {
  cServices : list Service.t;
  cLocals : list (request -> bool);
  cChallenger : nat -> C;
  cLimiter : L;
  cRand : nat -> outcome (list byte)
}.

(** What it keeps in memory. *)
Record node := {
  nServices : list Service.t;
  nCache : LnproxyChallenger.states;
  nDraws : nat
}.

Record fleet := { shared : S; nodes : list node }.

Definition view (st : S) (n : node) : sys S := {|
  sServices := nServices n; sSecrets := st; sCache := nCache n; sDraws := nDraws n |}.
Definition memory (s : sys S) : node := {|
  nServices := sServices s; nCache := sCache s; nDraws := sDraws s |}.
Definition put (i : nat) (s : sys S) (f : fleet) : fleet := {|
  shared := sSecrets s; nodes := <[i := memory s]> (nodes f) |}.

Context (e : Service.env) (confs : nat -> conf).

Definition serveAt (i : nat) := System.serve e (cLocals (confs i)) (cChallenger (confs i))
                                  (cLimiter (confs i)) (cRand (confs i)).

(** The instance [i] is stopped and started: [NewLnproxyChallenger] over the shared
    store, with an empty cache; [n] is what it had drawn of its randomness. *)
Definition restart (i : nat) (n : node) (listed : list (time * LnproxyChallenger.invoice))
    (subscribe : Z -> Z -> outcome unit) (f : fleet) : outcome fleet :=
  l ← LnproxyChallenger.NewLnproxyChallenger (shared f) (Ok listed) subscribe;
  Ok (put i {| sServices := cServices (confs i); sSecrets := LnproxyChallenger.secrets l;
               sCache := LnproxyChallenger.invoiceStates l; sDraws := nDraws n |} f).

Inductive event :=
  | At (i : nat) (ev : System.event)
  | Restarted (i : nat) (listed : list (time * LnproxyChallenger.invoice)).

Inductive reach (f0 : fleet) : list event -> fleet -> Prop :=
  | reach_init : reach f0 [] f0
  | reach_serve tr f i n now w r s' a :
      reach f0 tr f -> nodes f !! i = Some n ->
      serveAt i now w r (view (shared f) n) = (s', a) ->
      reach f0 (tr ++ [At i (Served now r a)]) (put i s' f)
  | reach_update tr f i n now u :
      reach f0 tr f -> nodes f !! i = Some n -> LnproxyChallenger.hashed u ->
      reach f0 (tr ++ [At i (Updated now u)]) (put i (update now u (view (shared f) n)) f)
  | reach_restart tr f i n listed subscribe f' :
      reach f0 tr f -> nodes f !! i = Some n ->
      Forall (fun x => LnproxyChallenger.hashed x.2) listed ->
      restart i n listed subscribe f = Ok f' ->
      reach f0 (tr ++ [Restarted i listed]) f'
  | reach_store tr f st :
      reach f0 tr f -> same_contents (shared f) st -> reach f0 tr {| shared := st; nodes := nodes f |}.

Lemma reach_trans f0 tr f tr' f' : reach f0 tr f -> reach f tr' f' -> reach f0 (tr ++ tr') f'.
Proof.
  intros Hr. induction 1 as [|tr' f1 i n now w r s' a Hr' IH Hi Hs|tr' f1 i n now u Hr' IH Hi Hu|tr' f1 i n listed sub f2 Hr' IH Hi Hl Hre|tr' f1 st Hr' IH Hst];
    [by rewrite app_nil_r|rewrite app_assoc..|].
  - by eapply reach_serve.
  - by apply reach_update.
  - by eapply reach_restart.
  - by apply reach_store.
Qed.

(** What the listing of a start makes of the state of a hash: the last relevant
    invoice counts, and an irrelevant one is passed over. *)
Definition listing (h : list byte) (o : option InvoiceState)
    (listed : list (time * LnproxyChallenger.invoice)) : option InvoiceState :=
  foldl (fun o x =>
    if decide (LnproxyChallenger.RHash x.2 = Some h /\
               LnproxyChallenger.invoiceIrrelevant x.1 (Some x.2) = false)
    then Some (LnproxyChallenger.State x.2) else o) o listed.

(** What the instance [j] knows of a hash after a history. *)
Definition learns (j : nat) (h : list byte) (o : option InvoiceState) (ev : event) :
    option InvoiceState :=
  match ev with
  | At i (Updated now u) => if decide (i = j) then LnproxyChallenger.effect h o (now, u) else o
  | At _ (Served _ _ _) => o
  | Restarted i listed => if decide (i = j) then listing h None listed else o
  end.
Definition known (j : nat) (h : list byte) (o : option InvoiceState) (tr : list event) :
    option InvoiceState := foldl (learns j h) o tr.

(** Somebody told the instance that the invoice was settled. *)
Definition told_settled (j : nat) (h : list byte) (tr : list event) : Prop :=
  exists now u, LnproxyChallenger.RHash u = Some h /\ LnproxyChallenger.State u = SETTLED /\
    (At j (Updated now u) ∈ tr \/ exists listed, Restarted j listed ∈ tr /\ (now, u) ∈ listed).

Context `{!L402Laws}.

(** *** The cache *)

Lemma cacheInvoices_spec listed m a s :
  Forall (fun x => LnproxyChallenger.hashed x.2) listed ->
  exists m' a' s', LnproxyChallenger.cacheInvoices listed (m, (a, s)) = (m', (a', s'), Ok tt) /\
    forall h, m' !! h = listing h (m !! h) listed.
Proof.
  intros Hl. revert m a s. induction Hl as [|[now i] listed Hi _ IH]; intros m a s; [by eauto 6|].
  cbn [LnproxyChallenger.cacheInvoices]. pose proof (LnproxyChallenger.cacheInvoice_spec now i m a s Hi) as Hc.
  destruct (LnproxyChallenger.cacheInvoice now i (m, (a, s))) as [[m1 [a1 s1]] r].
  destruct Hc as (-> & _ & _ & _ & Hm). destruct (IH m1 a1 s1) as (m' & a' & s' & E & Hm').
  exists m', a', s'. split; [done|]. intros h. rewrite Hm', Hm. done.
Qed.

Lemma restart_spec i n listed subscribe f f' :
  Forall (fun x => LnproxyChallenger.hashed x.2) listed ->
  restart i n listed subscribe f = Ok f' ->
  exists m, f' = put i {| sServices := cServices (confs i); sSecrets := shared f; sCache := m;
                          sDraws := nDraws n |} f /\
            forall h, m !! h = listing h None listed.
Proof.
  intros Hl (l & En & [= <-])%bind_Ok_inv. unfold LnproxyChallenger.NewLnproxyChallenger in En.
  cbn [LnproxyChallenger.Start LnproxyChallenger.invoiceStates LnproxyChallenger.secrets] in En.
  destruct (cacheInvoices_spec listed ∅ 0 0 Hl) as (m & a & s & E & Hm). rewrite E in En.
  apply bind_Ok_inv in En as (u & _ & [= <-]). exists m. split; [done|].
  intros h. by rewrite Hm, lookup_empty.
Qed.

Lemma serve_cache i now w r s s' a : serveAt i now w r s = (s', a) -> sCache s' = sCache s.
Proof. unfold serveAt, System.serve. destruct (Proxy.ServeHTTP _ _ _ _). by intros [= <- <-]. Qed.

Lemma update_cache now u s h :
  LnproxyChallenger.hashed u ->
  sCache (update now u s) !! h = LnproxyChallenger.effect h (sCache s !! h) (now, u).
Proof.
  intros Hu. unfold update. cbn [sCache].
  apply (LnproxyChallenger.onUpdate_states
    {| LnproxyChallenger.invoiceStates := sCache s; LnproxyChallenger.secrets := sSecrets s |} now u Hu).
Qed.

(** Every instance knows what it was told: nothing else changes its cache. *)
Lemma cache_is_known f0 tr f j n0 n h :
  reach f0 tr f -> nodes f0 !! j = Some n0 -> nodes f !! j = Some n ->
  nCache n !! h = known j h (nCache n0 !! h) tr.
Proof.
  intros Hr Hn0. revert n.
  induction Hr as [|tr f i m now w r s' a Hr IH Hi Hs|tr f i m now u Hr IH Hi Hu|tr f i m listed sub f' Hr IH Hi Hl Hre|tr f st Hr IH Hst];
    intros n Hn; [by rewrite Hn0 in Hn; injection Hn as <-|..|by apply IH];
    unfold known; rewrite foldl_snoc; fold (known j h (nCache n0 !! h) tr); cbn [learns].
  - cbn [nodes put] in Hn. apply list_lookup_insert_Some in Hn as [(<- & <- & _)|[_ Hn]]; [|by apply IH].
    cbn [nCache memory]. rewrite (serve_cache _ _ _ _ _ _ _ Hs). by apply IH.
  - cbn [nodes put] in Hn. apply list_lookup_insert_Some in Hn as [(<- & <- & _)|[Hne Hn]].
    + rewrite decide_True by done. cbn [nCache memory]. rewrite update_cache by done.
      cbn [sCache view]. by rewrite (IH _ Hi).
    + rewrite decide_False by done. by apply IH.
  - destruct (restart_spec i m listed sub f f' Hl Hre) as (c & -> & Hc).
    cbn [nodes put] in Hn. apply list_lookup_insert_Some in Hn as [(<- & <- & _)|[Hne Hn]].
    + rewrite decide_True by done. by apply Hc.
    + rewrite decide_False by done. by apply IH.
Qed.

Lemma listing_settled h o listed :
  listing h o listed = Some SETTLED ->
  o = Some SETTLED \/ exists now u, (now, u) ∈ listed /\ LnproxyChallenger.RHash u = Some h /\
                                  LnproxyChallenger.State u = SETTLED.
Proof.
  revert o. induction listed as [|[now u] l IH]; intros o; [by left|]. cbn [listing foldl].
  intros [Ho|(now' & u' & Hin & Hu')]%IH; [|right; exists now', u'; split; [by right|done]].
  cbn [fst snd] in Ho. case_decide as Hd; [|by left]. injection Ho as Ho. right. exists now, u.
  split; [by left|]. by destruct Hd.
Qed.

Lemma told_more j h tr ev : told_settled j h tr -> told_settled j h (tr ++ [ev]).
Proof.
  intros (now & u & Hh & Hs & [Hin|(l & Hin & Hl)]); exists now, u; split_and!; try done.
  - left. apply elem_of_app. by left.
  - right. exists l. split; [apply elem_of_app; by left|done].
Qed.

Lemma known_told j h o tr :
  o ≠ Some SETTLED -> known j h o tr = Some SETTLED -> told_settled j h tr.
Proof.
  intros Ho. induction tr as [|ev tr IH] using rev_ind; [done|]. unfold known. rewrite foldl_snoc.
  fold (known j h o tr). destruct ev as [i [now r a|now u]|i listed]; cbn [learns].
  - intros E. by apply told_more, IH.
  - case_decide as Hi; [|intros E; by apply told_more, IH]. unfold LnproxyChallenger.effect. cbn [fst snd].
    case_decide as Hh; [|intros E; by apply told_more, IH].
    destruct (LnproxyChallenger.invoiceIrrelevant _ _); [done|]. intros [= E]. exists now, u.
    split_and!; [done..|]. left. rewrite Hi. apply elem_of_app. right. by left.
  - case_decide as Hi; [|intros E; by apply told_more, IH].
    intros [?|(now & u & Hin & Hh & Hs)]%listing_settled; [done|]. exists now, u.
    split_and!; [done..|]. right. exists listed. rewrite Hi. split; [|done].
    apply elem_of_app. right. by left.
Qed.

(** *** The store *)
Context `{!SecretStoreLaws S}.

(** Nobody reports another date of settlement. *)
Definition dated (h : list byte) (date : time) (u : LnproxyChallenger.invoice) : Prop :=
  LnproxyChallenger.RHash u = Some h -> LnproxyChallenger.State u = SETTLED ->
  Unix (LnproxyChallenger.SettleDate u) = date.

(** No instance makes another invoice with this hash from now on. *)
Definition unrepeated (h : list byte) (f : fleet) : Prop :=
  forall i n k, nodes f !! i = Some n -> (nDraws n <= k)%nat -> Mint.never (cChallenger (confs i) k) h.

Lemma put_unrepeated h i n s f :
  nodes f !! i = Some n -> (nDraws n <= sDraws s)%nat -> unrepeated h f -> unrepeated h (put i s f).
Proof.
  intros Hi Hd Hu j m k Hj Hk. cbn [nodes put] in Hj.
  apply list_lookup_insert_Some in Hj as [(<- & <- & _)|[_ Hj]]; [|by eapply Hu].
  cbn [nDraws memory] in Hk. eapply Hu; [exact Hi|lia].
Qed.

(** What every step leaves: the secrets, the rows, and a recorded settlement in all
    the rows of a hash, under the condition [Q]. *)
Record keeps (Q : Prop) (h : list byte) (date : time) (st st' : S) : Prop := {
  keeps_secret j : is_Some (held st j) -> held st' j = held st j;
  keeps_row q : settlements st q ≠ [] -> settlements st' q ≠ [];
  keeps_date : Q -> settled_as st h (readBack (S := S) date) -> settled_as st' h (readBack (S := S) date)
}.

Lemma keeps_step (Q1 Q2 Q : Prop) h date a b c :
  (Q -> Q1 /\ Q2) -> keeps Q1 h date a b -> keeps Q2 h date b c -> keeps Q h date a c.
Proof.
  intros HQ [S1 R1 D1] [S2 R2 D2]. split; [intros j Hj|auto|].
  - rewrite S2, S1; auto. by rewrite S1.
  - intros []%HQ ?. auto.
Qed.

Lemma serve_calmly i now w r s s' a :
  serveAt i now w r s = (s', a) ->
  (sDraws s <= sDraws s')%nat /\
  forall h date, keeps (Mint.never (cChallenger (confs i) (sDraws s)) h) h date (sSecrets s) (sSecrets s').
Proof.
  intros E. destruct (serve_calm e (cLocals (confs i)) (cChallenger (confs i)) (cLimiter (confs i))
    (cRand (confs i)) now w r s) as [[[Hs Hrow Hq] _ Hd] _]. unfold serveAt in E. rewrite E in *.
  cbn [fst] in *. split; [done|]. intros h date. split; [exact Hs|exact Hrow|].
  intros Hn Hset. unfold settled_as. by rewrite (Hq h Hn).
Qed.

Lemma update_keeps h date now u s :
  LnproxyChallenger.hashed u -> keeps (dated h date u) h date (sSecrets s) (sSecrets (update now u s)).
Proof.
  intros Hu. destruct (update_other now u s Hu) as (_ & Hsec & Hq). cbn zeta in *.
  split; [auto|apply Hq|]. intros Hd Hg.
  destruct (decide (LnproxyChallenger.RHash u = Some h)) as [Hh|Hh].
  2: { unfold settled_as. by rewrite (proj1 (proj2 (Hq h) Hh)). }
  unfold update, LnproxyChallenger.onUpdate. cbn [sSecrets]. rewrite Hh.
  unfold LnproxyChallenger.hashed in Hu. rewrite Hh in Hu. rewrite MakeHash_spec by done.
  destruct (LnproxyChallenger.invoiceIrrelevant _ _); [done|]. cbn [fst LnproxyChallenger.secrets].
  case_decide as Hs; [|done]. rewrite (Hd Hh Hs).
  destruct (SetSettledAtByPaymentHash (sSecrets s) h (Some date)) as [st' r] eqn:E. cbn [fst].
  destruct (is_ok r) eqn:Er.
  - destruct r as [[]| |]; [|done..]. eapply settle_settles; [exact E|apply Hg].
  - unfold settled_as. by rewrite (proj2 (settle_fails _ _ _ _ _ E Er)).
Qed.

(** Over a history, [Q] is that nobody reports another date and that no later invoice
    has the same hash; the latter lasts. *)
Lemma reach_keeps h date f0 tr f :
  reach f0 tr f ->
  (unrepeated h f0 -> unrepeated h f) /\
  keeps (unrepeated h f0 /\ forall i now u, At i (Updated now u) ∈ tr -> dated h date u) h date
    (shared f0) (shared f).
Proof.
  assert (Hpre : forall tr ev, (forall i now u, At i (Updated now u) ∈ tr ++ [ev] -> dated h date u) ->
    forall i now u, At i (Updated now u) ∈ tr -> dated h date u)
    by (intros tr' ev Hd j t v Hin; eapply Hd, elem_of_app; by left).
  induction 1 as [|tr f i m now w r s' a Hr [IU IH] Hi Hs|tr f i m now u Hr [IU IH] Hi Hu
                  |tr f i m listed sub f' Hr [IU IH] Hi Hl Hre|tr f st Hr [IU IH] [Hh Hst]]; [by split|..].
  - destruct (serve_calmly i now w r (view (shared f) m) s' a Hs) as [Hd Hk]. cbn [sDraws view] in Hd.
    split; [intros Hun; by eapply put_unrepeated, IU|].
    eapply keeps_step; [|exact IH|by apply Hk]. intros [Hun Hp].
    split; [split; [done|by eapply Hpre]|]. by eapply IU.
  - split; [intros Hun; by eapply put_unrepeated, IU|].
    eapply keeps_step; [|exact IH|by eapply (update_keeps h date now u (view (shared f) m))].
    intros [Hun Hp]. split; [split; [done|by eapply Hpre]|].
    eapply Hp, elem_of_app. right. by left.
  - destruct (restart_spec i m listed sub f f' Hl Hre) as (c & -> & _). cbn [shared put sSecrets].
    split; [intros Hun; by eapply put_unrepeated, IU|].
    destruct IH as [IS IR ID]. split; [done..|]. intros [Hun Hd]. apply ID. split; [done|by eapply Hpre].
  - cbn [shared]. destruct IH as [IS IR ID]. split; [intros Hun; exact (IU Hun)|].
    split; [intros j Hj; rewrite Hh; auto|intros q Hq; rewrite Hst; auto|].
    intros HQ Hg. unfold settled_as. rewrite Hst. by apply ID.
Qed.
End Fleet.
Arguments conf : clear implicits.
Arguments fleet : clear implicits.
Arguments event : clear implicits.
End Fleet.

(** ** Properties *)
Module FleetProperties.
Import System Purchase Fleet.

(** C3: access over a whole fleet: after any history of requests, invoice updates
    and restarts of instances that started with empty caches, a request that needs
    authentication and has a price reaches a backend of an instance only with a
    macaroon whose secret is in the shared store, that verifies for the resource,
    with the preimage of its payment hash, after this very instance was told, by an
    update or by the list of a restart, that the invoice was settled, and not later
    than an hour after the settlement as the shared store reads it back. *)
Theorem fleet_serves_only_paid `{L402Lib} `{!L402Laws} {S C L : Type} `{!SecretStore S} `{!Challenger C}
    `{!ServiceLimiter L} e (confs : nat -> conf C L) (f0 f : fleet S) tr j n0 n now w r s' out i target level :
  nodes f0 !! j = Some n0 -> nCache n0 = ∅ ->
  reach e confs f0 tr f -> nodes f !! j = Some n ->
  serveAt e confs j now w r (view (shared f) n) = (s', Ok (Proxy.Forward out)) ->
  Proxy.matchService e r (nServices n) = Ok (Some (i, target)) ->
  Service.AuthRequired e target r = Ok level -> Level.IsOn level = true ->
  (forall recipient, ~ Proxy.priced target r recipient 0) ->
  exists mac preimage id secret raw at_,
    FromHeader (rHeader r) = Ok (mac, preimage) /\
    Identifier.DecodeIdentifier (mac_Id mac) = Ok id /\
    Preimage_Hash preimage = Identifier.PaymentHash id /\
    GetSecret (shared f) (Sum256 (mac_Id mac)) = Ok secret /\
    mac_VerifySignature mac secret = Ok raw /\
    Caveat.VerifyCaveats (Mint.decodable raw)
      (Mint.satisfiers (Service.ResourceName target (rPath r)) now) = Ok tt /\
    told_settled j (Identifier.PaymentHash id) tr /\
    GetSettledAtByPaymentHash (shared f) (Identifier.PaymentHash id) = Ok (Some at_) /\
    Before (Add at_ LsatAuth.L402RightExpiryDuration) now = false.
Proof.
  intros Hn0 Hc0 Hr Hn Hs Hm Hl Hon Hpr.
  pose proof (forwarded_was_accepted _ _ _ _ _ _ _ _ _ _ _ _ _ _ Hs Hm Hl Hon Hpr) as Hacc.
  apply accepted_shows in Hacc as (mac & pre & id & secret & raw & at_ & A1 & A2 & A3 & A4 & A5 & A6 & A7 & A8 & A9).
  cbn [sCache sSecrets view] in *.
  rewrite (cache_is_known e confs f0 tr f j n0 n _ Hr Hn0 Hn), Hc0, lookup_empty in A7.
  exists mac, pre, id, secret, raw, at_. repeat (split; [done|]). split; [|done].
  by eapply known_told; [|exact A7].
Qed.

(** C4: a paid token works at every instance and outlives restarts: minted at one
    instance, its settlement recorded by a second one, it is accepted by a third (or
    the same) that has heard of the settlement, be it from an update or from the list
    lnd gave it when it was restarted, whatever else the instances have done, as long
    as nobody reports another date of settlement, no later invoice has the same payment
    hash, the store answers, and the token's limits and the hour after the settlement,
    as the store reads it back, last.  (The name of the service is plain, without [:]
    and [,], and the limiter adds no services caveat of its own.) *)
Theorem paid_token_works_everywhere `{L402Lib} `{!L402Laws} {S C L : Type} `{!SecretStore S}
    `{!SecretStoreLaws S} `{!Challenger C} `{!ChallengerLaws C} `{!ServiceLimiter L}
    e (confs : nat -> conf C L) i d j k (f1 f2 f4 : fleet S) tr1 tr2 now u n0 nk nj st rnd svc mac inv
    limits p pm hd now2 :
  let h := Preimage_Hash p in
  let date := Unix (LnproxyChallenger.SettleDate u) in
  let tr := tr1 ++ At k (Updated now u) :: tr2 in
  (* minted at [i], and later the settlement is reported to [k] *)
  minted (cLimiter (confs i)) (cChallenger (confs i) d) st (shared f1) rnd svc mac inv limits p ->
  reach e confs f1 tr1 f2 -> nodes f2 !! k = Some nk ->
  LnproxyChallenger.RHash u = Some h -> LnproxyChallenger.State u = SETTLED ->
  is_ok (SetSettledAtByPaymentHash (shared f2) h (Some date)).2 = true ->
  (* then anything that does not change the date *)
  reach e confs (put k (update now u (view (shared f2) nk)) f2) tr2 f4 ->
  (forall i now v, At i (Updated now v) ∈ tr2 -> dated h date v) -> unrepeated confs h f2 ->
  (* the instance [j] knows, and the token is presented to it in time *)
  nodes f1 !! j = Some n0 -> nodes f4 !! j = Some nj ->
  known j h (nCache n0 !! h) tr = Some SETTLED -> answering (shared f4) ->
  AddFirstPartyCaveats mac [Caveat.NewCaveat Caveat.PreimageKey (Preimage_String p)] = Ok pm ->
  FromHeader hd = Ok (pm, p) ->
  Mint.in_time (LsatService.Name svc) now2 limits ->
  Before (Add (readBack (S := S) date) LsatAuth.L402RightExpiryDuration) now2 = false ->
  Accept (auth_of (cChallenger (confs j)) (cLimiter (confs j)) (cRand (confs j)) now2 (view (shared f4) nj))
    hd (LsatService.Name svc) = true.
Proof.
  intros h date tr Hmint Hr1 Hk Hu Hs Hok Hr2 Hdate Hfresh Hn0 Hnj Hknown Hans Hpm Hfh Htime Hexp.
  destruct (minted_row _ _ _ _ _ _ _ _ _ _ Hmint) as (Hh & _ & Hrow).
  destruct (reach_keeps e confs h date f1 tr1 f2 Hr1) as [_ [K1s K1r _]].
  destruct (reach_keeps e confs h date _ tr2 f4 Hr2) as [_ [K2s _ K2d]].
  assert (Hhash : LnproxyChallenger.hashed u) by (unfold LnproxyChallenger.hashed; by rewrite Hu).
  destruct (update_other now u (view (shared f2) nk) Hhash) as (_ & Ksec & _). cbn zeta in Ksec.
  assert (Hset : settled_as (sSecrets (update now u (view (shared f2) nk))) h (readBack (S := S) date)).
  { apply (LnproxyChallenger.onUpdate_settles
      {| LnproxyChallenger.invoiceStates := nCache nk; LnproxyChallenger.secrets := shared f2 |} now u h);
      [done..|by apply K1r|done]. }
  eapply accepted_if; [exact Hmint| |apply K2d; [|exact Hset]| |exact Hans|exact Hpm|exact Hfh|done|exact Hexp].
  - intros x Hx. cbn [sSecrets view shared put] in *. rewrite K2s; rewrite Ksec, K1s; auto.
  - split; [by eapply put_unrepeated|exact Hdate].
  - cbn [sCache view]. rewrite <- Hknown. eapply (cache_is_known e confs f1); [|exact Hn0|exact Hnj].
    unfold tr. rewrite cons_middle, app_assoc. eapply reach_trans; [|exact Hr2]. by apply reach_update.
Qed.

(** *** Witnesses: a token minted at the first of two servers, settled at the second,
    and presented to the first after a restart *)
#[local] Existing Instance ToyLib.lib.
#[local] Existing Instance ToyLib.laws.

Definition toy_conf : conf (list byte) unit := {|
  cServices := [ProxyProperties.paid_service]; cLocals := PurchaseProperties.toy_locals;
  cChallenger := PurchaseProperties.toy_chal; cLimiter := tt; cRand := PurchaseProperties.toy_rand |}.
Definition toy_node : node := {|
  nServices := [ProxyProperties.paid_service]; nCache := ∅; nDraws := 1 |}.
Definition toy_f1 : fleet DBStore.store := {|
  shared := PurchaseProperties.toy_minted.1; nodes := [toy_node; toy_node] |}.
Definition toy_f2 : fleet DBStore.store :=
  put 1 (update (Unix 1011) PurchaseProperties.toy_update (view (shared toy_f1) toy_node)) toy_f1.
Definition toy_listed : list (time * LnproxyChallenger.invoice) :=
  [(Unix 1020, PurchaseProperties.toy_update)].
Definition toy_f4 : fleet DBStore.store :=
  ok_or toy_f2 (restart (fun _ => toy_conf) 0 toy_node toy_listed (fun _ _ => Ok tt) toy_f2).
Definition toy_header : header :=
  ok_or ∅ (SetHeader ∅ PurchaseProperties.toy_paid ToyMint.preimage).
Definition toy_n4 : node := default toy_node (nodes toy_f4 !! 0%nat).
Definition toy_tail : list (event) := [Restarted 0 toy_listed].

Lemma toy_update_hashed : LnproxyChallenger.hashed PurchaseProperties.toy_update.
Proof. vm_compute. reflexivity. Qed.

Lemma restarted_reach {S C L} `{!SecretStore S} `{!Challenger C} `{!ServiceLimiter L} e
    (confs : nat -> conf C L) i n listed sub (f d : fleet S) :
  nodes f !! i = Some n -> Forall (fun x => LnproxyChallenger.hashed x.2) listed ->
  is_ok (restart confs i n listed sub f) = true ->
  reach e confs f [Restarted i listed] (ok_or d (restart confs i n listed sub f)).
Proof.
  intros Hn Hl Ho. destruct (restart confs i n listed sub f) as [f'| |] eqn:E; [|done..].
  by eapply (reach_restart e confs f []); [apply reach_init|..].
Qed.

Lemma toy_n2 : nodes toy_f2 !! 0%nat = Some toy_node.
Proof. unfold toy_f2. cbn [nodes put toy_f1]. by rewrite list_lookup_insert_ne. Qed.

Lemma toy_tail_reach : reach ProxyProperties.toy_env (fun _ => toy_conf) toy_f2 toy_tail toy_f4.
Proof.
  apply restarted_reach.
  - exact toy_n2.
  - constructor; [apply toy_update_hashed|constructor].
  - vm_compute. reflexivity.
Qed.

Lemma toy_n4_node : nodes toy_f4 !! 0%nat = Some toy_n4.
Proof.
  assert (E : is_ok (of_option (Errorf "none") (nodes toy_f4 !! 0%nat)) = true) by (vm_compute; reflexivity).
  unfold toy_n4. by destruct (nodes toy_f4 !! 0%nat).
Qed.

Lemma toy_unrepeated :
  unrepeated (fun _ => toy_conf) (Preimage_Hash ToyMint.preimage) toy_f1.
Proof.
  intros i n k Hn Hk rc pc inv E.
  assert (Hd : nDraws n = 1%nat) by (destruct i as [|[|i]]; by inversion Hn).
  destruct k as [|k]; [lia|].
  apply (inj Ok) in E. apply (f_equal snd) in E. vm_compute in E. discriminate E.
Qed.

Lemma paid_token_works_everywhere_witness :
  Accept (auth_of PurchaseProperties.toy_chal tt PurchaseProperties.toy_rand (Unix 1050) (view (shared toy_f4) toy_n4))
    toy_header "loop" = true.
Proof.
  apply (paid_token_works_everywhere (SecretStoreLaws0 := DBStore.db_store_laws) (ServiceLimiter0 := ToyMint.toy_limiter)
    ProxyProperties.toy_env (fun _ => toy_conf) 0 0 0 1 toy_f1 toy_f1 toy_f4 [] toy_tail (Unix 1011)
    PurchaseProperties.toy_update toy_node toy_node toy_n4 ToyMint.store ToyMint.rand
    PurchaseProperties.toy_sale PurchaseProperties.toy_mac "lnbc1"
    [LsatService.NewCapabilitiesCaveat "loop" "all"; LsatService.NewTimeoutCaveat "loop" 100 (Unix 1000)]
    ToyMint.preimage PurchaseProperties.toy_paid toy_header (Unix 1050)).
  - split; [exact PurchaseProperties.toy_minted_Ok|repeat split; discriminate|reflexivity| |vm_compute; reflexivity|reflexivity].
    eexists _, _, _. split; [reflexivity|]. split; [reflexivity|]. split; [reflexivity|].
    split; [reflexivity|]. repeat constructor; discriminate.
  - apply reach_init.
  - reflexivity.
  - vm_compute. reflexivity.
  - reflexivity.
  - vm_compute. reflexivity.
  - exact toy_tail_reach.
  - intros i now v Hin. exfalso. apply list_elem_of_singleton in Hin. discriminate Hin.
  - exact toy_unrepeated.
  - reflexivity.
  - exact toy_n4_node.
  - vm_compute. reflexivity.
  - apply DBStore.calm_answering. intros n. vm_compute. reflexivity.
  - vm_compute. reflexivity.
  - vm_compute. reflexivity.
  - right. vm_compute. reflexivity.
  - vm_compute. reflexivity.
Defined.

Definition toy_paid_call : request := with_header ProxyProperties.toy_request toy_header.
Definition toy_served := serveAt ProxyProperties.toy_env (fun _ => toy_conf) 0 (Unix 1050) ∅ toy_paid_call
  (view (shared toy_f4) toy_n4).

Lemma fleet_serves_only_paid_witness : exists h, told_settled 0 h toy_tail.
Proof.
  destruct (fleet_serves_only_paid ProxyProperties.toy_env (fun _ => toy_conf) toy_f2 toy_f4 toy_tail 0
    toy_node toy_n4 (Unix 1050) ∅ toy_paid_call toy_served.1
    match toy_served.2 with Ok (Proxy.Forward out) => out | _ => toy_paid_call end
    0 ProxyProperties.paid_service "on") as (mac & p & id & secret & raw & at_ & _ & _ & _ & _ & _ & _ & Ht & _).
  - reflexivity.
  - reflexivity.
  - exact toy_tail_reach.
  - exact toy_n4_node.
  - vm_compute. reflexivity.
  - vm_compute. reflexivity.
  - vm_compute. reflexivity.
  - reflexivity.
  - intros recipient (pr & r' & Hpr & Hp). vm_compute in Hpr. injection Hpr as <-. discriminate Hp.
  - exists (Identifier.PaymentHash id). exact Ht.
Defined.
End FleetProperties.
