(* ===== verification/Waiting.v ===== *)
(** * Waiting for an invoice: the goroutines of [VerifyInvoiceStatus]

    [Challenger] has [VerifyInvoiceStatus] as a function of the caches that its
    waiting goroutine sees.  This file has the call as it runs
    ([challenger/lnproxy.go]): a goroutine that looks at the cache under the lock
    and sleeps on the condition, one that flags the timeout, and around them the
    invoice stream, the clock and the shutdown.  Each step is what one goroutine
    does while it holds the lock, or between two uses of it. *)
From stdpp Require Import relations.
From S2P Require Import Prelude.
From S2P Require Import Steps.
From S2P Require Import Macaroon.
From S2P Require Import Secrets.
From S2P Require Import Mint.
From S2P Require Import Auth.
From S2P Require Import Challenger.
Import LnproxyChallenger.

Module Waiting.

(** The first goroutine: in its [select], past it and on its way to the lock, or
    over.  The second one: on its way to the lock, asleep in [Wait], out of the
    loop with what it read, or over, with [doneChan] closed. *)
Inductive timer := Armed | Fired | Flagged.
Inductive waiter := Locking | Asleep | Found (o : option InvoiceState) | Closed (o : option InvoiceState).

(** [seen] are the caches the second goroutine has looked at, the last one
    first; the program does not keep them. *)
Record t := {
  cache : states;
  elapsed : bool;
  quit : bool;
  timeoutReached : bool;
  tick : timer;
  look : waiter;
  seen : list states
}.

Definition start (c : states) (q : bool) : t := {|
  cache := c; elapsed := false; quit := q; timeoutReached := false;
  tick := Armed; look := Locking; seen := []
|}.

(** [Broadcast]. *)
Definition wake (w : waiter) : waiter := match w with Asleep => Locking | _ => w end.

Definition doneChan (w : waiter) : bool := match w with Closed _ => true | _ => false end.

Inductive action :=
  | Updated (m : states)     (* the invoice stream: another cache, and a broadcast *)
  | Elapses                  (* [time.After] *)
  | Quits                    (* [close(l.quit)] *)
  | Fires | Flags            (* the first goroutine *)
  | Looks | Closes.          (* the second goroutine *)

(** The steps of the two goroutines of the call. *)
Definition own (a : action) : bool :=
  match a with Fires | Flags | Looks | Closes => true | _ => false end.

Section Check.
Context (hash : list byte) (state : InvoiceState).

Definition step (a : action) (s : t) : option t :=
  match a, tick s, look s with
  | Updated m, _, _ =>
      Some {| cache := m; elapsed := elapsed s; quit := quit s;
              timeoutReached := timeoutReached s; tick := tick s;
              look := wake (look s); seen := seen s |}
  | Elapses, _, _ =>
      Some {| cache := cache s; elapsed := true; quit := quit s;
              timeoutReached := timeoutReached s; tick := tick s; look := look s;
              seen := seen s |}
  | Quits, _, _ =>
      Some {| cache := cache s; elapsed := elapsed s; quit := true;
              timeoutReached := timeoutReached s; tick := tick s; look := look s;
              seen := seen s |}
  | Fires, Armed, _ =>
      if doneChan (look s) || elapsed s || quit s then
        Some {| cache := cache s; elapsed := elapsed s; quit := quit s;
                timeoutReached := timeoutReached s; tick := Fired; look := look s;
                seen := seen s |}
      else None
  | Flags, Fired, _ =>
      Some {| cache := cache s; elapsed := elapsed s; quit := quit s;
              timeoutReached := true; tick := Flagged; look := wake (look s);
              seen := seen s |}
  | Looks, _, Locking =>
      Some {| cache := cache s; elapsed := elapsed s; quit := quit s;
              timeoutReached := timeoutReached s; tick := tick s;
              look := if bool_decide (cache s !! hash = Some state) || timeoutReached s
                      then Found (cache s !! hash) else Asleep;
              seen := cache s :: seen s |}
  | Closes, _, Found o =>
      Some {| cache := cache s; elapsed := elapsed s; quit := quit s;
              timeoutReached := timeoutReached s; tick := tick s; look := Closed o;
              seen := seen s |}
  | _, _, _ => None
  end.

(** [condWg.Wait] and the [switch] after it. *)
Definition returned (s : t) : option (outcome unit) :=
  match tick s, look s with
  | Flagged, Closed o =>
      Some (match o with
            | None => Err (Errorf "no active or settled invoice found for hash")
            | Some invoiceState =>
                if decide (invoiceState ≠ state)
                then Err (Errorf "invoice status not correct before timeout") else Ok tt
            end)
  | _, _ => None
  end.

(** A step of one of the two goroutines. *)
Definition goes (s s' : t) : Prop := exists a, own a = true /\ step a s = Some s'.

(** *** What holds at all times

    The second goroutine does not sleep once the timeout is flagged, nor while the
    cache has what it waits for: no broadcast is lost. *)
Record ok (s : t) : Prop := {
  flagged : timeoutReached s = true <-> tick s = Flagged;
  asleep : look s = Asleep -> timeoutReached s = false /\ cache s !! hash ≠ Some state;
  fired : tick s ≠ Armed -> doneChan (look s) || elapsed s || quit s = true;
  saw : match look s with
        | Found o | Closed o =>
            exists m earlier, seen s = m :: earlier /\ m !! hash = o /\
              Forall (fun m' : states => m' !! hash ≠ Some state) earlier /\
              (o = Some state \/ elapsed s || quit s = true)
        | _ => Forall (fun m' : states => m' !! hash ≠ Some state) (seen s)
        end
}.

Lemma wait_ok_start c q : ok (start c q).
Proof. split; cbn; [split|..]; done. Qed.

Lemma wait_ok_step a s s' : ok s -> step a s = Some s' -> ok s'.
Proof.
  intros [Hf Ha Hq Hs] Hstep. destruct s as [c e q r k w l]. cbn in Hf, Ha, Hq, Hs.
  destruct a; cbn in Hstep.
  - injection Hstep as <-. split; cbn; [done|by destruct w|by destruct w|by destruct w].
  - injection Hstep as <-. split; cbn; [done..|by rewrite orb_true_r|].
    destruct w; [done..| |]; naive_solver.
  - injection Hstep as <-. split; cbn; [done..|by rewrite orb_true_r|].
    destruct w; [done..| |]; rewrite orb_true_r; naive_solver.
  - destruct k; [|done..]. destruct (doneChan w || e || q) eqn:E; [|done].
    injection Hstep as <-. split; cbn; [by rewrite Hf|done..].
  - destruct k; [done| |done]. injection Hstep as <-.
    split; cbn; [done|by destruct w|intros _; destruct w; by apply Hq|by destruct w].
  - destruct w; [|done..]. injection Hstep as <-.
    destruct (bool_decide (c !! hash = Some state) || r) eqn:E.
    + split; cbn; [done..|]. exists c, l. split_and!; [done..|].
      apply orb_true_iff in E as [E%bool_decide_eq_true|E]; [by left|right].
      apply Hq. by rewrite (proj1 Hf E).
    + apply orb_false_iff in E as [E%bool_decide_eq_false ->].
      split; cbn; [done..|by constructor].
  - destruct w; [done..| |done]. injection Hstep as <-. split; cbn; done.
Qed.

Lemma wait_exec_ok l c q s : exec step l (start c q) = Some s -> ok s.
Proof. apply (exec_inv step ok); [apply wait_ok_step|apply wait_ok_start]. Qed.

(** *** What it saw is what there was, in order *)

(** The caches there have been, the last one first, after the steps [l]. *)
Fixpoint history (h : list states) (l : list action) : list states :=
  match l with
  | [] => h
  | Updated m :: l => history (m :: h) l
  | _ :: l => history h l
  end.

(** Looks at a thing that changes: each look shows what is there at the time. *)
Inductive glimpses : list states -> list states -> Prop :=
  | glimpses_none h : glimpses [] h
  | glimpses_look m ms h : glimpses ms (m :: h) -> glimpses (m :: ms) (m :: h)
  | glimpses_past m ms h : glimpses ms h -> glimpses ms (m :: h).

Lemma step_sees a s s' :
  step a s = Some s' ->
  match a with
  | Updated m => cache s' = m /\ seen s' = seen s
  | Looks => cache s' = cache s /\ seen s' = cache s :: seen s
  | _ => cache s' = cache s /\ seen s' = seen s
  end.
Proof.
  destruct s as [c e q r k w sn].
  destruct a; cbn; repeat case_match; intros E; by simplify_eq.
Qed.

Lemma run_glimpses l s s' h :
  head h = Some (cache s) -> glimpses (seen s) h -> exec step l s = Some s' ->
  glimpses (seen s') (history h l).
Proof.
  revert s h. induction l as [|a l IH]; intros s h Hh Hg; cbn [exec]; [by intros [= <-]|].
  destruct (step a s) as [s1|] eqn:E; [|done]. cbn [mbind option_bind]. apply step_sees in E.
  destruct h as [|c h]; [done|]. injection Hh as ->.
  destruct a; destruct E as [Hc Hs]; cbn [history]; apply IH; rewrite ?Hc, ?Hs; try done;
    by constructor.
Qed.

Lemma waitStatus_last m l :
  Forall (fun m' : states => m' !! hash ≠ Some state) l ->
  match reverse l ++ [m] with
  | cur :: later => waitStatus hash state cur later = m !! hash
  | [] => False
  end.
Proof.
  rewrite <- Forall_reverse. induction 1 as [|m' l' Hm Hl IH]; cbn [app].
  - cbn. by case_decide.
  - destruct (l' ++ [m]) as [|cur later] eqn:E; [done|]. cbn [waitStatus].
    by rewrite decide_False.
Qed.

(** *** It comes back *)

Definition measure (s : t) : nat :=
  match tick s with Armed => 3 | Fired => 2 | Flagged => 0 end +
  match look s with Locking => 3 | Asleep => 2 | Found _ => 1 | Closed _ => 0 end.

Lemma goes_measure s s' : goes s s' -> (measure s' < measure s)%nat.
Proof.
  intros (a & Ha & Hs). destruct s as [c e q r k w l].
  destruct a, k, w; cbn in *; try done; repeat case_match; simplify_eq; cbn; lia.
Qed.

Lemma goes_sn s : sn goes s.
Proof. apply (measure_sn _ measure), goes_measure. Qed.

Lemma goes_ok s s' : ok s -> goes s s' -> ok s'.
Proof. intros Hs (a & _ & ?). by eapply wait_ok_step. Qed.

(** What lets the call return. *)
Definition due (s : t) : Prop :=
  cache s !! hash = Some state \/ elapsed s = true \/ quit s = true.

Lemma goes_due s s' : due s -> goes s s' -> due s' /\ cache s' = cache s.
Proof.
  intros Hd (a & Ha & Hs). destruct s as [c e q r k w l].
  destruct a; cbn in *; try done; repeat case_match; by simplify_eq.
Qed.

Lemma wait_progress s : ok s -> due s -> returned s = None -> red goes s.
Proof.
  intros [Hf Ha Hq Hs] Hd Hr. destruct s as [c e q r k w l]. cbn in *.
  destruct w as [| |o|o].
  - eexists. exists Looks. by destruct k.
  - destruct (Ha eq_refl) as [-> Hc]. destruct k.
    + assert (Hb : e || q = true) by (destruct Hd as [|[H| H]]; cbn in *; [done| |]; rewrite H; by rewrite ?orb_true_r).
      eexists. exists Fires. split; [done|]. cbn. by rewrite Hb.
    + eexists. by exists Flags.
    + by destruct Hf as [_ Hf]; specialize (Hf eq_refl).
  - eexists. exists Closes. by destruct k.
  - destruct k; [|eexists; by exists Flags|done]. eexists. by exists Fires.
Qed.

(** Not decided against yet. *)
Definition open (w : waiter) : Prop :=
  match w with Locking | Asleep => True | Found o | Closed o => o = Some state end.

Lemma goes_open s s' : cache s !! hash = Some state -> open (look s) -> goes s s' -> open (look s').
Proof.
  intros Hc Ho (a & Ha & Hs). destruct s as [c e q r k w l].
  destruct a, w; cbn in *; try done; repeat case_match; by simplify_eq.
Qed.

Lemma rtc_goes s s' :
  ok s -> due s -> rtc goes s s' ->
  ok s' /\ due s' /\ (cache s !! hash = Some state -> open (look s) -> open (look s')).
Proof.
  intros Hs Hd Hr. induction Hr as [s|s s1 s' H1 Hr IH]; [done|].
  destruct (goes_due _ _ Hd H1) as [Hd1 Hc1].
  destruct (IH (goes_ok _ _ Hs H1) Hd1) as (? & ? & Ho). split_and!; [done..|].
  rewrite Hc1 in Ho. intros Hc Hop. apply Ho; [done|]. by eapply goes_open.
Qed.

End Check.
End Waiting.

(** ** Properties *)
Module WaitingProperties.
Import Waiting.

(** C13: however the goroutines of [VerifyInvoiceStatus], the invoice stream, the
    clock and the shutdown are interleaved, an answer of the call is the one that
    the function of [Challenger] gives for some looks at the cache, each of which
    shows what the cache is at that time, in that order; and it is an error only
    after the timeout or the shutdown. *)
Theorem concurrent_check_refines `{L402Lib} {S : Type} `{!SecretStore S}
    (l : LnproxyChallenger.t S) hash state q acts s r :
  exec (step hash state) acts (start (invoiceStates l) q) = Some s -> returned state s = Some r ->
  exists cur later,
    glimpses (reverse (cur :: later)) (history [invoiceStates l] acts) /\
    r = VerifyInvoiceStatus {| invoiceStates := cur; secrets := secrets l |} later hash state /\
    (r = Ok tt \/ elapsed s || quit s = true).
Proof.
  intros Hrun Hret. pose proof (wait_exec_ok _ _ _ _ _ _ Hrun) as [_ _ _ Hs].
  assert (Hg : glimpses (seen s) (history [invoiceStates l] acts)).
  { eapply run_glimpses; [..|exact Hrun]; [done|constructor]. }
  unfold returned in Hret. destruct (tick s); [done..|]. destruct (look s) as [| | |o]; [done..|].
  destruct Hs as (m & earlier & Hm & <- & Hf & Hr). pose proof (waitStatus_last hash state m earlier Hf) as Hw.
  destruct (reverse earlier ++ [m]) as [|cur later] eqn:E; [done|].
  exists cur, later. rewrite <- E, reverse_app, reverse_involutive. cbn [reverse].
  change (reverse [m]) with [m]. cbn [app]. rewrite <- Hm. split; [done|].
  unfold VerifyInvoiceStatus. cbn [invoiceStates]. rewrite Hw. split; [by injection Hret as <-|].
  destruct Hr as [Hr|Hr]; [left|by right]. injection Hret as <-. rewrite Hr.
  by rewrite decide_False by naive_solver.
Qed.

(** C12: [VerifyInvoiceStatus] always comes back: once its time is up, the challenger
    is stopped or the cache shows the state it waits for, its goroutines take
    finitely many more steps however they are scheduled, and when they take no
    more they have answered, with success when the cache shows the state and the
    call had not given up before. *)
Theorem status_check_returns hash state c q acts s :
  exec (step hash state) acts (start c q) = Some s -> due hash state s ->
  sn (goes hash state) s /\
  forall s', rtc (goes hash state) s s' -> nf (goes hash state) s' ->
    exists r, returned state s' = Some r /\
      (cache s !! hash = Some state -> open state (look s) -> r = Ok tt).
Proof.
  intros Hrun Hd. pose proof (wait_exec_ok _ _ _ _ _ _ Hrun) as Hs.
  split; [apply goes_sn|]. intros s' Hr Hnf.
  destruct (rtc_goes _ _ _ _ Hs Hd Hr) as (Hs' & Hd' & Ho).
  destruct (returned state s') as [r|] eqn:E.
  - exists r. split; [done|]. intros Hc Hop. specialize (Ho Hc Hop). unfold returned in E.
    destruct (tick s'); [done..|]. destruct (look s') as [| | |o]; [done..|].
    cbn in Ho. subst o. rewrite decide_False in E by naive_solver. by injection E as <-.
  - by destruct Hnf; apply wait_progress.
Qed.

Section Toy.
#[local] Existing Instance ToyLib.lib.

Definition toy_hash : list byte := [Byte.x01].
Definition settled : states := {[ toy_hash := SETTLED ]}.

(** The invoice is settled while the call sleeps. *)
Definition toy_actions : list action :=
  [Looks; Updated settled; Looks; Closes; Fires; Flags].

Definition toy_end : t := {|
  cache := settled; elapsed := false; quit := false; timeoutReached := true;
  tick := Flagged; look := Closed (Some SETTLED); seen := [settled; ∅]
|}.

Lemma concurrent_check_refines_witness :
  exists cur later,
    glimpses (reverse (cur :: later)) [settled; ∅] /\
    Ok tt = VerifyInvoiceStatus {| invoiceStates := cur; secrets := ToyMint.store' |} later
              toy_hash SETTLED.
Proof.
  destruct (concurrent_check_refines {| invoiceStates := ∅; secrets := ToyMint.store' |}
    toy_hash SETTLED false toy_actions toy_end (Ok tt)) as (cur & later & Hg & Hr & _).
  - reflexivity.
  - reflexivity.
  - exists cur, later. split; [exact Hg|exact Hr].
Defined.
End Toy.

(** The time is up while the call sleeps: its goroutines end. *)
Definition toy_late : t := {|
  cache := ∅; elapsed := true; quit := false; timeoutReached := false;
  tick := Armed; look := Asleep; seen := [∅]
|}.

Lemma status_check_returns_witness : sn (goes toy_hash SETTLED) toy_late.
Proof.
  refine (proj1 (status_check_returns toy_hash SETTLED ∅ false [Looks; Elapses] toy_late _ _)).
  - reflexivity.
  - right. by left.
Defined.

End WaitingProperties.
