(* ===== verification/Daemon.v ===== *)
(** * The goroutines of the server

    [Programs.Run.run] is the main goroutine of [aperture.go] as a sequence of
    things that are started and stopped.  This file has it run beside the others:
    the goroutines that serve HTTPS and, for Tor, HTTP, and the one that reads the
    invoice stream ([challenger/lnproxy.go]).  They share the error channel, which
    has no buffer, the closed servers, and the two channels that are closed at the
    shutdown.  Of the requests in progress only the status checks are here, the calls
    of [VerifyInvoiceStatus], because the challenger waits for them when it is
    stopped; what happens inside of one is in [Waiting].  A server that is closed
    does not wait for its requests. *)
From stdpp Require Import relations.
From S2P Require Import Prelude.
From S2P Require Import Steps.
From S2P Require Import Aperture.
From S2P Require Import Programs.
Import Lifecycle.

Module Daemon.
#[local] Existing Instance Run.event_eq_dec.

(** The main goroutine: in [Start] with the steps that are left, in the [select]
    of [run], in [Stop] with the steps that are left, waiting there for the
    wait group of the challenger or for the goroutines of the servers, or back. *)
Inductive pc :=
  | Starting (l : list event)
  | Selecting
  | Stopping (l : list event)
  | Joining (l : list event)
  | Waiting
  | Exited.

#[export] Instance pc_eq_dec : EqDecision pc.
Proof. solve_decision. Defined.

(** A goroutine that serves: in [serveFn], with its error at the [select], over. *)
Inductive serving := Listening | Offering | Ended.

(** The goroutine of the invoice stream: at the top of its loop, in [Recv], with an
    error at the second [select], over. *)
Inductive reading := Checking | Receiving | Signalling | Gone.

(** A status check: waiting for its status, or with the status, its timeout or the
    quit signal. *)
Inductive check := Blocked | Released.

(** [did] is what the main goroutine has started and stopped; the program does not
    keep it. *)
Record t := {
  main : pc;
  did : list event;
  reader : option reading;
  https : option serving;
  tor : option serving;
  checks : list check
}.

(** The channels that are closed, the servers that are. *)
Definition challengerQuit (s : t) : bool := bool_decide (EStopChallenger ∈ did s).
Definition httpsClosed (s : t) : bool := bool_decide (ECloseServer ∈ did s).
Definition torClosed (s : t) : bool := bool_decide (ECloseTor ∈ did s).
Definition quit (s : t) : bool :=
  match main s with Waiting | Exited => true | _ => false end.

(** What a message of the stream, or its end, makes of the loop. *)
Inductive message := Update | Unusable | Failure | Canceled.

Inductive action :=
  | Main                    (* the main goroutine goes on *)
  | Interrupted             (* the signal *)
  | Fails (onTor : bool)    (* a server ends by itself *)
  | Serves (onTor : bool)   (* a goroutine that serves goes on *)
  | Loops                   (* the goroutine of the stream goes on *)
  | Receives (m : message)
  | Asks                    (* a request calls [VerifyInvoiceStatus] *)
  | Answered (i : nat)      (* the status is there, or the time is up *)
  | Quits (i : nat)         (* a call sees the quit signal *)
  | Returns (i : nat).      (* a call is over *)

Definition serverOf (onTor : bool) (s : t) : option serving := if onTor then tor s else https s.
Definition closedOf (onTor : bool) (s : t) : bool := if onTor then torClosed s else httpsClosed s.

Definition set_main (p : pc) (s : t) : t := {|
  main := p; did := did s; reader := reader s; https := https s; tor := tor s;
  checks := checks s |}.
Definition set_reader (r : reading) (s : t) : t := {|
  main := main s; did := did s; reader := Some r; https := https s; tor := tor s;
  checks := checks s |}.
Definition set_checks (cs : list check) (s : t) : t := {|
  main := main s; did := did s; reader := reader s; https := https s; tor := tor s;
  checks := cs |}.
Definition set_server (onTor : bool) (v : serving) (s : t) : t := {|
  main := main s; did := did s; reader := reader s;
  https := if onTor then https s else Some v; tor := if onTor then Some v else tor s;
  checks := checks s |}.

(** A step of [Start] or [Stop]: some start a goroutine. *)
Definition does (ev : event) (p : pc) (s : t) : t := {|
  main := p; did := did s ++ [ev];
  reader := match ev with EChallenger => Some Checking | _ => reader s end;
  https := match ev with EListen => Some Listening | _ => https s end;
  tor := match ev with ETorListen => Some Listening | _ => tor s end;
  checks := checks s
|}.

Definition over (o : option serving) : bool :=
  match o with None | Some Ended => true | _ => false end.

Section Stops.
Context (stops : list event).

Definition mainStep (s : t) : option t :=
  match main s with
  | Starting (ev :: l) => Some (does ev (Starting l) s)
  | Starting [] => Some (set_main Selecting s)
  | Selecting => None
  | Stopping (ev :: l) =>
      Some (does ev (match ev with EStopChallenger => Joining l | _ => Stopping l end) s)
  | Stopping [] => Some (set_main Waiting s)
  | Joining l =>
      match reader s, checks s with
      | None, [] | Some Gone, [] => Some (set_main (Stopping l) s)
      | _, _ => None
      end
  | Waiting => if over (https s) && over (tor s) then Some (set_main Exited s) else None
  | Exited => None
  end.

(** A value for the error channel goes through when the main goroutine is in its
    [select]. *)
Definition delivered (s : t) : option t :=
  match main s with Selecting => Some (set_main (Stopping stops) s) | _ => None end.

Definition serveStep (onTor : bool) (s : t) : option t :=
  match serverOf onTor s with
  | Some Listening => if closedOf onTor s then Some (set_server onTor Offering s) else None
  | Some Offering =>
      match delivered s with
      | Some s' => Some (set_server onTor Ended s')
      | None => if quit s then Some (set_server onTor Ended s) else None
      end
  | _ => None
  end.

(** The second [select] has a default case: an error that nobody waits for is
    dropped. *)
Definition loopStep (s : t) : option t :=
  match reader s with
  | Some Checking => Some (set_reader (if challengerQuit s then Gone else Receiving) s)
  | Some Signalling => Some (set_reader Gone (default s (delivered s)))
  | _ => None
  end.

Definition receiveStep (m : message) (s : t) : option t :=
  match reader s, m with
  | Some Receiving, Update => Some (set_reader Checking s)
  | Some Receiving, Unusable => Some (set_reader Gone s)
  | Some Receiving, Failure => Some (set_reader Signalling s)
  | Some Receiving, Canceled => if challengerQuit s then Some (set_reader Gone s) else None
  | _, _ => None
  end.

(** The requests of a server that has been started check the status of an invoice when
    there is a challenger, also while it is being stopped; its server is closed only
    after it. *)
Definition served (s : t) : bool :=
  match reader s, https s, tor s with
  | Some _, Some _, _ | Some _, _, Some _ => true
  | _, _, _ => false
  end.

Definition askStep (s : t) : option t :=
  if served s && negb (bool_decide (main s = Exited)) then Some (set_checks (Blocked :: checks s) s)
  else None.

Definition checkStep (from : check) (i : nat) (s : t) : option t :=
  match from, checks s !! i with
  | Blocked, Some Blocked => Some (set_checks (<[i := Released]> (checks s)) s)
  | Released, Some Released => Some (set_checks (delete i (checks s)) s)
  | _, _ => None
  end.

Definition step (a : action) (s : t) : option t :=
  match a with
  | Asks => askStep s
  | Answered i => checkStep Blocked i s
  | Quits i => if challengerQuit s then checkStep Blocked i s else None
  | Returns i => checkStep Released i s
  | Main => mainStep s
  | Interrupted => delivered s
  | Fails onTor =>
      match serverOf onTor s with Some Listening => Some (set_server onTor Offering s) | _ => None end
  | Serves onTor => serveStep onTor s
  | Loops => loopStep s
  | Receives m => receiveStep m s
  end.

(** The rounds of the stream while the challenger is not stopped: with the calls of
    new requests the only steps that can go on for ever. *)
Definition round (a : action) (s : t) : bool :=
  negb (challengerQuit s) &&
  match a, reader s with
  | Loops, Some Checking => true
  | Receives Update, _ => true
  | _, _ => false
  end.

Definition turns (s s' : t) : Prop := exists a, round a s = true /\ step a s = Some s'.
Definition goes (s s' : t) : Prop :=
  exists a, round a s = false /\ a ≠ Asks /\ step a s = Some s'.

(** The steps that need nobody outside the process; [Canceled] is what a [Recv] ends
    with once its context is cancelled. *)
Definition own (a : action) : bool :=
  match a with
  | Main | Serves _ | Loops | Receives Canceled | Quits _ | Returns _ => true
  | _ => false
  end.

Definition stuck (s : t) : Prop := forall a, own a = true -> step a s = None.
End Stops.

Definition start (l0 : list event) : t := {|
  main := Starting l0; did := []; reader := None; https := None; tor := None; checks := [] |}.

(** *** It ends *)

(** How many steps a status check has left. *)
Definition checkWeight (c : check) : nat := match c with Blocked => 2 | Released => 1 end.

Section Ends.
Context (l0 stops : list event).
Context (https_closed : ECloseServer ∈ stops).
Context (tor_closed : ETorListen ∈ l0 ++ stops -> ECloseTor ∈ stops).
Context (once : NoDup (l0 ++ stops)).

(** What is left to do. *)
Definition todo (p : pc) : list event :=
  match p with
  | Starting l => l ++ stops
  | Selecting => stops
  | Stopping l | Joining l => l
  | Waiting | Exited => []
  end.

Record ok (s : t) : Prop := {
  in_order : did s ++ todo (main s) = l0 ++ stops;
  joining : forall l, main s = Joining l -> challengerQuit s = true;
  https_listens : https s ≠ None -> EListen ∈ did s;
  tor_listens : tor s ≠ None -> ETorListen ∈ did s
}.

Lemma daemon_ok_start : ok (start l0).
Proof. by split. Qed.

Lemma ok_does ev l p s :
  ok s -> todo (main s) = ev :: l -> todo p = l ->
  (forall l', p = Joining l' -> ev = EStopChallenger) -> ok (does ev p s).
Proof.
  intros [Ho Hj Hh Ht] Hm Hp Hq. split; cbn.
  - by rewrite <- app_assoc, Hp, <- Ho, Hm.
  - intros l' ->. rewrite (Hq _ eq_refl). apply bool_decide_eq_true. cbn. set_solver.
  - destruct ev; cbn; set_solver.
  - destruct ev; cbn; set_solver.
Qed.

Lemma ok_main p s :
  ok s -> todo p = todo (main s) -> (forall l, p ≠ Joining l) -> ok (set_main p s).
Proof. intros [Ho Hj Hh Ht] Hp Hn. split; cbn; [by rewrite Hp|naive_solver|done..]. Qed.

Lemma ok_reader r s : ok s -> ok (set_reader r s).
Proof. by intros [Ho Hj Hh Ht]. Qed.

Lemma ok_checks cs s : ok s -> ok (set_checks cs s).
Proof. by intros [Ho Hj Hh Ht]. Qed.

(** A step of the checks changes nothing but them. *)
Lemma checkStep_inv from i s s' :
  checkStep from i s = Some s' -> exists cs, s' = set_checks cs s /\
    (sum_list_with checkWeight cs < sum_list_with checkWeight (checks s))%nat.
Proof.
  unfold checkStep. destruct from, (checks s !! i) as [[]|] eqn:E; try done; intros [= <-];
    (eexists; split; [done|]).
  - pose proof (sum_insert checkWeight _ _ _ Released E). cbn in *. lia.
  - pose proof (sum_delete checkWeight _ _ _ E). cbn in *. lia.
Qed.

Lemma ok_server b v s : ok s -> serverOf b s ≠ None -> ok (set_server b v s).
Proof.
  intros [Ho Hj Hh Ht] Hs. split; cbn; [done..| |]; destruct b; try done; intros _; auto.
Qed.

Lemma ok_delivered s s' : ok s -> delivered stops s = Some s' -> ok s'.
Proof.
  intros Hs. unfold delivered. destruct (main s) eqn:E; [done| |done..].
  intros [= <-]. apply ok_main; [done|by rewrite E|done].
Qed.

Lemma serverOf_delivered b s s' : delivered stops s = Some s' -> serverOf b s' = serverOf b s.
Proof. unfold delivered. destruct (main s); [done| |done..]. by intros [= <-]. Qed.

Lemma daemon_ok_step a s s' : ok s -> step stops a s = Some s' -> ok s'.
Proof.
  intros Hs. destruct a as [| |b|b| |m| |i|i|i]; cbn [step].
  - unfold mainStep. destruct (main s) as [[|ev l]| |[|ev l]|l| |] eqn:E; [| |done|..].
    + intros [= <-]. apply ok_main; [done|by rewrite E|done].
    + intros [= <-]. eapply ok_does; [done|by rewrite E|done|done].
    + intros [= <-]. apply ok_main; [done|by rewrite E|done].
    + intros [= <-]. eapply ok_does; [done|by rewrite E|by destruct ev|by destruct ev].
    + intros Hstep. assert (s' = set_main (Stopping l) s) as -> by (by repeat case_match; simplify_eq).
      apply ok_main; [done|by rewrite E|done].
    + destruct (_ && _); [|done]. intros [= <-]. apply ok_main; [done|by rewrite E|done].
    + done.
  - by apply ok_delivered.
  - destruct (serverOf b s) as [[]|] eqn:E; [|done..]. intros [= <-].
    apply ok_server; [done|by rewrite E].
  - unfold serveStep. destruct (serverOf b s) as [[]|] eqn:E; [| |done..].
    + destruct (closedOf b s); [|done]. intros [= <-]. apply ok_server; [done|by rewrite E].
    + destruct (delivered stops s) as [s1|] eqn:Ed.
      * intros [= <-]. apply ok_server; [by eapply ok_delivered|].
        by rewrite (serverOf_delivered _ _ _ Ed), E.
      * destruct (quit s); [|done]. intros [= <-]. apply ok_server; [done|by rewrite E].
  - unfold loopStep. destruct (reader s) as [[]|]; [|done| |done..]; intros [= <-];
      apply ok_reader; [done|]. destruct (delivered stops s) as [s1|] eqn:Ed; [|done].
    by eapply ok_delivered.
  - unfold receiveStep. destruct (reader s) as [[]|], m; try done; try (intros [= <-]; by apply ok_reader).
    destruct (challengerQuit s); [|done]. intros [= <-]. by apply ok_reader.
  - unfold askStep. destruct (_ && _); [|done]. intros [= <-]. by apply ok_checks.
  - intros (cs & -> & _)%checkStep_inv. by apply ok_checks.
  - destruct (challengerQuit s); [|done]. intros (cs & -> & _)%checkStep_inv. by apply ok_checks.
  - intros (cs & -> & _)%checkStep_inv. by apply ok_checks.
Qed.

Lemma daemon_exec_ok l s : exec (step stops) l (start l0) = Some s -> ok s.
Proof. apply (exec_inv (step stops) ok); [by apply daemon_ok_step|apply daemon_ok_start]. Qed.

(** Every step but a round of the stream makes the weight smaller, and a round
    keeps it. *)
Definition pcWeight (p : pc) : nat :=
  match p with
  | Starting _ => 8 | Selecting => 7 | Joining _ => 5 | Stopping _ => 4 | Waiting => 2 | Exited => 0
  end.
Definition readWeight (q : bool) (r : option reading) : nat :=
  match r with
  | Some Receiving => 4 | Some Checking => if q then 3 else 4
  | Some Signalling => 2 | _ => 0
  end.
Definition serveWeight (v : option serving) : nat :=
  match v with Some Listening => 2 | Some Offering => 1 | _ => 0 end.

Definition weight (s : t) : nat :=
  10 * length (todo (main s)) + pcWeight (main s) + readWeight (challengerQuit s) (reader s) +
  serveWeight (https s) + serveWeight (tor s) + sum_list_with checkWeight (checks s).

Lemma readWeight_le q r : (readWeight q r <= 4)%nat.
Proof. by destruct r as [[]|], q; cbn; lia. Qed.

Lemma readWeight_quit q q' r : (q = true -> q' = true) -> (readWeight q' r <= readWeight q r)%nat.
Proof. destruct r as [[]|], q, q'; cbn; try lia; intros H; by specialize (H eq_refl). Qed.

Lemma challengerQuit_does ev p s : challengerQuit s = true -> challengerQuit (does ev p s) = true.
Proof.
  unfold challengerQuit. rewrite !bool_decide_eq_true. cbn [did does]. set_solver.
Qed.

Lemma weight_does ev l p s :
  todo (main s) = ev :: l -> todo p = l -> (pcWeight p <= pcWeight (main s) + 1)%nat ->
  (weight (does ev p s) < weight s)%nat.
Proof.
  intros Hm Hp Hw. unfold weight.
  pose proof (readWeight_quit _ _ (reader s) (challengerQuit_does ev p s)).
  pose proof (readWeight_le (challengerQuit (does ev p s)) (reader (does ev p s))).
  cbn [main does]. rewrite Hm, Hp. cbn [length].
  destruct ev; cbn [reader https tor checks does serveWeight] in *; lia.
Qed.

Lemma weight_main p s :
  todo p = todo (main s) -> (pcWeight p < pcWeight (main s))%nat ->
  (weight (set_main p s) < weight s)%nat.
Proof. intros Ht Hw. unfold weight. cbn [main set_main]. rewrite Ht. unfold challengerQuit. cbn. lia. Qed.

Lemma weight_delivered s s' : delivered stops s = Some s' -> (weight s' < weight s)%nat.
Proof.
  unfold delivered. destruct (main s) eqn:E; [done| |done..]. intros [= <-].
  apply weight_main; rewrite E; cbn; (done || lia).
Qed.

Lemma weight_server b v s :
  (serveWeight (Some v) < serveWeight (serverOf b s))%nat ->
  (weight (set_server b v s) < weight s)%nat.
Proof. unfold weight, challengerQuit. destruct b; cbn [main reader did https tor checks set_server serverOf]; lia. Qed.

Lemma weight_reader r s :
  (readWeight (challengerQuit s) (Some r) < readWeight (challengerQuit s) (reader s))%nat ->
  (weight (set_reader r s) < weight s)%nat.
Proof. unfold weight, challengerQuit. cbn [main reader did https tor checks set_reader]. lia. Qed.

Lemma weight_checks from i s s' : checkStep from i s = Some s' -> (weight s' < weight s)%nat.
Proof.
  intros (cs & -> & Hlt)%checkStep_inv. unfold weight, challengerQuit.
  cbn [main reader did https tor checks set_checks]. lia.
Qed.

Lemma goes_weight s s' : goes stops s s' -> (weight s' < weight s)%nat.
Proof.
  intros (a & Ha & Hnew & Hs). destruct a as [| |b|b| |m| |i|i|i]; cbn [step] in Hs.
  - unfold mainStep in Hs. destruct (main s) as [[|ev l]| |[|ev l]|l| |] eqn:E; [| |done|..].
    + injection Hs as <-. apply weight_main; rewrite E; cbn; (done || lia).
    + injection Hs as <-. eapply weight_does; rewrite ?E; cbn; [done|done|lia].
    + injection Hs as <-. apply weight_main; rewrite E; cbn; (done || lia).
    + injection Hs as <-. eapply weight_does; rewrite ?E; [done|by destruct ev|destruct ev; cbn; lia].
    + assert (s' = set_main (Stopping l) s) as -> by (by repeat case_match; simplify_eq).
      apply weight_main; rewrite E; cbn; (done || lia).
    + destruct (_ && _); [|done]. injection Hs as <-. apply weight_main; rewrite E; cbn; (done || lia).
    + done.
  - by apply weight_delivered.
  - destruct (serverOf b s) as [[]|] eqn:E; [|done..]. injection Hs as <-.
    apply weight_server. rewrite E. cbn. lia.
  - unfold serveStep in Hs. destruct (serverOf b s) as [[]|] eqn:E; [| |done..].
    + destruct (closedOf b s); [|done]. injection Hs as <-. apply weight_server. rewrite E. cbn. lia.
    + destruct (delivered stops s) as [s1|] eqn:Ed.
      * injection Hs as <-. pose proof (weight_delivered _ _ Ed).
        assert (weight (set_server b Ended s1) < weight s1)%nat; [|lia].
        apply weight_server. rewrite (serverOf_delivered _ _ _ Ed), E. cbn. lia.
      * destruct (quit s); [|done]. injection Hs as <-. apply weight_server. rewrite E. cbn. lia.
  - unfold loopStep in Hs. unfold round in Ha. destruct (reader s) as [[]|] eqn:E; [|done| |done..].
    + rewrite andb_true_r, negb_false_iff in Ha. rewrite Ha in Hs. injection Hs as <-.
      apply weight_reader. rewrite E, Ha. cbn. lia.
    + injection Hs as <-. destruct (delivered stops s) as [s1|] eqn:Ed; cbn [default from_option]; unfold id.
      * pose proof (weight_delivered _ _ Ed).
        assert (weight (set_reader Gone s1) < weight s1)%nat; [|lia]. apply weight_reader.
        unfold delivered in Ed. destruct (main s); [done| |done..]. injection Ed as <-.
        cbn [reader set_main]. rewrite E. cbn. lia.
      * apply weight_reader. rewrite E. cbn. lia.
  - unfold receiveStep in Hs. unfold round in Ha.
    destruct (reader s) as [[]|] eqn:E; try (by destruct m).
    destruct m; [|injection Hs as <-; apply weight_reader; rewrite E; cbn; lia..|].
    + rewrite andb_true_r, negb_false_iff in Ha. injection Hs as <-.
      apply weight_reader. rewrite E, Ha. cbn. lia.
    + destruct (challengerQuit s); [|done]. injection Hs as <-.
      apply weight_reader. rewrite E. cbn. lia.
  - done.
  - by eapply weight_checks.
  - destruct (challengerQuit s); [|done]. by eapply weight_checks.
  - by eapply weight_checks.
Qed.

Lemma turns_weight s s' : turns stops s s' -> weight s' = weight s.
Proof.
  intros (a & Ha & Hs). unfold round in Ha. apply andb_true_iff in Ha as [Hq%negb_true_iff Ha].
  assert (forall r, readWeight false (Some r) = readWeight false (reader s) ->
    weight (set_reader r s) = weight s) as Hw.
  { intros r Hr. unfold weight. unfold challengerQuit in *. cbn [main reader did https tor checks set_reader].
    rewrite Hq. lia. }
  destruct a as [| | | | |[]| | | |]; try done; cbn [step] in Hs.
  - unfold loopStep in Hs. destruct (reader s) as [[]|] eqn:E; try done.
    rewrite Hq in Hs. injection Hs as <-. apply Hw. done.
  - unfold receiveStep in Hs. destruct (reader s) as [[]|] eqn:E; try done.
    injection Hs as <-. by apply Hw.
Qed.

Lemma no_endless_run s : sn (fun s s' => exists s1, rtc (turns stops) s s1 /\ goes stops s1 s') s.
Proof.
  apply (measure_sn _ weight). intros s1 s2 (s3 & Ht & Hg).
  apply goes_weight in Hg. enough (weight s3 = weight s1) by lia. clear Hg.
  induction Ht as [|s1 s4 s3 H1 Ht IH]; [done|]. rewrite IH. by apply turns_weight.
Qed.

(** *** It goes on until it is over *)

Definition stopping (p : pc) : Prop :=
  match p with Starting _ | Selecting => False | _ => True end.

(** What makes the program end: it is stopping, or a server has failed. *)
Definition due (s : t) : Prop := stopping (main s) \/ exists b, serverOf b s = Some Offering.

Lemma serverOf_does b ev l p s :
  ok s -> todo (main s) = ev :: l -> serverOf b s ≠ None -> serverOf b (does ev p s) = serverOf b s.
Proof.
  intros [Ho Hj Hh Ht] Hm Hb.
  assert (ev ∉ did s) as Hev.
  { rewrite Hm in Ho. rewrite <- Ho in once. apply NoDup_app in once as (_ & Hd & _).
    intros Hin. apply (Hd _ Hin). by left. }
  destruct b; cbn in *; destruct ev; try done; exfalso; auto.
Qed.

Lemma serverOf_set b b' v s :
  serverOf b (set_server b' v s) = if Bool.eqb b b' then Some v else serverOf b s.
Proof. by destruct b, b'. Qed.

Lemma stopping_delivered s s' : delivered stops s = Some s' -> stopping (main s').
Proof. unfold delivered. destruct (main s); [done| |done..]. by intros [= <-]. Qed.

Lemma due_step a s s' : ok s -> due s -> step stops a s = Some s' -> due s'.
Proof.
  intros Hs Hd Hstep. assert (Hkeep : forall cs, due (set_checks cs s)).
  { intros cs. destruct Hd as [Hd|[b Hb]]; [by left|right; by exists b]. }
  destruct a as [| |b|b| |m| |i|i|i]; cbn [step] in Hstep.
  - unfold mainStep in Hstep. destruct (main s) as [[|ev l]| |[|ev l]|l| |] eqn:E.
    + injection Hstep as <-. destruct Hd as [Hd|[b Hb]]; [by rewrite E in Hd|right; by exists b].
    + injection Hstep as <-. destruct Hd as [Hd|[b Hb]]; [by rewrite E in Hd|right]. exists b.
      erewrite serverOf_does; [done|done|by rewrite E|by rewrite Hb].
    + done.
    + injection Hstep as <-. by left.
    + injection Hstep as <-. left. by destruct ev.
    + assert (s' = set_main (Stopping l) s) as -> by (by repeat case_match; simplify_eq). by left.
    + destruct (_ && _); [|done]. injection Hstep as <-. by left.
    + done.
  - left. by eapply stopping_delivered.
  - destruct (serverOf b s) as [[]|] eqn:E; [|done..]. injection Hstep as <-. right. exists b.
    rewrite serverOf_set. by destruct b.
  - unfold serveStep in Hstep. destruct (serverOf b s) as [[]|] eqn:E; [| |done..].
    + destruct (closedOf b s); [|done]. injection Hstep as <-. right. exists b.
      rewrite serverOf_set. by destruct b.
    + destruct (delivered stops s) as [s1|] eqn:Ed.
      * injection Hstep as <-. left. apply stopping_delivered in Ed. done.
      * unfold quit in Hstep. destruct (main s) eqn:Em; try done; injection Hstep as <-; left; cbn; by rewrite Em.
  - unfold loopStep in Hstep. destruct (reader s) as [[]|] eqn:E; [|done| |done..]; injection Hstep as <-.
    + destruct Hd as [Hd|[b Hb]]; [by left|right; by exists b].
    + destruct (delivered stops s) as [s1|] eqn:Ed; [left; apply (stopping_delivered _ _ Ed)|].
      destruct Hd as [Hd|[b Hb]]; [by left|right; by exists b].
  - assert (Hk : forall r, due (set_reader r s)).
    { intros r. destruct Hd as [Hd|[b Hb]]; [by left|right; by exists b]. }
    unfold receiveStep in Hstep. destruct (reader s) as [[]|], m; try done;
      repeat case_match; simplify_eq; apply Hk.
  - unfold askStep in Hstep. destruct (_ && _); [|done]. by injection Hstep as <-.
  - by apply checkStep_inv in Hstep as (cs & -> & _).
  - destruct (challengerQuit s); [|done]. by apply checkStep_inv in Hstep as (cs & -> & _).
  - by apply checkStep_inv in Hstep as (cs & -> & _).
Qed.

Lemma any_due s s' : ok s -> due s -> rtc (any (step stops)) s s' -> ok s' /\ due s'.
Proof.
  intros Hs Hd. apply (any_inv (step stops) (fun s => ok s /\ due s)); [|done].
  intros a s1 s2 [??] ?. split; [by eapply daemon_ok_step|by eapply due_step].
Qed.

(** A goroutine that serves is not stuck when its server is closed. *)
Lemma serves_on b s :
  closedOf b s = true -> quit s = true -> over (serverOf b s) = false ->
  step stops (Serves b) s ≠ None.
Proof.
  intros Hc Hq Ho. cbn [step]. unfold serveStep.
  destruct (serverOf b s) as [[]|]; [by rewrite Hc| |done..].
  destruct (delivered stops s); [done|]. by rewrite Hq.
Qed.

(** A check does not wait for ever once the challenger is stopped. *)
Lemma no_check_left s : challengerQuit s = true -> stuck stops s -> checks s = [].
Proof.
  intros Hq Hn. destruct (checks s) as [|[] cs] eqn:E; [done|..].
  - specialize (Hn (Quits 0) eq_refl). cbn [step] in Hn. unfold checkStep in Hn. by rewrite Hq, E in Hn.
  - specialize (Hn (Returns 0) eq_refl). cbn [step] in Hn. unfold checkStep in Hn. by rewrite E in Hn.
Qed.

Lemma daemon_progress s : ok s -> due s -> stuck stops s -> main s = Exited.
Proof.
  intros [Ho Hj Hh Ht] Hd Hn. pose proof (Hn Main eq_refl) as Hm. cbn [step] in Hm. unfold mainStep in Hm.
  destruct (main s) as [[|ev l]| |[|ev l]|l| |] eqn:E; try done.
  - destruct Hd as [Hd|[b Hb]]; [by rewrite E in Hd|].
    specialize (Hn (Serves b) eq_refl). cbn [step] in Hn. unfold serveStep in Hn.
    rewrite Hb in Hn. unfold delivered in Hn. by rewrite E in Hn.
  - specialize (Hj _ eq_refl). rewrite (no_check_left s Hj Hn) in Hm.
    destruct (reader s) as [[]|] eqn:Er; try done.
    + specialize (Hn Loops eq_refl). cbn [step] in Hn. unfold loopStep in Hn. by rewrite Er in Hn.
    + specialize (Hn (Receives Canceled) eq_refl). cbn [step] in Hn. unfold receiveStep in Hn.
      by rewrite Er, Hj in Hn.
    + specialize (Hn Loops eq_refl). cbn [step] in Hn. unfold loopStep in Hn. by rewrite Er in Hn.
  - destruct (over (https s)) eqn:E1; [destruct (over (tor s)) eqn:E2; [done|]|].
    + exfalso. apply (serves_on true s); [|unfold quit; by rewrite E|done|by apply Hn].
      cbn [closedOf]. unfold torClosed. apply bool_decide_eq_true.
      cbn [todo] in Ho. rewrite app_nil_r in Ho. rewrite Ho. apply elem_of_app. right.
      apply tor_closed. rewrite <- Ho. apply Ht. by intros Hx; rewrite Hx in E2.
    + exfalso. apply (serves_on false s); [|unfold quit; by rewrite E|done|by apply Hn].
      cbn [closedOf]. unfold httpsClosed. apply bool_decide_eq_true.
      cbn [todo] in Ho. rewrite app_nil_r in Ho. rewrite Ho. set_solver.
Qed.
End Ends.

(** *** The steps of the program's [Start] and [Stop] *)

Lemma started_stops e cfg :
  (Stop (Run.started e cfg)).1 =
    (if Config.Disable (Config.Authenticator cfg) then [] else [EStopChallenger]) ++
    [EProxyCleanup; ECloseDatabase; ECloseProxy; ECloseServer] ++
    (if Config.V3 (Config.Tor cfg) then [ECloseTor] else []).
Proof.
  unfold Stop, Run.started. cbn [hasChallenger hasCleanup closeDB closeTor].
  by destruct (Config.Disable _), (Config.V3 _).
Qed.

Lemma started_shape e cfg l0 :
  Start (Run.startEnv e) cfg = (l0, Ok tt) ->
  let stops := (Stop (Run.started e cfg)).1 in
  ECloseServer ∈ stops /\ (ETorListen ∈ l0 ++ stops -> ECloseTor ∈ stops) /\ NoDup (l0 ++ stops).
Proof.
  intros (_ & _ & ->)%start_sequence. cbn zeta. rewrite started_stops.
  destruct (bool_decide _), (decide (Config.Profile cfg ≠ 0)), (Config.Disable _), (Config.V3 _);
    cbn [app]; (split; [set_solver|split; [set_solver|]]); by apply (bool_decide_unpack _).
Qed.
End Daemon.

(** ** Properties *)
Module DaemonProperties.
Import Daemon.

(** C11: the shutdown completes: once the program is stopping, after the signal or an
    error, or a server has failed, no goroutine of the program can keep it from its
    end: neither the servers nor the invoice stream nor the status checks that the
    challenger waits for.  Apart from rounds of the invoice stream before the
    challenger is stopped, and from status checks that new requests start, there are
    finitely many more steps, however the goroutines are scheduled; when none of
    them can take another, [run] has returned, and what was started and stopped is
    what [Programs] says, in that order. *)
Theorem shutdown_completes e cfg0 cfg l0 acts s :
  Run.Intercept e = Ok tt -> Config.getConfig (Run.configEnv e) = Ok cfg0 ->
  Run.setupLogging e cfg0 = (cfg, Ok tt) -> Start (Run.startEnv e) cfg = (l0, Ok tt) ->
  let stops := (Stop (Run.started e cfg)).1 in
  exec (step stops) acts (start l0) = Some s -> due s ->
  sn (fun s s' => exists s1, rtc (turns stops) s s1 /\ goes stops s1 s') s /\
  forall s', rtc (any (step stops)) s s' -> stuck stops s' ->
    main s' = Exited /\ did s' = (Run.run e).1.
Proof.
  intros Hi Hc Hl Hstart stops Hrun Hd.
  destruct (started_shape e cfg l0 Hstart) as (Hs & Ht & Hn). fold stops in Hs, Ht, Hn.
  split; [by apply (no_endless_run l0)|]. intros s' Hr Hnf.
  assert (ok l0 stops s) as Hok by by eapply daemon_exec_ok.
  assert (ok l0 stops s' /\ due s') as [Hok' Hd'] by (eapply any_due; [..|exact Hr]; done).
  assert (main s' = Exited) as He by by eapply daemon_progress. split; [done|].
  destruct Hok' as [Ho _ _ _]. rewrite He in Ho. cbn [todo] in Ho. rewrite app_nil_r in Ho.
  by rewrite Ho, (Run.run_started _ _ _ _ Hi Hc Hl Hstart).
Qed.

(** What [shutdown_completes] leaves out does happen: the servers are closed after the
    challenger is stopped, so that requests that keep coming, each before the call of
    the last one is over, keep the wait of the challenger from its end, although each
    call sees the quit signal at once. *)
Lemma requests_delay_shutdown stops l s :
  main s = Joining l -> challengerQuit s = true -> served s = true -> checks s = [Blocked] ->
  exec (step stops) [Asks; Quits 1; Returns 1] s = Some s.
Proof.
  destruct s as [m d r h o cs]. cbn [main checks]. intros -> Hq Hv ->.
  cbn [exec step]. unfold askStep. rewrite Hv, bool_decide_eq_false_2 by done. cbn [negb andb mbind option_bind].
  replace (challengerQuit (set_checks _ _)) with true by (by rewrite <- Hq).
  done.
Qed.

(** an error of the invoice stream that comes while the program is still starting
    is dropped: whatever the configuration, with an authenticator, there is a run
    after which the proxy serves without anybody reading the stream, so that no
    payment will be seen any more, and nothing but the signal or the failure of a
    server ends this. *)
Theorem early_stream_error_is_lost e cfg l0 :
  Start (Run.startEnv e) cfg = (l0, Ok tt) ->
  Config.Disable (Config.Authenticator cfg) = false ->
  let stops := (Stop (Run.started e cfg)).1 in
  exists acts s, exec (step stops) acts (start l0) = Some s /\ Receives Failure ∈ acts /\
    main s = Selecting /\ did s = l0 /\ reader s = Some Gone /\ https s = Some Listening /\
    forall a s', step stops a s = Some s' -> a = Interrupted \/ (exists b, a = Fails b) \/ a = Asks.
Proof.
  intros (_ & _ & ->)%start_sequence Hd. cbn zeta. rewrite started_stops, Hd.
  exists (replicate ((if bool_decide (StartPrometheusExporter (Run.startEnv e) = Ok true) then 1 else 0) +
            (if decide (Config.Profile cfg ≠ 0) then 3 else 2)) Main ++
          [Loops; Receives Failure; Loops] ++
          replicate (if Config.V3 (Config.Tor cfg) then 7 else 3) Main).
  destruct (bool_decide _), (decide (Config.Profile cfg ≠ 0)), (Config.V3 (Config.Tor cfg));
    (eexists; split; [vm_compute; reflexivity|]);
    (split; [cbn; set_solver|]); (split_and!; [done..|]);
    intros a s' Ha; destruct a as [| |b|[]| |[]| |i|i|i];
    first [discriminate Ha|by left|by right; left; eexists|by right; right].
Qed.

(** *** Witnesses: the proxy of [Programs], with lnd and Tor *)
Definition toy_stops : list event :=
  (Stop (Run.started ProgramsProperties.toy_run_env ProgramsProperties.toy_config)).1.
Definition toy_start : list event :=
  (Start (Run.startEnv ProgramsProperties.toy_run_env) ProgramsProperties.toy_config).1.
(** Started, and interrupted. *)
Definition toy_actions : list action := replicate 11 Main ++ [Interrupted].

Lemma shutdown_completes_witness :
  exists s, exec (step toy_stops) toy_actions (start toy_start) = Some s /\
    forall s', rtc (any (step toy_stops)) s s' -> stuck toy_stops s' -> main s' = Exited.
Proof.
  destruct (exec (step toy_stops) toy_actions (start toy_start)) as [s|] eqn:E; [|by vm_compute in E].
  exists s. split; [reflexivity|]. intros s' Hr Hnf.
  refine (proj1 (proj2 (shutdown_completes ProgramsProperties.toy_run_env
    ProgramsProperties.toy_config
    (Config.set_DebugLevel ProgramsProperties.toy_config Run.defaultLogLevel)
    toy_start toy_actions s _ _ _ _ E _) s' Hr Hnf)); try reflexivity.
  left. vm_compute in E. by injection E as <-.
Defined.

Lemma early_stream_error_is_lost_witness :
  exists acts s, exec (step toy_stops) acts (start toy_start) = Some s /\ Receives Failure ∈ acts /\
    main s = Selecting /\ reader s = Some Gone.
Proof.
  destruct (early_stream_error_is_lost ProgramsProperties.toy_run_env ProgramsProperties.toy_config
    toy_start) as (acts & s & Hr & Hf & Hm & _ & Hg & _); [reflexivity..|].
  exists acts, s. split; [exact Hr|]. split; [exact Hf|]. split; [exact Hm|exact Hg].
Defined.

End DaemonProperties.
